(* ===== verification/_CoqProject ===== *)
-Q . S2P
Prelude.v
Sha256.v
Encoding.v
Protocol.v
Work.v
Padding.v
Crypto.v
Identity.v
Group.v
Files.v
StoreLock.v
NodeStore.v
NodeServer.v
NodeKeys.v
ClientStore.v
ClientRecovery.v
Mix.v
Directory.v
Hpke.v
ClientNode.v
ClientCore.v
Account.v
Message.v
Media.v
Transport.v
Node.v
ClientDirectory.v
DirectoryHttp.v
Call.v
