(* ===== verification/Prelude.v ===== *)
(** Verification library for Propagare, a privacy-preserving messenger prototype (the Go
    module under src/).

    * The program

    Users have accounts (src/account) whose identifiers are hashes of their keys
    (src/identity). Messages are signed (src/message), padded and encrypted to devices
    (src/pqcrypto), and stored as expiring items (src/protocol) on several untrusted
    storage nodes (src/node) by a client core (src/client) that demands a quorum of signed
    receipts, merges what nodes answer, audits them and remembers deliveries in an
    encrypted local store. Files travel as encrypted chunks over the same core
    (src/media); groups are hash chains of signed actions (src/group); nodes find each
    other in a directory run by pinned authorities (src/nodedir), from which clients
    bootstrap; connections pin node keys (src/transportauth); traffic can be shaped by a
    constant-rate mix transport (src/mixtransport); calls exchange signed WebRTC
    descriptions (src/call).

    * The files and what they model

    - Prelude: errors, machine integers, bytes and strings, time, map iteration order,
      JSON interfaces, sorted maps, tactics, hint databases, shared lemmas.
    - Sha256, Encoding: SHA-256, and Go's hex, base64 and base32.
    - Protocol: protocol/types.go and canonical.go. Work: protocol/pow.go.
    - Padding, Crypto, Hpke: pqcrypto/padding.go, signatures.go, hpke.go.
    - Identity: identity/id.go. Group: group/state.go.
    - Files: a private directory with system calls that may fail. StoreLock: the lock
      files and directory checks of node/store.go and client/store.go with
      store_lock_unix.go.
    - NodeStore: node/store.go with the file helpers of node/keys.go. NodeServer: the
      item endpoints and limiter of node/server.go, and config.go. NodeKeys: node/keys.go.
      Node: cmd/propagare-node/main.go, the directory endpoints and the request limit of
      node/server.go, the loop of nodedir/agent.go, and the running node.
    - ClientStore: client/store.go. ClientRecovery: its restart. ClientNode: client/reputation.go and the checks of
      client/http_node.go. ClientCore: client/core.go. ClientDirectory:
      client/directory.go and the connections of client/http_node.go.
    - Directory: nodedir/types.go, registry.go, agent.go, seeds.go. DirectoryHttp: the
      HTTP requests of nodedir/agent.go against the endpoints of Node.
    - Mix: mixtransport/types.go and scheduler.go.
    - Account: account/devices.go, profile.go, registration.go. Message:
      message/message.go, pipeline.go, receipt.go. Media: media/file.go.
    - Transport: transportauth/transport.go and pqcrypto/tls.go. Call: call/call.go.

    Definitions have the names of the Go functions and types they translate; a method is a
    function of its receiver. Fields of a struct carry a short prefix. A function with
    results (T, error) returns [Result T], one with an error only returns [option error],
    and one that changes an object returns the object it leaves behind. Names of their own
    are given to the loops of a function (load_loop in NodeStore, connectLoop in
    ClientDirectory, ...) and to the parts of a function that hold a mutex when several
    calls interleave (takeSlot in Mix, acceptReserve and acceptBody in Call).

    * How it is modelled

    - Integers are Z, with the wrap-around of their width where the source can reach it
      (u64, i64, ...). Times are nanoseconds since Go's zero time.
    - Clocks, randomness, the network, the file system and context cancellation are
      arguments: theorems hold for all of them. An operation takes
      the outcomes of its system calls as a function of the call and the entry it concerns
      ([IO] in Files); the calls of a function it calls have outcomes of their own
      ([inner]), so that every error path is covered.
    - Map iteration and the arrival order of concurrent answers are arguments too
      ([MapOrder], [Schedule], [arrival]).
    - Objects with a mutex are state machines whose steps are the critical sections;
      invariants are proved over all interleavings (Group, NodeStore, ClientStore,
      Directory, Node, StoreLock, Mix, Call). Objects behind pointers are in a heap where aliasing matters
      (the result channels of Mix, the WebRTC connections of Call). Some steps join
      neighbouring actions of one call: the rate check and the slot of a directory request
      (enterDirectory in Node), the work of Start and Accept between their reservations
      and the end of a session (startBody, acceptBody and closeEnd in Call), and the two
      looks at a lock file that compare what was opened with what has the name (StoreLock).
    - Packages outside the program are type classes: [Crypto] and [HPKE] (signatures,
      encryption), [AEAD], [X509], [WebRTC], [SdpParser], [UrlParser], [Netip], the JSON
      codecs [Marshaler] and [StrictDecoder], and the providers the program itself takes
      as interfaces ([RatchetProvider], [PrivateTransport], [ReplayStore], [SecretVault]).
      What is documented of them is a separate class of laws ([CryptoLaws], ...), a
      hypothesis only of the theorems that need it, and each is satisfied by a concrete
      instance in the module Toy or Sample that the witnesses use.
    - Components meet in interfaces: the client core is proved over any local store that
      keeps the laws of [LocalStore] (ClientStore does), and Media over any core that keeps the laws of
      [ChunkCore], which ClientCore fulfils.
    - SHA-256 is executable; nothing is assumed of it. Statements that would need it to be
      injective say instead that two given inputs are equal or collide.

    * What the theorems show

    - Storage: the node's store and the client's store account exactly, by the bytes of
      their files, and stay within their limits under any errors, open to what their directories hold, come back after a
      restart, lose nothing that is protected, and evict in the right order (NodeStore,
      ClientStore, ClientRecovery).
    - Node: a receipt means a valid and paid-for item is stored, a fetch is exact, deletion needs the token
      (NodeServer); work is found when it exists and is tested correctly (Work); a key
      survives restarts (NodeKeys), a directory is opened once (StoreLock), and a started
      node keeps its limits and answers truthfully under any interleaving (Node).
    - Client: a write that succeeds has a quorum of verified receipts of different nodes;
      fetches from lying nodes are valid, requested and complete; audits mean possession;
      deliveries are kept until they are deleted (ClientCore). Bootstrapping gives exactly
      the union of verified views, and connections reach the identities found (ClientDirectory,
      Transport).
    - Directory: only nodes admitted by a quorum of authorities, never rolled back by a
      merge, and a served snapshot is accepted by clients as long as its records verify
      (Directory); a node that registers over HTTP with an authority of the same program
      that has a place for it is attested (DirectoryHttp).
    - Groups: one owner at all times, the rules of administration exactly, no replay
      (Group).
    - Messages, files, accounts: what is sent opens at the recipient and only once in its
      lifetime; files are retrieved unchanged or a hash collides; profiles are certified;
      accounts are loaded as registered (Message, Media, Account).
    - Traffic and calls: constant rate, no command sent in a slot after its expiry, and one
      result per ticket (Mix); bounded calls
      without leaks, no replayed offers, one answer per call, honest calls connect (Call).
    - A theorem with hypotheses has a witness with the suffix _witness that applies it to
      a concrete run.

    * Bounds and fuel

    [SolveWork] takes fuel for its search; [SolveWork_terminates] gives the amount that is
    enough whenever a solution exists, and a result [None] is a search still running, which
    the client theorems keep apart from an error. [pieces] (Media) and [fieldsLoop] (Call)
    take the length of their input as fuel and use up at least one element per step, as
    [load_batches] (ClientStore) does with one more; [tempName] (Files) takes the number of
    taken names ([tempName_fresh]). All other recursion is structural.

    * Not modelled

    Flag parsing, logging and the timeouts of the HTTP server, the matching of patterns by
    its mux and the constant security headers; the lock files on systems other than Unix;
    group/provider.go (an interface without code), wiping of buffers, accessors that only
    forward to WebRTC, and the internals of TLS, X.509, WebRTC and JSON. *)
From Stdlib Require Export ZArith Lia.
From Stdlib.Strings Require Export Byte.
From stdpp Require Export base tactics list list_numbers gmap strings sorting numbers.

(** * Scopes and automation *)

#[global] Arguments Z.div : simpl never.
#[global] Arguments Z.modulo : simpl never.
#[global] Arguments Z.quot : simpl never.
#[global] Arguments Z.pow : simpl never.

Declare Scope go_scope.
Delimit Scope go_scope with go.

(** Facts used by [eauto] across the components. *)
Create HintDb go discriminated.

(** Rewriting rules (lengths, codecs) used by [autorewrite]. *)
Create Rewrite HintDb go_simpl.

(** * Errors *)

(** A Go [error] value is represented by its message; every sentinel error of
    the program has a message of its own, so [errors.Is] is string equality. *)
Abbreviation error := string (only parsing).

(** The pair (value, error) of a Go function that returns one or the other. *)
Inductive Result (A : Type) : Type :=
| Ok (a : A)
| Err (e : error).
Arguments Ok {A} a.
Arguments Err {A} e.

#[export] Instance Ok_inj {A} : Inj (=) (=) (@Ok A).
Proof. by intros ? ? [=]. Qed.

Definition result_bind {A B} (r : Result A) (k : A → Result B) : Result B :=
  match r with Ok a => k a | Err e => Err e end.

Notation "'let*' x ':=' r 'in' k" := (result_bind r (λ x, k))
  (at level 10, x name, r at level 100, k at level 200) : go_scope.

(** An [error] result ([None] is Go's [nil]) followed by more work. *)
Definition error_bind {B} (e : option error) (k : Result B) : Result B :=
  match e with Some e => Err e | None => k end.

Notation "'check' e ';;' k" := (error_bind e k)
  (at level 10, e at level 100, k at level 200) : go_scope.

Definition is_ok {A} (r : Result A) : bool :=
  match r with Ok _ => true | Err _ => false end.

Definition ok_or {A} (d : A) (r : Result A) : A := match r with Ok a => a | Err _ => d end.

Lemma ok_or_eq {A} (d : A) (r : Result A) : is_ok r = true → r = Ok (ok_or d r).
Proof. by destruct r. Qed.

Lemma NoDup_short {A} (l : list A) : (length l ≤ 1)%nat → NoDup l.
Proof. destruct l as [|x [|y l]]; simpl; intros; [constructor|apply NoDup_singleton|lia]. Qed.

(** * Machine integers *)

Abbreviation two8 := 256%Z.
Abbreviation two32 := 4294967296%Z.
Abbreviation two63 := 9223372036854775808%Z.
Abbreviation two64 := 18446744073709551616%Z.

Definition u8 (z : Z) : Z := z `mod` two8.
Definition u32 (z : Z) : Z := z `mod` two32.
Definition u64 (z : Z) : Z := z `mod` two64.
Definition i64 (z : Z) : Z := (z + two63) `mod` two64 - two63.

Lemma i64_small (z : Z) : (- two63 ≤ z < two63)%Z → i64 z = z.
Proof. unfold i64. intros. rewrite Z.mod_small; lia. Qed.

(** * Bytes, slices and strings *)

(** A Go [[]byte] is a list of bytes; [nil] and the empty slice coincide. A Go
    [string] is an immutable byte sequence: Rocq's [string]. *)
Abbreviation bytes := (list byte).

Definition b2z (b : byte) : Z := Z.of_N (Byte.to_N b).
Definition z2b (z : Z) : byte := default x00 (Byte.of_N (Z.to_N (z `mod` 256))).

#[export] Instance byte_eq_dec : EqDecision byte := Byte.byte_eq_dec.

#[export] Program Instance byte_countable : Countable byte :=
  inj_countable Byte.to_N Byte.of_N _.
Next Obligation. apply Byte.of_to_N. Qed.

Definition str_bytes (s : string) : bytes := String.list_byte_of_string s.
Definition bytes_str (b : bytes) : string := String.string_of_list_byte b.

(** [len] of a slice or string, as the Go [int] it is. *)
Definition blen {A} (l : list A) : Z := Z.of_nat (length l).
Definition slen (s : string) : Z := Z.of_nat (String.length s).

(** [bytes.Equal]. *)
Definition bytes_equal (l k : bytes) : bool := bool_decide (l = k).

(** The slice expression [l[lo:hi]], for [0 <= lo <= hi <= len l]. *)
Definition slice {A} (l : list A) (lo hi : Z) : list A :=
  take (Z.to_nat (hi - lo)) (drop (Z.to_nat lo) l).

(** [strings.HasSuffix]. *)
Definition HasSuffix (s suffix : string) : bool :=
  let n := (String.length s - String.length suffix)%nat in
  (String.length suffix <=? String.length s)%nat &&
  bool_decide (String.substring n (String.length suffix) s = suffix).

(** Go's [<] on strings is bytewise lexicographic order. *)
Definition str_ltb (s t : string) : bool :=
  match String.compare s t with Lt => true | _ => false end.

(** [binary.BigEndian] encodings of an [n]-byte integer (two's complement for
    the signed types, since only the residue modulo [256^n] is written). *)
Fixpoint be_encode (n : nat) (z : Z) : bytes :=
  match n with
  | O => []
  | S n => z2b (z / 256 ^ Z.of_nat n) :: be_encode n z
  end.

Definition be_step (acc : Z) (b : byte) : Z := acc * 256 + b2z b.
Definition be_decode (l : bytes) : Z := fold_left be_step l 0%Z.

(** * Time *)

(** A [time.Time] is the number of nanoseconds since Go's zero time (January 1,
    year 1, UTC), a [time.Duration] a number of nanoseconds. Locations and the
    monotonic reading do not enter: all the code's uses are [After], [Before],
    [Equal], [Add], [Sub], [Truncate] and the Unix readings. *)
Abbreviation Time := Z (only parsing).
Abbreviation Duration := Z (only parsing).

Definition Millisecond : Duration := 1000000.
Definition Second : Duration := 1000 * Millisecond.
Definition Minute : Duration := 60 * Second.
Definition Hour : Duration := 60 * Minute.

(** Seconds from Go's zero time to the Unix epoch. *)
Definition unix_epoch_seconds : Z := 62135596800.

Definition IsZero (t : Time) : bool := (t =? 0)%Z.
Definition After (t u : Time) : bool := (u <? t)%Z.
Definition Before (t u : Time) : bool := (t <? u)%Z.
Definition TEqual (t u : Time) : bool := (t =? u)%Z.
Definition TAdd (t : Time) (d : Duration) : Time := (t + d)%Z.

(** [Sub] saturates at the ends of the [Duration] range. *)
Definition TSub (t u : Time) : Duration := Z.max (- two63) (Z.min (two63 - 1) (t - u)).

Definition Truncate (t : Time) (d : Duration) : Time := (t - t `mod` d)%Z.
Definition Unix (t : Time) : Z := (t / Second - unix_epoch_seconds)%Z.
Definition UnixMilli (t : Time) : Z := (t / Millisecond - unix_epoch_seconds * 1000)%Z.

(** A time without sub-millisecond digits. *)
Definition ms_aligned (t : Time) : Prop := (t `mod` Millisecond = 0)%Z.

(** * Map iteration *)

(** Go ranges over a map in an unspecified order. Every operation that ranges
    over a map takes that order from this class; the theorems hold for all
    its instances. *)
Class MapOrder := {
  range_map {A} : gmap string A → list (string * A);
  range_map_perm {A} (m : gmap string A) : range_map m ≡ₚ map_to_list m;
  range_set : gset string → list string;
  range_set_perm (s : gset string) : range_set s ≡ₚ elements s;
}.

#[export] Program Instance default_order : MapOrder := {|
  range_map A m := map_to_list m;
  range_set s := elements s;
|}.
Solve Obligations with done.

(** A Go map read [m[k]] of a missing key yields the zero value. *)
Definition map_get {A} (zero : A) (m : gmap string A) (k : string) : A :=
  default zero (m !! k).

(** * JSON *)

(** [json.Marshal] and [json.Unmarshal] at a type. The theorems hold for every
    serialisation; where one needs the round trip of [encoding/json] it says so
    with [json_roundtrip], on the values [wf] that JSON text can carry. *)
Class Marshaler (A : Type) := Marshal : A → Result bytes.
Class Unmarshaler (A : Type) := Unmarshal : bytes → Result A.

(** A [json.Decoder] with [DisallowUnknownFields] that must find exactly one
    JSON value in its input. *)
Class StrictDecoder (A : Type) := decodeStrict : bytes → Result A.

Definition json_roundtrip {A} `{Marshaler A, Unmarshaler A} (wf : A → Prop) : Prop :=
  ∀ (a : A) (b : bytes), wf a → Marshal a = Ok b → Unmarshal b = Ok a.

(** A self-delimiting codec for countable types, with which the witnesses
    instantiate [Marshaler] and [Unmarshaler]: one byte per bit. *)
Module ToyCodec.

Fixpoint pos_bytes (p : positive) (rest : bytes) : bytes :=
  match p with
  | xH => x01 :: rest
  | xO p => x00 :: pos_bytes p rest
  | xI p => x02 :: pos_bytes p rest
  end.

Fixpoint take_pos (l : bytes) : option (positive * bytes) :=
  match l with
  | x01 :: l => Some (xH, l)
  | x00 :: l => '(p, r) ← take_pos l; Some (xO p, r)
  | x02 :: l => '(p, r) ← take_pos l; Some (xI p, r)
  | _ => None
  end.

Definition put {A} `{Countable A} (x : A) (rest : bytes) : bytes := pos_bytes (encode x) rest.

Definition get {A} `{Countable A} (l : bytes) : option (A * bytes) :=
  '(p, r) ← take_pos l; x ← decode p; Some (x, r).

Lemma take_pos_bytes (p : positive) (r : bytes) : take_pos (pos_bytes p r) = Some (p, r).
Proof. induction p as [p IH|p IH|]; simpl; by rewrite ?IH. Qed.

Lemma get_put {A} `{Countable A} (x : A) (r : bytes) : get (put x r) = Some (x, r).
Proof. unfold get, put. rewrite take_pos_bytes. simpl. by rewrite decode_encode. Qed.

Lemma put_nonempty {A} `{Countable A} (x : A) (r : bytes) : (0 < blen (put x r))%Z.
Proof. unfold put, blen. destruct (encode x); simpl; lia. Qed.

End ToyCodec.

(** * Tactics *)

(** Turn the boolean guards of the program into propositions. *)
Ltac unbool :=
  repeat match goal with
  | H : context [negb _ = true] |- _ => rewrite negb_true_iff in H
  | H : context [negb _ = false] |- _ => rewrite negb_false_iff in H
  | H : (_ || _)%bool = false |- _ => apply orb_false_iff in H as [? ?]
  | H : (_ && _)%bool = true |- _ => apply andb_true_iff in H as [? ?]
  | H : (_ =? _)%Z = true |- _ => apply Z.eqb_eq in H
  | H : (_ =? _)%Z = false |- _ => apply Z.eqb_neq in H
  | H : (_ <? _)%Z = true |- _ => apply Z.ltb_lt in H
  | H : (_ <? _)%Z = false |- _ => apply Z.ltb_ge in H
  | H : (_ <=? _)%Z = true |- _ => apply Z.leb_le in H
  | H : (_ <=? _)%Z = false |- _ => apply Z.leb_gt in H
  | H : bool_decide _ = true |- _ => apply bool_decide_eq_true in H
  | H : bool_decide _ = false |- _ => apply bool_decide_eq_false in H
  end.

(** A guard that cannot hold: refute each of its alternatives. *)
Ltac refute H :=
  repeat (apply orb_true_iff in H as [H|H]); unbool; first [congruence|lia|tauto].

(** Follow the control flow of a handler in a hypothesis. *)
Ltac step_if H :=
  match type of H with
  | context [if ?b then _ else _] =>
      lazymatch b with
      | context [if _ then _ else _] => fail
      | _ => let E := fresh "Hif" in destruct b eqn:E; try discriminate H
      end
  end.

(** Linear arithmetic with division and remainder. *)
Ltac div_lia := Z.to_euclidean_division_equations; lia.

(** Induction on the length of a list, for functions that consume it in groups. *)
Lemma list_len_ind {A} (P : list A → Prop) :
  (∀ l, (∀ k, (length k < length l)%nat → P k) → P l) → ∀ l, P l.
Proof.
  intros H l. remember (length l) as n eqn:E. revert l E.
  induction n as [n IH] using lt_wf_ind. intros l ->. apply H. eauto.
Qed.

(** * Lemmas on bytes and strings *)

Section byte_lemmas.
Local Open Scope Z_scope.

Lemma b2z_range (b : byte) : 0 ≤ b2z b < 256.
Proof. unfold b2z. pose proof (Byte.to_N_bounded b). lia. Qed.

Lemma z2b_b2z (b : byte) : z2b (b2z b) = b.
Proof.
  unfold z2b. rewrite Z.mod_small by apply b2z_range.
  unfold b2z. by rewrite N2Z.id, Byte.of_to_N.
Qed.

Lemma b2z_z2b (z : Z) : b2z (z2b z) = z `mod` 256.
Proof.
  pose proof (Z.mod_pos_bound z 256 ltac:(lia)) as Hr.
  unfold z2b, b2z. destruct (Byte.of_N _) as [b|] eqn:E; simpl.
  - apply Byte.to_of_N in E. rewrite E. lia.
  - apply Byte.of_N_None_iff in E. lia.
Qed.

Lemma b2z_z2b_small (z : Z) : 0 ≤ z < 256 → b2z (z2b z) = z.
Proof. intros. rewrite b2z_z2b. by apply Z.mod_small. Qed.

Lemma z2b_mod (z : Z) : z2b (z `mod` 256) = z2b z.
Proof. unfold z2b. by rewrite Z.mod_mod by lia. Qed.

#[export] Instance b2z_inj : Inj (=) (=) b2z.
Proof. intros x y H. by rewrite <- (z2b_b2z x), H, z2b_b2z. Qed.

#[export] Instance str_bytes_inj : Inj (=) (=) str_bytes.
Proof.
  intros s t H. rewrite <- (String.string_of_list_byte_of_string s).
  unfold str_bytes in H. by rewrite H, String.string_of_list_byte_of_string.
Qed.

Lemma str_bytes_of (b : bytes) : str_bytes (bytes_str b) = b.
Proof. apply String.list_byte_of_string_of_list_byte. Qed.

Lemma bytes_str_of (s : string) : bytes_str (str_bytes s) = s.
Proof. apply String.string_of_list_byte_of_string. Qed.

#[export] Instance bytes_str_inj : Inj (=) (=) bytes_str.
Proof. intros b c H. by rewrite <- (str_bytes_of b), H, str_bytes_of. Qed.

Lemma str_bytes_length (s : string) : length (str_bytes s) = String.length s.
Proof. unfold str_bytes. induction s as [|a s IH]; [done|]. simpl in *. by rewrite <- IH. Qed.

Lemma str_bytes_app (s t : string) : str_bytes (s +:+ t) = str_bytes s ++ str_bytes t.
Proof.
  unfold str_bytes, String.list_byte_of_string. rewrite <- map_app. f_equal.
  induction s as [|a s IH]; [done|]. cbn. by rewrite <- IH.
Qed.

Lemma bytes_str_length (b : bytes) : String.length (bytes_str b) = length b.
Proof. by rewrite <- str_bytes_length, str_bytes_of. Qed.

Lemma blen_nonneg {A} (l : list A) : 0 ≤ blen l.
Proof. unfold blen. lia. Qed.

Lemma blen_app {A} (l k : list A) : blen (l ++ k) = blen l + blen k.
Proof. unfold blen. rewrite length_app. lia. Qed.

Lemma blen_cons {A} (x : A) (l : list A) : blen (x :: l) = blen l + 1.
Proof. unfold blen. simpl. lia. Qed.

Lemma bytes_equal_true (l k : bytes) : bytes_equal l k = true ↔ l = k.
Proof. unfold bytes_equal. by rewrite bool_decide_eq_true. Qed.

Lemma str_ltb_irrefl (s : string) : str_ltb s s = false.
Proof.
  unfold str_ltb. destruct (String.compare s s) eqn:E; try done.
  pose proof (String.compare_antisym s s) as Ha. rewrite E in Ha. done.
Qed.

Lemma str_ltb_asym (s t : string) : str_ltb s t = true → str_ltb t s = false.
Proof.
  unfold str_ltb. rewrite (String.compare_antisym t s).
  by destruct (String.compare s t).
Qed.

Lemma str_ltb_eq (s t : string) : str_ltb s t = false → str_ltb t s = false → s = t.
Proof.
  unfold str_ltb. rewrite (String.compare_antisym t s). intros H1 H2.
  apply String.compare_eq_iff. by destruct (String.compare s t).
Qed.

Lemma str_ltb_cons (a b : Ascii.ascii) (s t : string) :
  str_ltb (String a s) (String b t) =
  ((Ascii.N_of_ascii a <? Ascii.N_of_ascii b)%N ||
   (Ascii.N_of_ascii a =? Ascii.N_of_ascii b)%N && str_ltb s t)%bool.
Proof.
  unfold str_ltb. cbn [String.compare]. unfold Ascii.compare.
  destruct (N.compare_spec (Ascii.N_of_ascii a) (Ascii.N_of_ascii b)) as [E|E|E].
  - by rewrite E, N.ltb_irrefl, N.eqb_refl.
  - by rewrite (proj2 (N.ltb_lt _ _)).
  - rewrite (proj2 (N.ltb_ge _ _)), (proj2 (N.eqb_neq _ _)) by lia. done.
Qed.

Lemma str_ltb_trans (s t u : string) :
  str_ltb s t = true → str_ltb t u = true → str_ltb s u = true.
Proof.
  revert t u. induction s as [|a s IH]; intros [|b t] [|c u]; try done.
  rewrite !str_ltb_cons, !orb_true_iff, !andb_true_iff, !N.ltb_lt, !N.eqb_eq.
  intros [?|[? Hst]] [?|[? Htu]]; [left; lia..|]. right. split; [lia|]. by eapply IH.
Qed.

(** [<=] on strings, as the negation of [>]. *)
Lemma str_leb_trans (s t u : string) :
  str_ltb t s = false → str_ltb u t = false → str_ltb u s = false.
Proof.
  intros H1 H2. destruct (str_ltb u s) eqn:E; [|done].
  destruct (str_ltb s t) eqn:Est.
  - by rewrite (str_ltb_trans u s t E Est) in H2.
  - rewrite (str_ltb_eq s t Est H1) in E. congruence.
Qed.

(** Finite case analysis by computation. *)
Lemma seqZ_check (P : Z → Prop) `{∀ v, Decision (P v)} (n : Z) :
  forallb (λ v, bool_decide (P v)) (seqZ 0 n) = true → ∀ v, 0 ≤ v < n → P v.
Proof.
  intros Hall v Hv. rewrite forallb_forall in Hall.
  apply (bool_decide_eq_true (P v)), Hall, list_elem_of_In, elem_of_seqZ. lia.
Qed.

Lemma byte_check (P : byte → Prop) `{∀ b, Decision (P b)} :
  forallb (λ v, bool_decide (P (z2b v))) (seqZ 0 256) = true → ∀ b, P b.
Proof.
  intros Hall b. rewrite <- (z2b_b2z b).
  apply (seqZ_check (λ v, P (z2b v)) 256 Hall), b2z_range.
Qed.

End byte_lemmas.

(** * Lemmas on strings *)

Lemma substring_whole (s : string) : String.substring 0 (String.length s) s = s.
Proof. induction s as [|a s IH]; simpl; congruence. Qed.

Lemma substring_app (p s : string) :
  String.substring (String.length p) (String.length (p +:+ s) - String.length p) (p +:+ s) = s.
Proof.
  induction p as [|a p IH]; simpl; [|exact IH].
  rewrite Nat.sub_0_r. apply substring_whole.
Qed.

Lemma prefix_app (p s : string) : String.prefix p (p +:+ s) = true.
Proof. induction p as [|a p IH]; simpl; [by destruct s|]. by destruct (Ascii.ascii_dec a a). Qed.

Lemma slen_app (p s : string) : (slen (p +:+ s) = slen p + slen s)%Z.
Proof. unfold slen. induction p; simpl; [done|]. rewrite !Nat2Z.inj_succ. lia. Qed.

Lemma string_length_app (p s : string) : String.length (p +:+ s) = (String.length p + String.length s)%nat.
Proof. pose proof (slen_app p s) as H. unfold slen in H. lia. Qed.

Lemma substring_prefix (p s : string) : String.substring 0 (String.length p) (p +:+ s) = p.
Proof. induction p as [|a p IH]; simpl; [by destruct s|]. by rewrite IH. Qed.

Lemma HasSuffix_app (p s : string) : HasSuffix (p +:+ s) s = true.
Proof.
  unfold HasSuffix. pose proof (substring_app p s) as Hsub. rewrite string_length_app in *.
  replace (String.length p + String.length s - String.length s)%nat with (String.length p) by lia.
  replace (String.length p + String.length s - String.length p)%nat with (String.length s) in Hsub by lia.
  apply andb_true_iff. split; [apply Nat.leb_le; lia|]. by apply bool_decide_eq_true.
Qed.

Lemma prefix_head_ne (a b : Ascii.ascii) (p s : string) : a ≠ b → String.prefix (String a p) (String b s) = false.
Proof. intros Hne. cbn [String.prefix]. by destruct (Ascii.ascii_dec a b). Qed.

Lemma append_inj (p s t : string) : (p +:+ s)%string = (p +:+ t)%string → s = t.
Proof. induction p as [|a p IH]; simpl; [done|]. intros [= H]. auto. Qed.

(** Two different prefixes of one length never fit one string. *)
Lemma prefix_unique (p q s : string) :
  String.length p = String.length q → String.prefix p s = true → String.prefix q s = true → p = q.
Proof.
  revert q s. induction p as [|a p IH]; intros [|b q] [|c s]; simpl; try done.
  intros [= Hl]. destruct (Ascii.ascii_dec a c), (Ascii.ascii_dec b c); try done.
  intros Hp Hq. subst. f_equal. by apply (IH q s).
Qed.

Lemma prefix_trans (a b s : string) : String.prefix (a +:+ b) s = true → String.prefix a s = true.
Proof.
  revert s. induction a as [|c a IH]; intros s; [by destruct s|]. destruct s as [|d s]; [done|].
  change ((String c a +:+ b)%string) with (String c (a +:+ b)%string). cbn [String.prefix].
  destruct (Ascii.ascii_dec c d); [apply IH|done].
Qed.

Lemma prefix_refl (p : string) : String.prefix p p = true.
Proof. induction p as [|a p IH]; simpl; [done|]. by destruct (Ascii.ascii_dec a a). Qed.

Lemma prefix_extend (p s t : string) : String.prefix p s = true → String.prefix p (s +:+ t) = true.
Proof.
  revert s. induction p as [|a p IH]; intros [|c s]; simpl; [by destruct t|done|done|].
  destruct (Ascii.ascii_dec a c); [apply IH|done].
Qed.

(** * Big-endian integers *)

Section be_lemmas.
Local Open Scope Z_scope.

Lemma be_encode_length (n : nat) (z : Z) : length (be_encode n z) = n.
Proof. induction n as [|n IH]; [done|]. cbn [be_encode length]. by rewrite IH. Qed.

Lemma be_decode_app (l k : bytes) (acc : Z) :
  fold_left be_step (l ++ k) acc = fold_left be_step k (fold_left be_step l acc).
Proof. apply fold_left_app. Qed.

Lemma be_decode_acc (l : bytes) (acc : Z) :
  fold_left be_step l acc = acc * 256 ^ blen l + be_decode l.
Proof.
  unfold be_decode. revert acc. induction l as [|b l IH]; intros acc; simpl.
  - unfold blen. simpl. lia.
  - rewrite IH, (IH (be_step 0 b)). unfold be_step.
    rewrite blen_cons, Z.pow_add_r by (pose proof (blen_nonneg l); lia). lia.
Qed.

Lemma be_decode_cons (b : byte) (l : bytes) :
  be_decode (b :: l) = b2z b * 256 ^ blen l + be_decode l.
Proof. unfold be_decode at 1. simpl. by rewrite be_decode_acc. Qed.

Lemma be_decode_range (l : bytes) : 0 ≤ be_decode l < 256 ^ blen l.
Proof.
  induction l as [|b l IH]; [done|].
  rewrite be_decode_cons, blen_cons, Z.pow_add_r by (pose proof (blen_nonneg l); lia).
  pose proof (b2z_range b). nia.
Qed.

Lemma be_decode_encode (n : nat) (z : Z) :
  be_decode (be_encode n z) = z `mod` 256 ^ Z.of_nat n.
Proof.
  induction n as [|n IH]; [by rewrite Z.mod_1_r|]. cbn [be_encode].
  rewrite be_decode_cons, IH, b2z_z2b. unfold blen. rewrite be_encode_length.
  rewrite Nat2Z.inj_succ, Z.pow_succ_r by lia.
  assert (0 < 256 ^ Z.of_nat n) by (apply Z.pow_pos_nonneg; lia).
  rewrite (Z.mul_comm 256), Z.rem_mul_r by lia. lia.
Qed.

Lemma be_decode_encode_small (n : nat) (z : Z) :
  0 ≤ z < 256 ^ Z.of_nat n → be_decode (be_encode n z) = z.
Proof. intros. rewrite be_decode_encode. by apply Z.mod_small. Qed.

Lemma be_encode_inj (n : nat) (x y : Z) :
  be_encode n x = be_encode n y → x `mod` 256 ^ Z.of_nat n = y `mod` 256 ^ Z.of_nat n.
Proof. intros H. by rewrite <- !be_decode_encode, H. Qed.

Lemma be_encode_add (n : nat) (k z : Z) :
  be_encode n (k * 256 ^ Z.of_nat n + z) = be_encode n z.
Proof.
  revert k. induction n as [|n IH]; intros k; [done|]. cbn [be_encode].
  rewrite Nat2Z.inj_succ, Z.pow_succ_r by lia.
  assert (0 < 256 ^ Z.of_nat n) by (apply Z.pow_pos_nonneg; lia).
  replace (k * (256 * 256 ^ Z.of_nat n) + z) with (k * 256 * 256 ^ Z.of_nat n + z) by ring.
  f_equal; [|apply IH].
  rewrite Z.div_add_l, <- z2b_mod by lia.
  replace (k * 256 + z / 256 ^ Z.of_nat n) with (z / 256 ^ Z.of_nat n + k * 256) by ring.
  by rewrite Z.mod_add, z2b_mod by lia.
Qed.

Lemma be_encode_decode (l : bytes) : be_encode (length l) (be_decode l) = l.
Proof.
  induction l as [|b l IH]; [done|]. cbn [length be_encode]. rewrite be_decode_cons.
  pose proof (be_decode_range l) as Hr. unfold blen in *.
  rewrite be_encode_add, IH, Z.div_add_l by lia.
  by rewrite Z.div_small, Z.add_0_r, z2b_b2z by lia.
Qed.

End be_lemmas.

#[global] Arguments be_encode : simpl never.

(** * Ordering by a string key *)

Section key_order.
Context {A : Type} (key : A → string).

(** What a [sort.Slice] by a string field leaves in order. *)
Definition key_le (x y : A) : Prop := str_ltb (key y) (key x) = false.

#[export] Instance key_le_dec x y : Decision (key_le x y).
Proof. unfold key_le. apply _. Defined.

#[export] Instance key_le_total : Total key_le.
Proof.
  intros x y. unfold key_le. destruct (str_ltb (key y) (key x)) eqn:E; [right|by left]. by apply str_ltb_asym.
Qed.

#[export] Instance key_le_trans : Transitive key_le.
Proof. intros x y z. unfold key_le. apply str_leb_trans. Qed.

Lemma key_le_lt (x y : A) : key_le x y → key x ≠ key y → str_ltb (key x) (key y) = true.
Proof. intros H Hne. destruct (str_ltb (key x) (key y)) eqn:E; [done|]. destruct Hne. by apply str_ltb_eq. Qed.

End key_order.

(** * Sums over maps *)

(** The total of an integer measure over the entries of a map. *)
Definition map_sum {A} (f : string → A → Z) (m : gmap string A) : Z :=
  map_fold (λ k x acc, f k x + acc)%Z 0%Z m.

Section map_sum_lemmas.
Local Open Scope Z_scope.
Context {A : Type}.
Implicit Types (f g : string → A → Z) (m : gmap string A).

Lemma map_sum_empty f : map_sum f ∅ = 0.
Proof. apply map_fold_empty. Qed.

Lemma map_sum_insert f m k x :
  m !! k = None → map_sum f (<[k:=x]> m) = f k x + map_sum f m.
Proof. intros H. unfold map_sum. rewrite map_fold_insert_L; [done| |done]. intros; lia. Qed.

Lemma map_sum_delete f m k x :
  m !! k = Some x → map_sum f (delete k m) = map_sum f m - f k x.
Proof.
  intros H. rewrite <- (insert_delete_id m k x) at 2 by done.
  rewrite map_sum_insert by apply lookup_delete_eq. lia.
Qed.

Lemma map_sum_ext f g m :
  (∀ k x, m !! k = Some x → f k x = g k x) → map_sum f m = map_sum g m.
Proof.
  induction m as [|k x m Hk IH] using map_ind; intros H; [by rewrite !map_sum_empty|].
  rewrite !map_sum_insert by done. rewrite IH, (H k x).
  - done.
  - apply lookup_insert_eq.
  - intros k' x' H'. apply H. rewrite lookup_insert_ne; [done|congruence].
Qed.

Lemma map_sum_nonneg f m : (∀ k x, m !! k = Some x → 0 ≤ f k x) → 0 ≤ map_sum f m.
Proof.
  induction m as [|k x m Hk IH] using map_ind; intros H; [by rewrite map_sum_empty|].
  rewrite map_sum_insert by done.
  pose proof (H k x (lookup_insert_eq _ _ _)).
  assert (0 ≤ map_sum f m); [|lia].
  apply IH. intros k' x' H'. apply (H k'). rewrite lookup_insert_ne; [done|congruence].
Qed.

Lemma map_sum_lookup f m k x :
  m !! k = Some x → (∀ k x, m !! k = Some x → 0 ≤ f k x) → f k x ≤ map_sum f m.
Proof.
  intros Hk H. rewrite <- (insert_delete_id m k x), map_sum_insert by (done || apply lookup_delete_eq).
  assert (0 ≤ map_sum f (delete k m)); [|lia].
  apply map_sum_nonneg. intros k' x' [_ H']%lookup_delete_Some. by apply H.
Qed.

Lemma map_sum_zero f m : (∀ k x, m !! k = Some x → f k x = 0) → map_sum f m = 0.
Proof.
  intros H. rewrite (map_sum_ext f (λ _ _, 0) m H). clear H.
  induction m as [|k x m Hk IH] using map_ind; [by rewrite map_sum_empty|].
  by rewrite map_sum_insert, IH.
Qed.

Lemma map_sum_le_size f m (B : Z) :
  (∀ k x, m !! k = Some x → f k x ≤ B) → map_sum f m ≤ B * Z.of_nat (size m).
Proof.
  induction m as [|k x m Hk IH] using map_ind; intros H.
  { rewrite map_sum_empty, map_size_empty. lia. }
  rewrite map_sum_insert, map_size_insert_None by done.
  pose proof (H k x (lookup_insert_eq _ _ _)).
  assert (map_sum f m ≤ B * Z.of_nat (size m)); [|lia].
  apply IH. intros k' x' H'. apply H. rewrite lookup_insert_ne; [done|congruence].
Qed.

Lemma map_sum_mono f g m :
  (∀ k x, m !! k = Some x → f k x ≤ g k x) → map_sum f m ≤ map_sum g m.
Proof.
  induction m as [|k x m Hk IH] using map_ind; intros H; [by rewrite !map_sum_empty|].
  rewrite !map_sum_insert by done. pose proof (H k x (lookup_insert_eq _ _ _)).
  assert (map_sum f m ≤ map_sum g m); [|lia].
  apply IH. intros k' x' H'. apply H. rewrite lookup_insert_ne; [done|congruence].
Qed.

Lemma map_sum_subseteq f m1 m2 :
  m1 ⊆ m2 → (∀ k x, m2 !! k = Some x → 0 ≤ f k x) → map_sum f m1 ≤ map_sum f m2.
Proof.
  intros Hsub. rewrite <- (map_difference_union m1 m2 Hsub).
  assert (Hd : m1 ##ₘ m2 ∖ m1) by (apply map_disjoint_spec; intros k x y ? [? ?]%lookup_difference_Some; congruence).
  revert Hd. generalize (m2 ∖ m1) as m. intros m Hd Hpos.
  assert (map_sum f (m1 ∪ m) = map_sum f m1 + map_sum f m) as ->.
  { clear Hpos Hsub. induction m1 as [|k x m1 Hk IH] using map_ind; [by rewrite map_sum_empty, (left_id_L ∅ (∪))|].
    apply map_disjoint_insert_l in Hd as [Hkm Hd]. rewrite <- insert_union_l.
    rewrite !map_sum_insert, IH by (done || by apply lookup_union_None). lia. }
  assert (0 ≤ map_sum f m); [|lia]. apply map_sum_nonneg. intros k x Hx.
  apply Hpos. by apply lookup_union_Some_r.
Qed.

(** A total computed by a loop over the map, in any order. *)
Lemma map_sum_list f m (l : list (string * A)) :
  l ≡ₚ map_to_list m → foldr (λ p acc, f p.1 p.2 + acc) 0 l = map_sum f m.
Proof.
  intros Hl. transitivity (foldr (λ p acc, f p.1 p.2 + acc) 0 (map_to_list m)).
  - clear -Hl. induction Hl; simpl; lia.
  - clear Hl. unfold map_sum. rewrite map_fold_foldr.
    induction (map_to_list m) as [|[k x] k' IH]; simpl; [done|]. by rewrite IH.
Qed.

(** A test run by a loop over the map, in any order. *)
Lemma map_Forall_list (P : string → A → Prop) m (l : list (string * A)) :
  l ≡ₚ map_to_list m → Forall (λ p, P p.1 p.2) l ↔ ∀ k x, m !! k = Some x → P k x.
Proof.
  intros ->. rewrite Forall_forall. split.
  - intros H k x Hk. apply (H (k, x)). by apply list_elem_of_In, elem_of_map_to_list.
  - intros H [k x] Hk%list_elem_of_In%elem_of_map_to_list. by apply H.
Qed.

End map_sum_lemmas.

(** * Loops *)

(** An invariant of a loop, over the elements it has handled. *)
Lemma foldl_inv {A B} (P : list B → A → Prop) (f : A → B → A) (l : list B) (a : A) :
  P [] a → (∀ seen x a, x ∈ l → P seen a → P (seen ++ [x]) (f a x)) → P l (foldl f a l).
Proof.
  intros H0 Hs. change l with ([] ++ l) at 1. revert H0. generalize (@nil B) as seen.
  revert a Hs. induction l as [|x l IH]; intros a Hs seen H0; simpl; [by rewrite app_nil_r|].
  replace (seen ++ x :: l) with ((seen ++ [x]) ++ l) by (by rewrite <- app_assoc). apply IH.
  - intros. apply Hs; [by apply list_elem_of_further|done].
  - apply Hs; [apply list_elem_of_here|done].
Qed.

(** The value of a result, if there is one. *)
Definition to_option {A} (r : Result A) : option A := match r with Ok a => Some a | Err _ => None end.

(** The successful results keep the keys of a sublist of the requests. *)
Lemma omap_keys {A B K} (f : A → option B) (ka : A → K) (kb : B → K) (l : list A) :
  (∀ a b, a ∈ l → f a = Some b → kb b = ka a) → kb <$> omap f l `sublist_of` ka <$> l.
Proof.
  induction l as [|a l IH]; intros H; simpl; [constructor|].
  assert (kb <$> omap f l `sublist_of` ka <$> l) by (apply IH; intros; apply H; [by right|done]).
  destruct (f a) as [b|] eqn:Hf; simpl; [|by constructor].
  rewrite (H a b); [by constructor|by left|done].
Qed.

Lemma fst_tagged {A B} (f : A → B) (l : list A) : ((λ a, (a, f a)) <$> l).*1 = l.
Proof. induction l as [|a l IH]; [done|]. rewrite !fmap_cons. cbn [fst]. by rewrite IH. Qed.

(** * Map iteration lemmas *)

Lemma range_map_keys {MO : MapOrder} {A} (m : gmap string A) : NoDup (range_map m).*1.
Proof. rewrite (range_map_perm m). apply NoDup_fst_map_to_list. Qed.

Lemma range_map_elem {MO : MapOrder} {A} (m : gmap string A) (k : string) (x : A) :
  (k, x) ∈ range_map m ↔ m !! k = Some x.
Proof. rewrite (range_map_perm m). apply elem_of_map_to_list. Qed.

(** * Time lemmas *)

Section time_lemmas.
Local Open Scope Z_scope.

Lemma Truncate_le (t : Time) : Truncate t Millisecond ≤ t.
Proof. unfold Truncate. pose proof (Z.mod_pos_bound t Millisecond ltac:(done)). lia. Qed.

Lemma Truncate_aligned (t : Time) : ms_aligned (Truncate t Millisecond).
Proof.
  unfold ms_aligned, Truncate. rewrite Zminus_mod_idemp_r, Z.sub_diag. done.
Qed.

Lemma Truncate_id (t : Time) : Truncate t Millisecond = t ↔ ms_aligned t.
Proof. unfold Truncate, ms_aligned. lia. Qed.

Lemma UnixMilli_inj (t u : Time) :
  ms_aligned t → ms_aligned u → UnixMilli t = UnixMilli u → t = u.
Proof.
  unfold ms_aligned, UnixMilli. intros Ht Hu H.
  rewrite (Z.div_mod t Millisecond), (Z.div_mod u Millisecond) by done. lia.
Qed.

End time_lemmas.

#[export] Hint Resolve blen_nonneg b2z_range Truncate_aligned : go.
#[export] Hint Rewrite be_encode_length bytes_str_length str_bytes_length @length_app
  @blen_app : go_simpl.
