(* ===== verification/Sha256.v ===== *)
(** SHA-256 (FIPS 180-4) as an executable function on byte lists: the behaviour
    of Go's [crypto/sha256] that the program relies on. Only the length of the
    digest is used by proofs; everything else about the function enters
    theorems as "equal inputs or an explicit collision". *)
From S2P Require Import Prelude.
Local Open Scope Z_scope.

Module Sha256.

Definition Size : Z := 32.

Definition mask32 : Z := 4294967295.
Definition add32 (x y : Z) : Z := Z.land (x + y) mask32.
Definition rotr (x n : Z) : Z := Z.lor (Z.shiftr x n) (Z.land (Z.shiftl x (32 - n)) mask32).
Definition not32 (x : Z) : Z := Z.lxor x mask32.

Definition ch (x y z : Z) : Z := Z.lxor (Z.land x y) (Z.land (not32 x) z).
Definition maj (x y z : Z) : Z := Z.lxor (Z.lxor (Z.land x y) (Z.land x z)) (Z.land y z).
Definition bsig0 (x : Z) : Z := Z.lxor (Z.lxor (rotr x 2) (rotr x 13)) (rotr x 22).
Definition bsig1 (x : Z) : Z := Z.lxor (Z.lxor (rotr x 6) (rotr x 11)) (rotr x 25).
Definition ssig0 (x : Z) : Z := Z.lxor (Z.lxor (rotr x 7) (rotr x 18)) (Z.shiftr x 3).
Definition ssig1 (x : Z) : Z := Z.lxor (Z.lxor (rotr x 17) (rotr x 19)) (Z.shiftr x 10).

(** The round constants are the first 32 bits of the fractional parts of the
    cube roots of the first 64 primes, the initial state those of the square
    roots of the first 8. *)
Definition is_prime (n : Z) : bool :=
  forallb (λ d, negb (n `mod` d =? 0)) (seqZ 2 (n - 2)).

Definition primes : list Z := Eval vm_compute in filter (λ n, is_prime n = true) (seqZ 2 310).

(** The integer cube root of [n], by bisection from bit [k] down. *)
Fixpoint icbrt (k : nat) (n r : Z) : Z :=
  match k with
  | O => r
  | S k =>
      let r' := r + 2 ^ Z.of_nat k in
      icbrt k n (if r' * r' * r' <=? n then r' else r)
  end.

Definition K : list Z := Eval vm_compute in
  (λ p, icbrt 36 (p * 2 ^ 96) 0 `mod` 2 ^ 32) <$> primes.

Record state := St { sa : Z; sb : Z; sc : Z; sd : Z; se : Z; sf : Z; sg : Z; sh : Z }.

Definition init : state := Eval vm_compute in
  let f p := Z.sqrt (p * 2 ^ 64) `mod` 2 ^ 32 in St (f 2) (f 3) (f 5) (f 7) (f 11) (f 13) (f 17) (f 19).

Definition round (s : state) (kw : Z * Z) : state :=
  let t1 := add32 (add32 (sh s) (bsig1 (se s)))
                  (add32 (ch (se s) (sf s) (sg s)) (add32 kw.1 kw.2)) in
  let t2 := add32 (bsig0 (sa s)) (maj (sa s) (sb s) (sc s)) in
  St (add32 t1 t2) (sa s) (sb s) (sc s) (add32 (sd s) t1) (se s) (sf s) (sg s).

(** The message schedule, newest word first. *)
Fixpoint schedule (n : nat) (w : list Z) : list Z :=
  match n with
  | O => w
  | S n =>
      let v := add32 (add32 (ssig1 (nth 1 w 0)) (nth 6 w 0))
                     (add32 (ssig0 (nth 14 w 0)) (nth 15 w 0)) in
      schedule n (v :: w)
  end.

Fixpoint words (n : nat) (l : bytes) : list Z :=
  match n with
  | O => []
  | S n => be_decode (take 4 l) :: words n (drop 4 l)
  end.

Definition compress (s : state) (block : bytes) : state :=
  let w := rev (schedule 48 (rev (words 16 block))) in
  let r := fold_left round (zip K w) s in
  St (add32 (sa s) (sa r)) (add32 (sb s) (sb r)) (add32 (sc s) (sc r)) (add32 (sd s) (sd r))
     (add32 (se s) (se r)) (add32 (sf s) (sf r)) (add32 (sg s) (sg r)) (add32 (sh s) (sh r)).

Fixpoint blocks (n : nat) (s : state) (l : bytes) : state :=
  match n with
  | O => s
  | S n => blocks n (compress s (take 64 l)) (drop 64 l)
  end.

Definition pad (l : bytes) : bytes :=
  l ++ [x80] ++ replicate (Z.to_nat ((55 - blen l) `mod` 64)) x00 ++ be_encode 8 (8 * blen l).

(** [sha256.Sum256]. *)
Definition Sum256 (l : bytes) : bytes :=
  let p := pad l in
  let s := blocks (length p / 64)%nat init p in
  be_encode 4 (sa s) ++ be_encode 4 (sb s) ++ be_encode 4 (sc s) ++ be_encode 4 (sd s) ++
  be_encode 4 (se s) ++ be_encode 4 (sf s) ++ be_encode 4 (sg s) ++ be_encode 4 (sh s).

#[global] Arguments Sum256 : simpl never.

(** The test vector of FIPS 180-4 for "abc". *)
Example Sum256_abc :
  be_decode (Sum256 (str_bytes "abc")) =
  0xba7816bf8f01cfea414140de5dae2223b00361a396177a9cb410ff61f20015ad.
Proof. vm_compute. reflexivity. Qed.

(** The two given inputs are different and have one digest. *)
Definition collides (x y : bytes) : Prop := x ≠ y ∧ Sum256 x = Sum256 y.

Lemma Sum256_length (l : bytes) : length (Sum256 l) = 32%nat.
Proof. unfold Sum256. by rewrite !length_app, !be_encode_length. Qed.

Lemma Sum256_blen (l : bytes) : blen (Sum256 l) = Size.
Proof. unfold blen. by rewrite Sum256_length. Qed.

Lemma Sum256_inj (x y : bytes) : Sum256 x = Sum256 y → x = y ∨ collides x y.
Proof. intros H. destruct (decide (x = y)); [by left|by right]. Qed.

End Sha256.

#[global] Opaque Sha256.Sum256.

#[export] Hint Rewrite Sha256.Sum256_length Sha256.Sum256_blen : go_simpl.
