(* ===== verification/Encoding.v ===== *)
(** The text encodings of the Go standard library that the program uses:
    [encoding/hex], the raw URL alphabet of [encoding/base64] with strict
    decoding, and the unpadded standard alphabet of [encoding/base32]. The
    decoders follow Go: base64 and base32 skip carriage returns and line feeds,
    base64 is strict about trailing bits, base32 is not, hex takes both cases. *)
From S2P Require Import Prelude Sha256.
Local Open Scope Z_scope.

(** * Hexadecimal *)

Module Hex.

Definition digit (v : Z) : byte := if v <? 10 then z2b (48 + v) else z2b (87 + v).

Definition EncodeToString (l : bytes) : string :=
  bytes_str (mjoin ((λ b, [digit (b2z b / 16); digit (b2z b `mod` 16)]) <$> l)).

Definition value (c : byte) : option Z :=
  let v := b2z c in
  if (48 <=? v) && (v <=? 57) then Some (v - 48)
  else if (97 <=? v) && (v <=? 102) then Some (v - 87)
  else if (65 <=? v) && (v <=? 70) then Some (v - 55)
  else None.

Fixpoint decode (l : bytes) : option bytes :=
  match l with
  | [] => Some []
  | [_] => None
  | a :: b :: l =>
      x ← value a; y ← value b; r ← decode l; Some (z2b (16 * x + y) :: r)
  end.

Definition DecodeString (s : string) : option bytes := decode (str_bytes s).

End Hex.

(** Go's decoders drop line breaks before decoding. *)
Definition line_break (c : byte) : bool := bool_decide (c = x0a) || bool_decide (c = x0d).
Definition strip_newlines (l : bytes) : bytes := filter (λ c, line_break c = false) l.

(** * Base64, raw URL alphabet, strict *)

Module Base64.

(** Character of a 6-bit value in [A-Za-z0-9-_]. *)
Definition char (v : Z) : byte :=
  if v <? 26 then z2b (65 + v)
  else if v <? 52 then z2b (71 + v)
  else if v <? 62 then z2b (v - 4)
  else if v =? 62 then x2d else x5f.

Definition value (c : byte) : option Z :=
  let v := b2z c in
  if (65 <=? v) && (v <=? 90) then Some (v - 65)
  else if (97 <=? v) && (v <=? 122) then Some (v - 71)
  else if (48 <=? v) && (v <=? 57) then Some (v + 4)
  else if v =? 45 then Some 62
  else if v =? 95 then Some 63
  else None.

(** Groups of 6 bits of a byte list, the last one filled with zero bits. *)
Fixpoint sextets (l : bytes) : list Z :=
  match l with
  | [] => []
  | [a] => [b2z a / 4; (b2z a `mod` 4) * 16]
  | [a; b] => [b2z a / 4; (b2z a `mod` 4) * 16 + b2z b / 16; (b2z b `mod` 16) * 4]
  | a :: b :: c :: l =>
      b2z a / 4 :: (b2z a `mod` 4) * 16 + b2z b / 16 ::
      (b2z b `mod` 16) * 4 + b2z c / 64 :: b2z c `mod` 64 :: sextets l
  end.

(** Strict decoding of 6-bit groups: unused trailing bits must be zero. *)
Fixpoint unsextets (l : list Z) : option bytes :=
  match l with
  | [] => Some []
  | [_] => None
  | [a; b] => if b `mod` 16 =? 0 then Some [z2b (a * 4 + b / 16)] else None
  | [a; b; c] =>
      if c `mod` 4 =? 0
      then Some [z2b (a * 4 + b / 16); z2b ((b `mod` 16) * 16 + c / 4)] else None
  | a :: b :: c :: d :: l =>
      r ← unsextets l;
      Some (z2b (a * 4 + b / 16) :: z2b ((b `mod` 16) * 16 + c / 4) ::
            z2b ((c `mod` 4) * 64 + d) :: r)
  end.

Definition EncodedLen (n : Z) : Z := (n * 8 + 5) / 6.

Definition EncodeToString (l : bytes) : string := bytes_str (char <$> sextets l).

Definition DecodeString (s : string) : option bytes :=
  v ← mapM value (strip_newlines (str_bytes s)); unsextets v.

End Base64.

(** * Base32, standard alphabet, no padding *)

Module Base32.

(** Character of a 5-bit value in [A-Z2-7]. *)
Definition char (v : Z) : byte := if v <? 26 then z2b (65 + v) else z2b (24 + v).

Definition value (c : byte) : option Z :=
  let v := b2z c in
  if (65 <=? v) && (v <=? 90) then Some (v - 65)
  else if (50 <=? v) && (v <=? 55) then Some (v - 24)
  else None.

Fixpoint quintets (l : bytes) : list Z :=
  match l with
  | [] => []
  | [a] => [b2z a / 8; (b2z a `mod` 8) * 4]
  | [a; b] =>
      [b2z a / 8; (b2z a `mod` 8) * 4 + b2z b / 64; (b2z b / 2) `mod` 32; (b2z b `mod` 2) * 16]
  | [a; b; c] =>
      [b2z a / 8; (b2z a `mod` 8) * 4 + b2z b / 64; (b2z b / 2) `mod` 32;
       (b2z b `mod` 2) * 16 + b2z c / 16; (b2z c `mod` 16) * 2]
  | [a; b; c; d] =>
      [b2z a / 8; (b2z a `mod` 8) * 4 + b2z b / 64; (b2z b / 2) `mod` 32;
       (b2z b `mod` 2) * 16 + b2z c / 16; (b2z c `mod` 16) * 2 + b2z d / 128;
       (b2z d / 4) `mod` 32; (b2z d `mod` 4) * 8]
  | a :: b :: c :: d :: e :: l =>
      b2z a / 8 :: (b2z a `mod` 8) * 4 + b2z b / 64 :: (b2z b / 2) `mod` 32 ::
      (b2z b `mod` 2) * 16 + b2z c / 16 :: (b2z c `mod` 16) * 2 + b2z d / 128 ::
      (b2z d / 4) `mod` 32 :: (b2z d `mod` 4) * 8 + b2z e / 32 :: b2z e `mod` 32 ::
      quintets l
  end.

(** The bytes of a group of [n] characters: trailing bits are dropped, and a
    group of 1, 3 or 6 characters yields what Go's [switch] yields: nothing. *)
Definition unquintet_group (a b c d e f g : Z) : bytes :=
  [z2b (a * 8 + b / 4); z2b (b * 64 + c * 2 + d / 16); z2b (d * 16 + e / 2);
   z2b (e * 128 + f * 4 + g / 8)].

Fixpoint unquintets (l : list Z) : bytes :=
  match l with
  | [a; b] => take 1 (unquintet_group a b 0 0 0 0 0)
  | [a; b; c; d] => take 2 (unquintet_group a b c d 0 0 0)
  | [a; b; c; d; e] => take 3 (unquintet_group a b c d e 0 0)
  | [a; b; c; d; e; f; g] => unquintet_group a b c d e f g
  | a :: b :: c :: d :: e :: f :: g :: h :: l =>
      unquintet_group a b c d e f g ++ z2b (g * 32 + h) :: unquintets l
  | _ => []
  end.

Definition EncodeToString (l : bytes) : string := bytes_str (char <$> quintets l).

Definition DecodeString (s : string) : option bytes :=
  v ← mapM value (strip_newlines (str_bytes s)); Some (unquintets v).

End Base32.

(** * Facts about hexadecimal *)

Section hex_facts.

Lemma Hex_value_digit (v : Z) : 0 ≤ v < 16 → Hex.value (Hex.digit v) = Some v.
Proof. by apply (seqZ_check (λ v, Hex.value (Hex.digit v) = Some v)). Qed.

Lemma Hex_encode_length (l : bytes) :
  String.length (Hex.EncodeToString l) = (2 * length l)%nat.
Proof.
  unfold Hex.EncodeToString. rewrite bytes_str_length.
  induction l as [|b l IH]; [done|]. csimpl in *. lia.
Qed.

(** [hex.DecodeString] undoes [hex.EncodeToString]. *)
Lemma Hex_decode_encode (l : bytes) : Hex.DecodeString (Hex.EncodeToString l) = Some l.
Proof.
  unfold Hex.DecodeString, Hex.EncodeToString. rewrite str_bytes_of.
  induction l as [|b l IH]; [done|].
  csimpl in *. pose proof (b2z_range b).
  rewrite !Hex_value_digit by div_lia. simpl. rewrite IH. simpl. do 2 f_equal.
  rewrite <- Z.div_mod by lia. apply z2b_b2z.
Qed.

#[export] Instance Hex_encode_inj : Inj (=) (=) Hex.EncodeToString.
Proof. intros x y H. apply (inj Some). by rewrite <- !Hex_decode_encode, H. Qed.

End hex_facts.

(** * Facts about base64 *)

Section base64_facts.

Definition sextet (v : Z) : Prop := 0 ≤ v < 64.

Lemma Base64_value_char (v : Z) : sextet v → Base64.value (Base64.char v) = Some v.
Proof. by apply (seqZ_check (λ v, Base64.value (Base64.char v) = Some v)). Qed.

Lemma Base64_char_value (c : byte) (v : Z) :
  Base64.value c = Some v → Base64.char v = c ∧ sextet v.
Proof.
  intros H.
  pose proof (byte_check (λ c, match Base64.value c with
    | Some v => bool_decide (Base64.char v = c) && (0 <=? v) && (v <? 64) | None => true end = true)
    eq_refl c) as Hc.
  simpl in Hc. rewrite H in Hc. unbool. unfold sextet. auto with lia.
Qed.

Lemma Base64_char_no_break (v : Z) : sextet v → line_break (Base64.char v) = false.
Proof. by apply (seqZ_check (λ v, line_break (Base64.char v) = false)). Qed.

Lemma strip_newlines_id (l : bytes) :
  Forall (λ c, line_break c = false) l → strip_newlines l = l.
Proof. induction 1; [done|]. unfold strip_newlines in *. by rewrite filter_cons_True, IHForall. Qed.

Lemma strip_newlines_full (l : bytes) :
  length (strip_newlines l) = length l → strip_newlines l = l.
Proof.
  unfold strip_newlines. induction l as [|c l IH]; [done|].
  rewrite filter_cons. case_decide; simpl; intros Hl.
  - f_equal. apply IH. lia.
  - pose proof (length_filter (λ c, line_break c = false) l). lia.
Qed.

Lemma sextets_range (l : bytes) : Forall sextet (Base64.sextets l).
Proof.
  unfold sextet. induction l as [l IH] using list_len_ind.
  destruct l as [|a [|b [|c l]]]; simpl.
  1: constructor.
  all: pose proof (b2z_range a); try pose proof (b2z_range b); try pose proof (b2z_range c).
  all: repeat (constructor; [cbv beta; div_lia|]); try apply Forall_nil_2.
  apply IH. simpl. lia.
Qed.

Lemma sextets_length (l : bytes) :
  Z.of_nat (length (Base64.sextets l)) = Base64.EncodedLen (blen l).
Proof.
  unfold Base64.EncodedLen, blen. induction l as [l IH] using list_len_ind.
  destruct l as [|a [|b [|c l]]]; try done. simpl length.
  pose proof (IH l ltac:(simpl; lia)) as E. simpl. div_lia.
Qed.

Lemma unsextets_sextets (l : bytes) : Base64.unsextets (Base64.sextets l) = Some l.
Proof.
  induction l as [l IH] using list_len_ind.
  destruct l as [|a [|b [|c l]]]; [done| | |]; simpl;
    pose proof (b2z_range a); try pose proof (b2z_range b); try pose proof (b2z_range c).
  - rewrite (proj2 (Z.eqb_eq _ _)) by div_lia. do 2 f_equal.
    rewrite <- (z2b_b2z a) at 3. f_equal. div_lia.
  - rewrite (proj2 (Z.eqb_eq _ _)) by div_lia. f_equal. f_equal; [|f_equal].
    + rewrite <- (z2b_b2z a) at 3. f_equal. div_lia.
    + rewrite <- (z2b_b2z b) at 3. f_equal. div_lia.
  - rewrite IH by (simpl; lia). simpl. f_equal. f_equal; [|f_equal; [|f_equal]].
    + rewrite <- (z2b_b2z a) at 3. f_equal. div_lia.
    + rewrite <- (z2b_b2z b) at 3. f_equal. div_lia.
    + rewrite <- (z2b_b2z c) at 3. f_equal. div_lia.
Qed.

Lemma sextets_unsextets (v : list Z) (l : bytes) :
  Forall sextet v → Base64.unsextets v = Some l → Base64.sextets l = v.
Proof.
  unfold sextet. revert l. induction v as [v IH] using list_len_ind.
  intros l Hv. destruct v as [|a [|b [|c [|d v]]]]; simpl; intros Hl.
  - by simplify_eq.
  - done.
  - case_match; [|done]. unbool. simplify_eq. simpl. decompose_Forall_hyps.
    rewrite !b2z_z2b. repeat f_equal; div_lia.
  - case_match; [|done]. unbool. simplify_eq. simpl. decompose_Forall_hyps.
    rewrite !b2z_z2b. repeat f_equal; div_lia.
  - destruct (Base64.unsextets v) as [r|] eqn:E; simplify_eq/=. decompose_Forall_hyps.
    rewrite (IH v) by (done || simpl; lia).
    rewrite !b2z_z2b. repeat f_equal; div_lia.
Qed.

Lemma mapM_value_char (v : list Z) :
  Forall sextet v → mapM Base64.value (Base64.char <$> v) = Some v.
Proof.
  intros Hv. apply mapM_Some, Forall2_fmap_l, Forall_Forall2_diag.
  eapply Forall_impl; [|done]. apply Base64_value_char.
Qed.

Lemma mapM_value_inv (l : bytes) (v : list Z) :
  mapM Base64.value l = Some v → l = Base64.char <$> v ∧ Forall sextet v.
Proof.
  intros H%mapM_Some. induction H as [|c x l v Hc _ [-> IH]]; [done|].
  apply Base64_char_value in Hc as [<- ?]. split; [done|by constructor].
Qed.

(** Strict decoding undoes encoding. *)
Lemma Base64_decode_encode (l : bytes) :
  Base64.DecodeString (Base64.EncodeToString l) = Some l.
Proof.
  unfold Base64.DecodeString, Base64.EncodeToString. rewrite str_bytes_of.
  pose proof (sextets_range l) as Hr. rewrite strip_newlines_id.
  - rewrite mapM_value_char by done. apply unsextets_sextets.
  - apply Forall_fmap. eapply Forall_impl; [|done]. intros v Hv. by apply Base64_char_no_break.
Qed.

(** A string that decodes to [l] and has exactly the encoded length of [l] is
    the encoding of [l]: no line break, no alternative spelling. *)
Lemma Base64_canonical (s : string) (l : bytes) :
  Base64.DecodeString s = Some l → slen s = Base64.EncodedLen (blen l) →
  s = Base64.EncodeToString l.
Proof.
  unfold Base64.DecodeString, slen. intros H Hlen.
  destruct (mapM Base64.value (strip_newlines (str_bytes s))) as [v|] eqn:E; simplify_eq/=.
  apply mapM_value_inv in E as [E Hv].
  pose proof (sextets_unsextets v l Hv H) as <-.
  rewrite strip_newlines_full in E.
  - unfold Base64.EncodeToString. by rewrite <- E, bytes_str_of.
  - rewrite E, length_fmap, str_bytes_length.
    pose proof (sextets_length l). lia.
Qed.

Lemma Base64_encode_slen (l : bytes) :
  slen (Base64.EncodeToString l) = Base64.EncodedLen (blen l).
Proof.
  unfold slen, Base64.EncodeToString.
  by rewrite bytes_str_length, length_fmap, sextets_length.
Qed.

End base64_facts.

(** * Facts about base32 *)

Section base32_facts.

Definition quintet (v : Z) : Prop := 0 ≤ v < 32.

Lemma Base32_value_char (v : Z) : quintet v → Base32.value (Base32.char v) = Some v.
Proof. by apply (seqZ_check (λ v, Base32.value (Base32.char v) = Some v)). Qed.

Lemma Base32_char_no_break (v : Z) : quintet v → line_break (Base32.char v) = false.
Proof. by apply (seqZ_check (λ v, line_break (Base32.char v) = false)). Qed.

Ltac byte_bounds :=
  repeat match goal with
  | b : byte |- _ =>
      lazymatch goal with
      | _ : 0 ≤ b2z b < 256 |- _ => fail
      | _ => pose proof (b2z_range b)
      end
  end.

Lemma quintets_range (l : bytes) : Forall quintet (Base32.quintets l).
Proof.
  unfold quintet. induction l as [l IH] using list_len_ind.
  destruct l as [|a [|b [|c [|d [|e l]]]]]; simpl.
  1: constructor.
  all: assert (∀ b : byte, 0 ≤ b2z b < 256) as Hb by apply b2z_range.
  all: repeat (constructor; [cbv beta; byte_bounds; clear Hb IH; div_lia|]); try apply Forall_nil_2.
  apply IH. simpl. lia.
Qed.

Lemma quintets_length (l : bytes) :
  Z.of_nat (length (Base32.quintets l)) = (blen l * 8 + 4) / 5.
Proof.
  unfold blen. induction l as [l IH] using list_len_ind.
  destruct l as [|a [|b [|c [|d [|e l]]]]]; try done. simpl length.
  pose proof (IH l ltac:(simpl; lia)) as E. simpl. clear IH. div_lia.
Qed.

(** Rewriting a byte rebuilt from its bit groups. *)
Lemma z2b_eq (z : Z) (b : byte) : z `mod` 256 = b2z b → z2b z = b.
Proof. intros H. by rewrite <- z2b_mod, H, z2b_b2z. Qed.

Lemma unquintets_quintets (l : bytes) : Base32.unquintets (Base32.quintets l) = l.
Proof.
  induction l as [l IH] using list_len_ind.
  destruct l as [|a [|b [|c [|d [|e l]]]]]; simpl; unfold Base32.unquintet_group; simpl.
  all: try (rewrite IH by (simpl; lia)).
  all: clear IH; byte_bounds; repeat (f_equal; try (apply z2b_eq; div_lia)).
Qed.

Lemma Base32_decode_encode (l : bytes) :
  Base32.DecodeString (Base32.EncodeToString l) = Some l.
Proof.
  unfold Base32.DecodeString, Base32.EncodeToString. rewrite str_bytes_of.
  pose proof (quintets_range l) as Hr. rewrite strip_newlines_id.
  - erewrite (proj2 (mapM_Some _ _ _)).
    + simpl. by rewrite unquintets_quintets.
    + apply Forall2_fmap_l, Forall_Forall2_diag.
      eapply Forall_impl; [|done]. apply Base32_value_char.
  - apply Forall_fmap. eapply Forall_impl; [|done]. intros v Hv. by apply Base32_char_no_break.
Qed.

Lemma Base32_encode_length (l : bytes) :
  slen (Base32.EncodeToString l) = (blen l * 8 + 4) / 5.
Proof.
  unfold slen, Base32.EncodeToString.
  by rewrite bytes_str_length, length_fmap, quintets_length.
Qed.

#[export] Instance Base32_encode_inj : Inj (=) (=) Base32.EncodeToString.
Proof. intros x y H. apply (inj Some). by rewrite <- !Base32_decode_encode, H. Qed.

End base32_facts.
