(* ===== verification/Protocol.v ===== *)
(** The wire objects of src/protocol: their types ([types.go]), canonical byte
    encodings, the validation every node and client applies to a stored item
    and to node parameters ([canonical.go]). *)
From S2P Require Import Prelude Sha256 Encoding.
Local Open Scope Z_scope.
Local Open Scope go_scope.

(** * Constants and types (types.go) *)

Definition ProtocolVersion : Z := 1.
Definition FixedItemRetention : Duration := 60 * 24 * Hour.
Definition DefaultMaxItemBytes : Z := 320 * 1024.
Definition DefaultMaxFileBytes : Z := 64 * 1024 * 1024.
Definition DefaultFileChunkSize : Z := 256 * 1024.
Definition CapabilityBytes : Z := 32.
Definition MaxRouteTagsPerFetch : Z := 256.
Definition DefaultMaxFetchItems : Z := 512.
Definition DefaultMaxFetchBytes : Z := 8 * 1024 * 1024.
Definition MinWorkEpochSeconds : Z := 60.
Definition MaxWorkEpochSeconds : Z := 24 * 60 * 60.
Definition MaxWorkDifficulty : Z := 24.
Definition MaxProofSampleBytes : Z := 16 * 1024.

Record WorkProof := {
  wp_Epoch : Z;       (* int64 *)
  wp_Nonce : Z;       (* uint64 *)
  wp_Difficulty : Z;  (* uint8 *)
}.

Record StoredItem := {
  si_Version : Z;     (* uint8 *)
  si_ItemID : string;
  si_RouteTag : string;
  si_CreatedAt : Time;
  si_ExpiresAt : Time;
  si_DeleteTokenHash : bytes;
  si_Payload : bytes;
  si_Work : WorkProof;
}.

Record NodePublicIdentity := {
  ni_NodeID : string;
  ni_Ed25519Public : bytes;
  ni_MLDSA65Public : bytes;
  ni_ProtocolVersion : Z;  (* uint8 *)
}.

Record HybridSignature := { hs_Ed25519 : bytes; hs_MLDSA65 : bytes }.

Record StorageReceipt := {
  sr_NodeID : string;
  sr_ItemID : string;
  sr_PayloadHash : bytes;
  sr_StoredAt : Time;
  sr_ExpiresAt : Time;
  sr_Signature : HybridSignature;
}.

Record DeleteRequest := { dq_ItemID : string; dq_DeleteToken : bytes }.

Record DeleteReceipt := {
  dr_NodeID : string;
  dr_ItemID : string;
  dr_DeletedAt : Time;
  dr_Signature : HybridSignature;
}.

Record ProofRequest := {
  pq_ItemID : string;
  pq_Nonce : bytes;
  pq_Offset : Z;  (* int64 *)
  pq_Length : Z;  (* int *)
}.

Record StorageProof := {
  sp_NodeID : string;
  sp_ItemID : string;
  sp_Nonce : bytes;
  sp_Offset : Z;  (* int64 *)
  sp_Sample : bytes;
  sp_PayloadHash : bytes;
  sp_ProvedAt : Time;
  sp_Signature : HybridSignature;
}.

Record NodeParameters := {
  np_ProtocolVersion : Z;  (* uint8 *)
  np_Difficulty : Z;       (* uint8 *)
  np_EpochSeconds : Z;     (* int64 *)
  np_MaxItemBytes : Z;     (* int *)
  np_StorageUsed : Z;      (* int64 *)
  np_StorageCapacity : Z;  (* int64 *)
}.

Record DirectCiphertext := { dc_Suite : string; dc_Encapsulation : bytes; dc_Ciphertext : bytes }.

Record FileChunk := {
  fc_Index : Z;       (* int *)
  fc_RouteTag : string;
  fc_CipherHash : bytes;
  fc_CipherSize : Z;  (* int *)
}.

Record FileManifest := {
  fm_Version : Z;         (* uint8 *)
  fm_FileID : string;
  fm_Name : string;
  fm_MediaType : string;
  fm_PlaintextBytes : Z;  (* int64 *)
  fm_ChunkSize : Z;       (* int *)
  fm_Chunks : list FileChunk;
}.

Record DeviceDescriptor := {
  dd_DeviceID : string;
  dd_AccountID : string;
  dd_HPKEPublicKey : bytes;
  dd_SigningKey : NodePublicIdentity;
}.

Record DeviceSyncEnvelope := { de_DeviceID : string; de_Payload : DirectCiphertext }.

#[export] Instance WorkProof_eq_dec : EqDecision WorkProof.
Proof. solve_decision. Defined.
#[export] Instance StoredItem_eq_dec : EqDecision StoredItem.
Proof. solve_decision. Defined.
#[export] Instance NodePublicIdentity_eq_dec : EqDecision NodePublicIdentity.
Proof. solve_decision. Defined.
#[export] Instance HybridSignature_eq_dec : EqDecision HybridSignature.
Proof. solve_decision. Defined.

Definition zeroSignature : HybridSignature := {| hs_Ed25519 := []; hs_MLDSA65 := [] |}.
Definition zeroWork : WorkProof := {| wp_Epoch := 0; wp_Nonce := 0; wp_Difficulty := 0 |}.

(** [item.Work = work]. *)
Definition set_Work (item : StoredItem) (work : WorkProof) : StoredItem :=
  {| si_Version := si_Version item; si_ItemID := si_ItemID item;
     si_RouteTag := si_RouteTag item; si_CreatedAt := si_CreatedAt item;
     si_ExpiresAt := si_ExpiresAt item; si_DeleteTokenHash := si_DeleteTokenHash item;
     si_Payload := si_Payload item; si_Work := work |}.

(** [item.ItemID = id]. *)
Definition set_ItemID (item : StoredItem) (id : string) : StoredItem :=
  {| si_Version := si_Version item; si_ItemID := id;
     si_RouteTag := si_RouteTag item; si_CreatedAt := si_CreatedAt item;
     si_ExpiresAt := si_ExpiresAt item; si_DeleteTokenHash := si_DeleteTokenHash item;
     si_Payload := si_Payload item; si_Work := si_Work item |}.

(** * Errors *)

Definition ErrInvalidItem : error := "invalid stored item".
Definition ErrInvalidRetention : error := "item expiry must equal the fixed retention window".
Definition ErrItemTooLarge : error := "item exceeds node maximum".

(** * Canonical encodings (canonical.go) *)

(** Appending to a [bytes.Buffer]. *)
Definition writeByte (buf : bytes) (value : Z) : bytes := buf ++ [z2b value].
Definition writeInt64 (buf : bytes) (value : Z) : bytes := buf ++ be_encode 8 value.

Definition writeBytes (buf value : bytes) : bytes :=
  (buf ++ be_encode 4 (u32 (blen value))) ++ value.
Definition writeString (buf : bytes) (value : string) : bytes := writeBytes buf (str_bytes value).
Definition writeTime (buf : bytes) (value : Time) : bytes := writeInt64 buf (UnixMilli value).

Definition ItemCommitment (item : StoredItem) : bytes :=
  let buf := writeByte [] (si_Version item) in
  let buf := writeString buf (si_RouteTag item) in
  let buf := writeTime buf (si_CreatedAt item) in
  let buf := writeTime buf (si_ExpiresAt item) in
  let buf := writeBytes buf (si_DeleteTokenHash item) in
  let payloadHash := Sha256.Sum256 (si_Payload item) in
  writeBytes buf payloadHash.

#[global] Arguments ItemCommitment : simpl never.

Definition ComputeItemID (item : StoredItem) : string :=
  Hex.EncodeToString (Sha256.Sum256 (ItemCommitment item)).

#[global] Arguments ComputeItemID : simpl never.

Definition ValidRouteTag (routeTag : string) : bool :=
  if negb (slen routeTag =? Base64.EncodedLen CapabilityBytes) then false
  else match Base64.DecodeString routeTag with
       | Some decoded => blen decoded =? CapabilityBytes
       | None => false
       end.

Definition ValidateItem (item : StoredItem) (now : Time) (maxBytes : Z) : option error :=
  if (maxBytes <=? 0) || (DefaultMaxItemBytes <? maxBytes) then Some ErrInvalidItem
  else if negb (si_Version item =? ProtocolVersion) || negb (ValidRouteTag (si_RouteTag item)) ||
          negb (blen (si_DeleteTokenHash item) =? Sha256.Size) then Some ErrInvalidItem
  else if (blen (si_Payload item) =? 0) || (maxBytes <? blen (si_Payload item))
       then Some ErrItemTooLarge
  else if After (si_CreatedAt item) (TAdd now (5 * Minute)) || negb (After (si_ExpiresAt item) now)
       then Some ErrInvalidItem
  else if negb (TEqual (si_ExpiresAt item) (TAdd (si_CreatedAt item) FixedItemRetention))
       then Some ErrInvalidRetention
  else if negb (bool_decide (si_ItemID item = ComputeItemID item)) then Some ErrInvalidItem
  else None.

Definition ValidateNodeParameters (p : NodeParameters) : option error :=
  if negb (np_ProtocolVersion p =? ProtocolVersion) ||
     (MaxWorkDifficulty <? np_Difficulty p) ||
     (np_EpochSeconds p <? MinWorkEpochSeconds) || (MaxWorkEpochSeconds <? np_EpochSeconds p) ||
     (np_MaxItemBytes p <=? 0) || (DefaultMaxItemBytes <? np_MaxItemBytes p) ||
     (np_StorageUsed p <? 0) || (np_StorageCapacity p <=? 0) ||
     (np_StorageCapacity p <? np_StorageUsed p)
  then Some "invalid node parameters" else None.

Definition ReceiptSigningBytes (receipt : StorageReceipt) : bytes :=
  let buf := writeString [] (sr_NodeID receipt) in
  let buf := writeString buf (sr_ItemID receipt) in
  let buf := writeBytes buf (sr_PayloadHash receipt) in
  let buf := writeTime buf (sr_StoredAt receipt) in
  writeTime buf (sr_ExpiresAt receipt).

Definition DeleteReceiptSigningBytes (receipt : DeleteReceipt) : bytes :=
  let buf := writeString [] (dr_NodeID receipt) in
  let buf := writeString buf (dr_ItemID receipt) in
  writeTime buf (dr_DeletedAt receipt).

Definition ProofSigningBytes (proof : StorageProof) : bytes :=
  let buf := writeString [] (sp_NodeID proof) in
  let buf := writeString buf (sp_ItemID proof) in
  let buf := writeBytes buf (sp_Nonce proof) in
  let buf := writeInt64 buf (sp_Offset proof) in
  let buf := writeBytes buf (sp_Sample proof) in
  let buf := writeBytes buf (sp_PayloadHash proof) in
  writeTime buf (sp_ProvedAt proof).

(** * Injectivity of the framing *)

(** A value whose length fits the 32-bit length prefix. *)
Definition framed (v : bytes) : Prop := blen v < two32.

(** A time whose millisecond reading fits an [int64]. *)
Definition time_ok (t : Time) : Prop := - two63 ≤ UnixMilli t < two63.

(** The byte strings the writers append. *)
Definition frame (v : bytes) : bytes := be_encode 4 (u32 (blen v)) ++ v.
Definition stamp (t : Time) : bytes := be_encode 8 (UnixMilli t).

Lemma writeBytes_frame (buf v : bytes) : writeBytes buf v = buf ++ frame v.
Proof. unfold writeBytes, frame. by rewrite <- app_assoc. Qed.

Lemma frame_app_inj (v w r s : bytes) :
  framed v → framed w → frame v ++ r = frame w ++ s → v = w ∧ r = s.
Proof.
  unfold frame, framed, u32. intros Hv Hw H. rewrite <- !app_assoc in H.
  apply app_inj_1 in H as [Hl H]; [|by rewrite !be_encode_length].
  apply be_encode_inj in Hl. change (256 ^ Z.of_nat 4) with two32 in Hl.
  rewrite !Z.mod_mod, !Z.mod_small in Hl by (pose proof (blen_nonneg v); pose proof (blen_nonneg w); lia).
  apply app_inj_1 in H; [done|]. unfold blen in Hl. lia.
Qed.

Lemma stamp_app_inj (t u : Time) (r s : bytes) :
  time_ok t → time_ok u → stamp t ++ r = stamp u ++ s → UnixMilli t = UnixMilli u ∧ r = s.
Proof.
  unfold stamp, time_ok. intros Ht Hu H.
  apply app_inj_1 in H as [H ->]; [|by rewrite !be_encode_length]. split; [|done].
  apply be_encode_inj in H. change (256 ^ Z.of_nat 8) with two64 in H. div_lia.
Qed.

(** Peel the fields of two equal canonical encodings off one by one. *)
Ltac peel H :=
  first
  [ apply frame_app_inj in H as [? H]; [|assumption|assumption]
  | apply stamp_app_inj in H as [? H]; [|assumption|assumption] ].

Lemma writeTime_stamp (buf : bytes) (t : Time) : writeTime buf t = buf ++ stamp t.
Proof. done. Qed.

Ltac unframe H :=
  unfold writeString, writeInt64 in H;
  rewrite ?writeBytes_frame, ?writeTime_stamp in H;
  rewrite <- ?app_assoc in H; cbn [app] in H.

(** * Route capabilities *)

(** ValidRouteTag accepts exactly the canonical raw-URL base64 spellings of
    32-byte capabilities: no line breaks, no stray trailing bits and no second
    spelling of the same capability pass. *)
Theorem ValidRouteTag_iff (s : string) :
  ValidRouteTag s = true ↔
  ∃ capability : bytes, blen capability = CapabilityBytes ∧ s = Base64.EncodeToString capability.
Proof.
  unfold ValidRouteTag. split.
  - destruct (negb _) eqn:Hlen; [done|]. unbool.
    destruct (Base64.DecodeString s) as [b|] eqn:E; [|done]. intros Hb. unbool.
    exists b. split; [done|]. apply Base64_canonical; congruence.
  - intros (b & Hb & ->). rewrite Base64_encode_slen, Hb, Z.eqb_refl. simpl.
    rewrite Base64_decode_encode. by apply Z.eqb_eq.
Qed.

Lemma ValidRouteTag_slen (s : string) : ValidRouteTag s = true → slen s = 43.
Proof. unfold ValidRouteTag. destruct (negb _) eqn:E; [done|]. by unbool. Qed.

Lemma ValidRouteTag_encode (b : bytes) :
  blen b = CapabilityBytes → ValidRouteTag (Base64.EncodeToString b) = true.
Proof.
  intros Hb. unfold ValidRouteTag.
  rewrite Base64_encode_slen, Hb, Z.eqb_refl. simpl.
  rewrite Base64_decode_encode. by apply Z.eqb_eq.
Qed.

(** * Stored items *)

(** What [ValidateItem] checks, as a proposition. *)
Record item_valid (item : StoredItem) (now : Time) (maxBytes : Z) : Prop := {
  iv_max : 0 < maxBytes ≤ DefaultMaxItemBytes;
  iv_version : si_Version item = ProtocolVersion;
  iv_route : ValidRouteTag (si_RouteTag item) = true;
  iv_token : blen (si_DeleteTokenHash item) = Sha256.Size;
  iv_payload : 0 < blen (si_Payload item) ≤ maxBytes;
  iv_created : si_CreatedAt item ≤ now + 5 * Minute;
  iv_expires : now < si_ExpiresAt item;
  iv_retention : si_ExpiresAt item = si_CreatedAt item + FixedItemRetention;
  iv_id : si_ItemID item = ComputeItemID item;
}.

Lemma ValidateItem_None (item : StoredItem) (now : Time) (maxBytes : Z) :
  ValidateItem item now maxBytes = None ↔ item_valid item now maxBytes.
Proof.
  unfold ValidateItem, After, TEqual, TAdd. pose proof (blen_nonneg (si_Payload item)). split.
  - intros H'. repeat step_if H'. unbool. by constructor; try lia.
  - intros [].
    repeat (case_match;
      [repeat match goal with E : (_ || _)%bool = true |- _ => apply orb_true_iff in E as [E|E] end;
       unbool; solve [congruence|lia]|]).
    done.
Qed.

(** An item a node accepts at time [now] expires exactly 60 days after its creation,
    is still alive, and cannot stay stored longer than 60 days and 5 minutes from
    the moment it is accepted, whatever timestamps the sender chose. *)
Theorem ValidateItem_lifetime (item : StoredItem) (now : Time) (maxBytes : Z) :
  ValidateItem item now maxBytes = None →
  si_ExpiresAt item = si_CreatedAt item + FixedItemRetention ∧
  now < si_ExpiresAt item ≤ now + FixedItemRetention + 5 * Minute.
Proof. intros []%ValidateItem_None. split; [done|lia]. Qed.

Lemma ComputeItemID_commitment (i j : StoredItem) :
  ComputeItemID i = ComputeItemID j →
  ItemCommitment i = ItemCommitment j ∨ Sha256.collides (ItemCommitment i) (ItemCommitment j).
Proof. intros H%(inj Hex.EncodeToString). by apply Sha256.Sum256_inj. Qed.

Lemma framed_str (s : string) : slen s < two32 → framed (str_bytes s).
Proof. unfold framed, slen, blen. by rewrite str_bytes_length. Qed.

Lemma framed_sha (l : bytes) : framed (Sha256.Sum256 l).
Proof. unfold framed. by rewrite Sha256.Sum256_blen. Qed.

(** What an item identifier commits to, the times as the eight bytes written. *)
Definition same_content (i j : StoredItem) : Prop :=
  si_RouteTag i = si_RouteTag j ∧ si_DeleteTokenHash i = si_DeleteTokenHash j ∧
  si_Payload i = si_Payload j ∧
  stamp (si_CreatedAt i) = stamp (si_CreatedAt j) ∧ stamp (si_ExpiresAt i) = stamp (si_ExpiresAt j).

Lemma stamp_split (t u : Time) (r s : bytes) : stamp t ++ r = stamp u ++ s → stamp t = stamp u ∧ r = s.
Proof. intros H. apply app_inj_1 in H; [done|]. unfold stamp. by rewrite !be_encode_length. Qed.

Lemma stamp_inj (t u : Time) : time_ok t → time_ok u → stamp t = stamp u → UnixMilli t = UnixMilli u.
Proof.
  intros Ht Hu H. destruct (stamp_app_inj t u [] [] Ht Hu) as [? _]; [by rewrite !app_nil_r|done].
Qed.

Lemma ItemCommitment_inj (i j : StoredItem) :
  framed (str_bytes (si_RouteTag i)) → framed (str_bytes (si_RouteTag j)) →
  framed (si_DeleteTokenHash i) → framed (si_DeleteTokenHash j) →
  ItemCommitment i = ItemCommitment j →
  same_content i j ∨ Sha256.collides (si_Payload i) (si_Payload j).
Proof.
  intros ? ? ? ? H.
  pose proof (framed_sha (si_Payload i)). pose proof (framed_sha (si_Payload j)).
  unfold ItemCommitment, writeByte in H. unframe H. apply (inj2 cons) in H as [_ H].
  rewrite <- (app_nil_r (frame (Sha256.Sum256 (si_Payload i)))),
          <- (app_nil_r (frame (Sha256.Sum256 (si_Payload j)))) in H.
  apply frame_app_inj in H as [Hr%(inj str_bytes) H]; [|done..].
  do 2 apply stamp_split in H as [? H]. do 2 peel H.
  match goal with E : Sha256.Sum256 _ = _ |- _ => apply Sha256.Sum256_inj in E as [|]; [left|by right] end.
  by repeat split.
Qed.

(** Two items that validate under one identifier have the same content. *)
Lemma item_id_content (i j : StoredItem) (now now' : Time) (m m' : Z) :
  ValidateItem i now m = None → ValidateItem j now' m' = None → si_ItemID i = si_ItemID j →
  same_content i j ∨ Sha256.collides (ItemCommitment i) (ItemCommitment j) ∨
  Sha256.collides (si_Payload i) (si_Payload j).
Proof.
  intros Hi%ValidateItem_None Hj%ValidateItem_None Hid.
  destruct Hi as [? _ Hri Hti ? ? ? ? Hi], Hj as [? _ Hrj Htj ? ? ? ? Hj].
  rewrite Hi, Hj in Hid. apply ComputeItemID_commitment in Hid as [Hc|]; [|by right; left].
  apply ValidRouteTag_slen in Hri, Hrj.
  apply ItemCommitment_inj in Hc as [?|?]; [by left|by right; right|..];
    try (apply framed_str); unfold framed; by rewrite ?Hri, ?Hrj, ?Hti, ?Htj.
Qed.

(** The item identifier commits to the whole item: two items that validate under
    one identifier carry the same version, route tag, delete-token hash and
    payload, and creation and expiry times equal to the millisecond, unless their
    commitments, or their payloads, are a SHA-256 collision. (The commitment truncates times to
    milliseconds, so equality of the identifiers says nothing below that.) *)
Theorem item_id_binds_content (i j : StoredItem) (now now' : Time) (m m' : Z) :
  ValidateItem i now m = None → ValidateItem j now' m' = None →
  time_ok (si_CreatedAt i) → time_ok (si_ExpiresAt i) →
  time_ok (si_CreatedAt j) → time_ok (si_ExpiresAt j) →
  si_ItemID i = si_ItemID j →
  (si_RouteTag i = si_RouteTag j ∧ si_DeleteTokenHash i = si_DeleteTokenHash j ∧
   si_Payload i = si_Payload j ∧
   UnixMilli (si_CreatedAt i) = UnixMilli (si_CreatedAt j) ∧
   UnixMilli (si_ExpiresAt i) = UnixMilli (si_ExpiresAt j)) ∨
  Sha256.collides (ItemCommitment i) (ItemCommitment j) ∨
  Sha256.collides (si_Payload i) (si_Payload j).
Proof.
  intros Hi Hj ? ? ? ? Hid. destruct (item_id_content i j now now' m m' Hi Hj Hid) as [Hc|]; [left|by right].
  destruct Hc as (? & ? & ? & ? & ?). split_and!; try done; by apply stamp_inj.
Qed.

(** * Canonical signing bytes *)

Definition receipt_ok (r : StorageReceipt) : Prop :=
  framed (str_bytes (sr_NodeID r)) ∧ framed (str_bytes (sr_ItemID r)) ∧
  framed (sr_PayloadHash r) ∧ time_ok (sr_StoredAt r) ∧ time_ok (sr_ExpiresAt r).

Definition proof_ok (p : StorageProof) : Prop :=
  framed (str_bytes (sp_NodeID p)) ∧ framed (str_bytes (sp_ItemID p)) ∧
  framed (sp_Nonce p) ∧ - two63 ≤ sp_Offset p < two63 ∧ framed (sp_Sample p) ∧
  framed (sp_PayloadHash p) ∧ time_ok (sp_ProvedAt p).

Lemma int64_app_inj (x y : Z) (r s : bytes) :
  - two63 ≤ x < two63 → - two63 ≤ y < two63 →
  be_encode 8 x ++ r = be_encode 8 y ++ s → x = y ∧ r = s.
Proof.
  intros Hx Hy H. apply app_inj_1 in H as [H ->]; [|by rewrite !be_encode_length].
  apply be_encode_inj in H. change (256 ^ Z.of_nat 8) with two64 in H. split; [div_lia|done].
Qed.

(** The signed bytes of a storage receipt determine every signed field (times to
    the millisecond): a signature over one receipt is never a signature over a
    different one. *)
Theorem ReceiptSigningBytes_inj (r s : StorageReceipt) :
  receipt_ok r → receipt_ok s → ReceiptSigningBytes r = ReceiptSigningBytes s →
  sr_NodeID r = sr_NodeID s ∧ sr_ItemID r = sr_ItemID s ∧ sr_PayloadHash r = sr_PayloadHash s ∧
  UnixMilli (sr_StoredAt r) = UnixMilli (sr_StoredAt s) ∧
  UnixMilli (sr_ExpiresAt r) = UnixMilli (sr_ExpiresAt s).
Proof.
  intros (?&?&?&?&?) (?&?&?&?&?) Heq. unfold ReceiptSigningBytes in Heq. unframe Heq.
  do 4 peel Heq. apply stamp_inj in Heq; [|done..].
  repeat split; try done; by apply (inj str_bytes).
Qed.

(** The signed bytes of a storage proof determine the node, the item, the
    challenge nonce, the offset, the sample and the payload hash: a proof cannot
    be re-labelled to answer another challenge. *)
Theorem ProofSigningBytes_inj (p q : StorageProof) :
  proof_ok p → proof_ok q → ProofSigningBytes p = ProofSigningBytes q →
  sp_NodeID p = sp_NodeID q ∧ sp_ItemID p = sp_ItemID q ∧ sp_Nonce p = sp_Nonce q ∧
  sp_Offset p = sp_Offset q ∧ sp_Sample p = sp_Sample q ∧
  sp_PayloadHash p = sp_PayloadHash q ∧ UnixMilli (sp_ProvedAt p) = UnixMilli (sp_ProvedAt q).
Proof.
  intros (?&?&?&?&?&?&?) (?&?&?&?&?&?&?) Heq. unfold ProofSigningBytes in Heq. unframe Heq.
  do 3 peel Heq. apply int64_app_inj in Heq as [? Heq]; [|done..]. do 2 peel Heq.
  apply stamp_inj in Heq; [|done..].
  repeat split; try done; by apply (inj str_bytes).
Qed.

(** * Sample objects for the witnesses *)

Module Samples.

(** 2025-11-29T08:00:00Z. *)
Definition now : Time := (unix_epoch_seconds + 1764403200) * Second.

Definition token : bytes := replicate 32 x07.
Definition route : string := Base64.EncodeToString (replicate 32 x01).

Definition draft : StoredItem :=
  {| si_Version := ProtocolVersion; si_ItemID := ""; si_RouteTag := route;
     si_CreatedAt := now; si_ExpiresAt := TAdd now FixedItemRetention;
     si_DeleteTokenHash := Sha256.Sum256 token; si_Payload := str_bytes "ciphertext";
     si_Work := zeroWork |}.

Definition item : StoredItem := set_ItemID draft (ComputeItemID draft).

(** The same item under another creation time, less than a millisecond later. *)
Definition shifted : StoredItem :=
  set_ItemID
    {| si_Version := ProtocolVersion; si_ItemID := ""; si_RouteTag := route;
       si_CreatedAt := now + 500000; si_ExpiresAt := TAdd (now + 500000) FixedItemRetention;
       si_DeleteTokenHash := Sha256.Sum256 token; si_Payload := str_bytes "ciphertext";
       si_Work := zeroWork |} (ComputeItemID draft).

Definition receipt (stored : Time) : StorageReceipt :=
  {| sr_NodeID := "node"; sr_ItemID := si_ItemID item; sr_PayloadHash := Sha256.Sum256 [];
     sr_StoredAt := stored; sr_ExpiresAt := si_ExpiresAt item; sr_Signature := zeroSignature |}.

Definition proof (proved : Time) : StorageProof :=
  {| sp_NodeID := "node"; sp_ItemID := si_ItemID item; sp_Nonce := replicate 16 x05;
     sp_Offset := 3; sp_Sample := [x01; x02]; sp_PayloadHash := Sha256.Sum256 [];
     sp_ProvedAt := proved; sp_Signature := zeroSignature |}.

(** Items through the toy codec. *)
Definition item_put (i : StoredItem) : bytes :=
  ToyCodec.put (si_Version i) (ToyCodec.put (si_ItemID i) (ToyCodec.put (si_RouteTag i)
    (ToyCodec.put (si_CreatedAt i) (ToyCodec.put (si_ExpiresAt i) (ToyCodec.put (si_DeleteTokenHash i)
    (ToyCodec.put (si_Payload i) (ToyCodec.put (wp_Epoch (si_Work i))
    (ToyCodec.put (wp_Nonce (si_Work i)) (ToyCodec.put (wp_Difficulty (si_Work i)) []))))))))).

Definition item_get (l : bytes) : option StoredItem :=
  '(v, l) ← ToyCodec.get l; '(id, l) ← ToyCodec.get l; '(rt, l) ← ToyCodec.get l;
  '(c, l) ← ToyCodec.get l; '(e, l) ← ToyCodec.get l; '(h, l) ← ToyCodec.get l;
  '(p, l) ← ToyCodec.get l; '(we, l) ← ToyCodec.get l; '(wn, l) ← ToyCodec.get l;
  '(wd, l) ← ToyCodec.get l;
  Some {| si_Version := v; si_ItemID := id; si_RouteTag := rt; si_CreatedAt := c; si_ExpiresAt := e;
          si_DeleteTokenHash := h; si_Payload := p;
          si_Work := {| wp_Epoch := we; wp_Nonce := wn; wp_Difficulty := wd |} |}.

Lemma item_get_put (i : StoredItem) : item_get (item_put i) = Some i.
Proof.
  unfold item_get, item_put. do 10 (rewrite ToyCodec.get_put; cbn [mbind option_bind]).
  by destruct i as [? ? ? ? ? ? ? []].
Qed.

End Samples.

Lemma ValidateItem_lifetime_witness :
  ValidateItem Samples.item (Samples.now + Hour) DefaultMaxItemBytes = None ∧
  si_ExpiresAt Samples.item = si_CreatedAt Samples.item + FixedItemRetention.
Proof.
  split; [by vm_compute|].
  apply (ValidateItem_lifetime Samples.item (Samples.now + Hour) DefaultMaxItemBytes).
  by vm_compute.
Defined.

Lemma item_id_binds_content_witness :
  (si_ItemID Samples.item = si_ItemID Samples.shifted ∧
   si_CreatedAt Samples.item ≠ si_CreatedAt Samples.shifted) ∧
  (UnixMilli (si_CreatedAt Samples.item) = UnixMilli (si_CreatedAt Samples.shifted) ∨
   Sha256.collides (ItemCommitment Samples.item) (ItemCommitment Samples.shifted) ∨
   Sha256.collides (si_Payload Samples.item) (si_Payload Samples.shifted)).
Proof.
  split; [by vm_compute|].
  destruct (item_id_binds_content Samples.item Samples.shifted Samples.now Samples.now
    DefaultMaxItemBytes DefaultMaxItemBytes) as [(_ & _ & _ & ? & _)|];
    [by vm_compute..|by left|by right].
Defined.

Lemma ReceiptSigningBytes_inj_witness :
  sr_ItemID (Samples.receipt Samples.now) = sr_ItemID (Samples.receipt (Samples.now + 1)).
Proof.
  apply (ReceiptSigningBytes_inj (Samples.receipt Samples.now) (Samples.receipt (Samples.now + 1)));
    by vm_compute.
Defined.

Lemma ProofSigningBytes_inj_witness :
  sp_Nonce (Samples.proof Samples.now) = sp_Nonce (Samples.proof (Samples.now + 1)).
Proof.
  apply (ProofSigningBytes_inj (Samples.proof Samples.now) (Samples.proof (Samples.now + 1)));
    by vm_compute.
Defined.
