(* ===== verification/Work.v ===== *)
(** Proof-of-work postage (src/protocol/pow.go): the digest, the leading-zero
    test, verification by a node and the search loop of a sender. *)
From S2P Require Import Prelude Sha256 Protocol.
Local Open Scope Z_scope.

Definition workDomain : string := "enig/postage/v1".
Definition ErrInvalidWork : error := "invalid proof of work".

Definition WorkDigest (item : StoredItem) (proof : WorkProof) : bytes :=
  let buf := writeString [] workDomain in
  let buf := writeInt64 buf (wp_Epoch proof) in
  let buf := writeString buf (si_ItemID item) in
  let buf := writeInt64 buf (wp_Nonce proof) in
  Sha256.Sum256 buf.

#[global] Arguments WorkDigest : simpl never.

Fixpoint HasLeadingZeroBits (sum : bytes) (remaining : Z) : bool :=
  match sum with
  | [] => remaining =? 0
  | b :: sum =>
      if 8 <=? remaining then
        if negb (b2z b =? 0) then false else HasLeadingZeroBits sum (u8 (remaining - 8))
      else if remaining =? 0 then true
      else Z.shiftr (b2z b) (8 - remaining) =? 0
  end.

Definition VerifyWork (item : StoredItem) (now : Time) (epochSeconds minimumDifficulty : Z)
  : option error :=
  if (epochSeconds <? MinWorkEpochSeconds) || (MaxWorkEpochSeconds <? epochSeconds) ||
     (MaxWorkDifficulty <? minimumDifficulty) ||
     (MaxWorkDifficulty <? wp_Difficulty (si_Work item)) ||
     (wp_Difficulty (si_Work item) <? minimumDifficulty)
  then Some ErrInvalidWork
  else
    let current := Z.quot (Unix now) epochSeconds in
    if (wp_Epoch (si_Work item) <? current - 1) || (current + 1 <? wp_Epoch (si_Work item))
    then Some ErrInvalidWork
    else
      let sum := WorkDigest item (si_Work item) in
      if negb (HasLeadingZeroBits sum (wp_Difficulty (si_Work item)))
      then Some ErrInvalidWork else None.

(** The search loop. [ctx n] is the context's error when the loop polls it at
    nonce [n]; [fuel] bounds the iterations, [None] is "still searching". *)
Fixpoint solve_loop (fuel : nat) (ctx : Z → option error) (item : StoredItem)
    (proof : WorkProof) (difficulty : Z) : option (Result WorkProof) :=
  match fuel with
  | O => None
  | S fuel =>
      match (if Z.land (wp_Nonce proof) 0x3fff =? 0 then ctx (wp_Nonce proof) else None) with
      | Some e => Some (Err e)
      | None =>
          let sum := WorkDigest item proof in
          if HasLeadingZeroBits sum difficulty then Some (Ok proof)
          else solve_loop fuel ctx item
                 {| wp_Epoch := wp_Epoch proof; wp_Nonce := u64 (wp_Nonce proof + 1);
                    wp_Difficulty := wp_Difficulty proof |} difficulty
      end
  end.

Definition SolveWork (fuel : nat) (ctx : Z → option error) (item : StoredItem) (now : Time)
    (epochSeconds difficulty : Z) : option (Result WorkProof) :=
  if (epochSeconds <? MinWorkEpochSeconds) || (MaxWorkEpochSeconds <? epochSeconds) ||
     (MaxWorkDifficulty <? difficulty)
  then Some (Err ErrInvalidWork)
  else solve_loop fuel ctx item
         {| wp_Epoch := Z.quot (Unix now) epochSeconds; wp_Nonce := 0;
            wp_Difficulty := difficulty |} difficulty.

(** * The leading-zero test *)

Lemma pow_blen (sum : bytes) : 256 ^ blen sum = 2 ^ (8 * blen sum).
Proof. rewrite Z.pow_mul_r by (pose proof (blen_nonneg sum); lia). done. Qed.

(** C39. HasLeadingZeroBits is the numeric test it stands for: a digest passes
    difficulty [d] exactly when it has at least [d] bits and, read as one
    big-endian integer, lies below 2^(bits - d). *)
Theorem HasLeadingZeroBits_iff (sum : bytes) (d : Z) :
  0 ≤ d < 256 →
  HasLeadingZeroBits sum d = true ↔
  d ≤ 8 * blen sum ∧ be_decode sum < 2 ^ (8 * blen sum - d).
Proof.
  revert d. induction sum as [|b sum IH]; intros d Hd; simpl.
  - unfold be_decode, blen. simpl. rewrite Z.eqb_eq. split.
    + intros ->. done.
    + intros [? _]. lia.
  - rewrite be_decode_cons, blen_cons.
    pose proof (b2z_range b) as Hb. pose proof (be_decode_range sum) as Hs.
    pose proof (blen_nonneg sum). rewrite pow_blen in *.
    destruct (8 <=? d) eqn:E8; unbool.
    + destruct (negb (b2z b =? 0)) eqn:Eb; unbool.
      * split; [done|]. intros [? Hlt]. exfalso.
        pose proof (Z.pow_le_mono_r 2 (8 * (blen sum + 1) - d) (8 * blen sum) ltac:(lia) ltac:(lia)).
        nia.
      * unfold u8. rewrite Z.mod_small by lia. rewrite IH, Eb by lia.
        replace (8 * (blen sum + 1) - d) with (8 * blen sum - (d - 8)) by lia.
        rewrite Z.mul_0_l, Z.add_0_l. split; intros [? ?]; (split; [lia|done]).
    + assert (Hp : 2 ^ (8 * (blen sum + 1) - d) = 2 ^ (8 - d) * 2 ^ (8 * blen sum))
        by (rewrite <- Z.pow_add_r by lia; f_equal; lia).
      rewrite Hp. destruct (d =? 0) eqn:E0; unbool.
      * subst d. change (2 ^ (8 - 0)) with 256. split; [|done]. intros _. split; [lia|nia].
      * rewrite Z.eqb_eq, Z.shiftr_div_pow2 by lia.
        assert (0 < 2 ^ (8 - d)) by (apply Z.pow_pos_nonneg; lia).
        rewrite Z.div_small_iff by lia. split.
        -- intros [?|?]; [split; [lia|nia]|lia].
        -- intros [? ?]. left. nia.
Qed.

(** * Sender and node agree *)

Lemma solve_loop_sound (fuel : nat) (ctx : Z → option error) (item : StoredItem)
    (p q : WorkProof) (d : Z) :
  solve_loop fuel ctx item p d = Some (Ok q) →
  wp_Epoch q = wp_Epoch p ∧ wp_Difficulty q = wp_Difficulty p ∧
  HasLeadingZeroBits (WorkDigest item q) d = true.
Proof.
  revert p. induction fuel as [|fuel IH]; intros p H; [done|]. cbn [solve_loop] in H.
  destruct (if _ =? _ then ctx _ else None); [done|].
  destruct (HasLeadingZeroBits (WorkDigest item p) d) eqn:E; [simplify_eq; auto|]. by apply IH in H.
Qed.

Lemma solve_loop_enough (item : StoredItem) (d epoch diff : Z) (n : nat) (start : Z) (k : nat) :
  0 ≤ start → start + Z.of_nat n < two64 →
  HasLeadingZeroBits
    (WorkDigest item {| wp_Epoch := epoch; wp_Nonce := start + Z.of_nat n; wp_Difficulty := diff |})
    d = true →
  ∃ q, solve_loop (S n + k) (λ _, None) item
         {| wp_Epoch := epoch; wp_Nonce := start; wp_Difficulty := diff |} d = Some (Ok q) ∧
       start ≤ wp_Nonce q ≤ start + Z.of_nat n.
Proof.
  revert start. induction n as [|n IH]; intros start Hs Hn Hw.
  - cbn [solve_loop Nat.add wp_Nonce].
    replace (if _ =? 0 then None else None) with (@None error) by (by case_match).
    rewrite Z.add_0_r in Hw. rewrite Hw. eexists. split; [done|]. simpl. lia.
  - change (S (S n) + k)%nat with (S (S n + k))%nat. cbn [solve_loop wp_Nonce].
    replace (if _ =? 0 then None else None) with (@None error) by (by case_match).
    match goal with |- context [HasLeadingZeroBits ?x d] =>
      destruct (HasLeadingZeroBits x d) eqn:E end.
    { eexists. split; [done|]. simpl. lia. }
    cbn [wp_Epoch wp_Difficulty]. unfold u64. rewrite Z.mod_small by lia.
    destruct (IH (start + 1)) as (q & Hq & Hb); [lia|lia| |].
    { rewrite <- Hw. do 2 f_equal. f_equal. lia. }
    exists q. split; [done|lia].
Qed.

(** Postage found by SolveWork is accepted by VerifyWork: for the same item, any
    node whose clock lies in the same or an adjacent epoch and whose demanded
    difficulty is at most the solved one accepts the proof. *)
Theorem SolveWork_verifies (fuel : nat) (ctx : Z → option error) (item : StoredItem)
    (now now' : Time) (epochSeconds difficulty minimum : Z) (p : WorkProof) :
  SolveWork fuel ctx item now epochSeconds difficulty = Some (Ok p) →
  Z.abs (Z.quot (Unix now') epochSeconds - Z.quot (Unix now) epochSeconds) ≤ 1 →
  minimum ≤ difficulty →
  VerifyWork (set_Work item p) now' epochSeconds minimum = None.
Proof.
  unfold SolveWork, VerifyWork. intros H Hepoch Hmin. cbn [set_Work si_Work].
  destruct (_ || _ || _)%bool eqn:Hg in H; [done|]. unbool.
  apply solve_loop_sound in H as (He & Hd & Hz). simpl in He, Hd.
  rewrite Hd, He. change (WorkDigest (set_Work item p) p) with (WorkDigest item p). rewrite Hz.
  rewrite !(proj2 (Z.ltb_ge _ _)) by lia. done.
Qed.

(** C40. The search terminates whenever a solution exists: if some nonce below 2^64
    meets the difficulty and the context is never cancelled, SolveWork returns a
    valid proof after at most that many iterations plus one. *)
Theorem SolveWork_terminates (item : StoredItem) (now : Time) (epochSeconds difficulty : Z)
    (n : nat) :
  MinWorkEpochSeconds ≤ epochSeconds ≤ MaxWorkEpochSeconds → difficulty ≤ MaxWorkDifficulty →
  Z.of_nat n < two64 →
  HasLeadingZeroBits
    (WorkDigest item {| wp_Epoch := Z.quot (Unix now) epochSeconds; wp_Nonce := Z.of_nat n;
                        wp_Difficulty := difficulty |}) difficulty = true →
  ∃ p, SolveWork (S n) (λ _, None) item now epochSeconds difficulty = Some (Ok p) ∧
       0 ≤ wp_Nonce p ≤ Z.of_nat n ∧
       HasLeadingZeroBits (WorkDigest item p) difficulty = true.
Proof.
  intros He Hd Hn Hw. unfold SolveWork. rewrite !(proj2 (Z.ltb_ge _ _)) by lia. cbn [orb].
  destruct (solve_loop_enough item difficulty (Z.quot (Unix now) epochSeconds) difficulty n 0 0)
    as (q & Hq & Hb); [lia|lia|done|]. rewrite Nat.add_0_r in Hq.
  exists q. split_and!; [done|lia|lia|]. by apply solve_loop_sound in Hq as (_ & _ & ?).
Qed.

(** * Witnesses *)

Lemma HasLeadingZeroBits_iff_witness :
  HasLeadingZeroBits [x00; x1f; xff] 11 = true ∧ be_decode [x00; x1f; xff] < 2 ^ 13.
Proof.
  split; [done|]. apply (HasLeadingZeroBits_iff [x00; x1f; xff] 11); [lia|done].
Defined.

Definition sample_proof : WorkProof :=
  {| wp_Epoch := 2940672; wp_Nonce := 18; wp_Difficulty := 6 |}.

Lemma SolveWork_verifies_witness :
  VerifyWork (set_Work Samples.item sample_proof) (Samples.now + 10 * Minute) 600 5 = None.
Proof.
  apply (SolveWork_verifies 400 (λ _, None) Samples.item Samples.now _ 600 6);
    [vm_compute; reflexivity|vm_compute; discriminate|lia].
Defined.

Lemma SolveWork_terminates_witness :
  ∃ p, SolveWork (S 18) (λ _, None) Samples.item Samples.now 600 6 = Some (Ok p) ∧
       0 ≤ wp_Nonce p ≤ 18.
Proof.
  destruct (SolveWork_terminates Samples.item Samples.now 600 6 18) as (p & Hp & Hn & _);
    [split; vm_compute; discriminate|vm_compute; discriminate|lia|vm_compute; reflexivity|].
  exists p. exact (conj Hp Hn).
Defined.
