(* ===== verification/Padding.v ===== *)
(** Message padding (src/pqcrypto/padding.go): a plaintext is stored behind a
    4-byte length in the smallest of five bucket sizes and filled with random
    bytes, so that the ciphertext length reveals the bucket only. *)
From S2P Require Import Prelude.
Local Open Scope Z_scope.

Module Padding.

Definition messageBuckets : list Z := [1024; 4096; 16384; 65536; 262144].

(** The selection loop: the first bucket that holds [required] bytes, else 0. *)
Fixpoint select (required : Z) (candidates : list Z) : Z :=
  match candidates with
  | [] => 0
  | candidate :: candidates =>
      if required <=? candidate then candidate else select required candidates
  end.

(** [rand n] is the outcome of [rand.Read] into a buffer of [n] bytes. *)
Definition PadMessage (rand : Z → Result bytes) (plaintext : bytes) : Result bytes :=
  let required := blen plaintext + 4 in
  let bucket := select required messageBuckets in
  if bucket =? 0 then Err "message too large; use encrypted file chunks"
  else match rand (bucket - required) with
       | Err e => Err e
       | Ok filler => Ok (be_encode 4 (u32 (blen plaintext)) ++ plaintext ++ filler)
       end.

Definition UnpadMessage (padded : bytes) : Result bytes :=
  if blen padded <? 4 then Err "invalid padded message"
  else
    let length := be_decode (take 4 padded) in
    if (length <? 0) || (blen padded - 4 <? length) then Err "invalid padded message length"
    else Ok (slice padded 4 (4 + length)).

(** What [rand.Read] documents: it fills the buffer or reports an error. *)
Definition rand_fills (rand : Z → Result bytes) : Prop :=
  ∀ n b, 0 ≤ n → rand n = Ok b → blen b = n.

Lemma select_in (required : Z) (l : list Z) :
  select required l ≠ 0 → select required l ∈ l ∧ required ≤ select required l.
Proof.
  induction l as [|c l IH]; simpl; [done|]. destruct (required <=? c) eqn:E; unbool.
  - intros _. split; [apply list_elem_of_here|done].
  - intros [? ?]%IH. split; [by apply list_elem_of_further|done].
Qed.

(** Buckets are tried in increasing order, so the chosen one is the smallest
    that fits, and none is chosen only when none fits. *)
Lemma select_least (required c : Z) :
  c ∈ messageBuckets → required ≤ c → 0 < select required messageBuckets ≤ c.
Proof.
  unfold messageBuckets. intros Hc Hr. simpl.
  repeat match goal with |- context [?a <=? ?b] => destruct (a <=? b) eqn:?; unbool end;
    apply list_elem_of_In in Hc; simpl in Hc; lia.
Qed.

Lemma bucket_bound (c : Z) : c ∈ messageBuckets → 4 < c ≤ 262144.
Proof.
  unfold messageBuckets. intros Hc.
  apply list_elem_of_In in Hc. simpl in Hc. lia.
Qed.

Lemma UnpadMessage_frame (m filler : bytes) :
  blen m < two32 → UnpadMessage (be_encode 4 (u32 (blen m)) ++ m ++ filler) = Ok m.
Proof.
  intros Hm. pose proof (blen_nonneg m). pose proof (blen_nonneg filler).
  unfold UnpadMessage. rewrite !blen_app.
  assert (blen (be_encode 4 (u32 (blen m))) = 4) as Hl by (unfold blen; by rewrite be_encode_length).
  rewrite take_app_length' by (by rewrite be_encode_length).
  unfold u32 in *. rewrite be_decode_encode_small, !Z.mod_small by (rewrite ?Z.mod_small; done || lia).
  rewrite Z.mod_small in Hl by lia. rewrite Hl.
  rewrite !(proj2 (Z.ltb_ge _ _)) by lia. cbn [orb]. unfold slice.
  rewrite drop_app_length' by (by rewrite be_encode_length).
  rewrite take_app_length' by (unfold blen; lia). done.
Qed.

(** Padding is invertible and hides the length up to the bucket: whenever
    PadMessage succeeds, UnpadMessage recovers the plaintext, and the padded
    length is the smallest bucket that holds the plaintext and its prefix. *)
Theorem PadMessage_roundtrip (rand : Z → Result bytes) (plaintext padded : bytes) :
  rand_fills rand → PadMessage rand plaintext = Ok padded →
  UnpadMessage padded = Ok plaintext ∧
  blen padded ∈ messageBuckets ∧ blen plaintext + 4 ≤ blen padded ∧
  ∀ c, c ∈ messageBuckets → blen plaintext + 4 ≤ c → blen padded ≤ c.
Proof.
  intros Hrand. unfold PadMessage.
  destruct (select _ _ =? 0) eqn:E; [done|]. unbool.
  apply select_in in E as [Hin Hle]. pose proof (bucket_bound _ Hin).
  destruct (rand _) as [filler|] eqn:Er; [|done]. intros <-%(inj Ok).
  apply Hrand in Er; [|lia].
  assert (Hlen : blen (be_encode 4 (u32 (blen plaintext)) ++ plaintext ++ filler) =
          select (blen plaintext + 4) messageBuckets).
  { rewrite !blen_app. unfold blen at 1. rewrite be_encode_length. lia. }
  rewrite Hlen. split_and!; [|done|done|].
  - apply UnpadMessage_frame. lia.
  - intros c Hc Hr. by apply select_least.
Qed.

(** PadMessage accepts exactly the plaintexts of at most 262140 bytes, given that
    the random source works; longer ones are refused with an error. *)
Theorem PadMessage_total (rand : Z → Result bytes) (plaintext : bytes) :
  (∀ n, 0 ≤ n → is_ok (rand n) = true) →
  is_ok (PadMessage rand plaintext) = (blen plaintext <=? 262140).
Proof.
  intros Hrand. unfold PadMessage.
  destruct (blen plaintext <=? 262140) eqn:E; unbool.
  - destruct (select_least (blen plaintext + 4) 262144) as [? ?]; [|lia|].
    { apply list_elem_of_In. simpl. tauto. }
    rewrite (proj2 (Z.eqb_neq _ _)) by lia.
    destruct (select_in (blen plaintext + 4) messageBuckets) as [_ ?]; [lia|].
    specialize (Hrand (select (blen plaintext + 4) messageBuckets - (blen plaintext + 4)) ltac:(lia)).
    by destruct (rand _).
  - destruct (select _ _ =? 0) eqn:E0; [done|]. unbool.
    apply select_in in E0 as [Hin Hle]. apply bucket_bound in Hin. lia.
Qed.

(** UnpadMessage accepts exactly the byte strings that frame a message: a 4-byte
    big-endian length, that many bytes, and arbitrary filler. It never reads
    past the input and rejects everything else. *)
Theorem UnpadMessage_iff (padded message : bytes) :
  UnpadMessage padded = Ok message ↔
  blen message < two32 ∧
  ∃ filler, padded = be_encode 4 (blen message) ++ message ++ filler.
Proof.
  split.
  - unfold UnpadMessage. destruct (blen padded <? 4) eqn:E4; [done|].
    destruct (_ || _)%bool eqn:El; [done|]. intros <-%(inj Ok). unbool.
    assert (H4 : length (take 4 padded) = 4%nat) by (rewrite length_take; unfold blen in *; lia).
    pose proof (be_decode_range (take 4 padded)) as Hr. unfold blen in Hr. rewrite H4 in Hr.
    change (256 ^ Z.of_nat 4) with two32 in Hr.
    assert (Hlen : blen (slice padded 4 (4 + be_decode (take 4 padded))) = be_decode (take 4 padded)).
    { unfold slice, blen in *. rewrite length_take, length_drop. lia. }
    split; [lia|]. exists (drop (Z.to_nat (be_decode (take 4 padded))) (drop 4 padded)).
    rewrite Hlen. unfold slice. rewrite Z.add_simpl_l, take_drop.
    rewrite <- (take_drop 4 padded) at 1. f_equal.
    rewrite <- (be_encode_decode (take 4 padded)) at 1. by rewrite H4.
  - intros (Hm & filler & ->). rewrite <- (UnpadMessage_frame message filler Hm).
    do 2 f_equal. unfold u32. rewrite Z.mod_small; [done|]. pose proof (blen_nonneg message). lia.
Qed.

(** * Witnesses *)

Definition zero_rand (n : Z) : Result bytes := Ok (replicate (Z.to_nat n) x00).

Lemma zero_rand_fills : rand_fills zero_rand.
Proof. intros n b Hn [= <-]. unfold blen. rewrite length_replicate. lia. Qed.

Lemma PadMessage_roundtrip_witness :
  ∃ padded, PadMessage zero_rand (str_bytes "hello") = Ok padded ∧
            UnpadMessage padded = Ok (str_bytes "hello").
Proof.
  eexists. split; [reflexivity|].
  apply (PadMessage_roundtrip zero_rand (str_bytes "hello") _); [apply zero_rand_fills|reflexivity].
Defined.

Lemma PadMessage_total_witness : is_ok (PadMessage zero_rand (str_bytes "hello")) = true.
Proof. rewrite (PadMessage_total zero_rand (str_bytes "hello")); [reflexivity|done]. Defined.

End Padding.
