(* ===== verification/Crypto.v ===== *)
(** Hybrid signatures and self-certifying node identities
    (src/pqcrypto/signatures.go). The two signature schemes are packages
    outside the program: [Crypto] is the interface the code uses of them,
    [CryptoLaws] what their documentation promises. *)
From S2P Require Import Prelude Sha256 Encoding Protocol.
Local Open Scope Z_scope.

(** * The signature packages *)

Definition ed25519_PublicKeySize : Z := 32.
Definition ed25519_PrivateKeySize : Z := 64.
Definition ed25519_SignatureSize : Z := 64.
Definition mldsa65_PublicKeySize : Z := 1952.
Definition mldsa65_SignatureSize : Z := 3309.

(** The operations of crypto/ed25519 and circl's mldsa65 that the program
    calls. ML-DSA signing is randomised: its coins are an argument. *)
Class Crypto := {
  ed25519_Public : bytes → bytes;
  ed25519_Sign : bytes → bytes → bytes;
  ed25519_Verify : bytes → bytes → bytes → bool;
  MLPrivateKey : Type;
  MLPublicKey : Type;
  mldsa65_UnmarshalPrivate : bytes → Result MLPrivateKey;
  mldsa65_PrivateBytes : MLPrivateKey → bytes;
  mldsa65_Public : MLPrivateKey → MLPublicKey;
  mldsa65_UnmarshalPublic : bytes → Result MLPublicKey;
  mldsa65_PublicBytes : MLPublicKey → bytes;
  mldsa65_SignTo : MLPrivateKey → bytes → bytes → bytes → Result bytes;
  mldsa65_Verify : MLPublicKey → bytes → bytes → bytes → bool;
}.

(** Documented behaviour: sizes, the key codec, and that a signature verifies
    under the key that made it. *)
Class CryptoLaws (C : Crypto) : Prop := {
  ed_public_size k : blen k = ed25519_PrivateKeySize → blen (ed25519_Public k) = ed25519_PublicKeySize;
  ed_sign_size k m : blen k = ed25519_PrivateKeySize → blen (ed25519_Sign k m) = ed25519_SignatureSize;
  ed_correct k m :
    blen k = ed25519_PrivateKeySize → ed25519_Verify (ed25519_Public k) m (ed25519_Sign k m) = true;
  ml_public_size k : blen (mldsa65_PublicBytes k) = mldsa65_PublicKeySize;
  ml_public_codec k : mldsa65_UnmarshalPublic (mldsa65_PublicBytes k) = Ok k;
  ml_private_codec k : mldsa65_UnmarshalPrivate (mldsa65_PrivateBytes k) = Ok k;
  ml_sign_size k m c coins s : mldsa65_SignTo k m c coins = Ok s → blen s = mldsa65_SignatureSize;
  ml_correct k m c coins s :
    mldsa65_SignTo k m c coins = Ok s → mldsa65_Verify (mldsa65_Public k) m c s = true;
}.

(** Key generation, from the coins each package draws. *)
Class KeyGen (C : Crypto) := {
  ed25519_GenerateKey : bytes → Result bytes;
  mldsa65_GenerateKey : bytes → Result MLPrivateKey;
  ed_generated_size coins k : ed25519_GenerateKey coins = Ok k → blen k = ed25519_PrivateKeySize;
}.

(** * The code *)

Definition signatureContext : string := "enig-v1".

Section Signatures.
Context `{C : Crypto}.

Record HybridSigner := { edPrivate : bytes; pqPrivate : MLPrivateKey }.

Record PrivateSigningMaterial := { psm_Ed25519Private : bytes; psm_MLDSA65Private : bytes }.

Definition GenerateHybridSigner `{!KeyGen C} (edCoins pqCoins : bytes) : Result HybridSigner :=
  match ed25519_GenerateKey edCoins with
  | Err e => Err e
  | Ok edPrivate =>
      match mldsa65_GenerateKey pqCoins with
      | Err e => Err e
      | Ok pqPrivate => Ok {| edPrivate := edPrivate; pqPrivate := pqPrivate |}
      end
  end.

Definition NewHybridSigner (material : PrivateSigningMaterial) : Result HybridSigner :=
  if negb (blen (psm_Ed25519Private material) =? ed25519_PrivateKeySize)
  then Err "invalid Ed25519 private key"
  else match mldsa65_UnmarshalPrivate (psm_MLDSA65Private material) with
       | Err e => Err e
       | Ok k => Ok {| edPrivate := psm_Ed25519Private material; pqPrivate := k |}
       end.

Definition PrivateMaterial (s : HybridSigner) : PrivateSigningMaterial :=
  {| psm_Ed25519Private := edPrivate s; psm_MLDSA65Private := mldsa65_PrivateBytes (pqPrivate s) |}.

Definition NodeID (identity : NodePublicIdentity) : string :=
  Hex.EncodeToString (Sha256.Sum256
    (str_bytes "enig/node-id/v1" ++ ni_Ed25519Public identity ++ ni_MLDSA65Public identity)).

Definition PublicIdentity (s : HybridSigner) : NodePublicIdentity :=
  let identity :=
    {| ni_NodeID := "";
       ni_Ed25519Public := ed25519_Public (edPrivate s);
       ni_MLDSA65Public := mldsa65_PublicBytes (mldsa65_Public (pqPrivate s));
       ni_ProtocolVersion := ProtocolVersion |} in
  {| ni_NodeID := NodeID identity;
     ni_Ed25519Public := ni_Ed25519Public identity;
     ni_MLDSA65Public := ni_MLDSA65Public identity;
     ni_ProtocolVersion := ni_ProtocolVersion identity |}.

Definition ValidPublicIdentity (identity : NodePublicIdentity) : bool :=
  if negb (ni_ProtocolVersion identity =? ProtocolVersion) ||
     negb (blen (ni_Ed25519Public identity) =? ed25519_PublicKeySize) ||
     negb (blen (ni_MLDSA65Public identity) =? mldsa65_PublicKeySize) ||
     negb (bool_decide (ni_NodeID identity = NodeID identity))
  then false
  else is_ok (mldsa65_UnmarshalPublic (ni_MLDSA65Public identity)).

(** The hash input of [domainMessage]. *)
Definition domainPreimage (domain : string) (message : bytes) : bytes :=
  str_bytes "enig/signature/v1" ++ [x00] ++ str_bytes domain ++ [x00] ++ message.

Definition domainMessage (domain : string) (message : bytes) : bytes :=
  Sha256.Sum256 (domainPreimage domain message).

Definition Sign (s : HybridSigner) (coins : bytes) (domain : string) (message : bytes)
  : Result HybridSignature :=
  let digest := domainMessage domain message in
  match mldsa65_SignTo (pqPrivate s) digest (str_bytes signatureContext) coins with
  | Err e => Err e
  | Ok pqSignature =>
      Ok {| hs_Ed25519 := ed25519_Sign (edPrivate s) digest; hs_MLDSA65 := pqSignature |}
  end.

Definition Verify (identity : NodePublicIdentity) (domain : string) (message : bytes)
    (signature : HybridSignature) : bool :=
  if negb (ValidPublicIdentity identity) ||
     negb (blen (hs_Ed25519 signature) =? ed25519_SignatureSize) ||
     negb (blen (hs_MLDSA65 signature) =? mldsa65_SignatureSize)
  then false
  else match mldsa65_UnmarshalPublic (ni_MLDSA65Public identity) with
       | Err _ => false
       | Ok pqPublic =>
           let digest := domainMessage domain message in
           let edOK := ed25519_Verify (ni_Ed25519Public identity) digest (hs_Ed25519 signature) in
           let pqOK := mldsa65_Verify pqPublic digest (str_bytes signatureContext)
                         (hs_MLDSA65 signature) in
           edOK && pqOK
       end.

End Signatures.

#[global] Arguments NodeID : simpl never.
#[global] Arguments domainMessage : simpl never.

Definition DeleteTokenHash (token : bytes) : bytes := Sha256.Sum256 token.

Definition DeleteTokenMatches (expectedHash token : bytes) : bool :=
  let actual := DeleteTokenHash token in
  (blen expectedHash =? blen actual) && bytes_equal expectedHash actual.

(** * Identities *)

Section IdentityFacts.
Context `{C : Crypto}.

Lemma ValidPublicIdentity_true (p : NodePublicIdentity) :
  ValidPublicIdentity p = true ↔
  ni_ProtocolVersion p = ProtocolVersion ∧
  blen (ni_Ed25519Public p) = ed25519_PublicKeySize ∧
  blen (ni_MLDSA65Public p) = mldsa65_PublicKeySize ∧
  ni_NodeID p = NodeID p ∧
  is_ok (mldsa65_UnmarshalPublic (ni_MLDSA65Public p)) = true.
Proof.
  unfold ValidPublicIdentity. split.
  - intros H. repeat step_if H. unbool. auto.
  - intros (-> & -> & -> & -> & ->). rewrite bool_decide_eq_true_2 by done. done.
Qed.

(** The keys of a valid identity, concatenated, determine both. *)
Lemma valid_keys_split (p q : NodePublicIdentity) (r s : bytes) :
  ValidPublicIdentity p = true → ValidPublicIdentity q = true →
  ni_Ed25519Public p ++ ni_MLDSA65Public p ++ r = ni_Ed25519Public q ++ ni_MLDSA65Public q ++ s →
  p = q ∧ r = s.
Proof.
  rewrite !ValidPublicIdentity_true. intros (Hv & He & Hm & Hn & _) (Hv' & He' & Hm' & Hn' & _) H.
  apply app_inj_1 in H as [H1 H]; [|unfold blen in *; lia].
  apply app_inj_1 in H as [H2 H]; [|unfold blen in *; lia].
  split; [|done]. unfold NodeID in *. destruct p, q; simpl in *. congruence.
Qed.

Definition node_id_preimage (p : NodePublicIdentity) : bytes :=
  str_bytes "enig/node-id/v1" ++ ni_Ed25519Public p ++ ni_MLDSA65Public p.

(** A node identifier is self-certifying: two valid public identities with the
    same NodeID are the same identity, keys included, unless their key material
    is a SHA-256 collision. The two keys are hashed without a separator; the
    fixed key sizes that ValidPublicIdentity enforces make that unambiguous. *)
Theorem NodeID_self_certifying (p q : NodePublicIdentity) :
  ValidPublicIdentity p = true → ValidPublicIdentity q = true →
  ni_NodeID p = ni_NodeID q →
  p = q ∨ Sha256.collides (node_id_preimage p) (node_id_preimage q).
Proof.
  intros Hp Hq Hid. pose proof Hp as (_ & _ & _ & Hnp & _)%ValidPublicIdentity_true.
  pose proof Hq as (_ & _ & _ & Hnq & _)%ValidPublicIdentity_true.
  rewrite Hnp, Hnq in Hid. apply (inj Hex.EncodeToString), Sha256.Sum256_inj in Hid as [H|H]; [|by right].
  left. apply app_inv_head in H.
  apply (valid_keys_split p q [] []); [done..|]. by rewrite !app_nil_r.
Qed.

Lemma PublicIdentity_valid `{!CryptoLaws C} (s : HybridSigner) :
  blen (edPrivate s) = ed25519_PrivateKeySize → ValidPublicIdentity (PublicIdentity s) = true.
Proof.
  intros H. apply ValidPublicIdentity_true. cbn [PublicIdentity ni_ProtocolVersion ni_Ed25519Public
    ni_MLDSA65Public ni_NodeID].
  split_and!; [done|by apply ed_public_size|by apply ml_public_size|done|by rewrite ml_public_codec].
Qed.

Lemma generated_size `{!KeyGen C} (edCoins pqCoins : bytes) (s : HybridSigner) :
  GenerateHybridSigner edCoins pqCoins = Ok s → blen (edPrivate s) = ed25519_PrivateKeySize.
Proof.
  unfold GenerateHybridSigner. destruct (ed25519_GenerateKey edCoins) as [k|] eqn:Hk; [|done].
  destruct (mldsa65_GenerateKey pqCoins) as [q|]; [|done]. intros <-%(inj Ok). by apply ed_generated_size in Hk.
Qed.

(** * Signatures *)

Lemma sign_verifies `{!CryptoLaws C} (material : PrivateSigningMaterial) (s : HybridSigner)
    (coins : bytes) (domain : string) (message : bytes) (sig : HybridSignature) :
  NewHybridSigner material = Ok s → Sign s coins domain message = Ok sig →
  Verify (PublicIdentity s) domain message sig = true.
Proof.
  unfold NewHybridSigner, Sign. destruct (negb _) eqn:E; [done|]. unbool.
  destruct (mldsa65_UnmarshalPrivate _) as [k|]; [|done]. intros <-%(inj Ok). cbn [pqPrivate edPrivate].
  destruct (mldsa65_SignTo _ _ _ _) as [pq|] eqn:Es; [|done]. intros <-%(inj Ok).
  unfold Verify. rewrite PublicIdentity_valid by done. cbn [hs_Ed25519 hs_MLDSA65].
  rewrite ed_sign_size, (ml_sign_size _ _ _ _ _ Es), !Z.eqb_refl by done.
  cbn [negb orb PublicIdentity ni_MLDSA65Public ni_Ed25519Public pqPrivate edPrivate].
  rewrite ml_public_codec, ed_correct by done. exact (ml_correct _ _ _ _ _ Es).
Qed.

Lemma restore_signer `{!CryptoLaws C} (s : HybridSigner) :
  blen (edPrivate s) = ed25519_PrivateKeySize → NewHybridSigner (PrivateMaterial s) = Ok s.
Proof.
  intros Hs. unfold NewHybridSigner, PrivateMaterial. cbn [psm_Ed25519Private psm_MLDSA65Private].
  rewrite Hs, ml_private_codec. by destruct s.
Qed.

(** A signer survives export: restoring a signer from its exported private
    material gives the signer back, with a valid public identity, and what the
    restored signer signs verifies under that identity for the same domain and
    message. *)
Theorem signer_roundtrip `{!CryptoLaws C} (s : HybridSigner) :
  blen (edPrivate s) = ed25519_PrivateKeySize →
  NewHybridSigner (PrivateMaterial s) = Ok s ∧ ValidPublicIdentity (PublicIdentity s) = true ∧
  ∀ coins domain message sig,
    Sign s coins domain message = Ok sig → Verify (PublicIdentity s) domain message sig = true.
Proof.
  intros Hs. pose proof (restore_signer s Hs).
  split_and!; [done|by apply PublicIdentity_valid|]. intros. by eapply sign_verifies.
Qed.

(** Verification is genuinely hybrid: an accepted signature has passed both
    schemes over the same domain-separated digest, under a well-formed identity
    whose NodeID matches its keys. Neither scheme alone suffices. *)
Lemma Verify_both (p : NodePublicIdentity) (domain : string) (message : bytes)
    (sig : HybridSignature) :
  Verify p domain message sig = true ↔
  ValidPublicIdentity p = true ∧
  blen (hs_Ed25519 sig) = ed25519_SignatureSize ∧ blen (hs_MLDSA65 sig) = mldsa65_SignatureSize ∧
  ed25519_Verify (ni_Ed25519Public p) (domainMessage domain message) (hs_Ed25519 sig) = true ∧
  ∃ k, mldsa65_UnmarshalPublic (ni_MLDSA65Public p) = Ok k ∧
       mldsa65_Verify k (domainMessage domain message) (str_bytes signatureContext)
         (hs_MLDSA65 sig) = true.
Proof.
  unfold Verify. split.
  - intros H. step_if H. unbool. destruct (mldsa65_UnmarshalPublic _) as [k|]; [|done].
    apply andb_true_iff in H as [? ?]. eauto 10.
  - intros (-> & -> & -> & He & k & -> & Hm). cbn [negb orb]. rewrite !Z.eqb_refl. cbn [negb orb].
    by rewrite He, Hm.
Qed.

Lemma Verify_valid (p : NodePublicIdentity) (domain : string) (message : bytes)
    (sig : HybridSignature) :
  Verify p domain message sig = true → ValidPublicIdentity p = true.
Proof. unfold Verify. destruct (ValidPublicIdentity p); [done|]. by simpl. Qed.

End IdentityFacts.

(** * Domain separation *)

(** A domain label without a zero byte, as every label of the program is. *)
Definition nul_free (s : string) : bool := forallb (λ b, negb (bool_decide (b = x00))) (str_bytes s).

Lemma nul_terminated_inj (d d' m m' : bytes) :
  forallb (λ b, negb (bool_decide (b = x00))) d = true →
  forallb (λ b, negb (bool_decide (b = x00))) d' = true →
  d ++ x00 :: m = d' ++ x00 :: m' → d = d' ∧ m = m'.
Proof.
  revert d'. induction d as [|b d IH]; intros [|b' d'] Hd Hd' H; simpl in *.
  - by simplify_eq.
  - by simplify_eq.
  - by simplify_eq.
  - apply andb_true_iff in Hd as [_ Hd], Hd' as [_ Hd']. simplify_eq.
    by destruct (IH d' Hd Hd' ltac:(done)) as [-> ->].
Qed.

(** Signatures are domain separated: for labels without a zero byte, one digest
    is signed for one label and one message only (or the two hash inputs are a
    SHA-256 collision), so a signature never carries over to another protocol
    message or another message type. *)
Theorem domainMessage_separates (d d' : string) (m m' : bytes) :
  nul_free d = true → nul_free d' = true → domainMessage d m = domainMessage d' m' →
  (d = d' ∧ m = m') ∨ Sha256.collides (domainPreimage d m) (domainPreimage d' m').
Proof.
  intros Hd Hd' [H|H]%Sha256.Sum256_inj; [left|by right].
  unfold domainPreimage in H. apply app_inv_head, app_inv_head in H.
  apply nul_terminated_inj in H as [? ?]; [|done..]. split; [by apply (inj str_bytes)|done].
Qed.

(** The delete capability: DeleteTokenMatches accepts the token whose hash the
    item carries, and any other token it accepts is a SHA-256 collision with it. *)
Theorem DeleteTokenMatches_iff (token other : bytes) :
  DeleteTokenMatches (DeleteTokenHash token) other = true ↔
  token = other ∨ Sha256.collides token other.
Proof.
  unfold DeleteTokenMatches, DeleteTokenHash. rewrite !Sha256.Sum256_blen, Z.eqb_refl. simpl.
  rewrite bytes_equal_true. split; [apply Sha256.Sum256_inj|]. by intros [->|[_ ?]].
Qed.

(** * A concrete instance *)

(** A toy scheme that satisfies the laws (and has no security), so that the
    theorems above can be run on concrete inputs. As in Go, an Ed25519 private
    key ends with its public key. *)
Module Toy.

Definition fit (n : nat) (l : bytes) : bytes := take n (l ++ replicate n x00).

Definition tag (key m ctx : bytes) : bytes :=
  fit 3309 (Sha256.Sum256 (take 16 key ++ ctx ++ m)).

(** Keys of 1952 bytes, by construction. *)
Record key := { key_bytes : bytes; key_size : bool_decide (length key_bytes = 1952%nat) = true }.

Lemma key_eq (k k' : key) : key_bytes k = key_bytes k' → k = k'.
Proof.
  destruct k as [b Hb], k' as [b' Hb']. simpl. intros ->. f_equal. apply (proof_irrel Hb Hb').
Qed.

Definition unmarshal (l : bytes) : Result key :=
  match decide (bool_decide (length l = 1952%nat) = true) with
  | left H => Ok {| key_bytes := l; key_size := H |}
  | right _ => Err "bad key"
  end.

Lemma unmarshal_bytes (k : key) : unmarshal (key_bytes k) = Ok k.
Proof.
  unfold unmarshal. destruct (decide _) as [H|H].
  - f_equal. by apply key_eq.
  - by destruct H, k.
Qed.

#[export] Instance crypto : Crypto := {|
  ed25519_Public k := drop 32 k;
  ed25519_Sign k m := drop 32 k ++ Sha256.Sum256 m;
  ed25519_Verify p m s := bytes_equal s (p ++ Sha256.Sum256 m);
  MLPrivateKey := key;
  MLPublicKey := key;
  mldsa65_UnmarshalPrivate := unmarshal;
  mldsa65_PrivateBytes := key_bytes;
  mldsa65_Public k := k;
  mldsa65_UnmarshalPublic := unmarshal;
  mldsa65_PublicBytes := key_bytes;
  mldsa65_SignTo k m c coins := Ok (tag (key_bytes k) m c);
  mldsa65_Verify k m c s := bytes_equal s (tag (key_bytes k) m c);
|}.

#[export] Instance laws : CryptoLaws crypto.
Proof.
  constructor; simpl; intros; unfold ed25519_PrivateKeySize, ed25519_PublicKeySize,
    ed25519_SignatureSize, mldsa65_PublicKeySize, mldsa65_SignatureSize in *.
  - unfold blen in *. rewrite length_drop. lia.
  - unfold blen in *. rewrite length_app, length_drop, Sha256.Sum256_length. lia.
  - by apply bytes_equal_true.
  - destruct k as [b Hb]. simpl. apply bool_decide_eq_true in Hb. unfold blen. by rewrite Hb.
  - apply unmarshal_bytes.
  - apply unmarshal_bytes.
  - apply (inj Ok) in H. rewrite <- H. unfold tag, fit, blen.
    rewrite length_take, length_app, Sha256.Sum256_length, length_replicate. lia.
  - apply (inj Ok) in H. rewrite <- H. by apply bytes_equal_true.
Qed.

#[export] Program Instance keygen : KeyGen crypto := {|
  ed25519_GenerateKey coins := Ok (fit 64 coins);
  mldsa65_GenerateKey coins := unmarshal (fit 1952 coins);
|}.
Next Obligation.
  intros coins k <-%(inj Ok). unfold fit, blen. rewrite length_take, length_app, length_replicate.
  unfold ed25519_PrivateKeySize. lia.
Qed.

(** A signer per seed byte. *)
Definition material (b : byte) : PrivateSigningMaterial :=
  {| psm_Ed25519Private := replicate 64 b; psm_MLDSA65Private := replicate 1952 b |}.

Definition signer (b : byte) : HybridSigner :=
  {| edPrivate := replicate 64 b;
     pqPrivate := {| key_bytes := replicate 1952 b;
                     key_size := bool_decide_eq_true_2 _ (length_replicate 1952 b) |} |}.

Lemma NewHybridSigner_material (b : byte) : NewHybridSigner (material b) = Ok (signer b).
Proof.
  unfold NewHybridSigner, material. cbn [psm_Ed25519Private psm_MLDSA65Private].
  unfold blen. rewrite length_replicate. cbn [negb Z.of_nat].
  change (mldsa65_UnmarshalPrivate (replicate 1952 b))
    with (unmarshal (key_bytes (pqPrivate (signer b)))).
  rewrite unmarshal_bytes. reflexivity.
Qed.

Definition identity (b : byte) : NodePublicIdentity := PublicIdentity (signer b).

Definition sign (b : byte) (domain : string) (m : bytes) : HybridSignature :=
  match Sign (signer b) [] domain m with Ok s => s | Err _ => zeroSignature end.

Lemma identity_valid (b : byte) : ValidPublicIdentity (identity b) = true.
Proof. exact (PublicIdentity_valid (signer b) eq_refl). Qed.

End Toy.

#[local] Existing Instances Toy.crypto Toy.laws.

Lemma NodeID_self_certifying_witness :
  Toy.identity x01 = PublicIdentity (Toy.signer x01) ∨
  Sha256.collides (node_id_preimage (Toy.identity x01)) (node_id_preimage (Toy.identity x01)).
Proof.
  apply (NodeID_self_certifying (Toy.identity x01) (Toy.identity x01));
    [apply Toy.identity_valid..|reflexivity].
Defined.

Lemma signer_roundtrip_witness :
  ∃ sig, Sign (Toy.signer x01) [] "storage-receipt" (str_bytes "m") = Ok sig ∧
         Verify (Toy.identity x01) "storage-receipt" (str_bytes "m") sig = true.
Proof.
  destruct (signer_roundtrip (Toy.signer x01) eq_refl) as (_ & _ & Hv).
  eexists. split; [reflexivity|]. apply (Hv []). reflexivity.
Defined.

Lemma domainMessage_separates_witness :
  ("storage-receipt" = "storage-receipt" ∧ [x01] = [x01]) ∨
  Sha256.collides (domainPreimage "storage-receipt" [x01]) (domainPreimage "storage-receipt" [x01]).
Proof. apply (domainMessage_separates "storage-receipt" "storage-receipt" [x01] [x01]); reflexivity. Defined.
