(* ===== verification/Identity.v ===== *)
(** Self-certifying account, device and group identifiers
    (src/identity/id.go): a kind prefix followed by the unpadded base32 text of
    a SHA-256 digest of the keys and, for groups, of the genesis data. *)
From S2P Require Import Prelude Sha256 Encoding Protocol Crypto.
Local Open Scope Z_scope.

Module Identity.

Definition AccountPrefix : string := "ENIGC1".
Definition DevicePrefix : string := "ENIGD1".
Definition GroupPrefix : string := "ENIGG1".
Definition GenesisNonceBytes : Z := 32.
Definition digestTextBytes : Z := 52.

Section Operations.
Context `{C : Crypto}.

(** The bytes [keyDigest] hashes. *)
Definition keyPreimage (domain : string) (public : NodePublicIdentity) (extra : bytes) : bytes :=
  str_bytes "enig/id/v1" ++ [x00] ++ str_bytes domain ++ [x00; z2b (ni_ProtocolVersion public)] ++
  ni_Ed25519Public public ++ ni_MLDSA65Public public ++ extra.

Definition keyDigest (domain : string) (public : NodePublicIdentity) (extra : bytes) : string :=
  Base32.EncodeToString (Sha256.Sum256 (keyPreimage domain public extra)).

Definition AccountID (public : NodePublicIdentity) : string :=
  if negb (ValidPublicIdentity public) then ""
  else (AccountPrefix +:+ keyDigest "account" public [])%string.

Definition DeviceID (public : NodePublicIdentity) : string :=
  if negb (ValidPublicIdentity public) then ""
  else (DevicePrefix +:+ keyDigest "device" public [])%string.

Definition GroupID (creator : NodePublicIdentity) (genesisNonce genesisContext : bytes) : string :=
  if negb (ValidPublicIdentity creator) || negb (blen genesisNonce =? GenesisNonceBytes) ||
     (blen genesisContext =? 0) || (1024 <? blen genesisContext)
  then ""
  else (GroupPrefix +:+ keyDigest "group" creator (genesisNonce ++ genesisContext))%string.

End Operations.

(** [strings.HasPrefix]. *)
Definition HasPrefix (s prefix : string) : bool := String.prefix prefix s.

Definition valid (id prefix : string) : bool :=
  if negb (slen id =? slen prefix + digestTextBytes) || negb (HasPrefix id prefix) then false
  else
    let text := String.substring (String.length prefix) (String.length id - String.length prefix) id in
    match Base32.DecodeString text with
    | Some digest => blen digest =? Sha256.Size
    | None => false
    end.

Definition ValidAccountID (id : string) : bool := valid id AccountPrefix.
Definition ValidDeviceID (id : string) : bool := valid id DevicePrefix.
Definition ValidGroupID (id : string) : bool := valid id GroupPrefix.
Definition ValidRecipientID (id : string) : bool := ValidAccountID id || ValidGroupID id.

#[global] Arguments keyDigest : simpl never.

(** * Facts *)

Lemma keyDigest_slen `{C : Crypto} (d : string) (p : NodePublicIdentity) (e : bytes) :
  slen (keyDigest d p e) = digestTextBytes.
Proof. unfold keyDigest. by rewrite Base32_encode_length, Sha256.Sum256_blen. Qed.

Lemma valid_digest (prefix : string) (h : bytes) :
  blen h = Sha256.Size → valid (prefix +:+ Base32.EncodeToString h) prefix = true.
Proof.
  intros Hh. unfold valid, HasPrefix. rewrite slen_app, prefix_app.
  rewrite Base32_encode_length, Hh. change ((Sha256.Size * 8 + 4) / 5) with digestTextBytes.
  rewrite Z.eqb_refl. cbn [negb orb]. rewrite substring_app, Base32_decode_encode, Hh. done.
Qed.

Lemma valid_prefix (id prefix : string) : valid id prefix = true → String.prefix prefix id = true.
Proof. unfold valid, HasPrefix. destruct (String.prefix prefix id); [done|]. by rewrite orb_true_r. Qed.

Lemma valid_exclusive (id p q : string) :
  String.length p = String.length q → p ≠ q → valid id p = true → valid id q = false.
Proof.
  intros Hl Hne Hp%valid_prefix. destruct (valid id q) eqn:Hq; [|done].
  apply valid_prefix in Hq. by destruct Hne; apply (prefix_unique p q id).
Qed.

Section Theorems.
Context `{C : Crypto}.

Lemma GroupID_valid (p : NodePublicIdentity) (nonce context : bytes) :
  ValidPublicIdentity p = true → blen nonce = GenesisNonceBytes → 0 < blen context ≤ 1024 →
  ValidGroupID (GroupID p nonce context) = true.
Proof.
  intros Hp Hn Hc. unfold GroupID. rewrite Hp, Hn, Z.eqb_refl. cbn [negb orb].
  rewrite (proj2 (Z.eqb_neq _ _)), (proj2 (Z.ltb_ge _ _)) by lia. cbn [orb].
  apply valid_digest, Sha256.Sum256_blen.
Qed.

Lemma AccountID_valid (p : NodePublicIdentity) :
  ValidPublicIdentity p = true → ValidAccountID (AccountID p) = true.
Proof. intros Hp. unfold AccountID. rewrite Hp. apply valid_digest, Sha256.Sum256_blen. Qed.

Lemma DeviceID_valid (p : NodePublicIdentity) :
  ValidPublicIdentity p = true → ValidDeviceID (DeviceID p) = true ∧ slen (DeviceID p) = 58.
Proof.
  intros Hp. unfold DeviceID. rewrite Hp. split; [apply valid_digest, Sha256.Sum256_blen|].
  cbn [negb]. by rewrite slen_app, keyDigest_slen.
Qed.

Lemma valid_nonempty (id prefix : string) : valid id prefix = true → id ≠ ""%string.
Proof.
  unfold valid. intros H ->. destruct (negb (slen "" =? _)) eqn:E; [done|]. unbool.
  unfold slen, digestTextBytes in *. simpl in *. lia.
Qed.

(** Identifier kinds never mix: every identifier the three constructors return
    for a valid identity passes the validity test of its own kind and of no
    other kind, so a device identifier is never a recipient. *)
Theorem identifiers_well_formed (p : NodePublicIdentity) (nonce context : bytes) :
  ValidPublicIdentity p = true → blen nonce = GenesisNonceBytes → 0 < blen context ≤ 1024 →
  ValidAccountID (AccountID p) = true ∧ ValidDeviceID (DeviceID p) = true ∧
  ValidGroupID (GroupID p nonce context) = true ∧
  ValidRecipientID (DeviceID p) = false ∧ ValidDeviceID (AccountID p) = false ∧
  ValidDeviceID (GroupID p nonce context) = false ∧ ValidGroupID (AccountID p) = false.
Proof.
  intros Hp Hn Hc. unfold AccountID, DeviceID, GroupID. rewrite Hp, Hn, Z.eqb_refl. cbn [negb orb].
  rewrite (proj2 (Z.eqb_neq _ _)), (proj2 (Z.ltb_ge _ _)) by lia. cbn [orb].
  pose proof (λ pre d e, valid_digest pre (Sha256.Sum256 (keyPreimage d p e))
    (Sha256.Sum256_blen _)) as Hv.
  unfold ValidRecipientID, ValidAccountID, ValidDeviceID, ValidGroupID, keyDigest.
  split_and!; try apply Hv.
  - by rewrite !(valid_exclusive _ DevicePrefix) by (done || apply Hv).
  - by rewrite (valid_exclusive _ AccountPrefix) by (done || apply Hv).
  - by rewrite (valid_exclusive _ GroupPrefix) by (done || apply Hv).
  - by rewrite (valid_exclusive _ AccountPrefix) by (done || apply Hv).
Qed.

Lemma keyDigest_inj (d : string) (p q : NodePublicIdentity) (e f : bytes) :
  ValidPublicIdentity p = true → ValidPublicIdentity q = true →
  keyDigest d p e = keyDigest d q f →
  (p = q ∧ e = f) ∨ Sha256.collides (keyPreimage d p e) (keyPreimage d q f).
Proof.
  intros Hp Hq H. apply (inj Base32.EncodeToString), Sha256.Sum256_inj in H as [H|H]; [|by right].
  left. unfold keyPreimage in H. do 3 apply app_inv_head in H. apply (inj2 cons) in H as [_ H].
  apply (inj2 cons) in H as [_ H]. by apply valid_keys_split in H.
Qed.

(** Account identifiers are self-certifying: only the identity itself produces
    its account identifier, or its key material collides under SHA-256. *)
Lemma AccountID_self_certifying (p q : NodePublicIdentity) :
  ValidPublicIdentity p = true → ValidPublicIdentity q = true → AccountID p = AccountID q →
  p = q ∨ Sha256.collides (keyPreimage "account" p []) (keyPreimage "account" q []).
Proof.
  intros Hp Hq. unfold AccountID. rewrite Hp, Hq. cbn [negb].
  intros H%append_inj. apply keyDigest_inj in H as [[? _]|?]; auto.
Qed.

(** A group identifier determines its creator, its genesis nonce and its genesis
    policy commitment, unless two genesis hash inputs collide: the policy of a
    group cannot be changed under its address. *)
Theorem GroupID_binds_genesis (p q : NodePublicIdentity) (n n' c c' : bytes) :
  GroupID p n c ≠ ""%string → GroupID p n c = GroupID q n' c' →
  (p = q ∧ n = n' ∧ c = c') ∨
  Sha256.collides (keyPreimage "group" p (n ++ c)) (keyPreimage "group" q (n' ++ c')).
Proof.
  unfold GroupID. intros Hne H.
  destruct (negb _ || _ || _ || _)%bool eqn:E; [done|].
  destruct (negb (ValidPublicIdentity q) || _ || _ || _)%bool eqn:E'; [done|]. unbool.
  apply append_inj, keyDigest_inj in H as [[-> Hx]|?]; [|by right|done|done].
  apply app_inj_1 in Hx as [-> ->]; [auto|unfold blen in *; lia].
Qed.

End Theorems.

(** * Witnesses *)

#[local] Existing Instances Toy.crypto Toy.laws.

Lemma identifiers_well_formed_witness :
  ValidGroupID (GroupID (Toy.identity x01) (replicate 32 x02) [x03]) = true.
Proof.
  destruct (identifiers_well_formed (Toy.identity x01) (replicate 32 x02) [x03])
    as (_ & _ & H & _); [apply Toy.identity_valid|reflexivity|vm_compute; split; congruence|exact H].
Defined.

Lemma AccountID_self_certifying_witness :
  Toy.identity x01 = PublicIdentity (Toy.signer x01) ∨
  Sha256.collides (keyPreimage "account" (Toy.identity x01) [])
    (keyPreimage "account" (PublicIdentity (Toy.signer x01)) []).
Proof.
  apply (AccountID_self_certifying (Toy.identity x01) (PublicIdentity (Toy.signer x01)));
    [apply Toy.identity_valid..|reflexivity].
Defined.

Lemma GroupID_binds_genesis_witness :
  (Toy.identity x01 = Toy.identity x01 ∧ replicate 32 x02 = replicate 32 x02 ∧ [x03] = [x03]) ∨
  Sha256.collides (keyPreimage "group" (Toy.identity x01) (replicate 32 x02 ++ [x03]))
    (keyPreimage "group" (Toy.identity x01) (replicate 32 x02 ++ [x03])).
Proof.
  apply (GroupID_binds_genesis (Toy.identity x01) (Toy.identity x01) (replicate 32 x02)
    (replicate 32 x02) [x03] [x03]); [vm_compute; discriminate|reflexivity].
Defined.

End Identity.
