(* ===== verification/Group.v ===== *)
(** Signed group administration (src/group/state.go): the membership state, the
    hash chain of administrative actions and [Apply], the only operation that
    changes the state. A [*State] updated in place is modelled by returning the
    state that the call leaves behind together with its error. *)
From S2P Require Import Prelude Sha256 Encoding Protocol Crypto Identity.
Local Open Scope Z_scope.

Module Group.

(** * Data *)

(** [Role] and [ActionKind] are strings in the code: any string can arrive. *)
Abbreviation Role := string (only parsing).
Definition RoleOwner : Role := "owner".
Definition RoleAdmin : Role := "admin".
Definition RoleMember : Role := "member".
Definition RoleBanned : Role := "banned".

Abbreviation ActionKind := string (only parsing).
Definition ActionAdd : ActionKind := "add".
Definition ActionRemove : ActionKind := "remove".
Definition ActionBan : ActionKind := "ban".
Definition ActionGrantAdmin : ActionKind := "grant_admin".
Definition ActionRevokeAdmin : ActionKind := "revoke_admin".
Definition ActionTransferOwner : ActionKind := "transfer_owner".

Record Policy := { AdminsMayDelegate : bool }.

Record Member := { m_Identity : NodePublicIdentity; m_Role : Role }.

Record Action := {
  a_GroupID : string;
  a_Epoch : Z;  (* uint64 *)
  a_Previous : bytes;
  a_Kind : ActionKind;
  a_ActorID : string;
  a_Subject : NodePublicIdentity;
  a_CreatedAt : Time;
  a_Signature : HybridSignature;
}.

Record State := {
  s_GroupID : string;
  s_Creator : NodePublicIdentity;
  s_GenesisNonce : bytes;
  s_Epoch : Z;  (* uint64 *)
  s_Policy : Policy;
  s_Members : gmap string Member;
  s_Hash : bytes;
}.

Definition MaxGroupMembers : Z := 1000.

(** * Operations *)

(** [difference |= left[index] ^ right[index]] over two slices of one length. *)
Fixpoint difference (lhs rhs : bytes) (acc : Z) : Z :=
  match lhs, rhs with
  | l :: lhs, r :: rhs => difference lhs rhs (Z.lor acc (Z.lxor (b2z l) (b2z r)))
  | _, _ => acc
  end.

Definition bytesEqual (lhs rhs : bytes) : bool :=
  if negb (blen lhs =? blen rhs) then false else difference lhs rhs 0 =? 0.

Definition policyCommitment (policy : Policy) : bytes :=
  if AdminsMayDelegate policy then [x01] else [x00].

Definition role_is (m : Member) (r : Role) : bool := bool_decide (m_Role m = r).

Definition set_Role (m : Member) (r : Role) : Member := {| m_Identity := m_Identity m; m_Role := r |}.

Section Operations.
Context `{C : Crypto} `{!MapOrder} `{!Marshaler Action} `{!Marshaler State}.

(** The state with its [Hash] field cleared, as JSON; a marshalling error is
    ignored by the code and leaves no bytes. *)
Definition stateEncoding (state : State) : bytes :=
  match Marshal {| s_GroupID := s_GroupID state; s_Creator := s_Creator state;
                   s_GenesisNonce := s_GenesisNonce state; s_Epoch := s_Epoch state;
                   s_Policy := s_Policy state; s_Members := s_Members state; s_Hash := [] |} with
  | Ok encoded => encoded
  | Err _ => []
  end.

Definition stateHash (state : State) : bytes := Sha256.Sum256 (stateEncoding state).

(** [rand n] is the outcome of [rand.Read] into a buffer of [n] bytes. *)
Definition New (rand : Z → Result bytes) (owner : NodePublicIdentity) (policy : Policy) : Result State :=
  if negb (ValidPublicIdentity owner) then Err "invalid owner identity"
  else match rand Identity.GenesisNonceBytes with
       | Err e => Err e
       | Ok random =>
           let state hash :=
             {| s_GroupID := Identity.GroupID owner random (policyCommitment policy);
                s_Creator := owner; s_GenesisNonce := random; s_Epoch := 0; s_Policy := policy;
                s_Members := {[ ni_NodeID owner := {| m_Identity := owner; m_Role := RoleOwner |} ]};
                s_Hash := hash |} in
           Ok (state (stateHash (state [])))
       end.

Definition set_Signature (a : Action) (sig : HybridSignature) : Action :=
  {| a_GroupID := a_GroupID a; a_Epoch := a_Epoch a; a_Previous := a_Previous a;
     a_Kind := a_Kind a; a_ActorID := a_ActorID a; a_Subject := a_Subject a;
     a_CreatedAt := a_CreatedAt a; a_Signature := sig |}.

Definition set_ActorID (a : Action) (id : string) : Action :=
  {| a_GroupID := a_GroupID a; a_Epoch := a_Epoch a; a_Previous := a_Previous a;
     a_Kind := a_Kind a; a_ActorID := id; a_Subject := a_Subject a;
     a_CreatedAt := a_CreatedAt a; a_Signature := a_Signature a |}.

Definition actionBytes (action : Action) : Result bytes :=
  Marshal (set_Signature action zeroSignature).

Definition actionDomain : string := "group-admin-action".

Definition SignAction (signer : option HybridSigner) (coins : bytes) (action : Action) : Result Action :=
  match signer with
  | None => Err "group action signer is required"
  | Some signer =>
      let action := set_ActorID action (ni_NodeID (PublicIdentity signer)) in
      match actionBytes action with
      | Err e => Err e
      | Ok message =>
          match Sign signer coins actionDomain message with
          | Err e => Err e
          | Ok signature => Ok (set_Signature action signature)
          end
      end
  end.

(** The loop over the members: [None] is the early [return false]. *)
Fixpoint countOwners (members : list (string * Member)) (owners : Z) : option Z :=
  match members with
  | [] => Some owners
  | (memberID, member) :: members =>
      if negb (bool_decide (memberID = ni_NodeID (m_Identity member))) ||
         negb (ValidPublicIdentity (m_Identity member)) then None
      else if role_is member RoleOwner then countOwners members (owners + 1)
      else if role_is member RoleAdmin || role_is member RoleMember || role_is member RoleBanned
           then countOwners members owners
      else None
  end.

Definition validState (state : State) : bool :=
  let count := Z.of_nat (size (s_Members state)) in
  if (count =? 0) || (MaxGroupMembers <? count) || negb (blen (s_Hash state) =? Sha256.Size) ||
     negb (bytesEqual (s_Hash state) (stateHash state)) then false
  else if negb (Identity.ValidGroupID (s_GroupID state)) ||
     negb (ValidPublicIdentity (s_Creator state)) ||
     negb (blen (s_GenesisNonce state) =? Identity.GenesisNonceBytes) ||
     negb (bool_decide (s_GroupID state = Identity.GroupID (s_Creator state) (s_GenesisNonce state)
             (policyCommitment (s_Policy state)))) then false
  else if (s_Epoch state =? 0) &&
     match s_Members state !! ni_NodeID (s_Creator state) with
     | None => true
     | Some creator =>
         negb (count =? 1) || negb (role_is creator RoleOwner) ||
         negb (bytesEqual (ni_Ed25519Public (m_Identity creator)) (ni_Ed25519Public (s_Creator state))) ||
         negb (bytesEqual (ni_MLDSA65Public (m_Identity creator)) (ni_MLDSA65Public (s_Creator state)))
     end then false
  else match countOwners (range_map (s_Members state)) 0 with
       | None => false
       | Some owners => owners =? 1
       end.

(** The [switch] of [Apply]: the new member map, or the error of the branch. *)
Definition applyKind (policy : Policy) (members : gmap string Member) (actor : Member)
    (action : Action) : Result (gmap string Member) :=
  let subjectID := ni_NodeID (a_Subject action) in
  let count := Z.of_nat (size members) in
  let kind := a_Kind action in
  if bool_decide (kind = ActionAdd) then
    if MaxGroupMembers <=? count then Err "group member limit reached"
    else if match members !! subjectID with
            | Some existing => negb (role_is existing RoleBanned)
            | None => false
            end then Err "subject is already a member"
    else Ok (<[subjectID := {| m_Identity := a_Subject action; m_Role := RoleMember |}]> members)
  else if bool_decide (kind = ActionRemove) then
    match members !! subjectID with
    | None => Err "remove subject is not a member"
    | Some subject =>
        if role_is subject RoleOwner then Err "owner must transfer ownership before removal"
        else if role_is actor RoleAdmin && role_is subject RoleAdmin
             then Err "admin cannot remove another admin"
        else Ok (delete subjectID members)
    end
  else if bool_decide (kind = ActionBan) then
    let banned := {| m_Identity := a_Subject action; m_Role := RoleBanned |} in
    match members !! subjectID with
    | None =>
        if MaxGroupMembers <=? count then Err "group member limit reached"
        else Ok (<[subjectID := banned]> members)
    | Some subject =>
        if role_is subject RoleOwner then Err "owner cannot be banned"
        else if role_is actor RoleAdmin && role_is subject RoleAdmin
             then Err "admin cannot ban another admin"
        else Ok (<[subjectID := banned]> members)
    end
  else if bool_decide (kind = ActionGrantAdmin) then
    if negb (role_is actor RoleOwner) && negb (AdminsMayDelegate policy)
    then Err "only owner may grant admin under this policy"
    else match members !! subjectID with
         | None => Err "admin subject must be a member"
         | Some member =>
             if negb (role_is member RoleMember) then Err "admin subject must be a member"
             else Ok (<[subjectID := set_Role member RoleAdmin]> members)
         end
  else if bool_decide (kind = ActionRevokeAdmin) then
    if negb (role_is actor RoleOwner) then Err "only owner may revoke admin"
    else match members !! subjectID with
         | None => Err "subject is not an admin"
         | Some member =>
             if negb (role_is member RoleAdmin) then Err "subject is not an admin"
             else Ok (<[subjectID := set_Role member RoleMember]> members)
         end
  else if bool_decide (kind = ActionTransferOwner) then
    if negb (role_is actor RoleOwner) then Err "only owner may transfer ownership"
    else match members !! subjectID with
         | None => Err "new owner must be an active member"
         | Some member =>
             if role_is member RoleBanned then Err "new owner must be an active member"
             else Ok (<[subjectID := set_Role member RoleOwner]>
                      (<[a_ActorID action := set_Role actor RoleAdmin]> members))
         end
  else Err "unknown group action".

Definition Apply (now : Time) (s : State) (action : Action) : State * option error :=
  if negb (validState s) then (s, Some "invalid current group state")
  else if negb (bool_decide (a_GroupID action = s_GroupID s)) || (a_Epoch action =? 0) ||
     negb (a_Epoch action =? u64 (s_Epoch s + 1)) ||
     negb (blen (a_Previous action) =? Sha256.Size) ||
     negb (bytesEqual (a_Previous action) (s_Hash s)) ||
     IsZero (a_CreatedAt action) || After (a_CreatedAt action) (TAdd now (5 * Minute))
  then (s, Some "group action is not the next valid state transition")
  else
    match s_Members s !! a_ActorID action with
    | None => (s, Some "actor is not authorized")
    | Some actor =>
        if negb (role_is actor RoleOwner) && negb (role_is actor RoleAdmin)
        then (s, Some "actor is not authorized")
        else if match actionBytes action with
                | Err _ => true
                | Ok message =>
                    negb (Verify (m_Identity actor) actionDomain message (a_Signature action))
                end
        then (s, Some "invalid group action signature")
        else if negb (ValidPublicIdentity (a_Subject action)) then (s, Some "invalid action subject")
        else match applyKind (s_Policy s) (s_Members s) actor action with
             | Err e => (s, Some e)
             | Ok members =>
                 let next hash :=
                   {| s_GroupID := s_GroupID s; s_Creator := s_Creator s;
                      s_GenesisNonce := s_GenesisNonce s; s_Epoch := a_Epoch action;
                      s_Policy := s_Policy s; s_Members := members; s_Hash := hash |} in
                 (next (stateHash (next (s_Hash s))), None)
             end
    end.

End Operations.

#[global] Arguments stateHash : simpl never.

(** * The comparison *)

Lemma difference_zero (lhs rhs : bytes) (acc : Z) :
  length lhs = length rhs → difference lhs rhs acc = 0 ↔ acc = 0 ∧ lhs = rhs.
Proof.
  revert rhs acc. induction lhs as [|l lhs IH]; intros [|r rhs] acc Hl; simplify_eq/=.
  - tauto.
  - rewrite IH, Z.lor_eq_0_iff, Z.lxor_eq_0_iff by done. split.
    + intros [[-> H] ->]. apply (inj b2z) in H as ->. done.
    + intros [-> H]. simplify_eq. done.
Qed.

Lemma bytesEqual_true (lhs rhs : bytes) : bytesEqual lhs rhs = true ↔ lhs = rhs.
Proof.
  unfold bytesEqual, blen. destruct (negb _) eqn:E; unbool.
  - split; [done|]. by intros ->.
  - rewrite Z.eqb_eq, difference_zero by lia. tauto.
Qed.

(** * The state invariant *)

Lemma role_is_true (m : Member) (r : Role) : role_is m r = true ↔ m_Role m = r.
Proof. unfold role_is. apply bool_decide_eq_true. Qed.

Lemma role_is_false (m : Member) (r : Role) : role_is m r = false ↔ m_Role m ≠ r.
Proof. unfold role_is. apply bool_decide_eq_false. Qed.

Definition known_role (r : Role) : Prop :=
  r = RoleOwner ∨ r = RoleAdmin ∨ r = RoleMember ∨ r = RoleBanned.

Section Invariant.
Context `{C : Crypto} `{!MapOrder} `{!Marshaler Action} `{!Marshaler State}.

Definition member_ok (id : string) (m : Member) : Prop :=
  id = ni_NodeID (m_Identity m) ∧ ValidPublicIdentity (m_Identity m) = true ∧ known_role (m_Role m).

Definition owner_weight (id : string) (m : Member) : Z := if role_is m RoleOwner then 1 else 0.

(** The membership part of a valid state: well-formed entries, one owner. *)
Record members_ok (ms : gmap string Member) : Prop := {
  mo_entries id m : ms !! id = Some m → member_ok id m;
  mo_owner : ∃ id m, ms !! id = Some m ∧ m_Role m = RoleOwner;
  mo_unique id id' m m' : ms !! id = Some m → ms !! id' = Some m' →
    m_Role m = RoleOwner → m_Role m' = RoleOwner → id = id';
}.

Lemma countOwners_Some (l : list (string * Member)) (n o : Z) :
  countOwners l n = Some o ↔
  Forall (λ p, member_ok p.1 p.2) l ∧ o = n + foldr (λ p acc, owner_weight p.1 p.2 + acc) 0 l.
Proof.
  unfold member_ok, known_role, owner_weight. revert n.
  induction l as [|[id m] l IH]; intros n; simpl.
  - rewrite Z.add_0_r. split; [intros [= ->]; auto|by intros [_ ->]].
  - rewrite Forall_cons_iff. simpl. destruct (_ || _)%bool eqn:E.
    { apply orb_true_iff in E. split; [done|]. intros [[(Hid & Hv & _) _] _].
      rewrite Hv, bool_decide_eq_true_2 in E by done. by destruct E. }
    unbool. destruct (role_is m RoleOwner) eqn:Eo.
    { apply role_is_true in Eo. rewrite IH. split; intros [? ->]; (split; [tauto|lia]). }
    apply role_is_false in Eo.
    destruct (role_is m RoleAdmin || _ || _)%bool eqn:Er.
    + rewrite !orb_true_iff, !role_is_true in Er. rewrite IH.
      split; intros [? ->]; (split; [tauto|lia]).
    + unbool. repeat match goal with H : role_is _ _ = false |- _ => apply role_is_false in H end.
      split; [done|]. tauto.
Qed.

Lemma owner_sum_one (ms : gmap string Member) :
  map_sum owner_weight ms = 1 ↔
  (∃ id m, ms !! id = Some m ∧ m_Role m = RoleOwner) ∧
  (∀ id id' m m', ms !! id = Some m → ms !! id' = Some m' →
     m_Role m = RoleOwner → m_Role m' = RoleOwner → id = id').
Proof.
  assert (Hw : ∀ ms : gmap string Member, 0 ≤ map_sum owner_weight ms).
  { intros. apply map_sum_nonneg. intros. unfold owner_weight. by case_match. }
  assert (Hd : ∀ id m, ms !! id = Some m → m_Role m = RoleOwner →
    map_sum owner_weight ms = 1 + map_sum owner_weight (delete id ms)).
  { intros id m Hm Hr. rewrite (map_sum_delete _ ms id m Hm). unfold owner_weight at 3.
    rewrite (proj2 (role_is_true m _)) by done. lia. }
  split.
  - intros H1. split.
    + destruct (decide (map_Exists (λ _ m, m_Role m = RoleOwner) ms)) as [(id & m & ? & ?)|Hn]; [eauto|].
      rewrite map_sum_zero in H1; [done|]. intros id m Hm. unfold owner_weight.
      rewrite (proj2 (role_is_false m _)); [done|]. intros Hr. apply Hn. by exists id, m.
    + intros id id' m m' Hm Hm' Hr Hr'. destruct (decide (id = id')) as [|Hne]; [done|].
      rewrite (Hd id m Hm Hr) in H1.
      assert (Hm2 : delete id ms !! id' = Some m') by by rewrite lookup_delete_ne.
      pose proof (map_sum_delete owner_weight _ id' m' Hm2) as H2. unfold owner_weight at 3 in H2.
      rewrite (proj2 (role_is_true m' _)) in H2 by done.
      pose proof (Hw (delete id' (delete id ms))). lia.
  - intros [(id & m & Hm & Hr) Hu]. rewrite (Hd id m Hm Hr), map_sum_zero; [done|].
    intros id' m' [Hne Hm']%lookup_delete_Some. unfold owner_weight.
    rewrite (proj2 (role_is_false m' _)); [done|]. intros Hr'. by apply Hne, (Hu id id' m m').
Qed.

Lemma members_ok_iff (ms : gmap string Member) :
  countOwners (range_map ms) 0 = Some 1 ↔ members_ok ms.
Proof.
  rewrite countOwners_Some, (map_sum_list owner_weight ms _ (range_map_perm ms)).
  rewrite (map_Forall_list member_ok ms _ (range_map_perm ms)), Z.add_0_l. split.
  - intros [He Ho]. symmetry in Ho. apply owner_sum_one in Ho as [Ho Hu]. by split.
  - intros [He Ho Hu]. split; [exact He|]. symmetry. by apply owner_sum_one.
Qed.

(** What [validState] tests. *)
Record state_ok (s : State) : Prop := {
  so_size : 0 < Z.of_nat (size (s_Members s)) ≤ MaxGroupMembers;
  so_hash : s_Hash s = stateHash s;
  so_creator : ValidPublicIdentity (s_Creator s) = true;
  so_nonce : blen (s_GenesisNonce s) = Identity.GenesisNonceBytes;
  so_group : s_GroupID s = Identity.GroupID (s_Creator s) (s_GenesisNonce s) (policyCommitment (s_Policy s));
  so_id : Identity.ValidGroupID (s_GroupID s) = true;
  so_genesis : s_Epoch s = 0 → Z.of_nat (size (s_Members s)) = 1 ∧
    ∃ m, s_Members s !! ni_NodeID (s_Creator s) = Some m ∧ m_Role m = RoleOwner ∧
      ni_Ed25519Public (m_Identity m) = ni_Ed25519Public (s_Creator s) ∧
      ni_MLDSA65Public (m_Identity m) = ni_MLDSA65Public (s_Creator s);
  so_members : members_ok (s_Members s);
}.

Lemma validState_true (s : State) : validState s = true ↔ state_ok s.
Proof.
  unfold validState. split.
  - intros Hv. repeat step_if Hv. unbool.
    destruct (countOwners _ _) as [o|] eqn:Eo; [|done]. apply Z.eqb_eq in Hv as ->.
    repeat match goal with Hb : bytesEqual _ _ = true |- _ => apply bytesEqual_true in Hb end.
    split; try done; [lia| |by apply members_ok_iff].
    intros E0. rewrite E0 in *. cbn [Z.eqb andb] in *.
    destruct (s_Members s !! _) as [m|]; [|done]. unbool.
    repeat match goal with Hb : bytesEqual _ _ = true |- _ => apply bytesEqual_true in Hb end.
    split; [done|]. exists m. by rewrite <- role_is_true.
  - intros [Hs Hh Hc Hn Hg Hi Hge Hm]. unfold stateHash in *.
    rewrite (proj2 (Z.eqb_neq _ 0)), (proj2 (Z.ltb_ge _ _)) by lia.
    rewrite (proj2 (bytesEqual_true _ _) Hh), Hh, Sha256.Sum256_blen, Hc, Hn, Hi.
    rewrite bool_decide_eq_true_2, !Z.eqb_refl by done. cbn [negb orb].
    rewrite (proj2 (members_ok_iff _) Hm). destruct (s_Epoch s =? 0) eqn:E0; [|done]. unbool.
    destruct (Hge E0) as (-> & m & -> & Hr & He & Hq).
    by rewrite (proj2 (role_is_true _ _) Hr), !(proj2 (bytesEqual_true _ _)) by done.
Qed.

(** * The transition rules *)

(** The administration rules of a group, one constructor per action kind:
    which membership changes an actor may make under a policy. *)
Inductive change (policy : Policy) (ms : gmap string Member) (actorID : string) (actor : Member)
    (subject : NodePublicIdentity) : ActionKind → gmap string Member → Prop :=
| change_add :
    Z.of_nat (size ms) < MaxGroupMembers →
    (∀ x, ms !! ni_NodeID subject = Some x → m_Role x = RoleBanned) →
    change policy ms actorID actor subject ActionAdd
      (<[ni_NodeID subject := {| m_Identity := subject; m_Role := RoleMember |}]> ms)
| change_remove x :
    ms !! ni_NodeID subject = Some x → m_Role x ≠ RoleOwner →
    (m_Role actor = RoleAdmin → m_Role x ≠ RoleAdmin) →
    change policy ms actorID actor subject ActionRemove (delete (ni_NodeID subject) ms)
| change_ban :
    (ms !! ni_NodeID subject = None → Z.of_nat (size ms) < MaxGroupMembers) →
    (∀ x, ms !! ni_NodeID subject = Some x →
       m_Role x ≠ RoleOwner ∧ (m_Role actor = RoleAdmin → m_Role x ≠ RoleAdmin)) →
    change policy ms actorID actor subject ActionBan
      (<[ni_NodeID subject := {| m_Identity := subject; m_Role := RoleBanned |}]> ms)
| change_grant x :
    m_Role actor = RoleOwner ∨ AdminsMayDelegate policy = true →
    ms !! ni_NodeID subject = Some x → m_Role x = RoleMember →
    change policy ms actorID actor subject ActionGrantAdmin
      (<[ni_NodeID subject := set_Role x RoleAdmin]> ms)
| change_revoke x :
    m_Role actor = RoleOwner →
    ms !! ni_NodeID subject = Some x → m_Role x = RoleAdmin →
    change policy ms actorID actor subject ActionRevokeAdmin
      (<[ni_NodeID subject := set_Role x RoleMember]> ms)
| change_transfer x :
    m_Role actor = RoleOwner →
    ms !! ni_NodeID subject = Some x → m_Role x ≠ RoleBanned →
    change policy ms actorID actor subject ActionTransferOwner
      (<[ni_NodeID subject := set_Role x RoleOwner]> (<[actorID := set_Role actor RoleAdmin]> ms)).

Ltac roles :=
  repeat match goal with
  | Hr : role_is _ _ = true |- _ => apply role_is_true in Hr
  | Hr : role_is _ _ = false |- _ => apply role_is_false in Hr
  | Hr : (_ && _)%bool = false |- _ => apply andb_false_iff in Hr
  end.

Lemma applyKind_sound (policy : Policy) (ms ms' : gmap string Member) (actor : Member) (a : Action) :
  applyKind policy ms actor a = Ok ms' →
  change policy ms (a_ActorID a) actor (a_Subject a) (a_Kind a) ms'.
Proof.
  unfold applyKind. generalize (a_Kind a) as kind. intros kind Hk.
  destruct (ms !! ni_NodeID (a_Subject a)) as [x|] eqn:Ex;
    repeat step_if Hk; unbool; subst; apply (inj Ok) in Hk as <-; roles.
  all: first
    [ apply change_add | eapply change_remove | apply change_ban | eapply change_grant
    | eapply change_revoke | eapply change_transfer ]; try done; rewrite ?Ex; try done.
  all: try (intros y [= <-]); repeat split; try done; try (intros Ha Hx; rewrite <- role_is_true in Ha, Hx).
  all: try solve [intuition congruence].
  match goal with Hd : _ ∨ _ |- _ => by rewrite !negb_false_iff, role_is_true in Hd end.
Qed.

Lemma applyKind_complete (policy : Policy) (ms ms' : gmap string Member) (actor : Member) (a : Action) :
  change policy ms (a_ActorID a) actor (a_Subject a) (a_Kind a) ms' →
  applyKind policy ms actor a = Ok ms'.
Proof.
  unfold applyKind. generalize (a_Kind a) as kind. intros kind Hc.
  destruct Hc as [Hs Hx|x Hx Ho Ha|Hs Hx|x Hd Hx Hr|x Hd Hx Hr|x Hd Hx Hr];
    repeat (rewrite bool_decide_eq_true_2 by done || rewrite bool_decide_eq_false_2 by done).
  - rewrite (proj2 (Z.leb_gt _ _)) by done. destruct (ms !! _) as [x|]; [|done].
    by rewrite (proj2 (role_is_true _ _) (Hx x eq_refl)).
  - rewrite Hx, (proj2 (role_is_false _ _) Ho). destruct (role_is actor RoleAdmin) eqn:E; [|done].
    apply role_is_true, Ha in E. by rewrite (proj2 (role_is_false _ _) E).
  - destruct (ms !! _) as [x|]; [|by rewrite (proj2 (Z.leb_gt _ _)) by auto].
    destruct (Hx x eq_refl) as [Ho Ha]. rewrite (proj2 (role_is_false _ _) Ho).
    destruct (role_is actor RoleAdmin) eqn:E; [|done].
    apply role_is_true, Ha in E. by rewrite (proj2 (role_is_false _ _) E).
  - rewrite Hx, (proj2 (role_is_true _ _) Hr).
    destruct Hd as [Hd|Hd]; [|by rewrite Hd, andb_false_r]. by rewrite (proj2 (role_is_true _ _) Hd).
  - by rewrite Hx, (proj2 (role_is_true _ _) Hr), (proj2 (role_is_true _ _) Hd).
  - by rewrite Hx, (proj2 (role_is_false _ _) Hr), (proj2 (role_is_true _ _) Hd).
Qed.

(** * Membership is preserved *)

(** An entry that is not the owner's may be replaced by another non-owner. *)
Lemma members_ok_insert (ms : gmap string Member) (id : string) (x : Member) :
  members_ok ms → member_ok id x → m_Role x ≠ RoleOwner →
  (∀ y, ms !! id = Some y → m_Role y ≠ RoleOwner) → members_ok (<[id := x]> ms).
Proof.
  intros [He (o & mo & Ho & Hr) Hu] Hx Hxr Hy. split.
  - intros id' m [[<- <-]|[_ Hm]]%lookup_insert_Some; eauto.
  - exists o, mo. split; [|done]. apply lookup_insert_Some. right. split; [|done].
    intros ->. by apply (Hy mo).
  - intros i j m m' [[<- <-]|[_ Hm]]%lookup_insert_Some [[<- <-]|[_ Hm']]%lookup_insert_Some; eauto; done.
Qed.

Lemma members_ok_delete (ms : gmap string Member) (id : string) :
  members_ok ms → (∀ y, ms !! id = Some y → m_Role y ≠ RoleOwner) → members_ok (delete id ms).
Proof.
  intros [He (o & mo & Ho & Hr) Hu] Hy. split.
  - intros id' m [_ Hm]%lookup_delete_Some; eauto.
  - exists o, mo. split; [|done]. apply lookup_delete_Some. split; [|done].
    intros ->. by apply (Hy mo).
  - intros i j m m' [_ Hm]%lookup_delete_Some [_ Hm']%lookup_delete_Some; eauto.
Qed.

(** The owner hands ownership over, possibly to itself. *)
Lemma members_ok_transfer (ms : gmap string Member) (o id : string) (mo x : Member) :
  members_ok ms → ms !! o = Some mo → m_Role mo = RoleOwner → ms !! id = Some x →
  members_ok (<[id := set_Role x RoleOwner]> (<[o := set_Role mo RoleAdmin]> ms)).
Proof.
  intros [He _ Hu] Ho Hr Hx.
  assert (Hother : ∀ i m, <[o := set_Role mo RoleAdmin]> ms !! i = Some m → m_Role m ≠ RoleOwner).
  { intros i m [[<- <-]|[Hne Hm]]%lookup_insert_Some; [done|]. intros Hm'. by apply Hne, (Hu o i mo m). }
  split.
  - intros i m [[<- <-]|[_ [[<- <-]|[_ Hm]]%lookup_insert_Some]]%lookup_insert_Some; [| |eauto].
    + destruct (He _ _ Hx) as (? & ? & _). repeat split; try done. by left.
    + destruct (He _ _ Ho) as (? & ? & _). repeat split; try done. by right; left.
  - exists id, (set_Role x RoleOwner). split; [apply lookup_insert_eq|done].
  - intros i j m m' [[<- <-]|[_ Hm]]%lookup_insert_Some [[<- <-]|[_ Hm']]%lookup_insert_Some Hi Hj;
      [done|by apply Hother in Hm'|by apply Hother in Hm|by apply Hother in Hm].
Qed.

Lemma change_members_ok (policy : Policy) (ms ms' : gmap string Member) (actorID : string)
    (actor : Member) (subject : NodePublicIdentity) (kind : ActionKind) :
  members_ok ms → ms !! actorID = Some actor → ValidPublicIdentity subject = true →
  change policy ms actorID actor subject kind ms' → members_ok ms'.
Proof.
  intros Hok Hact Hsub Hc. pose proof (mo_entries ms Hok) as He.
  destruct Hc as [Hs Hx|x Hx Ho Ha|Hs Hx|x Hd Hx Hr|x Hd Hx Hr|x Hd Hx Hr].
  - apply members_ok_insert; [done| |done|].
    + repeat split; try done. right; right; by left.
    + intros y Hy. by rewrite (Hx y Hy).
  - apply members_ok_delete; [done|]. intros y. rewrite Hx. by intros [= <-].
  - apply members_ok_insert; [done| |done|].
    + repeat split; try done. by right; right; right.
    + intros y Hy. by apply Hx.
  - apply members_ok_insert; [done| |done|intros y; rewrite Hx; intros [= <-]; by rewrite Hr].
    destruct (He _ _ Hx) as (? & ? & _). repeat split; try done. by right; left.
  - apply members_ok_insert; [done| |done|intros y; rewrite Hx; intros [= <-]; by rewrite Hr].
    destruct (He _ _ Hx) as (? & ? & _). repeat split; try done. right; right; by left.
  - by apply members_ok_transfer.
Qed.

Lemma size_insert_le (ms : gmap string Member) (id : string) (x : Member) :
  (ms !! id = None → Z.of_nat (size ms) < MaxGroupMembers) →
  Z.of_nat (size ms) ≤ MaxGroupMembers → Z.of_nat (size (<[id := x]> ms)) ≤ MaxGroupMembers.
Proof.
  intros Hn Hs. destruct (ms !! id) eqn:E.
  - by rewrite map_size_insert_Some by done.
  - rewrite map_size_insert_None by done. specialize (Hn eq_refl). lia.
Qed.

Lemma change_size (policy : Policy) (ms ms' : gmap string Member) (actorID : string)
    (actor : Member) (subject : NodePublicIdentity) (kind : ActionKind) :
  ms !! actorID = Some actor → Z.of_nat (size ms) ≤ MaxGroupMembers →
  change policy ms actorID actor subject kind ms' → Z.of_nat (size ms') ≤ MaxGroupMembers.
Proof.
  intros Hact Hs Hc.
  destruct Hc as [Hn Hx|x Hx Ho Ha|Hn Hx|x Hd Hx Hr|x Hd Hx Hr|x Hd Hx Hr];
    try (apply size_insert_le; [congruence || auto|done]).
  - rewrite map_size_delete, Hx. lia.
  - apply size_insert_le; [|apply size_insert_le; [congruence|done]].
    intros [? _]%lookup_insert_None. congruence.
Qed.

Lemma members_ok_size (ms : gmap string Member) : members_ok ms → 0 < Z.of_nat (size ms).
Proof.
  intros [_ (o & mo & Ho & _) _]. destruct (decide (size ms = 0%nat)) as [E|]; [|lia].
  apply map_size_empty_inv in E. by rewrite E, lookup_empty in Ho.
Qed.

(** * Apply *)

(** A transition of the group: what has to hold of the state, the action, its
    actor and the clock, and what the new state is. *)
Record transition (now : Time) (s : State) (a : Action) (actor : Member) (s' : State) : Prop := {
  tr_ok : state_ok s;
  tr_group : a_GroupID a = s_GroupID s;
  tr_nonzero : a_Epoch a ≠ 0;
  tr_epoch : a_Epoch a = u64 (s_Epoch s + 1);
  tr_previous : a_Previous a = s_Hash s;
  tr_dated : a_CreatedAt a ≠ 0 ∧ a_CreatedAt a ≤ now + 5 * Minute;
  tr_actor : s_Members s !! a_ActorID a = Some actor;
  tr_role : m_Role actor = RoleOwner ∨ m_Role actor = RoleAdmin;
  tr_signed : ∃ message, actionBytes a = Ok message ∧
    Verify (m_Identity actor) actionDomain message (a_Signature a) = true;
  tr_subject : ValidPublicIdentity (a_Subject a) = true;
  tr_change : change (s_Policy s) (s_Members s) (a_ActorID a) actor (a_Subject a) (a_Kind a) (s_Members s');
  tr_new_hash : s_Hash s' = stateHash s';
  tr_new_epoch : s_Epoch s' = a_Epoch a;
  tr_frame : s_GroupID s' = s_GroupID s ∧ s_Creator s' = s_Creator s ∧
    s_GenesisNonce s' = s_GenesisNonce s ∧ s_Policy s' = s_Policy s;
}.

Lemma Apply_sound (now : Time) (s s' : State) (a : Action) :
  Apply now s a = (s', None) → ∃ actor, transition now s a actor s'.
Proof.
  unfold Apply, After, IsZero, TAdd. intros Ha. do 2 step_if Ha.
  destruct (s_Members s !! a_ActorID a) as [actor|] eqn:Eact; [|done]. step_if Ha.
  destruct (actionBytes a) as [msg|] eqn:Emsg; [|done].
  do 2 step_if Ha. destruct (applyKind _ _ _ _) as [ms'|] eqn:Ek; [|done].
  apply (inj2 pair) in Ha as [<- _]. unbool.
  match goal with Hp : bytesEqual _ _ = true |- _ => apply bytesEqual_true in Hp end.
  match goal with Hv : validState s = true |- _ => apply validState_true in Hv end.
  exists actor. split; try done.
  - match goal with Hr : (negb _ && negb _)%bool = false |- _ =>
      by rewrite andb_false_iff, !negb_false_iff, !role_is_true in Hr end.
  - eauto.
  - by apply applyKind_sound.
Qed.

Lemma Apply_complete (now : Time) (s s' : State) (a : Action) (actor : Member) :
  transition now s a actor s' → Apply now s a = (s', None).
Proof.
  intros [Hok Hg Hn He Hp [Hz Ht] Hact Hr (msg & Hmsg & Hsig) Hsub Hch Hh Hep (Hg' & Hc' & Hn' & Hp')].
  unfold Apply, After, IsZero, TAdd. rewrite (proj2 (validState_true s) Hok).
  rewrite bool_decide_eq_true_2, He, Z.eqb_refl, <- He by done.
  rewrite !(proj2 (Z.eqb_neq _ 0)), (proj2 (Z.ltb_ge _ _)) by done.
  rewrite (proj2 (bytesEqual_true _ _) Hp), Hp, (so_hash s Hok).
  unfold stateHash at 1. rewrite Sha256.Sum256_blen, Z.eqb_refl. cbn [negb orb].
  rewrite Hact, Hmsg, Hsig, Hsub.
  assert (negb (role_is actor RoleOwner) && negb (role_is actor RoleAdmin) = false)%bool as ->
    by (apply andb_false_iff; rewrite !negb_false_iff, !role_is_true; done).
  cbn [negb]. rewrite (applyKind_complete _ _ _ _ _ Hch). f_equal.
  destruct s'. simpl in *. subst. f_equal. exact (eq_sym Hh).
Qed.

(** C3. Apply implements the administration rules exactly: it succeeds, and with
    which new state, if and only if the action is a transition the rules allow:
    next epoch, on top of the current state's hash, dated, signed by an owner or
    admin, and permitted for that role under the group's policy. *)
Theorem Apply_refines (now : Time) (s s' : State) (a : Action) :
  Apply now s a = (s', None) ↔ ∃ actor, transition now s a actor s'.
Proof. split; [apply Apply_sound|]. intros [actor Ht]. by eapply Apply_complete. Qed.

Lemma Apply_error (now : Time) (s s' : State) (a : Action) (e : error) :
  Apply now s a = (s', Some e) → s' = s.
Proof.
  unfold Apply. intros Ha. repeat case_match; by apply (inj2 pair) in Ha as [<- ?].
Qed.

Lemma transition_ok (now : Time) (s s' : State) (a : Action) (actor : Member) :
  transition now s a actor s' → state_ok s'.
Proof.
  intros [Hok Hg Hn He Hp Ht Hact Hr Hsig Hsub Hch Hh Hep (Hg' & Hc' & Hn' & Hp')].
  pose proof (change_members_ok _ _ _ _ _ _ _ (so_members s Hok) Hact Hsub Hch) as Hm.
  destruct Hok as [Hs _ Hcr Hno Hgr Hid _ _].
  split; rewrite ?Hg', ?Hc', ?Hn', ?Hp'; try done.
  - pose proof (members_ok_size _ Hm). pose proof (change_size _ _ _ _ _ _ _ Hact (proj2 Hs) Hch). lia.
  - intros E. congruence.
Qed.

(** * Runs *)

(** One delivery of an action, accepted or not, at some clock reading. *)
Definition step (s s' : State) : Prop := ∃ now a e, Apply now s a = (s', e).

Lemma step_cases (s s' : State) :
  step s s' → s' = s ∨ ∃ now a actor, transition now s a actor s'.
Proof.
  intros (now & a & [e|] & Ha); [left; by eapply Apply_error|right].
  apply Apply_sound in Ha as [actor Ht]. eauto.
Qed.

Lemma steps_ok (s s' : State) :
  rtc step s s' → state_ok s →
  state_ok s' ∧ s_GroupID s' = s_GroupID s ∧ s_Creator s' = s_Creator s ∧ s_Policy s' = s_Policy s.
Proof.
  induction 1 as [s|s t u Hst _ IH]; [done|]. intros Hok.
  apply step_cases in Hst as [->|(now & a & actor & Ht)]; [auto|].
  pose proof (transition_ok _ _ _ _ _ Ht) as Hok'. destruct (tr_frame _ _ _ _ _ Ht) as (-> & -> & _ & ->) in IH.
  auto.
Qed.

Lemma New_ok (rand : Z → Result bytes) (owner : NodePublicIdentity) (policy : Policy) (s : State) :
  (∀ b, rand Identity.GenesisNonceBytes = Ok b → blen b = Identity.GenesisNonceBytes) →
  New rand owner policy = Ok s → state_ok s.
Proof.
  intros Hrand. unfold New. destruct (ValidPublicIdentity owner) eqn:Hv; [|done]. cbn [negb].
  destruct (rand _) as [nonce|] eqn:Er; [|done]. specialize (Hrand nonce eq_refl). intros <-%(inj Ok).
  split; cbn [s_Members s_Hash s_Creator s_GenesisNonce s_GroupID s_Policy s_Epoch]; try done.
  - rewrite map_size_singleton. done.
  - apply Identity.GroupID_valid; [done..|]. by destruct policy as [[]].
  - intros _. rewrite map_size_singleton. split; [done|]. eexists. rewrite lookup_singleton_eq. eauto.
  - split.
    + intros id m [<- <-]%lookup_singleton_Some. repeat split; try done. by left.
    + eexists _, _. rewrite lookup_singleton_eq. eauto.
    + by intros i j m m' [<- _]%lookup_singleton_Some [<- _]%lookup_singleton_Some.
Qed.

(** C2. Whatever sequence of actions is delivered to a new group, accepted or
    refused, its state stays valid: between 1 and 1000 well-formed entries, the
    hash of the whole state up to date, the group identifier and policy those of
    genesis, and exactly one owner. *)
Theorem group_invariant (rand : Z → Result bytes) (owner : NodePublicIdentity) (policy : Policy)
    (s0 s : State) :
  (∀ b, rand Identity.GenesisNonceBytes = Ok b → blen b = Identity.GenesisNonceBytes) →
  New rand owner policy = Ok s0 → rtc step s0 s →
  validState s = true ∧ s_GroupID s = s_GroupID s0 ∧ s_Policy s = policy ∧
  ∃ o, (∃ m, s_Members s !! o = Some m ∧ m_Role m = RoleOwner) ∧
       ∀ id m, s_Members s !! id = Some m → m_Role m = RoleOwner → id = o.
Proof.
  intros Hrand Hnew Hrun. pose proof (New_ok _ _ _ _ Hrand Hnew) as Hok0.
  destruct (steps_ok _ _ Hrun Hok0) as (Hok & Hg & _ & Hp).
  assert (s_Policy s0 = policy) as Hp0.
  { revert Hnew. unfold New. destruct (negb _); [done|]. destruct (rand _); [|done]. by intros <-%(inj Ok). }
  destruct (so_members s Hok) as [_ (o & m & Ho & Hr) Hu].
  split_and!; [by apply validState_true|done|congruence|].
  exists o. split; [eauto|]. intros id m' Hm' Hr'. by apply (Hu id o m' m).
Qed.

(** Admins cannot act against their peers: when an action signed by an admin is
    applied, every owner and admin entry stays as it was, and without the
    delegation policy no new admin appears. *)
Theorem Apply_admin_limits (now : Time) (s s' : State) (a : Action) (actor : Member) :
  Apply now s a = (s', None) →
  s_Members s !! a_ActorID a = Some actor → m_Role actor = RoleAdmin →
  (∀ id m, s_Members s !! id = Some m → m_Role m = RoleOwner ∨ m_Role m = RoleAdmin →
     s_Members s' !! id = Some m) ∧
  (AdminsMayDelegate (s_Policy s) = false →
   ∀ id m, s_Members s' !! id = Some m → m_Role m = RoleAdmin → s_Members s !! id = Some m).
Proof.
  intros (actor' & Ht)%Apply_sound Hact Hr. rewrite (tr_actor _ _ _ _ _ Ht) in Hact.
  injection Hact as ->. pose proof (tr_change _ _ _ _ _ Ht) as Hc. revert Hc.
  generalize (s_Members s'), (a_Kind a). intros ms' kind Hc.
  destruct Hc as [Hs Hx|x Hx Ho Ha|Hs Hx|x Hd Hx Hxr|x Hd|x Hd];
    try (rewrite Hr in Hd; done).
  all: split; [intros id m Hm Hrole|intros Hpol id m].
  all: try (destruct (decide (ni_NodeID (a_Subject a) = id)) as [<-|Hne];
            [|rewrite ?lookup_insert_ne, ?lookup_delete_ne by done; done]).
  - rewrite (Hx m Hm) in Hrole. by destruct Hrole.
  - rewrite lookup_insert_eq. by intros [= <-].
  - rewrite Hx in Hm. injection Hm as ->. destruct Hrole; [done|]. by destruct Ha.
  - by rewrite lookup_delete_eq.
  - destruct (Hx m Hm) as [? Hna]. destruct Hrole; [done|]. by destruct Hna.
  - rewrite lookup_insert_eq. by intros [= <-].
  - rewrite Hx in Hm. injection Hm as ->. rewrite Hxr in Hrole. by destruct Hrole.
  - rewrite Hr, Hpol in Hd. by destruct Hd.
Qed.

(** Ownership moves only by the owner's own transfer: if an applied action makes
    an entry owner that was not, the action is a transfer signed by the previous
    owner, naming the new owner as its subject. *)
Theorem Apply_owner_change (now : Time) (s s' : State) (a : Action) (id : string) (m : Member) :
  Apply now s a = (s', None) →
  s_Members s' !! id = Some m → m_Role m = RoleOwner → s_Members s !! id ≠ Some m →
  a_Kind a = ActionTransferOwner ∧ ni_NodeID (a_Subject a) = id ∧
  ∃ previous, s_Members s !! a_ActorID a = Some previous ∧ m_Role previous = RoleOwner.
Proof.
  intros (actor & Ht)%Apply_sound Hm Hr Hnew. pose proof (tr_actor _ _ _ _ _ Ht) as Hact.
  pose proof (tr_change _ _ _ _ _ Ht) as Hc. revert Hc Hm.
  generalize (s_Members s'), (a_Kind a). intros ms' kind Hc Hm.
  destruct Hc as [Hs Hx|x Hx Ho Ha|Hs Hx|x Hd Hx Hxr|x Hd Hx Hxr|x Hd Hx Hxr].
  - apply lookup_insert_Some in Hm as [[_ <-]|[_ ?]]; done.
  - by apply lookup_delete_Some in Hm as [_ ?].
  - apply lookup_insert_Some in Hm as [[_ <-]|[_ ?]]; done.
  - apply lookup_insert_Some in Hm as [[_ <-]|[_ ?]]; done.
  - apply lookup_insert_Some in Hm as [[_ <-]|[_ ?]]; done.
  - apply lookup_insert_Some in Hm as [[<- _]|[_ [[_ <-]|[_ ?]]%lookup_insert_Some]]; [|done|done].
    eauto.
Qed.

Lemma steps_epoch (s s' : State) :
  rtc step s s' → 0 ≤ s_Epoch s < two64 → s_Epoch s ≤ s_Epoch s' < two64.
Proof.
  induction 1 as [s|s t u Hst _ IH]; [lia|]. intros He.
  apply step_cases in Hst as [->|(now & a & actor & Ht)]; [auto|].
  pose proof (tr_epoch _ _ _ _ _ Ht) as E. pose proof (tr_nonzero _ _ _ _ _ Ht) as N.
  rewrite <- (tr_new_epoch _ _ _ _ _ Ht) in E, N. unfold u64 in E.
  destruct IH; div_lia.
Qed.

(** C21. No replay: an action that was applied once is refused by every later state of
    the group, at any time. Epochs are uint64 values; at the last one the group
    is frozen rather than wrapped around. *)
Theorem Apply_no_replay (now now' : Time) (s s' s'' : State) (a : Action) :
  0 ≤ s_Epoch s < two64 → Apply now s a = (s', None) → rtc step s' s'' →
  ∃ e, Apply now' s'' a = (s'', Some e).
Proof.
  intros He (actor & Ht)%Apply_sound Hrun.
  pose proof (tr_epoch _ _ _ _ _ Ht) as E. pose proof (tr_nonzero _ _ _ _ _ Ht) as N.
  assert (He' : s_Epoch s < s_Epoch s' < two64).
  { rewrite (tr_new_epoch _ _ _ _ _ Ht). unfold u64 in E. div_lia. }
  apply steps_epoch in Hrun; [|lia].
  destruct (Apply now' s'' a) as [t [e|]] eqn:Ea; [apply Apply_error in Ea as Heq; subst; eauto|].
  apply Apply_sound in Ea as (actor' & Ht').
  pose proof (tr_epoch _ _ _ _ _ Ht') as E'. rewrite (tr_new_epoch _ _ _ _ _ Ht) in *.
  unfold u64 in *. div_lia.
Qed.

(** The hash chain keeps replicas together: two states that accept the same
    action have the same encoding (members, roles, policy, epoch and genesis),
    unless the two encodings are a SHA-256 collision. *)
Theorem Apply_same_parent (now now' : Time) (s t s' t' : State) (a : Action) :
  Apply now s a = (s', None) → Apply now' t a = (t', None) →
  stateEncoding s = stateEncoding t ∨ Sha256.collides (stateEncoding s) (stateEncoding t).
Proof.
  intros (x & Hs)%Apply_sound (y & Ht)%Apply_sound.
  pose proof (tr_previous _ _ _ _ _ Hs) as Hp. pose proof (tr_previous _ _ _ _ _ Ht) as Hq.
  rewrite Hp, (so_hash s), (so_hash t) in Hq by (by eapply tr_ok).
  by apply Sha256.Sum256_inj.
Qed.

(** The state after a change of the members. *)
Definition successor (s : State) (ms' : gmap string Member) : State :=
  let next h := {| s_GroupID := s_GroupID s; s_Creator := s_Creator s; s_GenesisNonce := s_GenesisNonce s;
                   s_Epoch := s_Epoch s + 1; s_Policy := s_Policy s; s_Members := ms'; s_Hash := h |} in
  next (stateHash (next [])).

Lemma signed_transition `{!CryptoLaws C} (now : Time) (s : State) (material : PrivateSigningMaterial)
    (signer : HybridSigner) (coins : bytes) (draft a : Action) (actor : Member) (ms' : gmap string Member) :
  state_ok s → 0 ≤ s_Epoch s < two64 - 1 →
  NewHybridSigner material = Ok signer → SignAction (Some signer) coins draft = Ok a →
  a_GroupID draft = s_GroupID s → a_Epoch draft = s_Epoch s + 1 → a_Previous draft = s_Hash s →
  a_CreatedAt draft ≠ 0 → a_CreatedAt draft ≤ now + 5 * Minute →
  ValidPublicIdentity (a_Subject draft) = true →
  s_Members s !! ni_NodeID (PublicIdentity signer) = Some actor →
  m_Identity actor = PublicIdentity signer →
  m_Role actor = RoleOwner ∨ m_Role actor = RoleAdmin →
  change (s_Policy s) (s_Members s) (ni_NodeID (PublicIdentity signer)) actor (a_Subject draft)
    (a_Kind draft) ms' →
  transition now s a actor (successor s ms').
Proof.
  intros Hv He Hm Hsign Hg Hep Hp Hz Ht Hsub Hact Hid Hr Hc. unfold SignAction in Hsign.
  destruct (actionBytes _) as [msg|] eqn:Emsg; [|done].
  destruct (Sign _ _ _ _) as [sig|] eqn:Es; [|done]. apply (inj Ok) in Hsign as <-.
  split; cbn [set_Signature set_ActorID a_GroupID a_Epoch a_Previous a_Kind a_ActorID a_Subject
    a_CreatedAt a_Signature successor s_Members s_Hash s_Epoch]; try done; try lia.
  - unfold u64. rewrite Z.mod_small; lia.
  - exists msg. split; [done|]. rewrite Hid. by eapply sign_verifies.
Qed.

(** Properly signed administration is accepted: when an owner or admin signs a
    permitted change for the next epoch on top of the current hash, Apply performs
    exactly that change. *)
Theorem SignAction_applies `{!CryptoLaws C} (now : Time) (s : State) (material : PrivateSigningMaterial)
    (signer : HybridSigner) (coins : bytes) (draft a : Action) (actor : Member)
    (ms' : gmap string Member) :
  validState s = true → 0 ≤ s_Epoch s < two64 - 1 →
  NewHybridSigner material = Ok signer → SignAction (Some signer) coins draft = Ok a →
  a_GroupID draft = s_GroupID s → a_Epoch draft = s_Epoch s + 1 → a_Previous draft = s_Hash s →
  a_CreatedAt draft ≠ 0 → a_CreatedAt draft ≤ now + 5 * Minute →
  ValidPublicIdentity (a_Subject draft) = true →
  s_Members s !! ni_NodeID (PublicIdentity signer) = Some actor →
  m_Identity actor = PublicIdentity signer →
  m_Role actor = RoleOwner ∨ m_Role actor = RoleAdmin →
  change (s_Policy s) (s_Members s) (ni_NodeID (PublicIdentity signer)) actor (a_Subject draft)
    (a_Kind draft) ms' →
  ∃ s', Apply now s a = (s', None) ∧ s_Members s' = ms' ∧ s_Epoch s' = s_Epoch s + 1.
Proof.
  intros Hv%validState_true He Hm Hsign Hg Hep Hp Hz Ht Hsub Hact Hid Hr Hc. exists (successor s ms').
  split; [|done]. eapply Apply_complete. by eapply signed_transition.
Qed.

End Invariant.

(** * A concrete group *)

#[local] Existing Instances Toy.crypto Toy.laws.

(** Three signers and a serialisation for the witnesses. *)
Module Sample.

#[export] Instance marshal_action : Marshaler Action := λ a, Ok
  (frame (str_bytes (a_GroupID a)) ++ be_encode 8 (a_Epoch a) ++ frame (a_Previous a) ++
   frame (str_bytes (a_Kind a)) ++ frame (str_bytes (a_ActorID a)) ++
   frame (str_bytes (ni_NodeID (a_Subject a))) ++ be_encode 16 (a_CreatedAt a)).

#[export] Instance marshal_state : Marshaler State := λ s, Ok
  (frame (str_bytes (s_GroupID s)) ++ frame (s_GenesisNonce s) ++
   be_encode 8 (s_Epoch s) ++ policyCommitment (s_Policy s) ++
   mjoin ((λ p, frame (str_bytes p.1) ++ frame (str_bytes (m_Role p.2))) <$> map_to_list (s_Members s))).

Definition now : Time := Samples.now.
Definition rand (n : Z) : Result bytes := Ok (replicate (Z.to_nat n) x2a).
Definition closed : Policy := {| AdminsMayDelegate := false |}.

Lemma rand_size (b : bytes) : rand Identity.GenesisNonceBytes = Ok b → blen b = Identity.GenesisNonceBytes.
Proof. intros <-%(inj Ok). reflexivity. Qed.

(** The action of a member on a subject for the next epoch of [s]. *)
Definition draft (s : State) (kind : ActionKind) (subject : NodePublicIdentity) : Action :=
  {| a_GroupID := s_GroupID s; a_Epoch := s_Epoch s + 1; a_Previous := s_Hash s; a_Kind := kind;
     a_ActorID := ""; a_Subject := subject; a_CreatedAt := now; a_Signature := zeroSignature |}.
Definition signed (g : HybridSigner) (s : State) (kind : ActionKind) (subject : NodePublicIdentity) : Action :=
  ok_or (draft s kind subject) (SignAction (Some g) [] (draft s kind subject)).
Definition entry (g : HybridSigner) (r : Role) : Member := {| m_Identity := PublicIdentity g; m_Role := r |}.
Definition id (g : HybridSigner) : string := ni_NodeID (PublicIdentity g).

Lemma signed_ok (g : HybridSigner) (s : State) (kind : ActionKind) (subject : NodePublicIdentity) :
  SignAction (Some g) [] (draft s kind subject) = Ok (signed g s kind subject).
Proof. reflexivity. Qed.

(** A permitted action of [g] on the member [h]. *)
Lemma performed (g h : HybridSigner) (s : State) (kind : ActionKind) (r : Role) (ms' : gmap string Member) :
  blen (edPrivate g) = ed25519_PrivateKeySize → blen (edPrivate h) = ed25519_PrivateKeySize →
  state_ok s → 0 ≤ s_Epoch s < two64 - 1 → s_Members s !! id g = Some (entry g r) →
  r = RoleOwner ∨ r = RoleAdmin → change (s_Policy s) (s_Members s) (id g) (entry g r) (PublicIdentity h) kind ms' →
  transition now s (signed g s kind (PublicIdentity h)) (entry g r) (successor s ms').
Proof.
  intros Hg Hh Hs He Hl Hr Hc.
  eapply (signed_transition now s (PrivateMaterial g) g []); [done|done|by apply restore_signer|apply signed_ok|done..|
    vm_compute; discriminate|vm_compute; discriminate|by apply PublicIdentity_valid|done|done|done|done].
Qed.

Section Run.
Context (g1 g2 g3 : HybridSigner) (k1 : blen (edPrivate g1) = ed25519_PrivateKeySize)
  (k2 : blen (edPrivate g2) = ed25519_PrivateKeySize) (k3 : blen (edPrivate g3) = ed25519_PrivateKeySize)
  (d12 : id g1 ≠ id g2) (d13 : id g1 ≠ id g3) (d23 : id g2 ≠ id g3).

Definition blank (h : bytes) : State :=
  {| s_GroupID := Identity.GroupID (PublicIdentity g1) (replicate 32 x2a) (policyCommitment closed);
     s_Creator := PublicIdentity g1; s_GenesisNonce := replicate 32 x2a; s_Epoch := 0; s_Policy := closed;
     s_Members := {[ id g1 := entry g1 RoleOwner ]}; s_Hash := h |}.
Definition genesis : State := blank (stateHash (blank [])).

Lemma genesis_new : New rand (PublicIdentity g1) closed = Ok genesis.
Proof. unfold New. rewrite (PublicIdentity_valid g1 k1). reflexivity. Qed.

Lemma genesis_ok : state_ok genesis.
Proof. exact (New_ok rand (PublicIdentity g1) closed genesis rand_size genesis_new). Qed.

(** Owner 1 adds 2 and promotes 2; admin 2 adds 3; owner 1 hands over to 2. *)
Definition s1 : State := successor genesis (<[id g2 := entry g2 RoleMember]> (s_Members genesis)).
Definition a1 : Action := signed g1 genesis ActionAdd (PublicIdentity g2).
Lemma step1 : transition now genesis a1 (entry g1 RoleOwner) s1.
Proof.
  apply (performed g1 g2); [exact k1|exact k2|exact genesis_ok|split; vm_compute; [discriminate|reflexivity]|
    apply lookup_singleton_eq|by left|].
  apply change_add; [cbn [genesis blank s_Members]; by rewrite map_size_singleton|].
  intros x Hx. cbn [genesis blank s_Members] in Hx. rewrite lookup_singleton_ne in Hx by exact d12. done.
Qed.

Definition s2 : State := successor s1 (<[id g2 := entry g2 RoleAdmin]> (s_Members s1)).
Definition a2 : Action := signed g1 s1 ActionGrantAdmin (PublicIdentity g2).
Lemma step2 : transition now s1 a2 (entry g1 RoleOwner) s2.
Proof.
  apply (performed g1 g2); [exact k1|exact k2|exact (transition_ok _ _ _ _ _ step1)|
    split; vm_compute; [discriminate|reflexivity]| |by left|].
  - cbn [s1 successor s_Members]. rewrite lookup_insert_ne by (symmetry; exact d12). apply lookup_singleton_eq.
  - apply (change_grant _ _ _ _ _ (entry g2 RoleMember)); [by left|apply lookup_insert_eq|done].
Qed.

Definition s3 : State := successor s2 (<[id g3 := entry g3 RoleMember]> (s_Members s2)).
Definition a3 : Action := signed g2 s2 ActionAdd (PublicIdentity g3).
Lemma step3 : transition now s2 a3 (entry g2 RoleAdmin) s3.
Proof.
  apply (performed g2 g3); [exact k2|exact k3|exact (transition_ok _ _ _ _ _ step2)|
    split; vm_compute; [discriminate|reflexivity]|apply lookup_insert_eq|by right|].
  apply change_add.
  - cbn [s2 s1 successor s_Members genesis blank]. rewrite insert_insert_eq, map_size_insert_None, map_size_singleton; [done|].
    by apply lookup_singleton_ne.
  - intros x Hx. cbn [s2 s1 successor s_Members genesis blank] in Hx.
    rewrite !lookup_insert_ne, lookup_singleton_ne in Hx by done. done.
Qed.

Definition s4 : State :=
  successor s2 (<[id g2 := entry g2 RoleOwner]> (<[id g1 := entry g1 RoleAdmin]> (s_Members s2))).
Definition a4 : Action := signed g1 s2 ActionTransferOwner (PublicIdentity g2).
Lemma step4 : transition now s2 a4 (entry g1 RoleOwner) s4.
Proof.
  apply (performed g1 g2); [exact k1|exact k2|exact (transition_ok _ _ _ _ _ step2)|
    split; vm_compute; [discriminate|reflexivity]| |by left|].
  - cbn [s2 s1 successor s_Members]. rewrite !lookup_insert_ne by (symmetry; exact d12). apply lookup_singleton_eq.
  - refine (change_transfer (s_Policy s2) (s_Members s2) (id g1) (entry g1 RoleOwner) (PublicIdentity g2)
      (entry g2 RoleAdmin) eq_refl (lookup_insert_eq _ _ _) _). done.
Qed.

End Run.

(** The members, and that their identifiers differ. *)
Definition g1 : HybridSigner := Toy.signer x01.
Definition g2 : HybridSigner := Toy.signer x02.
Definition g3 : HybridSigner := Toy.signer x03.

Lemma three_differ (a b c : string) : bool_decide (NoDup [a; b; c]) = true → a ≠ b ∧ a ≠ c ∧ b ≠ c.
Proof. rewrite bool_decide_eq_true, !list.NoDup_cons. set_solver. Qed.

Lemma ids_differ : id g1 ≠ id g2 ∧ id g1 ≠ id g3 ∧ id g2 ≠ id g3.
Proof. apply three_differ. vm_cast_no_check (eq_refl true). Qed.

End Sample.

#[local] Existing Instances Sample.marshal_action Sample.marshal_state.

(** The sample run, closed. *)
Definition run1 := Sample.step1 Sample.g1 Sample.g2 eq_refl eq_refl (proj1 Sample.ids_differ).
Definition run2 := Sample.step2 Sample.g1 Sample.g2 eq_refl eq_refl (proj1 Sample.ids_differ).
Definition run3 := Sample.step3 Sample.g1 Sample.g2 Sample.g3 eq_refl eq_refl eq_refl (proj1 Sample.ids_differ)
  (proj1 (proj2 Sample.ids_differ)) (proj2 (proj2 Sample.ids_differ)).
Definition run4 := Sample.step4 Sample.g1 Sample.g2 eq_refl eq_refl (proj1 Sample.ids_differ).

Lemma group_invariant_witness : validState (Sample.s2 Sample.g1 Sample.g2) = true.
Proof.
  destruct (group_invariant Sample.rand (PublicIdentity Sample.g1) Sample.closed (Sample.genesis Sample.g1)
    (Sample.s2 Sample.g1 Sample.g2)) as [Hv _];
    [exact Sample.rand_size|exact (Sample.genesis_new Sample.g1 eq_refl)| |exact Hv].
  apply rtc_l with (Sample.s1 Sample.g1 Sample.g2); [|apply rtc_once]; eexists _, _, _;
    [exact (Apply_complete _ _ _ _ _ run1)|exact (Apply_complete _ _ _ _ _ run2)].
Defined.

Lemma Apply_admin_limits_witness :
  s_Members (Sample.s3 Sample.g1 Sample.g2 Sample.g3) !! Sample.id Sample.g1 =
    Some (Sample.entry Sample.g1 RoleOwner).
Proof.
  destruct (Apply_admin_limits Sample.now (Sample.s2 Sample.g1 Sample.g2) (Sample.s3 Sample.g1 Sample.g2 Sample.g3)
    (Sample.a3 Sample.g1 Sample.g2 Sample.g3) (Sample.entry Sample.g2 RoleAdmin)) as [Hk _];
    [exact (Apply_complete _ _ _ _ _ run3)|exact (tr_actor _ _ _ _ _ run3)|reflexivity|].
  apply Hk; [exact (tr_actor _ _ _ _ _ run4)|left; reflexivity].
Defined.

Lemma Apply_owner_change_witness : a_Kind (Sample.a4 Sample.g1 Sample.g2) = ActionTransferOwner.
Proof.
  destruct (Apply_owner_change Sample.now (Sample.s2 Sample.g1 Sample.g2) (Sample.s4 Sample.g1 Sample.g2)
    (Sample.a4 Sample.g1 Sample.g2) (Sample.id Sample.g2) (Sample.entry Sample.g2 RoleOwner)) as [Hk _];
    [exact (Apply_complete _ _ _ _ _ run4)|apply lookup_insert_eq|reflexivity| |exact Hk].
  cbn [Sample.s2 successor s_Members]. rewrite lookup_insert_eq. intros H.
  assert (Hr : RoleAdmin = RoleOwner) by exact (f_equal (λ o, match o with Some m => m_Role m | None => RoleMember end) H).
  discriminate Hr.
Defined.

Lemma Apply_no_replay_witness :
  ∃ e, Apply (Sample.now + Hour) (Sample.s2 Sample.g1 Sample.g2) (Sample.a1 Sample.g1 Sample.g2) =
       (Sample.s2 Sample.g1 Sample.g2, Some e).
Proof.
  refine (Apply_no_replay Sample.now (Sample.now + Hour) (Sample.genesis Sample.g1) (Sample.s1 Sample.g1 Sample.g2)
    (Sample.s2 Sample.g1 Sample.g2) (Sample.a1 Sample.g1 Sample.g2) _ (Apply_complete _ _ _ _ _ run1) _).
  - change (0 ≤ 0 < two64 - 1). lia.
  - apply rtc_once. eexists _, _, _. exact (Apply_complete _ _ _ _ _ run2).
Defined.

Lemma Apply_same_parent_witness :
  stateEncoding (Sample.genesis Sample.g1) = stateEncoding (Sample.genesis Sample.g1) ∨
  Sha256.collides (stateEncoding (Sample.genesis Sample.g1)) (stateEncoding (Sample.genesis Sample.g1)).
Proof.
  exact (Apply_same_parent Sample.now Sample.now (Sample.genesis Sample.g1) (Sample.genesis Sample.g1)
    (Sample.s1 Sample.g1 Sample.g2) (Sample.s1 Sample.g1 Sample.g2) (Sample.a1 Sample.g1 Sample.g2)
    (Apply_complete _ _ _ _ _ run1) (Apply_complete _ _ _ _ _ run1)).
Defined.

Lemma SignAction_applies_witness :
  ∃ s', Apply Sample.now (Sample.genesis Sample.g1) (Sample.a1 Sample.g1 Sample.g2) = (s', None) ∧
        s_Members s' = <[Sample.id Sample.g2 := Sample.entry Sample.g2 RoleMember]> (s_Members (Sample.genesis Sample.g1)) ∧
        s_Epoch s' = s_Epoch (Sample.genesis Sample.g1) + 1.
Proof.
  refine (SignAction_applies Sample.now (Sample.genesis Sample.g1) (Toy.material x01) Sample.g1 []
    (Sample.draft (Sample.genesis Sample.g1) ActionAdd (PublicIdentity Sample.g2)) (Sample.a1 Sample.g1 Sample.g2)
    (Sample.entry Sample.g1 RoleOwner)
    (<[Sample.id Sample.g2 := Sample.entry Sample.g2 RoleMember]> (s_Members (Sample.genesis Sample.g1)))
    _ _ (Toy.NewHybridSigner_material x01) (Sample.signed_ok _ _ _ _) eq_refl eq_refl eq_refl _ _
    (PublicIdentity_valid Sample.g2 eq_refl) (tr_actor _ _ _ _ _ run1) eq_refl (or_introl eq_refl)
    (tr_change _ _ _ _ _ run1)).
  - apply validState_true. exact (tr_ok _ _ _ _ _ run1).
  - change (0 ≤ 0 < two64 - 1). lia.
  - change (Sample.now ≠ 0). vm_compute; discriminate.
  - change (Sample.now ≤ Sample.now + 5 * Minute). vm_compute; discriminate.
Defined.

End Group.
