(* ===== verification/Files.v ===== *)
(** A private directory as the two disk stores use it: a map from entry names to
    files, the system calls that can fail, removal and listing. *)
From S2P Require Import Prelude.
Local Open Scope Z_scope.

(** A directory entry: its kind, whether its mode excludes group and others,
    and its contents. *)
Record File := { f_dir : bool; f_regular : bool; f_private : bool; f_data : bytes }.

Abbreviation Disk := (gmap string File).

(** The system calls the stores make, by the entry they concern. An operation gets the
    errors its calls will meet; [None] is success. [Inner] marks a call made by a function
    that the operation calls, so that it can fail where the operation's own does not. *)
Inductive Syscall :=
| EnsureDir | AcquireLock | ReadDir | ReadBatch (k : nat) | EntryInfo (name : string) | ReadFile (name : string)
| CreateTemp | Chmod | Write | SyncFile | CloseFile | Rename | SyncDir | Remove (name : string)
| Unlock | CloseLock | Inner (c : Syscall).

Abbreviation IO := (Syscall → option error).

Definition inner (io : IO) : IO := λ c, io (Inner c).

Definition ErrNotExist : error := "file does not exist".

(** [os.Remove] in the store's directory. *)
Definition os_Remove (io : IO) (disk : Disk) (name : string) : Disk * option error :=
  match io (Remove name) with
  | Some e => (disk, Some e)
  | None =>
      match disk !! name with
      | None => (disk, Some ErrNotExist)
      | Some _ => (delete name disk, None)
      end
  end.

(** [err != nil && !errors.Is(err, os.ErrNotExist)]. *)
Definition remove_failed (e : option error) : bool :=
  match e with
  | None => false
  | Some e => negb (bool_decide (e = ErrNotExist))
  end.

(** [os.CreateTemp] names an unused entry that starts with [prefix]. The random part of
    the name only keeps it unused: here it is a run of zeros. *)
Fixpoint tempName_from (fuel : nat) (disk : Disk) (name : string) : string :=
  match fuel with
  | O => name
  | S fuel => if bool_decide (is_Some (disk !! name)) then tempName_from fuel disk (name +:+ "0") else name
  end.
Definition tempName (disk : Disk) (prefix : string) : string := tempName_from (size disk) disk prefix.

(** Atomic replacement of a file, as [writePrivateAtomic] and [writeClientPrivateAtomic] do
    it: a temporary file is created, filled, synced and closed, renamed over the target,
    then the directory is synced. When an error is returned the deferred function removes
    the temporary file, if that works. What a failed [Write] leaves in the file does not
    matter and is all of [data] here. *)
Definition atomicWrite (io : IO) (prefix : string) (disk : Disk) (name : string) (data : bytes) : Disk * option error :=
  match io CreateTemp with
  | Some e => (disk, Some e)
  | None =>
      let temporaryPath := tempName disk prefix in
      let file := {| f_dir := false; f_regular := true; f_private := true; f_data := data |} in
      let created := <[temporaryPath := file]> disk in
      let fail e := ((os_Remove io created temporaryPath).1, Some e) in
      match io Chmod with Some e => fail e | None =>
      match io Write with Some e => fail e | None =>
      match io SyncFile with Some e => fail e | None =>
      match io CloseFile with Some e => fail e | None =>
      match io Rename with Some e => fail e | None =>
        (<[name := file]> (delete temporaryPath created), io SyncDir)
      end end end end end
  end.

(** [os.ReadDir] lists the entries by name. *)
Definition entry_le (x y : string * File) : Prop := str_ltb y.1 x.1 = false.
#[export] Instance entry_le_dec x y : Decision (entry_le x y).
Proof. unfold entry_le. apply _. Defined.
Definition os_ReadDir (disk : Disk) : list (string * File) :=
  merge_sort entry_le (map_to_list disk).

(** [filepath.Base] where the separator is a slash. *)
Definition slash : byte := x2f.
Fixpoint stripTrailing (l : bytes) : bytes :=
  match l with
  | [] => []
  | b :: l =>
      match stripTrailing l with
      | [] => if bool_decide (b = slash) then [] else [b]
      | k => b :: k
      end
  end.
Fixpoint afterLastSlash (l : bytes) : bytes :=
  match l with
  | [] => []
  | b :: l => if bool_decide (slash ∈ b :: l) then afterLastSlash l else b :: l
  end.
Definition Base (path : string) : string :=
  if bool_decide (path = ""%string) then "."
  else
    let base := afterLastSlash (stripTrailing (str_bytes path)) in
    if blen base =? 0 then "/" else bytes_str base.

(** * Facts *)

Lemma os_Remove_lookup (io : IO) (disk disk' : Disk) (name name' : string) (e : option error) :
  os_Remove io disk name = (disk', e) → name ≠ name' → disk' !! name' = disk !! name'.
Proof.
  unfold os_Remove. intros H Hne. destruct (io _); [by simplify_eq|].
  destruct (disk !! name); simplify_eq; [|done]. by rewrite lookup_delete_ne.
Qed.

(** ** Temporary names *)

Lemma append_0_length (name : string) : String.length (name +:+ "0") = S (String.length name).
Proof. pose proof (slen_app name "0") as H. unfold slen in H. simpl in H. lia. Qed.

(** A search that ends on a taken name has passed as many taken names as it had fuel. *)
Lemma tempName_from_taken (fuel : nat) (disk : Disk) (name : string) :
  is_Some (disk !! tempName_from fuel disk name) →
  ∃ l, NoDup l ∧ length l = S fuel ∧ Forall (λ n, is_Some (disk !! n) ∧ String.length name ≤ String.length n)%nat l.
Proof.
  revert name. induction fuel as [|fuel IH]; intros name H; simpl in H.
  - exists [name]. split_and!; [apply NoDup_singleton|done|]. by constructor.
  - case_bool_decide as Hn; [|done]. destruct (IH _ H) as (l & Hnd & Hl & Hall). exists (name :: l). split_and!.
    + constructor; [|done]. intros Hin. apply (proj1 (list.Forall_forall _ _) Hall) in Hin as [_ Hle].
      rewrite append_0_length in Hle. lia.
    + simpl. lia.
    + constructor; [done|]. eapply list.Forall_impl; [exact Hall|]. intros n [? Hle]. rewrite append_0_length in Hle.
      split; [done|lia].
Qed.

Lemma tempName_fresh (disk : Disk) (prefix : string) : disk !! tempName disk prefix = None.
Proof.
  destruct (disk !! _) eqn:E; [exfalso|done].
  destruct (tempName_from_taken (size disk) disk prefix) as (l & Hnd & Hl & Hall); [unfold tempName in E; by rewrite E|].
  assert (list_to_set l ⊆ dom disk) as Hsub.
  { intros n Hn%elem_of_list_to_set. apply elem_of_dom. by apply (proj1 (list.Forall_forall _ _) Hall) in Hn as [? _]. }
  apply subseteq_size in Hsub. rewrite size_list_to_set, size_dom in Hsub by done. lia.
Qed.

Lemma tempName_prefix (disk : Disk) (prefix : string) : String.prefix prefix (tempName disk prefix) = true.
Proof.
  unfold tempName. assert (∀ fuel name, String.prefix prefix name = true →
    String.prefix prefix (tempName_from fuel disk name) = true) as H.
  { induction fuel as [|fuel IH]; intros name Hp; simpl; [done|]. case_bool_decide; [|done].
    apply IH. by apply prefix_extend. }
  apply H. apply prefix_refl.
Qed.

(** An error before the rename leaves the directory as it was, up to one abandoned
    temporary file; one after it leaves the new file in place. *)
Lemma atomicWrite_cases (io : IO) (prefix : string) (disk disk' : Disk) (name : string) (data : bytes) (e : option error) :
  atomicWrite io prefix disk name data = (disk', e) →
  (disk' = disk ∧ ∃ err, e = Some err) ∨
  (∃ temporary file, disk !! temporary = None ∧ String.prefix prefix temporary = true ∧
     f_regular file = true ∧ f_private file = true ∧
     disk' = <[temporary := file]> disk ∧ ∃ err, e = Some err) ∨
  (disk' = <[name := {| f_dir := false; f_regular := true; f_private := true; f_data := data |}]> disk ∧ e = io SyncDir).
Proof.
  unfold atomicWrite. pose proof (tempName_fresh disk prefix) as Hf. pose proof (tempName_prefix disk prefix) as Hp.
  set (tmp := tempName disk prefix) in *. set (file := {| f_dir := false |}).
  assert (∀ err, ((os_Remove io (<[tmp := file]> disk) tmp).1, Some err) = (disk', e) →
    (disk' = disk ∧ ∃ err, e = Some err) ∨
    (∃ temporary file, disk !! temporary = None ∧ String.prefix prefix temporary = true ∧
       f_regular file = true ∧ f_private file = true ∧
       disk' = <[temporary := file]> disk ∧ ∃ err, e = Some err) ∨
    (disk' = <[name := file]> disk ∧ e = io SyncDir)) as Hfail.
  { intros err [= <- <-]. unfold os_Remove. destruct (io (Remove tmp)); [right; left; exists tmp, file; eauto 10|].
    rewrite lookup_insert_eq. cbn [fst]. left. rewrite delete_insert_id by done. eauto. }
  destruct (io CreateTemp); [intros [= <- <-]; left; eauto|].
  destruct (io Chmod); [apply Hfail|]. destruct (io Write); [apply Hfail|]. destruct (io SyncFile); [apply Hfail|].
  destruct (io CloseFile); [apply Hfail|]. destruct (io Rename); [apply Hfail|].
  intros [= <- <-]. right. right. by rewrite delete_insert_id.
Qed.

(** No call fails. *)
Definition quiet (io : IO) : Prop := ∀ c, io c = None.

Lemma quiet_inner (io : IO) : quiet io → quiet (inner io).
Proof. intros H c. apply H. Qed.

(** The system does not report a file missing that is there. *)
Definition honest (io : IO) : Prop := ∀ name, io (Remove name) ≠ Some ErrNotExist.

Lemma os_Remove_gone (io : IO) (disk disk' : Disk) (name : string) (e : option error) :
  honest io → os_Remove io disk name = (disk', e) → remove_failed e = false → disk' !! name = None.
Proof.
  unfold os_Remove, remove_failed. intros Hio H Hf. destruct (io _) as [err|] eqn:Ei.
  - simplify_eq. unbool. subst. by destruct (Hio name).
  - destruct (disk !! name) eqn:Ed; simplify_eq; [apply lookup_delete_eq|done].
Qed.

Lemma os_Remove_failed (io : IO) (disk disk' : Disk) (name : string) (e : option error) :
  os_Remove io disk name = (disk', e) → remove_failed e = true → disk' = disk ∧ ∃ err, e = Some err.
Proof.
  unfold os_Remove, remove_failed. intros H Hf. destruct (io _); [simplify_eq; eauto|].
  destruct (disk !! name); simplify_eq.
Qed.

Lemma ReadDir_keys (disk : Disk) : NoDup (os_ReadDir disk).*1.
Proof. unfold os_ReadDir. rewrite merge_sort_Permutation. apply NoDup_fst_map_to_list. Qed.

Lemma ReadDir_elem (disk : Disk) (name : string) (file : File) :
  (name, file) ∈ os_ReadDir disk ↔ disk !! name = Some file.
Proof. unfold os_ReadDir. rewrite merge_sort_Permutation. apply elem_of_map_to_list. Qed.

