(* ===== verification/StoreLock.v ===== *)
(** The lock files of the two disk stores: [acquireNodeStoreLock] (src/node/store.go,
    store_lock_unix.go) and [acquireClientStoreLock] (src/client/store.go,
    store_lock_unix.go), which are the same code, and the directory checks before them.
    Openers of the same directory, in one process or several, interleave between their
    system calls. *)
From S2P Require Import Prelude Files.
Local Open Scope Z_scope.

Module StoreLock.

(** * The file system around the lock path *)

(** An inode with the open file that holds its exclusive [flock], by the opener's number. *)
Record Inode := { i_regular : bool; i_private : bool; i_owner : option nat }.

(** What the path names: a file, or a symbolic link to one. *)
Inductive Entry := Direct (i : nat) | Link (i : nat).
Definition target (e : Entry) : nat := match e with Direct i | Link i => i end.

Record FS := { entry : option Entry; inodes : gmap nat Inode }.

Definition set_inode (fs : FS) (i : nat) (n : Inode) : FS := {| entry := entry fs; inodes := <[i := n]> (inodes fs) |}.

(** [os.Lstat] of the path: what is there, if it is not a link. *)
Definition lstat (fs : FS) : option (nat * Inode) :=
  match entry fs with
  | Some (Direct i) => n ← inodes fs !! i; Some (i, n)
  | _ => None
  end.

(** The system calls of an opener in their order, with the errors they meet. *)
Inductive Call := Lstat | OpenFile | ChmodLock | StatLock | Flock.
Abbreviation Errors := (Call → option error).

(** An opener between two system calls, by the inode it has open. *)
Inductive Opener :=
| Idle | Checked | Opened (i : nat) | Restricted (i : nat) | Verified (i : nat) | Holding (i : nat)
| Failed (e : error) | Closed.

(** * The code *)

Definition unixPrivate (n : Inode) : bool := i_regular n && i_private n.

(** The first check, of what is at the path; a missing file is fine. *)
Definition checkPath (err : Errors) (fs : FS) : option error :=
  match err Lstat with
  | Some e => if bool_decide (e = ErrNotExist) then None else Some e
  | None =>
      match entry fs, lstat fs with
      | None, _ => None
      | Some _, Some (_, n) => if unixPrivate n then None else Some "store lock is not a private regular file"%string
      | Some _, None => Some "store lock is not a private regular file"%string
      end
  end.

(** [os.OpenFile] with [O_CREATE]: a missing file is created, through a link at the
    link's target; [fresh] is the number of a new inode. *)
Definition openLock (fs : FS) (fresh : nat) : FS * nat :=
  let created := {| i_regular := true; i_private := true; i_owner := None |} in
  match entry fs with
  | None => ({| entry := Some (Direct fresh); inodes := <[fresh := created]> (inodes fs) |}, fresh)
  | Some e =>
      match inodes fs !! target e with
      | Some _ => (fs, target e)
      | None => (set_inode fs (target e) created, target e)
      end
  end.

(** [lockNodeStoreFile]: [flock] with [LOCK_EX|LOCK_NB]. *)
Definition flock (fs : FS) (me i : nat) : option FS :=
  match inodes fs !! i with
  | Some n =>
      match i_owner n with
      | None => Some (set_inode fs i {| i_regular := i_regular n; i_private := i_private n; i_owner := Some me |})
      | Some _ => None
      end
  | None => None
  end.

(** Unlocking and closing the file: closing gives the lock up in any case. *)
Definition releaseLock (fs : FS) (i : nat) : FS :=
  match inodes fs !! i with
  | Some n => set_inode fs i {| i_regular := i_regular n; i_private := i_private n; i_owner := None |}
  | None => fs
  end.

(** One system call of [acquireNodeStoreLock] by the opener [me]; the call of a holder
    is its [Close]. *)
Definition advance (err : Errors) (fresh me : nat) (fs : FS) (op : Opener) : FS * Opener :=
  match op with
  | Idle => (fs, match checkPath err fs with Some e => Failed e | None => Checked end)
  | Checked =>
      match err OpenFile with
      | Some e => (fs, Failed e)
      | None => let '(fs, i) := openLock fs fresh in (fs, Opened i)
      end
  | Opened i =>
      match err ChmodLock, inodes fs !! i with
      | None, Some n => (set_inode fs i {| i_regular := i_regular n; i_private := true; i_owner := i_owner n |}, Restricted i)
      | Some e, _ => (fs, Failed e)
      | None, None => (fs, Failed ErrNotExist)
      end
  | Restricted i =>
      (fs, match err StatLock, lstat fs with
           | None, Some (j, n) =>
               if i_regular n && bool_decide (i = j) then Verified i
               else Failed "store lock path changed during open"
           | _, _ => Failed "store lock path changed during open"
           end)
  | Verified i =>
      match err Flock, flock fs me i with
      | None, Some fs => (fs, Holding i)
      | _, _ => (fs, Failed "store is already open or cannot be locked")
      end
  | Holding i => (releaseLock fs i, Closed)
  | Failed _ | Closed => (fs, op)
  end.

(** [acquireNodeStoreLock] without interruption. *)
Definition acquireStoreLock (err : Errors) (fresh me : nat) (fs : FS) : FS * Opener :=
  Nat.iter 5 (λ x, advance err fresh me x.1 x.2) (fs, Idle).

(** [ensurePrivateStoreDirectory] and [ensurePrivateDirectory]: what [Lstat] finds after
    [MkdirAll] (a directory or not, a link or not, private or not), and the errors of the
    three calls. The result is whether the directory is private afterwards. *)
Definition ensurePrivateDirectory (mkdirErr lstatErr chmodErr : option error) (isDir isLink private : bool) : Result bool :=
  match mkdirErr with
  | Some e => Err e
  | None =>
      if bool_decide (is_Some lstatErr) || negb isDir || isLink
      then Err "store directory must be a private real directory"
      else if negb private then
        match chmodErr with
        | Some _ => Err "store directory permissions could not be restricted"
        | None => Ok true
        end
      else Ok private
  end.

(** * Interleaving *)

(** The openers by number; all others are [Idle]. *)
Abbreviation Openers := (gmap nat Opener).
Definition opener (os : Openers) (k : nat) : Opener := default Idle (os !! k).

(** The next call of an opener. *)
Inductive lock_step : FS * Openers → FS * Openers → Prop :=
| lock_advance fs fs' os k err fresh op :
    inodes fs !! fresh = None → advance err fresh k fs (opener os k) = (fs', op) →
    lock_step (fs, os) (fs', <[k := op]> os).

(** Someone else with access to the directory: the path is removed or made to name
    another file. *)
Inductive tamper_step : FS * Openers → FS * Openers → Prop :=
| tamper fs os e added :
    (∀ i n, added !! i = Some n → inodes fs !! i = None ∧ i_owner n = None) →
    tamper_step (fs, os) ({| entry := e; inodes := inodes fs ∪ added |}, os).

Definition any_step (x y : FS * Openers) : Prop := lock_step x y ∨ tamper_step x y.

(** * Properties *)

Definition unlocked (fs : FS) : Prop := ∀ i n, inodes fs !! i = Some n → i_owner n = None.

(** A holder is the owner of its inode. *)
Definition owned (x : FS * Openers) : Prop :=
  ∀ k i, opener x.2 k = Holding i → ∃ n, inodes x.1 !! i = Some n ∧ i_owner n = Some k.

(** The path names the inode of every opener that has passed its check. *)
Definition anchored (x : FS * Openers) : Prop :=
  ∀ k i, opener x.2 k = Verified i ∨ opener x.2 k = Holding i → entry x.1 = Some (Direct i).

Lemma opener_insert (os : Openers) (k k' : nat) (op : Opener) :
  opener (<[k := op]> os) k' = if decide (k = k') then op else opener os k'.
Proof.
  unfold opener. destruct (decide (k = k')) as [->|]; [by rewrite lookup_insert_eq|by rewrite lookup_insert_ne].
Qed.

(** What one call does to the inodes and the path. *)
Lemma openLock_frame (fs fs' : FS) (fresh i j : nat) (n : Inode) :
  openLock fs fresh = (fs', j) → inodes fs !! fresh = None → inodes fs !! i = Some n → inodes fs' !! i = Some n.
Proof.
  unfold openLock. intros H Hf Hi. destruct (entry fs) as [e|].
  - destruct (inodes fs !! target e) eqn:Ht; injection H as <- <-; [done|]. cbn. rewrite lookup_insert_ne; [done|congruence].
  - injection H as <- <-. cbn. rewrite lookup_insert_ne; [done|congruence].
Qed.

Lemma openLock_entry (fs fs' : FS) (fresh j : nat) (e : Entry) :
  openLock fs fresh = (fs', j) → entry fs = Some e → entry fs' = Some e.
Proof. unfold openLock. intros H He. rewrite He in H. by destruct (inodes fs !! _); injection H as <- <-. Qed.

Lemma advance_others (err : Errors) (fresh k k' i : nat) (fs fs' : FS) (op op' : Opener) (n : Inode) :
  inodes fs !! fresh = None → advance err fresh k fs op = (fs', op') → k ≠ k' →
  (∀ j, op = Holding j → ∃ m, inodes fs !! j = Some m ∧ i_owner m = Some k) →
  inodes fs !! i = Some n → i_owner n = Some k' → ∃ n', inodes fs' !! i = Some n' ∧ i_owner n' = Some k'.
Proof.
  intros Hf H Hne Hold Hi Ho. destruct op as [| |j|j|j|j| |]; cbn [advance] in H; try (injection H as <- <-; by eauto).
  - destruct (err OpenFile); [injection H as <- <-; by eauto|]. destruct (openLock fs fresh) as [fs1 j] eqn:E.
    injection H as <- <-. exists n. split; [by eapply openLock_frame|done].
  - destruct (err ChmodLock); [injection H as <- <-; by eauto|].
    destruct (inodes fs !! j) as [m|] eqn:Ej; [|injection H as <- <-; by eauto]. injection H as <- <-. cbn.
    destruct (decide (j = i)) as [->|]; [|rewrite lookup_insert_ne by done; by eauto].
    rewrite lookup_insert_eq. eexists. split; [done|]. cbn. congruence.
  - destruct (err Flock); [injection H as <- <-; by eauto|]. unfold flock in H.
    destruct (inodes fs !! j) as [m|] eqn:Ej; [|injection H as <- <-; by eauto].
    destruct (i_owner m) eqn:Em; injection H as <- <-; [by eauto|]. cbn. rewrite lookup_insert_ne; [by eauto|congruence].
  - injection H as <- <-. unfold releaseLock. destruct (Hold j eq_refl) as (m & Hj & Hm). rewrite Hj. cbn.
    rewrite lookup_insert_ne; [by eauto|congruence].
Qed.

Lemma advance_holds (err : Errors) (fresh k i : nat) (fs fs' : FS) (op : Opener) :
  advance err fresh k fs op = (fs', Holding i) → ∃ n, inodes fs' !! i = Some n ∧ i_owner n = Some k.
Proof.
  intros H. destruct op as [| |j|j|j|j| |]; cbn [advance] in H; try done.
  - by destruct (checkPath err fs).
  - destruct (err OpenFile); [done|]. by destruct (openLock fs fresh).
  - destruct (err ChmodLock); [done|]. by destruct (inodes fs !! j).
  - destruct (err StatLock), (lstat fs) as [[? ?]|]; try done. by destruct (_ && _).
  - destruct (err Flock); [done|]. unfold flock in H. destruct (inodes fs !! j) as [n|]; [|done].
    destruct (i_owner n); [done|]. injection H as <- <-. cbn. rewrite lookup_insert_eq. by eauto.
Qed.

Lemma owned_step (x y : FS * Openers) : any_step x y → owned x → owned y.
Proof.
  intros [[fs fs' os k err fresh op Hf Ha]|[fs os e added Hadd]] Hx k' i Hk; cbn [fst snd] in *.
  - rewrite opener_insert in Hk. destruct (decide (k = k')) as [->|Hne]; [subst op; by eapply advance_holds|].
    destruct (Hx k' i Hk) as (n & Hi & Ho). eapply (advance_others err fresh k k' i); [done|exact Ha|done| |exact Hi|exact Ho]. intros j Hj. exact (Hx k j Hj).
  - destruct (Hx k' i Hk) as (n & Hi & Ho). exists n. split; [|done]. by apply lookup_union_Some_l.
Qed.

Lemma advance_verified (err : Errors) (fresh k i : nat) (fs fs' : FS) (op : Opener) :
  advance err fresh k fs op = (fs', Verified i) → fs' = fs ∧ entry fs = Some (Direct i).
Proof.
  intros H. destruct op as [| |j|j|j|j| |]; cbn [advance] in H; try done.
  - by destruct (checkPath err fs).
  - destruct (err OpenFile); [done|]. by destruct (openLock fs fresh).
  - destruct (err ChmodLock); [done|]. by destruct (inodes fs !! j).
  - unfold lstat in H. destruct (err StatLock); [done|]. destruct (entry fs) as [[j'|]|]; [|done..].
    destruct (inodes fs !! j') as [n|]; [|done]. cbn in H. destruct (i_regular n); [|done]. cbn in H.
    case_bool_decide; [|done]. by simplify_eq.
  - destruct (err Flock); [done|]. by destruct (flock fs k j).
Qed.

Lemma advance_entry (err : Errors) (fresh k : nat) (fs fs' : FS) (op op' : Opener) (e : Entry) :
  advance err fresh k fs op = (fs', op') → entry fs = Some e → entry fs' = Some e.
Proof.
  intros H He. destruct op as [| |j|j|j|j| |]; cbn [advance] in H; try (by injection H as <- <-).
  - destruct (err OpenFile); [by injection H as <- <-|]. destruct (openLock fs fresh) as [fs1 j] eqn:E.
    injection H as <- <-. by eapply openLock_entry.
  - destruct (err ChmodLock); [by injection H as <- <-|]. by destruct (inodes fs !! j); injection H as <- <-.
  - destruct (err Flock); [by injection H as <- <-|]. unfold flock in H.
    destruct (inodes fs !! j) as [n|]; [|by injection H as <- <-]. by destruct (i_owner n); injection H as <- <-.
  - injection H as <- <-. unfold releaseLock. by destruct (inodes fs !! j).
Qed.

Lemma advance_holding (err : Errors) (fresh k i : nat) (fs fs' : FS) (op : Opener) :
  advance err fresh k fs op = (fs', Holding i) → op = Verified i.
Proof.
  intros H. destruct op as [| |j|j|j|j| |]; cbn [advance] in H; try done.
  - by destruct (checkPath err fs).
  - destruct (err OpenFile); [done|]. by destruct (openLock fs fresh).
  - destruct (err ChmodLock); [done|]. by destruct (inodes fs !! j).
  - destruct (err StatLock), (lstat fs) as [[? ?]|]; try done. by destruct (_ && _).
  - destruct (err Flock); [done|]. destruct (flock fs k j); [|done]. by injection H as _ ->.
Qed.

Lemma anchored_step (x y : FS * Openers) : lock_step x y → anchored x → anchored y.
Proof.
  intros [fs fs' os k err fresh op Hf Ha] Hx k' i Hk; cbn [fst snd] in *. rewrite opener_insert in Hk.
  destruct (decide (k = k')) as [->|Hne]; [|by eapply advance_entry, Hx].
  destruct Hk as [->| ->].
  - by apply advance_verified in Ha as [-> ?].
  - eapply advance_entry; [exact Ha|]. apply (Hx k'). left. by eapply advance_holding.
Qed.

Lemma lock_owned (x y : FS * Openers) : rtc any_step x y → owned x → owned y.
Proof. induction 1; eauto using owned_step. Qed.

Lemma lock_anchored (x y : FS * Openers) : rtc lock_step x y → anchored x → anchored y.
Proof. induction 1; eauto using anchored_step. Qed.

Lemma lock_any (x y : FS * Openers) : rtc lock_step x y → rtc any_step x y.
Proof. apply rtc_subrel. by left. Qed.

(** The lock can be taken: the path is free or names a private regular file nobody has
    locked. *)
Definition available (fs : FS) : Prop :=
  match entry fs with
  | None => True
  | Some (Direct i) => ∃ n, inodes fs !! i = Some n ∧ unixPrivate n = true ∧ i_owner n = None
  | Some (Link _) => False
  end.

(** An undisturbed opener at a file or at a free path. *)
Lemma acquire_free (fresh i me : nat) (ino : gmap nat Inode) :
  ino !! i = Some {| i_regular := true; i_private := true; i_owner := None |} →
  let n o := {| i_regular := true; i_private := true; i_owner := o |} in
  let fs := {| entry := Some (Direct i); inodes := ino |} in
  Nat.iter 3 (λ x, advance (λ _, None) fresh me x.1 x.2) (fs, Opened i) =
    ({| entry := Some (Direct i); inodes := <[i := n (Some me)]> (<[i := n None]> ino) |}, Holding i).
Proof.
  intros Hi n fs. cbn -[lookup insert]. rewrite Hi. cbn -[lookup insert]. unfold lstat. cbn -[lookup insert].
  rewrite lookup_insert_eq. cbn -[lookup insert]. rewrite bool_decide_eq_true_2 by done.
  cbn [advance]. unfold flock, set_inode. cbn [inodes]. by rewrite lookup_insert_eq.
Qed.

Lemma acquire_available (fs : FS) (fresh me : nat) :
  available fs → inodes fs !! fresh = None →
  ∃ fs' i, acquireStoreLock (λ _, None) fresh me fs = (fs', Holding i) ∧ available (releaseLock fs' i).
Proof.
  assert (Hrel : ∀ i ino o, available (releaseLock {| entry := Some (Direct i);
    inodes := <[i := {| i_regular := true; i_private := true; i_owner := o |}]> ino |} i)).
  { intros i ino o. unfold available, releaseLock. cbn -[lookup insert]. rewrite lookup_insert_eq. cbn -[lookup insert].
    rewrite lookup_insert_eq. eauto. }
  intros Hav Hfresh. unfold available in Hav. destruct fs as [[[i|]|] ino]; cbn [entry inodes] in *; [|done|].
  - destruct Hav as ([reg priv own] & Hi & Hp & Ho). unfold unixPrivate in Hp. cbn in Ho, Hp. subst own. apply andb_true_iff in Hp as [-> ->].
    set (fs := {| entry := Some (Direct i); inodes := ino |}).
    assert (E1 : advance (λ _, None) fresh me fs Idle = (fs, Checked)).
    { cbn [advance]. unfold checkPath, lstat. cbn [entry inodes fs]. by rewrite Hi. }
    assert (E2 : advance (λ _, None) fresh me fs Checked = (fs, Opened i)).
    { cbn [advance]. unfold openLock. cbn [entry inodes fs target]. by rewrite Hi. }
    eexists _, i. split; [|apply Hrel]. rewrite <- (acquire_free fresh i me ino Hi).
    unfold acquireStoreLock. cbn [Nat.iter nat_rect fst snd]. fold fs. rewrite E1. cbn [fst snd]. by rewrite E2.
  - eexists _, fresh. split; [|apply Hrel]. exact (acquire_free fresh fresh me _ (lookup_insert_eq _ _ _)).
Qed.

(** C11. One store per directory. Openers that interleave freely never hold the
    same lock file at once, even if someone replaces the file under them; if nobody does,
    at most one opener of a directory holds its lock. A lock that is free is obtained by
    an undisturbed opener, and after it has closed the lock is free again. *)
Theorem store_lock_exclusive (fs0 fs : FS) (os : Openers) :
  (rtc any_step (fs0, ∅) (fs, os) →
   ∀ k k' i, opener os k = Holding i → opener os k' = Holding i → k = k') ∧
  (rtc lock_step (fs0, ∅) (fs, os) →
   ∀ k k' i i', opener os k = Holding i → opener os k' = Holding i' → k = k') ∧
  (∀ fresh me, available fs → inodes fs !! fresh = None →
   ∃ fs' i, acquireStoreLock (λ _, None) fresh me fs = (fs', Holding i) ∧ available (releaseLock fs' i)).
Proof.
  assert (Hidle : ∀ k, opener (∅ : Openers) k = Idle) by (intros k; unfold opener; by rewrite lookup_empty).
  assert (Howned : rtc any_step (fs0, ∅) (fs, os) → owned (fs, os)).
  { intros H. eapply lock_owned; [exact H|]. intros k i Hk. cbn in Hk. by rewrite Hidle in Hk. }
  assert (Hone : rtc any_step (fs0, ∅) (fs, os) →
    ∀ k k' i, opener os k = Holding i → opener os k' = Holding i → k = k').
  { intros H k k' i Hk Hk'. destruct (Howned H k i Hk) as (n & Hn & Ho), (Howned H k' i Hk') as (n' & Hn' & Ho').
    cbn in Hn, Hn'. congruence. }
  split_and!; [exact Hone| |].
  - intros H k k' i i' Hk Hk'. assert (Hanch : anchored (fs, os)).
    { eapply lock_anchored; [exact H|]. intros j l Hj. cbn in Hj. rewrite Hidle in Hj. by destruct Hj. }
    pose proof (Hanch k i (or_intror Hk)) as E. pose proof (Hanch k' i' (or_intror Hk')) as E'. cbn in E, E'.
    assert (i' = i) as -> by congruence. by eapply (Hone (lock_any _ _ H)).
  - intros fresh me. apply acquire_available.
Qed.

(** The directory a store opens is a real directory, private afterwards. *)
Lemma ensured_private (mkdirErr lstatErr chmodErr : option error) (isDir isLink private b : bool) :
  ensurePrivateDirectory mkdirErr lstatErr chmodErr isDir isLink private = Ok b → isDir = true ∧ isLink = false ∧ b = true.
Proof.
  unfold ensurePrivateDirectory. destruct mkdirErr; [done|]. destruct (_ || _) eqn:Hg; [done|]. unbool.
  destruct private; cbn [negb]; [by intros [= <-]|]. destruct chmodErr; [done|]. by intros [= <-].
Qed.

(** * Two openers of a new directory *)

Module Sample.
Definition empty : FS := {| entry := None; inodes := ∅ |}.
Definition first : FS * Opener := acquireStoreLock (λ _, None) 0%nat 1%nat empty.

(** The second is refused while the first holds the lock. *)
Example second_refused :
  first.2 = Holding 0 ∧ (acquireStoreLock (λ _, None) 7%nat 2%nat first.1).2 = Failed "store is already open or cannot be locked".
Proof. split; vm_compute; reflexivity. Qed.
End Sample.

Lemma store_lock_exclusive_witness :
  ∃ fs i, acquireStoreLock (λ _, None) 0%nat 1%nat Sample.empty = (fs, Holding i) ∧ available (releaseLock fs i).
Proof. exact (proj2 (proj2 (store_lock_exclusive Sample.empty Sample.empty ∅)) 0%nat 1%nat I eq_refl). Defined.

End StoreLock.
