(* ===== verification/NodeStore.v ===== *)
(** The node's item store (src/node/store.go) with the file helpers it calls
    (src/node/keys.go): the in-memory indexes, the quota accounting and the
    files behind them. The store's directory is a map from entry names to files;
    every system call may fail, as told by an argument of each operation. The
    mutex makes operations atomic, so concurrent use is a sequence of steps. *)
From S2P Require Import Prelude Sha256 Encoding Protocol Files.
Local Open Scope Z_scope.

Module NodeStore.

(** * Errors and limits *)

Definition ErrNotFound : error := "item not found".
Definition ErrMailboxQuota : error := "route-tag quota exceeded".
Definition ErrStorageFull : error := "node storage capacity exceeded".
Definition ErrStoreClosed : error := "node store is closed".
Definition ErrInvalidItemID : error := "invalid item id".
Definition ErrInvalidLimits : error := "invalid store limits".

Definition MaxStoredItems : Z := 1000000.
Definition MaxItemsPerRoute : Z := 1024.
Definition PerItemAccountingOverhead : Z := 4 * 1024.
Definition MaxStoredItemEncodingBytes : Z := DefaultMaxItemBytes * 2 + 64 * 1024.

(** * Files of the store (keys.go) *)

Definition syncPrivateDirectory (io : IO) : option error := io SyncDir.

Definition temporaryPrefix : string := ".propagare-private-".

(** [name] is the base of the path. *)
Definition writePrivateAtomic (io : IO) (disk : Disk) (name : string) (data : bytes) : Disk * option error :=
  atomicWrite io (temporaryPrefix +:+ name +:+ "-") disk name data.

(** The loop of [cleanupPrivateTemporaries] over the listed entries. *)
Fixpoint cleanup_loop (io : IO) (prefix : string) (entries : list (string * File)) (disk : Disk)
    (removed : bool) : Disk * (bool + error) :=
  match entries with
  | [] => (disk, inl removed)
  | (name, file) :: entries =>
      if negb (String.prefix prefix name) then cleanup_loop io prefix entries disk removed
      else if match io (EntryInfo name) with Some _ => true | None => false end ||
              negb (f_regular file) || negb (f_private file)
           then (disk, inr "invalid abandoned private temporary file"%string)
      else match os_Remove io disk name with
           | (disk, Some e) => (disk, inr e)
           | (disk, None) => cleanup_loop io prefix entries disk true
           end
  end.

Definition cleanupPrivateTemporaries (io : IO) (disk : Disk) (targetBase : string)
  : Disk * option error :=
  match io ReadDir with
  | Some e => (disk, Some e)
  | None =>
      let prefix :=
        if bool_decide (targetBase = ""%string) then temporaryPrefix
        else (temporaryPrefix +:+ targetBase +:+ "-")%string in
      match cleanup_loop io prefix (os_ReadDir disk) disk false with
      | (disk, inr e) => (disk, Some e)
      | (disk, inl removed) => (disk, if removed then syncPrivateDirectory io else None)
      end
  end.

(** * The store *)

Record DiskStore := {
  items : gmap string StoredItem;
  charges : gmap string Z;
  byRoute : gmap string (gset string);
  routeUsed : gmap string Z;
  used : Z;        (* int64 *)
  capacity : Z;    (* int64 *)
  routeQuota : Z;  (* int64 *)
  locked : bool;   (* lockFile != nil *)
  closed : bool;
}.

Definition validItemID (itemID : string) : bool :=
  match Hex.DecodeString itemID with
  | Some decoded => blen decoded =? 32
  | None => false
  end.

(** The entry name of an item's file. *)
Definition filename (itemID : string) : string := (itemID +:+ ".json")%string.

Definition path (itemID : string) : Result string :=
  if negb (validItemID itemID) then Err ErrInvalidItemID else Ok (filename itemID).

Definition storedItemCharge (encodedBytes : Z) : Z :=
  if encodedBytes <=? 0 then 0 else encodedBytes + PerItemAccountingOverhead.

(** [len(s.byRoute[routeTag])]; a missing route reads as the empty set. *)
Definition route_ids (s : DiskStore) (routeTag : string) : gset string :=
  default ∅ (byRoute s !! routeTag).
Definition route_count (s : DiskStore) (routeTag : string) : Z :=
  Z.of_nat (size (route_ids s routeTag)).
Definition item_count (s : DiskStore) : Z := Z.of_nat (size (items s)).

Definition index (s : DiskStore) (item : StoredItem) (charge : Z) : DiskStore :=
  let id := si_ItemID item in
  let route := si_RouteTag item in
  {| items := <[id := item]> (items s);
     charges := <[id := charge]> (charges s);
     byRoute := <[route := {[id]} ∪ route_ids s route]> (byRoute s);
     routeUsed := <[route := i64 (map_get 0 (routeUsed s) route + charge)]> (routeUsed s);
     used := i64 (used s + charge);
     capacity := capacity s; routeQuota := routeQuota s; locked := locked s; closed := closed s |}.

(** The bookkeeping that [Delete] and [Sweep] do once the file is gone. *)
Definition unindex (s : DiskStore) (itemID : string) (item : StoredItem) : DiskStore :=
  let route := si_RouteTag item in
  let charge := map_get 0 (charges s) itemID in
  let byRoute' := alter (λ ids, ids ∖ {[itemID]}) route (byRoute s) in
  let routeUsed' := <[route := i64 (map_get 0 (routeUsed s) route - charge)]> (routeUsed s) in
  let empty := bool_decide (size (default ∅ (byRoute' !! route)) = 0%nat) in
  {| items := delete itemID (items s);
     charges := delete itemID (charges s);
     byRoute := if empty then delete route byRoute' else byRoute';
     routeUsed := if empty then delete route routeUsed' else routeUsed';
     used := i64 (used s - charge);
     capacity := capacity s; routeQuota := routeQuota s; locked := locked s; closed := closed s |}.

Section Operations.
Context {MO : MapOrder} {MI : Marshaler StoredItem} {DI : StrictDecoder StoredItem}.

Definition Put (io : IO) (now : Time) (disk : Disk) (s : DiskStore) (item : StoredItem)
  : Disk * DiskStore * option error :=
  if closed s then (disk, s, Some ErrStoreClosed)
  else match ValidateItem item now DefaultMaxItemBytes with
  | Some e => (disk, s, Some e)
  | None =>
  match items s !! si_ItemID item with
  | Some _ => (disk, s, None)
  | None =>
  match Marshal item with
  | Err e => (disk, s, Some e)
  | Ok encoded =>
      if MaxStoredItemEncodingBytes <? blen encoded then (disk, s, Some ErrItemTooLarge)
      else
        let charge := storedItemCharge (blen encoded) in
        if (MaxStoredItems <=? item_count s) ||
           (0 <? capacity s) && (capacity s <? i64 (used s + charge))
        then (disk, s, Some ErrStorageFull)
        else if (MaxItemsPerRoute <=? route_count s (si_RouteTag item)) ||
           (0 <? routeQuota s) &&
           (routeQuota s <? i64 (map_get 0 (routeUsed s) (si_RouteTag item) + charge))
        then (disk, s, Some ErrMailboxQuota)
        else match path (si_ItemID item) with
             | Err e => (disk, s, Some e)
             | Ok name =>
                 match writePrivateAtomic io disk name encoded with
                 | (disk, Some e) => (disk, s, Some e)
                 | (disk, None) => (disk, index s item charge, None)
                 end
             end
  end end end.

Definition Get (now : Time) (s : DiskStore) (itemID : string) : Result StoredItem :=
  if closed s then Err ErrStoreClosed
  else match items s !! itemID with
       | None => Err ErrNotFound
       | Some item => if negb (After (si_ExpiresAt item) now) then Err ErrNotFound else Ok item
       end.

(** The state of the fetch loops: ids returned, items in order, bytes. *)
Record Fetched := { seen : gset string; found : list StoredItem; totalBytes : Z }.

Definition zeroItem : StoredItem :=
  {| si_Version := 0; si_ItemID := ""; si_RouteTag := ""; si_CreatedAt := 0; si_ExpiresAt := 0;
     si_DeleteTokenHash := []; si_Payload := []; si_Work := zeroWork |}.

(** The loop over one route's ids; [true] is the [break] with [truncated] set. *)
Fixpoint fetch_ids (now : Time) (s : DiskStore) (maxItems maxBytes : Z) (ids : list string)
    (acc : Fetched) : Fetched * bool :=
  match ids with
  | [] => (acc, false)
  | itemID :: ids =>
      let item := map_get zeroItem (items s) itemID in
      if After (si_ExpiresAt item) now && negb (bool_decide (itemID ∈ seen acc)) then
        if (maxItems <=? blen (found acc)) ||
           (maxBytes <? i64 (totalBytes acc + blen (si_Payload item)))
        then (acc, true)
        else fetch_ids now s maxItems maxBytes ids
               {| seen := {[itemID]} ∪ seen acc; found := found acc ++ [item];
                  totalBytes := i64 (totalBytes acc + blen (si_Payload item)) |}
      else fetch_ids now s maxItems maxBytes ids acc
  end.

Fixpoint fetch_routes (now : Time) (s : DiskStore) (maxItems maxBytes : Z)
    (routeTags : list string) (acc : Fetched) : Fetched * bool :=
  match routeTags with
  | [] => (acc, false)
  | routeTag :: routeTags =>
      match fetch_ids now s maxItems maxBytes (range_set (route_ids s routeTag)) acc with
      | (acc, true) => (acc, true)
      | (acc, false) => fetch_routes now s maxItems maxBytes routeTags acc
      end
  end.

Definition created_le (x y : StoredItem) : Prop := si_CreatedAt x ≤ si_CreatedAt y.
#[export] Instance created_le_dec x y : Decision (created_le x y).
Proof. unfold created_le. apply _. Defined.
#[export] Instance created_le_trans : Transitive created_le.
Proof. unfold created_le. intros ???. lia. Qed.
#[export] Instance created_le_total : Total created_le.
Proof. unfold created_le. intros ??. lia. Qed.

Definition FetchLimited (now : Time) (s : DiskStore) (routeTags : list string)
    (maxItems maxBytes : Z) : list StoredItem * bool :=
  if closed s then ([], true)
  else if (blen routeTags =? 0) || (MaxRouteTagsPerFetch <? blen routeTags) ||
          (maxItems <=? 0) || (maxBytes <=? 0) then ([], true)
  else
    match fetch_routes now s maxItems maxBytes routeTags
            {| seen := ∅; found := []; totalBytes := 0 |} with
    | (acc, truncated) => (merge_sort created_le (found acc), truncated)
    end.

Definition Delete (io : IO) (disk : Disk) (s : DiskStore) (itemID : string)
  : Disk * DiskStore * option error :=
  if closed s then (disk, s, Some ErrStoreClosed)
  else match items s !! itemID with
  | None => (disk, s, Some ErrNotFound)
  | Some item =>
      match path itemID with
      | Err e => (disk, s, Some e)
      | Ok name =>
          match os_Remove io disk name with
          | (disk, e) =>
              if remove_failed e then (disk, s, e)
              else (disk, unindex s itemID item, syncPrivateDirectory io)
          end
      end
  end.

(** The loop of [Sweep] over the listed items; [inl removed] when it completes. *)
Fixpoint sweep_loop (io : IO) (now : Time) (l : list (string * StoredItem)) (disk : Disk)
    (s : DiskStore) (removed : bool) : Disk * DiskStore * (bool + error) :=
  match l with
  | [] => (disk, s, inl removed)
  | (itemID, item) :: l =>
      if After (si_ExpiresAt item) now then sweep_loop io now l disk s removed
      else match path itemID with
           | Err e => (disk, s, inr e)
           | Ok name =>
               match os_Remove io disk name with
               | (disk, e) =>
                   if remove_failed e then (disk, s, inr (default ""%string e))
                   else sweep_loop io now l disk (unindex s itemID item) true
               end
           end
  end.

Definition Sweep (io : IO) (disk : Disk) (s : DiskStore) (now : Time)
  : Disk * DiskStore * option error :=
  if closed s then (disk, s, Some ErrStoreClosed)
  else match sweep_loop io now (range_map (items s)) disk s false with
       | (disk, s, inr e) => (disk, s, Some e)
       | (disk, s, inl true) => (disk, s, syncPrivateDirectory io)
       | (disk, s, inl false) => (disk, s, None)
       end.

Definition Used (s : DiskStore) : Z := if closed s then 0 else used s.

Definition Close (io : IO) (s : DiskStore) : DiskStore * list error :=
  if closed s then (s, [])
  else
    ({| items := items s; charges := charges s; byRoute := byRoute s; routeUsed := routeUsed s;
        used := used s; capacity := capacity s; routeQuota := routeQuota s;
        locked := false; closed := true |},
     if locked s then option_list (io Unlock) ++ option_list (io CloseLock) else []).

(** * Opening *)

(** Whether a listed file is admitted to the index, and with which charge. *)
Definition load_item (now : Time) (s : DiskStore) (name : string) (data : bytes)
  : option (StoredItem * Z) :=
  match decodeStrict data with
  | Err _ => None
  | Ok item =>
      if match ValidateItem item now DefaultMaxItemBytes with Some _ => true | None => false end ||
         negb (bool_decide (name = filename (si_ItemID item))) then None
      else
        let charge := storedItemCharge (blen data) in
        if (MaxStoredItems <=? item_count s) || (capacity s <? i64 (used s + charge)) ||
           (routeQuota s <? i64 (map_get 0 (routeUsed s) (si_RouteTag item) + charge)) ||
           (MaxItemsPerRoute <=? route_count s (si_RouteTag item))
        then None
        else Some (item, charge)
  end.

(** The loading loop; [filepath.Ext(name) == ".json"] is the suffix test. Files that are not admitted are removed, best effort. *)
Fixpoint load_loop (io : IO) (now : Time) (entries : list (string * File)) (disk : Disk)
    (s : DiskStore) (removedFiles : bool) : Disk * Result (DiskStore * bool) :=
  match entries with
  | [] => (disk, Ok (s, removedFiles))
  | (name, file) :: entries =>
      if f_dir file || negb (HasSuffix name ".json")
      then load_loop io now entries disk s removedFiles
      else match io (EntryInfo name) with
      | Some e => (disk, Err e)
      | None =>
          if negb (f_regular file) || negb (f_private file) || (blen (f_data file) <=? 0) ||
             (MaxStoredItemEncodingBytes <? blen (f_data file))
          then load_loop io now entries (os_Remove io disk name).1 s true
          else match io (ReadFile name) with
          | Some e => (disk, Err e)
          | None =>
              match load_item now s name (f_data file) with
              | None => load_loop io now entries (os_Remove io disk name).1 s true
              | Some (item, charge) => load_loop io now entries disk (index s item charge) removedFiles
              end
          end
      end
  end.

Definition emptyStore (capacity routeQuota : Z) : DiskStore :=
  {| items := ∅; charges := ∅; byRoute := ∅; routeUsed := ∅; used := 0; capacity := capacity;
     routeQuota := routeQuota; locked := true; closed := false |}.

(** [EnsureDir] and [AcquireLock] stand for [ensurePrivateStoreDirectory] and
    [acquireNodeStoreLock], which prepare the directory and take its lock. *)
Definition NewDiskStore (io : IO) (now : Time) (disk : Disk) (dir : string) (capacity routeQuota : Z)
  : Disk * Result DiskStore :=
  if bool_decide (dir = ""%string) || (capacity <=? 0) || (routeQuota <=? 0) || (capacity <? routeQuota)
  then (disk, Err ErrInvalidLimits)
  else match io EnsureDir with
  | Some e => (disk, Err e)
  | None =>
  match io AcquireLock with
  | Some e => (disk, Err e)
  | None =>
  match cleanupPrivateTemporaries (inner io) disk "" with
  | (disk, Some e) => (disk, Err e)
  | (disk, None) =>
  match io ReadDir with
  | Some e => (disk, Err e)
  | None =>
      match load_loop io now (os_ReadDir disk) disk (emptyStore capacity routeQuota) false with
      | (disk, Err e) => (disk, Err e)
      | (disk, Ok (s, removedFiles)) =>
          match (if removedFiles then syncPrivateDirectory io else None) with
          | Some e => (disk, Err e)
          | None => (disk, Ok s)
          end
      end
  end end end end.

End Operations.

(** * The invariant *)

(** The largest charge an item can have. *)
Definition MaxCharge : Z := MaxStoredItemEncodingBytes + PerItemAccountingOverhead.

Definition charge_of (s : DiskStore) (id : string) : Z := map_get 0 (charges s) id.

(** What the items of a route are charged. *)
Definition route_sum (s : DiskStore) (route : string) : Z :=
  map_sum (λ id it, if bool_decide (si_RouteTag it = route) then charge_of s id else 0) (items s).

Record store_ok (s : DiskStore) : Prop := {
  ok_items id it : items s !! id = Some it →
    si_ItemID it = id ∧ validItemID id = true ∧ 0 < blen (si_Payload it) ≤ DefaultMaxItemBytes;
  ok_charges id : is_Some (charges s !! id) ↔ is_Some (items s !! id);
  ok_charge id c : charges s !! id = Some c → 0 < c ≤ MaxCharge;
  ok_route rt id : id ∈ route_ids s rt ↔ ∃ it, items s !! id = Some it ∧ si_RouteTag it = rt;
  ok_used : used s = map_sum (λ id _, charge_of s id) (items s);
  ok_routeUsed rt : map_get 0 (routeUsed s) rt = route_sum s rt;
  ok_count : item_count s ≤ MaxStoredItems;
  ok_route_count rt : route_count s rt ≤ MaxItemsPerRoute;
  ok_capacity : used s ≤ capacity s < two63;
  ok_quota rt : route_sum s rt ≤ routeQuota s;
  ok_limits : 0 < routeQuota s ≤ capacity s;
}.

Section Invariant.

Lemma charge_of_range (s : DiskStore) (id : string) (it : StoredItem) :
  store_ok s → items s !! id = Some it → 0 < charge_of s id ≤ MaxCharge.
Proof.
  intros Hok Hit. destruct (proj2 (ok_charges s Hok id)) as [c Hc]; [eauto|].
  unfold charge_of, map_get. rewrite Hc. by apply (ok_charge s Hok id).
Qed.

Lemma used_nonneg (s : DiskStore) : store_ok s → 0 ≤ used s.
Proof.
  intros Hok. rewrite (ok_used s Hok). apply map_sum_nonneg. intros id it Hit.
  pose proof (charge_of_range s id it Hok Hit). lia.
Qed.

Lemma used_bound (s : DiskStore) : store_ok s → used s ≤ MaxCharge * MaxStoredItems.
Proof.
  intros Hok. rewrite (ok_used s Hok).
  pose proof (map_sum_le_size (λ id (_ : StoredItem), charge_of s id) (items s) MaxCharge) as Hle.
  pose proof (ok_count s Hok) as Hc. unfold item_count in Hc.
  assert (0 < MaxCharge) by done.
  enough (map_sum (λ id _, charge_of s id) (items s) ≤ MaxCharge * Z.of_nat (size (items s))) by nia.
  apply Hle. intros id it Hit. by apply (charge_of_range s id it Hok Hit).
Qed.

Lemma route_sum_nonneg (s : DiskStore) (rt : string) : store_ok s → 0 ≤ route_sum s rt.
Proof.
  intros Hok. apply map_sum_nonneg. intros id it Hit. case_bool_decide; [|done].
  pose proof (charge_of_range s id it Hok Hit). lia.
Qed.

Lemma route_sum_le_used (s : DiskStore) (rt : string) : store_ok s → route_sum s rt ≤ used s.
Proof.
  intros Hok. rewrite (ok_used s Hok). apply map_sum_mono. intros id it Hit. simpl.
  pose proof (charge_of_range s id it Hok Hit). case_bool_decide; lia.
Qed.

(** Adding a charge never overflows: a million items of the largest charge stay
    far below 2^63, whatever capacity was configured. *)
Lemma used_add_small (s : DiskStore) (c : Z) :
  store_ok s → 0 ≤ c ≤ MaxCharge → i64 (used s + c) = used s + c.
Proof.
  intros Hok Hc. apply i64_small. pose proof (used_nonneg s Hok). pose proof (used_bound s Hok).
  unfold MaxCharge, MaxStoredItemEncodingBytes, PerItemAccountingOverhead, DefaultMaxItemBytes,
    MaxStoredItems in *. lia.
Qed.

Lemma route_add_small (s : DiskStore) (rt : string) (c : Z) :
  store_ok s → 0 ≤ c ≤ MaxCharge →
  i64 (map_get 0 (routeUsed s) rt + c) = route_sum s rt + c.
Proof.
  intros Hok Hc. rewrite (ok_routeUsed s Hok). apply i64_small.
  pose proof (route_sum_nonneg s rt Hok). pose proof (route_sum_le_used s rt Hok).
  pose proof (used_bound s Hok).
  unfold MaxCharge, MaxStoredItemEncodingBytes, PerItemAccountingOverhead, DefaultMaxItemBytes,
    MaxStoredItems in *. lia.
Qed.

Lemma storedItemCharge_range (n : Z) :
  0 < n ≤ MaxStoredItemEncodingBytes → 0 < storedItemCharge n ≤ MaxCharge.
Proof.
  intros Hn. unfold storedItemCharge, MaxCharge. rewrite (proj2 (Z.leb_gt _ _)) by lia.
  unfold PerItemAccountingOverhead. lia.
Qed.

Lemma charge_of_index (s : DiskStore) (it : StoredItem) (c : Z) (id : string) :
  charge_of (index s it c) id = if bool_decide (id = si_ItemID it) then c else charge_of s id.
Proof.
  unfold charge_of, map_get, index. simpl. case_bool_decide; subst.
  - by rewrite lookup_insert_eq.
  - by rewrite lookup_insert_ne.
Qed.

Lemma route_ids_index (s : DiskStore) (it : StoredItem) (c : Z) (rt : string) :
  route_ids (index s it c) rt =
  if bool_decide (rt = si_RouteTag it) then {[si_ItemID it]} ∪ route_ids s rt else route_ids s rt.
Proof.
  unfold route_ids, index. simpl. case_bool_decide; subst.
  - by rewrite lookup_insert_eq.
  - by rewrite lookup_insert_ne.
Qed.

Lemma route_sum_index (s : DiskStore) (it : StoredItem) (c : Z) (rt : string) :
  items s !! si_ItemID it = None →
  route_sum (index s it c) rt = route_sum s rt + if bool_decide (si_RouteTag it = rt) then c else 0.
Proof.
  intros Hnew. unfold route_sum. cbn [index items].
  rewrite map_sum_insert, charge_of_index, (bool_decide_eq_true_2 (si_ItemID it = si_ItemID it)) by done.
  rewrite Z.add_comm. f_equal. apply map_sum_ext. intros id it' Hit'.
  rewrite charge_of_index, (bool_decide_eq_false_2 (id = _)); [done|]. congruence.
Qed.

Lemma index_ok (s : DiskStore) (it : StoredItem) (c : Z) :
  store_ok s → items s !! si_ItemID it = None → validItemID (si_ItemID it) = true →
  0 < blen (si_Payload it) ≤ DefaultMaxItemBytes → 0 < c ≤ MaxCharge →
  item_count s < MaxStoredItems → used s + c ≤ capacity s →
  route_count s (si_RouteTag it) < MaxItemsPerRoute →
  route_sum s (si_RouteTag it) + c ≤ routeQuota s →
  store_ok (index s it c).
Proof.
  intros Hok Hnew Hid Hpay Hc Hcount Hcap Hrc Hquota.
  pose proof (used_add_small s c Hok ltac:(lia)) as Hu. split.
  - intros id it'. cbn [index items]. intros [[<- <-]|[_ Hit]]%lookup_insert_Some; [auto|].
    by apply (ok_items s Hok).
  - intros id. cbn [index items charges]. rewrite !lookup_insert_is_Some, (ok_charges s Hok). done.
  - intros id c'. cbn [index charges]. intros [[<- <-]|[_ Hc']]%lookup_insert_Some; [done|].
    by apply (ok_charge s Hok id).
  - intros rt id. rewrite route_ids_index. cbn [index items]. setoid_rewrite lookup_insert_Some.
    case_bool_decide as Ert.
    + rewrite elem_of_union, elem_of_singleton, (ok_route s Hok). subst rt. split.
      * intros [->|(it' & Hit & Hr)]; [eauto|]. exists it'. split; [|done]. right. split; [|done]. congruence.
      * intros (it' & [[<- <-]|[_ Hit]] & Hr); eauto.
    + rewrite (ok_route s Hok). split.
      * intros (it' & Hit & Hr). exists it'. split; [|done]. right. split; [|done]. congruence.
      * intros (it' & [[<- <-]|[_ Hit]] & Hr); [congruence|eauto].
  - cbn [index used items]. rewrite Hu, map_sum_insert, charge_of_index by done.
    rewrite bool_decide_eq_true_2, (ok_used s Hok), Z.add_comm by done. f_equal.
    apply map_sum_ext. intros id it' Hit'. rewrite charge_of_index, bool_decide_eq_false_2; [done|]. congruence.
  - intros rt. rewrite route_sum_index by done. unfold map_get. cbn [index routeUsed].
    destruct (decide (si_RouteTag it = rt)) as [<-|Hne].
    + rewrite lookup_insert_eq, bool_decide_eq_true_2 by done. simpl.
      apply (route_add_small s (si_RouteTag it) c Hok). lia.
    + rewrite lookup_insert_ne, bool_decide_eq_false_2, Z.add_0_r by done. apply (ok_routeUsed s Hok).
  - unfold item_count in *. cbn [index items]. rewrite map_size_insert_None by done. lia.
  - intros rt. unfold route_count in *. rewrite route_ids_index. case_bool_decide as Ert.
    + subst rt. rewrite size_union, size_singleton; [lia|].
      apply disjoint_singleton_l. rewrite (ok_route s Hok). intros (it' & Hit & _). congruence.
    + apply (ok_route_count s Hok).
  - cbn [index used capacity]. rewrite Hu. pose proof (ok_capacity s Hok). lia.
  - intros rt. rewrite route_sum_index by done. cbn [index routeQuota]. case_bool_decide as Ert.
    + subst rt. done.
    + pose proof (ok_quota s Hok rt). lia.
  - apply (ok_limits s Hok).
Qed.

Lemma route_ids_unindex (s : DiskStore) (id : string) (it : StoredItem) (rt : string) :
  route_ids (unindex s id it) rt =
  if bool_decide (rt = si_RouteTag it) then route_ids s rt ∖ {[id]} else route_ids s rt.
Proof.
  unfold route_ids, unindex. cbn [byRoute]. destruct (decide (rt = si_RouteTag it)) as [->|Ert].
  - rewrite (bool_decide_eq_true_2 (si_RouteTag it = _)) by done. case_bool_decide as He.
    + rewrite lookup_delete_eq. simpl. apply size_empty_inv, leibniz_equiv in He. rewrite <- He.
      rewrite lookup_alter_eq. destruct (byRoute s !! _); simpl; set_solver.
    + rewrite lookup_alter_eq. destruct (byRoute s !! _); simpl; set_solver.
  - rewrite (bool_decide_eq_false_2 (rt = _)) by done.
    case_bool_decide; rewrite ?lookup_delete_ne, lookup_alter_ne by congruence; done.
Qed.

Lemma charge_of_unindex (s : DiskStore) (id id' : string) (it : StoredItem) :
  id' ≠ id → charge_of (unindex s id it) id' = charge_of s id'.
Proof. intros. unfold charge_of, map_get, unindex. cbn [charges]. by rewrite lookup_delete_ne. Qed.

Lemma route_sum_unindex (s : DiskStore) (id : string) (it : StoredItem) (rt : string) :
  items s !! id = Some it →
  route_sum (unindex s id it) rt =
  route_sum s rt - if bool_decide (si_RouteTag it = rt) then charge_of s id else 0.
Proof.
  intros Hit. unfold route_sum. cbn [unindex items].
  rewrite <- (map_sum_delete (λ id it, if bool_decide (si_RouteTag it = rt) then charge_of s id else 0)
    (items s) id it Hit).
  apply map_sum_ext. intros id' it' [Hne _]%lookup_delete_Some. by rewrite charge_of_unindex by congruence.
Qed.

Lemma route_members_unindex (s : DiskStore) (id : string) (it : StoredItem) (rt id' : string) :
  store_ok s → items s !! id = Some it →
  id' ∈ route_ids (unindex s id it) rt ↔
  ∃ it', items (unindex s id it) !! id' = Some it' ∧ si_RouteTag it' = rt.
Proof.
  intros Hok Hit. rewrite route_ids_unindex. cbn [unindex items]. setoid_rewrite lookup_delete_Some.
  case_bool_decide as Ert.
  - rewrite elem_of_difference, elem_of_singleton, (ok_route s Hok). subst rt. split.
    + intros [(it' & Hit' & Hr) Hne]. exists it'. by split; [split|].
    + intros (it' & [Hne Hit'] & Hr). split; [eauto|congruence].
  - rewrite (ok_route s Hok). split.
    + intros (it' & Hit' & Hr). exists it'. split; [split|]; [|done|done]. congruence.
    + intros (it' & [_ Hit'] & Hr). eauto.
Qed.

Lemma used_unindex (s : DiskStore) (id : string) (it : StoredItem) :
  store_ok s → items s !! id = Some it → used (unindex s id it) = used s - charge_of s id.
Proof.
  intros Hok Hit. cbn [unindex used]. fold (charge_of s id). apply i64_small.
  pose proof (charge_of_range s id it Hok Hit). pose proof (used_nonneg s Hok).
  pose proof (ok_capacity s Hok).
  unfold MaxCharge, MaxStoredItemEncodingBytes, PerItemAccountingOverhead, DefaultMaxItemBytes in *. lia.
Qed.

(** When the last item of a route goes, its entry goes too, and reads as 0. *)
Lemma route_used_unindex (s : DiskStore) (id : string) (it : StoredItem) (rt : string) :
  store_ok s → items s !! id = Some it →
  map_get 0 (routeUsed (unindex s id it)) rt = route_sum (unindex s id it) rt.
Proof.
  intros Hok Hit. pose proof (charge_of_range s id it Hok Hit).
  unfold map_get. cbn [unindex routeUsed]. fold (charge_of s id).
  destruct (decide (si_RouteTag it = rt)) as [<-|Hne].
  - case_bool_decide as He.
    + rewrite lookup_delete_eq. symmetry. apply map_sum_zero. intros id' it' Hit'.
      case_bool_decide as Er; [|done]. exfalso. apply size_empty_inv in He.
      assert (Hn : id' ∈ route_ids (unindex s id it) (si_RouteTag it))
        by (apply route_members_unindex; eauto).
      rewrite route_ids_unindex, bool_decide_eq_true_2 in Hn by done. unfold route_ids in Hn.
      rewrite lookup_alter_eq in He. destruct (byRoute s !! _); simpl in *; set_solver.
    + rewrite lookup_insert_eq, route_sum_unindex, (bool_decide_eq_true_2 (si_RouteTag it = _)) by done.
      simpl. fold (map_get 0 (routeUsed s) (si_RouteTag it)). rewrite (ok_routeUsed s Hok).
      apply i64_small. pose proof (route_sum_le_used s (si_RouteTag it) Hok).
      pose proof (ok_capacity s Hok). pose proof (route_sum_nonneg s (si_RouteTag it) Hok).
      unfold MaxCharge, MaxStoredItemEncodingBytes, PerItemAccountingOverhead, DefaultMaxItemBytes in *. lia.
  - rewrite route_sum_unindex, (bool_decide_eq_false_2 (si_RouteTag it = rt)), Z.sub_0_r by done.
    rewrite <- (ok_routeUsed s Hok). unfold map_get.
    case_bool_decide; rewrite ?lookup_delete_ne, lookup_insert_ne by done; done.
Qed.

Lemma unindex_ok (s : DiskStore) (id : string) (it : StoredItem) :
  store_ok s → items s !! id = Some it → store_ok (unindex s id it).
Proof.
  intros Hok Hit. pose proof (charge_of_range s id it Hok Hit) as Hc. split.
  - intros id' it'. cbn [unindex items]. intros [_ Hit']%lookup_delete_Some. by apply (ok_items s Hok).
  - intros id'. cbn [unindex items charges]. destruct (decide (id = id')) as [<-|Hne].
    + by rewrite !lookup_delete_eq.
    + rewrite !lookup_delete_ne by done. apply (ok_charges s Hok).
  - intros id' c. cbn [unindex charges]. intros [_ Hc']%lookup_delete_Some. by apply (ok_charge s Hok id').
  - intros rt id'. by apply route_members_unindex.
  - rewrite used_unindex, (ok_used s Hok) by done. cbn [unindex items].
    rewrite <- (map_sum_delete (λ id _, charge_of s id) (items s) id it Hit).
    apply map_sum_ext. intros id' it' [Hne _]%lookup_delete_Some. by rewrite charge_of_unindex by congruence.
  - intros rt. by apply route_used_unindex.
  - unfold item_count. cbn [unindex items]. pose proof (ok_count s Hok) as Hn. unfold item_count in Hn.
    rewrite map_size_delete, Hit. lia.
  - intros rt. unfold route_count. rewrite route_ids_unindex. pose proof (ok_route_count s Hok rt) as Hn.
    unfold route_count in Hn. case_bool_decide; [|done].
    assert (size (route_ids s rt ∖ {[id]}) ≤ size (route_ids s rt))%nat; [|lia].
    apply subseteq_size. set_solver.
  - rewrite used_unindex by done. cbn [unindex capacity]. pose proof (ok_capacity s Hok). lia.
  - intros rt. rewrite route_sum_unindex by done. cbn [unindex routeQuota].
    pose proof (ok_quota s Hok rt). case_bool_decide; lia.
  - apply (ok_limits s Hok).
Qed.

End Invariant.

(** * The files behind the index *)

(** What the store relies on from [encoding/json]: an encoded item is not empty,
    and an item that validates is decoded back from its encoding. *)
Class ItemCodec `{!Marshaler StoredItem} `{!StrictDecoder StoredItem} : Prop := {
  codec_nonempty (it : StoredItem) (data : bytes) : Marshal it = Ok data → 0 < blen data;
  codec_roundtrip (it : StoredItem) (now : Time) (data : bytes) :
    ValidateItem it now DefaultMaxItemBytes = None → Marshal it = Ok data → decodeStrict data = Ok it;
}.

Section Files.
Context {MO : MapOrder} {MI : Marshaler StoredItem} {DI : StrictDecoder StoredItem}.

(** A file that a later start will read as the item. *)
Record backed (file : File) (it : StoredItem) (charge : Z) : Prop := {
  bk_kind : f_dir file = false ∧ f_regular file = true ∧ f_private file = true;
  bk_size : 0 < blen (f_data file) ≤ MaxStoredItemEncodingBytes;
  bk_data : decodeStrict (f_data file) = Ok it;
  bk_charge : charge = storedItemCharge (blen (f_data file));
}.

(** Every indexed item has its file, and passed validation when it came in. *)
Definition disk_ok (disk : Disk) (s : DiskStore) : Prop :=
  ∀ id it, items s !! id = Some it →
    (∃ file, disk !! filename id = Some file ∧ backed file it (charge_of s id)) ∧
    ∃ now, ValidateItem it now DefaultMaxItemBytes = None.

Lemma filename_inj (id id' : string) : filename id = filename id' → id = id'.
Proof.
  unfold filename. intros H. apply (f_equal str_bytes) in H.
  rewrite !str_bytes_app in H. apply app_inv_tail in H. by apply (inj str_bytes).
Qed.

Lemma ComputeItemID_valid (it : StoredItem) : validItemID (ComputeItemID it) = true.
Proof.
  unfold validItemID, ComputeItemID. by rewrite Hex_decode_encode, Sha256.Sum256_blen.
Qed.

Lemma valid_item (it : StoredItem) (now : Time) :
  ValidateItem it now DefaultMaxItemBytes = None →
  validItemID (si_ItemID it) = true ∧ 0 < blen (si_Payload it) ≤ DefaultMaxItemBytes.
Proof.
  intros [Hm Hv Hr Ht Hp Hc He Hret Hid]%ValidateItem_None. rewrite Hid. split; [apply ComputeItemID_valid|done].
Qed.

Lemma disk_ok_index (disk : Disk) (s : DiskStore) (it : StoredItem) (c : Z) (file : File) (now : Time) :
  disk_ok disk s → items s !! si_ItemID it = None →
  disk !! filename (si_ItemID it) = Some file → backed file it c →
  ValidateItem it now DefaultMaxItemBytes = None → disk_ok disk (index s it c).
Proof.
  intros Hd Hnew Hf Hb Hv id it'. cbn [index items]. rewrite charge_of_index.
  intros [[<- <-]|[Hne Hit]]%lookup_insert_Some.
  - rewrite bool_decide_eq_true_2 by done. eauto.
  - rewrite bool_decide_eq_false_2 by congruence. by apply Hd.
Qed.

Lemma disk_ok_unindex (disk : Disk) (s : DiskStore) (id : string) (it : StoredItem) :
  disk_ok disk s → disk_ok disk (unindex s id it).
Proof.
  intros Hd id' it'. cbn [unindex items]. intros [Hne Hit]%lookup_delete_Some.
  rewrite charge_of_unindex by congruence. by apply Hd.
Qed.

(** Files may change as long as those of indexed items do not. *)
Lemma disk_ok_frame (disk disk' : Disk) (s : DiskStore) :
  disk_ok disk s →
  (∀ id it, items s !! id = Some it → disk' !! filename id = disk !! filename id) →
  disk_ok disk' s.
Proof. intros Hd Heq id it Hit. rewrite (Heq id it Hit). by apply Hd. Qed.

(** * Put *)

(** What a call of [Put] did. *)
Inductive put_result (disk : Disk) (s : DiskStore) (item : StoredItem)
  : Disk → DiskStore → option error → Prop :=
| put_refused e : put_result disk s item disk s (Some e)
| put_abandoned temporary file e :
    disk !! temporary = None → String.prefix temporaryPrefix temporary = true →
    put_result disk s item (<[temporary := file]> disk) s (Some e)
| put_known it : items s !! si_ItemID item = Some it → put_result disk s item disk s None
| put_unsynced name file e :
    items s !! si_ItemID item = None → name = filename (si_ItemID item) →
    put_result disk s item (<[name := file]> disk) s (Some e)
| put_stored file c now :
    ValidateItem item now DefaultMaxItemBytes = None →
    items s !! si_ItemID item = None → backed file item c → 0 < c ≤ MaxCharge →
    item_count s < MaxStoredItems → used s + c ≤ capacity s →
    route_count s (si_RouteTag item) < MaxItemsPerRoute →
    route_sum s (si_RouteTag item) + c ≤ routeQuota s →
    put_result disk s item (<[filename (si_ItemID item) := file]> disk) (index s item c) None.

Lemma Put_result `{!ItemCodec} (io : IO) (now : Time) (disk disk' : Disk) (s s' : DiskStore)
    (item : StoredItem) (e : option error) :
  store_ok s → Put io now disk s item = (disk', s', e) → put_result disk s item disk' s' e.
Proof.
  intros Hok. unfold Put. destruct (closed s); [intros; simplify_eq; constructor|].
  destruct (ValidateItem _ _ _) eqn:Hv; [intros; simplify_eq; constructor|].
  destruct (items s !! _) eqn:Hnew; [intros; simplify_eq; by econstructor|].
  destruct (Marshal item) as [data|] eqn:Hm; [|intros; simplify_eq; constructor].
  destruct (_ <? blen data) eqn:Hlen; [intros; simplify_eq; constructor|].
  pose proof (codec_nonempty _ _ Hm) as Hpos. unbool.
  pose proof (storedItemCharge_range (blen data) ltac:(lia)) as Hc.
  rewrite used_add_small, route_add_small by (done || lia).
  destruct (_ || _)%bool eqn:Hfull; [intros; simplify_eq; constructor|].
  destruct (_ || _)%bool eqn:Hquota in |- *; [intros; simplify_eq; constructor|].
  unfold path. destruct (valid_item item now Hv) as [-> _]. cbn [negb].
  destruct (ok_limits s Hok) as [Hq Hcap]. pose proof (ok_capacity s Hok).
  apply orb_false_iff in Hfull as [Hcount Hfull], Hquota as [Hrc Hquota].
  rewrite (proj2 (Z.ltb_lt 0 _)) in Hfull by lia. rewrite (proj2 (Z.ltb_lt 0 _)) in Hquota by lia.
  cbn [andb] in *. unbool.
  destruct (writePrivateAtomic _ _ _ _) as [d [err|]] eqn:Hw;
    apply atomicWrite_cases in Hw as [[-> [? ?]]|[(tmp & file & Hf & Hp & _ & _ & -> & ? & ?)|[Hd _]]]; try done; intros; simplify_eq.
  - constructor.
  - apply put_abandoned; [done|]. by eapply prefix_trans.
  - by eapply put_unsynced.
  - eapply put_stored; try done. repeat split; try done; simpl; try lia.
    by eapply codec_roundtrip.
Qed.

Lemma put_result_ok (disk disk' : Disk) (s s' : DiskStore) (item : StoredItem) (e : option error) :
  store_ok s → disk_ok disk s → put_result disk s item disk' s' e → store_ok s' ∧ disk_ok disk' s'.
Proof.
  intros Hok Hd Hp. destruct Hp as [e|tmp file e Hf _|it Hit|name file e Hnew ->|file c now Hv Hnew Hb Hc Hn Hu Hrc Hq].
  - done.
  - split; [done|]. eapply disk_ok_frame; [done|]. intros id it Hit. apply lookup_insert_ne. intros ->.
    destruct (Hd id it Hit) as [(f & Hf' & _) _]. congruence.
  - done.
  - split; [done|]. eapply disk_ok_frame; [done|]. intros id it Hit. apply lookup_insert_ne.
    intros E%filename_inj. congruence.
  - destruct (valid_item item now Hv). split; [by apply index_ok|].
    eapply disk_ok_index; [|done|apply lookup_insert_eq|done|done].
    eapply disk_ok_frame; [done|]. intros id it Hit. apply lookup_insert_ne.
    intros E%filename_inj. congruence.
Qed.

(** * Delete and Sweep *)

Lemma Delete_cases (io : IO) (disk disk' : Disk) (s s' : DiskStore) (id : string) (e : option error) :
  Delete io disk s id = (disk', s', e) →
  (s' = s ∧ disk' = disk ∧ ∃ err, e = Some err) ∨
  ∃ it, items s !! id = Some it ∧ s' = unindex s id it ∧ e = io SyncDir ∧
    (∀ name, name ≠ filename id → disk' !! name = disk !! name) ∧
    (honest io → disk' !! filename id = None).
Proof.
  unfold Delete, path. intros H. destruct (closed s); [simplify_eq; eauto 6|].
  destruct (items s !! id) as [it|]; [|simplify_eq; eauto 6].
  destruct (negb _); [simplify_eq; eauto 6|].
  destruct (os_Remove io disk (filename id)) as [d err] eqn:Hr.
  destruct (remove_failed err) eqn:Hf; simplify_eq.
  - left. split; [done|]. by eapply os_Remove_failed.
  - right. exists it. split_and!; try done.
    + intros name Hne. by eapply os_Remove_lookup.
    + intros. by eapply os_Remove_gone.
Qed.

Lemma unindex_remove_ok (disk disk' : Disk) (s : DiskStore) (id : string) (it : StoredItem) :
  store_ok s → disk_ok disk s → items s !! id = Some it →
  (∀ name, name ≠ filename id → disk' !! name = disk !! name) →
  store_ok (unindex s id it) ∧ disk_ok disk' (unindex s id it).
Proof.
  intros Hok Hd Hit Hframe. split; [by apply unindex_ok|].
  eapply disk_ok_frame; [by apply disk_ok_unindex|]. cbn [unindex items].
  intros id' it' [Hne _]%lookup_delete_Some. apply Hframe. intros E%filename_inj. congruence.
Qed.

Lemma Delete_ok (io : IO) (disk disk' : Disk) (s s' : DiskStore) (id : string) (e : option error) :
  store_ok s → disk_ok disk s → Delete io disk s id = (disk', s', e) → store_ok s' ∧ disk_ok disk' s'.
Proof.
  intros Hok Hd [(-> & -> & _)|(it & Hit & -> & _ & Hframe & _)]%Delete_cases; [done|].
  by apply (unindex_remove_ok disk).
Qed.

(** The loop over a listing [l] of the items: on completion exactly the expired
    ones of [l] are gone; on an error, some of them. *)
Lemma sweep_loop_ok (io : IO) (now : Time) (l : list (string * StoredItem)) (disk disk' : Disk)
    (s s' : DiskStore) (removed : bool) (r : bool + error) :
  store_ok s → disk_ok disk s → NoDup l.*1 → (∀ id it, (id, it) ∈ l → items s !! id = Some it) →
  sweep_loop io now l disk s removed = (disk', s', r) →
  store_ok s' ∧ disk_ok disk' s' ∧ closed s' = closed s ∧
  (∀ id it, items s' !! id = Some it → items s !! id = Some it) ∧
  (∀ id it, items s !! id = Some it → items s' !! id = None → si_ExpiresAt it ≤ now) ∧
  (∀ b, r = inl b → ∀ id it, (id, it) ∈ l → items s' !! id = Some it → now < si_ExpiresAt it).
Proof.
  revert disk s removed. induction l as [|[id it] l IH]; intros disk s removed Hok Hd Hnd Hl Hs; simpl in Hs.
  { simplify_eq. split_and!; try done; [congruence|]. intros b _ id it Hin. by apply elem_of_nil in Hin. }
  apply list.NoDup_cons in Hnd as [Hfresh Hnd].
  assert (Hit : items s !! id = Some it) by (apply Hl, list_elem_of_here).
  unfold After in Hs. destruct (now <? si_ExpiresAt it) eqn:Hexp; unbool.
  { apply IH in Hs as (? & ? & ? & ? & ? & Hlive); [|done..|].
    - split_and!; try done. intros b Hb id' it' [[= -> ->]|Hin]%elem_of_cons; [done|]. by eapply Hlive.
    - intros. by apply Hl, list_elem_of_further. }
  unfold path in Hs. destruct (ok_items s Hok id it Hit) as (_ & Hv & _). rewrite Hv in Hs. cbn [negb] in Hs.
  destruct (os_Remove io disk (filename id)) as [d err] eqn:Hr. destruct (remove_failed err) eqn:Hf.
  { apply os_Remove_failed in Hr as [-> _]; [|done]. simplify_eq. split_and!; try done; congruence. }
  destruct (unindex_remove_ok disk d s id it) as [Hok' Hd']; [done..| |].
  { intros name Hne. by eapply os_Remove_lookup. }
  apply IH in Hs as (? & ? & ? & Hsub & Hgone & Hlive); [|done..|].
  - split_and!; try done.
    + intros id' it' H'. apply Hsub in H'. cbn [unindex items] in H'. by apply lookup_delete_Some in H' as [_ ?].
    + intros id' it' H' Hn. destruct (decide (id = id')) as [<-|Hne]; [congruence|].
      apply (Hgone id'); [|done]. cbn [unindex items]. by rewrite lookup_delete_ne.
    + intros b Hb id' it' [[= -> ->]|Hin]%elem_of_cons H'; [|by eapply Hlive].
      apply Hsub in H'. cbn [unindex items] in H'. by rewrite lookup_delete_eq in H'.
  - intros id' it' Hin. cbn [unindex items]. rewrite lookup_delete_ne; [by apply Hl, list_elem_of_further|].
    intros ->. apply Hfresh, list_elem_of_fmap. by exists (id', it').
Qed.

Lemma Sweep_cases (io : IO) (now : Time) (disk disk' : Disk) (s s' : DiskStore) (e : option error) :
  store_ok s → disk_ok disk s → Sweep io disk s now = (disk', s', e) →
  store_ok s' ∧ disk_ok disk' s' ∧ closed s' = closed s ∧
  (∀ id it, items s' !! id = Some it → items s !! id = Some it) ∧
  (∀ id it, items s !! id = Some it → items s' !! id = None → si_ExpiresAt it ≤ now) ∧
  (closed s = false → e = None → ∀ id it, items s' !! id = Some it → now < si_ExpiresAt it).
Proof.
  intros Hok Hd. unfold Sweep. destruct (closed s) eqn:Hc; [intros; simplify_eq; split_and!; try done; congruence|].
  destruct (sweep_loop _ _ _ _ _ _) as [[d t] r] eqn:Hl.
  apply sweep_loop_ok in Hl as (? & ? & Hc' & Hsub & Hgone & Hlive); [|done|done|apply range_map_keys|
    intros ? ?; apply range_map_elem].
  destruct r as [[]|err]; intros; simplify_eq; split_and!; try done; try congruence.
  - intros _ _ id it Hit. eapply Hlive; [done| |done]. apply range_map_elem. by apply Hsub.
  - intros _ _ id it Hit. eapply Hlive; [done| |done]. apply range_map_elem. by apply Hsub.
Qed.

(** * Opening *)

Lemma admit_Some (now : Time) (s : DiskStore) (name : string) (data : bytes) (it : StoredItem) (c : Z) :
  store_ok s → 0 < blen data ≤ MaxStoredItemEncodingBytes → load_item now s name data = Some (it, c) →
  decodeStrict data = Ok it ∧ ValidateItem it now DefaultMaxItemBytes = None ∧
  name = filename (si_ItemID it) ∧ c = storedItemCharge (blen data) ∧
  item_count s < MaxStoredItems ∧ used s + c ≤ capacity s ∧
  route_sum s (si_RouteTag it) + c ≤ routeQuota s ∧ route_count s (si_RouteTag it) < MaxItemsPerRoute.
Proof.
  intros Hok Hlen. unfold load_item. destruct (decodeStrict data) as [it'|]; [|done].
  pose proof (storedItemCharge_range _ Hlen).
  rewrite used_add_small, route_add_small by (done || lia).
  destruct (ValidateItem _ _ _) eqn:Hv; [done|]. intros Ha. repeat step_if Ha. unbool. simplify_eq.
  split_and!; try done; lia.
Qed.

Lemma load_loop_ok (io : IO) (now : Time) (entries : list (string * File)) (disk disk' : Disk)
    (s s' : DiskStore) (removed removed' : bool) :
  store_ok s → disk_ok disk s → NoDup entries.*1 →
  (∀ name file, (name, file) ∈ entries → disk !! name = Some file) →
  (∀ id it, items s !! id = Some it → filename id ∉ entries.*1) →
  load_loop io now entries disk s removed = (disk', Ok (s', removed')) →
  store_ok s' ∧ disk_ok disk' s'.
Proof.
  revert disk s removed. induction entries as [|[name file] entries IH];
    intros disk s removed Hok Hd Hnd Hentries Hfresh Hl; simpl in Hl; [by simplify_eq|].
  apply list.NoDup_cons in Hnd as [Hname Hnd]. simpl in Hname.
  assert (Hfile : disk !! name = Some file) by (apply Hentries, list_elem_of_here).
  assert (Hrest : ∀ id it, items s !! id = Some it → (filename id ∉ entries.*1) ∧ filename id ≠ name).
  { intros id it Hit. specialize (Hfresh id it Hit). rewrite fmap_cons, not_elem_of_cons in Hfresh. tauto. }
  assert (Htail : ∀ n f, (n, f) ∈ entries → disk !! n = Some f).
  { intros. by apply Hentries, list_elem_of_further. }
  assert (Hremoved : ∀ r, load_loop io now entries (os_Remove io disk name).1 s r = (disk', Ok (s', removed')) →
    store_ok s' ∧ disk_ok disk' s').
  { intros r Hr. destruct (os_Remove io disk name) as [d e] eqn:Ho. simpl in Hr.
    apply IH in Hr; [done|done| |done| |].
    - eapply disk_ok_frame; [done|]. intros id it Hit. eapply os_Remove_lookup; [done|].
      apply not_eq_sym. by apply (Hrest id it).
    - intros n f Hin. rewrite <- (Htail n f Hin). eapply os_Remove_lookup; [done|]. intros ->.
      apply Hname, list_elem_of_fmap. by exists (n, f).
    - intros id it Hit. by apply (Hrest id it). }
  destruct (_ || _)%bool eqn:Hdir in Hl; [eapply IH; try done; intros id it Hit; by apply (Hrest id it)|].
  destruct (io (EntryInfo name)); [done|].
  destruct (_ || _)%bool eqn:Hkind in Hl; [by eapply Hremoved|]. unbool.
  destruct (io (ReadFile name)); [done|].
  destruct (load_item _ _ _ _) as [[it c]|] eqn:Ha; [|by eapply Hremoved].
  apply admit_Some in Ha as (Hdec & Hv & -> & -> & Hn & Hu & Hq & Hrc); [|done|lia].
  pose proof (storedItemCharge_range (blen (f_data file)) ltac:(lia)).
  destruct (valid_item it now Hv) as [Hid Hpay].
  assert (Hnew : items s !! si_ItemID it = None).
  { destruct (items s !! si_ItemID it) as [it'|] eqn:Hit; [|done].
    apply Hrest in Hit. by destruct Hit as [_ ?]. }
  eapply IH; [by apply index_ok| |done|done| |done].
  - by eapply disk_ok_index.
  - intros id it'. cbn [index items]. intros [[<- <-]|[_ Hit]]%lookup_insert_Some; [done|].
    by apply (Hrest id it').
Qed.

Lemma emptyStore_ok (capacity routeQuota : Z) :
  0 < routeQuota ≤ capacity → capacity < two63 → store_ok (emptyStore capacity routeQuota).
Proof.
  intros Hq Hc.
  assert (Hids : ∀ rt, route_ids (emptyStore capacity routeQuota) rt = ∅)
    by (intros; unfold route_ids; simpl; by rewrite lookup_empty).
  assert (Hsum : ∀ rt, route_sum (emptyStore capacity routeQuota) rt = 0)
    by (intros; unfold route_sum; simpl; apply map_sum_empty).
  split; simpl; try done.
  - intros id. by rewrite !lookup_empty.
  - intros rt id. rewrite Hids. split; [set_solver|]. by intros (it & ? & _).
  - lia.
  - intros rt. rewrite Hsum. lia.
Qed.

Lemma NewDiskStore_ok (io : IO) (now : Time) (disk disk' : Disk) (dir : string)
    (capacity routeQuota : Z) (s : DiskStore) :
  capacity < two63 → NewDiskStore io now disk dir capacity routeQuota = (disk', Ok s) →
  store_ok s ∧ disk_ok disk' s.
Proof.
  intros Hcap. unfold NewDiskStore. destruct (_ || _)%bool eqn:Hl; [done|]. unbool.
  destruct (io EnsureDir); [done|]. destruct (io AcquireLock); [done|].
  destruct (cleanupPrivateTemporaries (inner io) disk "") as [d [e|]]; [done|].
  destruct (io ReadDir); [done|].
  destruct (load_loop _ _ _ _ _ _) as [d' [[s' removed]|e]] eqn:Hload; [|done].
  destruct (if removed then _ else _); [done|]. intros; simplify_eq.
  eapply load_loop_ok in Hload; [done|by apply emptyStore_ok; lia| | | |].
  - by intros id it ?.
  - apply ReadDir_keys.
  - intros n f. apply ReadDir_elem.
  - by intros id it ?.
Qed.

(** * Runs *)

(** One call of a state-changing operation, with whatever system errors. *)
Inductive step : Disk * DiskStore → Disk * DiskStore → Prop :=
| step_put io now disk s item disk' s' e :
    Put io now disk s item = (disk', s', e) → step (disk, s) (disk', s')
| step_delete io disk s id disk' s' e :
    Delete io disk s id = (disk', s', e) → step (disk, s) (disk', s')
| step_sweep io now disk s disk' s' e :
    Sweep io disk s now = (disk', s', e) → step (disk, s) (disk', s')
| step_close io disk s s' errs :
    Close io s = (s', errs) → step (disk, s) (disk, s').

Lemma Close_ok (io : IO) (disk : Disk) (s s' : DiskStore) (errs : list error) :
  store_ok s → disk_ok disk s → Close io s = (s', errs) → store_ok s' ∧ disk_ok disk s'.
Proof.
  unfold Close. intros Hok Hd H. destruct (closed s); simplify_eq; [done|].
  split; [|exact Hd]. destruct Hok. by split.
Qed.

Lemma step_ok `{!ItemCodec} (x y : Disk * DiskStore) :
  step x y → store_ok x.2 → disk_ok x.1 x.2 → store_ok y.2 ∧ disk_ok y.1 y.2.
Proof.
  intros Hst Hok Hd. destruct Hst as [? ? ? ? ? ? ? ? Hop|? ? ? ? ? ? ? Hop|? ? ? ? ? ? ? Hop|? ? ? ? ? Hop]; simpl in *.
  - apply Put_result in Hop; [|done]. by eapply put_result_ok.
  - by eapply Delete_ok.
  - by apply Sweep_cases in Hop as (? & ? & _).
  - by eapply Close_ok.
Qed.

Lemma store_steps_ok `{!ItemCodec} (x y : Disk * DiskStore) :
  rtc step x y → store_ok x.2 → disk_ok x.1 x.2 → store_ok y.2 ∧ disk_ok y.1 y.2.
Proof.
  induction 1 as [x|x y z Hxy _ IH]; [done|]. intros Hok Hd.
  destruct (step_ok x y Hxy Hok Hd). by apply IH.
Qed.

(** C4. The node store's accounting is exact at every moment: after opening and any
    sequence of operations, with any I/O errors, the bytes charged in total and
    per route are the sums over the stored items, within capacity, route quota,
    item count and per-route count; every indexed item has a readable file under
    its own name; and no int64 sum wraps, since 10^6 items of the largest charge
    stay below 2^63. *)
Theorem store_invariant `{!ItemCodec} (io : IO) (now : Time) (disk0 disk1 disk : Disk) (dir : string)
    (capacity0 quota0 : Z) (s0 s : DiskStore) :
  capacity0 < two63 →
  NewDiskStore io now disk0 dir capacity0 quota0 = (disk1, Ok s0) → rtc step (disk1, s0) (disk, s) →
  store_ok s ∧ disk_ok disk s ∧ 0 ≤ used s ≤ Z.min (capacity s) (MaxCharge * MaxStoredItems).
Proof.
  intros Hcap Hnew Hrun. apply NewDiskStore_ok in Hnew as [Hok0 Hd0]; [|done].
  destruct (store_steps_ok _ _ Hrun Hok0 Hd0) as [Hok Hd]. simpl in *. split_and!; [done|done|by apply used_nonneg|].
  pose proof (ok_capacity s Hok). pose proof (used_bound s Hok). lia.
Qed.

(** A stored item can be read back: after Put returns without error, Get
    returns an item with that identifier until it expires, and nothing else in
    the store has changed; when Put reports an error the store is unchanged. *)
Theorem Put_Get `{!ItemCodec} (io : IO) (now now' : Time) (disk disk' : Disk) (s s' : DiskStore)
    (item : StoredItem) (e : option error) :
  store_ok s → Put io now disk s item = (disk', s', e) →
  (∀ err, e = Some err → s' = s) ∧
  (∀ id, id ≠ si_ItemID item → Get now' s' id = Get now' s id) ∧
  (e = None → ∃ stored, items s' !! si_ItemID item = Some stored ∧ si_ItemID stored = si_ItemID item ∧
     (items s !! si_ItemID item = None → stored = item) ∧
     (now' < si_ExpiresAt stored → Get now' s' (si_ItemID item) = Ok stored)).
Proof.
  intros Hok Hput. assert (Hopen : e = None → closed s = false).
  { intros ->. unfold Put in Hput. by destruct (closed s). }
  apply Put_result in Hput; [|done].
  assert (HGet : ∀ s it, closed s = false → items s !! si_ItemID item = Some it → now' < si_ExpiresAt it →
    Get now' s (si_ItemID item) = Ok it).
  { intros t it Hc Hit Hlt. unfold Get, After. rewrite Hc, Hit, (proj2 (Z.ltb_lt _ _)) by done. done. }
  destruct Hput as [err|tmp file err Hf Hp|it Hit|name file err Hnew ->|file c t Hv Hnew Hb Hc Hn Hu Hrc Hq].
  - split_and!; try done.
  - split_and!; try done.
  - split_and!; try done. intros _. exists it. destruct (ok_items s Hok _ _ Hit) as [Hid _].
    split_and!; try done; [congruence|]. intros. by apply HGet; auto.
  - split_and!; try done.
  - split_and!; [done| |].
    + intros id Hne. unfold Get. cbn [index items closed]. by rewrite lookup_insert_ne.
    + intros _. exists item. cbn [index items]. rewrite lookup_insert_eq. split_and!; try done.
      intros. apply HGet; [|apply lookup_insert_eq|done]. cbn [index closed]. by apply Hopen.
Qed.

End Files.

(** * Fetch *)

Section Fetch.
Context {MO : MapOrder}.

(** The items a fetch is about: stored under one of the routes and not expired. *)
Definition live (now : Time) (s : DiskStore) (routeTags : list string) : gmap string StoredItem :=
  filter (λ p, si_RouteTag p.2 ∈ routeTags ∧ now < si_ExpiresAt p.2) (items s).

Definition payload_bytes (l : list StoredItem) : Z :=
  foldr (λ it acc, blen (si_Payload it) + acc) 0 l.

Lemma live_lookup (now : Time) (s : DiskStore) (routeTags : list string) (id : string) (it : StoredItem) :
  live now s routeTags !! id = Some it ↔
  items s !! id = Some it ∧ si_RouteTag it ∈ routeTags ∧ now < si_ExpiresAt it.
Proof. unfold live. by rewrite map_lookup_filter_Some. Qed.

(** Distinct entries of a map weigh at most the whole map. *)
Lemma pairs_bound (W : gmap string StoredItem) (L : list (string * StoredItem)) :
  NoDup L.*1 → (∀ id it, (id, it) ∈ L → W !! id = Some it) →
  blen L ≤ Z.of_nat (size W) ∧
  payload_bytes L.*2 ≤ map_sum (λ _ it, blen (si_Payload it)) W.
Proof.
  revert W. induction L as [|[id it] L IH]; intros W Hnd HL.
  { split; [unfold blen; simpl; lia|]. apply map_sum_nonneg. auto with go. }
  apply list.NoDup_cons in Hnd as [Hid Hnd].
  pose proof (HL id it (list_elem_of_here _ _)) as Hit.
  destruct (IH (delete id W)) as [Hn Hs]; [done| |].
  - intros id' it' Hin. rewrite lookup_delete_ne; [by apply HL, list_elem_of_further|].
    intros ->. apply Hid, list_elem_of_fmap. by exists (id', it').
  - rewrite (map_sum_delete _ W id it Hit) in Hs. rewrite map_size_delete, Hit in Hn.
    rewrite blen_cons. cbn [fmap list_fmap payload_bytes foldr snd]. fold (payload_bytes L.*2). split; [|lia].
    assert (size W ≠ 0%nat); [|lia]. intros E%map_size_empty_inv. by rewrite E, lookup_empty in Hit.
Qed.

(** The accumulator holds distinct live items within the limits. *)
Record acc_ok (W : gmap string StoredItem) (maxItems maxBytes : Z) (acc : Fetched)
    (L : list (string * StoredItem)) : Prop := {
  ao_found : found acc = L.*2;
  ao_seen : seen acc = list_to_set L.*1;
  ao_nodup : NoDup L.*1;
  ao_live id it : (id, it) ∈ L → W !! id = Some it;
  ao_total : totalBytes acc = payload_bytes L.*2;
  ao_items : blen L ≤ maxItems;
  ao_bytes : totalBytes acc ≤ maxBytes;
}.

Lemma payload_bytes_app (l k : list StoredItem) :
  payload_bytes (l ++ k) = payload_bytes l + payload_bytes k.
Proof. induction l as [|it l IH]; simpl; [done|]. unfold payload_bytes in *. simpl. lia. Qed.

Lemma payload_pairs (L : list (string * StoredItem)) :
  foldr (λ p acc, blen (si_Payload p.2) + acc) 0 L = payload_bytes L.*2.
Proof. induction L as [|[id it] L IH]; [done|]. unfold payload_bytes in *. csimpl. lia. Qed.

Lemma payload_bytes_nonneg (l : list StoredItem) : 0 ≤ payload_bytes l.
Proof. induction l as [|it l IH]; simpl; [done|]. pose proof (blen_nonneg (si_Payload it)). lia. Qed.

Lemma acc_ok_add (W : gmap string StoredItem) (maxItems maxBytes : Z) (acc : Fetched)
    (L : list (string * StoredItem)) (id : string) (it : StoredItem) :
  acc_ok W maxItems maxBytes acc L → W !! id = Some it → id ∉ seen acc →
  blen (found acc) < maxItems → totalBytes acc + blen (si_Payload it) ≤ maxBytes →
  acc_ok W maxItems maxBytes
    {| seen := {[id]} ∪ seen acc; found := found acc ++ [it];
       totalBytes := totalBytes acc + blen (si_Payload it) |} (L ++ [(id, it)]).
Proof.
  intros [Hf Hs Hnd HL Ht Hi Hb] Hit Hns Hc Hsz.
  rewrite Hs in Hns. apply not_elem_of_list_to_set in Hns.
  assert (Hlen : blen (found acc) = blen L) by (rewrite Hf; unfold blen; by rewrite length_fmap).
  split; simpl; rewrite ?fmap_app; simpl.
  - by rewrite Hf.
  - rewrite Hs, list_to_set_app_L. simpl. set_solver.
  - apply list.NoDup_app. split_and!; [done| |apply NoDup_singleton].
    intros x Hx ->%list_elem_of_singleton. done.
  - intros id' it' [Hin|Hin]%elem_of_app; [by apply HL|]. apply list_elem_of_singleton in Hin. by simplify_eq.
  - rewrite payload_bytes_app. simpl. lia.
  - rewrite blen_app. unfold blen at 2. simpl. lia.
  - done.
Qed.

Context (now : Time) (s : DiskStore) (routeTags : list string) (maxItems maxBytes : Z).
Hypothesis Hok : store_ok s.
Hypothesis Hmax : maxBytes < two63 - DefaultMaxItemBytes.
Let W := live now s routeTags.

Lemma fetch_ids_spec (ids : list string) (acc acc' : Fetched) (L : list (string * StoredItem)) (b : bool) :
  (∀ id, id ∈ ids → ∃ it, items s !! id = Some it ∧ si_RouteTag it ∈ routeTags) →
  acc_ok W maxItems maxBytes acc L → fetch_ids now s maxItems maxBytes ids acc = (acc', b) →
  ∃ L', acc_ok W maxItems maxBytes acc' L' ∧ seen acc ⊆ seen acc' ∧
    (b = false → ∀ id it, id ∈ ids → W !! id = Some it → id ∈ seen acc') ∧
    (b = true → ∃ id it, W !! id = Some it ∧ (id ∉ seen acc') ∧
       (maxItems ≤ blen (found acc') ∨ maxBytes < totalBytes acc' + blen (si_Payload it))).
Proof.
  revert acc L. induction ids as [|id ids IH]; intros acc L Hids Hacc Hf; simpl in Hf.
  { simplify_eq. exists L. split_and!; try done. intros _ id it Hin. by apply elem_of_nil in Hin. }
  destruct (Hids id) as (it & Hit & Hrt); [apply list_elem_of_here|].
  unfold map_get in Hf. rewrite Hit in Hf. simpl in Hf. unfold After in Hf.
  assert (Hids' : ∀ id', id' ∈ ids → ∃ it', items s !! id' = Some it' ∧ si_RouteTag it' ∈ routeTags)
    by (intros; by apply Hids, list_elem_of_further).
  assert (Hskip : (W !! id = None ∨ id ∈ seen acc) → fetch_ids now s maxItems maxBytes ids acc = (acc', b) →
    ∃ L', acc_ok W maxItems maxBytes acc' L' ∧ seen acc ⊆ seen acc' ∧
    (b = false → ∀ id' it', id' ∈ id :: ids → W !! id' = Some it' → id' ∈ seen acc') ∧
    (b = true → ∃ id it, W !! id = Some it ∧ (id ∉ seen acc') ∧
       (maxItems ≤ blen (found acc') ∨ maxBytes < totalBytes acc' + blen (si_Payload it)))).
  { intros Hw Hr. destruct (IH acc L) as (L' & H1 & H2 & H3 & H4); [done..|]. exists L'. split_and!; try done.
    intros Hb id' it' [->|Hin]%elem_of_cons HW; [|by eapply H3].
    destruct Hw as [Hw|Hw]; [congruence|by apply H2]. }
  destruct (now <? si_ExpiresAt it) eqn:Hexp; unbool.
  2:{ apply Hskip; [|done]. left. apply eq_None_not_Some. intros (it' & HW).
      unfold W in HW. apply live_lookup in HW as (? & _ & ?). simplify_eq. lia. }
  case_bool_decide as Hseen; [by apply Hskip; [right|]|]. cbn [andb negb] in Hf.
  assert (HW : W !! id = Some it) by (by apply live_lookup).
  destruct (ok_items s Hok id it Hit) as (_ & _ & Hp).
  pose proof (ao_total _ _ _ _ _ Hacc) as Ht. pose proof (payload_bytes_nonneg L.*2).
  pose proof (ao_bytes _ _ _ _ _ Hacc). rewrite i64_small in Hf by (unfold DefaultMaxItemBytes in *; lia).
  destruct (_ || _)%bool eqn:Hfull in Hf.
  { simplify_eq. exists L. split_and!; try done. intros _. exists id, it. split_and!; try done.
    apply orb_true_iff in Hfull as [E|E]; unbool; [by left|by right]. }
  unbool. destruct (IH _ _ Hids' (acc_ok_add _ _ _ _ _ id it Hacc HW Hseen ltac:(lia) ltac:(lia)) Hf)
    as (L' & G1 & G2 & G3 & G4). simpl in G2. exists L'. split_and!; try done; [set_solver|].
  intros Hb id' it' [->|Hin]%elem_of_cons HW'; [set_solver|by eapply G3].
Qed.

Lemma fetch_routes_spec (rts : list string) (acc acc' : Fetched) (L : list (string * StoredItem)) (b : bool) :
  rts ⊆ routeTags →
  acc_ok W maxItems maxBytes acc L → fetch_routes now s maxItems maxBytes rts acc = (acc', b) →
  ∃ L', acc_ok W maxItems maxBytes acc' L' ∧ seen acc ⊆ seen acc' ∧
    (b = false → ∀ id it, W !! id = Some it → si_RouteTag it ∈ rts → id ∈ seen acc') ∧
    (b = true → ∃ id it, W !! id = Some it ∧ (id ∉ seen acc') ∧
       (maxItems ≤ blen (found acc') ∨ maxBytes < totalBytes acc' + blen (si_Payload it))).
Proof.
  revert acc L. induction rts as [|rt rts IH]; intros acc L Hsub Hacc Hf; simpl in Hf.
  { simplify_eq. exists L. split_and!; try done. intros _ id it _ Hin. by apply elem_of_nil in Hin. }
  destruct (fetch_ids _ _ _ _ _ _) as [a c] eqn:Hids.
  eapply fetch_ids_spec in Hids as (L1 & Hacc1 & Hsub1 & Hall & Hfull); [|..|done].
  2:{ intros id Hin. rewrite (range_set_perm (route_ids s rt)), elem_of_elements in Hin.
      apply (ok_route s Hok) in Hin as (it & ? & <-). exists it. split; [done|]. apply Hsub, list_elem_of_here. }
  destruct c; [simplify_eq; eexists; split_and!; eauto; done|].
  eapply IH in Hf as (L2 & Hacc2 & Hsub2 & Hall2 & Hfull2); [|set_solver|done].
  exists L2. split_and!; try done; [set_solver|].
  intros Hb id it HW [<-|Hin]%elem_of_cons; [|by eapply Hall2].
  apply Hsub2, (Hall eq_refl id it); [|done]. rewrite (range_set_perm (route_ids s _)), elem_of_elements.
  apply (ok_route s Hok). unfold W in HW. apply live_lookup in HW as [? _]. eauto.
Qed.

(** When everything live has been seen, the accumulator is the whole map. *)
Lemma acc_ok_all (acc : Fetched) (L : list (string * StoredItem)) :
  acc_ok W maxItems maxBytes acc L → (∀ id it, W !! id = Some it → id ∈ seen acc) →
  L ≡ₚ map_to_list W.
Proof.
  intros [Hf Hs Hnd HL Ht Hi Hb] Hall. apply NoDup_Permutation.
  - by eapply NoDup_fmap_1.
  - apply NoDup_map_to_list.
  - intros [id it]. rewrite elem_of_map_to_list. split; [by apply HL|]. intros HW.
    pose proof (Hall id it HW) as Hin. rewrite Hs in Hin.
    apply elem_of_list_to_set, list_elem_of_fmap in Hin as ([id' it'] & -> & Hin). simpl in *.
    apply HL in Hin as HW'. simplify_eq. done.
Qed.

(** A refusal for lack of room is never spurious. *)
Lemma acc_ok_full (acc : Fetched) (L : list (string * StoredItem)) (id : string) (it : StoredItem) :
  acc_ok W maxItems maxBytes acc L → W !! id = Some it → id ∉ seen acc →
  maxItems ≤ blen (found acc) ∨ maxBytes < totalBytes acc + blen (si_Payload it) →
  maxItems < Z.of_nat (size W) ∨ maxBytes < map_sum (λ _ it, blen (si_Payload it)) W.
Proof.
  intros [Hf Hs Hnd HL Ht Hi Hb] HW Hns Hfull. rewrite Hs in Hns. apply not_elem_of_list_to_set in Hns.
  destruct (pairs_bound W ((id, it) :: L)) as [Hn Hsum].
  - by apply list.NoDup_cons.
  - intros id' it' [[= -> ->]|Hin]%elem_of_cons; [done|by apply HL].
  - rewrite blen_cons in Hn. unfold payload_bytes in Hsum. cbn in Hsum. fold (payload_bytes L.*2) in Hsum.
    assert (blen (found acc) = blen L) by (rewrite Hf; unfold blen; by rewrite length_fmap). lia.
Qed.

Lemma FetchLimited_spec (res : list StoredItem) (truncated : bool) :
  closed s = false → 0 < blen routeTags ≤ MaxRouteTagsPerFetch → 0 < maxItems → 0 < maxBytes →
  FetchLimited now s routeTags maxItems maxBytes = (res, truncated) →
  (truncated = false ↔
     Z.of_nat (size W) ≤ maxItems ∧ map_sum (λ _ it, blen (si_Payload it)) W ≤ maxBytes) ∧
  (truncated = false → res ≡ₚ (map_to_list W).*2) ∧ StronglySorted created_le res ∧
  blen res ≤ maxItems ∧ payload_bytes res ≤ maxBytes.
Proof.
  intros Hc Hr Hi Hb. unfold FetchLimited. rewrite Hc.
  rewrite (proj2 (Z.eqb_neq _ _)), (proj2 (Z.ltb_ge _ _)), !(proj2 (Z.leb_gt _ _)) by lia. cbn [orb].
  destruct (fetch_routes _ _ _ _ _ _) as [acc b] eqn:Hf. intros; simplify_eq.
  eapply (fetch_routes_spec routeTags _ acc [] truncated) in Hf as (L & Hacc & _ & Hall & Hfull); [|done|].
  2:{ split; simpl; try done; unfold blen; simpl; try lia; [apply NoDup_nil_2|]. intros id it Hin. by apply elem_of_nil in Hin. }
  assert (Hperm : merge_sort created_le (found acc) ≡ₚ L.*2)
    by (rewrite merge_sort_Permutation; by rewrite (ao_found _ _ _ _ _ Hacc)).
  assert (HallW : truncated = false → L ≡ₚ map_to_list W).
  { intros ->. eapply acc_ok_all; [done|]. intros id it HW. eapply Hall; [done..|].
    unfold W in HW. by apply live_lookup in HW as (_ & ? & _). }
  assert (Hpb : ∀ l k, l ≡ₚ k → payload_bytes l = payload_bytes k).
  { intros l k E. unfold payload_bytes. induction E; simpl; lia. }
  assert (Hlen : ∀ l k : list StoredItem, l ≡ₚ k → blen l = blen k) by (intros l k E; unfold blen; by rewrite E).
  assert (HLlen : blen L.*2 = blen L) by (unfold blen; by rewrite length_fmap).
  pose proof (ao_items _ _ _ _ _ Hacc). pose proof (ao_bytes _ _ _ _ _ Hacc).
  pose proof (ao_total _ _ _ _ _ Hacc) as Ht.
  split_and!.
  - split.
    + intros E. specialize (HallW E). split.
      * rewrite <- (length_map_to_list W), <- HallW. done.
      * rewrite <- (map_sum_list _ W L HallW). by rewrite payload_pairs, <- Ht.
    + intros [Hn Hs]. destruct truncated; [|done]. destruct (Hfull eq_refl) as (id & it & HW & Hns & Hor).
      destruct (acc_ok_full acc L id it Hacc HW Hns Hor); lia.
  - intros E. rewrite Hperm. by rewrite (HallW E).
  - apply (StronglySorted_merge_sort created_le).
  - rewrite (Hlen _ _ Hperm). lia.
  - rewrite (Hpb _ _ Hperm). lia.
Qed.

End Fetch.

(** * Recovery *)

Section Recovery.
Context {MO : MapOrder} {MI : Marshaler StoredItem} {DI : StrictDecoder StoredItem}.

Lemma filename_suffix (id : string) : HasSuffix (filename id) ".json" = true.
Proof. apply HasSuffix_app. Qed.

(** A store that holds some of the items of another, under the same limits. *)
Record sub_store (t s : DiskStore) : Prop := {
  sub_items : items t ⊆ items s;
  sub_charge id it : items t !! id = Some it → charge_of t id = charge_of s id;
  sub_capacity : capacity t = capacity s;
  sub_quota : routeQuota t = routeQuota s;
}.

(** What fitted in the whole store fits in the part. *)
Lemma sub_room (t s : DiskStore) (id : string) (it : StoredItem) :
  store_ok t → store_ok s → sub_store t s → items s !! id = Some it → items t !! id = None →
  item_count t < MaxStoredItems ∧ used t + charge_of s id ≤ capacity t ∧
  route_sum t (si_RouteTag it) + charge_of s id ≤ routeQuota t ∧
  route_count t (si_RouteTag it) < MaxItemsPerRoute.
Proof.
  intros Ht Hs [Hsub Hch Hcap Hquo] Hit Hnew.
  assert (Hins : <[id := it]> (items t) ⊆ items s) by (by apply insert_subseteq_l).
  assert (Hpos : ∀ id it, items s !! id = Some it → 0 ≤ charge_of s id).
  { intros id' it' Hit'. pose proof (charge_of_range s id' it' Hs Hit'). lia. }
  split_and!.
  - pose proof (map_subseteq_size _ _ Hins) as Hn. rewrite map_size_insert_None in Hn by done.
    pose proof (ok_count s Hs). unfold item_count in *. lia.
  - pose proof (map_sum_subseteq (λ id _, charge_of s id) _ _ Hins Hpos) as Hle.
    rewrite map_sum_insert, <- (ok_used s Hs) in Hle by done.
    rewrite (ok_used t Ht), (map_sum_ext _ (λ id _, charge_of s id)) by done.
    pose proof (ok_capacity s Hs). lia.
  - pose proof (map_sum_subseteq
      (λ id' it', if bool_decide (si_RouteTag it' = si_RouteTag it) then charge_of s id' else 0) _ _ Hins) as Hle.
    rewrite map_sum_insert, bool_decide_eq_true_2 in Hle by done.
    pose proof (ok_quota s Hs (si_RouteTag it)) as Hq. unfold route_sum in *.
    rewrite (map_sum_ext _ (λ id' it', if bool_decide (si_RouteTag it' = si_RouteTag it)
      then charge_of s id' else 0) (items t)).
    + rewrite Hquo. etrans; [|exact Hq]. rewrite Z.add_comm. apply Hle.
      intros id' it' Hit'. case_bool_decide; [by eapply Hpos|done].
    + intros id' it' Hit'. case_bool_decide; [by eapply Hch|done].
  - pose proof (ok_route_count s Hs (si_RouteTag it)) as Hn. unfold route_count in *.
    assert (Hids : {[id]} ∪ route_ids t (si_RouteTag it) ⊆ route_ids s (si_RouteTag it)).
    { intros id'. rewrite elem_of_union, elem_of_singleton, (ok_route t Ht), (ok_route s Hs).
      intros [->|(it' & Hit' & ?)]; [eauto|]. exists it'. split; [|done]. by eapply lookup_weaken. }
    apply subseteq_size in Hids. rewrite size_union, size_singleton in Hids; [lia|].
    apply disjoint_singleton_l. rewrite (ok_route t Ht). intros (it' & ? & _). congruence.
Qed.

Lemma sub_index (t s : DiskStore) (it : StoredItem) :
  sub_store t s → items s !! si_ItemID it = Some it →
  sub_store (index t it (charge_of s (si_ItemID it))) s.
Proof.
  intros [Hsub Hch Hcap Hquo] Hit. split; [|intros id it'; rewrite charge_of_index|done|done];
    cbn [index items].
  - by apply insert_subseteq_l.
  - intros [[<- <-]|[Hne Hit']]%lookup_insert_Some; case_bool_decide; try done. by eapply Hch.
Qed.

Lemma revalidate (it : StoredItem) (t now : Time) :
  ValidateItem it t DefaultMaxItemBytes = None →
  ValidateItem it now DefaultMaxItemBytes = None ↔
  si_CreatedAt it ≤ now + 5 * Minute ∧ now < si_ExpiresAt it.
Proof.
  rewrite !ValidateItem_None. intros [Hm Hv Hr Hk Hp Hc He Hret Hid]. split.
  - intros []. done.
  - intros [? ?]. by split.
Qed.

(** What the directory listing shows of an item file: its name and contents. *)
Definition item_file (s : DiskStore) (name : string) (file : File) : Prop :=
  ∃ id it, items s !! id = Some it ∧ name = filename id ∧ backed file it (charge_of s id).

Lemma admit_item (now : Time) (t s : DiskStore) (id : string) (it : StoredItem) (file : File) :
  store_ok t → store_ok s → sub_store t s → items s !! id = Some it → items t !! id = None →
  backed file it (charge_of s id) → ValidateItem it now DefaultMaxItemBytes = None →
  load_item now t (filename id) (f_data file) = Some (it, charge_of s id).
Proof.
  intros Ht Hs Hsub Hit Hnew [_ Hsize Hdec Hc] Hv. unfold load_item. rewrite Hdec, Hv.
  destruct (ok_items s Hs id it Hit) as (-> & _ & _). rewrite bool_decide_eq_true_2 by done. cbn [negb orb].
  pose proof (storedItemCharge_range _ Hsize). rewrite <- Hc in *.
  rewrite used_add_small, route_add_small by (done || lia).
  destruct (sub_room t s id it Ht Hs Hsub Hit Hnew) as (Hn & Hu & Hq & Hr).
  by rewrite !(proj2 (Z.leb_gt _ _)), !(proj2 (Z.ltb_ge _ _)) by lia.
Qed.

Lemma admit_expired (now : Time) (t : DiskStore) (name : string) (file : File) (it : StoredItem) (c : Z) :
  backed file it c → ValidateItem it now DefaultMaxItemBytes ≠ None →
  load_item now t name (f_data file) = None.
Proof. intros [_ _ Hdec _] Hv. unfold load_item. rewrite Hdec. by destruct (ValidateItem _ _ _). Qed.

(** The loading loop keeps every item whose file it meets and that validates. *)
Lemma load_loop_complete (now : Time) (s t : DiskStore) (entries : list (string * File)) (disk : Disk)
    (removed : bool) :
  store_ok s → store_ok t → sub_store t s → NoDup entries.*1 →
  (∀ id it, items t !! id = Some it → filename id ∉ entries.*1) →
  (∀ name file, (name, file) ∈ entries →
     f_dir file = true ∨ HasSuffix name ".json" = false ∨ item_file s name file) →
  ∃ disk' t' r, load_loop (λ _, None) now entries disk t removed = (disk', Ok (t', r)) ∧
    ∀ id it, items t' !! id = Some it ↔
      items t !! id = Some it ∨
      items s !! id = Some it ∧ ValidateItem it now DefaultMaxItemBytes = None ∧
      ∃ file, (filename id, file) ∈ entries ∧ f_dir file = false.
Proof.
  intros Hs. revert t disk removed. induction entries as [|[name file] entries IH];
    intros t disk removed Ht Hsub Hnd Hfresh Hentries; cbn [load_loop].
  { eexists _, _, _. split; [done|]. intros id it. split; [auto|].
    intros [?|(_ & _ & f & Hin & _)]; [done|]. by apply elem_of_nil in Hin. }
  apply list.NoDup_cons in Hnd as [Hname Hnd]. simpl in Hname.
  assert (Hfresh' : ∀ id it, items t !! id = Some it → filename id ∉ entries.*1).
  { intros id it Hit. specialize (Hfresh id it Hit). rewrite fmap_cons, not_elem_of_cons in Hfresh. tauto. }
  assert (Hentries' : ∀ n f, (n, f) ∈ entries →
    f_dir f = true ∨ HasSuffix n ".json" = false ∨ item_file s n f)
    by (intros; by apply Hentries, list_elem_of_further).
  destruct (decide (f_dir file || negb (HasSuffix name ".json") = true)%bool) as [Hskip|Hskip].
  { rewrite Hskip. destruct (IH t disk removed) as (d' & t' & r & -> & Hiff); [done..|].
    eexists _, _, _. split; [done|]. intros id it. rewrite Hiff. setoid_rewrite elem_of_cons.
    apply orb_true_iff in Hskip. rewrite negb_true_iff in Hskip. split.
    - intros [?|(? & ? & f & ? & ?)]; [by left|right]. split_and!; [done..|]. exists f. auto.
    - intros [?|(? & ? & f & [E|?] & ?)]; [by left| |right; eauto 6]. simplify_eq.
      rewrite filename_suffix in Hskip. destruct Hskip; congruence. }
  apply not_true_iff_false in Hskip as Hgo. rewrite Hgo. apply orb_false_iff in Hgo as [Hdir Hsuf].
  destruct (Hentries name file (list_elem_of_here _ _)) as [E|[E|(id & it & Hit & -> & Hb)]];
    [congruence|by rewrite E in Hsuf|].
  destruct (bk_kind _ _ _ Hb) as (_ & -> & ->). pose proof (bk_size _ _ _ Hb).
  rewrite (proj2 (Z.leb_gt _ _)), (proj2 (Z.ltb_ge _ _)) by lia. cbn [negb orb].
  assert (Hnew : items t !! id = None).
  { destruct (items t !! id) as [it'|] eqn:Hit'; [|done]. specialize (Hfresh id it' Hit').
    rewrite fmap_cons, not_elem_of_cons in Hfresh. by destruct Hfresh. }
  destruct (ok_items s Hs id it Hit) as (Hid & Hvid & Hpay).
  destruct (decide (ValidateItem it now DefaultMaxItemBytes = None)) as [Hv|Hv].
  - rewrite (admit_item now t s id it file) by done.
    destruct (sub_room t s id it) as (Hn & Hu & Hq & Hr); [done..|].
    pose proof (charge_of_range s id it Hs Hit). rewrite <- Hid in *.
    destruct (IH (index t it (charge_of s (si_ItemID it))) disk removed) as (d' & t' & r & -> & Hiff);
      [by apply index_ok|by apply sub_index|done| |done|].
    { intros id' it'. cbn [index items]. intros [[<- <-]|[_ Hit']]%lookup_insert_Some; [done|by eapply Hfresh']. }
    eexists _, _, _. split; [done|]. intros id' it'. rewrite Hiff. cbn [index items].
    rewrite lookup_insert_Some. setoid_rewrite elem_of_cons. split.
    + intros [[[<- <-]|[_ ?]]|(? & ? & f & ? & ?)]; [|by left|right; eauto 6].
      right. split_and!; [done..|]. exists file. auto.
    + intros [?|(? & ? & f & [E|?] & ?)]; [|left; left|right; eauto 6].
      * left. right. split; [congruence|done].
      * injection E as E%filename_inj ->. by simplify_eq.
  - rewrite (admit_expired now t _ file it (charge_of s id)) by done.
    destruct (IH t (os_Remove (λ _, None) disk (filename id)).1 true) as (d' & t' & r & -> & Hiff); [done..|].
    eexists _, _, _. split; [done|]. intros id' it'. rewrite Hiff. setoid_rewrite elem_of_cons. split.
    + intros [?|(? & ? & f & ? & ?)]; [by left|right; eauto 6].
    + intros [?|(? & ? & f & [E|?] & ?)]; [by left| |right; eauto 6].
      injection E as E%filename_inj ->. by simplify_eq.
Qed.

(** A clean-up without failing calls removes exactly the temporary files. *)
Lemma cleanup_loop_quiet (prefix : string) (entries : list (string * File)) (disk : Disk) (r : bool) :
  NoDup entries.*1 → (∀ name file, (name, file) ∈ entries → disk !! name = Some file) →
  (∀ name file, (name, file) ∈ entries → String.prefix prefix name = true → f_regular file = true ∧ f_private file = true) →
  ∃ disk' r', cleanup_loop (λ _, None) prefix entries disk r = (disk', inl r') ∧
    ∀ name, disk' !! name = if String.prefix prefix name && bool_decide (name ∈ entries.*1) then None else disk !! name.
Proof.
  revert disk r. induction entries as [|[name file] entries IH]; intros disk r Hnd Hdisk Htemp; cbn [cleanup_loop].
  { exists disk, r. split; [done|]. intros n. by rewrite bool_decide_eq_false_2, andb_false_r by apply not_elem_of_nil. }
  apply list.NoDup_cons in Hnd as [Hname Hnd]. simpl in Hname.
  destruct (String.prefix prefix name) eqn:Hp; cbn [negb].
  - destruct (Htemp name file (list_elem_of_here _ _) Hp) as [-> ->]. cbn [negb orb].
    unfold os_Remove. rewrite (Hdisk name file (list_elem_of_here _ _)).
    destruct (IH (delete name disk) true) as (d & r' & -> & Hd); [done| |intros ?? Hin; by apply Htemp, list_elem_of_further|].
    { intros n f Hin. rewrite lookup_delete_ne; [by apply Hdisk, list_elem_of_further|]. intros <-.
      apply Hname, list_elem_of_fmap. by exists (name, f). }
    exists d, r'. split; [done|]. intros n. rewrite Hd, fmap_cons. cbn [fst].
    destruct (decide (n = name)) as [->|Hne].
    + by rewrite Hp, lookup_delete_eq, (bool_decide_eq_true_2 (_ ∈ _ :: _)) by apply list_elem_of_here; case_match.
    + rewrite lookup_delete_ne by done. rewrite (bool_decide_ext (n ∈ name :: _) (n ∈ entries.*1)); [done|].
      rewrite elem_of_cons. naive_solver.
  - destruct (IH disk r) as (d & r' & -> & Hd); [done|intros; by apply Hdisk, list_elem_of_further
      |intros ?? Hin; by apply Htemp, list_elem_of_further|].
    exists d, r'. split; [done|]. intros n. rewrite Hd, fmap_cons. cbn [fst].
    destruct (decide (n = name)) as [->|Hne]; [by rewrite Hp|].
    rewrite (bool_decide_ext (n ∈ name :: _) (n ∈ entries.*1)); [done|]. rewrite elem_of_cons. naive_solver.
Qed.

(** The name of an item's file is not that of a temporary file. *)
Lemma filename_not_temporary (id : string) : validItemID id = true → String.prefix temporaryPrefix (filename id) = false.
Proof.
  unfold validItemID, filename. destruct id as [|c id]; [done|]. intros Hv.
  change (String c id +:+ ".json")%string with (String c (id +:+ ".json")%string).
  unfold temporaryPrefix. cbn [String.prefix]. destruct (Ascii.ascii_dec _ c) as [<-|]; [|done].
  by destruct id.
Qed.

(** The directory of a store whose writes may have been interrupted before the rename:
    the only item files are those of the indexed items, and what carries the name of a
    temporary file is one. *)
Definition disk_clean (disk : Disk) (s : DiskStore) : Prop :=
  ∀ name file, disk !! name = Some file →
    if String.prefix temporaryPrefix name then f_regular file = true ∧ f_private file = true
    else f_dir file = false → HasSuffix name ".json" = true → ∃ id it, items s !! id = Some it ∧ name = filename id.

(** C15. Nothing is lost across a restart: reopening the directory of a store with
    the same limits, with whatever temporary files interrupted writes left there,
    succeeds and brings back exactly the stored items that have not expired (and
    whose creation time is not in the clock's future). *)
Theorem store_recovery (now : Time) (disk : Disk) (s : DiskStore) (dir : string) :
  store_ok s → disk_ok disk s → disk_clean disk s → dir ≠ ""%string →
  ∃ disk' s', NewDiskStore (λ _, None) now disk dir (capacity s) (routeQuota s) = (disk', Ok s') ∧
    ∀ id it, items s' !! id = Some it ↔
      items s !! id = Some it ∧ si_CreatedAt it ≤ now + 5 * Minute ∧ now < si_ExpiresAt it.
Proof.
  intros Hs Hd Hclean Hdir. pose proof (ok_limits s Hs). pose proof (ok_capacity s Hs).
  unfold NewDiskStore. rewrite bool_decide_eq_false_2 by done.
  rewrite !(proj2 (Z.leb_gt _ _)), (proj2 (Z.ltb_ge _ _)) by lia. cbn [orb].
  unfold cleanupPrivateTemporaries. rewrite bool_decide_eq_true_2 by done.
  destruct (cleanup_loop_quiet temporaryPrefix (os_ReadDir disk) disk false) as (d & removed & Hloop & Hlook);
    [apply ReadDir_keys|by intros ?? ?%ReadDir_elem|intros n f Hin%ReadDir_elem Hp; specialize (Hclean n f Hin); by rewrite Hp in Hclean|].
  change (inner (λ _, None)) with (λ _ : Syscall, @None error). rewrite Hloop.
  replace (if removed then syncPrivateDirectory (λ _, None) else None) with (@None error) by by destruct removed.
  assert (Hkeep : ∀ name file, d !! name = Some file → disk !! name = Some file ∧ String.prefix temporaryPrefix name = false).
  { intros name file. rewrite Hlook. destruct (String.prefix _ _); [|done]. cbn [andb]. case_bool_decide as Hin; [done|].
    intros Hf. destruct Hin. apply list_elem_of_fmap. exists (name, file). split; [done|]. by apply ReadDir_elem. }
  assert (Hdisk : disk_ok d s).
  { eapply disk_ok_frame; [exact Hd|]. intros id it Hit. destruct (ok_items s Hs _ _ Hit) as (_ & Hv & _).
    by rewrite Hlook, filename_not_temporary. }
  destruct (load_loop_complete now s (emptyStore (capacity s) (routeQuota s)) (os_ReadDir d) d false)
    as (d' & t' & r & -> & Hiff).
  - done.
  - apply emptyStore_ok; lia.
  - split; simpl; try done. apply map_empty_subseteq.
  - apply ReadDir_keys.
  - done.
  - intros name file Hin%ReadDir_elem. destruct (f_dir file) eqn:Ef; [by left|right].
    destruct (HasSuffix name ".json") eqn:Es; [right|by left].
    destruct (Hkeep name file Hin) as [Hin' Hp]. pose proof (Hclean name file Hin') as Hc. rewrite Hp in Hc.
    destruct (Hc Ef Es) as (id & it & Hit & ->).
    destruct (Hdisk id it Hit) as [(file' & Hf & Hb) _]. exists id, it. by simplify_eq.
  - exists d', t'. split; [by destruct r|]. intros id it. rewrite Hiff. cbn [emptyStore items].
    rewrite lookup_empty. setoid_rewrite ReadDir_elem. split.
    + intros [?|(Hit & Hv & _)]; [done|]. split; [done|].
      destruct (Hdisk id it Hit) as [_ (t & Ht)]. by apply (revalidate it t).
    + intros (Hit & Hv). right. destruct (Hdisk id it Hit) as [(file & Hf & Hb) (t & Ht)].
      split_and!; [done|by apply (revalidate it t)|]. exists file. split; [done|].
      by destruct (bk_kind _ _ _ Hb).
Qed.

End Recovery.

(** * Removal *)

Section Removal.
Context {MO : MapOrder} {MI : Marshaler StoredItem} {DI : StrictDecoder StoredItem}.

(** Sweep removes expired items and nothing else: whatever errors it meets, every
    live item stays and nothing appears; if it reports no error, no expired item
    is left. *)
Theorem Sweep_exact (io : IO) (now : Time) (disk disk' : Disk) (s s' : DiskStore) (e : option error) :
  store_ok s → disk_ok disk s → closed s = false → Sweep io disk s now = (disk', s', e) →
  (∀ id it, items s !! id = Some it → now < si_ExpiresAt it → items s' !! id = Some it) ∧
  (∀ id it, items s' !! id = Some it → items s !! id = Some it) ∧
  (e = None → ∀ id it, items s' !! id = Some it → now < si_ExpiresAt it) ∧
  used s' = map_sum (λ id _, charge_of s' id) (items s').
Proof.
  intros Hok Hd Hc Hs. apply Sweep_cases in Hs as (Hok' & _ & _ & Hsub & Hgone & Hlive); [|done..].
  split_and!; [|done|by apply Hlive|by apply (ok_used s' Hok')].
  intros id it Hit Hlt. destruct (items s' !! id) as [it'|] eqn:Hit'.
  - apply Hsub in Hit'. congruence.
  - pose proof (Hgone id it Hit Hit'). lia.
Qed.

(** Delete takes an item away for good: unless it reports a failed removal and
    changes nothing, the item is no longer readable, its file is gone so that no
    restart brings it back, its charge is returned, and every other item is
    untouched. *)
Theorem Delete_gone (io : IO) (now : Time) (disk disk' : Disk) (s s' : DiskStore) (id : string)
    (it : StoredItem) (e : option error) :
  store_ok s → closed s = false → honest io → items s !! id = Some it →
  Delete io disk s id = (disk', s', e) →
  (s' = s ∧ disk' = disk ∧ ∃ err, e = Some err) ∨
  (Get now s' id = Err ErrNotFound ∧ disk' !! filename id = None ∧ used s' = used s - charge_of s id ∧
   ∀ id', id' ≠ id → Get now s' id' = Get now s id' ∧ disk' !! filename id' = disk !! filename id').
Proof.
  intros Hok Hc Hio Hit Hd. apply Delete_cases in Hd as [?|(it' & Hit' & -> & _ & Hframe & Hgone)]; [by left|right].
  simplify_eq. split_and!.
  - unfold Get. cbn [unindex closed items]. by rewrite Hc, lookup_delete_eq.
  - by apply Hgone.
  - by apply used_unindex.
  - intros id' Hne. split.
    + unfold Get. cbn [unindex closed items]. by rewrite lookup_delete_ne.
    + apply Hframe. intros E%filename_inj. congruence.
Qed.

End Removal.

(** * Witnesses *)

Module Sample.

#[export] Instance marshal_item : Marshaler StoredItem := λ it, Ok (Samples.item_put it).
#[export] Instance decode_item : StrictDecoder StoredItem := λ b,
  match Samples.item_get b with Some it => Ok it | None => Err "bad item" end.

#[export] Instance codec : ItemCodec.
Proof.
  split.
  - intros it data H. apply (inj Ok) in H as <-. apply ToyCodec.put_nonempty.
  - intros it now data _ H. apply (inj Ok) in H as <-. unfold decodeStrict, decode_item.
    by rewrite Samples.item_get_put.
Qed.

Definition no_io : IO := λ _, None.
Definition now : Time := Samples.now.
Definition limit : Z := 1024 * 1024.
Definition empty : DiskStore := emptyStore limit limit.

(** A fresh store that accepts the sample item. *)
Definition stored : Disk * DiskStore := Eval vm_compute in (Put no_io now ∅ empty Samples.item).1.

Lemma opened : NewDiskStore no_io now ∅ "data" limit limit = (∅, Ok empty).
Proof. vm_compute. reflexivity. Qed.

Lemma put_stored : Put no_io now ∅ empty Samples.item = (stored.1, stored.2, None).
Proof. vm_compute. reflexivity. Qed.

Lemma empty_ok : store_ok empty ∧ disk_ok ∅ empty.
Proof. split; [by apply emptyStore_ok|]. by intros id it ?. Qed.

Lemma stored_ok : store_ok stored.2 ∧ disk_ok stored.1 stored.2.
Proof.
  destruct empty_ok as [Hok Hd]. eapply put_result_ok; [exact Hok|exact Hd|].
  eapply Put_result; [exact Hok|exact put_stored].
Qed.

(** The only file is the item's. *)
Lemma stored_clean : disk_clean stored.1 stored.2.
Proof.
  intros name file Hn.
  assert (Hin : (name, file) ∈ map_to_list stored.1) by (by apply elem_of_map_to_list).
  assert (Hk : (map_to_list stored.1).*1 = [filename (si_ItemID Samples.item)]) by (vm_compute; reflexivity).
  assert (name = filename (si_ItemID Samples.item)) as ->.
  { revert Hin Hk. generalize (map_to_list stored.1) as l. intros [|x [|]] Hin [= Hk].
    apply list_elem_of_singleton in Hin. by subst x. }
  change (String.prefix _ _) with false. intros _ _. exists (si_ItemID Samples.item), Samples.item.
  split; [vm_compute; reflexivity|reflexivity].
Qed.

End Sample.

#[local] Existing Instances Sample.marshal_item Sample.decode_item Sample.codec.

Lemma store_invariant_witness : store_ok Sample.stored.2.
Proof.
  destruct (store_invariant Sample.no_io Sample.now ∅ ∅ Sample.stored.1 "data" Sample.limit Sample.limit
    Sample.empty Sample.stored.2) as [H _]; [vm_compute; reflexivity|exact Sample.opened| |exact H].
  apply rtc_once. eapply step_put. exact Sample.put_stored.
Defined.

Lemma Put_Get_witness : Get (Sample.now + Hour) Sample.stored.2 (si_ItemID Samples.item) = Ok Samples.item.
Proof.
  destruct (Put_Get Sample.no_io Sample.now (Sample.now + Hour) ∅ Sample.stored.1 Sample.empty Sample.stored.2
    Samples.item None (proj1 Sample.empty_ok) Sample.put_stored) as (_ & _ & H).
  destruct (H eq_refl) as (st & _ & _ & Hst & Hget). rewrite (Hst eq_refl) in Hget.
  apply Hget. vm_compute; reflexivity.
Defined.

Lemma store_recovery_witness :
  ∃ disk' s', NewDiskStore (λ _, None) (Sample.now + Hour) Sample.stored.1 "data" Sample.limit Sample.limit
                = (disk', Ok s') ∧
              items s' !! si_ItemID Samples.item = Some Samples.item.
Proof.
  destruct (store_recovery (Sample.now + Hour) Sample.stored.1 Sample.stored.2 "data"
    (proj1 Sample.stored_ok) (proj2 Sample.stored_ok) Sample.stored_clean ltac:(discriminate))
    as (d & s & Hnew & Hiff).
  exists d, s. split; [exact Hnew|]. apply Hiff. split; [vm_compute; reflexivity|].
  split; [vm_compute; discriminate|vm_compute; reflexivity].
Defined.

Lemma Sweep_exact_witness :
  ∃ disk' s', Sweep Sample.no_io Sample.stored.1 Sample.stored.2 (Sample.now + FixedItemRetention) = (disk', s', None) ∧
              (items s' !! si_ItemID Samples.item = Some Samples.item →
               Sample.now + FixedItemRetention < si_ExpiresAt Samples.item).
Proof.
  destruct (Sweep Sample.no_io Sample.stored.1 Sample.stored.2 (Sample.now + FixedItemRetention))
    as [[d s] e] eqn:Hs.
  assert (He : e = None).
  { assert (Hs2 : (Sweep Sample.no_io Sample.stored.1 Sample.stored.2 (Sample.now + FixedItemRetention)).2 = None)
      by (vm_compute; reflexivity). by rewrite Hs in Hs2. }
  subst e. exists d, s. split; [reflexivity|].
  destruct (Sweep_exact Sample.no_io (Sample.now + FixedItemRetention) Sample.stored.1 d Sample.stored.2 s None
    (proj1 Sample.stored_ok) (proj2 Sample.stored_ok) eq_refl Hs) as (_ & _ & Hlive & _).
  exact (Hlive eq_refl (si_ItemID Samples.item) Samples.item).
Defined.

Lemma Delete_gone_witness :
  ∃ disk' s', Delete Sample.no_io Sample.stored.1 Sample.stored.2 (si_ItemID Samples.item) = (disk', s', None) ∧
              Get Sample.now s' (si_ItemID Samples.item) = Err ErrNotFound.
Proof.
  destruct (Delete Sample.no_io Sample.stored.1 Sample.stored.2 (si_ItemID Samples.item))
    as [[d s] e] eqn:Hs.
  assert (He : e = None).
  { assert (Hs2 : (Delete Sample.no_io Sample.stored.1 Sample.stored.2 (si_ItemID Samples.item)).2 = None)
      by (vm_compute; reflexivity). by rewrite Hs in Hs2. }
  subst e. exists d, s. split; [reflexivity|].
  assert (Hio : honest Sample.no_io) by (intros n; discriminate).
  assert (Hit : items Sample.stored.2 !! si_ItemID Samples.item = Some Samples.item) by (vm_compute; reflexivity).
  destruct (Delete_gone Sample.no_io Sample.now Sample.stored.1 d Sample.stored.2 s (si_ItemID Samples.item)
    Samples.item None (proj1 Sample.stored_ok) eq_refl Hio Hit Hs) as [(_ & _ & err & ?)|(Hg & _)];
    [discriminate|exact Hg].
Defined.

End NodeStore.
