(* ===== verification/NodeServer.v ===== *)
(** The storage node's HTTP surface (src/node/server.go) and its configuration
    (src/node/config.go): the four item endpoints as functions from a request
    and the store to a response and the new store, the advertised parameters
    and the directory rate limiter. *)
From Stdlib Require Import SpecFloat.
From S2P Require Import Prelude Sha256 Encoding Protocol Work Crypto Files NodeStore.
Import NodeStore.
Local Open Scope Z_scope.

Module NodeServer.

(** * Configuration (config.go) *)

Record Config := {
  c_ListenAddress : string;
  c_DataDir : string;
  c_KeyFile : string;
  c_BaseDifficulty : Z;         (* uint8 *)
  c_EpochSeconds : Z;           (* int64 *)
  c_MaxItemBytes : Z;           (* int *)
  c_StorageCapacity : Z;        (* int64 *)
  c_MailboxQuota : Z;           (* int64 *)
  c_MaxFetchItems : Z;          (* int *)
  c_MaxFetchBytes : Z;          (* int64 *)
  c_SweepInterval : Duration;
  c_MaxConcurrentRequests : Z;  (* int *)
}.

Definition DefaultConfig : Config := {|
  c_ListenAddress := "127.0.0.1:8787";
  c_DataDir := "./propagare-data";
  c_KeyFile := "./propagare-node-key.json";
  c_BaseDifficulty := 16;
  c_EpochSeconds := 10 * 60;
  c_MaxItemBytes := DefaultMaxItemBytes;
  c_StorageCapacity := 10 * 1024 * 1024 * 1024;
  c_MailboxQuota := 16 * 1024 * 1024;
  c_MaxFetchItems := DefaultMaxFetchItems;
  c_MaxFetchBytes := DefaultMaxFetchBytes;
  c_SweepInterval := 5 * Minute;
  c_MaxConcurrentRequests := 128;
|}.

Definition Validate (c : Config) : option error :=
  if (MaxWorkDifficulty - 2 <? c_BaseDifficulty c) ||
     (c_EpochSeconds c <? MinWorkEpochSeconds) || (MaxWorkEpochSeconds <? c_EpochSeconds c) ||
     (c_MaxItemBytes c <=? 0) || (DefaultMaxItemBytes <? c_MaxItemBytes c) ||
     (c_StorageCapacity c <=? 0) || (c_MailboxQuota c <=? 0) ||
     (c_StorageCapacity c <? c_MailboxQuota c) ||
     (c_MaxFetchItems c <=? 0) || (DefaultMaxFetchItems <? c_MaxFetchItems c) ||
     (c_MaxFetchBytes c <=? 0) || (DefaultMaxFetchBytes <? c_MaxFetchBytes c) ||
     (c_SweepInterval c <=? 0) || (c_MaxConcurrentRequests c <=? 0) ||
     (4096 <? c_MaxConcurrentRequests c)
  then Some "invalid node configuration bounds"%string else None.

(** IEEE 754 binary64: conversion of an integer and the two literals. *)
Definition float64 (z : Z) : spec_float := binary_normalize 53 1024 z 0 false.
Definition float_0_95 : spec_float := S754_finite false 8556839292003942 (-53).
Definition float_0_80 : spec_float := S754_finite false 7205759403792794 (-53).

Definition EffectiveDifficulty (c : Config) (used : Z) : Z :=
  if c_StorageCapacity c <=? 0 then c_BaseDifficulty c
  else
    let ratio := SFdiv 53 1024 (float64 used) (float64 (c_StorageCapacity c)) in
    if SFleb float_0_95 ratio then Z.min (u8 (c_BaseDifficulty c + 2)) MaxWorkDifficulty
    else if SFleb float_0_80 ratio then Z.min (u8 (c_BaseDifficulty c + 1)) MaxWorkDifficulty
    else c_BaseDifficulty c.

(** * Requests and responses *)

Definition receiptDomain : string := "storage-receipt".
Definition proofDomain : string := "storage-proof".
Definition deleteReceiptDomain : string := "delete-receipt".

Record FetchRequest := { fq_RouteTags : list string }.

(** A request: the media type its Content-Type parses to, and its body. *)
Record Request := { rq_mediaType : Result string; rq_body : bytes }.

Inductive Body :=
| ErrorBody (message : string)
| ReceiptBody (r : StorageReceipt)
| ItemsBody (items : list StoredItem)
| ProofBody (p : StorageProof)
| DeletedBody (r : DeleteReceipt).

Record Response := { status : Z; body : Body }.

Definition StatusOK : Z := 200.
Definition StatusCreated : Z := 201.
Definition StatusBadRequest : Z := 400.
Definition StatusNotFound : Z := 404.
Definition StatusRequestEntityTooLarge : Z := 413.
Definition StatusTooManyRequests : Z := 429.
Definition StatusInternalServerError : Z := 500.
Definition StatusServiceUnavailable : Z := 503.
Definition StatusInsufficientStorage : Z := 507.

Definition writeError (st : Z) (err : error) : Response :=
  {| status := st;
     body := ErrorBody (if st <? StatusInternalServerError then err else "request failed") |}.

Definition writeJSON (st : Z) (value : Body) : Response := {| status := st; body := value |}.

(** [json.Decoder] over an [http.MaxBytesReader]: strict decoding of the whole
    body; a body over the limit is an error. *)
Class LimitedDecoder (A : Type) := decodeLimited : Z → bytes → Result A.

Definition decodeJSON {A} `{!LimitedDecoder A} (r : Request) (limit : Z) : Result A :=
  match rq_mediaType r with
  | Ok mediaType =>
      if negb (bool_decide (mediaType = "application/json"%string))
      then Err "content type must be application/json"
      else decodeLimited limit (rq_body r)
  | Err _ => Err "content type must be application/json"
  end.

(** * The server *)

Section Server.
Context `{C : Crypto} {MO : MapOrder} {MI : Marshaler StoredItem}.
Context {DItem : LimitedDecoder StoredItem} {DFetch : LimitedDecoder FetchRequest}
        {DProof : LimitedDecoder ProofRequest} {DDelete : LimitedDecoder DeleteRequest}.

(** The parts of a running server that requests read; the store and its
    directory are passed along as the state that they change. *)
Record Server := { config : Config; signer : HybridSigner; identity : NodePublicIdentity }.

Definition NewServer (config : Config) (store : option DiskStore) (signer : option HybridSigner)
  : Result Server :=
  match Validate config with
  | Some e => Err e
  | None =>
      match store, signer with
      | Some _, Some signer =>
          Ok {| config := config; signer := signer; identity := PublicIdentity signer |}
      | _, _ => Err "node store and signer are required"
      end
  end.

Definition parameters (sv : Server) (s : DiskStore) : NodeParameters :=
  let used := Used s in
  {| np_ProtocolVersion := ProtocolVersion;
     np_Difficulty := EffectiveDifficulty (config sv) used;
     np_EpochSeconds := c_EpochSeconds (config sv);
     np_MaxItemBytes := c_MaxItemBytes (config sv);
     np_StorageUsed := used;
     np_StorageCapacity := c_StorageCapacity (config sv) |}.

(** [now] is the handler's clock reading, [now'] the one inside [Put]. *)
Definition handleStore (io : IO) (now now' : Time) (coins : bytes) (sv : Server) (disk : Disk)
    (s : DiskStore) (r : Request) : Disk * DiskStore * Response :=
  match decodeJSON r (c_MaxItemBytes (config sv) * 2 + 64 * 1024) with
  | Err e => (disk, s, writeError StatusBadRequest e)
  | Ok item =>
      let now := Truncate now Millisecond in
      match ValidateItem item now (c_MaxItemBytes (config sv)) with
      | Some e => (disk, s, writeError StatusBadRequest e)
      | None =>
          let ps := parameters sv s in
          match VerifyWork item now (np_EpochSeconds ps) (np_Difficulty ps) with
          | Some e => (disk, s, writeError StatusTooManyRequests e)
          | None =>
              match Put io now' disk s item with
              | (disk, s, Some e) =>
                  let st :=
                    if bool_decide (e = ErrMailboxQuota) || bool_decide (e = ErrStorageFull)
                    then StatusInsufficientStorage else StatusInternalServerError in
                  (disk, s, writeError st e)
              | (disk, s, None) =>
                  let receipt signature :=
                    {| sr_NodeID := ni_NodeID (identity sv); sr_ItemID := si_ItemID item;
                       sr_PayloadHash := Sha256.Sum256 (si_Payload item); sr_StoredAt := now;
                       sr_ExpiresAt := si_ExpiresAt item; sr_Signature := signature |} in
                  match Sign (signer sv) coins receiptDomain (ReceiptSigningBytes (receipt zeroSignature)) with
                  | Err e => (disk, s, writeError StatusInternalServerError e)
                  | Ok signature => (disk, s, writeJSON StatusCreated (ReceiptBody (receipt signature)))
                  end
              end
          end
      end
  end.

(** The loop over the requested route tags. *)
Fixpoint checkRouteTags (routeTags : list string) (seen : gset string) : option error :=
  match routeTags with
  | [] => None
  | routeTag :: routeTags =>
      if negb (ValidRouteTag routeTag) then Some "invalid route tag"%string
      else if bool_decide (routeTag ∈ seen) then Some "duplicate route tag"%string
      else checkRouteTags routeTags ({[routeTag]} ∪ seen)
  end.

Definition handleFetch (now : Time) (sv : Server) (s : DiskStore) (r : Request) : Response :=
  match decodeJSON r (64 * 1024) with
  | Err e => writeError StatusBadRequest e
  | Ok request =>
      if (blen (fq_RouteTags request) =? 0) || (MaxRouteTagsPerFetch <? blen (fq_RouteTags request))
      then writeError StatusBadRequest "route tag count out of range"
      else match checkRouteTags (fq_RouteTags request) ∅ with
      | Some e => writeError StatusBadRequest e
      | None =>
          match FetchLimited now s (fq_RouteTags request) (c_MaxFetchItems (config sv))
                  (c_MaxFetchBytes (config sv)) with
          | (_, true) => writeError StatusRequestEntityTooLarge "fetch result exceeds response limits"
          | (items, false) => writeJSON StatusOK (ItemsBody items)
          end
      end
  end.

(** [now] is the clock inside [Get], [now'] the one for [ProvedAt]. *)
Definition handleProof (now now' : Time) (coins : bytes) (sv : Server) (s : DiskStore) (r : Request)
  : Response :=
  match decodeJSON r (16 * 1024) with
  | Err e => writeError StatusBadRequest e
  | Ok request =>
      if negb (validItemID (pq_ItemID request)) || (blen (pq_Nonce request) <? 16) ||
         (64 <? blen (pq_Nonce request)) || (pq_Length request <=? 0) ||
         (MaxProofSampleBytes <? pq_Length request) || (pq_Offset request <? 0)
      then writeError StatusBadRequest "invalid proof challenge"
      else match Get now s (pq_ItemID request) with
      | Err e => writeError StatusNotFound e
      | Ok item =>
          if i64 (blen (si_Payload item) - pq_Length request) <? pq_Offset request
          then writeError StatusBadRequest "proof offset outside payload"
          else
            let end_ := i64 (pq_Offset request + pq_Length request) in
            let proof signature :=
              {| sp_NodeID := ni_NodeID (identity sv); sp_ItemID := si_ItemID item;
                 sp_Nonce := pq_Nonce request; sp_Offset := pq_Offset request;
                 sp_Sample := slice (si_Payload item) (pq_Offset request) end_;
                 sp_PayloadHash := Sha256.Sum256 (si_Payload item);
                 sp_ProvedAt := Truncate now' Millisecond; sp_Signature := signature |} in
            match Sign (signer sv) coins proofDomain (ProofSigningBytes (proof zeroSignature)) with
            | Err e => writeError StatusInternalServerError e
            | Ok signature => writeJSON StatusOK (ProofBody (proof signature))
            end
      end
  end.

Definition handleDelete (io : IO) (now now' : Time) (coins : bytes) (sv : Server) (disk : Disk)
    (s : DiskStore) (r : Request) : Disk * DiskStore * Response :=
  match decodeJSON r (16 * 1024) with
  | Err e => (disk, s, writeError StatusBadRequest e)
  | Ok request =>
      if negb (validItemID (dq_ItemID request)) || negb (blen (dq_DeleteToken request) =? CapabilityBytes)
      then (disk, s, writeError StatusBadRequest "invalid delete request")
      else match Get now s (dq_ItemID request) with
      | Err e => (disk, s, writeError StatusNotFound e)
      | Ok item =>
          if negb (DeleteTokenMatches (si_DeleteTokenHash item) (dq_DeleteToken request))
          then (disk, s, writeError StatusNotFound ErrNotFound)
          else match Delete io disk s (si_ItemID item) with
          | (disk, s, Some e) => (disk, s, writeError StatusInternalServerError e)
          | (disk, s, None) =>
              let receipt signature :=
                {| dr_NodeID := ni_NodeID (identity sv); dr_ItemID := si_ItemID item;
                   dr_DeletedAt := Truncate now' Millisecond; dr_Signature := signature |} in
              match Sign (signer sv) coins deleteReceiptDomain
                      (DeleteReceiptSigningBytes (receipt zeroSignature)) with
              | Err e => (disk, s, writeError StatusInternalServerError e)
              | Ok signature => (disk, s, writeJSON StatusOK (DeletedBody (receipt signature)))
              end
          end
      end
  end.

End Server.

(** * The directory limiter *)

(** [directoryLast] and the number of tokens in the [directoryWork] channel;
    [None] before [EnableDirectory] has made the channel. *)
Record Limiter := { directoryLast : gmap string Time; directoryWork : option Z }.

Definition directorySlots : Z := 8.
Definition directoryAddresses : Z := 4096.

Definition enabledLimiter : Limiter := {| directoryLast := ∅; directoryWork := Some 0 |}.

(** Addresses not seen for ten minutes are dropped, only when the map is full. *)
Definition sweptAddresses (last : gmap string Time) (now : Time) : gmap string Time :=
  if directoryAddresses <=? Z.of_nat (size last)
  then filter (λ p, Before p.2 (TAdd now (- (10 * Minute))) = false) last
  else last.

(** The section under [directoryRateMu]: whether the address may go on, and the
    new map. *)
Definition admitAddress (last : gmap string Time) (key : string) (now : Time) : gmap string Time * bool :=
  if match last !! key with Some previous => TSub now previous <? Second | None => false end
  then (last, false)
  else
    let swept := sweptAddresses last now in
    if directoryAddresses <=? Z.of_nat (size swept) then (swept, false)
    else (<[key := now]> swept, true).

(** The remote address as its text; [None] is an invalid [netip.Addr]. *)
Definition acquireDirectoryWork (l : Limiter) (remoteIP : option string) (now : Time) (rateLimit : bool)
  : Limiter * bool :=
  match directoryWork l, remoteIP with
  | Some work, Some key =>
      let '(last, admitted) :=
        if rateLimit then admitAddress (directoryLast l) key now else (directoryLast l, true) in
      if negb admitted then ({| directoryLast := last; directoryWork := Some work |}, false)
      else if work <? directorySlots
           then ({| directoryLast := last; directoryWork := Some (work + 1) |}, true)
           else ({| directoryLast := last; directoryWork := Some work |}, false)
  | _, _ => (l, false)
  end.

Definition releaseDirectoryWork (l : Limiter) : Limiter :=
  {| directoryLast := directoryLast l; directoryWork := (λ n, n - 1) <$> directoryWork l |}.

(** * Parameters *)

Lemma Validate_None (c : Config) :
  Validate c = None →
  c_BaseDifficulty c ≤ 22 ∧ MinWorkEpochSeconds ≤ c_EpochSeconds c ≤ MaxWorkEpochSeconds ∧
  0 < c_MaxItemBytes c ≤ DefaultMaxItemBytes ∧ 0 < c_MailboxQuota c ≤ c_StorageCapacity c ∧
  0 < c_MaxFetchItems c ≤ DefaultMaxFetchItems ∧ 0 < c_MaxFetchBytes c ≤ DefaultMaxFetchBytes.
Proof.
  unfold Validate. intros H. step_if H. unbool. unfold MaxWorkDifficulty in *. lia.
Qed.

(** The demanded difficulty rises by at most two bits and stays satisfiable. *)
Lemma EffectiveDifficulty_range (c : Config) (used : Z) :
  0 ≤ c_BaseDifficulty c ≤ 22 →
  c_BaseDifficulty c ≤ EffectiveDifficulty c used ≤ c_BaseDifficulty c + 2.
Proof.
  intros Hb. unfold EffectiveDifficulty, u8, MaxWorkDifficulty. repeat case_match; div_lia.
Qed.

Section ServerFacts.
Context `{C : Crypto} {MO : MapOrder} {MI : Marshaler StoredItem} {DI : StrictDecoder StoredItem}.
Context {DItem : LimitedDecoder StoredItem} {DFetch : LimitedDecoder FetchRequest}
        {DProof : LimitedDecoder ProofRequest} {DDelete : LimitedDecoder DeleteRequest}.

(** A configured node always advertises acceptable parameters: for a valid
    configuration and a store opened with its capacity, the parameters pass the
    check that clients make, and the advertised difficulty is at most two above
    the base and never above the protocol's maximum, so that postage exists. *)
Theorem parameters_valid (cfg : Config) (s : DiskStore) (sg : HybridSigner) (sv : Server) :
  NewServer cfg (Some s) (Some sg) = Ok sv → 0 ≤ c_BaseDifficulty cfg →
  store_ok s → capacity s = c_StorageCapacity cfg →
  ValidateNodeParameters (parameters sv s) = None ∧
  c_BaseDifficulty cfg ≤ np_Difficulty (parameters sv s) ≤ c_BaseDifficulty cfg + 2.
Proof.
  unfold NewServer. destruct (Validate cfg) eqn:Hv; [done|]. intros <-%(inj Ok) Hb Hok Hcap.
  apply Validate_None in Hv as (Hb' & He & Hm & Hq & _).
  pose proof (EffectiveDifficulty_range cfg (Used s) ltac:(lia)) as Hd.
  pose proof (used_nonneg s Hok). pose proof (ok_capacity s Hok).
  assert (0 ≤ Used s ≤ c_StorageCapacity cfg) by (unfold Used; case_match; lia).
  split; [|done]. unfold ValidateNodeParameters, parameters. simpl.
  unfold MaxWorkDifficulty in *.
  rewrite !(proj2 (Z.ltb_ge _ _)), !(proj2 (Z.leb_gt _ _)) by lia. done.
Qed.

(** * Storing *)

Lemma NewServer_identity (cfg : Config) (st : option DiskStore) (sg : HybridSigner) (sv : Server) :
  NewServer cfg st (Some sg) = Ok sv →
  Validate cfg = None ∧ config sv = cfg ∧ signer sv = sg ∧ identity sv = PublicIdentity sg.
Proof.
  unfold NewServer. destruct (Validate cfg); [done|]. destruct st; [|done]. by intros <-%(inj Ok).
Qed.

(** What the store holds under the identifier of an item it took. *)
Lemma put_stored_content (disk disk' : Disk) (s s' : DiskStore) (item : StoredItem) (now : Time) (m : Z) :
  store_ok s → disk_ok disk s → put_result disk s item disk' s' None → ValidateItem item now m = None →
  ∃ stored, items s' !! si_ItemID item = Some stored ∧
    (∃ file, disk' !! filename (si_ItemID item) = Some file ∧
       backed file stored (charge_of s' (si_ItemID item))) ∧
    (items s !! si_ItemID item = None → stored = item) ∧
    (same_content item stored ∨ Sha256.collides (ItemCommitment item) (ItemCommitment stored) ∨
     Sha256.collides (si_Payload item) (si_Payload stored)).
Proof.
  intros Hok Hd Hput Hv. destruct (put_result_ok _ _ _ _ _ _ Hok Hd Hput) as [Hok' Hd'].
  assert (∃ stored, items s' !! si_ItemID item = Some stored ∧ (items s !! si_ItemID item = None → stored = item))
    as (st & Hst & Hnew).
  { inversion Hput as [| |it Hit| |]; subst; [exists it; split; [done|congruence]|].
    exists item. split; [apply lookup_insert_eq|done]. }
  destruct (Hd' _ _ Hst) as [Hfile [t Ht]]. exists st. split_and!; try done.
  eapply item_id_content; [done|done|]. symmetry. by apply (ok_items s' Hok' _ _ Hst).
Qed.

(** C35. A receipt is a promise the node has kept: if a store request is answered
    with 201, the request carried an item that is valid under the node's item
    limit at the server's clock and has enough postage for its current
    parameters; an item is in the store under that identifier, with its file on
    disk, which is the item of the request when the identifier was new and
    otherwise has the same route, token hash, payload and (to the millisecond)
    times, unless the two exhibit a SHA-256 collision; and the answer is a
    receipt for exactly that item that verifies under the node's identity. Any
    other answer except an internal error leaves the store as it was. *)
Theorem handleStore_receipt `{!CryptoLaws C} `{!ItemCodec} (io : IO) (now now' : Time) (coins : bytes)
    (material : PrivateSigningMaterial) (cfg : Config) (sg : HybridSigner) (sv : Server)
    (disk disk' : Disk) (s s' : DiskStore) (r : Request) (resp : Response) :
  NewHybridSigner material = Ok sg → NewServer cfg (Some s) (Some sg) = Ok sv → store_ok s → disk_ok disk s →
  handleStore io now now' coins sv disk s r = (disk', s', resp) →
  (status resp ≠ StatusCreated → status resp ≠ StatusInternalServerError → s' = s) ∧
  (status resp = StatusCreated →
   ∃ item receipt stored,
     body resp = ReceiptBody receipt ∧
     decodeJSON r (c_MaxItemBytes cfg * 2 + 64 * 1024) = Ok item ∧
     ValidateItem item (Truncate now Millisecond) (c_MaxItemBytes cfg) = None ∧
     VerifyWork item (Truncate now Millisecond) (np_EpochSeconds (parameters sv s))
       (np_Difficulty (parameters sv s)) = None ∧
     items s' !! si_ItemID item = Some stored ∧
     (∃ file, disk' !! filename (si_ItemID item) = Some file ∧
        backed file stored (charge_of s' (si_ItemID item))) ∧
     (items s !! si_ItemID item = None → stored = item) ∧
     (same_content item stored ∨ Sha256.collides (ItemCommitment item) (ItemCommitment stored) ∨
      Sha256.collides (si_Payload item) (si_Payload stored)) ∧
     sr_ItemID receipt = si_ItemID item ∧ sr_NodeID receipt = ni_NodeID (identity sv) ∧
     sr_PayloadHash receipt = Sha256.Sum256 (si_Payload item) ∧ sr_ExpiresAt receipt = si_ExpiresAt item ∧
     Verify (identity sv) receiptDomain (ReceiptSigningBytes receipt) (sr_Signature receipt) = true).
Proof.
  intros Hm Hsv Hok Hd. apply NewServer_identity in Hsv as (_ & <- & <- & Hid). unfold handleStore.
  destruct (decodeJSON _ _) as [item|e] eqn:Hdec; [|by intros; simplify_eq].
  destruct (ValidateItem _ _ _) eqn:Hv; [by intros; simplify_eq|].
  destruct (VerifyWork _ _ _ _) eqn:Hw; [by intros; simplify_eq|].
  destruct (Put _ _ _ _ _) as [[d t] e] eqn:Hput. apply Put_result in Hput; [|done].
  destruct e as [e|].
  { intros; simplify_eq. split.
    - intros _ _. by inversion Hput.
    - intros Hst. unfold writeError in Hst. cbn [status] in Hst. by case_match. }
  destruct (put_stored_content _ _ _ _ _ _ _ Hok Hd Hput Hv) as (st & Hst & Hfile & Hnew & Hsame).
  destruct (Sign _ _ _ _) as [sig|e] eqn:Hs; intros; simplify_eq; [|done].
  split; [done|]. intros _. eapply sign_verifies in Hs; [|done]. rewrite <- Hid in Hs.
  by eexists item, _, st.
Qed.

(** * Fetching *)

Lemma checkRouteTags_None (l : list string) (seen : gset string) :
  checkRouteTags l seen = None ↔
  NoDup l ∧ Forall (λ rt, ValidRouteTag rt = true) l ∧ (∀ rt, rt ∈ l → rt ∉ seen).
Proof.
  revert seen. induction l as [|rt l IH]; intros seen; cbn [checkRouteTags].
  { split; [|done]. intros _. split_and!; [apply NoDup_nil_2|constructor|].
    intros rt Hin. by apply elem_of_nil in Hin. }
  rewrite list.NoDup_cons, Forall_cons_iff. destruct (ValidRouteTag rt); [|by split; [|intros (_ & [] & _)]].
  cbn [negb]. case_bool_decide as Hs.
  { split; [done|]. intros (_ & _ & H). exfalso. by apply (H rt (list_elem_of_here _ _)). }
  rewrite IH. setoid_rewrite elem_of_union. setoid_rewrite elem_of_singleton.
  setoid_rewrite elem_of_cons. split.
  - intros (Hnd & Hv & Hn). split_and!; try done.
    + intros Hin. by apply (Hn rt Hin); left.
    + intros rt' [->|Hin]; [done|]. intros ?. by apply (Hn rt' Hin); right.
  - intros ((Hrt & Hnd) & (_ & Hv) & Hn). split_and!; try done.
    intros rt' Hin [->|?]; [done|]. by apply (Hn rt'); [right|].
Qed.

(** C36. A fetch returns a mailbox completely or not at all: for a well-formed list
    of distinct route tags the answer is 200 exactly when all live items of those
    routes fit the node's limits, and then it lists precisely those items, oldest
    first; otherwise it is 413, however often it is repeated. *)
Theorem handleFetch_exact (now : Time) (cfg : Config) (sg : HybridSigner) (sv : Server) (s : DiskStore)
    (r : Request) (rq : FetchRequest) :
  NewServer cfg (Some s) (Some sg) = Ok sv → store_ok s → closed s = false →
  decodeJSON r (64 * 1024) = Ok rq →
  0 < blen (fq_RouteTags rq) ≤ MaxRouteTagsPerFetch → NoDup (fq_RouteTags rq) →
  Forall (λ rt, ValidRouteTag rt = true) (fq_RouteTags rq) →
  let W := live now s (fq_RouteTags rq) in
  if bool_decide (Z.of_nat (size W) ≤ c_MaxFetchItems cfg ∧
                  map_sum (λ _ it, blen (si_Payload it)) W ≤ c_MaxFetchBytes cfg)
  then ∃ l, handleFetch now sv s r = writeJSON StatusOK (ItemsBody l) ∧
            l ≡ₚ (map_to_list W).*2 ∧ StronglySorted created_le l
  else handleFetch now sv s r =
       writeError StatusRequestEntityTooLarge "fetch result exceeds response limits".
Proof.
  intros Hsv Hok Hc Hdec Hlen Hnd Hv W. apply NewServer_identity in Hsv as (Hval & <- & _ & _).
  apply Validate_None in Hval as (_ & _ & _ & _ & Hi & Hb).
  unfold handleFetch. rewrite Hdec.
  rewrite (proj2 (Z.eqb_neq _ _)), (proj2 (Z.ltb_ge _ _)) by lia. cbn [orb].
  rewrite (proj2 (checkRouteTags_None (fq_RouteTags rq) ∅)) by (split_and!; [done..|set_solver]).
  destruct (FetchLimited _ _ _ _ _) as [res trunc] eqn:Hf.
  apply FetchLimited_spec in Hf as (Hiff & Hall & Hsort & _); [|done|..|done|done|lia|lia].
  2:{ unfold DefaultMaxFetchBytes, DefaultMaxItemBytes in *. lia. }
  fold W in Hiff, Hall. destruct trunc.
  - rewrite bool_decide_eq_false_2; [done|]. by intros E%Hiff.
  - rewrite bool_decide_eq_true_2 by (by apply Hiff). exists res. auto.
Qed.

(** * Proving *)

(** A storage proof shows the bytes that are stored: a 200 answer to a challenge
    carries the challenged nonce and offset, exactly the requested bytes of the
    stored payload (never out of range), the hash of the whole payload, and a
    signature that verifies under the node's identity. *)
Theorem handleProof_honest `{!CryptoLaws C} (now now' : Time) (coins : bytes)
    (material : PrivateSigningMaterial) (cfg : Config) (sg : HybridSigner) (sv : Server)
    (s : DiskStore) (r : Request) (resp : Response) :
  NewHybridSigner material = Ok sg → NewServer cfg (Some s) (Some sg) = Ok sv → store_ok s →
  handleProof now now' coins sv s r = resp → status resp = StatusOK →
  ∃ rq item proof, decodeJSON r (16 * 1024) = Ok rq ∧ body resp = ProofBody proof ∧
    items s !! pq_ItemID rq = Some item ∧ now < si_ExpiresAt item ∧
    sp_ItemID proof = pq_ItemID rq ∧ sp_Nonce proof = pq_Nonce rq ∧ sp_Offset proof = pq_Offset rq ∧
    0 ≤ pq_Offset rq ∧ pq_Offset rq + pq_Length rq ≤ blen (si_Payload item) ∧
    sp_Sample proof = take (Z.to_nat (pq_Length rq)) (drop (Z.to_nat (pq_Offset rq)) (si_Payload item)) ∧
    blen (sp_Sample proof) = pq_Length rq ∧
    sp_PayloadHash proof = Sha256.Sum256 (si_Payload item) ∧
    Verify (identity sv) proofDomain (ProofSigningBytes proof) (sp_Signature proof) = true.
Proof.
  intros Hm Hsv Hok. apply NewServer_identity in Hsv as (_ & <- & <- & Hid). unfold handleProof.
  destruct (decodeJSON _ _) as [rq|e]; [|by intros <-].
  destruct (_ || _)%bool eqn:Hg; [by intros <-|]. unbool.
  unfold Get, After. destruct (closed s); [by intros <-|].
  destruct (items s !! _) as [item|] eqn:Hit; [|by intros <-].
  destruct (negb _) eqn:Hexp; [by intros <-|]. unbool.
  destruct (ok_items s Hok _ _ Hit) as (Hiid & _ & Hpay).
  unfold MaxProofSampleBytes, DefaultMaxItemBytes in *.
  rewrite (i64_small (blen _ - _)) by lia. destruct (_ <? pq_Offset rq) eqn:Hoff; [by intros <-|]. unbool.
  rewrite i64_small by lia.
  destruct (Sign _ _ _ _) as [sig|e] eqn:Hs; [|by intros <-]. intros <- _.
  eapply sign_verifies in Hs; [|done]. rewrite <- Hid in Hs.
  eexists rq, item, _. split_and!; try done; cbn [sp_ItemID sp_Sample]; try lia.
  - unfold slice. do 2 f_equal. lia.
  - unfold slice, blen in *. rewrite length_take, length_drop. lia.
Qed.

(** * Deleting *)

(** C17. Deletion needs the capability and leaks nothing: without a live item whose
    token hash matches, a well-formed delete request changes nothing and gets
    the same 404 answer whether the item is unknown, expired or guarded by
    another token; a 200 answer means that the token matched and that the item
    and its file are gone. *)
Theorem handleDelete_authorized (io : IO) (now now' : Time) (coins : bytes) (sv : Server)
    (disk disk' : Disk) (s s' : DiskStore) (r : Request) (rq : DeleteRequest) (resp : Response) :
  store_ok s → closed s = false → honest io → decodeJSON r (16 * 1024) = Ok rq →
  validItemID (dq_ItemID rq) = true → blen (dq_DeleteToken rq) = CapabilityBytes →
  handleDelete io now now' coins sv disk s r = (disk', s', resp) →
  ((∀ item, items s !! dq_ItemID rq = Some item → now < si_ExpiresAt item →
      DeleteTokenMatches (si_DeleteTokenHash item) (dq_DeleteToken rq) = false) →
   disk' = disk ∧ s' = s ∧ resp = writeError StatusNotFound ErrNotFound) ∧
  (status resp = StatusOK →
   ∃ item, items s !! dq_ItemID rq = Some item ∧
     DeleteTokenMatches (si_DeleteTokenHash item) (dq_DeleteToken rq) = true ∧
     items s' !! dq_ItemID rq = None ∧ disk' !! filename (dq_ItemID rq) = None).
Proof.
  intros Hok Hc Hio Hdec Hid Htok. unfold handleDelete. rewrite Hdec, Hid, Htok, Z.eqb_refl. cbn [negb orb].
  unfold Get, After. rewrite Hc. destruct (items s !! _) as [item|] eqn:Hit; [|by intros; simplify_eq].
  destruct (now <? si_ExpiresAt item) eqn:Hexp; cbn [negb]; [|by intros; simplify_eq]. unbool.
  destruct (DeleteTokenMatches _ _) eqn:Hmatch; cbn [negb]; [|by intros; simplify_eq].
  destruct (ok_items s Hok _ _ Hit) as (-> & _ & _).
  destruct (Delete _ _ _ _) as [[d t] e] eqn:Hd. intros Hres. split.
  { intros Hno. by rewrite (Hno item) in Hmatch. }
  intros Hst. exists item. split; [done|]. split; [done|].
  destruct e as [e|]; [by simplify_eq|].
  assert (Heq : disk' = d ∧ s' = t) by (destruct (Sign _ _ _ _); by simplify_eq).
  destruct Heq as [-> ->]. apply Delete_cases in Hd as [(_ & _ & err & ?)|(it & _ & -> & _ & _ & Hgone)]; [done|].
  split; [|by apply Hgone]. cbn [unindex items]. apply lookup_delete_eq.
Qed.

End ServerFacts.

(** * The limiter over time *)

(** What can happen to the limiter: a request asks for a slot, or the handler of
    a request that got one returns it. *)
Inductive Event :=
| Acquire (remoteIP : option string) (now : Time) (rateLimit : bool)
| Release.

Definition event (l : Limiter) (ev : Event) : Limiter :=
  match ev with
  | Acquire ip now rl => (acquireDirectoryWork l ip now rl).1
  | Release => if bool_decide (directoryWork l = Some 0) then l else releaseDirectoryWork l
  end.

Definition events (l : Limiter) (evs : list Event) : Limiter := fold_left event evs l.

Definition limiter_ok (l : Limiter) : Prop :=
  Z.of_nat (size (directoryLast l)) ≤ directoryAddresses ∧
  ∀ w, directoryWork l = Some w → 0 ≤ w ≤ directorySlots.

(** Follow the first guard of [admitAddress]. *)
Ltac case_recent :=
  match goal with
  | |- context [if ?b then (?l, false) else _] => destruct b
  | H : context [if ?b then (?l, false) else _] |- _ => destruct b
  end.

Lemma admitAddress_size (last last' : gmap string Time) (key : string) (now : Time) (b : bool) :
  Z.of_nat (size last) ≤ directoryAddresses → admitAddress last key now = (last', b) →
  Z.of_nat (size last') ≤ directoryAddresses.
Proof.
  intros Hs. unfold admitAddress. case_recent; [by intros [= <- <-]|].
  assert (Hsw : (size (sweptAddresses last now) ≤ size last)%nat).
  { unfold sweptAddresses. case_match; [|done]. apply map_subseteq_size, map_filter_subseteq. }
  destruct (_ <=? Z.of_nat (size (sweptAddresses _ _))) eqn:E; intros [= <- <-]; unbool; [lia|].
  pose proof (map_size_insert key now (sweptAddresses last now)) as Hi.
  destruct (sweptAddresses last now !! key); simpl in Hi; lia.
Qed.

Lemma event_ok (l : Limiter) (ev : Event) : limiter_ok l → limiter_ok (event l ev).
Proof.
  intros Hl. pose proof Hl as [Hs Hw]. destruct ev as [ip now rl|]; cbn [event].
  - unfold acquireDirectoryWork. destruct (directoryWork l) as [w|] eqn:Ew; [|exact Hl].
    destruct ip as [key|]; [|exact Hl]. specialize (Hw w eq_refl).
    destruct (if rl then _ else _) as [last b] eqn:Ea.
    assert (Z.of_nat (size last) ≤ directoryAddresses).
    { destruct rl; [by eapply admitAddress_size|by simplify_eq]. }
    destruct b; cbn [negb]; [destruct (w <? directorySlots) eqn:E; unbool|];
      (split; [done|]); simpl; intros ? [= <-]; lia.
  - case_bool_decide as E; [exact Hl|]. split; [done|]. unfold releaseDirectoryWork. simpl.
    destruct (directoryWork l) as [w|] eqn:Ew; [|done]. simpl. intros ? [= <-].
    specialize (Hw w eq_refl). assert (w ≠ 0) by congruence. lia.
Qed.

(** An address seen at [t] is still there, not older, at any later event of the
    next ten minutes. *)
Lemma event_keeps (l : Limiter) (ev : Event) (key : string) (t t' tau : Time) :
  directoryLast l !! key = Some tau → t ≤ tau ≤ t' → t' ≤ t + 10 * Minute →
  (∀ ip now rl, ev = Acquire ip now rl → t ≤ now ≤ t') →
  ∃ tau', directoryLast (event l ev) !! key = Some tau' ∧ t ≤ tau' ≤ t'.
Proof.
  intros Hk Ht Hten Hev. destruct ev as [ip now rl|]; cbn [event]; [|case_bool_decide; simpl; eauto].
  specialize (Hev ip now rl eq_refl). unfold acquireDirectoryWork.
  destruct (directoryWork l); [|eauto]. destruct ip as [key'|]; [|eauto].
  destruct (if rl then _ else _) as [last b] eqn:Ea.
  assert (Hlast : ∃ tau', last !! key = Some tau' ∧ t ≤ tau' ≤ t').
  { destruct rl; [|simplify_eq; eauto]. unfold admitAddress in Ea.
    case_recent; [simplify_eq; eauto|].
    assert (Hsw : sweptAddresses (directoryLast l) now !! key = Some tau).
    { unfold sweptAddresses. destruct (_ <=? Z.of_nat (size (directoryLast l))); [|exact Hk]. apply map_lookup_filter_Some. split; [done|].
      unfold Before, TAdd. simpl. apply Z.ltb_ge. lia. }
    destruct (_ <=? Z.of_nat (size (sweptAddresses _ _))); simplify_eq; [eauto|].
    destruct (decide (key' = key)) as [->|Hne]; [rewrite lookup_insert_eq; eauto|].
    rewrite lookup_insert_ne by done. eauto. }
  destruct b; cbn [negb]; [destruct (_ <? directorySlots)|]; exact Hlast.
Qed.

Lemma events_keep (l : Limiter) (evs : list Event) (key : string) (t t' tau : Time) :
  directoryLast l !! key = Some tau → t ≤ tau ≤ t' → t' ≤ t + 10 * Minute →
  (∀ ip now rl, Acquire ip now rl ∈ evs → t ≤ now ≤ t') →
  ∃ tau', directoryLast (events l evs) !! key = Some tau' ∧ t ≤ tau' ≤ t'.
Proof.
  revert l tau. induction evs as [|ev evs IH]; intros l tau Hk Ht Hten Hev; [cbn; eauto|].
  destruct (event_keeps l ev key t t' tau Hk Ht Hten) as (tau' & Hk' & Ht').
  { intros ip now rl ->. eapply Hev, list_elem_of_here. }
  apply (IH (event l ev) tau'); [done..|]. intros. by eapply Hev, list_elem_of_further.
Qed.

(** The directory limiter holds: over any sequence of requests there are never
    more than 8 slots taken nor more than 4096 remembered addresses, and an
    address that obtained a rate-limited slot gets no second one within a
    second, whatever other requests come in between. *)
Theorem limiter_spacing (evs evs' : list Event) (key : string) (t t' : Time) (l1 : Limiter) :
  let l0 := events enabledLimiter evs in
  acquireDirectoryWork l0 (Some key) t true = (l1, true) → t ≤ t' < t + Second →
  (∀ ip now rl, Acquire ip now rl ∈ evs' → t ≤ now ≤ t') →
  limiter_ok (events l1 evs') ∧ (acquireDirectoryWork (events l1 evs') (Some key) t' true).2 = false.
Proof.
  intros l0 Ha Ht Hev.
  assert (Hok : ∀ l evs, limiter_ok l → limiter_ok (events l evs)).
  { intros l es. revert l. induction es as [|ev es IH]; intros l Hl; [done|]. apply IH. by apply event_ok. }
  assert (Hok1 : limiter_ok l1).
  { replace l1 with (event l0 (Acquire (Some key) t true)) by (cbn [event]; by rewrite Ha).
    apply event_ok, Hok. split; simpl; [by rewrite map_size_empty|]. by intros w [= <-]. }
  split; [by apply Hok|].
  assert (Hk : directoryLast l1 !! key = Some t).
  { unfold acquireDirectoryWork, admitAddress in Ha. destruct (directoryWork l0); [|done].
    case_recent; [done|].
    destruct (_ <=? Z.of_nat (size (sweptAddresses _ _))); [done|]. cbn [negb] in Ha.
    case_match; [|done]. injection Ha as <-. apply lookup_insert_eq. }
  unfold Second, Minute, Millisecond in *.
  destruct (events_keep l1 evs' key t t' t) as (tau & Htau & Hr); [done|lia|unfold Minute, Second, Millisecond; lia|done|].
  unfold acquireDirectoryWork. destruct (directoryWork _); [|done]. unfold admitAddress. rewrite Htau.
  unfold TSub. rewrite (proj2 (Z.ltb_lt _ _)); [done|]. unfold Second, Millisecond. lia.
Qed.

(** * Witnesses *)

#[local] Existing Instances Toy.crypto Toy.laws NodeStore.Sample.marshal_item
  NodeStore.Sample.decode_item NodeStore.Sample.codec.

Module Sample.

Definition limited {A} (get : bytes → option A) (limit : Z) (b : bytes) : Result A :=
  if limit <? blen b then Err "http: request body too large"
  else match get b with Some a => Ok a | None => Err "bad request" end.

#[export] Instance decode_item : LimitedDecoder StoredItem := limited Samples.item_get.
#[export] Instance decode_fetch : LimitedDecoder FetchRequest :=
  limited (λ b, '(l, _) ← ToyCodec.get b; Some {| fq_RouteTags := l |}).
#[export] Instance decode_proof : LimitedDecoder ProofRequest :=
  limited (λ b, '(id, b) ← ToyCodec.get b; '(n, b) ← ToyCodec.get b; '(o, b) ← ToyCodec.get b;
                '(len, _) ← ToyCodec.get b;
                Some {| pq_ItemID := id; pq_Nonce := n; pq_Offset := o; pq_Length := len |}).
#[export] Instance decode_delete : LimitedDecoder DeleteRequest :=
  limited (λ b, '(id, b) ← ToyCodec.get b; '(tok, _) ← ToyCodec.get b;
                Some {| dq_ItemID := id; dq_DeleteToken := tok |}).

Definition cfg : Config := {|
  c_ListenAddress := ""; c_DataDir := ""; c_KeyFile := ""; c_BaseDifficulty := 5;
  c_EpochSeconds := 600; c_MaxItemBytes := DefaultMaxItemBytes;
  c_StorageCapacity := NodeStore.Sample.limit; c_MailboxQuota := NodeStore.Sample.limit;
  c_MaxFetchItems := 10; c_MaxFetchBytes := 1000; c_SweepInterval := Minute;
  c_MaxConcurrentRequests := 1 |}.

Definition server : Server :=
  {| config := cfg; signer := Toy.signer x01; identity := Toy.identity x01 |}.

Lemma started (s : DiskStore) : NewServer cfg (Some s) (Some (Toy.signer x01)) = Ok server.
Proof. reflexivity. Qed.

Definition post (b : bytes) : Request := {| rq_mediaType := Ok "application/json"%string; rq_body := b |}.

Definition no_io : IO := λ _, None.
Definition now : Time := Samples.now.
Definition empty : DiskStore := NodeStore.Sample.empty.
Definition full : DiskStore := NodeStore.Sample.stored.2.
Definition files : Disk := NodeStore.Sample.stored.1.
Definition id : string := si_ItemID Samples.item.

Definition store_request : Request := post (Samples.item_put (set_Work Samples.item sample_proof)).
Definition fetch_request : Request := post (ToyCodec.put [Samples.route] []).
Definition proof_request : Request :=
  post (ToyCodec.put id (ToyCodec.put (replicate 16 x05) (ToyCodec.put 2 (ToyCodec.put 4 [])))).
Definition delete_request (token : bytes) : Request := post (ToyCodec.put id (ToyCodec.put token [])).

End Sample.

#[local] Existing Instances Sample.decode_item Sample.decode_fetch Sample.decode_proof Sample.decode_delete.

Lemma parameters_valid_witness : ValidateNodeParameters (parameters Sample.server Sample.full) = None.
Proof.
  apply (parameters_valid Sample.cfg Sample.full (Toy.signer x01) Sample.server (Sample.started _)
    ltac:(vm_compute; discriminate) (proj1 NodeStore.Sample.stored_ok)). vm_compute. reflexivity.
Defined.

Lemma handleStore_receipt_witness :
  ∃ disk' s' resp receipt,
    handleStore Sample.no_io Sample.now Sample.now [] Sample.server ∅ Sample.empty Sample.store_request
      = (disk', s', resp) ∧ body resp = ReceiptBody receipt ∧
    Verify (identity Sample.server) receiptDomain (ReceiptSigningBytes receipt) (sr_Signature receipt) = true.
Proof.
  destruct (handleStore Sample.no_io Sample.now Sample.now [] Sample.server ∅ Sample.empty Sample.store_request)
    as [[d s] resp] eqn:Hs.
  assert (Hst : status (handleStore Sample.no_io Sample.now Sample.now [] Sample.server ∅ Sample.empty
    Sample.store_request).2 = StatusCreated) by (vm_compute; reflexivity). rewrite Hs in Hst.
  destruct (handleStore_receipt Sample.no_io Sample.now Sample.now [] (Toy.material x01) Sample.cfg
    (Toy.signer x01) Sample.server ∅ d Sample.empty s Sample.store_request resp
    (Toy.NewHybridSigner_material x01) (Sample.started _) (proj1 NodeStore.Sample.empty_ok)
    (proj2 NodeStore.Sample.empty_ok) Hs) as [_ Hr].
  destruct (Hr Hst) as (it & receipt & st & Hb & _ & _ & _ & _ & _ & _ & _ & _ & _ & _ & _ & Hv).
  exists d, s, resp, receipt. split; [reflexivity|]. split; [exact Hb|exact Hv].
Defined.

Lemma handleFetch_exact_witness :
  ∃ l, handleFetch Sample.now Sample.server Sample.full Sample.fetch_request = writeJSON StatusOK (ItemsBody l) ∧
       l ≡ₚ [Samples.item].
Proof.
  pose proof (handleFetch_exact Sample.now Sample.cfg (Toy.signer x01) Sample.server Sample.full
    Sample.fetch_request {| fq_RouteTags := [Samples.route] |} (Sample.started _)
    (proj1 NodeStore.Sample.stored_ok) eq_refl) as H.
  assert (Hw : (map_to_list (live Sample.now Sample.full [Samples.route])).*2 = [Samples.item])
    by (vm_compute; reflexivity).
  cbv zeta in H. cbn [fq_RouteTags] in H. rewrite bool_decide_eq_true_2 in H by (split; vm_compute; discriminate).
  rewrite Hw in H. destruct H as (l & Hl & Hp & _).
  - vm_compute; reflexivity.
  - vm_compute. split; [reflexivity|discriminate].
  - apply NoDup_singleton.
  - constructor; [vm_compute; reflexivity|constructor].
  - exists l. split; [exact Hl|exact Hp].
Defined.

Lemma handleProof_honest_witness :
  ∃ proof, body (handleProof Sample.now Sample.now [] Sample.server Sample.full Sample.proof_request) = ProofBody proof ∧
           sp_Sample proof = str_bytes "pher".
Proof.
  remember (handleProof Sample.now Sample.now [] Sample.server Sample.full Sample.proof_request) as resp eqn:Hp.
  assert (Hst : status resp = StatusOK) by (rewrite Hp; vm_compute; reflexivity).
  destruct (handleProof_honest Sample.now Sample.now [] (Toy.material x01) Sample.cfg (Toy.signer x01)
    Sample.server Sample.full Sample.proof_request resp (Toy.NewHybridSigner_material x01) (Sample.started _)
    (proj1 NodeStore.Sample.stored_ok) (eq_sym Hp) Hst)
    as (rq & item & proof & Hrq & Hb & Hit & _ & _ & _ & _ & _ & _ & Hsample & _).
  exists proof. split; [exact Hb|]. rewrite Hsample.
  assert (rq = {| pq_ItemID := Sample.id; pq_Nonce := replicate 16 x05; pq_Offset := 2; pq_Length := 4 |}) as ->.
  { assert (E : decodeJSON Sample.proof_request (16 * 1024) =
      Ok {| pq_ItemID := Sample.id; pq_Nonce := replicate 16 x05; pq_Offset := 2; pq_Length := 4 |})
      by (vm_compute; reflexivity). rewrite E in Hrq. by apply (inj Ok) in Hrq as <-. }
  assert (Hi : items Sample.full !! Sample.id = Some Samples.item) by (vm_compute; reflexivity).
  cbn [pq_ItemID pq_Offset pq_Length] in *. rewrite Hi in Hit. injection Hit as <-. vm_compute. reflexivity.
Defined.

Lemma handleDelete_authorized_witness :
  ∃ disk' s' resp,
    handleDelete Sample.no_io Sample.now Sample.now [] Sample.server Sample.files Sample.full
      (Sample.delete_request (replicate 32 x09)) = (disk', s', resp) ∧
    s' = Sample.full ∧ resp = writeError StatusNotFound ErrNotFound.
Proof.
  destruct (handleDelete Sample.no_io Sample.now Sample.now [] Sample.server Sample.files Sample.full
    (Sample.delete_request (replicate 32 x09))) as [[d s] resp] eqn:Hd.
  exists d, s, resp. split; [reflexivity|].
  assert (Hio : honest Sample.no_io) by (intros n; discriminate).
  assert (Hrq : decodeJSON (Sample.delete_request (replicate 32 x09)) (16 * 1024) =
    Ok {| dq_ItemID := Sample.id; dq_DeleteToken := replicate 32 x09 |}) by (vm_compute; reflexivity).
  destruct (handleDelete_authorized Sample.no_io Sample.now Sample.now [] Sample.server Sample.files d
    Sample.full s (Sample.delete_request (replicate 32 x09))
    {| dq_ItemID := Sample.id; dq_DeleteToken := replicate 32 x09 |} resp
    (proj1 NodeStore.Sample.stored_ok) eq_refl Hio Hrq ltac:(vm_compute; reflexivity) eq_refl Hd) as [Hno _].
  destruct Hno as (_ & Hs & Hr); [|exact (conj Hs Hr)].
  intros item Hit _. cbn [dq_ItemID dq_DeleteToken] in *.
  assert (Hi : items Sample.full !! Sample.id = Some Samples.item) by (vm_compute; reflexivity).
  rewrite Hi in Hit. injection Hit as <-. vm_compute. reflexivity.
Defined.

Lemma limiter_spacing_witness :
  ∃ l1, acquireDirectoryWork enabledLimiter (Some "192.0.2.1"%string) Sample.now true = (l1, true) ∧
        (acquireDirectoryWork (events l1 [Release]) (Some "192.0.2.1"%string) (Sample.now + Millisecond) true).2 = false.
Proof.
  eexists. split; [reflexivity|].
  refine (proj2 (limiter_spacing [] [Release] "192.0.2.1" Sample.now (Sample.now + Millisecond) _ eq_refl _ _)).
  - vm_compute. split; [discriminate|reflexivity].
  - intros ip now rl [E|E]%elem_of_cons; [discriminate|]. by apply elem_of_nil in E.
Defined.

End NodeServer.
