(* ===== verification/NodeKeys.v ===== *)
(** The node's signing key on disk (src/node/keys.go, LoadOrCreateSigner): read if it is
    there, made and written atomically if it is not. [disk] is the directory of the path,
    in which the file is the entry [Base path] (a path that does not end in a slash);
    [here] tells that this directory is the current one. *)
From S2P Require Import Prelude Sha256 Encoding Protocol Crypto Files NodeStore.
Local Open Scope Z_scope.

Module NodeKeys.

Import NodeStore.

Definition MaxKeyFileBytes : Z := 64 * 1024.

Section Keys.
Context `{C : Crypto} {KG : KeyGen C} {MP : Marshaler PrivateSigningMaterial} {DP : StrictDecoder PrivateSigningMaterial}.

(** [os.ReadFile]. *)
Definition os_ReadFile (io : IO) (disk : Disk) (name : string) : Result bytes :=
  match io (ReadFile name) with
  | Some e => Err e
  | None => match disk !! name with Some file => Ok (f_data file) | None => Err ErrNotExist end
  end.

(** [os.Lstat] and the checks on what it finds. *)
Definition unfit (io : IO) (disk : Disk) (name : string) : bool :=
  match io (EntryInfo name), disk !! name with
  | None, Some file =>
      negb (f_regular file) || negb (f_private file) || (blen (f_data file) <=? 0) || (MaxKeyFileBytes <? blen (f_data file))
  | _, _ => false
  end.

Definition createSigner (io : IO) (disk : Disk) (name : string) (edCoins pqCoins : bytes) : Disk * Result HybridSigner :=
  match GenerateHybridSigner edCoins pqCoins with
  | Err e => (disk, Err e)
  | Ok signer =>
      match Marshal (PrivateMaterial signer) with
      | Err e => (disk, Err e)
      | Ok encoded =>
          match writePrivateAtomic io disk name encoded with
          | (disk, Some e) => (disk, Err e)
          | (disk, None) => (disk, Ok signer)
          end
      end
  end.

Definition LoadOrCreateSigner (io : IO) (here : bool) (disk : Disk) (path : string) (edCoins pqCoins : bytes)
  : Disk * Result HybridSigner :=
  let name := Base path in
  if bool_decide (path = ""%string) || String.prefix temporaryPrefix name
  then (disk, Err "invalid node signing key path")
  else match (if here then None else io EnsureDir) with
  | Some e => (disk, Err e)
  | None =>
      match cleanupPrivateTemporaries (inner io) disk name with
      | (disk, Some e) => (disk, Err e)
      | (disk, None) =>
          if unfit io disk name then (disk, Err "node signing key file is not a private regular file")
          else match os_ReadFile io disk name with
          | Ok data =>
              (disk, match decodeStrict data with Err e => Err e | Ok material => NewHybridSigner material end)
          | Err e =>
              if negb (bool_decide (e = ErrNotExist)) then (disk, Err e)
              else createSigner io disk name edCoins pqCoins
          end
      end
  end.

(** * Properties *)

Lemma cleanup_loop_keeps (io : IO) (prefix name : string) (entries : list (string * File)) (disk disk' : Disk)
    (r : bool) (r' : bool + error) :
  String.prefix prefix name = false → cleanup_loop io prefix entries disk r = (disk', r') → disk' !! name = disk !! name.
Proof.
  intros Hn. revert disk r. induction entries as [|[n file] entries IH]; intros disk r H; simpl in H; [by simplify_eq|].
  destruct (String.prefix prefix n) eqn:Hp; cbn [negb] in H; [|by eapply IH].
  destruct (_ || _); [by simplify_eq|]. destruct (os_Remove io disk n) as [d [e|]] eqn:Hr.
  - injection H as <- _. eapply os_Remove_lookup; [exact Hr|congruence].
  - rewrite (IH _ _ H). eapply os_Remove_lookup; [exact Hr|congruence].
Qed.

(** A clean-up without error leaves none of the listed temporaries. *)
Lemma cleanup_loop_gone (io : IO) (prefix n : string) (entries : list (string * File)) (disk disk' : Disk) (r r' : bool) :
  cleanup_loop io prefix entries disk r = (disk', inl r') → String.prefix prefix n = true →
  (is_Some (disk !! n) → n ∈ entries.*1) → disk' !! n = None.
Proof.
  revert disk r. induction entries as [|[x file] entries IH]; intros disk r H Hp Hin; simpl in *.
  - injection H as <- _. destruct (disk !! n) eqn:Hd; [|done]. exfalso. by eapply elem_of_nil, Hin.
  - destruct (String.prefix prefix x) eqn:Hx; cbn [negb] in H.
    2: { eapply IH; [exact H|done|]. intros Hs. destruct (proj1 (elem_of_cons _ _ _) (Hin Hs)) as [->|?]; [congruence|done]. }
    destruct (_ || _); [done|]. destruct (os_Remove io disk x) as [d [e|]] eqn:Hr; [done|].
    eapply IH; [exact H|done|]. intros Hs.
    assert (d = delete x disk) as ->.
    { unfold os_Remove in Hr. destruct (io _); [done|]. destruct (disk !! x); by simplify_eq. }
    apply lookup_delete_is_Some in Hs as [Hne Hs]. destruct (proj1 (elem_of_cons _ _ _) (Hin Hs)); [congruence|done].
Qed.

(** The temporaries of the key file. *)
Definition temporaryOf (name : string) : string := (temporaryPrefix +:+ name +:+ "-")%string.

Lemma cleanup_keeps (io : IO) (disk disk' : Disk) (name : string) (e : option error) :
  name ≠ ""%string → String.prefix temporaryPrefix name = false →
  cleanupPrivateTemporaries io disk name = (disk', e) → disk' !! name = disk !! name.
Proof.
  intros Hne Hp. unfold cleanupPrivateTemporaries. destruct (io ReadDir); [by intros ?; simplify_eq|].
  rewrite bool_decide_eq_false_2 by done. destruct (cleanup_loop _ _ _ _ _) as [d r] eqn:Hl. intros H.
  assert (d !! name = disk !! name) as Hd.
  { refine (cleanup_loop_keeps _ _ _ _ _ _ _ _ _ Hl). apply not_true_is_false. intros Hx.
    by rewrite (prefix_trans _ _ _ Hx) in Hp. }
  destruct r; by simplify_eq.
Qed.

Lemma cleanup_gone (io : IO) (disk disk' : Disk) (name n : string) :
  name ≠ ""%string → cleanupPrivateTemporaries io disk name = (disk', None) →
  String.prefix (temporaryOf name) n = true → disk' !! n = None.
Proof.
  intros Hne. unfold cleanupPrivateTemporaries. destruct (io ReadDir); [done|]. rewrite bool_decide_eq_false_2 by done.
  destruct (cleanup_loop _ _ _ _ _) as [d [r|e]] eqn:Hl; [|done]. intros [= <- _] Hp.
  eapply cleanup_loop_gone; [exact Hl|exact Hp|]. intros [file Hf]. apply list_elem_of_fmap. exists (n, file).
  split; [done|]. by apply ReadDir_elem.
Qed.

(** Without temporaries there is nothing to clean up. *)
Lemma cleanup_loop_idle (io : IO) (prefix : string) (entries : list (string * File)) (disk : Disk) (r : bool) :
  (∀ n, n ∈ entries.*1 → String.prefix prefix n = false) → cleanup_loop io prefix entries disk r = (disk, inl r).
Proof.
  induction entries as [|[n file] entries IH]; intros Hn; [done|]. cbn [cleanup_loop].
  rewrite (Hn n) by (apply elem_of_cons; by left). cbn [negb]. apply IH. intros x Hx. apply Hn, elem_of_cons. by right.
Qed.

Lemma cleanup_idle (io : IO) (disk : Disk) (name : string) :
  name ≠ ""%string → io ReadDir = None → (∀ n, String.prefix (temporaryOf name) n = true → disk !! n = None) →
  cleanupPrivateTemporaries io disk name = (disk, None).
Proof.
  intros Hne Hio Hn. unfold cleanupPrivateTemporaries. rewrite Hio, bool_decide_eq_false_2 by done.
  rewrite cleanup_loop_idle; [done|]. intros n Hin. apply list_elem_of_fmap in Hin as ([x file] & -> & Hf).
  apply ReadDir_elem in Hf. destruct (String.prefix _ _) eqn:Hp; [|done]. cbn [fst] in Hp. by rewrite (Hn _ Hp) in Hf.
Qed.



Lemma Base_nonempty (path : string) : Base path ≠ ""%string.
Proof.
  unfold Base. case_bool_decide; [done|]. destruct (afterLastSlash _) as [|x l]; [done|]. done.
Qed.

Definition usablePath (path : string) : Prop := path ≠ ""%string ∧ String.prefix temporaryPrefix (Base path) = false.

(** A private file of admissible size is read and restored, and nothing changes. *)
Lemma load_quiet (io : IO) (here : bool) (disk : Disk) (path : string) (data edCoins pqCoins : bytes) :
  quiet io → usablePath path → (∀ n, String.prefix (temporaryOf (Base path)) n = true → disk !! n = None) →
  disk !! Base path = Some {| f_dir := false; f_regular := true; f_private := true; f_data := data |} →
  0 < blen data ≤ MaxKeyFileBytes →
  LoadOrCreateSigner io here disk path edCoins pqCoins =
    (disk, match decodeStrict data with Err e => Err e | Ok material => NewHybridSigner material end).
Proof.
  intros Hio [Hne Hp] Hn Hf Hsz. unfold LoadOrCreateSigner. cbv zeta. rewrite bool_decide_eq_false_2, Hp by done. cbn [orb].
  rewrite (Hio EnsureDir). replace (if here then None else None) with (@None error) by by destruct here.
  rewrite cleanup_idle by (done || apply Base_nonempty || apply Hio). unfold unfit, os_ReadFile. rewrite !Hio, Hf. cbn [f_regular f_private f_data negb orb].
  by rewrite (proj2 (Z.leb_gt _ _)), (proj2 (Z.ltb_ge _ _)) by lia.
Qed.

(** A created signer is restored by its own key file, which is on disk. *)
Lemma createSigner_stored {CL : CryptoLaws C} (io : IO) (disk disk' : Disk) (name : string) (edCoins pqCoins : bytes)
    (s : HybridSigner) :
  createSigner io disk name edCoins pqCoins = (disk', Ok s) →
  GenerateHybridSigner edCoins pqCoins = Ok s ∧ NewHybridSigner (PrivateMaterial s) = Ok s ∧ ∃ data, Marshal (PrivateMaterial s) = Ok data ∧
    disk' = <[name := {| f_dir := false; f_regular := true; f_private := true; f_data := data |}]> disk.
Proof.
  unfold createSigner. destruct (GenerateHybridSigner _ _) as [g|] eqn:Hg; [|done].
  destruct (Marshal _) as [data|] eqn:Hm; [|done].
  destruct (writePrivateAtomic _ _ _ _) as [d [e|]] eqn:Hw; [done|]. intros [= <- <-].
  split; [done|]. split; [eapply restore_signer, generated_size, Hg|]. exists data. split; [done|].
  by destruct (atomicWrite_cases _ _ _ _ _ _ _ Hw) as [[_ [? ?]]|[(? & ? & _ & _ & _ & _ & _ & ? & ?)|[? _]]].
Qed.

(** The guards and the clean-up, before the file is looked at. *)
Lemma load_steps (io : IO) (here : bool) (disk disk' : Disk) (path : string) (edCoins pqCoins : bytes) (r : Result HybridSigner) :
  let name := Base path in
  LoadOrCreateSigner io here disk path edCoins pqCoins = (disk', r) →
  (disk' !! name = disk !! name ∧ ∃ e, r = Err e) ∨
  usablePath path ∧ ∃ d, cleanupPrivateTemporaries (inner io) disk name = (d, None) ∧ d !! name = disk !! name ∧
    match os_ReadFile io d name with
    | Ok data => (d, match decodeStrict data with Err e => Err e | Ok material => NewHybridSigner material end)
    | Err e => if negb (bool_decide (e = ErrNotExist)) then (d, Err e) else createSigner io d name edCoins pqCoins
    end = (disk', r).
Proof.
  intros name. unfold LoadOrCreateSigner. fold name. cbv zeta. destruct (bool_decide _ || _) eqn:Hg; [intros [= <- <-]; left; eauto|].
  destruct (if here then _ else _); [intros [= <- <-]; left; eauto|]. unbool.
  destruct (cleanupPrivateTemporaries (inner io) disk name) as [d [e|]] eqn:Hc;
    pose proof (cleanup_keeps _ _ _ _ _ (Base_nonempty path) ltac:(done) Hc) as Hk; [intros [= <- <-]; left; eauto|].
  destruct (unfit io d name); [intros [= <- <-]; left; eauto|]. intros Hload. right. split; [done|]. eauto.
Qed.

Lemma restored_size (material : PrivateSigningMaterial) (s : HybridSigner) :
  NewHybridSigner material = Ok s → blen (edPrivate s) = ed25519_PrivateKeySize.
Proof.
  unfold NewHybridSigner. destruct (negb _) eqn:E; [done|]. unbool. destruct (mldsa65_UnmarshalPrivate _); [|done].
  by intros <-%(inj Ok).
Qed.

(** The signer of a node has keys of the right size. *)
Lemma loaded_size {CL : CryptoLaws C} (io : IO) (here : bool) (disk disk' : Disk) (path : string) (edCoins pqCoins : bytes)
    (s : HybridSigner) :
  LoadOrCreateSigner io here disk path edCoins pqCoins = (disk', Ok s) → blen (edPrivate s) = ed25519_PrivateKeySize.
Proof.
  intros [[_ [? ?]]|(_ & d & _ & _ & H)]%load_steps; [done|]. destruct (os_ReadFile _ _ _).
  - injection H as _ H. destruct (decodeStrict _); [|done]. by eapply restored_size.
  - destruct (negb _); [done|]. apply createSigner_stored in H as (_ & H & _). by eapply restored_size.
Qed.

(** C23. A node keeps its identity. A key file that is there is never touched,
    whatever fails, unless the system says it does not exist, and the signer returned is
    the one its contents restore. A key that was made is on disk when it is returned,
    and the next start, if nothing fails, returns the same signer and changes nothing. *)
Theorem LoadOrCreateSigner_stable (io io' : IO) (here here' : bool) (disk disk' : Disk) (path : string)
    (edCoins pqCoins edCoins' pqCoins' : bytes) (r : Result HybridSigner) {CL : CryptoLaws C} :
  (∀ s b, GenerateHybridSigner edCoins pqCoins = Ok s → Marshal (PrivateMaterial s) = Ok b →
     decodeStrict b = Ok (PrivateMaterial s) ∧ 0 < blen b ≤ MaxKeyFileBytes) →
  LoadOrCreateSigner io here disk path edCoins pqCoins = (disk', r) →
  (∀ file, disk !! Base path = Some file → io (ReadFile (Base path)) ≠ Some ErrNotExist →
     disk' !! Base path = Some file ∧
     ∀ s, r = Ok s → ∃ material, decodeStrict (f_data file) = Ok material ∧ NewHybridSigner material = Ok s) ∧
  (disk !! Base path = None → quiet io' → ∀ s, r = Ok s →
     LoadOrCreateSigner io' here' disk' path edCoins' pqCoins' = (disk', Ok s)).
Proof.
  intros Hcodec [[Hk [e ->]]|(Hn & d & Hc & Hk & H)]%load_steps.
  { split; [|done]. intros file Hf _. by rewrite Hk. }
  unfold os_ReadFile in H. rewrite Hk in H. split.
  - intros file Hf Hread. rewrite Hf in H. destruct (io (ReadFile (Base path))) as [e|].
    + rewrite bool_decide_eq_false_2 in H by congruence. injection H as <- <-. split; [congruence|done].
    + injection H as <- <-. split; [congruence|]. intros s Hs. cbn [f_data] in Hs.
      destruct (decodeStrict _) as [m|]; [|done]. eauto.
  - intros Hd Hio s ->. rewrite Hd in H.
    assert (createSigner io d (Base path) edCoins pqCoins = (disk', Ok s)) as Hcr.
    { destruct (io (ReadFile (Base path))) as [e|]; [|by rewrite bool_decide_eq_true_2 in H by done].
      by destruct (negb (bool_decide (e = _))). }
    destruct (createSigner_stored _ _ _ _ _ _ _ Hcr) as (Hgen & Hs & data & Hm & ->).
    destruct (Hcodec _ _ Hgen Hm) as [Hdec Hsz].
    rewrite (load_quiet _ _ _ _ data); [by rewrite Hdec, Hs|done|done| |by rewrite lookup_insert_eq|done].
    intros n Hp. rewrite lookup_insert_ne; [by eapply cleanup_gone; [apply Base_nonempty|..]|].
    intros <-. destruct Hn as [_ Hn]. by rewrite (prefix_trans _ _ _ Hp) in Hn.
Qed.
End Keys.

(** * A first start, and the next *)

#[local] Existing Instances Toy.crypto Toy.laws Toy.keygen.

(** The two keys of the toy scheme, one after the other. *)
#[local] Instance toy_marshal : Marshaler PrivateSigningMaterial :=
  λ m, Ok (psm_Ed25519Private m ++ psm_MLDSA65Private m).
#[local] Instance toy_decode : StrictDecoder PrivateSigningMaterial :=
  λ b, Ok {| psm_Ed25519Private := take 64 b; psm_MLDSA65Private := drop 64 b |}.

Lemma toy_material (edCoins pqCoins : bytes) (s : HybridSigner (C := Toy.crypto)) (b : bytes) :
  GenerateHybridSigner edCoins pqCoins = Ok s → Marshal (PrivateMaterial s) = Ok b →
  decodeStrict b = Ok (PrivateMaterial s) ∧ 0 < blen b ≤ MaxKeyFileBytes.
Proof.
  intros Hg%generated_size <-%(inj Ok). unfold PrivateMaterial. cbn [psm_Ed25519Private psm_MLDSA65Private].
  assert (length (edPrivate s) = 64%nat) as Hed by (unfold blen, ed25519_PrivateKeySize in Hg; lia).
  assert (length (Toy.key_bytes (pqPrivate s)) = 1952%nat) as Hpq
    by (destruct (pqPrivate s) as [k Hk]; exact (proj1 (bool_decide_eq_true _) Hk)).
  split.
  - unfold decodeStrict, toy_decode. by rewrite take_app_length', drop_app_length'.
  - unfold blen, MaxKeyFileBytes. cbn [mldsa65_PrivateBytes Toy.crypto]. rewrite length_app, Hed, Hpq. lia.
Qed.

Definition firstStart : Disk * Result (HybridSigner (C := Toy.crypto)) :=
  LoadOrCreateSigner (λ _, None) true ∅ "node.key" [x01] [x02].

Lemma firstStart_ok : ∃ s, firstStart.2 = Ok s.
Proof.
  change firstStart with (createSigner (λ _, None) ∅ "node.key" [x01] [x02]). unfold createSigner.
  destruct (GenerateHybridSigner [x01] [x02]) as [s|e] eqn:Hg; [by exists s|]. exfalso. revert Hg.
  unfold GenerateHybridSigner, ed25519_GenerateKey, mldsa65_GenerateKey, Toy.keygen, Toy.unmarshal.
  by destruct (decide _) as [|[]].
Qed.

(** The second start finds the key of the first. *)
Lemma LoadOrCreateSigner_stable_witness :
  (∃ s, firstStart.2 = Ok s) ∧ ∀ s, firstStart.2 = Ok s →
  LoadOrCreateSigner (λ _, None) true firstStart.1 "node.key" [x03] [x04] = (firstStart.1, Ok s).
Proof.
  split; [exact firstStart_ok|]. intros s Hs.
  exact (proj2 (LoadOrCreateSigner_stable (λ _, None) (λ _, None) true true ∅ firstStart.1 "node.key" [x01] [x02] [x03] [x04]
    firstStart.2 (toy_material [x01] [x02]) (surjective_pairing firstStart)) eq_refl (λ _, eq_refl) s Hs).
Defined.
End NodeKeys.
