(* ===== verification/ClientStore.v ===== *)
(** The client's encrypted record store (src/client/store.go): records sealed one
    per file, the in-memory index with its byte accounting, and the pruning that
    keeps the store under its limit. Opening reads exactly the records of the directory,
    the accounting is exact, and protected records survive. [meta.Path] is the entry name in the store's
    directory; the context is the error it reports when polled. *)
From S2P Require Import Prelude Sha256 Encoding Files.
Local Open Scope Z_scope.

Module ClientStore.

(** * Constants, errors, kinds *)

Definition ClientStoreVersion : Z := 1.
Definition DefaultClientStorageBytes : Z := 10 * 1024 * 1024 * 1024.
Definition MaxClientStorageBytes : Z := DefaultClientStorageBytes.
Definition MinClientStorageBytes : Z := 64 * 1024.
Definition MaxLocalRecordPayloadBytes : Z := 4 * 1024 * 1024.
Definition MaxClientStoreRecords : Z := 262144.
Definition maxLocalRecordFileBytes : Z := 6 * 1024 * 1024.
Definition localRecordAccountingOverhead : Z := 4 * 1024.
Definition localRecordSuffix : string := ".vmc".
Definition localStoreLockFilename : string := ".client-store.lock".
Definition temporaryRecordPrefix : string := ".vmc-private-".
Definition localRecordDomain : bytes := str_bytes "enig/client-store/v1" ++ [x00].

Definition ErrClientStoreClosed : error := "client store is closed".
Definition ErrClientStorageFull : error :=
  "client storage limit reached with no safely prunable records".
Definition ErrLocalRecordNotFound : error := "local client record not found".

Definition PruneNever : string := "never".
Definition PruneOldest : string := "oldest".
Definition PruneAfterExpiry : string := "after_expiry".

Definition LocalKindDelivery : string := "delivery".
Definition LocalKindInbox : string := "inbox".
Definition LocalKindOutbox : string := "outbox".
Definition LocalKindFileCache : string := "file_cache".
Definition LocalKindReplay : string := "replay".
Definition LocalKindGroupState : string := "group_state".
Definition LocalKindDeviceEvent : string := "device_event".
Definition LocalKindReputation : string := "reputation".

Record LocalRecord := {
  lr_Version : Z;  (* uint8 *)
  lr_ID : string;
  lr_Kind : string;
  lr_CreatedAt : Time;
  lr_UpdatedAt : Time;
  lr_ExpiresAt : Time;
  lr_PrunePolicy : string;
  lr_Payload : bytes;
}.

Record PruneReport := { pr_Records : Z; pr_Bytes : Z }.
Definition noReport : PruneReport := {| pr_Records := 0; pr_Bytes := 0 |}.

Record localRecordMeta := {
  m_ID : string;
  m_Kind : string;
  m_CreatedAt : Time;
  m_ExpiresAt : Time;
  m_PrunePolicy : string;
  m_Path : string;
  m_Charge : Z;  (* int64 *)
}.

(** [entries = nil] after [Close] reads as the empty map. *)
Record EncryptedDiskStore := {
  key : bytes;
  maxBytes : Z;  (* int64 *)
  used : Z;      (* int64 *)
  entries : gmap string localRecordMeta;
  locked : bool;  (* lockFile != nil *)
  closed : bool;
}.

Definition set_entries (s : EncryptedDiskStore) (es : gmap string localRecordMeta) (u : Z)
  : EncryptedDiskStore :=
  {| key := key s; maxBytes := maxBytes s; used := u; entries := es; locked := locked s; closed := closed s |}.

(** * Validation *)

Definition is_one_of (s : string) (l : list string) : bool := bool_decide (s ∈ l).

Definition record_id_char (b : byte) : bool :=
  let value := b2z b in
  (97 <=? value) && (value <=? 122) || (65 <=? value) && (value <=? 90) ||
  (48 <=? value) && (value <=? 57) || (value =? 45) || (value =? 95) || (value =? 46).

Definition validLocalRecordID (id : string) : bool :=
  if (slen id =? 0) || (128 <? slen id) then false else forallb record_id_char (str_bytes id).

Definition validLocalRecordKind (kind : string) : bool :=
  is_one_of kind [LocalKindDelivery; LocalKindInbox; LocalKindOutbox; LocalKindFileCache;
                  LocalKindReplay; LocalKindGroupState; LocalKindDeviceEvent; LocalKindReputation].

Definition safePrunePolicyForKind (r : LocalRecord) : bool :=
  let policy := lr_PrunePolicy r in
  if is_one_of (lr_Kind r) [LocalKindDelivery] then is_one_of policy [PruneAfterExpiry]
  else if is_one_of (lr_Kind r) [LocalKindOutbox; LocalKindReplay; LocalKindDeviceEvent]
       then is_one_of policy [PruneNever; PruneAfterExpiry]
  else if is_one_of (lr_Kind r) [LocalKindGroupState]
       then is_one_of policy [PruneNever] && IsZero (lr_ExpiresAt r)
  else if is_one_of (lr_Kind r) [LocalKindInbox]
       then is_one_of policy [PruneNever; PruneOldest; PruneAfterExpiry]
  else if is_one_of (lr_Kind r) [LocalKindFileCache; LocalKindReputation]
       then is_one_of policy [PruneOldest]
  else false.

Definition validateLocalRecord (r : LocalRecord) (now : Time) : option error :=
  if negb (lr_Version r =? ClientStoreVersion) || negb (validLocalRecordID (lr_ID r)) ||
     negb (validLocalRecordKind (lr_Kind r)) || IsZero (lr_CreatedAt r) || IsZero (lr_UpdatedAt r) ||
     Before (lr_UpdatedAt r) (lr_CreatedAt r) || After (lr_CreatedAt r) (TAdd now (5 * Minute)) ||
     After (lr_UpdatedAt r) (TAdd now (5 * Minute)) || (blen (lr_Payload r) =? 0) ||
     (MaxLocalRecordPayloadBytes <? blen (lr_Payload r))
  then Some "invalid local client record"%string
  else if negb (IsZero (lr_ExpiresAt r)) && negb (After (lr_ExpiresAt r) (lr_CreatedAt r))
  then Some "invalid local client record expiry"%string
  else if negb (is_one_of (lr_PrunePolicy r) [PruneNever; PruneOldest; PruneAfterExpiry])
  then Some "invalid local client prune policy"%string
  else if is_one_of (lr_PrunePolicy r) [PruneAfterExpiry] && IsZero (lr_ExpiresAt r)
  then Some "expiry-prunable record requires an expiry time"%string
  else if negb (safePrunePolicyForKind r)
  then Some "unsafe prune policy for local client record kind"%string
  else None.

Definition normalizeLocalRecord (r : LocalRecord) : LocalRecord :=
  let created := Truncate (lr_CreatedAt r) Millisecond in
  {| lr_Version := lr_Version r; lr_ID := lr_ID r; lr_Kind := lr_Kind r;
     lr_CreatedAt := created;
     lr_UpdatedAt := if IsZero (lr_UpdatedAt r) then created else Truncate (lr_UpdatedAt r) Millisecond;
     lr_ExpiresAt := if IsZero (lr_ExpiresAt r) then lr_ExpiresAt r
                     else Truncate (lr_ExpiresAt r) Millisecond;
     lr_PrunePolicy := lr_PrunePolicy r; lr_Payload := lr_Payload r |}.

Definition validClientStorageLimit (value : Z) : bool :=
  (MinClientStorageBytes <=? value) && (value <=? MaxClientStorageBytes).

(** [!ExpiresAt.IsZero() && !ExpiresAt.After(now)]. *)
Definition expired (m : localRecordMeta) (now : Time) : bool :=
  negb (IsZero (m_ExpiresAt m)) && negb (After (m_ExpiresAt m) now).

Definition localRecordPrunable (m : localRecordMeta) (now : Time) : bool :=
  if expired m now then true else bool_decide (m_PrunePolicy m = PruneOldest).

(** The bytes hashed for a record's file name. *)
Definition pathPreimage (id : string) : bytes :=
  str_bytes "enig/client-store-path/v1" ++ [x00] ++ str_bytes id.

Definition localRecordFilename (id : string) : string :=
  (Hex.EncodeToString (Sha256.Sum256 (pathPreimage id)) +:+ localRecordSuffix)%string.

Definition localRecordCharge (fileBytes : Z) : Z := fileBytes + localRecordAccountingOverhead.

Definition metaFromRecord (r : LocalRecord) (path : string) (charge : Z) : localRecordMeta :=
  {| m_ID := lr_ID r; m_Kind := lr_Kind r; m_CreatedAt := lr_CreatedAt r; m_ExpiresAt := lr_ExpiresAt r;
     m_PrunePolicy := lr_PrunePolicy r; m_Path := path; m_Charge := charge |}.

(** * Sealing *)

(** AES-256-GCM: [crypto/aes] with [cipher.NewGCM], for a 32-byte key. *)
Class AEAD := {
  aead_Seal (key nonce plaintext ad : bytes) : bytes;
  aead_Open (key nonce ciphertext ad : bytes) : option bytes;
}.

Definition aead_NonceSize : Z := 12.

Class AEADLaws `{!AEAD} : Prop := {
  aead_roundtrip (key nonce plaintext ad : bytes) :
    blen key = 32 → blen nonce = aead_NonceSize →
    aead_Open key nonce (aead_Seal key nonce plaintext ad) ad = Some plaintext;
  aead_overhead (key nonce plaintext ad : bytes) : blen (aead_Seal key nonce plaintext ad) = blen plaintext + 16;
}.

Lemma aead_nonempty `{AEADLaws} (key nonce plaintext ad : bytes) : 0 < blen (aead_Seal key nonce plaintext ad).
Proof. rewrite aead_overhead. pose proof (blen_nonneg plaintext). lia. Qed.

Definition recordMagic : bytes := str_bytes "VMCSTOR1".

(** [localRecordDomain + filename], the associated data. *)
Definition recordAD (filename : string) : bytes := localRecordDomain ++ str_bytes filename.

(** A context: the error it reports when polled at entry ([None]) or before the
    removal of a record. *)
Abbreviation Ctx := (option string → option error).

Section Operations.
Context {MO : MapOrder} {MR : Marshaler LocalRecord} {DR : StrictDecoder LocalRecord} {AE : AEAD}.

(** [rand n] is the outcome of [rand.Read] into a buffer of [n] bytes. *)
Definition sealRecord (rand : Z → Result bytes) (s : EncryptedDiskStore) (r : LocalRecord)
    (filename : string) : Result bytes :=
  match Marshal r with
  | Err e => Err e
  | Ok plaintext =>
      if negb (blen (key s) =? 32) then Err "client store AES-256 key is unavailable"
      else match rand aead_NonceSize with
      | Err e => Err e
      | Ok nonce =>
          let result := recordMagic ++ nonce ++ aead_Seal (key s) nonce plaintext (recordAD filename) in
          if maxLocalRecordFileBytes <? blen result
          then Err "encrypted client record exceeds file limit"
          else Ok result
      end
  end.

(** [now] is the clock reading of the validation. *)
Definition readRecord (io : IO) (now : Time) (disk : Disk) (s : EncryptedDiskStore) (name : string)
  : Result LocalRecord :=
  match io (EntryInfo name), disk !! name with
  | None, Some file =>
      if negb (f_regular file) || negb (f_private file) || (blen (f_data file) <=? 0) ||
         (maxLocalRecordFileBytes <? blen (f_data file))
      then Err "invalid encrypted client record file"
      else match io (ReadFile name) with
      | Some e => Err e
      | None =>
          if negb (blen (key s) =? 32) then Err "client store AES-256 key is unavailable"
          else
            let data := f_data file in
            let headerBytes := blen recordMagic + aead_NonceSize in
            if (blen data <=? headerBytes) || negb (bytes_equal (slice data 0 (blen recordMagic)) recordMagic)
            then Err "invalid encrypted client record header"
            else
              let nonce := slice data (blen recordMagic) headerBytes in
              match aead_Open (key s) nonce (slice data headerBytes (blen data)) (recordAD name) with
              | None => Err "client record authentication failed"
              | Some plaintext =>
                  match decodeStrict plaintext with
                  | Err e => Err e
                  | Ok r =>
                      match validateLocalRecord r now with
                      | Some e => Err e
                      | None => Ok r
                      end
                  end
              end
      end
  | _, _ => Err "invalid encrypted client record file"
  end.

Definition deleteMetaLocked (io : IO) (disk : Disk) (s : EncryptedDiskStore) (m : localRecordMeta)
  : Disk * EncryptedDiskStore * option error :=
  match os_Remove io disk (m_Path m) with
  | (disk, e) =>
      if remove_failed e then (disk, s, e)
      else (disk, set_entries s (delete (m_ID m) (entries s)) (used s - m_Charge m), None)
  end.

(** The order of eviction: expired records first, then by creation, then by ID. *)
Definition prune_before (now : Time) (x y : localRecordMeta) : bool :=
  if negb (Bool.eqb (expired x now) (expired y now)) then expired x now
  else if TEqual (m_CreatedAt x) (m_CreatedAt y) then str_ltb (m_ID x) (m_ID y)
  else Before (m_CreatedAt x) (m_CreatedAt y).

Definition prune_le (now : Time) (x y : localRecordMeta) : Prop := prune_before now y x = false.
#[export] Instance prune_le_dec now x y : Decision (prune_le now x y).
Proof. unfold prune_le. apply _. Defined.

(** [for count < len(candidates) && (available < need || count < recordsToRemove)]. *)
Fixpoint prune_count (candidates : list localRecordMeta) (need recordsToRemove available count : Z) : Z * Z :=
  match candidates with
  | [] => (available, count)
  | m :: candidates =>
      if (available <? need) || (count <? recordsToRemove)
      then prune_count candidates need recordsToRemove (available + m_Charge m) (count + 1)
      else (available, count)
  end.

Fixpoint prune_loop (io : IO) (ctx : Ctx) (victims : list localRecordMeta) (disk : Disk)
    (s : EncryptedDiskStore) (report : PruneReport)
  : Disk * EncryptedDiskStore * PruneReport * option error :=
  match victims with
  | [] =>
      (disk, s, report, if 0 <? pr_Records report then io SyncDir else None)
  | m :: victims =>
      match ctx (Some (m_ID m)) with
      | Some e => (disk, s, report, Some e)
      | None =>
          match deleteMetaLocked io disk s m with
          | (disk, s, Some e) => (disk, s, report, Some e)
          | (disk, s, None) =>
              prune_loop io ctx victims disk s
                {| pr_Records := pr_Records report + 1; pr_Bytes := pr_Bytes report + m_Charge m |}
          end
      end
  end.

Definition prune_candidates (s : EncryptedDiskStore) (now : Time) (excludeID : string)
  : list localRecordMeta :=
  merge_sort (prune_le now)
    (filter (λ m, m_ID m ≠ excludeID ∧ localRecordPrunable m now = true)
       ((range_map (entries s)).*2)).

Definition pruneToLocked (io : IO) (ctx : Ctx) (disk : Disk) (s : EncryptedDiskStore)
    (targetBytes targetRecords : Z) (now : Time) (excludeID : string)
  : Disk * EncryptedDiskStore * PruneReport * option error :=
  let records := Z.of_nat (size (entries s)) in
  if (used s <=? targetBytes) && (records <=? targetRecords) then (disk, s, noReport, None)
  else
    let candidates := prune_candidates s now excludeID in
    let need := Z.max (used s - targetBytes) 0 in
    let recordsToRemove := Z.max (records - targetRecords) 0 in
    let '(available, count) := prune_count candidates need recordsToRemove 0 0 in
    if (available <? need) || (count <? recordsToRemove)
    then (disk, s, noReport, Some ErrClientStorageFull)
    else prune_loop io ctx (take (Z.to_nat count) candidates) disk s noReport.

Definition Put (io : IO) (rand : Z → Result bytes) (ctx : option Ctx) (disk : Disk)
    (s : EncryptedDiskStore) (r : LocalRecord) (now : Time)
  : Disk * EncryptedDiskStore * PruneReport * option error :=
  match ctx with
  | None => (disk, s, noReport, Some "client store context is required"%string)
  | Some ctx =>
  match ctx None with
  | Some e => (disk, s, noReport, Some e)
  | None =>
  let r := normalizeLocalRecord r in
  match validateLocalRecord r now with
  | Some e => (disk, s, noReport, Some e)
  | None =>
  if closed s then (disk, s, noReport, Some ErrClientStoreClosed)
  else
  let filename := localRecordFilename (lr_ID r) in
  match sealRecord rand s r filename with
  | Err e => (disk, s, noReport, Some e)
  | Ok encoded =>
      let newCharge := localRecordCharge (blen encoded) in
      let old := entries s !! lr_ID r in
      let oldCharge := match old with Some m => m_Charge m | None => 0 end in
      let targetBeforeWrite := maxBytes s - newCharge + oldCharge in
      if targetBeforeWrite <? 0 then (disk, s, noReport, Some ErrClientStorageFull)
      else
        let targetRecords :=
          MaxClientStoreRecords -
          match old with Some m => if bool_decide (m_ID m = ""%string) then 1 else 0 | None => 1 end in
        match pruneToLocked (inner io) ctx disk s targetBeforeWrite targetRecords now (lr_ID r) with
        | (disk, s, report, Some e) => (disk, s, report, Some e)
        | (disk, s, report, None) =>
            match atomicWrite io temporaryRecordPrefix disk filename encoded with
            | (disk, Some e) => (disk, s, report, Some e)
            | (disk, None) =>
                (disk,
                 set_entries s (<[lr_ID r := metaFromRecord r filename newCharge]> (entries s))
                   (used s - oldCharge + newCharge),
                 report, None)
            end
        end
  end end end end.

Definition Get (io : IO) (ctx : option Ctx) (now : Time) (disk : Disk) (s : EncryptedDiskStore)
    (id : string) : Result LocalRecord :=
  match ctx with
  | None => Err "invalid local record lookup"
  | Some ctx =>
      if negb (validLocalRecordID id) then Err "invalid local record lookup"
      else match ctx None with
      | Some e => Err e
      | None =>
          if closed s then Err ErrClientStoreClosed
          else match entries s !! id with
               | None => Err ErrLocalRecordNotFound
               | Some m => readRecord io now disk s (m_Path m)
               end
      end
  end.

Definition Delete (io : IO) (ctx : option Ctx) (disk : Disk) (s : EncryptedDiskStore) (id : string)
  : Disk * EncryptedDiskStore * option error :=
  match ctx with
  | None => (disk, s, Some "invalid local record deletion"%string)
  | Some ctx =>
      if negb (validLocalRecordID id) then (disk, s, Some "invalid local record deletion"%string)
      else match ctx None with
      | Some e => (disk, s, Some e)
      | None =>
          if closed s then (disk, s, Some ErrClientStoreClosed)
          else match entries s !! id with
               | None => (disk, s, Some ErrLocalRecordNotFound)
               | Some m =>
                   match deleteMetaLocked io disk s m with
                   | (disk, s, Some e) => (disk, s, Some e)
                   | (disk, s, None) => (disk, s, io SyncDir)
                   end
               end
      end
  end.

Definition PruneTo (io : IO) (ctx : option Ctx) (disk : Disk) (s : EncryptedDiskStore)
    (targetBytes : Z) (now : Time) : Disk * EncryptedDiskStore * PruneReport * option error :=
  match ctx with
  | None => (disk, s, noReport, Some "invalid client prune target"%string)
  | Some ctx =>
      if (targetBytes <? 0) || (maxBytes s <? targetBytes) || IsZero now
      then (disk, s, noReport, Some "invalid client prune target"%string)
      else match ctx None with
      | Some e => (disk, s, noReport, Some e)
      | None =>
          if closed s then (disk, s, noReport, Some ErrClientStoreClosed)
          else pruneToLocked io ctx disk s targetBytes MaxClientStoreRecords now ""
      end
  end.

Definition set_max (s : EncryptedDiskStore) (m : Z) : EncryptedDiskStore :=
  {| key := key s; maxBytes := m; used := used s; entries := entries s; locked := locked s; closed := closed s |}.

Definition SetLimit (io : IO) (ctx : option Ctx) (disk : Disk) (s : EncryptedDiskStore)
    (limit : Z) (now : Time) : Disk * EncryptedDiskStore * PruneReport * option error :=
  match ctx with
  | None => (disk, s, noReport, Some "invalid client storage limit"%string)
  | Some ctx =>
      if negb (validClientStorageLimit limit) || IsZero now
      then (disk, s, noReport, Some "invalid client storage limit"%string)
      else match ctx None with
      | Some e => (disk, s, noReport, Some e)
      | None =>
          if closed s then (disk, s, noReport, Some ErrClientStoreClosed)
          else match pruneToLocked io ctx disk s limit MaxClientStoreRecords now "" with
               | (disk, s, report, Some e) => (disk, s, report, Some e)
               | (disk, s, report, None) => (disk, set_max s limit, report, None)
               end
      end
  end.

Record ClientStorageUsage := { cu_UsedBytes : Z; cu_MaxBytes : Z; cu_Records : Z; cu_MaxRecords : Z }.

Definition Usage (s : EncryptedDiskStore) : ClientStorageUsage :=
  {| cu_UsedBytes := used s; cu_MaxBytes := maxBytes s; cu_Records := Z.of_nat (size (entries s));
     cu_MaxRecords := MaxClientStoreRecords |}.

(** The result stands for [errors.Join(unlockErr, closeErr)]. *)
Definition Close (io : IO) (s : EncryptedDiskStore) : EncryptedDiskStore * list error :=
  if closed s then (s, [])
  else
    ({| key := []; maxBytes := maxBytes s; used := 0; entries := ∅; locked := false; closed := true |},
     if locked s then option_list (io Unlock) ++ option_list (io CloseLock) else []).

(** * Opening *)

Definition validLocalRecordFilename (filename : string) : bool :=
  if negb (slen filename =? Sha256.Size * 2 + slen localRecordSuffix) ||
     negb (HasSuffix filename localRecordSuffix) then false
  else
    let stem := String.substring 0 (String.length filename - String.length localRecordSuffix) filename in
    match Hex.DecodeString stem with
    | Some digest => blen digest =? Sha256.Size
    | None => false
    end.

(** [infoErr != nil || !info.Mode().IsRegular() || info.Mode().Perm()&0o077 != 0]. *)
Definition not_private (io : IO) (name : string) (file : File) : bool :=
  match io (EntryInfo name) with Some _ => true | None => false end ||
  negb (f_regular file) || negb (f_private file).

(** The loop over the directory entries, in the order the system lists them. The calls
    made inside [readRecord] and [pruneToLocked] have outcomes of their own. *)
Fixpoint load_loop (io : IO) (now clock : Time) (listing : list (string * File)) (disk : Disk)
    (s : EncryptedDiskStore) (removedTemporary : bool) : Disk * Result (EncryptedDiskStore * bool) :=
  match listing with
  | [] => (disk, Ok (s, removedTemporary))
  | (name, file) :: listing =>
      if bool_decide (name = localStoreLockFilename) then
        if not_private io name file
        then (disk, Err "client store lock is not a private regular file")
        else load_loop io now clock listing disk s removedTemporary
      else if String.prefix temporaryRecordPrefix name then
        if not_private io name file
        then (disk, Err "client store contains an invalid temporary record")
        else match os_Remove io disk name with
             | (disk, Some e) => (disk, Err e)
             | (disk, None) => load_loop io now clock listing disk s true
             end
      else if negb (HasSuffix name localRecordSuffix)
      then (disk, Err "client store directory contains an unmanaged entry")
      else if negb (validLocalRecordFilename name)
      then (disk, Err "client store contains an invalid record filename")
      else if not_private io name file || (blen (f_data file) <=? 0) ||
              (maxLocalRecordFileBytes <? blen (f_data file))
      then (disk, Err "client store contains an invalid private record file")
      else match readRecord (inner io) clock disk s name with
      | Err e => (disk, Err e)
      | Ok r =>
          if negb (bool_decide (localRecordFilename (lr_ID r) = name))
          then (disk, Err "client record ID does not match its authenticated path")
          else if bool_decide (is_Some (entries s !! lr_ID r))
          then (disk, Err "duplicate client record ID")
          else
            let charge := localRecordCharge (blen (f_data file)) in
            let s := set_entries s (<[lr_ID r := metaFromRecord r name charge]> (entries s)) (used s + charge) in
            if (maxBytes s <? used s) || (MaxClientStoreRecords <? Z.of_nat (size (entries s))) then
              match pruneToLocked (inner io) (λ _, None) disk s (maxBytes s) MaxClientStoreRecords now "" with
              | (disk, s, _, Some e) => (disk, Err e)
              | (disk, s, _, None) => load_loop io now clock listing disk s removedTemporary
              end
            else load_loop io now clock listing disk s removedTemporary
      end
  end.

(** The directory is read 256 entries at a time, each batch handled before the next is
    read; the read after the last entry reports the end. *)
Definition readDirBatch : nat := 256.

Fixpoint load_batches (io : IO) (now clock : Time) (fuel k : nat) (listing : list (string * File)) (disk : Disk)
    (s : EncryptedDiskStore) (removedTemporary : bool) : Disk * Result (EncryptedDiskStore * bool) :=
  match io (ReadBatch k) with
  | Some readErr => (disk, Err readErr)
  | None =>
      match take readDirBatch listing, fuel with
      | [], _ | _, O => (disk, Ok (s, removedTemporary))
      | batch, S fuel =>
          match load_loop io now clock batch disk s removedTemporary with
          | (disk, Err e) => (disk, Err e)
          | (disk, Ok (s, removedTemporary)) =>
              load_batches io now clock fuel (S k) (drop readDirBatch listing) disk s removedTemporary
          end
      end
  end.

Record DiskClientStoreConfig := { cs_Directory : string; cs_Key : bytes; cs_MaxBytes : Z }.

(** [EnsureDir], [AcquireLock] and [ReadDir] stand for the preparation of the
    directory, its lock and its listing; [clock] is the time [readRecord] reads. *)
Definition NewEncryptedDiskStore (io : IO) (clock : Time) (disk : Disk) (config : DiskClientStoreConfig)
    (now : Time) : Disk * Result EncryptedDiskStore :=
  if bool_decide (cs_Directory config = ""%string) || negb (blen (cs_Key config) =? 32) || IsZero now
  then (disk, Err "client store requires a directory, AES-256 key, and current time")
  else
    let max := if cs_MaxBytes config =? 0 then DefaultClientStorageBytes else cs_MaxBytes config in
    if negb (validClientStorageLimit max) then (disk, Err "client storage limit is out of range")
    else match io EnsureDir with
    | Some e => (disk, Err e)
    | None =>
    match io AcquireLock with
    | Some e => (disk, Err e)
    | None =>
    match io ReadDir with
    | Some e => (disk, Err e)
    | None =>
        let s := {| key := cs_Key config; maxBytes := max; used := 0; entries := ∅;
                    locked := true; closed := false |} in
        match load_batches io now clock (S (size disk)) 0 (range_map disk) disk s false with
        | (disk, Err e) => (disk, Err e)
        | (disk, Ok (s, removedTemporary)) =>
            match (if removedTemporary then io SyncDir else None) with
            | Some e => (disk, Err e)
            | None => (disk, Ok s)
            end
        end
    end end end.

End Operations.

(** * The invariant *)

Record store_ok (s : EncryptedDiskStore) : Prop := {
  ok_entry id m : entries s !! id = Some m →
    m_ID m = id ∧ validLocalRecordID id = true ∧ m_Path m = localRecordFilename id ∧ 0 < m_Charge m;
  ok_used : used s = map_sum (λ _ m, m_Charge m) (entries s);
}.

(** Within its limits, as every operation that returns without error leaves it. *)
Definition within_limits (s : EncryptedDiskStore) : Prop :=
  used s ≤ maxBytes s ∧ Z.of_nat (size (entries s)) ≤ MaxClientStoreRecords.

Section Pruning.
Context {MO : MapOrder}.

Lemma candidates_elem (s : EncryptedDiskStore) (now : Time) (ex : string) (m : localRecordMeta) :
  m ∈ prune_candidates s now ex ↔
  (∃ id, entries s !! id = Some m) ∧ m_ID m ≠ ex ∧ localRecordPrunable m now = true.
Proof.
  unfold prune_candidates. rewrite (merge_sort_Permutation (prune_le now)), list_elem_of_filter, list_elem_of_fmap.
  split.
  - intros [? ([id m'] & -> & Hin)]. split; [|done]. exists id. by apply range_map_elem.
  - intros [[id Hid] ?]. split; [done|]. exists (id, m). split; [done|]. by apply range_map_elem.
Qed.

Lemma candidates_nodup (s : EncryptedDiskStore) (now : Time) (ex : string) :
  store_ok s → NoDup (m_ID <$> prune_candidates s now ex).
Proof.
  intros Hok. unfold prune_candidates. rewrite (merge_sort_Permutation (prune_le now)).
  assert (Hkeys : m_ID <$> (range_map (entries s)).*2 = (range_map (entries s)).*1).
  { rewrite <- list_fmap_compose. apply list_fmap_ext. intros i [id m] Hi. simpl.
    apply list_elem_of_lookup_2, range_map_elem in Hi. by apply (ok_entry s Hok) in Hi as [? _]. }
  eapply sublist_NoDup; [|apply fmap_sublist, sublist_filter].
  rewrite Hkeys. apply range_map_keys.
Qed.

(** The records to remove, in order: the shortest prefix of the candidates that
    frees enough. *)
Definition charge_sum (l : list localRecordMeta) : Z := foldr (λ m acc, m_Charge m + acc) 0 l.

Lemma charge_sum_app (l k : list localRecordMeta) : charge_sum (l ++ k) = charge_sum l + charge_sum k.
Proof. induction l as [|m l IH]; [done|]. unfold charge_sum in *. simpl. lia. Qed.

Lemma prune_count_spec (l : list localRecordMeta) (need n a c a' c' : Z) :
  prune_count l need n a c = (a', c') →
  ∃ k, (k ≤ length l)%nat ∧ c' = c + Z.of_nat k ∧ a' = a + charge_sum (take k l).
Proof.
  revert a c. induction l as [|m l IH]; intros a c H; cbn [prune_count] in H.
  { exists 0%nat. simplify_eq. simpl. split_and!; lia. }
  destruct (_ || _)%bool.
  - apply IH in H as (k & Hk & -> & ->). exists (S k). simpl. split_and!; [lia..|].
    unfold charge_sum. simpl. lia.
  - simplify_eq. exists 0%nat. simpl. split_and!; lia.
Qed.

(** Removing [victims] one by one: a prefix on an error, all otherwise. *)
Lemma prune_loop_spec (io : IO) (ctx : Ctx) (victims : list localRecordMeta) (disk disk' : Disk)
    (s s' : EncryptedDiskStore) (report report' : PruneReport) (e : option error) :
  store_ok s → NoDup (m_ID <$> victims) → (∀ m, m ∈ victims → entries s !! m_ID m = Some m) →
  prune_loop io ctx victims disk s report = (disk', s', report', e) →
  ∃ k, store_ok s' ∧ maxBytes s' = maxBytes s ∧ closed s' = closed s ∧ key s' = key s ∧
    (∀ id, entries s' !! id = if bool_decide (id ∈ m_ID <$> take k victims) then None else entries s !! id) ∧
    used s' = used s - charge_sum (take k victims) ∧
    Z.of_nat (size (entries s')) = Z.of_nat (size (entries s)) - Z.of_nat (length (take k victims)) ∧
    (∀ name, name ∉ m_Path <$> take k victims → disk' !! name = disk !! name) ∧
    (e = None → take k victims = victims) ∧
    (honest io → ∀ name, disk !! name = None ∨ name ∈ m_Path <$> take k victims → disk' !! name = None).
Proof.
  revert disk s report. induction victims as [|m victims IH]; intros disk s report Hok Hnd Hin Hl;
    cbn [prune_loop] in Hl.
  { simplify_eq. exists 0%nat. split_and!; try done; simpl; try lia. intros _ name [?|Hn]; [done|by apply elem_of_nil in Hn]. }
  assert (Hstop : ∃ k, store_ok s ∧ maxBytes s = maxBytes s ∧ closed s = closed s ∧ key s = key s ∧
    (∀ id, entries s !! id = if bool_decide (id ∈ m_ID <$> take k (m :: victims)) then None else entries s !! id) ∧
    used s = used s - charge_sum (take k (m :: victims)) ∧
    Z.of_nat (size (entries s)) = Z.of_nat (size (entries s)) - Z.of_nat (length (take k (m :: victims))) ∧
    (∀ name, name ∉ m_Path <$> take k (m :: victims) → disk !! name = disk !! name) ∧
    (honest io → ∀ name, disk !! name = None ∨ name ∈ m_Path <$> take k (m :: victims) → disk !! name = None)).
  { exists 0%nat. split_and!; try done; simpl; try lia. intros _ name [?|Hn]; [done|by apply elem_of_nil in Hn]. }
  destruct (ctx _) as [err|]; [simplify_eq; destruct Hstop as (k & ?); exists k; naive_solver|].
  unfold deleteMetaLocked in Hl. destruct (os_Remove io disk (m_Path m)) as [d er] eqn:Hr.
  destruct (remove_failed er) eqn:Hf.
  { apply os_Remove_failed in Hr as [-> [err ->]]; [|done]. simplify_eq.
    destruct Hstop as (k & ?). exists k. naive_solver. }
  rewrite fmap_cons in Hnd. apply list.NoDup_cons in Hnd as [Hfresh Hnd].
  pose proof (Hin m (list_elem_of_here _ _)) as Hm.
  apply IH in Hl as (k & Hok' & Hmax & Hcl & Hkey & Hent & Hused & Hsize & Hdisk & Hall & Hgone).
  - exists (S k). cbn [take]. split_and!; try done.
    + intros id. rewrite Hent, fmap_cons. cbn [set_entries entries].
      destruct (decide (id = m_ID m)) as [->|Hne].
      * rewrite lookup_delete_eq, (bool_decide_eq_true_2 (_ ∈ _ :: _)) by apply list_elem_of_here. by case_bool_decide.
      * rewrite lookup_delete_ne by done. repeat case_bool_decide; set_solver.
    + rewrite Hused. cbn [set_entries used]. unfold charge_sum. simpl. lia.
    + rewrite Hsize. cbn [set_entries entries length]. rewrite map_size_delete, Hm.
      assert (size (entries s) ≠ 0%nat); [|lia]. intros E%map_size_empty_inv. by rewrite E, lookup_empty in Hm.
    + intros name Hn. rewrite fmap_cons, not_elem_of_cons in Hn. destruct Hn as [Hn1 Hn2].
      rewrite (Hdisk name Hn2). eapply os_Remove_lookup; [done|]. congruence.
    + intros He. by rewrite (Hall He).
    + intros Hio name Hn. apply Hgone; [done|]. destruct (decide (name = m_Path m)) as [->|Hne].
      { left. by eapply os_Remove_gone. }
      destruct Hn as [Hn|Hn]; [left|right; rewrite fmap_cons in Hn; by apply elem_of_cons in Hn as [?|?]].
      rewrite <- Hn. by eapply os_Remove_lookup, not_eq_sym.
  - destruct Hok as [Hentry Hu]. split; cbn [set_entries entries used].
    + intros id m' [_ Hm']%lookup_delete_Some. by apply Hentry.
    + by rewrite Hu, (map_sum_delete _ _ _ m Hm).
  - done.
  - intros m' Hm'. cbn [set_entries entries]. rewrite lookup_delete_ne; [by apply Hin, list_elem_of_further|].
    intros E. apply Hfresh. rewrite E. by apply list_elem_of_fmap_2.
Qed.

Lemma prune_le_iff (now : Time) (x y : localRecordMeta) :
  prune_le now x y ↔
  (expired x now = true ∧ expired y now = false) ∨
  (expired x now = expired y now ∧
   (m_CreatedAt x < m_CreatedAt y ∨
    m_CreatedAt x = m_CreatedAt y ∧ str_ltb (m_ID y) (m_ID x) = false)).
Proof.
  unfold prune_le, prune_before, TEqual, Before.
  destruct (expired x now), (expired y now); cbn [Bool.eqb negb];
    try (split; [by auto|by intros [[? ?]|[? _]]]).
  all: destruct (m_CreatedAt y =? m_CreatedAt x) eqn:E; unbool; [|rewrite Z.ltb_ge].
  all: split; [intros; right; split; [done|]|intros [[? ?]|[_ ?]]; try done].
  all: try (left; lia); try (right; done); destruct_or?; try lia; try tauto; naive_solver.
Qed.

#[export] Instance prune_le_trans (now : Time) : Transitive (prune_le now).
Proof.
  intros x y z. rewrite !prune_le_iff. intros [[? ?]|[Exy Hxy]] [[? ?]|[Eyz Hyz]]; try (left; split; congruence).
  right. split; [congruence|]. destruct Hxy as [?|[? Hxy]], Hyz as [?|[? Hyz]]; [left; lia..|].
  right. split; [lia|]. by eapply str_leb_trans.
Qed.

#[export] Instance prune_le_total (now : Time) : Total (prune_le now).
Proof.
  intros x y. rewrite !prune_le_iff. destruct (expired x now), (expired y now); try (by left; left); try (by right; left).
  all: destruct (Z.lt_trichotomy (m_CreatedAt x) (m_CreatedAt y)) as [?|[?|?]]; [left; right; auto| |right; right; auto].
  all: destruct (str_ltb (m_ID y) (m_ID x)) eqn:E; [right|left]; right; (split; [done|]); right; (split; [done|]).
  all: try done; by apply str_ltb_asym.
Qed.

(** What pruning did, whatever errors it met. *)
Record pruned (io : IO) (s s' : EncryptedDiskStore) (disk disk' : Disk) (now : Time) (ex : string) : Prop := {
  pn_ok : store_ok s';
  pn_same : maxBytes s' = maxBytes s ∧ closed s' = closed s ∧ key s' = key s;
  pn_sub id m : entries s' !! id = Some m → entries s !! id = Some m;
  pn_removed id m : entries s !! id = Some m → entries s' !! id = None →
    id ≠ ex ∧ localRecordPrunable m now = true ∧
    ∀ id' m', entries s' !! id' = Some m' → id' ≠ ex → localRecordPrunable m' now = true →
      prune_le now m m';
  pn_disk name : (∀ id m, entries s !! id = Some m → entries s' !! id = None → m_Path m ≠ name) →
    disk' !! name = disk !! name;
  pn_gone id m : honest io → entries s !! id = Some m → entries s' !! id = None → disk' !! m_Path m = None;
}.

Lemma pruned_refl (io : IO) (s : EncryptedDiskStore) (disk : Disk) (now : Time) (ex : string) :
  store_ok s → pruned io s s disk disk now ex.
Proof. intros Hok. split; try done; congruence. Qed.

Lemma take_elem {A} (l : list A) (n : nat) (x : A) : x ∈ take n l → x ∈ l.
Proof. intros H. rewrite <- (take_drop n l). apply elem_of_app. by left. Qed.

(** A prefix of a sorted list precedes the rest. *)
Lemma sorted_prefix {A} (R : relation A) (l : list A) (k : nat) (x y : A) :
  StronglySorted R l → x ∈ take k l → y ∈ l → y ∉ take k l → R x y.
Proof.
  intros Hs Hx Hy Hny. rewrite <- (take_drop k l) in Hs, Hy.
  apply elem_of_app in Hy as [?|Hy]; [done|]. by eapply StronglySorted_app_1_elem_of.
Qed.

Lemma pruneToLocked_spec (io : IO) (ctx : Ctx) (disk disk' : Disk) (s s' : EncryptedDiskStore)
    (targetBytes targetRecords : Z) (now : Time) (ex : string) (report : PruneReport) (e : option error) :
  store_ok s →
  pruneToLocked io ctx disk s targetBytes targetRecords now ex = (disk', s', report, e) →
  pruned io s s' disk disk' now ex ∧
  (e = None → used s' ≤ targetBytes ∧ Z.of_nat (size (entries s')) ≤ targetRecords).
Proof.
  intros Hok. unfold pruneToLocked. destruct (_ && _)%bool eqn:Hfit.
  { intros; simplify_eq. unbool. split; [by apply pruned_refl|done]. }
  destruct (prune_count _ _ _ _ _) as [available count] eqn:Hc.
  apply prune_count_spec in Hc as (n & Hn & -> & ->).
  destruct (_ || _)%bool eqn:Hfull; [intros; simplify_eq; split; [by apply pruned_refl|done]|].
  rewrite Z.add_0_l, Nat2Z.id. set (cands := prune_candidates s now ex) in *. intros Hl. unbool.
  assert (Hin : ∀ m, m ∈ cands → entries s !! m_ID m = Some m).
  { intros m [[id Hid] _]%candidates_elem. by destruct (ok_entry s Hok id m Hid) as [-> _]. }
  assert (Hnd : NoDup (m_ID <$> cands)) by (by apply candidates_nodup).
  apply prune_loop_spec in Hl as (k & Hok' & Hmax & Hcl & Hkey & Hent & Hused & Hsize & Hdisk & Hall & Hgone); [|done|..].
  2:{ eapply sublist_NoDup; [done|]. apply fmap_sublist, sublist_take. }
  2:{ intros m Hm. apply Hin. by eapply take_elem. }
  set (victims := take k (take n cands)) in *.
  assert (Hvic : ∃ j, victims = take j cands) by (exists (k `min` n)%nat; unfold victims; apply take_take).
  assert (Hvin : ∀ m, m ∈ victims → m ∈ cands).
  { destruct Hvic as [j ->]. intros m Hm. by eapply take_elem. }
  split.
  - split; try done.
    + intros id m. rewrite Hent. by case_bool_decide.
    + intros id m Hm. rewrite Hent. case_bool_decide as Hv; [|congruence]. intros _.
      apply list_elem_of_fmap in Hv as (m' & -> & Hv). rewrite (Hin m' (Hvin _ Hv)) in Hm. injection Hm as ->.
      pose proof (Hvin m Hv) as Hcm. apply candidates_elem in Hcm as (_ & Hne & Hp). split_and!; [done..|].
      intros id' m'. rewrite Hent. case_bool_decide as Hv'; [done|]. intros Hm' Hne' Hp'.
      destruct (ok_entry s Hok id' m' Hm') as [<- _]. destruct Hvic as [j Hj]. rewrite Hj in Hv, Hv'.
      apply (sorted_prefix (prune_le now) cands j); [apply (StronglySorted_merge_sort (prune_le now))|done| |].
      * apply candidates_elem. eauto.
      * intros Hm2. apply Hv'. by apply list_elem_of_fmap_2.
    + intros name Hname. apply Hdisk. intros (m & -> & Hm)%list_elem_of_fmap.
      apply (Hname (m_ID m) m); [by apply Hin, Hvin| |done].
      rewrite Hent, bool_decide_eq_true_2; [done|]. by apply list_elem_of_fmap_2.
    + intros id m Hio Hm. rewrite Hent. case_bool_decide as Hv; [intros _|congruence]. apply Hgone; [done|right].
      apply list_elem_of_fmap in Hv as (m' & -> & Hv). rewrite (Hin m' (Hvin _ Hv)) in Hm. injection Hm as ->.
      by apply list_elem_of_fmap_2.
  - intros He. assert (Hvt : victims = take n cands) by (by apply Hall).
    rewrite Hused, Hsize, Hvt, length_take. lia.
Qed.

End Pruning.

(** * Put *)

Section Put.
Context {MO : MapOrder} {MR : Marshaler LocalRecord} {DR : StrictDecoder LocalRecord} {AE : AEAD}.

Lemma valid_record (r : LocalRecord) (now : Time) :
  validateLocalRecord r now = None →
  validLocalRecordID (lr_ID r) = true ∧ lr_CreatedAt r ≤ now + 5 * Minute ∧ lr_UpdatedAt r ≤ now + 5 * Minute.
Proof.
  unfold validateLocalRecord, After, TAdd. intros H. repeat step_if H. unbool. done.
Qed.

Lemma sealRecord_size `{!AEADLaws} (rand : Z → Result bytes) (s : EncryptedDiskStore) (r : LocalRecord)
    (name : string) (b : bytes) :
  sealRecord rand s r name = Ok b → 0 < blen b ≤ maxLocalRecordFileBytes.
Proof.
  unfold sealRecord. destruct (Marshal r) as [pt|]; [|done]. destruct (negb _); [done|].
  destruct (rand _) as [nonce|]; [|done]. destruct (_ <? _) eqn:E; [done|]. intros <-%(inj Ok). unbool.
  split; [|done]. rewrite !blen_app. pose proof (aead_nonempty (key s) nonce pt (recordAD name)).
  pose proof (blen_nonneg nonce). pose proof (blen_nonneg recordMagic). lia.
Qed.

(** A call of [Put] prunes, perhaps fails, and otherwise writes the record. A failure may
    leave a temporary file, or the new file without the index entry. *)
Inductive put_result (io : IO) (s : EncryptedDiskStore) (disk : Disk) (r : LocalRecord) (now : Time) (encoded : bytes)
  : EncryptedDiskStore → Disk → option error → Prop :=
| put_failed sp dp disk' e :
    pruned (inner io) s sp disk dp now (lr_ID r) →
    disk' = dp ∨
    (∃ temporary file, dp !! temporary = None ∧ String.prefix temporaryRecordPrefix temporary = true ∧
       f_regular file = true ∧ f_private file = true ∧ disk' = <[temporary := file]> dp) ∨
    (∃ file, disk' = <[localRecordFilename (lr_ID r) := file]> dp ∧ io SyncDir ≠ None) →
    put_result io s disk r now encoded sp disk' (Some e)
| put_written sp dp :
    pruned (inner io) s sp disk dp now (lr_ID r) →
    let charge := localRecordCharge (blen encoded) in
    let old := from_option m_Charge 0 (entries s !! lr_ID r) in
    validLocalRecordID (lr_ID r) = true → 0 < blen encoded →
    used sp ≤ maxBytes s - charge + old →
    Z.of_nat (size (entries sp)) ≤ MaxClientStoreRecords -
      (if bool_decide (is_Some (entries s !! lr_ID r)) then 0 else 1) →
    put_result io s disk r now encoded
      (set_entries sp (<[lr_ID r := metaFromRecord r (localRecordFilename (lr_ID r)) charge]> (entries sp))
         (used sp - old + charge))
      (<[localRecordFilename (lr_ID r) :=
           {| f_dir := false; f_regular := true; f_private := true; f_data := encoded |}]> dp) None.

Lemma Put_cases `{!AEADLaws} (io : IO) (rand : Z → Result bytes) (ctx : option Ctx) (disk disk' : Disk)
    (s s' : EncryptedDiskStore) (r : LocalRecord) (now : Time) (report : PruneReport) (e : option error) :
  store_ok s → Put io rand ctx disk s r now = (disk', s', report, e) →
  (s' = s ∧ disk' = disk ∧ ∃ err, e = Some err) ∨
  ∃ encoded, validateLocalRecord (normalizeLocalRecord r) now = None ∧ closed s = false ∧
    sealRecord rand s (normalizeLocalRecord r) (localRecordFilename (lr_ID r)) = Ok encoded ∧
    put_result io s disk (normalizeLocalRecord r) now encoded s' disk' e.
Proof.
  intros Hok. unfold Put. destruct ctx as [ctx|]; [|intros; simplify_eq; left; eauto].
  destruct (ctx None); [intros; simplify_eq; left; eauto|].
  destruct (validateLocalRecord _ _) eqn:Hv; [intros; simplify_eq; left; eauto|].
  destruct (closed s) eqn:Hc; [intros; simplify_eq; left; eauto|].
  cbn [normalizeLocalRecord lr_ID]. fold (normalizeLocalRecord r).
  destruct (sealRecord _ _ _ _) as [encoded|] eqn:Hs; [|intros; simplify_eq; left; eauto].
  destruct (_ <? 0); [intros; simplify_eq; left; eauto|].
  destruct (pruneToLocked _ _ _ _ _ _ _ _) as [[[dp sp] rep] pe] eqn:Hp.
  apply pruneToLocked_spec in Hp as [Hp Hfit]; [|done]. intros Hput. right. exists encoded. split_and!; [done..|].
  assert (Hid : lr_ID (normalizeLocalRecord r) = lr_ID r) by done.
  destruct pe as [err|]; [simplify_eq; eapply put_failed; rewrite ?Hid; [done|by left]|].
  destruct (Hfit eq_refl) as [Hu Hn]. pose proof (sealRecord_size _ _ _ _ _ Hs) as Hsize.
  destruct (atomicWrite _ _ _ _ _) as [dw we] eqn:Hw. apply atomicWrite_cases in Hw.
  destruct we as [err|].
  { simplify_eq. eapply put_failed; rewrite ?Hid; [done|].
    destruct Hw as [[-> _]|[(tmp & file & ? & ? & ? & ? & ? & _)|[-> E]]]; [by left|right; left; eauto 10|right; right].
    eexists. split; [done|congruence]. }
  destruct Hw as [[_ [? ?]]|[(? & ? & _ & _ & _ & _ & _ & ? & ?)|[Hw _]]]; [done..|]. subst dw.
  assert (Hold : match entries s !! lr_ID r with Some m => m_Charge m | None => 0 end =
    from_option m_Charge 0 (entries s !! lr_ID r)) by (by destruct (entries s !! _)).
  rewrite Hold in *. simplify_eq. rewrite <- Hid in *. eapply put_written; try done.
  - by apply (valid_record _ now).
  - lia.
  - destruct (entries s !! _) as [m|] eqn:Hm.
    + rewrite bool_decide_eq_true_2 by eauto. destruct (ok_entry s Hok _ _ Hm) as (Hmid & Hvid & _).
      rewrite bool_decide_eq_false_2 in Hn; [lia|]. rewrite Hmid. intros E. by rewrite E in Hvid.
    + rewrite bool_decide_eq_false_2 by (by intros [? ?]). lia.
Qed.

Lemma pruned_within (io : IO) (s s' : EncryptedDiskStore) (disk disk' : Disk) (now : Time) (ex : string) :
  store_ok s → pruned io s s' disk disk' now ex → within_limits s → within_limits s'.
Proof.
  intros Hok [Hok' (Hmax & _) Hsub Hrem _ _] [Hu Hn]. unfold within_limits. rewrite Hmax.
  assert (Hincl : entries s' ⊆ entries s) by (apply map_subseteq_spec; exact Hsub). split.
  - rewrite (ok_used s' Hok'). etrans; [|exact Hu]. rewrite (ok_used s Hok).
    apply map_sum_subseteq; [done|]. intros id m Hm. destruct (ok_entry s Hok id m Hm) as (_ & _ & _ & ?). lia.
  - pose proof (map_subseteq_size _ _ Hincl). lia.
Qed.

Lemma pruned_excluded (io : IO) (s s' : EncryptedDiskStore) (disk disk' : Disk) (now : Time) (ex : string) :
  pruned io s s' disk disk' now ex → entries s' !! ex = entries s !! ex.
Proof.
  intros [_ _ Hsub Hrem _ _]. destruct (entries s' !! ex) as [m|] eqn:E; [symmetry; by apply Hsub|].
  destruct (entries s !! ex) as [m|] eqn:Es; [|done]. by destruct (Hrem ex m Es E) as [? _].
Qed.

Lemma record_put_ok (io : IO) (s s' : EncryptedDiskStore) (disk disk' : Disk) (r : LocalRecord) (now : Time)
    (encoded : bytes) (e : option error) :
  store_ok s → put_result io s disk r now encoded s' disk' e →
  store_ok s' ∧ (within_limits s → within_limits s').
Proof.
  intros Hok Hput. destruct Hput as [sp dp d er Hp Hd|sp dp Hp charge old Hid Hpos Hu Hn].
  { split; [by eapply pn_ok|]. intros. by eapply pruned_within. }
  pose proof (pn_ok _ _ _ _ _ _ _ Hp) as Hokp. pose proof (pruned_excluded _ _ _ _ _ _ _ Hp) as Hex.
  destruct (pn_same _ _ _ _ _ _ _ Hp) as (Hmax & _ & _). split.
  - split; cbn [set_entries entries used].
    + intros id m [[<- <-]|[_ Hm]]%lookup_insert_Some; [|by apply (ok_entry sp Hokp)].
      split_and!; try done. simpl. unfold charge, localRecordCharge, localRecordAccountingOverhead. lia.
    + rewrite <- insert_delete_eq, map_sum_insert by apply lookup_delete_eq.
      rewrite (ok_used sp Hokp). unfold old. rewrite <- Hex.
      destruct (entries sp !! lr_ID r) as [m|] eqn:E; simpl.
      * rewrite (map_sum_delete _ _ _ m E). unfold metaFromRecord. simpl. lia.
      * rewrite delete_id by done. unfold metaFromRecord. simpl. lia.
  - intros _. split; cbn [set_entries entries used maxBytes].
    + rewrite Hmax. lia.
    + rewrite <- Hex in Hn. destruct (entries sp !! lr_ID r) as [m|] eqn:E.
      * rewrite map_size_insert_Some by done. case_bool_decide; lia.
      * rewrite map_size_insert_None by done. case_bool_decide as Hb; [by destruct Hb|lia].
Qed.

(** * Opening keeps the invariant *)

Lemma readRecord_Ok (io : IO) (now : Time) (disk : Disk) (s : EncryptedDiskStore) (name : string)
    (r : LocalRecord) :
  readRecord io now disk s name = Ok r → validateLocalRecord r now = None.
Proof.
  unfold readRecord. intros H. repeat case_match; try done. by apply (inj Ok) in H as <-.
Qed.

Lemma add_ok (s : EncryptedDiskStore) (r : LocalRecord) (charge : Z) :
  store_ok s → entries s !! lr_ID r = None → validLocalRecordID (lr_ID r) = true → 0 < charge →
  store_ok (set_entries s (<[lr_ID r := metaFromRecord r (localRecordFilename (lr_ID r)) charge]> (entries s))
    (used s + charge)).
Proof.
  intros [He Hu] Hnew Hid Hc. split; cbn [set_entries entries used].
  - intros id m [[<- <-]|[_ Hm]]%lookup_insert_Some; [done|by apply He].
  - rewrite map_sum_insert, Hu by done. simpl. lia.
Qed.

Lemma load_records_ok (io : IO) (now clock : Time) (listing : list (string * File)) (disk disk' : Disk)
    (s s' : EncryptedDiskStore) (rt rt' : bool) :
  store_ok s → within_limits s →
  load_loop io now clock listing disk s rt = (disk', Ok (s', rt')) →
  store_ok s' ∧ within_limits s' ∧ maxBytes s' = maxBytes s ∧ key s' = key s.
Proof.
  revert disk s rt. induction listing as [|[name file] listing IH]; intros disk s rt Hok Hw Hl;
    cbn [load_loop] in Hl; [by simplify_eq|].
  case_bool_decide; [destruct (not_private _ _ _); [done|by eapply IH]|].
  destruct (String.prefix _ _).
  { destruct (not_private _ _ _); [done|]. destruct (os_Remove _ _ _) as [d [er|]]; [done|by eapply IH]. }
  destruct (negb _); [done|]. destruct (negb _); [done|].
  destruct (_ || _ || _)%bool eqn:Hfile; [done|]. unbool.
  destruct (readRecord _ _ _ _ _) as [r|] eqn:Hr; [|done].
  apply readRecord_Ok, valid_record in Hr as (Hid & _ & _).
  destruct (negb _) eqn:Hname; [done|]. unbool. subst name.
  destruct (bool_decide _) eqn:Hdup; [done|]. unbool. apply eq_None_not_Some in Hdup.
  set (t := set_entries _ _ _) in Hl.
  assert (Ht : store_ok t).
  { apply add_ok; [done..|]. unfold localRecordCharge, localRecordAccountingOverhead. lia. }
  destruct (_ || _)%bool eqn:Hover in Hl.
  - destruct (pruneToLocked _ _ _ _ _ _ _ _) as [[[dp sp] rep] [er|]] eqn:Hp; [done|].
    apply pruneToLocked_spec in Hp as [[Hokp (Hmax & _ & Hkey) _ _ _ _] Hfit]; [|done].
    apply IH in Hl as (? & ? & E1 & E2); [|done|].
    + split_and!; try done; [by rewrite E1, Hmax|by rewrite E2, Hkey].
    + destruct (Hfit eq_refl). split; [by rewrite Hmax|done].
  - unbool. apply IH in Hl as (? & ? & E1 & E2); [done|done|]. by split.
Qed.

Lemma load_batches_ok (io : IO) (now clock : Time) (fuel k : nat) (listing : list (string * File)) (disk disk' : Disk)
    (s s' : EncryptedDiskStore) (rt rt' : bool) :
  store_ok s → within_limits s →
  load_batches io now clock fuel k listing disk s rt = (disk', Ok (s', rt')) →
  store_ok s' ∧ within_limits s' ∧ maxBytes s' = maxBytes s ∧ key s' = key s.
Proof.
  revert k listing disk s rt. induction fuel as [|fuel IH]; intros k listing disk s rt Hok Hw Hl;
    cbn [load_batches] in Hl; (destruct (io _); [done|]);
    destruct (take readDirBatch listing) as [|x batch] eqn:Eb; try by simplify_eq.
  destruct (load_loop _ _ _ _ _ _ _) as [d [[t b]|er]] eqn:Hlp; [|done].
  apply load_records_ok in Hlp as (Hok' & Hw' & Em & Ek); [|done..].
  apply IH in Hl as (? & ? & Em' & Ek'); [|done..]. by rewrite Em', Em, Ek', Ek.
Qed.

(** A digit is not the dot a temporary name starts with. *)
Lemma hex_digit_not_dot (v : Z) : 0 ≤ v < 16 → Ascii.ascii_of_byte (Hex.digit v) ≠ Ascii.ascii_of_byte x2e.
Proof. by apply (seqZ_check (λ v, Ascii.ascii_of_byte (Hex.digit v) ≠ Ascii.ascii_of_byte x2e)). Qed.

Lemma localRecordFilename_no_dot (id : string) : String.prefix "." (localRecordFilename id) = false.
Proof.
  unfold localRecordFilename. destruct (Sha256.Sum256 _) as [|b l] eqn:E;
    [by pose proof (Sha256.Sum256_length (pathPreimage id)) as H; rewrite E in H|].
  apply (prefix_head_ne (Ascii.ascii_of_byte x2e) (Ascii.ascii_of_byte (Hex.digit (b2z b / 16))) "").
  apply not_eq_sym, hex_digit_not_dot. pose proof (b2z_range b). div_lia.
Qed.

Lemma localRecordFilename_not_temporary (id : string) :
  String.prefix temporaryRecordPrefix (localRecordFilename id) = false.
Proof.
  apply not_true_is_false. intros H. pose proof (prefix_trans "." "vmc-private-" _ H) as Hd.
  by rewrite localRecordFilename_no_dot in Hd.
Qed.

(** ** What opening finds *)

(** [readRecord] depends on the file and the key only. *)
Lemma readRecord_ext (io : IO) (now : Time) (disk disk' : Disk) (s s' : EncryptedDiskStore) (name : string) :
  disk !! name = disk' !! name → key s = key s' → readRecord io now disk s name = readRecord io now disk' s' name.
Proof. intros Hd Hk. unfold readRecord. by rewrite Hd, Hk. Qed.

Lemma load_loop_app (io : IO) (now clock : Time) (l l' : list (string * File)) (disk : Disk)
    (s : EncryptedDiskStore) (rt : bool) :
  load_loop io now clock (l ++ l') disk s rt =
    match load_loop io now clock l disk s rt with
    | (disk, Err e) => (disk, Err e)
    | (disk, Ok (s, rt)) => load_loop io now clock l' disk s rt
    end.
Proof.
  revert disk s rt. induction l as [|[name file] l IH]; intros disk s rt; [done|]. cbn [app load_loop].
  repeat (case_match; try done; subst); by rewrite IH.
Qed.

(** The batches cover the directory: the fuel never ends before the listing. *)
Lemma load_batches_whole (io : IO) (now clock : Time) (fuel k : nat) (listing : list (string * File)) (disk disk' : Disk)
    (s : EncryptedDiskStore) (rt : bool) (x : EncryptedDiskStore * bool) :
  (length listing < fuel)%nat → load_batches io now clock fuel k listing disk s rt = (disk', Ok x) →
  load_loop io now clock listing disk s rt = (disk', Ok x).
Proof.
  revert k listing disk s rt. induction fuel as [|fuel IH]; intros k listing disk s rt Hf Hl; [lia|].
  cbn [load_batches] in Hl. destruct (io _); [done|].
  destruct (take readDirBatch listing) as [|y batch] eqn:Eb; [destruct listing; [by simplify_eq|done]|].
  rewrite <- (take_drop readDirBatch listing), load_loop_app, Eb.
  destruct (load_loop _ _ _ (y :: batch) _ _ _) as [d [[t b]|er]]; [|done]. eapply IH; [|exact Hl].
  rewrite length_drop. destruct listing; [done|]. simpl in *. unfold readDirBatch. lia.
Qed.

Definition recordMeta (r : LocalRecord) (file : File) : localRecordMeta :=
  metaFromRecord r (localRecordFilename (lr_ID r)) (localRecordCharge (blen (f_data file))).

(** A name the listing treats as a record's. *)
Definition record_name (name : string) : Prop :=
  name ≠ localStoreLockFilename ∧ String.prefix temporaryRecordPrefix name = false.

Section Opening.
Context (io : IO) (now clock : Time) (disk0 : Disk) (s0 : EncryptedDiskStore).

(** The file [name] of the directory holds the record [r]. *)
Definition holds (name : string) (file : File) (r : LocalRecord) : Prop :=
  disk0 !! name = Some file ∧ readRecord (inner io) clock disk0 s0 name = Ok r ∧ localRecordFilename (lr_ID r) = name.

(** Between two entries of the listing, with [read] the names read so far: the index has
    exactly the records read, but for prunable ones, and only what was read has changed. *)
Record loading (read : list string) (disk : Disk) (s : EncryptedDiskStore) : Prop := {
  ld_key : key s = key s0;
  ld_disk name : name ∉ read → disk !! name = disk0 !! name;
  ld_sound id m : entries s !! id = Some m →
    ∃ file r, localRecordFilename id ∈ read ∧ id = lr_ID r ∧ m = recordMeta r file ∧
      holds (localRecordFilename id) file r ∧ disk !! localRecordFilename id = Some file;
  ld_complete name : name ∈ read → record_name name →
    ∃ file r, holds name file r ∧
      (entries s !! lr_ID r = Some (recordMeta r file) ∨ localRecordPrunable (recordMeta r file) now = true);
}.

Lemma holds_inj (name : string) (file file' : File) (r r' : LocalRecord) :
  holds name file r → holds name file' r' → file = file' ∧ r = r'.
Proof. unfold holds. intros (E & R & _) (E' & R' & _). rewrite E in E'. rewrite R in R'. by simplify_eq. Qed.

Lemma holds_record_name (id : string) : record_name (localRecordFilename id).
Proof.
  split; [|apply localRecordFilename_not_temporary]. intros E. pose proof (localRecordFilename_no_dot id) as H. by rewrite E in H.
Qed.

(** A pruned record's file is that of its own entry. *)
Lemma loading_prune (read : list string) (disk disk' : Disk) (s s' : EncryptedDiskStore) :
  loading read disk s → pruned (inner io) s s' disk disk' now "" → loading read disk' s'.
Proof.
  intros [Hk Hd Hs Hc] [_ (_ & _ & Hk') Hsub Hrem Hpd _].
  split.
  - congruence.
  - intros name Hn. rewrite Hpd; [by apply Hd|]. intros id m Hm _ Hp.
    destruct (Hs id m Hm) as (file & r & Hin & -> & -> & _). by subst name.
  - intros id m Hm. destruct (Hs id m (Hsub _ _ Hm)) as (file & r & Hin & Hid & Hmm & Hh & Hf).
    exists file, r. split_and!; try done. rewrite Hpd; [done|]. intros id' m' Hm' Hgone Hp.
    destruct (Hs id' m' Hm') as (file' & r' & _ & -> & -> & Hh' & _).
    cbn [recordMeta metaFromRecord m_Path] in Hp. rewrite Hp in Hh'.
    destruct (holds_inj _ _ _ _ _ Hh Hh') as [<- <-]. subst id. congruence.
  - intros name Hn Hr. destruct (Hc name Hn Hr) as (file & r & Hh & [He|Hp]); exists file, r; split; try done; [|by right].
    destruct (entries s' !! lr_ID r) as [m|] eqn:E; [left; rewrite <- He; symmetry; by apply Hsub|right].
    by destruct (Hrem _ _ He E) as (_ & ? & _).
Qed.

(** A name that holds no record is passed over. *)
Lemma loading_pass (read : list string) (disk disk' : Disk) (s : EncryptedDiskStore) (name : string) :
  loading read disk s → ¬ record_name name → (∀ n, n ≠ name → disk' !! n = disk !! n) → loading (name :: read) disk' s.
Proof.
  intros [Hk Hd Hs Hc] Hn Hd'. split; [done|..].
  - intros n [Hne Hin]%not_elem_of_cons. rewrite Hd' by done. by apply Hd.
  - intros id m Hm. destruct (Hs id m Hm) as (file & r & Hin & Hid & Hmm & Hh & Hf). exists file, r.
    split_and!; try done; [by apply elem_of_cons; right|]. rewrite Hd'; [done|]. intros <-. by apply Hn, holds_record_name.
  - intros n [->|Hin]%elem_of_cons Hr; [done|by apply Hc].
Qed.

(** The next record enters the index. *)
Lemma loading_add (read : list string) (disk : Disk) (s : EncryptedDiskStore) (r : LocalRecord) (file : File) (u : Z) :
  let name := localRecordFilename (lr_ID r) in
  loading read disk s → name ∉ read → entries s !! lr_ID r = None → holds name file r →
  loading (name :: read) disk (set_entries s (<[lr_ID r := recordMeta r file]> (entries s)) u).
Proof.
  intros name [Hk Hd Hs Hc] Hn Hnew Hh. split; cbn [set_entries key entries].
  - done.
  - intros n [Hne Hin]%not_elem_of_cons. by apply Hd.
  - intros id m [[<- <-]|[Hne Hm]]%lookup_insert_Some.
    + exists file, r. split_and!; try done; [by apply elem_of_cons; left|]. rewrite Hd by done. by destruct Hh as [? _].
    + destruct (Hs id m Hm) as (file' & r' & Hin & H). exists file', r'. split; [by apply elem_of_cons; right|done].
  - intros n [->|Hin]%elem_of_cons Hr; [exists file, r; split; [done|left; apply lookup_insert_eq]|].
    destruct (Hc n Hin Hr) as (file' & r' & Hh' & H'). exists file', r'. split; [done|].
    destruct H' as [He|?]; [left|by right]. rewrite lookup_insert_ne; [done|]. congruence.
Qed.

Lemma load_loop_exact (listing : list (string * File)) (read : list string) (disk disk' : Disk)
    (s s' : EncryptedDiskStore) (rt rt' : bool) :
  store_ok s → loading read disk s → NoDup listing.*1 → (∀ name file, (name, file) ∈ listing → name ∉ read ∧ disk0 !! name = Some file) →
  load_loop io now clock listing disk s rt = (disk', Ok (s', rt')) →
  loading (reverse listing.*1 ++ read) disk' s'.
Proof.
  revert read disk s rt. induction listing as [|[name file] listing IH]; intros read disk s rt Hok Hld Hnd Hin Hl;
    cbn [load_loop] in Hl; [by simplify_eq|].
  rewrite fmap_cons in *. cbn [fst]. rewrite reverse_cons, <- app_assoc. apply list.NoDup_cons in Hnd as [Hfresh Hnd].
  destruct (Hin name file (list_elem_of_here _ _)) as [Hnr Hf0].
  assert (Hin' : ∀ n f, (n, f) ∈ listing → n ∉ name :: read ∧ disk0 !! n = Some f).
  { intros n f Hnf. destruct (Hin n f (list_elem_of_further _ _ _ Hnf)) as [? ?]. split; [|done].
    apply not_elem_of_cons. split; [|done]. intros ->. apply Hfresh, list_elem_of_fmap. by exists (name, f). }
  case_bool_decide as Hlock.
  { destruct (not_private _ _ _); [done|]. eapply IH; [done| |done|exact Hin'|exact Hl].
    eapply loading_pass; [done| |done]. by intros []. }
  destruct (String.prefix _ _) eqn:Hpf.
  { destruct (not_private _ _ _); [done|]. destruct (os_Remove _ _ _) as [d [er|]] eqn:Hr; [done|].
    eapply IH; [done| |done|exact Hin'|exact Hl]. eapply loading_pass; [done|intros []; congruence|].
    intros n Hne. eapply os_Remove_lookup; [exact Hr|done]. }
  destruct (negb _); [done|]. destruct (negb _); [done|].
  destruct (_ || _ || _)%bool eqn:Hfile; [done|]. unbool.
  destruct (readRecord _ _ _ _ _) as [r|] eqn:Hr; [|done].
  pose proof Hr as Hread. apply readRecord_Ok, valid_record in Hr as (Hid & _ & _).
  destruct (negb _) eqn:Hname; [done|]. unbool. subst name.
  destruct (bool_decide _) eqn:Hdup; [done|]. unbool. apply eq_None_not_Some in Hdup.
  assert (Hh : holds (localRecordFilename (lr_ID r)) file r).
  { split_and!; [done| |done]. rewrite <- Hread. apply readRecord_ext; [symmetry; by apply (ld_disk _ _ _ Hld)|].
    symmetry. apply (ld_key _ _ _ Hld). }
  pose proof (loading_add _ _ _ _ _ (used s + localRecordCharge (blen (f_data file))) Hld Hnr Hdup Hh) as Hld'.
  change (metaFromRecord r _ _) with (recordMeta r file) in Hl. set (t := set_entries _ _ _) in *.
  assert (Ht : store_ok t).
  { apply add_ok; [done..|]. unfold localRecordCharge, localRecordAccountingOverhead. lia. }
  destruct (_ || _)%bool eqn:Hover in Hl; [|by eapply IH].
  destruct (pruneToLocked _ _ _ _ _ _ _ _) as [[[dp sp] rep] [er|]] eqn:Hp; [done|].
  apply pruneToLocked_spec in Hp as [Hp _]; [|done]. eapply IH; [by eapply pn_ok| |done|exact Hin'|exact Hl].
  by eapply loading_prune.
Qed.
End Opening.

(** Only the key of the store matters to what a file holds. *)
Lemma loading_key (io : IO) (now clock : Time) (disk0 disk : Disk) (s0 s : EncryptedDiskStore) (read : list string) :
  loading io now clock disk0 s0 read disk s → loading io now clock disk0 s read disk s.
Proof.
  intros [Hk Hd Hs Hc].
  assert (Hh : ∀ name file r, holds io clock disk0 s0 name file r → holds io clock disk0 s name file r).
  { intros name file r (? & Hr & ?). split_and!; [done| |done]. rewrite <- Hr. by apply readRecord_ext. }
  split; [done..| |].
  - intros id m Hm. destruct (Hs id m Hm) as (file & r & ? & ? & ? & ? & ?). exists file, r. auto 10.
  - intros name Hn Hr. destruct (Hc name Hn Hr) as (file & r & ? & ?). exists file, r. auto.
Qed.

(** * Runs *)

(** An operation with the arguments that matter to a record: the ID and the time, and
    for [Put] whether the directory can be synced after the new file is in place. *)
Inductive Op :=
| OpPut (id : string) (now : Time) (synced : bool)
| OpDelete (id : string)
| OpPruneTo (now : Time)
| OpSetLimit (now : Time)
| OpClose.

(** One call of an operation, with whatever system errors and cancellations. *)
Inductive step : Op → Disk * EncryptedDiskStore → Disk * EncryptedDiskStore → Prop :=
| step_put io rand ctx disk s r now disk' s' report e :
    Put io rand ctx disk s r now = (disk', s', report, e) →
    step (OpPut (lr_ID r) now (bool_decide (io SyncDir = None))) (disk, s) (disk', s')
| step_delete io ctx disk s id disk' s' e :
    Delete io ctx disk s id = (disk', s', e) → step (OpDelete id) (disk, s) (disk', s')
| step_prune io ctx disk s target now disk' s' report e :
    PruneTo io ctx disk s target now = (disk', s', report, e) →
    step (OpPruneTo now) (disk, s) (disk', s')
| step_limit io ctx disk s limit now disk' s' report e :
    SetLimit io ctx disk s limit now = (disk', s', report, e) →
    step (OpSetLimit now) (disk, s) (disk', s')
| step_close io disk s : step OpClose (disk, s) (disk, (Close io s).1).

Inductive run : list Op → Disk * EncryptedDiskStore → Disk * EncryptedDiskStore → Prop :=
| run_nil x : run [] x x
| run_cons op ops x y z : step op x y → run ops y z → run (op :: ops) x z.

Lemma record_delete_cases (io : IO) (ctx : option Ctx) (disk disk' : Disk) (s s' : EncryptedDiskStore) (id : string)
    (e : option error) :
  store_ok s → Delete io ctx disk s id = (disk', s', e) →
  (s' = s ∧ disk' = disk) ∨ ∃ m, entries s !! id = Some m ∧ store_ok s' ∧
    s' = set_entries s (delete id (entries s)) (used s - m_Charge m) ∧
    ∀ name, name ≠ localRecordFilename id → disk' !! name = disk !! name.
Proof.
  intros Hok. unfold Delete. destruct ctx as [ctx|]; [|intros; simplify_eq; by left].
  destruct (negb _); [intros; simplify_eq; by left|]. destruct (ctx None); [intros; simplify_eq; by left|].
  destruct (closed s); [intros; simplify_eq; by left|].
  destruct (entries s !! id) as [m|] eqn:Hm; [|intros; simplify_eq; by left].
  destruct (ok_entry s Hok id m Hm) as (Hmid & _ & Hpath & _). unfold deleteMetaLocked.
  destruct (os_Remove _ _ _) as [d er] eqn:Hr. destruct (remove_failed er) eqn:Hf.
  { destruct (os_Remove_failed _ _ _ _ _ Hr Hf) as [-> [? ->]]. intros; simplify_eq; by left. }
  intros Hd. simplify_eq. right. exists m. split_and!; try done.
  - destruct Hok as [He Hu]. split; cbn [set_entries entries used].
    + intros id' m' [_ Hm']%lookup_delete_Some. by apply He.
    + by rewrite Hu, (map_sum_delete _ _ _ m Hm).
  - intros name Hne. eapply os_Remove_lookup; [done|]. by rewrite Hpath.
Qed.

Lemma Delete_within (s : EncryptedDiskStore) (id : string) (m : localRecordMeta) :
  store_ok s → entries s !! id = Some m → within_limits s →
  within_limits (set_entries s (delete id (entries s)) (used s - m_Charge m)).
Proof.
  intros Hok Hm [Hu Hn]. destruct (ok_entry s Hok id m Hm) as (_ & _ & _ & ?).
  split; cbn [set_entries entries used maxBytes]; [lia|]. rewrite map_size_delete, Hm. lia.
Qed.

(** What [SetLimit] does past its guards: it prunes to the new limit, which it
    then installs unless pruning failed. *)
Lemma SetLimit_cases (io : IO) (ctx : option Ctx) (disk disk' : Disk) (s s' : EncryptedDiskStore)
    (limit : Z) (now : Time) (report : PruneReport) (e : option error) :
  store_ok s → SetLimit io ctx disk s limit now = (disk', s', report, e) →
  (s' = s ∧ disk' = disk) ∨ ∃ sp, MinClientStorageBytes ≤ limit ∧
    (pruned io s sp disk disk' now "" ∧
     (e = None → used sp ≤ limit ∧ Z.of_nat (size (entries sp)) ≤ MaxClientStoreRecords)) ∧
    s' = match e with None => set_max sp limit | Some _ => sp end.
Proof.
  intros Hok. unfold SetLimit. destruct ctx as [ctx|]; [|intros; simplify_eq; by left].
  destruct (_ || _)%bool eqn:Hlim; [intros; simplify_eq; by left|].
  destruct (ctx None); [intros; simplify_eq; by left|]. destruct (closed s); [intros; simplify_eq; by left|].
  destruct (pruneToLocked _ _ _ _ _ _ _ _) as [[[dp sp] rep] pe] eqn:Hp.
  apply pruneToLocked_spec in Hp; [|done]. intros Hs. right. exists sp.
  unfold validClientStorageLimit in Hlim. unbool.
  destruct pe; simplify_eq; naive_solver.
Qed.

Lemma store_step_ok `{!AEADLaws} (op : Op) (x y : Disk * EncryptedDiskStore) :
  step op x y → store_ok x.2 → within_limits x.2 → 0 ≤ maxBytes x.2 →
  store_ok y.2 ∧ within_limits y.2 ∧ 0 ≤ maxBytes y.2.
Proof.
  intros Hst Hok Hw Hpos.
  destruct Hst as [io rand ctx d s r now d' s' rep e Hop|io ctx d s id d' s' e Hop|
    io ctx d s tgt now d' s' rep e Hop|io ctx d s lim now d' s' rep e Hop|io d s]; simpl in *.
  - apply Put_cases in Hop as [(-> & _)|(enc & _ & _ & _ & Hp)]; [done| |done].
    destruct (record_put_ok _ _ _ _ _ _ _ _ _ Hok Hp) as [? Hw']. split_and!; [done|by apply Hw'|].
    destruct Hp as [sp ? ? ? Hp|sp ? Hp]; destruct (pn_same _ _ _ _ _ _ _ Hp) as [Hm _]; simpl; lia.
  - apply record_delete_cases in Hop as [[-> _]|(m & Hm & Hok' & -> & _)]; [done| |done].
    split_and!; [done|by apply Delete_within|done].
  - unfold PruneTo in Hop. repeat case_match; simplify_eq; try done.
    apply pruneToLocked_spec in Hop as [Hp _]; [|done]. pose proof (pn_same _ _ _ _ _ _ _ Hp) as (Hm & _).
    split_and!; [by eapply pn_ok|by eapply pruned_within|lia].
  - apply SetLimit_cases in Hop as [[-> _]|(sp & Hlim & [Hp Hfit] & ->)]; [done| |done]. pose proof (pn_same _ _ _ _ _ _ _ Hp) as (Hm & _).
    destruct e as [er|].
    + split_and!; [by eapply pn_ok|by eapply pruned_within|by rewrite Hm].
    + destruct (Hfit eq_refl) as [Hu Hn]. destruct (pn_ok _ _ _ _ _ _ _ Hp) as [He Hs].
      split_and!; [by split|by split|]. simpl. unfold MinClientStorageBytes in *. lia.
  - unfold Close. case_match; [done|]. split_and!; try done; split; try done.
Qed.

Lemma run_ok `{!AEADLaws} (ops : list Op) (x y : Disk * EncryptedDiskStore) :
  run ops x y → store_ok x.2 → within_limits x.2 → 0 ≤ maxBytes x.2 →
  store_ok y.2 ∧ within_limits y.2 ∧ 0 ≤ maxBytes y.2.
Proof.
  induction 1 as [x|op ops x y z Hxy _ IH]; [done|]. intros Hok Hw Hpos.
  destruct (store_step_ok op x y Hxy Hok Hw Hpos) as (? & ? & ?). by apply IH.
Qed.

(** What opening establishes. *)
Lemma opened_ok (io : IO) (clock now : Time) (disk disk' : Disk) (config : DiskClientStoreConfig) (s : EncryptedDiskStore) :
  NewEncryptedDiskStore io clock disk config now = (disk', Ok s) →
  (store_ok s ∧ within_limits s ∧ 0 ≤ maxBytes s) ∧
  ∃ read, (∀ name, is_Some (disk !! name) → name ∈ read) ∧ loading io now clock disk s read disk' s.
Proof.
  unfold NewEncryptedDiskStore. intros Hnew. destruct (_ || _)%bool; [done|]. destruct (negb _) eqn:Hlim; [done|].
  repeat (match type of Hnew with context [match io ?x with _ => _ end] => destruct (io x); [done|] end).
  destruct (load_batches _ _ _ _ _ _ _ _ _) as [d [[t b]|er]] eqn:Hl; [|done].
  destruct (if b then _ else _); [done|]. injection Hnew as <- <-.
  assert (Hlen : length (range_map disk) = size disk).
  { rewrite (Permutation_length (range_map_perm disk)). apply length_map_to_list. }
  apply load_batches_whole in Hl; [|lia]. set (s0 := {| key := _ |}) in Hl.
  unfold validClientStorageLimit, MinClientStorageBytes in Hlim. unbool.
  assert (Hok0 : store_ok s0) by by split.
  pose proof Hl as (? & ? & Hm & Hk)%load_records_ok; [|done|by split; simpl; [lia|rewrite map_size_empty]].
  split; [rewrite Hm; split_and!; try done; simpl; lia|].
  eapply (load_loop_exact io now clock disk s0 _ []) in Hl; [|done| |apply range_map_keys|].
  - eexists. split; [|by eapply loading_key].
    intros name [file Hf%range_map_elem]. apply elem_of_app. left. apply elem_of_reverse.
    apply list_elem_of_fmap. by exists (name, file).
  - split; [done..| |].
    + intros id m Hin. cbn [s0 entries] in Hin. by rewrite lookup_empty in Hin.
    + intros name Hin. by apply elem_of_nil in Hin.
  - intros name file Hin%range_map_elem. split; [apply not_elem_of_nil|done].
Qed.

(** * Protected records *)

Lemma localRecordFilename_inj (id id' : string) :
  localRecordFilename id = localRecordFilename id' →
  id = id' ∨ Sha256.collides (pathPreimage id) (pathPreimage id').
Proof.
  unfold localRecordFilename. intros H%(f_equal str_bytes). rewrite !str_bytes_app in H.
  apply app_inv_tail, (inj str_bytes), (inj Hex.EncodeToString), Sha256.Sum256_inj in H as [H|H]; [|by right].
  left. unfold pathPreimage in H. by apply app_inv_head, app_inv_head, (inj str_bytes) in H.
Qed.

(** The record IDs an operation names. *)
Definition op_ids (op : Op) : gset string :=
  match op with OpPut id _ _ | OpDelete id => {[id]} | _ => ∅ end.

(** The path of [id] collides with that of one of [ids]. *)
Definition path_collision (ids : gset string) (id : string) : Prop :=
  ∃ id', id' ∈ ids ∧ Sha256.collides (pathPreimage id) (pathPreimage id').

Lemma filename_ne (ids : gset string) (id id' : string) :
  id' ≠ id → id' ∈ ids → localRecordFilename id' ≠ localRecordFilename id ∨ path_collision ids id.
Proof.
  intros Hne Hin. destruct (decide (localRecordFilename id = localRecordFilename id')) as [E|]; [|by left].
  apply localRecordFilename_inj in E as [->|Hc]; [done|]. right. by exists id'.
Qed.

(** [id] keeps its entry and its file, and the store its key. *)
Definition kept (ids : gset string) (id : string) (x y : Disk * EncryptedDiskStore) : Prop :=
  entries y.2 !! id = entries x.2 !! id ∧ key y.2 = key x.2 ∧ closed y.2 = closed x.2 ∧
  (y.1 !! localRecordFilename id = x.1 !! localRecordFilename id ∨ path_collision ids id).

(** Pruning leaves the files of the records that stay. *)
Lemma pruned_file (io : IO) (s s' : EncryptedDiskStore) (disk disk' : Disk) (now : Time) (ex id : string)
    (m : localRecordMeta) (ids : gset string) :
  store_ok s → dom (entries s) ⊆ ids → pruned io s s' disk disk' now ex → entries s' !! id = Some m →
  disk' !! localRecordFilename id = disk !! localRecordFilename id ∨ path_collision ids id.
Proof.
  intros Hok Hids [_ _ Hsub Hrem Hdisk _] Hm.
  destruct (decide (map_Forall (λ id' m', entries s' !! id' = None → m_Path m' ≠ localRecordFilename id)
    (entries s))) as [Hall|Hnot]; [left; apply Hdisk; exact Hall|right].
  apply map_not_Forall in Hnot as (id' & m' & Hm' & Hnot); [|apply _].
  destruct (ok_entry s Hok id' m' Hm') as (_ & _ & Hp' & _). rewrite Hp' in Hnot.
  destruct (filename_ne ids id id') as [?|?]; [| |tauto|done].
  - intros ->. apply Hnot. congruence.
  - apply Hids, elem_of_dom. by exists m'.
Qed.

Lemma pruned_kept (io : IO) (s s' : EncryptedDiskStore) (disk disk' : Disk) (now : Time) (ex id : string)
    (m : localRecordMeta) (ids : gset string) :
  store_ok s → dom (entries s) ⊆ ids → pruned io s s' disk disk' now ex → entries s !! id = Some m →
  localRecordPrunable m now = false → kept ids id (disk, s) (disk', s').
Proof.
  intros Hok Hids Hpn Hm Hp. destruct (pn_same _ _ _ _ _ _ _ Hpn) as (_ & Hc & Hk).
  assert (Hid : entries s' !! id = Some m).
  { destruct (entries s' !! id) as [m'|] eqn:E; [by rewrite <- Hm, (pn_sub _ _ _ _ _ _ _ Hpn id m' E)|].
    destruct (pn_removed _ _ _ _ _ _ _ Hpn id m Hm E) as (_ & Hp' & _). congruence. }
  unfold kept. cbn [fst snd]. split_and!; [by rewrite Hid|done|done|]. by eapply pruned_file.
Qed.

(** The calls that may not touch [id] up to the time [T]. *)
Definition spares (id : string) (T : Time) (op : Op) : Prop :=
  match op with
  | OpPut id' now _ => id' ≠ id ∧ now ≤ T
  | OpDelete id' => id' ≠ id
  | OpPruneTo now | OpSetLimit now => now ≤ T
  | OpClose => False
  end.

(** Neither evictable nor expired by [T]. *)
Definition protected (m : localRecordMeta) (T : Time) : Prop :=
  m_PrunePolicy m ≠ PruneOldest ∧ (m_ExpiresAt m = 0 ∨ T < m_ExpiresAt m).

Lemma protected_unprunable (m : localRecordMeta) (now T : Time) :
  protected m T → now ≤ T → localRecordPrunable m now = false.
Proof.
  intros [Hp He] Hn. unfold localRecordPrunable, expired, IsZero, After.
  rewrite bool_decide_eq_false_2 by done. destruct (_ && _)%bool eqn:E; [|done]. unbool. lia.
Qed.

Lemma step_kept `{!AEADLaws} (op : Op) (x y : Disk * EncryptedDiskStore) (id : string)
    (m : localRecordMeta) (T : Time) (ids : gset string) :
  step op x y → spares id T op → dom (entries x.2) ∪ op_ids op ⊆ ids → store_ok x.2 → entries x.2 !! id = Some m →
  protected m T → kept ids id x y.
Proof.
  intros Hst Hsp [Hdom Hop_ids]%union_subseteq Hok Hm Hpr.
  assert (Hsame : ∀ z, kept ids id z z) by (intros z; unfold kept; auto).
  destruct Hst as [io rand ctx d s r now d' s' rep e Hop|io ctx d s id' d' s' e Hop|
    io ctx d s tgt now d' s' rep e Hop|io ctx d s lim now d' s' rep e Hop|io d s]; simpl in *; [| | | |done].
  - destruct Hsp as [Hne Hnow]. apply Put_cases in Hop as [(-> & -> & _)|(enc & _ & _ & _ & Hp)]; [done| |done].
    assert (Hk : ∀ sp dp, pruned (inner io) s sp d dp now (lr_ID r) → kept ids id (d, s) (dp, sp)).
    { intros sp dp ?. eapply pruned_kept; [done..|]. by eapply protected_unprunable. }
    destruct Hp as [sp dp dd er Hp Hd|sp dp Hp]; destruct (Hk _ _ Hp) as (He & Hkey & Hc & Hdisk);
      unfold kept; cbn [fst snd set_entries entries key closed] in *.
    + split_and!; try done. destruct Hdisk as [<-|]; [|by right].
      destruct (filename_ne ids id (lr_ID r)) as [?|?]; [done|set_solver| |by right]. left.
      destruct Hd as [->|[(tmp & file & _ & Htmp & _ & _ & ->)|(file & -> & _)]]; [done| |by rewrite lookup_insert_ne].
      rewrite lookup_insert_ne; [done|]. intros ->. by rewrite localRecordFilename_not_temporary in Htmp.
    + split_and!; try done; [by rewrite lookup_insert_ne|]. destruct Hdisk as [<-|]; [|by right].
      destruct (filename_ne ids id (lr_ID r)) as [?|?]; [done|set_solver| |by right]. left. by rewrite lookup_insert_ne.
  - apply record_delete_cases in Hop as [[-> ->]|(m' & Hm' & _ & -> & Hd)]; [done| |done].
    unfold kept; cbn [fst snd set_entries entries key closed]. split_and!; try done.
    + by rewrite lookup_delete_ne.
    + destruct (filename_ne ids id id') as [?|?]; [done|set_solver| |by right]. left. by apply Hd.
  - unfold PruneTo in Hop. repeat case_match; simplify_eq; try done.
    apply pruneToLocked_spec in Hop as [Hp _]; [|done]. eapply pruned_kept; [done..|].
    by eapply protected_unprunable.
  - apply SetLimit_cases in Hop as [[-> ->]|(sp & _ & [Hp _] & ->)]; [done| |done].
    eapply pruned_kept in Hp; [|done..|by eapply protected_unprunable]. by destruct e.
Qed.

(** Only [Put] adds a record, the one it names. *)
Lemma step_dom `{!AEADLaws} (op : Op) (x y : Disk * EncryptedDiskStore) :
  step op x y → store_ok x.2 → dom (entries y.2) ⊆ dom (entries x.2) ∪ op_ids op.
Proof.
  intros Hst Hok.
  assert (Hpr : ∀ io s s' d d' now ex, pruned io s s' d d' now ex → dom (entries s') ⊆ dom (entries s)).
  { intros io s s' d d' now ex Hp. apply subseteq_dom, map_subseteq_spec. apply (pn_sub _ _ _ _ _ _ _ Hp). }
  destruct Hst as [io rand ctx d s r now d' s' rep e Hop|io ctx d s id d' s' e Hop|
    io ctx d s tgt now d' s' rep e Hop|io ctx d s lim now d' s' rep e Hop|io d s]; cbn [fst snd op_ids] in *.
  - apply Put_cases in Hop as [(-> & _)|(enc & _ & _ & _ & Hp)]; [set_solver| |done].
    destruct Hp as [sp dp dd er Hp Hd|sp dp Hp]; apply Hpr in Hp; [set_solver|].
    cbn [set_entries entries]. rewrite dom_insert. cbn [normalizeLocalRecord lr_ID]. set_solver.
  - apply record_delete_cases in Hop as [[-> _]|(m & _ & _ & -> & _)]; [set_solver| |done].
    cbn [set_entries entries]. rewrite dom_delete. set_solver.
  - unfold PruneTo in Hop. repeat case_match; simplify_eq; try set_solver.
    apply pruneToLocked_spec in Hop as [Hp%Hpr _]; [set_solver|done].
  - apply SetLimit_cases in Hop as [[-> _]|(sp & _ & [Hp%Hpr _] & ->)]; [set_solver| |done].
    destruct e; cbn [set_max entries]; set_solver.
  - unfold Close. case_match; cbn [fst entries]; set_solver.
Qed.

Lemma run_kept `{!AEADLaws} (ops : list Op) (x y : Disk * EncryptedDiskStore) (id : string)
    (m : localRecordMeta) (T : Time) (ids : gset string) :
  run ops x y → Forall (spares id T) ops → dom (entries x.2) ∪ ⋃ (op_ids <$> ops) ⊆ ids →
  store_ok x.2 → within_limits x.2 → 0 ≤ maxBytes x.2 →
  entries x.2 !! id = Some m → protected m T → kept ids id x y.
Proof.
  induction 1 as [x|op ops x y z Hxy _ IH]; intros Hsp Hids Hok Hw Hpos Hm Hpr; [unfold kept; auto|].
  apply Forall_cons_iff in Hsp as [Hsp Hsps]. rewrite fmap_cons, union_list_cons in Hids.
  destruct (store_step_ok op x y Hxy Hok Hw Hpos) as (Hok' & Hw' & Hpos').
  pose proof (step_dom op x y Hxy Hok) as Hdom.
  destruct (step_kept op x y id m T ids Hxy Hsp) as (He & Hk & Hc & Hd); [set_solver|done..|].
  destruct IH as (He' & Hk' & Hc' & Hd'); try done; [set_solver|by rewrite He|].
  unfold kept. split_and!; [congruence..|]. destruct Hd as [Hd|]; [|by right]. destruct Hd' as [Hd'|]; [|by right].
  left. congruence.
Qed.

(** C8. Protocol state is never evicted: a record that is not marked [oldest] and has not
    expired survives any run of stores, prunes and limit changes with clocks up
    to [T], whatever errors they meet, and reading it gives what it gave before,
    unless its path collides under SHA-256 with that of another record of the run. *)
Theorem protected_survives `{!AEADLaws} (ops : list Op) (disk disk' : Disk) (s s' : EncryptedDiskStore)
    (id : string) (m : localRecordMeta) (T : Time) :
  store_ok s → within_limits s → 0 ≤ maxBytes s → entries s !! id = Some m → protected m T →
  run ops (disk, s) (disk', s') → Forall (spares id T) ops →
  entries s' !! id = Some m ∧
  ((∀ io ctx clock, Get io ctx clock disk' s' id = Get io ctx clock disk s id) ∨
   path_collision (dom (entries s) ∪ ⋃ (op_ids <$> ops)) id).
Proof.
  intros Hok Hw Hpos Hm Hpr Hrun Hsp.
  pose proof (run_kept ops _ _ id m T _ Hrun Hsp (reflexivity _) Hok Hw Hpos Hm Hpr) as Hk. split.
  - destruct Hk as [He _]. simpl in He. congruence.
  - destruct Hk as (He & Hkey & Hc & [Hd|]); [|by right]. left. intros io ctx clock.
    unfold Get. simpl in He, Hkey, Hc, Hd. rewrite Hc, He, Hm. repeat case_match; try done.
    destruct (ok_entry s Hok id m Hm) as (_ & _ & -> & _). unfold readRecord. by rewrite Hd, Hkey.
Qed.

(** * Charges and files *)

(** The charge of the indexed record [id] is that of the bytes of its file. *)
Definition charged (disk : Disk) (s : EncryptedDiskStore) (id : string) : Prop :=
  ∀ m, entries s !! id = Some m →
    ∃ file, disk !! localRecordFilename id = Some file ∧ m_Charge m = localRecordCharge (blen (f_data file)).

Lemma charged_same (disk disk' : Disk) (s s' : EncryptedDiskStore) (id : string) :
  (∀ m, entries s' !! id = Some m → entries s !! id = Some m) →
  disk' !! localRecordFilename id = disk !! localRecordFilename id →
  charged disk s id → charged disk' s' id.
Proof. intros He Hd Hc m Hm. rewrite Hd. by apply Hc, He. Qed.

Lemma pruned_charged (io : IO) (s s' : EncryptedDiskStore) (disk disk' : Disk) (now : Time) (ex id : string)
    (ids : gset string) :
  store_ok s → dom (entries s) ⊆ ids → pruned io s s' disk disk' now ex → charged disk s id →
  charged disk' s' id ∨ path_collision ids id.
Proof.
  intros Hok Hids Hp Hc. destruct (entries s' !! id) as [m|] eqn:Hm; [|left; intros m; congruence].
  destruct (pruned_file _ _ _ _ _ _ _ _ _ _ Hok Hids Hp Hm) as [Hd|]; [left|by right].
  eapply charged_same; [apply (pn_sub _ _ _ _ _ _ _ Hp)|exact Hd|exact Hc].
Qed.

(** A write that does not concern the file of [id]. *)
Lemma charged_insert (disk : Disk) (s : EncryptedDiskStore) (id name : string) (file : File) :
  name ≠ localRecordFilename id → charged disk s id → charged (<[name := file]> disk) s id.
Proof. intros Hne. apply charged_same; [done|by apply lookup_insert_ne]. Qed.

Lemma put_charged (io : IO) (s s' : EncryptedDiskStore) (disk disk' : Disk) (r : LocalRecord) (now : Time)
    (encoded : bytes) (e : option error) (id : string) (ids : gset string) :
  store_ok s → dom (entries s) ∪ {[lr_ID r]} ⊆ ids → put_result io s disk r now encoded s' disk' e →
  (lr_ID r = id → io SyncDir = None) → charged disk s id → charged disk' s' id ∨ path_collision ids id.
Proof.
  intros Hok [Hids Hr]%union_subseteq Hput Hsync Hc.
  assert (Hname : lr_ID r ≠ id → localRecordFilename (lr_ID r) ≠ localRecordFilename id ∨ path_collision ids id).
  { intros Hne. apply filename_ne; [done|set_solver]. }
  destruct Hput as [sp dp dd er Hp Hd|sp dp Hp charge old];
    (destruct (pruned_charged _ _ _ _ _ _ _ id ids Hok Hids Hp Hc) as [Hc'|]; [|by right]).
  - destruct Hd as [->|[(tmp & file & _ & Htmp & _ & _ & ->)|(file & -> & Hfail)]]; [by left| |].
    + left. apply charged_insert; [|done]. intros ->. by rewrite localRecordFilename_not_temporary in Htmp.
    + destruct Hname as [?|?]; [by intros E; apply Hfail, Hsync| |by right]. left. by apply charged_insert.
  - destruct (decide (lr_ID r = id)) as [<-|Hne].
    + left. intros m. cbn [set_entries entries]. rewrite !lookup_insert_eq. intros [= <-]. by eexists.
    + destruct (Hname Hne) as [?|?]; [left|by right]. apply charged_insert; [done|].
      eapply charged_same; [|done|exact Hc']. intros m. cbn [set_entries entries]. by rewrite lookup_insert_ne.
Qed.

Lemma step_charged `{!AEADLaws} (op : Op) (x y : Disk * EncryptedDiskStore) (id : string) (ids : gset string) :
  step op x y → (∀ t, OpPut id t false ≠ op) → dom (entries x.2) ∪ op_ids op ⊆ ids → store_ok x.2 →
  charged x.1 x.2 id → charged y.1 y.2 id ∨ path_collision ids id.
Proof.
  intros Hst Hsp Hids Hok Hc. pose proof Hids as [Hdom _]%union_subseteq.
  destruct Hst as [io rand ctx d s r now d' s' rep e Hop|io ctx d s id' d' s' e Hop|
    io ctx d s tgt now d' s' rep e Hop|io ctx d s lim now d' s' rep e Hop|io d s]; cbn [fst snd op_ids] in *.
  - apply Put_cases in Hop as [(-> & -> & _)|(enc & _ & _ & _ & Hp)]; [by left| |done].
    eapply put_charged; [done| |exact Hp| |done]; [exact Hids|]. cbn [normalizeLocalRecord lr_ID]. intros E. destruct (io SyncDir) eqn:Hio; [|done].
    exfalso. apply (Hsp now). rewrite bool_decide_eq_false_2 by done. by rewrite <- E.
  - apply record_delete_cases in Hop as [[-> ->]|(m' & _ & _ & -> & Hd)]; [by left| |done].
    destruct (decide (id' = id)) as [->|Hne].
    { left. intros m. cbn [set_entries entries]. by rewrite lookup_delete_eq. }
    destruct (filename_ne ids id id') as [?|?]; [done|set_solver|left|by right].
    eapply charged_same; [|by apply Hd|exact Hc]. intros m. cbn [set_entries entries]. by rewrite lookup_delete_ne.
  - unfold PruneTo in Hop. repeat case_match; simplify_eq; try by left.
    apply pruneToLocked_spec in Hop as [Hp _]; [|done]. by eapply pruned_charged.
  - apply SetLimit_cases in Hop as [[-> ->]|(sp & _ & [Hp _] & ->)]; [by left| |done].
    eapply pruned_charged in Hp; [|done..]. by destruct e.
  - left. unfold Close. case_match; [done|]. intros m. cbn [fst entries]. by rewrite lookup_empty.
Qed.

Lemma run_charged `{!AEADLaws} (ops : list Op) (x y : Disk * EncryptedDiskStore) (id : string) (ids : gset string) :
  run ops x y → (∀ t, OpPut id t false ∉ ops) → dom (entries x.2) ∪ ⋃ (op_ids <$> ops) ⊆ ids →
  store_ok x.2 → within_limits x.2 → 0 ≤ maxBytes x.2 →
  charged x.1 x.2 id ∨ path_collision ids id → charged y.1 y.2 id ∨ path_collision ids id.
Proof.
  induction 1 as [x|op ops x y z Hxy _ IH]; intros Hops Hids Hok Hw Hpos [Hc|]; [by left|by right| |by right].
  rewrite fmap_cons, union_list_cons in Hids.
  destruct (store_step_ok op x y Hxy Hok Hw Hpos) as (Hok' & Hw' & Hpos').
  pose proof (step_dom op x y Hxy Hok) as Hdom. apply IH; try done.
  - intros t Hin. by apply (Hops t), elem_of_cons; right.
  - set_solver.
  - eapply step_charged; [exact Hxy| |set_solver|done|done]. intros t <-. apply (Hops t), elem_of_cons. by left.
Qed.

(** C34. The client store opens to what its directory holds and never exceeds its limit.
    Every record file of the directory was read and authenticated under its own name, and
    the index has exactly these records, but for records that were prunable. After
    any sequence of operations, with any I/O errors and cancellations, the accounted bytes
    are the sum of the charges of the records, at most the configured maximum, with
    at most 262144 records, each under the file name derived from its ID; and the
    charge of a record is that of the bytes of its file on disk, unless a [Put] of
    this record could not sync the directory after it had replaced the file (it
    fails and keeps the old index entry), or the record's path collides under
    SHA-256 with that of another record of the run. *)
Theorem client_store_invariant `{!AEADLaws} (io : IO) (clock now : Time) (disk0 disk1 : Disk)
    (config : DiskClientStoreConfig) (s0 : EncryptedDiskStore) :
  NewEncryptedDiskStore io clock disk0 config now = (disk1, Ok s0) →
  (∀ id m, entries s0 !! id = Some m →
     ∃ file r, id = lr_ID r ∧ m = recordMeta r file ∧ holds io clock disk0 s0 (localRecordFilename id) file r ∧
       disk1 !! localRecordFilename id = Some file) ∧
  (∀ name, is_Some (disk0 !! name) → record_name name →
     ∃ file r, holds io clock disk0 s0 name file r ∧
       (entries s0 !! lr_ID r = Some (recordMeta r file) ∨ localRecordPrunable (recordMeta r file) now = true)) ∧
  ∀ ops disk s, run ops (disk1, s0) (disk, s) →
    store_ok s ∧ cu_UsedBytes (Usage s) ≤ cu_MaxBytes (Usage s) ∧ cu_Records (Usage s) ≤ cu_MaxRecords (Usage s) ∧
    ∀ id, (∀ t, OpPut id t false ∉ ops) →
      charged disk s id ∨ path_collision (dom (entries s0) ∪ ⋃ (op_ids <$> ops)) id.
Proof.
  intros ((? & ? & ?) & read & Hread & [_ _ Hs Hc])%opened_ok. split_and!.
  - intros id m Hm. destruct (Hs id m Hm) as (file & r & _ & H'). by exists file, r.
  - intros name Hn. by apply Hc, Hread.
  - intros ops disk s Hrun. destruct (run_ok _ _ _ Hrun) as (? & [? ?] & _); [done..|]. split_and!; [done..|].
    intros id Hops. apply (run_charged ops _ _ id _ Hrun); [done|done|done|done|done|]. left. intros m Hm.
    destruct (Hs id m Hm) as (file & r & _ & _ & -> & _ & Hf). by exists file.
Qed.

(** * What pruning removes *)

(** Pruning is safe, ordered and sufficient: whatever errors it meets, it removes
    only records that are expired or marked [oldest], never the excluded one;
    each record it removes precedes every prunable record it leaves (expired
    before live, then older before newer, then by ID), so that no live record
    goes while an expired one stays; and if it reports no error the store meets
    both targets. *)
Theorem pruneToLocked_safe (io : IO) (ctx : Ctx) (disk disk' : Disk) (s s' : EncryptedDiskStore)
    (targetBytes targetRecords : Z) (now : Time) (ex : string) (report : PruneReport) (e : option error) :
  store_ok s →
  pruneToLocked io ctx disk s targetBytes targetRecords now ex = (disk', s', report, e) →
  store_ok s' ∧ entries s' ⊆ entries s ∧
  (∀ id m, entries s !! id = Some m → entries s' !! id = None →
     id ≠ ex ∧ (expired m now = true ∨ m_PrunePolicy m = PruneOldest) ∧
     ∀ id' m', entries s' !! id' = Some m' → id' ≠ ex → localRecordPrunable m' now = true →
       (expired m' now = true → expired m now = true) ∧
       (expired m' now = expired m now → m_CreatedAt m ≤ m_CreatedAt m')) ∧
  (e = None → used s' ≤ targetBytes ∧ Z.of_nat (size (entries s')) ≤ targetRecords).
Proof.
  intros Hok Hp. apply pruneToLocked_spec in Hp as [[Hok' _ Hsub Hrem _ _] Hfit]; [|done].
  split_and!; [done|by apply map_subseteq_spec| |done].
  intros id m Hm Hgone. destruct (Hrem id m Hm Hgone) as (Hex & Hpr & Hord). split_and!; [done| |].
  - unfold localRecordPrunable in Hpr. destruct (expired m now); [by left|]. right. by unbool.
  - intros id' m' Hm' Hne Hpr'. specialize (Hord id' m' Hm' Hne Hpr'). apply prune_le_iff in Hord.
    destruct Hord as [[Hx Hy]|[Heq Ht]]; [split; [done|congruence]|].
    split; [by rewrite Heq|intros _; destruct Ht; lia].
Qed.

(** * Round trip *)

(** [encoding/json] reads back the records the store validates: their strings are
    ASCII and [json.Marshal] refuses the times it cannot print. *)
Definition record_roundtrip : Prop :=
  ∀ (r : LocalRecord) (now : Time) (b : bytes),
    validateLocalRecord r now = None → Marshal r = Ok b → decodeStrict b = Ok r.

(** [rand.Read] fills the buffer it is given. *)
Definition rand_fills (rand : Z → Result bytes) : Prop :=
  ∀ n b, 0 ≤ n → rand n = Ok b → blen b = n.

Lemma validate_later (r : LocalRecord) (now later : Time) :
  now ≤ later → validateLocalRecord r now = None → validateLocalRecord r later = None.
Proof.
  unfold validateLocalRecord, After, TAdd. intros Hle H. repeat step_if H. unbool.
  destruct (_ || _)%bool eqn:E; [|done].
  repeat (apply orb_true_iff in E as [E|E]; [|unbool; congruence || lia]). unbool. congruence.
Qed.

Lemma read_sealed `{!AEADLaws} (io : IO) (rand : Z → Result bytes) (disk : Disk) (s s' : EncryptedDiskStore)
    (r : LocalRecord) (name : string) (encoded : bytes) (now later : Time) :
  record_roundtrip → rand_fills rand → io (EntryInfo name) = None → io (ReadFile name) = None →
  key s' = key s → validateLocalRecord r now = None → now ≤ later →
  sealRecord rand s r name = Ok encoded →
  disk !! name = Some {| f_dir := false; f_regular := true; f_private := true; f_data := encoded |} →
  readRecord io later disk s' name = Ok r.
Proof.
  intros Hjson Hrand Hi Hf Hk Hv Hle Hs Hd. pose proof (sealRecord_size _ _ _ _ _ Hs) as Hsize.
  unfold readRecord. rewrite Hi, Hd. cbn [f_regular f_private f_data negb orb].
  rewrite (proj2 (Z.leb_gt _ _)), (proj2 (Z.ltb_ge _ _)) by lia. cbn [orb]. rewrite Hf, Hk.
  unfold sealRecord in Hs. destruct (Marshal r) as [pt|] eqn:Hm; [|done].
  destruct (negb (blen (key s) =? 32)) eqn:Hkey; [done|]. destruct (rand _) as [nonce|] eqn:Hr; [|done].
  destruct (_ <? _); [done|]. apply (inj Ok) in Hs as <-. unbool.
  pose proof (Hrand aead_NonceSize nonce ltac:(done) Hr) as Hn. unfold aead_NonceSize in Hn.
  set (ct := aead_Seal _ _ _ _). pose proof (aead_nonempty (key s) nonce pt (recordAD name)) as Hct. fold ct in Hct.
  assert (Hmg : blen recordMagic = 8) by done. assert (Hlm : length recordMagic = 8%nat) by done.
  assert (Hln : length nonce = 12%nat) by (unfold blen in Hn; lia).
  unfold aead_NonceSize. rewrite !blen_app, Hn, Hmg, (proj2 (Z.leb_gt _ _)) by lia. cbn [orb].
  unfold slice. change (Z.to_nat (8 - 0)) with 8%nat. change (Z.to_nat 0) with 0%nat.
  change (Z.to_nat (8 + 12 - 8)) with 12%nat. change (Z.to_nat 8) with 8%nat. change (Z.to_nat (8 + 12)) with 20%nat.
  rewrite drop_0, take_app_length' by done. unfold bytes_equal. rewrite bool_decide_eq_true_2 by done. cbn [negb].
  rewrite drop_app_length', take_app_length' by done.
  rewrite app_assoc, drop_app_length' by (rewrite length_app; lia).
  rewrite take_ge by (unfold blen in *; lia). unfold ct.
  rewrite aead_roundtrip by done. rewrite (Hjson r now pt) by done. by rewrite (validate_later r now later).
Qed.

(** A record put without error is read back. *)
Lemma put_get `{!AEADLaws} (io io' : IO) (rand : Z → Result bytes) (ctx ctx' : Ctx) (disk disk' : Disk)
    (s s' : EncryptedDiskStore) (r : LocalRecord) (now later : Time) (report : PruneReport) :
  record_roundtrip → rand_fills rand → store_ok s →
  Put io rand (Some ctx) disk s r now = (disk', s', report, None) →
  (∀ name, io' (EntryInfo name) = None ∧ io' (ReadFile name) = None) → ctx' None = None → now ≤ later →
  Get io' (Some ctx') later disk' s' (lr_ID r) = Ok (normalizeLocalRecord r).
Proof.
  intros Hjson Hrand Hok Hput Hio Hctx Hle.
  apply Put_cases in Hput as [(_ & _ & ? & ?)|(enc & Hv & Hcl & Hs & Hres)]; [done| |done].
  inversion Hres as [|sp dp Hp charge old Hid Hpos Hu Hn]; subst. cbn [normalizeLocalRecord lr_ID] in *.
  destruct (pn_same _ _ _ _ _ _ _ Hp) as (_ & Hc & Hk).
  unfold Get. rewrite Hid, Hctx. cbn [negb set_entries closed entries]. rewrite Hc, Hcl, lookup_insert_eq.
  cbn [metaFromRecord m_Path]. destruct (Hio (localRecordFilename (lr_ID r))) as [? ?].
  eapply (read_sealed io' rand _ s); [done..|exact Hv|done|exact Hs|]. apply lookup_insert_eq.
Qed.

(** What is put is what is read: after a [Put] that reports no error, [Get] of the
    record's ID at any later time, on a store that can read its files, returns
    the record as normalised (times in whole milliseconds, an absent update time
    equal to the creation time); and every record kept beside it is unchanged. *)
Theorem Put_then_Get `{!AEADLaws} (io io' : IO) (rand : Z → Result bytes) (ctx ctx' : Ctx) (disk disk' : Disk)
    (s s' : EncryptedDiskStore) (r : LocalRecord) (now later : Time) (report : PruneReport) :
  record_roundtrip → rand_fills rand → store_ok s →
  Put io rand (Some ctx) disk s r now = (disk', s', report, None) →
  (∀ name, io' (EntryInfo name) = None ∧ io' (ReadFile name) = None) → ctx' None = None → now ≤ later →
  Get io' (Some ctx') later disk' s' (lr_ID r) = Ok (normalizeLocalRecord r) ∧
  ∀ id m, id ≠ lr_ID r → entries s' !! id = Some m → entries s !! id = Some m.
Proof.
  intros Hjson Hrand Hok Hput Hio Hctx Hle. split; [by eapply put_get|].
  apply Put_cases in Hput as [(_ & _ & ? & ?)|(enc & Hv & Hcl & Hs & Hres)]; [done| |done].
  inversion Hres as [|sp dp Hp charge old Hid Hpos Hu Hn]; subst. cbn [normalizeLocalRecord lr_ID] in *.
  intros id m Hne. cbn [set_entries entries]. rewrite lookup_insert_ne by done. apply (pn_sub _ _ _ _ _ _ _ Hp).
Qed.

End Put.

(** * Witnesses *)

Module Sample.

(** A cipher that appends a constant tag. *)
#[export] Instance aead : AEAD := {|
  aead_Seal _ _ plaintext _ := plaintext ++ replicate 16 x2a;
  aead_Open _ _ ciphertext _ := Some (take (length ciphertext - 16) ciphertext);
|}.

#[export] Instance aead_laws : AEADLaws.
Proof.
  split; intros; simpl.
  - rewrite take_app_length'; [done|]. rewrite length_app. simpl. lia.
  - by rewrite blen_app.
Qed.

#[export] Instance marshal_record : Marshaler LocalRecord := λ r,
  Ok (ToyCodec.put (lr_Version r) (ToyCodec.put (lr_ID r) (ToyCodec.put (lr_Kind r)
       (ToyCodec.put (lr_CreatedAt r) (ToyCodec.put (lr_UpdatedAt r) (ToyCodec.put (lr_ExpiresAt r)
       (ToyCodec.put (lr_PrunePolicy r) (ToyCodec.put (lr_Payload r) [])))))))).

#[export] Instance decode_record : StrictDecoder LocalRecord := λ b,
  match ('(v, b) ← ToyCodec.get b; '(id, b) ← ToyCodec.get b; '(kind, b) ← ToyCodec.get b;
         '(c, b) ← ToyCodec.get b; '(u, b) ← ToyCodec.get b; '(e, b) ← ToyCodec.get b;
         '(p, b) ← ToyCodec.get b; '(payload, b) ← ToyCodec.get b;
         Some {| lr_Version := v; lr_ID := id; lr_Kind := kind; lr_CreatedAt := c; lr_UpdatedAt := u;
                 lr_ExpiresAt := e; lr_PrunePolicy := p; lr_Payload := payload |}) with
  | Some r => Ok r
  | None => Err "bad record"
  end.

Lemma record_codec : record_roundtrip.
Proof.
  intros r now b _ H. apply (inj Ok) in H as <-. unfold decodeStrict, decode_record.
  do 8 (rewrite ToyCodec.get_put; cbn [mbind option_bind]). by destruct r.
Qed.

Definition no_io : IO := λ _, None.
Definition live : Ctx := λ _, None.
Definition rand (n : Z) : Result bytes := Ok (replicate (Z.to_nat n) x00).
Definition now : Time := (unix_epoch_seconds + 1764403200) * Second.
Definition config : DiskClientStoreConfig :=
  {| cs_Directory := "records"; cs_Key := replicate 32 x09; cs_MaxBytes := 65536 |}.

Lemma rand_ok : rand_fills rand.
Proof.
  intros n b Hn H. apply (inj Ok) in H as <-. unfold blen. rewrite length_replicate. lia.
Qed.

Definition record (id kind policy : string) (created : Time) : LocalRecord :=
  {| lr_Version := ClientStoreVersion; lr_ID := id; lr_Kind := kind; lr_CreatedAt := created;
     lr_UpdatedAt := 0; lr_ExpiresAt := 0; lr_PrunePolicy := policy; lr_Payload := str_bytes "payload" |}.

Definition group_record : LocalRecord := record "group" LocalKindGroupState PruneNever now.
Definition cache_record : LocalRecord := record "cache" LocalKindFileCache PruneOldest (now - Hour).

Definition empty : EncryptedDiskStore :=
  {| key := replicate 32 x09; maxBytes := 65536; used := 0; entries := ∅; locked := true; closed := false |}.

Lemma store_opened : NewEncryptedDiskStore no_io now ∅ config now = (∅, Ok empty).
Proof. vm_compute. reflexivity. Qed.

Lemma empty_store_ok : store_ok empty ∧ within_limits empty ∧ 0 ≤ maxBytes empty.
Proof. split_and!; try done; split; done. Qed.

Definition one : Disk * EncryptedDiskStore := Eval vm_compute in
  (Put no_io rand (Some live) ∅ empty group_record now).1.1.
Lemma put_one : Put no_io rand (Some live) ∅ empty group_record now = (one.1, one.2, noReport, None).
Proof. vm_cast_no_check (eq_refl (one.1, one.2, noReport, @None error)). Qed.

Definition two : Disk * EncryptedDiskStore := Eval vm_compute in
  (Put no_io rand (Some live) one.1 one.2 cache_record now).1.1.
Lemma put_two : Put no_io rand (Some live) one.1 one.2 cache_record now = (two.1, two.2, noReport, None).
Proof. vm_cast_no_check (eq_refl (two.1, two.2, noReport, @None error)). Qed.

(** Pruning to 8 KiB evicts the cached file. *)
Definition three : Disk * EncryptedDiskStore * PruneReport := Eval vm_compute in
  (PruneTo no_io (Some live) two.1 two.2 8192 now).1.
Lemma pruned_three :
  PruneTo no_io (Some live) two.1 two.2 8192 now = (three.1.1, three.1.2, three.2, None).
Proof. vm_cast_no_check (eq_refl (three.1.1, three.1.2, three.2, @None error)). Qed.

Lemma run_three : run [OpPut "cache" now true; OpPruneTo now] one three.1.
Proof.
  eapply run_cons; [|eapply run_cons; [|apply run_nil]].
  - exact (step_put no_io rand (Some live) one.1 one.2 cache_record now _ _ _ _ put_two).
  - exact (step_prune no_io (Some live) two.1 two.2 8192 now _ _ _ _ pruned_three).
Qed.

Lemma run_one : run [OpPut "group" now true] (∅, empty) one.
Proof.
  eapply run_cons; [|apply run_nil].
  exact (step_put no_io rand (Some live) ∅ empty group_record now _ _ _ _ put_one).
Qed.

Lemma one_ok : store_ok one.2 ∧ within_limits one.2 ∧ 0 ≤ maxBytes one.2.
Proof. destruct empty_store_ok as (H1 & H2 & H3). exact (run_ok _ _ _ run_one H1 H2 H3). Qed.

Lemma two_ok : store_ok two.2.
Proof.
  destruct one_ok as (H1 & H2 & H3).
  destruct (run_ok [OpPut "cache" now true] one two) as [H _]; [|done..].
  eapply run_cons; [|apply run_nil].
  exact (step_put no_io rand (Some live) one.1 one.2 cache_record now _ _ _ _ put_two).
Qed.

End Sample.

#[local] Existing Instances Sample.aead Sample.aead_laws Sample.marshal_record Sample.decode_record.

Lemma client_store_invariant_witness :
  used Sample.one.2 ≤ maxBytes Sample.one.2 ∧ charged Sample.one.1 Sample.one.2 "group".
Proof.
  destruct (client_store_invariant Sample.no_io Sample.now Sample.now ∅ ∅ Sample.config Sample.empty
    Sample.store_opened) as (_ & _ & H).
  destruct (H [OpPut "group" Sample.now true] Sample.one.1 Sample.one.2 Sample.run_one) as (_ & Hu & _ & Hc).
  split; [exact Hu|]. destruct (Hc "group"%string) as [Hg|(id & Hid & Hne & _)]; [|exact Hg|].
  - intros t Ht%list_elem_of_singleton. discriminate Ht.
  - exfalso. assert (Hdom : dom (entries Sample.empty) ∪ ⋃ (op_ids <$> [OpPut "group" Sample.now true]) ⊆ {["group"]}).
    { cbn [entries Sample.empty op_ids fmap list_fmap union_list foldr]. rewrite dom_empty_L. clear. set_solver. }
    apply Hdom, elem_of_singleton in Hid. apply Hne. rewrite Hid. reflexivity.
Defined.

Lemma protected_survives_witness :
  entries Sample.three.1.2 !! "group"%string = entries Sample.one.2 !! "group"%string ∧
  entries Sample.three.1.2 !! "cache"%string = None.
Proof.
  destruct Sample.one_ok as (H1 & H2 & H3).
  destruct (entries Sample.one.2 !! "group"%string) as [m|] eqn:Hm;
    [|vm_compute in Hm; discriminate Hm].
  assert (Hp : protected m Sample.now).
  { vm_compute in Hm. injection Hm as <-. split; [discriminate|by left]. }
  destruct (protected_survives [OpPut "cache" Sample.now true; OpPruneTo Sample.now] Sample.one.1 Sample.three.1.1
    Sample.one.2 Sample.three.1.2 "group" m Sample.now H1 H2 H3 Hm Hp Sample.run_three) as [H _].
  { repeat constructor; discriminate || reflexivity. }
  split; [exact H|vm_compute; reflexivity].
Defined.

Lemma pruneToLocked_safe_witness :
  Z.of_nat (size (entries Sample.three.1.2)) ≤ MaxClientStoreRecords ∧ used Sample.three.1.2 ≤ 8192.
Proof.
  destruct (pruneToLocked_safe Sample.no_io Sample.live Sample.two.1 Sample.three.1.1 Sample.two.2
    Sample.three.1.2 8192 MaxClientStoreRecords Sample.now "" Sample.three.2 None Sample.two_ok)
    as (_ & _ & _ & H); [exact Sample.pruned_three|].
  destruct (H eq_refl). split; assumption.
Defined.

Lemma Put_then_Get_witness :
  Get Sample.no_io (Some Sample.live) (Sample.now + Hour) Sample.two.1 Sample.two.2 "cache" =
    Ok (normalizeLocalRecord Sample.cache_record).
Proof.
  destruct Sample.one_ok as (H1 & _).
  destruct (Put_then_Get Sample.no_io Sample.no_io Sample.rand Sample.live Sample.live Sample.one.1 Sample.two.1
    Sample.one.2 Sample.two.2 Sample.cache_record Sample.now (Sample.now + Hour) noReport
    Sample.record_codec Sample.rand_ok H1 Sample.put_two) as [H _];
    [by intros|reflexivity|vm_compute; discriminate|exact H].
Defined.

End ClientStore.
