(* ===== verification/ClientRecovery.v ===== *)
(** Restarting the client's record store (src/client/store.go). While no directory sync of
    a write fails, the directory is an image of the index: every indexed record is on disk,
    sealed, and besides the lock and abandoned temporaries nothing else is. An image
    survives every operation, whatever else fails, and opens to the same index. *)
From S2P Require Import Prelude Sha256 Encoding Files ClientStore.
Local Open Scope Z_scope.

Module ClientRecovery.
Import ClientStore.

Lemma localRecordFilename_valid (id : string) : validLocalRecordFilename (localRecordFilename id) = true.
Proof.
  unfold validLocalRecordFilename, localRecordFilename. set (d := Sha256.Sum256 _).
  rewrite HasSuffix_app, slen_app, string_length_app.
  assert (Hl : String.length (Hex.EncodeToString d) = 64%nat) by (rewrite Hex_encode_length; unfold d; by rewrite Sha256.Sum256_length).
  replace (slen (Hex.EncodeToString d)) with 64 by (unfold slen; lia). cbn [negb orb].
  rewrite Nat.add_sub, substring_prefix, Hex_decode_encode. unfold d. by rewrite Sha256.Sum256_blen.
Qed.

Section Image.
Context {MO : MapOrder} {MR : Marshaler LocalRecord} {DR : StrictDecoder LocalRecord} {AE : AEAD}.

(** * Reading again *)

(** A record read once is read by any later call that meets no error. *)
Lemma readRecord_again (io io' : IO) (now later : Time) (disk disk' : Disk) (s s' : EncryptedDiskStore) (name : string)
    (r : LocalRecord) :
  readRecord io now disk s name = Ok r → quiet io' → now ≤ later → disk' !! name = disk !! name → key s' = key s →
  readRecord io' later disk' s' name = Ok r.
Proof.
  intros Hr Hio Hle Hd Hk. unfold readRecord in *. rewrite !Hio, Hd, Hk. destruct (io (EntryInfo name)); [done|].
  destruct (disk !! name) as [file|]; [|done]. destruct (_ || _ || _ || _)%bool; [done|].
  destruct (io (ReadFile name)); [done|]. destruct (negb _); [done|]. destruct (_ || _)%bool; [done|].
  destruct (aead_Open _ _ _ _); [|done]. destruct (decodeStrict _) as [r'|]; [|done].
  destruct (validateLocalRecord r' now) eqn:Hv; [done|]. by rewrite (validate_later r' now later).
Qed.

Lemma readRecord_file (io : IO) (now : Time) (disk : Disk) (s : EncryptedDiskStore) (name : string) (file : File)
    (r : LocalRecord) :
  readRecord io now disk s name = Ok r → disk !! name = Some file →
  f_regular file = true ∧ f_private file = true ∧ 0 < blen (f_data file) ≤ maxLocalRecordFileBytes.
Proof.
  unfold readRecord. intros Hr Hf. rewrite Hf in Hr. destruct (io _); [done|].
  destruct (_ || _ || _ || _)%bool eqn:E; [done|]. by unbool.
Qed.

(** * Images *)

Definition no_errors : IO := λ _, None.

(** The record [r] is on disk under its name, readable from [T] on. *)
Definition on_disk (T : Time) (disk : Disk) (s : EncryptedDiskStore) (file : File) (r : LocalRecord) : Prop :=
  let name := localRecordFilename (lr_ID r) in
  disk !! name = Some file ∧ readRecord no_errors T disk s name = Ok r.

Record image (T : Time) (disk : Disk) (s : EncryptedDiskStore) : Prop := {
  im_files id m : entries s !! id = Some m → ∃ file r, on_disk T disk s file r ∧ id = lr_ID r ∧ m = recordMeta r file;
  im_only name file : disk !! name = Some file →
    (¬ record_name name ∧ f_regular file = true ∧ f_private file = true) ∨
    ∃ id, is_Some (entries s !! id) ∧ name = localRecordFilename id;
}.

Lemma on_disk_same (T : Time) (disk disk' : Disk) (s s' : EncryptedDiskStore) (file : File) (r : LocalRecord) :
  on_disk T disk s file r → key s' = key s → disk' !! localRecordFilename (lr_ID r) = disk !! localRecordFilename (lr_ID r) →
  on_disk T disk' s' file r.
Proof.
  intros [Hf Hr] Hk Hd. split; [congruence|]. by eapply readRecord_again; [exact Hr|..].
Qed.

(** Two records on disk do not share a file. *)
Lemma image_inj (T : Time) (disk : Disk) (s : EncryptedDiskStore) (id id' : string) :
  image T disk s → is_Some (entries s !! id) → is_Some (entries s !! id') →
  localRecordFilename id = localRecordFilename id' → id = id'.
Proof.
  intros Him [m Hm] [m' Hm'] E. destruct (im_files _ _ _ Him _ _ Hm) as (f & r & [_ Hr] & -> & _).
  destruct (im_files _ _ _ Him _ _ Hm') as (f' & r' & [_ Hr'] & -> & _). rewrite E in Hr. congruence.
Qed.

(** Removing records with their files keeps an image. *)
Lemma image_shrink (T : Time) (disk disk' : Disk) (s s' : EncryptedDiskStore) :
  image T disk s → key s' = key s → entries s' ⊆ entries s →
  (∀ name, (∀ id, is_Some (entries s !! id) → entries s' !! id = None → localRecordFilename id ≠ name) →
     disk' !! name = disk !! name) →
  (∀ id, is_Some (entries s !! id) → entries s' !! id = None → disk' !! localRecordFilename id = None) →
  image T disk' s'.
Proof.
  intros Him Hk Hsub Hd Hgone. pose proof (proj1 (map_subseteq_spec _ _) Hsub) as Hin. split.
  - intros id m Hm. destruct (im_files _ _ _ Him _ _ (Hin _ _ Hm)) as (file & r & Hf & Hid & Hmm). exists file, r.
    split_and!; [|done..]. eapply on_disk_same; [done..|]. apply Hd. intros id' Hs' Hnone E. rewrite <- Hid in E.
    apply (image_inj T disk s) in E; [|done..|by eauto]. congruence.
  - intros name file Hf.
    assert (Hold : ∀ id, is_Some (entries s !! id) → entries s' !! id = None → localRecordFilename id ≠ name).
    { intros id Hs Hn <-. by rewrite (Hgone id Hs Hn) in Hf. }
    rewrite (Hd name Hold) in Hf. destruct (im_only _ _ _ Him _ _ Hf) as [?|(id & Hs & ->)]; [by left|right].
    exists id. split; [|done]. destruct (entries s' !! id) eqn:E; [done|]. by destruct (Hold id Hs E).
Qed.

Lemma image_pruned (io : IO) (T : Time) (disk disk' : Disk) (s s' : EncryptedDiskStore) (now : Time) (ex : string) :
  honest io → store_ok s → image T disk s → pruned io s s' disk disk' now ex → image T disk' s'.
Proof.
  intros Hio Hok Him [_ (_ & _ & Hk) Hsub _ Hd Hgone].
  assert (Hpath : ∀ id m, entries s !! id = Some m → m_Path m = localRecordFilename id).
  { intros id m Hm. by destruct (ok_entry s Hok id m Hm) as (_ & _ & ? & _). }
  eapply image_shrink; [done..|by apply map_subseteq_spec| |].
  - intros name Hn. apply Hd. intros id m Hm Hnone. rewrite (Hpath id m Hm). apply Hn; eauto.
  - intros id [m Hm] Hnone. rewrite <- (Hpath id m Hm). by eapply Hgone.
Qed.

Lemma image_temporary (T : Time) (disk : Disk) (s : EncryptedDiskStore) (name : string) (file : File) :
  image T disk s → ¬ record_name name → f_regular file = true → f_private file = true →
  image T (<[name := file]> disk) s.
Proof.
  intros [Hf Ho] Hn Hr Hp. split.
  - intros id m Hm. destruct (Hf _ _ Hm) as (f & r & Hd & Hid & Hmm). exists f, r. split_and!; [|done..].
    eapply on_disk_same; [done..|]. apply lookup_insert_ne. intros ->. apply Hn, holds_record_name.
  - intros n f [[<- <-]|[_ Hl]]%lookup_insert_Some; [by left|by eapply Ho].
Qed.

(** No other record of the index has the file name of [id]: by [localRecordFilename_inj],
    its path does not collide under SHA-256 with the path of an indexed record. *)
Definition own_path (s : EncryptedDiskStore) (id : string) : Prop :=
  ∀ id', is_Some (entries s !! id') → localRecordFilename id' = localRecordFilename id → id' = id.

(** Writing a record keeps an image. *)
Lemma image_written (T : Time) (disk : Disk) (s : EncryptedDiskStore) (r : LocalRecord) (file : File) (u : Z) :
  image T disk s → own_path s (lr_ID r) → on_disk T (<[localRecordFilename (lr_ID r) := file]> disk) s file r →
  image T (<[localRecordFilename (lr_ID r) := file]> disk)
    (set_entries s (<[lr_ID r := recordMeta r file]> (entries s)) u).
Proof.
  intros Him Hown Hnew. set (t := set_entries _ _ _). split; cbn [t set_entries entries].
  - intros id m [[<- <-]|[Hne Hm]]%lookup_insert_Some.
    + exists file, r. split_and!; [|done..]. by eapply on_disk_same.
    + destruct (im_files _ _ _ Him _ _ Hm) as (f & r' & Hd & Hid & Hmm). exists f, r'. split_and!; [|done..].
      eapply on_disk_same; [done..|]. apply lookup_insert_ne. intros E.
      apply Hne. symmetry. apply Hown; [by rewrite Hm|congruence].
  - intros name f [[<- <-]|[_ Hl]]%lookup_insert_Some.
    + right. exists (lr_ID r). split; [|done]. rewrite lookup_insert_eq. eauto.
    + destruct (im_only _ _ _ Him _ _ Hl) as [?|(id & Hs & ->)]; [by left|right]. exists id. split; [|done].
      destruct (decide (id = lr_ID r)) as [->|Hne]; [rewrite lookup_insert_eq; eauto|by rewrite lookup_insert_ne].
Qed.

(** * Operations *)

(** A call of an operation at a time up to [T] that may meet any errors but a failed sync
    of the directory after a write. *)
Inductive durable (T : Time) : Disk * EncryptedDiskStore → Disk * EncryptedDiskStore → Prop :=
| durable_put io rand ctx disk s r now disk' s' report e :
    honest (inner io) → io SyncDir = None → rand_fills rand → now ≤ T → own_path s (lr_ID r) →
    Put io rand ctx disk s r now = (disk', s', report, e) → durable T (disk, s) (disk', s')
| durable_delete io ctx disk s id disk' s' e :
    honest io → Delete io ctx disk s id = (disk', s', e) → durable T (disk, s) (disk', s')
| durable_prune io ctx disk s target now disk' s' report e :
    honest io → PruneTo io ctx disk s target now = (disk', s', report, e) → durable T (disk, s) (disk', s')
| durable_limit io ctx disk s limit now disk' s' report e :
    honest io → SetLimit io ctx disk s limit now = (disk', s', report, e) → durable T (disk, s) (disk', s').

Lemma durable_step (T : Time) (x y : Disk * EncryptedDiskStore) : durable T x y → ∃ op, step op x y.
Proof.
  intros []; eexists; [eapply step_put|eapply step_delete|eapply step_prune|eapply step_limit]; done.
Qed.

(** A consistent, open store with its directory. *)
Record live (T : Time) (x : Disk * EncryptedDiskStore) : Prop := {
  lv_ok : store_ok x.2;
  lv_limits : within_limits x.2;
  lv_max : 0 ≤ maxBytes x.2;
  lv_open : closed x.2 = false;
  lv_image : image T x.1 x.2;
}.

Lemma image_key (T : Time) (disk : Disk) (s s' : EncryptedDiskStore) :
  image T disk s → key s' = key s → entries s' = entries s → image T disk s'.
Proof. intros Him Hk He. eapply image_shrink; [done..|by rewrite He|done|]. intros id [m Hm]. congruence. Qed.

Lemma put_image `{!AEADLaws} (T : Time) (io : IO) (rand : Z → Result bytes) (ctx : option Ctx) (disk disk' : Disk)
    (s s' : EncryptedDiskStore) (r : LocalRecord) (now : Time) (report : PruneReport) (e : option error) :
  record_roundtrip → honest (inner io) → io SyncDir = None → rand_fills rand → now ≤ T → own_path s (lr_ID r) → store_ok s → image T disk s →
  Put io rand ctx disk s r now = (disk', s', report, e) →
  closed s' = closed s ∧ key s' = key s ∧ image T disk' s'.
Proof.
  intros Hjson Hio Hsync Hrand Hnow Hown Hok Him.
  intros [(-> & -> & _)|(enc & Hv & _ & Hs & Hres)]%Put_cases; [by auto| |done].
  destruct Hres as [sp dp d' er Hp Hd|sp dp Hp charge old Hid Hpos Hu Hn];
    destruct (pn_same _ _ _ _ _ _ _ Hp) as (_ & Hc & Hk); (split_and!; [done..|]);
    pose proof (image_pruned _ _ _ _ _ _ _ _ Hio Hok Him Hp) as Himp.
  - destruct Hd as [->|[(tmp & file & _ & Htmp & ? & ? & ->)|(file & _ & Hfail)]]; [done| |by destruct Hfail].
    apply image_temporary; [done| |done..]. intros [_ Hnot]. congruence.
  - set (file := {| f_dir := false |}). set (r' := normalizeLocalRecord r) in *.
    apply (image_written T dp sp r' file (used sp - old + charge) Himp).
    { intros id' [m Hm]. apply Hown. exists m. by apply (pn_sub _ _ _ _ _ _ _ Hp). }
    split; [apply lookup_insert_eq|]. eapply (read_sealed _ rand _ s); [done..|exact Hv|exact Hnow|exact Hs|].
    apply lookup_insert_eq.
Qed.

Lemma delete_image (T : Time) (io : IO) (ctx : option Ctx) (disk disk' : Disk) (s s' : EncryptedDiskStore) (id : string)
    (e : option error) :
  honest io → store_ok s → image T disk s → Delete io ctx disk s id = (disk', s', e) →
  closed s' = closed s ∧ key s' = key s ∧ image T disk' s'.
Proof.
  intros Hio Hok Him. unfold Delete. destruct ctx as [ctx|]; [|by intros; simplify_eq].
  destruct (negb _); [by intros; simplify_eq|]. destruct (ctx None); [by intros; simplify_eq|].
  destruct (closed s) eqn:Hc; [by intros; simplify_eq|].
  destruct (entries s !! id) as [m|] eqn:Hm; [|by intros; simplify_eq].
  destruct (ok_entry s Hok id m Hm) as (Hmid & _ & Hpath & _). unfold deleteMetaLocked.
  destruct (os_Remove _ _ _) as [d er] eqn:Hr. destruct (remove_failed er) eqn:Hf.
  { destruct (os_Remove_failed _ _ _ _ _ Hr Hf) as [-> [? ->]]. by intros; simplify_eq. }
  intros Hd. simplify_eq. split_and!; [done..|]. rewrite Hpath in Hr.
  eapply image_shrink; [done..|apply delete_subseteq| |]; cbn [set_entries entries].
  - intros name Hn. eapply os_Remove_lookup; [exact Hr|]. apply Hn; [eauto|apply lookup_delete_eq].
  - intros id' [m' Hm'] Hnone. destruct (decide (id' = m_ID m)) as [->|Hne]; [by eapply os_Remove_gone|].
    rewrite lookup_delete_ne in Hnone by done. congruence.
Qed.

Lemma durable_live `{!AEADLaws} (T : Time) (x y : Disk * EncryptedDiskStore) :
  record_roundtrip → durable T x y → live T x →
  live T y ∧ key y.2 = key x.2.
Proof.
  intros Hjson Hd [Hok Hw Hpos Hop Him]. destruct (durable_step _ _ _ Hd) as [op Hst].
  destruct (store_step_ok op x y Hst Hok Hw Hpos) as (Hok' & Hw' & Hpos').
  assert (closed y.2 = closed x.2 ∧ key y.2 = key x.2 ∧ image T y.1 y.2) as (Hc & Hk & Hi).
  2: { split; [|done]. split; [done..|congruence|done]. }
  destruct Hd as [io rand ctx d s r now d' s' rep e ? ? ? ? ? Hcall|io ctx d s id d' s' e ? Hcall|
    io ctx d s tgt now d' s' rep e ? Hcall|io ctx d s lim now d' s' rep e ? Hcall]; cbn [fst snd] in *.
  - by eapply put_image.
  - by eapply delete_image; [| | |exact Hcall].
  - unfold PruneTo in Hcall. destruct ctx as [ctx|]; [|simplify_eq; auto].
    destruct (_ || _)%bool; [simplify_eq; auto|]. destruct (ctx None); [simplify_eq; auto|].
    rewrite Hop in Hcall. apply pruneToLocked_spec in Hcall as [Hp _]; [|done].
    destruct (pn_same _ _ _ _ _ _ _ Hp) as (_ & ? & ?). split_and!; [done..|].
    by eapply image_pruned; [| | |exact Hp].
  - apply SetLimit_cases in Hcall as [[-> ->]|(sp & _ & [Hp _] & ->)]; [auto| |done].
    destruct (pn_same _ _ _ _ _ _ _ Hp) as (_ & ? & ?).
    assert (image T d' sp) by by eapply image_pruned; [| | |exact Hp].
    destruct e; (split_and!; [done..|]); [done|by eapply image_key].
Qed.

Lemma durable_run `{!AEADLaws} (T : Time) (x y : Disk * EncryptedDiskStore) :
  record_roundtrip → rtc (durable T) x y → live T x →
  live T y ∧ key y.2 = key x.2.
Proof.
  intros Hjson. induction 1 as [x|x y z Hxy _ IH]; intros Hl; [done|].
  destruct (durable_live T x y Hjson Hxy Hl) as [Hy Hk]. destruct (IH Hy) as [Hz Hk']. split; [done|congruence].
Qed.

(** * Opening again *)

Lemma load_batches_quiet (io : IO) (now clock : Time) (fuel k : nat) (listing : list (string * File)) (disk : Disk)
    (s : EncryptedDiskStore) (rt : bool) :
  quiet io → (length listing < fuel)%nat →
  load_batches io now clock fuel k listing disk s rt = load_loop io now clock listing disk s rt.
Proof.
  intros Hio. revert k listing disk s rt. induction fuel as [|fuel IH]; intros k listing disk s rt Hf; [lia|].
  cbn [load_batches]. rewrite Hio. destruct (take readDirBatch listing) as [|y batch] eqn:Eb; [by destruct listing|].
  trans (load_loop io now clock (take readDirBatch listing ++ drop readDirBatch listing) disk s rt); [|by rewrite take_drop].
  rewrite load_loop_app, Eb.
  destruct (load_loop _ _ _ (y :: batch) _ _ _) as [d [[t b]|er]]; [|done]. apply IH.
  rewrite length_drop. destruct listing; [done|]. simpl in *. unfold readDirBatch. lia.
Qed.

(** While the directory is listed again: the index has some of the records, and the
    records to come are still in their files. *)
Record restoring (disk0 : Disk) (s : EncryptedDiskStore) (listing : list (string * File)) (disk : Disk) (t : EncryptedDiskStore)
  : Prop := {
  rs_ok : store_ok t;
  rs_key : key t = key s;
  rs_sub : entries t ⊆ entries s;
  rs_max : used s ≤ maxBytes t;
  rs_disk name : record_name name → disk !! name = disk0 !! name;
  rs_shrinks : disk ⊆ disk0;
  rs_listing name file : (name, file) ∈ listing → disk !! name = Some file ∧ disk0 !! name = Some file;
  rs_new id : is_Some (entries t !! id) ↔ is_Some (entries s !! id) ∧ localRecordFilename id ∉ listing.*1;
}.

Lemma restoring_pass (disk0 disk disk' : Disk) (s t : EncryptedDiskStore) (listing : list (string * File)) (name : string)
    (file : File) :
  restoring disk0 s ((name, file) :: listing) disk t → ¬ record_name name → name ∉ listing.*1 →
  (∀ n, n ≠ name → disk' !! n = disk !! n) → disk' ⊆ disk → restoring disk0 s listing disk' t.
Proof.
  intros [Hok Hk Hsub Hmax Hd Hd0 Hl Hnew] Hn Hfresh Hd' Hd1. split; try done.
  - intros n Hr. rewrite Hd'; [by apply Hd|]. by intros ->.
  - by etrans.
  - intros n f Hin. rewrite Hd'; [by apply Hl, list_elem_of_further|]. intros ->. apply Hfresh, list_elem_of_fmap.
    by exists (name, f).
  - intros id. rewrite Hnew, fmap_cons, not_elem_of_cons. cbn [fst].
    assert (localRecordFilename id ≠ name); [|tauto]. intros <-. apply Hn, holds_record_name.
Qed.

Lemma restoring_add (T : Time) (disk0 disk : Disk) (s t : EncryptedDiskStore) (listing : list (string * File)) (r : LocalRecord)
    (file : File) :
  store_ok s → image T disk0 s → restoring disk0 s ((localRecordFilename (lr_ID r), file) :: listing) disk t →
  localRecordFilename (lr_ID r) ∉ listing.*1 → entries s !! lr_ID r = Some (recordMeta r file) →
  restoring disk0 s listing disk
    (set_entries t (<[lr_ID r := recordMeta r file]> (entries t)) (used t + localRecordCharge (blen (f_data file)))).
Proof.
  intros Hoks Him [Hok Hk Hsub Hmax Hd Hd0 Hl Hnew] Hfresh Hm. destruct (ok_entry s Hoks _ _ Hm) as (_ & Hid & _ & Hpos).
  split; cbn [set_entries entries key maxBytes]; try done.
  - apply add_ok; [done| |done|done]. apply eq_None_not_Some. intros [_ Hn]%Hnew. apply Hn, list_elem_of_here.
  - apply insert_subseteq_l; [done|]. done.
  - intros n f Hin. by apply Hl, list_elem_of_further.
  - intros id. destruct (decide (id = lr_ID r)) as [->|Hne].
    + rewrite lookup_insert_eq. split; [|by eauto]. intros _. split; [by rewrite Hm|done].
    + rewrite lookup_insert_ne, Hnew, fmap_cons, not_elem_of_cons by done. cbn [fst]. split; [tauto|].
      intros [Hs Hn]. split_and!; [done| |done]. intros E. apply Hne. eapply image_inj; [exact Him|done|by rewrite Hm|done].
Qed.

Lemma restoring_fits (s t : EncryptedDiskStore) :
  store_ok s → within_limits s → store_ok t → entries t ⊆ entries s → used s ≤ maxBytes t →
  ((maxBytes t <? used t) || (MaxClientStoreRecords <? Z.of_nat (size (entries t))))%bool = false.
Proof.
  intros Hok [_ Hn] Hokt Hsub Hmax. apply orb_false_iff. rewrite !Z.ltb_ge. split.
  - etrans; [|exact Hmax]. rewrite (ok_used t Hokt), (ok_used s Hok). apply map_sum_subseteq; [done|].
    intros id m Hm. destruct (ok_entry s Hok id m Hm) as (_ & _ & _ & ?). lia.
  - pose proof (map_subseteq_size _ _ Hsub). lia.
Qed.

Lemma load_restores (T : Time) (io : IO) (now clock : Time) (disk0 : Disk) (s : EncryptedDiskStore)
    (listing : list (string * File)) (disk : Disk) (t : EncryptedDiskStore) (rt : bool) :
  store_ok s → within_limits s → image T disk0 s → quiet io → T ≤ clock →
  NoDup listing.*1 → restoring disk0 s listing disk t →
  ∃ disk' t' rt', load_loop io now clock listing disk t rt = (disk', Ok (t', rt')) ∧ restoring disk0 s [] disk' t' ∧
    maxBytes t' = maxBytes t ∧ closed t' = closed t.
Proof.
  intros Hok Hw Him Hio HT. revert disk t rt. induction listing as [|[name file] listing IH]; intros disk t rt Hnd Hrs.
  { by exists disk, t, rt. }
  rewrite fmap_cons in Hnd. apply list.NoDup_cons in Hnd as [Hfresh Hnd]. cbn [fst] in Hfresh.
  destruct (rs_listing _ _ _ _ _ Hrs _ _ (list_elem_of_here _ _)) as [Hf Hf0].
  cbn [load_loop]. destruct (im_only _ _ _ Him _ _ Hf0) as [(Hn & Hreg & Hpriv)|(id & [m Hm] & ->)].
  - assert (Hpass : ∀ d, (∀ n, n ≠ name → d !! n = disk !! n) → d ⊆ disk → restoring disk0 s listing d t).
    { intros d. by eapply restoring_pass. }
    assert (Hnp : not_private io name file = false).
    { unfold not_private. by rewrite Hio, Hreg, Hpriv. }
    case_bool_decide as Hlock; [rewrite Hnp; by apply IH, Hpass|].
    destruct (String.prefix _ _) eqn:Hp; [|by destruct Hn]. rewrite Hnp. unfold os_Remove. rewrite Hio, Hf.
    apply IH, Hpass; [done| |apply delete_subseteq]. intros n Hne. by apply lookup_delete_ne.
  - destruct (holds_record_name id) as [Hlock Hp]. rewrite bool_decide_eq_false_2, Hp by done.
    unfold localRecordFilename at 1. rewrite HasSuffix_app, localRecordFilename_valid. cbn [negb].
    destruct (im_files _ _ _ Him _ _ Hm) as (f & r & [Hfd Hr] & -> & ->).
    assert (f = file) as -> by congruence.
    destruct (readRecord_file _ _ _ _ _ _ _ Hr Hf0) as (Hreg & Hpriv & Hsz).
    unfold not_private. rewrite Hio, Hreg, Hpriv, (proj2 (Z.leb_gt _ _)), (proj2 (Z.ltb_ge _ _)) by lia. cbn [negb orb].
    rewrite (readRecord_again no_errors (inner io) T clock disk0 disk s t _ r); [|done|by apply quiet_inner|done| |by eapply rs_key].
    2:{ by rewrite Hf, Hf0. }
    rewrite bool_decide_eq_true_2 by done. cbn [negb].
    rewrite bool_decide_eq_false_2.
    2:{ intros Hs. apply (rs_new _ _ _ _ _ Hrs) in Hs as [_ Hs]. apply Hs. rewrite fmap_cons. apply list_elem_of_here. }
    change (metaFromRecord r _ _) with (recordMeta r file). set (t' := set_entries _ _ _).
    assert (restoring disk0 s listing disk t') by by eapply restoring_add.
    rewrite (restoring_fits s t'); [|done|done|by eapply rs_ok|by eapply rs_sub|by eapply rs_max].
    by destruct (IH disk t' rt) as (d' & t1 & rt' & ? & ? & ? & ?); [done..|exists d', t1, rt'].
Qed.

Lemma reopened_image (T clock : Time) (disk disk' : Disk) (s t : EncryptedDiskStore) :
  image T disk s → T ≤ clock → restoring disk s [] disk' t → entries t = entries s ∧ image clock disk' t.
Proof.
  intros Him HT [Hok Hk Hsub _ Hd Hd0 _ Hnew].
  assert (He : entries t = entries s).
  { apply map_eq. intros id. destruct (entries s !! id) as [m|] eqn:E.
    - destruct (proj2 (Hnew id)) as [m' Hm']; [split; [by rewrite E|apply not_elem_of_nil]|].
      rewrite Hm'. by rewrite (lookup_weaken _ _ _ _ Hm' Hsub) in E.
    - destruct (entries t !! id) as [m|] eqn:E'; [|done]. by rewrite (lookup_weaken _ _ _ _ E' Hsub) in E. }
  split; [done|]. split.
  - intros id m. rewrite He. intros Hm. destruct (im_files _ _ _ Him _ _ Hm) as (file & r & [Hf Hr] & -> & ->).
    exists file, r. split_and!; [|done..]. pose proof (Hd _ (holds_record_name (lr_ID r))) as Hsame.
    split; [by rewrite Hsame|]. by eapply readRecord_again; [exact Hr|..].
  - intros name file Hf. rewrite He. by apply (im_only _ _ _ Him), (lookup_weaken _ _ _ _ Hf).
Qed.

(** C14. A restart loses nothing. From a consistent store whose directory is its image, take
    any operations at times up to [T] that meet any errors and cancellations but a failed
    sync of the directory after a write. Opening the directory at a later time with the same key
    and a limit that still holds the records, when nothing fails, gives a store with
    the same index and accounting in which every lookup answers as before, again with its
    directory as its image. *)
Theorem client_store_restart `{!AEADLaws} (T : Time) (x y : Disk * EncryptedDiskStore) (io : IO) (clock now : Time)
    (config : DiskClientStoreConfig) :
  record_roundtrip → live T x → rtc (durable T) x y →
  quiet io → T ≤ clock → IsZero now = false → cs_Directory config ≠ ""%string → blen (cs_Key config) = 32 →
  cs_Key config = key x.2 → validClientStorageLimit (cs_MaxBytes config) = true → used y.2 ≤ cs_MaxBytes config →
  ∃ disk s, NewEncryptedDiskStore io clock y.1 config now = (disk, Ok s) ∧
     entries s = entries y.2 ∧ used s = used y.2 ∧ live clock (disk, s) ∧
     ∀ io' ctx clock' id, Get io' ctx clock' disk s id = Get io' ctx clock' y.1 y.2 id.
Proof.
  intros Hjson Hx Hrun Hio HT Hnow Hdir Hlen Hkey Hlim Hfit.
  destruct (durable_run T x y Hjson Hrun Hx) as [[Hok Hw Hpos Hop Him] Hk]. destruct y as [disk0 s]. cbn [fst snd] in *.
  unfold NewEncryptedDiskStore. rewrite bool_decide_eq_false_2, Hlen, Hnow by done. cbn [orb negb Z.eqb].
  assert (cs_MaxBytes config =? 0 = false) as ->.
  { apply Z.eqb_neq. intros E. by rewrite E in Hlim. }
  rewrite Hlim, !Hio. cbn [negb]. set (s0 := {| key := _ |}).
  assert (Hlist : length (range_map disk0) = size disk0).
  { rewrite (Permutation_length (range_map_perm disk0)). apply length_map_to_list. }
  rewrite load_batches_quiet by (done || lia).
  destruct (load_restores T io now clock disk0 s (range_map disk0) disk0 s0 false)
    as (disk & t & rt & -> & Hrs & Hmax & Hcl); [done..|apply range_map_keys| |].
  { split; cbn [s0 key entries maxBytes]; try done.
    - congruence.
    - apply map_empty_subseteq.
    - intros name file Hin%range_map_elem. done.
    - intros id. rewrite lookup_empty. split; [by intros []|]. intros [[m Hm] Hn]. exfalso. apply Hn.
      destruct (im_files _ _ _ Him _ _ Hm) as (file & r & [Hf _] & -> & _). apply list_elem_of_fmap.
      exists (localRecordFilename (lr_ID r), file). split; [done|]. by apply range_map_elem. }
  destruct (reopened_image T clock disk0 disk s t Him HT Hrs) as [He Hi].
  assert (Hu : used t = used s) by by rewrite (ok_used t (rs_ok _ _ _ _ _ Hrs)), (ok_used s Hok), He.
  exists disk, t. split_and!; [by destruct rt|done|done| |].
  - split; cbn [fst snd]; [by eapply rs_ok| |rewrite Hmax|by rewrite Hcl|done].
    + unfold within_limits. rewrite Hmax, Hu, He. destruct Hw. done.
    + unfold validClientStorageLimit, MinClientStorageBytes in Hlim. unbool. simpl. lia.
  - intros io' ctx clock' id. unfold Get. rewrite Hcl, Hop, He. destruct ctx as [ctx|]; [|done].
    destruct (negb _); [done|]. destruct (ctx None); [done|]. cbn [s0 closed].
    destruct (entries s !! id) as [m|] eqn:Hm; [|done].
    destruct (ok_entry s Hok id m Hm) as (_ & _ & -> & _). apply readRecord_ext; [|by eapply rs_key].
    eapply rs_disk; [exact Hrs|]. apply holds_record_name.
Qed.
End Image.

(** * Witnesses *)

#[local] Existing Instances Sample.aead Sample.aead_laws Sample.marshal_record Sample.decode_record.

Lemma empty_live : live Sample.now (∅, Sample.empty).
Proof.
  destruct Sample.empty_store_ok as (? & ? & ?). split; [done..|]. split; cbn [fst snd].
  - intros id m Hm. cbn [Sample.empty entries] in Hm. by rewrite lookup_empty in Hm.
  - intros name file Hf. by rewrite lookup_empty in Hf.
Qed.

Lemma one_entries (id : string) : is_Some (entries Sample.one.2 !! id) → id = "group"%string.
Proof.
  intros Hs. assert (Hd : id ∈ dom (entries Sample.one.2)) by by apply elem_of_dom.
  assert (dom (entries Sample.one.2) = {["group"%string]}) as Hdom by (vm_compute; reflexivity). by rewrite Hdom in Hd; apply elem_of_singleton in Hd.
Qed.

(** Two records are put, and pruning to 8 KiB evicts one. *)
Lemma three_run : rtc (durable Sample.now) (∅, Sample.empty) Sample.three.1.
Proof.
  eapply rtc_l; [|eapply rtc_l; [|eapply rtc_once]].
  - eapply (durable_put _ Sample.no_io Sample.rand (Some Sample.live) ∅ Sample.empty Sample.group_record Sample.now _ _ _ None);
      [done|done|apply Sample.rand_ok|done| |exact Sample.put_one].
    intros id Hs _. exfalso. cbn [Sample.empty entries] in Hs. rewrite lookup_empty in Hs. by destruct Hs.
  - eapply (durable_put _ Sample.no_io Sample.rand (Some Sample.live) Sample.one.1 Sample.one.2 Sample.cache_record Sample.now _ _ _ None);
      [done|done|apply Sample.rand_ok|done| |exact Sample.put_two].
    intros id ->%one_entries E. vm_compute in E. discriminate E.
  - eapply (durable_prune _ Sample.no_io (Some Sample.live) Sample.two.1 Sample.two.2 8192 Sample.now _ _ _ None);
      [done|exact Sample.pruned_three].
Qed.

(** The sync of the directory fails. *)
Definition sync_fails : IO := λ c, match c with SyncDir => Some "sync"%string | _ => None end.
Definition unsynced : Disk := Eval vm_compute in
  (Put sync_fails Sample.rand (Some Sample.live) ∅ Sample.empty Sample.group_record Sample.now).1.1.1.

(** Why a failed sync is left out: the write that it reports as failed is in place. Its
    record is neither found nor accounted for, and is back, with its charge, when the
    directory is opened again. *)
Lemma unsynced_put_returns :
  Put sync_fails Sample.rand (Some Sample.live) ∅ Sample.empty Sample.group_record Sample.now =
    (unsynced, Sample.empty, noReport, Some "sync"%string) ∧
  Get Sample.no_io (Some Sample.live) Sample.now unsynced Sample.empty "group" = Err ErrLocalRecordNotFound ∧
  match NewEncryptedDiskStore Sample.no_io Sample.now unsynced Sample.config Sample.now with
  | (disk, Ok s) =>
      Get Sample.no_io (Some Sample.live) Sample.now disk s "group" = Ok (normalizeLocalRecord Sample.group_record) ∧
      (used s =? used Sample.empty) = false
  | _ => False
  end.
Proof. split; [|split]; vm_compute; [reflexivity..|split; reflexivity]. Qed.

Lemma client_store_restart_witness : ∃ disk s,
  NewEncryptedDiskStore Sample.no_io (Sample.now + Hour) Sample.three.1.1 Sample.config (Sample.now + Hour) = (disk, Ok s) ∧
  entries s = entries Sample.three.1.2.
Proof.
  destruct (client_store_restart Sample.now (∅, Sample.empty) Sample.three.1 Sample.no_io (Sample.now + Hour)
    (Sample.now + Hour) Sample.config Sample.record_codec empty_live three_run) as (disk & s & H1 & H2 & _);
    [intros c; reflexivity|discriminate|reflexivity|discriminate|reflexivity|reflexivity|reflexivity|vm_compute; discriminate|].
  exists disk, s. split; [exact H1|exact H2].
Defined.
End ClientRecovery.
