(* ===== verification/Mix.v ===== *)
(** The constant-rate mix transport (src/mixtransport): commands, and the scheduler
    that puts one fixed-size packet on the link per slot. The packet provider, the
    link and the clock are outside: an operation gets the outcomes of the calls it
    makes. Each critical section is one function; [step] interleaves them the way
    the scheduler's mutex does. *)
From S2P Require Import Prelude Encoding.
Local Open Scope Z_scope.

Module Mix.

(** * Commands *)

Definition ProtocolVersion : Z := 2.
Definition RequestIDBytes : Z := 32.
Definition DefaultPacketBytes : Z := 8 * 1024.
Definition MaxCommandPayloadBytes : Z := 2 * 1024.
Definition MaxEncodedCommandBytes : Z := 4 * 1024.
Definition MaxCommandLifetime : Duration := 15 * Minute.
Definition MaxQueueEntries : Z := 4096.

Definition KindStore : string := "store".
Definition KindDirectoryLookup : string := "directory_lookup".
Definition KindDirectoryPublish : string := "directory_publish".
Definition KindDeviceSync : string := "device_sync".
Definition KindDelete : string := "delete".

Record Command := {
  c_Version : Z;  (* uint8 *)
  c_RequestID : string;
  c_Kind : string;
  c_CreatedAt : Time;
  c_ExpiresAt : Time;
  c_Payload : bytes;
}.

Definition validKind (kind : string) : bool :=
  bool_decide (kind ∈ [KindStore; KindDirectoryLookup; KindDirectoryPublish; KindDeviceSync; KindDelete]).

Definition validRequestID (requestID : string) : bool :=
  if negb (slen requestID =? Base64.EncodedLen RequestIDBytes) then false
  else match Base64.DecodeString requestID with
       | Some decoded => blen decoded =? RequestIDBytes
       | None => false
       end.

(** [rand n] is the outcome of [rand.Read] into a buffer of [n] bytes. *)
Definition NewCommand (rand : Z → Result bytes) (kind : string) (payload : bytes) (now : Time)
    (lifetime : Duration) : Result Command :=
  if negb (validKind kind) || (blen payload =? 0) || (MaxCommandPayloadBytes <? blen payload) ||
     IsZero now || (lifetime <=? 0) || (MaxCommandLifetime <? lifetime)
  then Err "invalid ENIG-Mix command input"
  else match rand RequestIDBytes with
  | Err e => Err e
  | Ok requestID =>
      let createdAt := Truncate now Millisecond in
      Ok {| c_Version := ProtocolVersion;
            c_RequestID := Base64.EncodeToString requestID;
            c_Kind := kind;
            c_CreatedAt := createdAt;
            c_ExpiresAt := Truncate (TAdd createdAt lifetime) Millisecond;
            c_Payload := payload |}
  end.

Definition ValidateCommand (command : Command) (now : Time) : option error :=
  if negb (c_Version command =? ProtocolVersion) || negb (validRequestID (c_RequestID command)) ||
     negb (validKind (c_Kind command)) || (blen (c_Payload command) =? 0) ||
     (MaxCommandPayloadBytes <? blen (c_Payload command)) || IsZero (c_CreatedAt command) ||
     IsZero (c_ExpiresAt command) || After (c_CreatedAt command) (TAdd now (5 * Minute)) ||
     negb (After (c_ExpiresAt command) (c_CreatedAt command)) ||
     (MaxCommandLifetime <? TSub (c_ExpiresAt command) (c_CreatedAt command)) ||
     After now (c_ExpiresAt command)
  then Some "invalid ENIG-Mix command"%string
  else None.

Section Coding.
Context {MC : Marshaler Command} {DC : StrictDecoder Command}.

Definition EncodeCommand (command : Command) (now : Time) : Result bytes :=
  match ValidateCommand command now with
  | Some e => Err e
  | None =>
      match Marshal command with
      | Err e => Err e
      | Ok encoded =>
          if (blen encoded =? 0) || (MaxEncodedCommandBytes <? blen encoded)
          then Err "encoded ENIG-Mix command exceeds size limit"
          else Ok encoded
      end
  end.

Definition DecodeCommand (encoded : bytes) (now : Time) : Result Command :=
  if (blen encoded =? 0) || (MaxEncodedCommandBytes <? blen encoded)
  then Err "encoded ENIG-Mix command size is out of range"
  else match decodeStrict encoded with
  | Err e => Err e
  | Ok command =>
      match ValidateCommand command now with
      | Some e => Err e
      | None => Ok command
      end
  end.

End Coding.

(** * Security declarations *)

Record PacketSecurity := {
  ps_Protocol : string;
  ps_IndependentAudit : string;
  ps_MinimumMixHops : Z;
  ps_FixedLengthPackets : bool;
  ps_LayeredMixing : bool;
  ps_PerHopAuthentication : bool;
  ps_ReplayProtection : bool;
  ps_UniformReplies : bool;
  ps_PostQuantumHybridOnion : bool;
  ps_ForwardSecureRoutingKeys : bool;
}.

Record LinkSecurity := {
  ls_Protocol : string;
  ls_IndependentAudit : string;
  ls_AuthenticatedEntry : bool;
  ls_PersistentConnection : bool;
  ls_FixedLengthFrames : bool;
  ls_PostQuantumHybridKEX : bool;
  ls_NoRedirects : bool;
}.

Definition validPacketSecurity (security : PacketSecurity) : bool :=
  negb (bool_decide (ps_Protocol security = ""%string)) &&
  negb (bool_decide (ps_IndependentAudit security = ""%string)) && (3 <=? ps_MinimumMixHops security) &&
  ps_FixedLengthPackets security && ps_LayeredMixing security && ps_PerHopAuthentication security &&
  ps_ReplayProtection security && ps_UniformReplies security && ps_PostQuantumHybridOnion security &&
  ps_ForwardSecureRoutingKeys security.

Definition validLinkSecurity (security : LinkSecurity) : bool :=
  negb (bool_decide (ls_Protocol security = ""%string)) &&
  negb (bool_decide (ls_IndependentAudit security = ""%string)) && ls_AuthenticatedEntry security &&
  ls_PersistentConnection security && ls_FixedLengthFrames security && ls_PostQuantumHybridKEX security &&
  ls_NoRedirects security.

(** * The scheduler *)

Definition ReferenceSlotInterval : Duration := 5 * Second.
Definition ReferencePollEverySlots : Z := 6.

Definition ErrPacketProviderRequired : error := "audited post-quantum hybrid mix packet provider required".
Definition ErrPrivateLinkRequired : error := "audited post-quantum fixed-frame entry link required".
Definition ErrQueueFull : error := "ENIG-Mix outbound queue is full".
Definition ErrCommandExpired : error := "ENIG-Mix command expired before dispatch".
Definition ErrScheduleDiscontinuity : error := "ENIG-Mix constant-rate schedule was interrupted".

Record Config := {
  PacketBytes : Z;
  SlotInterval : Duration;
  PollEverySlots : Z;  (* uint64 *)
  MaxQueue : Z;
  MaxLateness : Duration;
  DispatchBudget : Duration;
}.

Record DispatchResult := { d_RequestID : string; d_SentAt : Time; d_Err : option error }.

(** A result channel is named by its position in the heap of channels; the heap
    records everything ever sent on it. The channels have one buffer place, so a
    send on one that has been used could block. *)
Abbreviation Chan := nat (only parsing).
Abbreviation Heap := (list (list DispatchResult)).

Definition make_chan (heap : Heap) : Chan * Heap := (length heap, heap ++ [[]]).
Definition chan_send (heap : Heap) (ch : Chan) (r : DispatchResult) : Heap :=
  alter (λ l, l ++ [r]) ch heap.

Record queuedPacket := { q_requestID : string; q_expiresAt : Time; q_packet : bytes; q_result : Chan }.

Record Scheduler := {
  config : Config;
  queue : list queuedPacket;
  reservations : Z;
  slots : Z;  (* uint64 *)
  running : bool;
  terminalErr : option error;
}.

(** [if x == 0 { x = d }]. *)
Definition or_default (x d : Z) : Z := if x =? 0 then d else x.

Definition withDefaults (c : Config) : Config :=
  let interval := or_default (SlotInterval c) ReferenceSlotInterval in
  {| PacketBytes := or_default (PacketBytes c) DefaultPacketBytes;
     SlotInterval := interval;
     PollEverySlots := or_default (PollEverySlots c) ReferencePollEverySlots;
     MaxQueue := or_default (MaxQueue c) 1024;
     MaxLateness := or_default (MaxLateness c) (Z.quot interval 4);
     DispatchBudget := or_default (DispatchBudget c) (Z.quot interval 2) |}.

Definition validConfig (c : Config) : bool :=
  negb (negb (PacketBytes c =? DefaultPacketBytes) || negb (SlotInterval c =? ReferenceSlotInterval) ||
        negb (PollEverySlots c =? ReferencePollEverySlots) ||
        (MaxQueue c <=? 0) || (MaxQueueEntries <? MaxQueue c) ||
        (MaxLateness c <=? 0) || (SlotInterval c <=? MaxLateness c) ||
        (DispatchBudget c <=? 0) || (SlotInterval c <=? DispatchBudget c)).

(** [provider] and [sink] are what the two interfaces declare, [None] for [nil]. *)
Definition NewScheduler (c : Config) (provider : option PacketSecurity) (sink : option LinkSecurity)
  : Result Scheduler :=
  let c := withDefaults c in
  if negb (validConfig c) then Err "invalid ENIG-Mix scheduler configuration"
  else if negb (from_option validPacketSecurity false provider) then Err ErrPacketProviderRequired
  else if negb (from_option validLinkSecurity false sink) then Err ErrPrivateLinkRequired
  else Ok {| config := c; queue := []; reservations := 0; slots := 0; running := false; terminalErr := None |}.

Definition validatePrepared (c : Config) (packet : bytes) : option error :=
  if negb (blen packet =? PacketBytes c)
  then Some "mix packet provider returned an invalid fixed-size packet"%string
  else None.

Definition set_queue (s : Scheduler) (q : list queuedPacket) (r : Z) : Scheduler :=
  {| config := config s; queue := q; reservations := r; slots := slots s; running := running s;
     terminalErr := terminalErr s |}.

(** ** Enqueue: reserve, prepare, commit *)

Definition reserve (s : Scheduler) (command : Command) (now : Time) : Result Scheduler :=
  match ValidateCommand command now with
  | Some e => Err e
  | None =>
      match terminalErr s with
      | Some e => Err e
      | None =>
          if MaxQueue (config s) <=? blen (queue s) + reservations s then Err ErrQueueFull
          else Ok (set_queue s (queue s) (reservations s + 1))
      end
  end.

Section Enqueue.
Context {MC : Marshaler Command}.

(** The work outside the lock; [PrepareReal] is the provider's answer. *)
Definition prepare (PrepareReal : bytes → Z → Result bytes) (c : Config) (command : Command) (now : Time)
  : Result bytes :=
  match EncodeCommand command now with
  | Err e => Err e
  | Ok encoded =>
      match PrepareReal encoded (PacketBytes c) with
      | Err e => Err e
      | Ok packet =>
          match validatePrepared c packet with
          | Some e => Err e
          | None => Ok packet
          end
      end
  end.

(** The deferred release of the reservation. *)
Definition release (s : Scheduler) : Scheduler := set_queue s (queue s) (reservations s - 1).

(** The second critical section. *)
Definition commit (s : Scheduler) (heap : Heap) (command : Command) (packet : bytes)
  : Scheduler * Heap * Result Chan :=
  let '(result, heap) := make_chan heap in
  let queued := {| q_requestID := c_RequestID command; q_expiresAt := c_ExpiresAt command;
                   q_packet := packet; q_result := result |} in
  match terminalErr s with
  | Some e => (release s, heap, Err e)
  | None => (set_queue s (queue s ++ [queued]) (reservations s - 1), heap, Ok result)
  end.

(** What follows the reservation. *)
Definition finishEnqueue (PrepareReal : bytes → Z → Result bytes) (s : Scheduler) (heap : Heap)
    (command : Command) (now : Time) : Scheduler * Heap * Result Chan :=
  match prepare PrepareReal (config s) command now with
  | Err e => (release s, heap, Err e)
  | Ok packet => commit s heap command packet
  end.

(** A call that nothing interleaves with. *)
Definition Enqueue (PrepareReal : bytes → Z → Result bytes) (s : Scheduler) (heap : Heap)
    (command : Command) (now : Time) : Scheduler * Heap * Result Chan :=
  match reserve s command now with
  | Err e => (s, heap, Err e)
  | Ok s => finishEnqueue PrepareReal s heap command now
  end.

End Enqueue.

Definition zeroResult : DispatchResult := {| d_RequestID := ""; d_SentAt := 0; d_Err := None |}.

(** [Ticket.Wait]; [ctxDone] is the error of the context if the [select] takes that
    branch. [None] is a wait that goes on. *)
Definition Wait (heap : Heap) (ticket : option Chan) (ctxDone : option error)
  : option (DispatchResult * option error) :=
  match ticket with
  | None => Some (zeroResult, Some "invalid ENIG-Mix dispatch ticket"%string)
  | Some ch =>
      match ctxDone, heap !! ch with
      | Some e, _ => Some (zeroResult, Some e)
      | None, Some (r :: _) => Some (r, d_Err r)
      | None, _ => None
      end
  end.

(** ** A slot *)

(** Before the lock: the cover packet, prepared whatever the slot will send. *)
Definition prepareCover (c : Config) (cover : Result bytes) : Result bytes :=
  match cover with
  | Err e => Err ("prepare mandatory cover packet: " +:+ e)
  | Ok packet =>
      match validatePrepared c packet with
      | Some e => Err e
      | None => Ok packet
      end
  end.

(** The critical section: count the slot, and take the head of the queue unless it
    is a poll slot. An expired head is reported and replaced by cover. *)
Definition takeSlot (s : Scheduler) (heap : Heap) (now : Time)
  : Scheduler * Heap * bool * option queuedPacket :=
  let slots' := u64 (slots s + 1) in
  let pollSlot := slots' `mod` PollEverySlots (config s) =? 0 in
  let with_queue q :=
    {| config := config s; queue := q; reservations := reservations s; slots := slots';
       running := running s; terminalErr := terminalErr s |} in
  match queue s with
  | candidate :: rest =>
      if pollSlot then (with_queue (queue s), heap, pollSlot, None)
      else if After now (q_expiresAt candidate)
      then (with_queue rest,
            chan_send heap (q_result candidate)
              {| d_RequestID := q_requestID candidate; d_SentAt := 0; d_Err := Some ErrCommandExpired |},
            pollSlot, None)
      else (with_queue rest, heap, pollSlot, Some candidate)
  | [] => (with_queue [], heap, pollSlot, None)
  end.

Inductive PacketKind := Cover | Poll | Real (q : queuedPacket).

(** A packet handed to the link: when its slot began, when [Send] was called, why, and
    its bytes. *)
Record Sent := { t_now : Time; t_sent : Time; t_kind : PacketKind; t_packet : bytes }.

(** What the slot sends. *)
Definition choosePacket (c : Config) (pollSlot : bool) (queued : option queuedPacket) (cover : bytes)
    (poll : Result bytes) : Result (PacketKind * bytes) :=
  if pollSlot then
    match poll with
    | Err e => Err ("prepare mandatory anonymous poll: " +:+ e)
    | Ok packet =>
        match validatePrepared c packet with
        | Some e => Err e
        | None => Ok (Poll, packet)
        end
    end
  else match queued with
       | Some q => Ok (Real q, q_packet q)
       | None => Ok (Cover, cover)
       end.

(** After the lock: choose the packet, send it at [sentAt], report. [sendErr] is the
    answer of the link, [elapsed] the time since the slot started. *)
Definition finishSlot (c : Config) (heap : Heap) (now : Time) (pollSlot : bool) (queued : option queuedPacket)
    (cover : bytes) (poll : Result bytes) (sentAt : Time) (sendErr : option error) (elapsed : Duration)
  : Heap * list Sent * option error :=
  match choosePacket c pollSlot queued cover poll with
  | Err e => (heap, [], Some e)
  | Ok (kind, packet) =>
      let err :=
        match sendErr with
        | Some e => Some e
        | None => if DispatchBudget c <? elapsed then Some ErrScheduleDiscontinuity else None
        end in
      let heap :=
        match queued with
        | Some q => chan_send heap (q_result q)
                      {| d_RequestID := q_requestID q; d_SentAt := now; d_Err := err |}
        | None => heap
        end in
      (heap, [{| t_now := now; t_sent := sentAt; t_kind := kind; t_packet := packet |}],
       (λ e, "send fixed ENIG-Mix slot: " +:+ e)%string <$> err)
  end.

(** A slot that nothing interleaves with. *)
Definition dispatchSlot (s : Scheduler) (heap : Heap) (now : Time) (cover poll : Result bytes)
    (sentAt : Time) (sendErr : option error) (elapsed : Duration) : Scheduler * Heap * list Sent * option error :=
  match prepareCover (config s) cover with
  | Err e => (s, heap, [], Some e)
  | Ok cover =>
      let '(s, heap, pollSlot, queued) := takeSlot s heap now in
      let '(heap, sent, err) := finishSlot (config s) heap now pollSlot queued cover poll sentAt sendErr elapsed in
      (s, heap, sent, err)
  end.

(** ** The loop *)

Definition startRun (s : Scheduler) : Result Scheduler :=
  if running s || bool_decide (is_Some (terminalErr s))
  then Err "ENIG-Mix scheduler cannot be started more than once"
  else Ok {| config := config s; queue := queue s; reservations := reservations s; slots := slots s;
             running := true; terminalErr := None |}.

(** The first half of the deferred function of [Run]. *)
Definition endRun (s : Scheduler) (runErr : error) : Scheduler :=
  {| config := config s; queue := queue s; reservations := reservations s; slots := slots s;
     running := false; terminalErr := Some runErr |}.

(** The second half. *)
Definition failQueued (s : Scheduler) (heap : Heap) (runErr : error) : Scheduler * Heap :=
  (set_queue s [] (reservations s),
   foldl (λ heap q, chan_send heap (q_result q)
                      {| d_RequestID := q_requestID q; d_SentAt := 0; d_Err := Some runErr |})
     heap (queue s)).

(** * Interleaving *)

(** Where the goroutine of [Run] stands: not started, waiting for the slot due at
    [next], between the two halves of a slot (which began at [now] and read [begun] when
    [dispatchSlot] started), about to run its deferred function
    with an error, between the halves of that, or finished. *)
Inductive Runner :=
| Idle
| Waiting (next : Time)
| Sending (next now begun : Time) (pollSlot : bool) (queued : option queuedPacket) (cover : bytes)
| Failing (runErr : error)
| Draining (runErr : error)
| Stopped (runErr : error).

Record System := {
  sch : Scheduler;
  heap : Heap;
  calls : list (Command * Time);  (* calls of [Enqueue] that hold a reservation *)
  accepted : list (Chan * Command);  (* tickets returned so far, with their commands *)
  runner : Runner;
  started : Time;                 (* when the loop began *)
  sent : list Sent;               (* everything handed to the link *)
}.

Definition tickets (y : System) : list Chan := (accepted y).*1.

Definition initial (s : Scheduler) : System :=
  {| sch := s; heap := []; calls := []; accepted := []; runner := Idle; started := 0; sent := [] |}.

Definition set_runner (y : System) (r : Runner) : System :=
  {| sch := sch y; heap := heap y; calls := calls y; accepted := accepted y; runner := r;
     started := started y; sent := sent y |}.

Definition granted (command : Command) (r : Result Chan) : list (Chan * Command) :=
  match r with Ok ch => [(ch, command)] | Err _ => [] end.

Section Steps.
Context {MC : Marshaler Command}.

(** After a slot: stop on an error, else wait for the next one unless its time has
    come ([until] is [time.Until(next)]). *)
Definition afterSlot (next : Time) (err : option error) (until : Duration) : Runner :=
  match err with
  | Some e => Failing e
  | None => if until <=? 0 then Failing ErrScheduleDiscontinuity else Waiting next
  end.

(** The clock is monotonic: a slot reads it when the timer fires ([now]), at the start of
    [dispatchSlot], at [Send] ([sentAt]), after it ([ended]), and for the timer ([after]). *)
Inductive step : System → System → Prop :=
| step_reserve y command now s' :
    reserve (sch y) command now = Ok s' →
    step y {| sch := s'; heap := heap y; calls := calls y ++ [(command, now)]; accepted := accepted y;
              runner := runner y; started := started y; sent := sent y |}
| step_finish y PrepareReal l command now l' s' h' r :
    calls y = l ++ (command, now) :: l' →
    finishEnqueue PrepareReal (sch y) (heap y) command now = (s', h', r) →
    step y {| sch := s'; heap := h'; calls := l ++ l'; accepted := accepted y ++ granted command r;
              runner := runner y; started := started y; sent := sent y |}
| step_start y t0 s' :
    startRun (sch y) = Ok s' →
    step y {| sch := s'; heap := heap y; calls := calls y; accepted := accepted y;
              runner := Waiting (TAdd t0 (SlotInterval (config s'))); started := t0; sent := sent y |}
| step_cancel y next e :
    runner y = Waiting next → step y (set_runner y (Failing e))
| step_late y next now :
    runner y = Waiting next → MaxLateness (config (sch y)) < TSub now next →
    step y (set_runner y (Failing ErrScheduleDiscontinuity))
| step_no_cover y next now cover e :
    runner y = Waiting next → next ≤ now → TSub now next ≤ MaxLateness (config (sch y)) →
    prepareCover (config (sch y)) cover = Err e →
    step y (set_runner y (Failing e))
| step_slot y next now begun cover packet s' h' pollSlot queued :
    runner y = Waiting next → next ≤ now → now ≤ begun → TSub now next ≤ MaxLateness (config (sch y)) →
    prepareCover (config (sch y)) cover = Ok packet →
    takeSlot (sch y) (heap y) now = (s', h', pollSlot, queued) →
    step y {| sch := s'; heap := h'; calls := calls y; accepted := accepted y;
              runner := Sending next now begun pollSlot queued packet; started := started y; sent := sent y |}
| step_send y next now begun pollSlot queued cover poll sentAt ended after sendErr h' new err :
    runner y = Sending next now begun pollSlot queued cover →
    begun ≤ sentAt → sentAt ≤ ended → ended ≤ after →
    finishSlot (config (sch y)) (heap y) now pollSlot queued cover poll sentAt sendErr (TSub ended begun) = (h', new, err) →
    let next' := TAdd next (SlotInterval (config (sch y))) in
    step y {| sch := sch y; heap := h'; calls := calls y; accepted := accepted y;
              runner := afterSlot next' err (TSub next' after);
              started := started y; sent := sent y ++ new |}
| step_end y e :
    runner y = Failing e →
    step y {| sch := endRun (sch y) e; heap := heap y; calls := calls y; accepted := accepted y;
              runner := Draining e; started := started y; sent := sent y |}
| step_drain y e s' h' :
    runner y = Draining e → failQueued (sch y) (heap y) e = (s', h') →
    step y {| sch := s'; heap := h'; calls := calls y; accepted := accepted y;
              runner := Stopped e; started := started y; sent := sent y |}.

End Steps.

(** * The invariant *)

(** The tickets whose packets went to the link, in order. *)
Definition real_chan (x : Sent) : option Chan :=
  match t_kind x with Real q => Some (q_result q) | _ => None end.
Definition reals (l : list Sent) : list Chan := omap real_chan l.

(** The packets accepted and not reported: the one being sent, then the queue. *)
Definition inflight (r : Runner) : list queuedPacket :=
  match r with Sending _ _ _ _ (Some q) _ => [q] | _ => [] end.
Definition pending (y : System) : list queuedPacket := inflight (runner y) ++ queue (sch y).
Definition waiting (y : System) : list Chan := q_result <$> pending y.

(** The [i]-th packet on the link: its size, its time and its kind follow from [i]
    alone, but for real packets taking the place of cover. *)
Record slot_ok (c : Config) (t0 : Time) (i : nat) (x : Sent) : Prop := {
  so_size : blen (t_packet x) = PacketBytes c;
  so_time : let due := t0 + (Z.of_nat i + 1) * SlotInterval c in due ≤ t_now x ≤ due + MaxLateness c;
  so_poll : t_kind x = Poll ↔ u64 (Z.of_nat i + 1) `mod` PollEverySlots c = 0;
  so_real q : t_kind x = Real q → t_packet x = q_packet q ∧ t_now x ≤ q_expiresAt q;
}.

Definition runner_ok (c : Config) (y : System) : Prop :=
  let n := Z.of_nat (length (sent y)) in
  let live := running (sch y) = true ∧ terminalErr (sch y) = None in
  let ended e := running (sch y) = false ∧ terminalErr (sch y) = Some e in
  let due := started y + (n + 1) * SlotInterval c in
  match runner y with
  | Idle => running (sch y) = false ∧ terminalErr (sch y) = None ∧ sent y = [] ∧ slots (sch y) = 0
  | Waiting next => live ∧ slots (sch y) = u64 n ∧ next = due
  | Sending next now begun poll q cover =>
      live ∧ slots (sch y) = u64 (n + 1) ∧ next = due ∧ due ≤ now ≤ due + MaxLateness c ∧ now ≤ begun ∧
      poll = (slots (sch y) `mod` PollEverySlots c =? 0) ∧ (poll = true → q = None) ∧
      (∀ p, q = Some p → now ≤ q_expiresAt p) ∧ blen cover = PacketBytes c
  | Failing _ => live
  | Draining e => ended e
  | Stopped e => ended e ∧ queue (sch y) = []
  end.

Record inv (c : Config) (y : System) : Prop := {
  inv_config : config (sch y) = c;
  inv_calls : reservations (sch y) = Z.of_nat (length (calls y));
  inv_room : Z.of_nat (length (queue (sch y))) + reservations (sch y) ≤ MaxQueue c;
  inv_order : StronglySorted lt (reals (sent y) ++ waiting y);
  inv_tickets : Forall (λ ch, ch < length (heap y))%nat (tickets y) ∧ NoDup (tickets y);
  inv_pending q : q ∈ pending y →
    q_result q ∈ tickets y ∧ heap y !! q_result q = Some [] ∧ blen (q_packet q) = PacketBytes c;
  inv_reals ch : ch ∈ reals (sent y) → ch ∈ tickets y;
  inv_done ch : ch ∈ tickets y → ch ∉ waiting y →
    ∃ r, heap y !! ch = Some [r] ∧ (d_Err r = None → ch ∈ reals (sent y));
  inv_runner : runner_ok c y;
  inv_sent i x : sent y !! i = Some x → slot_ok c (started y) i x;
}.

Lemma u64_succ (n : Z) : u64 (u64 n + 1) = u64 (n + 1).
Proof. unfold u64. by rewrite Zplus_mod_idemp_l. Qed.

Lemma TSub_le (t u d : Z) : d < two63 - 1 → TSub t u ≤ d → t - u ≤ d.
Proof. unfold TSub. lia. Qed.

Lemma validConfig_spec (c : Config) :
  validConfig c = true →
  PacketBytes c = 8192 ∧ SlotInterval c = 5 * Second ∧ PollEverySlots c = 6 ∧
  0 < MaxQueue c ≤ 4096 ∧ 0 < MaxLateness c < 5 * Second ∧ 0 < DispatchBudget c < 5 * Second.
Proof.
  unfold validConfig. rewrite negb_true_iff. intros H. unbool.
  unfold DefaultPacketBytes, ReferenceSlotInterval, ReferencePollEverySlots, MaxQueueEntries in *.
  split_and!; lia.
Qed.

Lemma reals_app (l k : list Sent) : reals (l ++ k) = reals l ++ reals k.
Proof. apply omap_app. Qed.

Lemma chan_send_other (h : Heap) (ch ch' : Chan) (r : DispatchResult) :
  ch ≠ ch' → chan_send h ch r !! ch' = h !! ch'.
Proof. intros. unfold chan_send. by rewrite list_lookup_alter_ne. Qed.

Lemma chan_send_first (h : Heap) (ch : Chan) (r : DispatchResult) :
  h !! ch = Some [] → chan_send h ch r !! ch = Some [r].
Proof. intros H. unfold chan_send. by rewrite list_lookup_alter_eq, H. Qed.

Lemma chan_send_length (h : Heap) (ch : Chan) (r : DispatchResult) : length (chan_send h ch r) = length h.
Proof. apply length_alter. Qed.

Lemma sorted_lt_nodup (l : list nat) : StronglySorted lt l → NoDup l.
Proof.
  induction 1 as [|x l _ IH Hall]; [constructor|]. apply list.NoDup_cons. split; [|done].
  intros Hin. rewrite List.Forall_forall in Hall. apply list_elem_of_In, Hall in Hin. lia.
Qed.

Lemma sorted_snoc (l : list nat) (x : nat) :
  StronglySorted lt l → Forall (λ y, y < x)%nat l → StronglySorted lt (l ++ [x]).
Proof.
  induction 1 as [|y l _ IH Hall]; intros Hlt; [repeat constructor|].
  apply Forall_cons_iff in Hlt as [? ?]. simpl. constructor; [by apply IH|].
  apply list.Forall_app. split; [done|]. by repeat constructor.
Qed.

(** Every channel of the order is a ticket, hence allocated. *)
Lemma inv_order_alloc (c : Config) (y : System) :
  inv c y → Forall (λ ch, ch < length (heap y))%nat (reals (sent y) ++ waiting y).
Proof.
  intros Hi. apply List.Forall_forall. intros ch Hin%list_elem_of_In.
  destruct (inv_tickets c y Hi) as [Hall _]. rewrite List.Forall_forall in Hall. apply Hall, list_elem_of_In.
  apply elem_of_app in Hin as [Hin|Hin]; [by apply (inv_reals c y Hi)|].
  apply list_elem_of_fmap in Hin as (q & -> & Hq). by apply (inv_pending c y Hi).
Qed.

Lemma initial_inv (c : Config) (p : option PacketSecurity) (l : option LinkSecurity) (s : Scheduler) :
  NewScheduler c p l = Ok s → validConfig (config s) = true ∧ inv (config s) (initial s).
Proof.
  unfold NewScheduler. destruct (validConfig (withDefaults c)) eqn:Hc; [|done]. cbn [negb].
  destruct (negb _); [done|]. destruct (negb _); [done|]. intros <-%(inj Ok). split; [done|].
  apply validConfig_spec in Hc as (_ & _ & _ & ? & _).
  split; try done; simpl; try lia; try (by repeat constructor); try (by intros ? ?%elem_of_nil).
  unfold withDefaults in *. simpl in *. lia.
Qed.

Section Preservation.
Context {MC : Marshaler Command} (c : Config) (Hvalid : validConfig c = true).

Lemma prepare_size (PrepareReal : bytes → Z → Result bytes) (command : Command) (now : Time) (p : bytes) :
  prepare PrepareReal c command now = Ok p → blen p = PacketBytes c.
Proof.
  unfold prepare, validatePrepared. destruct (EncodeCommand _ _); [|done]. destruct (PrepareReal _ _); [|done].
  destruct (negb _) eqn:E; [done|]. intros <-%(inj Ok). by unbool.
Qed.

Lemma step_reserve_inv (y : System) (command : Command) (now : Time) (s' : Scheduler) :
  inv c y → reserve (sch y) command now = Ok s' →
  inv c {| sch := s'; heap := heap y; calls := calls y ++ [(command, now)]; accepted := accepted y;
           runner := runner y; started := started y; sent := sent y |}.
Proof.
  intros Hi. unfold reserve. destruct (ValidateCommand _ _); [done|]. destruct (terminalErr _) eqn:Et; [done|].
  destruct (_ <=? _) eqn:E; [done|]. intros <-%(inj Ok). unbool.
  destruct Hi as [Hc Hcalls Hroom Hord Htk Hpend Hreal Hdone Hrun Hsent]. unfold blen in E.
  split; cbn [sch heap calls tickets runner started sent set_queue config queue reservations]; try done.
  - rewrite length_app. simpl. lia.
  - rewrite Hc in E. lia.
Qed.

(** A reservation given back. *)
Lemma release_inv (y : System) (h' : Heap) (l l' : list (Command * Time)) (x : Command * Time) :
  inv c y → calls y = l ++ x :: l' → (∃ k, h' = heap y ++ k) →
  inv c {| sch := release (sch y); heap := h'; calls := l ++ l'; accepted := accepted y ++ [];
           runner := runner y; started := started y; sent := sent y |}.
Proof.
  intros Hi Hl [k ->]. destruct Hi as [Hc Hcalls Hroom Hord Htk Hpend Hreal Hdone Hrun Hsent].
  rewrite app_nil_r.
  split; cbn [release sch heap calls tickets runner started sent set_queue config queue reservations]; try done.
  - rewrite Hcalls, Hl, !length_app. simpl. lia.
  - lia.
  - destruct Htk as [Hlt ?]. split; [|done]. eapply list.Forall_impl; [done|]. intros ch. simpl. rewrite length_app. lia.
  - intros q Hq. destruct (Hpend q Hq) as (? & ? & ?). split_and!; [done| |done]. by apply lookup_app_l_Some.
  - intros ch Hch Hnw. destruct (Hdone ch Hch Hnw) as (r & ? & ?). exists r. split; [|done]. by apply lookup_app_l_Some.
Qed.

Lemma step_finish_inv (y : System) (PrepareReal : bytes → Z → Result bytes) (l l' : list (Command * Time))
    (command : Command) (now : Time) (s' : Scheduler) (h' : Heap) (r : Result Chan) :
  inv c y → calls y = l ++ (command, now) :: l' →
  finishEnqueue PrepareReal (sch y) (heap y) command now = (s', h', r) →
  inv c {| sch := s'; heap := h'; calls := l ++ l'; accepted := accepted y ++ granted command r;
           runner := runner y; started := started y; sent := sent y |}.
Proof.
  intros Hi Hl. unfold finishEnqueue. rewrite (inv_config c y Hi).
  destruct (prepare _ _ _ _) as [packet|e] eqn:Hp.
  2: { intros; simplify_eq. eapply release_inv; [done..|]. exists []. by rewrite app_nil_r. }
  apply prepare_size in Hp. unfold commit, make_chan. destruct (terminalErr (sch y)) as [e|] eqn:Et.
  { intros; simplify_eq. eapply release_inv; [done..|]. eauto. }
  intros; simplify_eq. pose proof (inv_order_alloc c y Hi) as Halloc.
  destruct Hi as [Hc Hcalls Hroom Hord [Hlt Hnd] Hpend Hreal Hdone Hrun Hsent].
  set (q := {| q_result := length (heap y) |}).
  set (y' := {| sch := _ |}).
  assert (Hw : waiting y' = waiting y ++ [length (heap y)]).
  { unfold waiting, pending. cbn [y' sch set_queue queue runner]. by rewrite app_assoc, fmap_app. }
  assert (Ht : tickets y' = tickets y ++ [length (heap y)]).
  { unfold tickets. cbn [y' accepted granted]. by rewrite fmap_app. }
  assert (Hp' : ∀ p, p ∈ pending y' ↔ p ∈ pending y ∨ p = q).
  { intros p. unfold pending. cbn [y' sch set_queue queue runner].
    rewrite app_assoc, elem_of_app, list_elem_of_singleton. done. }
  assert (Hheap : ∀ ch z, heap y !! ch = Some z → heap y' !! ch = Some z).
  { intros ch z ?. by apply lookup_app_l_Some. }
  split; cbn [y' sch heap calls runner started sent set_queue config queue reservations granted];
    fold y'; rewrite ?Ht; try done.
  - rewrite Hcalls, Hl, !length_app. simpl. lia.
  - rewrite length_app. simpl. lia.
  - change (sent y') with (sent y). rewrite Hw, app_assoc. by apply sorted_snoc.
  - rewrite length_app. split.
    + apply list.Forall_app. split; [eapply list.Forall_impl; [done|]; simpl; lia|]. repeat constructor. simpl. lia.
    + apply list.NoDup_app. split_and!; [done| |apply NoDup_singleton].
      intros ch Hch%list_elem_of_In ->%list_elem_of_singleton. rewrite List.Forall_forall in Hlt.
      apply Hlt in Hch. lia.
  - intros p Hpp%Hp'. destruct Hpp as [Hpp| ->].
    + destruct (Hpend p Hpp) as (? & ? & ?). split_and!; [set_solver|by apply Hheap|done].
    + cbn [q q_result q_packet]. split_and!; [set_solver| |done]. by rewrite list_lookup_middle.
  - intros ch Hch%Hreal. set_solver.
  - intros ch Hch Hnw. rewrite Hw in Hnw. assert (ch ∈ tickets y) as Hch' by set_solver.
    destruct (Hdone ch Hch') as (r & ? & ?); [set_solver|]. exists r. split; [by apply Hheap|done].
  - revert Hrun. unfold runner_ok. cbn [y' sch runner started sent set_queue queue slots running terminalErr].
    destruct (runner y); try done. intros [[_ ?] _]. congruence.
Qed.

Lemma step_start_inv (y : System) (t0 : Time) (s' : Scheduler) :
  inv c y → startRun (sch y) = Ok s' →
  inv c {| sch := s'; heap := heap y; calls := calls y; accepted := accepted y;
           runner := Waiting (TAdd t0 (SlotInterval (config s'))); started := t0; sent := sent y |}.
Proof.
  intros [Hc Hcalls Hroom Hord Htk Hpend Hreal Hdone Hrun Hsent]. unfold startRun.
  destruct (_ || _)%bool eqn:E; [done|]. intros <-%(inj Ok).
  apply orb_false_iff in E as [Er Et]. apply bool_decide_eq_false in Et. apply eq_None_not_Some in Et.
  assert (Hidle : runner y = Idle ∧ sent y = [] ∧ slots (sch y) = 0).
  { revert Hrun. unfold runner_ok. cbv zeta. destruct (runner y); intros Hrun; destruct_and?; split_and?; congruence. }
  destruct Hidle as (Hr & Hs & Hz).
  assert (Hp : pending y = queue (sch y)) by (unfold pending; by rewrite Hr).
  unfold waiting in *. rewrite Hp in *. rewrite Hs in *.
  split; cbn [sch heap calls tickets runner started sent config queue reservations]; try done.
  unfold runner_ok. cbn [sch runner started sent running terminalErr slots config length].
  rewrite Hz, Hc. unfold TAdd. split_and!; try done. lia.
Qed.

(** A change of the runner that keeps the packet being sent, if any. *)
Lemma set_runner_inv (y : System) (r : Runner) :
  inv c y → inflight r = inflight (runner y) → runner_ok c (set_runner y r) → inv c (set_runner y r).
Proof.
  intros [Hc Hcalls Hroom Hord Htk Hpend Hreal Hdone Hrun Hsent] Hf Hr.
  assert (Hp : pending (set_runner y r) = pending y) by (unfold pending; simpl; by rewrite Hf).
  assert (Hw : waiting (set_runner y r) = waiting y) by (unfold waiting; by rewrite Hp).
  split; rewrite ?Hp, ?Hw; done.
Qed.

(** Reporting on the channel of the first pending packet, which leaves the list. *)
Lemma report_inv (y y' : System) (q : queuedPacket) (r : DispatchResult) :
  inv c y → pending y = q :: pending y' → heap y' = chan_send (heap y) (q_result q) r →
  config (sch y') = c → calls y' = calls y → reservations (sch y') = reservations (sch y) →
  (length (queue (sch y')) ≤ length (queue (sch y)))%nat → tickets y' = tickets y → started y' = started y →
  (reals (sent y') = reals (sent y) ++ [q_result q] ∨ reals (sent y') = reals (sent y) ∧ d_Err r ≠ None) →
  runner_ok c y' → (∀ i x, sent y' !! i = Some x → slot_ok c (started y') i x) →
  inv c y'.
Proof.
  intros Hi Hp Hh Hc' Hcl Hrs Hq Htk' Hst Hre Hrun' Hsent'.
  destruct Hi as [Hc Hcalls Hroom Hord [Hlt Hnd] Hpend Hreal Hdone Hrun Hsent].
  assert (Hw : waiting y = q_result q :: waiting y') by (unfold waiting; by rewrite Hp).
  destruct (Hpend q) as (Hqt & Hqh & _); [rewrite Hp; apply list_elem_of_here|].
  assert (Hnin : NoDup (q_result q :: waiting y')).
  { rewrite <- Hw. apply sorted_lt_nodup in Hord. by apply list.NoDup_app in Hord as (_ & _ & ?). }
  apply list.NoDup_cons in Hnin as [Hnin _].
  assert (Hrsub : ∀ ch, ch ∈ reals (sent y) → ch ∈ reals (sent y')).
  { intros ch ?. destruct Hre as [->|[-> _]]; set_solver. }
  split; rewrite ?Hcl, ?Htk', ?Hrs, ?Hh, ?chan_send_length; try done.
  - lia.
  - rewrite Hw in Hord. destruct Hre as [->|[-> _]]; [by rewrite <- app_assoc|].
    clear -Hord. induction (reals (sent y)) as [|x l IH]; simpl in *.
    + by apply StronglySorted_inv in Hord as [? _].
    + apply StronglySorted_inv in Hord as [? Hall]. constructor; [by apply IH|].
      apply list.Forall_app in Hall as [? [_ ?]%Forall_cons_iff]. by apply list.Forall_app.
  - intros p Hin. destruct (Hpend p) as (? & ? & ?); [rewrite Hp; by apply list_elem_of_further|].
    split_and!; [done| |done]. rewrite chan_send_other; [done|]. intros E. apply Hnin. rewrite E.
    by apply list_elem_of_fmap_2.
  - intros ch Hch. destruct Hre as [Hre|[Hre _]]; rewrite Hre in Hch; [|by apply Hreal].
    apply elem_of_app in Hch as [?| ->%list_elem_of_singleton]; [by apply Hreal|done].
  - intros ch Hch Hnw. destruct (decide (ch = q_result q)) as [->|Hne].
    + exists r. split; [by apply chan_send_first|]. intros He.
      destruct Hre as [->|[_ ?]]; [|done]. set_solver.
    + destruct (Hdone ch Hch) as (r' & ? & ?); [rewrite Hw; set_solver|]. exists r'.
      split; [by rewrite chan_send_other|]. auto.
Qed.

Lemma takeSlot_fields (s s' : Scheduler) (h h' : Heap) (now : Time) (poll : bool) (q : option queuedPacket) :
  takeSlot s h now = (s', h', poll, q) →
  config s' = config s ∧ reservations s' = reservations s ∧ running s' = running s ∧
  terminalErr s' = terminalErr s ∧ slots s' = u64 (slots s + 1) ∧
  poll = (slots s' `mod` PollEverySlots (config s) =? 0) ∧ (poll = true → q = None) ∧
  (∀ p, q = Some p → now ≤ q_expiresAt p) ∧ (length (queue s') ≤ length (queue s))%nat.
Proof.
  unfold takeSlot, After. intros H. repeat case_match; simplify_eq; simpl; split_and!; try done; try lia.
  intros p [= <-]. unbool. lia.
Qed.

(** The queue after the critical section: unchanged, or without its head, which is
    being sent or has expired and been told so. *)
Lemma takeSlot_queue (s s' : Scheduler) (h h' : Heap) (now : Time) (poll : bool) (q : option queuedPacket) :
  takeSlot s h now = (s', h', poll, q) →
  (h' = h ∧ queue s = option_list q ++ queue s') ∨
  q = None ∧ ∃ p, queue s = p :: queue s' ∧
    h' = chan_send h (q_result p) {| d_RequestID := q_requestID p; d_SentAt := 0; d_Err := Some ErrCommandExpired |}.
Proof. unfold takeSlot. intros H. repeat case_match; simplify_eq; simpl; eauto 6. Qed.

Lemma step_slot_inv (y : System) (next now begun : Time) (cover : Result bytes) (packet : bytes) (s' : Scheduler)
    (h' : Heap) (poll : bool) (q : option queuedPacket) :
  inv c y → runner y = Waiting next → next ≤ now → now ≤ begun → TSub now next ≤ MaxLateness (config (sch y)) →
  prepareCover (config (sch y)) cover = Ok packet →
  takeSlot (sch y) (heap y) now = (s', h', poll, q) →
  inv c {| sch := s'; heap := h'; calls := calls y; accepted := accepted y;
           runner := Sending next now begun poll q packet; started := started y; sent := sent y |}.
Proof.
  intros Hi Hr Hnext Hbegun Hlate Hcover Htake.
  pose proof (inv_config c y Hi) as Hc. rewrite Hc in *.
  destruct (validConfig_spec c Hvalid) as (_ & _ & _ & _ & Hml & _).
  apply TSub_le in Hlate; [|unfold Second, Millisecond in *; lia].
  assert (Hpk : blen packet = PacketBytes c).
  { unfold prepareCover, validatePrepared in Hcover. destruct cover; [|done]. destruct (negb _) eqn:E; [done|].
    apply (inj Ok) in Hcover as <-. by unbool. }
  destruct (takeSlot_fields _ _ _ _ _ _ _ Htake) as (Hc' & Hrs & Hrun' & Hte & Hsl & Hpoll & Hpq & Hexp & Hlen).
  pose proof (inv_runner c y Hi) as Hrun. unfold runner_ok in Hrun. rewrite Hr in Hrun.
  destruct Hrun as ((Hrn & Hno) & Hslots & Hdue).
  set (y' := {| sch := s' |}).
  assert (Hok' : runner_ok c y').
  { unfold runner_ok. cbn [y' sch runner started sent]. rewrite Hrun', Hte, Hsl, Hslots, u64_succ.
    rewrite Hpoll, Hsl, Hslots, u64_succ, Hc in *. split_and!; try done; lia. }
  assert (Hold : pending y = queue (sch y)) by (unfold pending; by rewrite Hr).
  assert (Hnew : pending y' = option_list q ++ queue s') by (by destruct q).
  destruct (takeSlot_queue _ _ _ _ _ _ _ Htake) as [[-> Hq]|(-> & p & Hq & ->)].
  - assert (Hp : pending y' = pending y) by congruence.
    assert (Hw : waiting y' = waiting y) by (unfold waiting; by rewrite Hp).
    destruct Hi as [_ Hcalls Hroom Hord Htk Hpend Hreal Hdone _ Hsent].
    split; rewrite ?Hp, ?Hw; try done; cbn [y' sch calls]; rewrite ?Hrs; [congruence|done|lia].
  - eapply (report_inv y y' p); try done; [by rewrite Hold, Hq, Hnew|simpl; congruence|by right|].
    apply (inv_sent c y Hi).
Qed.

Lemma choosePacket_spec (poll : bool) (q : option queuedPacket) (cover : bytes) (r : Result bytes)
    (kind : PacketKind) (packet : bytes) :
  (poll = true → q = None) → blen cover = PacketBytes c →
  (∀ p, q = Some p → blen (q_packet p) = PacketBytes c) →
  choosePacket c poll q cover r = Ok (kind, packet) →
  blen packet = PacketBytes c ∧ (kind = Poll ↔ poll = true) ∧
  (∀ p, kind = Real p ↔ q = Some p) ∧ (∀ p, kind = Real p → packet = q_packet p).
Proof.
  unfold choosePacket, validatePrepared. intros Hpq Hcov Hq H.
  destruct poll; [rewrite Hpq in * by done; destruct r; [|done]; destruct (negb _) eqn:E; [done|]; unbool|destruct q];
    apply (inj Ok) in H; simplify_eq; split_and!; eauto; try done; naive_solver.
Qed.

Lemma step_send_inv (y : System) (next now begun sentAt : Time) (poll : bool) (q : option queuedPacket) (cover : bytes)
    (pollR : Result bytes) (sendErr : option error) (elapsed until : Duration) (h' : Heap) (new : list Sent)
    (err : option error) :
  inv c y → runner y = Sending next now begun poll q cover →
  finishSlot (config (sch y)) (heap y) now poll q cover pollR sentAt sendErr elapsed = (h', new, err) →
  inv c {| sch := sch y; heap := h'; calls := calls y; accepted := accepted y;
           runner := afterSlot (TAdd next (SlotInterval (config (sch y)))) err until;
           started := started y; sent := sent y ++ new |}.
Proof.
  intros Hi Hr Hfin. pose proof (inv_config c y Hi) as Hc. rewrite Hc in *.
  pose proof (inv_runner c y Hi) as Hrun. unfold runner_ok in Hrun. rewrite Hr in Hrun.
  destruct Hrun as (Hlive & Hslots & Hdue & Htime & _ & Hpoll & Hpq & Hexp & Hcov).
  assert (Hold : pending y = option_list q ++ queue (sch y)) by (unfold pending; rewrite Hr; by destruct q).
  assert (Hqs : ∀ p, q = Some p → blen (q_packet p) = PacketBytes c).
  { intros p ->. apply (inv_pending c y Hi). rewrite Hold. set_solver. }
  unfold finishSlot in Hfin. destruct (choosePacket _ _ _ _ _) as [[kind packet]|e] eqn:Hch.
  2: { injection Hfin as <- <- <-. assert (q = None) as ->.
       { destruct poll; [by apply Hpq|]. unfold choosePacket in Hch. by destruct q. }
       rewrite app_nil_r. apply (set_runner_inv y (Failing e)); [done|by rewrite Hr|done]. }
  destruct (choosePacket_spec poll q cover pollR kind packet Hpq Hcov Hqs Hch) as (Hsize & Hkp & Hkr & Hkq).
  set (serr := match sendErr with Some _ => _ | None => _ end) in Hfin. injection Hfin as <- <- <-.
  set (x := {| t_now := now |}). set (y' := {| sch := sch y |}).
  assert (Hslot : slot_ok c (started y) (length (sent y)) x).
  { split; cbn [x t_packet t_now t_kind]; try done.
    - rewrite Hkp, Hpoll, Z.eqb_eq, Hslots. done.
    - intros p Hk. split; [by apply Hkq|]. by apply Hexp, Hkr. }
  assert (Hsent' : ∀ i z, sent y' !! i = Some z → slot_ok c (started y') i z).
  { intros i z [Hz|[Hi' Hz]]%lookup_app_Some; [by apply (inv_sent c y Hi)|].
    apply list_lookup_singleton_Some in Hz as [Hz <-]. by replace i with (length (sent y)) by lia. }
  assert (Hok' : runner_ok c y').
  { unfold runner_ok. cbn [y' sch runner started sent]. rewrite length_app. cbn [length].
    destruct serr as [e|]; cbn [afterSlot fmap option_fmap option_map]; [done|]. destruct (until <=? 0); [done|].
    split; [done|]. split; [|unfold TAdd; lia]. rewrite Hslots. f_equal. lia. }
  assert (Hnew : pending y' = queue (sch y)).
  { unfold pending. cbn [y' sch runner]. unfold afterSlot. by destruct (fmap _ serr); [|destruct (_ <=? _)]. }
  destruct q as [p|].
  - eapply (report_inv y y' p); try done; [by rewrite Hold, Hnew|].
    left. cbn [y' sent]. rewrite reals_app. cbn. unfold real_chan. cbn [x t_kind].
    by rewrite (proj2 (Hkr p) eq_refl).
  - assert (Hp : pending y' = pending y) by (by rewrite Hold, Hnew).
    assert (Hw : waiting y' = waiting y) by (unfold waiting; by rewrite Hp).
    assert (Hre : reals (sent y') = reals (sent y)).
    { cbn [y' sent]. rewrite reals_app. cbn. unfold real_chan. cbn [x t_kind].
      destruct kind as [| |p]; [by rewrite app_nil_r..|]. discriminate (proj1 (Hkr p) eq_refl). }
    destruct Hi as [_ Hcalls Hroom Hord Htk Hpend Hreal Hdone _ Hsent].
    split; rewrite ?Hp, ?Hw, ?Hre; done.
Qed.

(** Telling every queued packet that the run has ended. *)
Lemma fail_heap (e : error) (l : list queuedPacket) (h : Heap) :
  NoDup (q_result <$> l) → (∀ q, q ∈ l → h !! q_result q = Some []) →
  let h' := foldl (λ h q, chan_send h (q_result q)
    {| d_RequestID := q_requestID q; d_SentAt := 0; d_Err := Some e |}) h l in
  length h' = length h ∧
  (∀ ch, ch ∉ q_result <$> l → h' !! ch = h !! ch) ∧
  (∀ ch, ch ∈ q_result <$> l → ∃ r, h' !! ch = Some [r] ∧ d_Err r = Some e).
Proof.
  revert h. induction l as [|q l IH]; intros h Hnd Hempty; simpl.
  { split_and!; try done. by intros ch ?%elem_of_nil. }
  rewrite fmap_cons in Hnd. apply list.NoDup_cons in Hnd as [Hq Hnd].
  set (r := {| d_RequestID := q_requestID q; d_SentAt := 0; d_Err := Some e |}).
  destruct (IH (chan_send h (q_result q) r)) as (Hlen & Hother & Hin); [done| |].
  { intros p Hp. rewrite chan_send_other; [by apply Hempty, list_elem_of_further|].
    intros E. apply Hq. rewrite E. by apply list_elem_of_fmap_2. }
  split_and!.
  - by rewrite Hlen, chan_send_length.
  - intros ch [Hne Hni]%not_elem_of_cons. rewrite Hother by done. by apply chan_send_other.
  - intros ch [-> |Hch]%elem_of_cons; [|by apply Hin]. exists r. rewrite Hother by done.
    split; [|done]. apply chan_send_first, Hempty, list_elem_of_here.
Qed.

Lemma step_drain_inv (y : System) (e : error) (s' : Scheduler) (h' : Heap) :
  inv c y → runner y = Draining e → failQueued (sch y) (heap y) e = (s', h') →
  inv c {| sch := s'; heap := h'; calls := calls y; accepted := accepted y;
           runner := Stopped e; started := started y; sent := sent y |}.
Proof.
  intros [Hc Hcalls Hroom Hord [Hlt Hnd] Hpend Hreal Hdone Hrun Hsent] Hr Hf.
  assert (Hold : pending y = queue (sch y)) by (unfold pending; by rewrite Hr).
  assert (Hw : waiting y = q_result <$> queue (sch y)) by (unfold waiting; by rewrite Hold).
  injection Hf as <- <-.
  destruct (fail_heap e (queue (sch y)) (heap y)) as (Hlen & Hother & Hin).
  { rewrite <- Hw. apply sorted_lt_nodup in Hord. by apply list.NoDup_app in Hord as (_ & _ & ?). }
  { intros q Hq. rewrite <- Hold in Hq. by apply Hpend. }
  set (hf := foldl _ _ _) in *. set (y' := {| sch := _ |}).
  assert (Hord' : StronglySorted lt (reals (sent y))) by (by eapply StronglySorted_app_1_l).
  split; cbn [y' sch heap calls tickets runner started sent set_queue config queue reservations]; try done.
  - simpl. lia.
  - unfold waiting, pending. cbn [y' sch runner inflight set_queue queue app fmap list_fmap]. by rewrite app_nil_r.
  - rewrite Hlen. done.
  - by intros q ?%elem_of_nil.
  - intros ch Hch _. destruct (decide (ch ∈ waiting y)) as [Hin'|Hni].
    + rewrite Hw in Hin'. destruct (Hin ch Hin') as (r & ? & ?). exists r. split; [done|congruence].
    + destruct (Hdone ch Hch Hni) as (r & ? & ?). exists r. split; [|done]. rewrite Hw in Hni. by rewrite Hother.
  - revert Hrun. unfold runner_ok. rewrite Hr. done.
Qed.

Lemma step_inv (y y' : System) : step y y' → inv c y → inv c y'.
Proof.
  intros Hst Hi. pose proof (inv_runner c y Hi) as Hrun. destruct Hst.
  - by eapply step_reserve_inv.
  - by eapply step_finish_inv.
  - by apply step_start_inv.
  - apply set_runner_inv; [done|by rewrite H|]. unfold runner_ok in *. rewrite H in Hrun. by destruct Hrun.
  - apply set_runner_inv; [done|by rewrite H|]. unfold runner_ok in *. rewrite H in Hrun. by destruct Hrun.
  - apply set_runner_inv; [done|by rewrite H|]. unfold runner_ok in *. rewrite H in Hrun. by destruct Hrun.
  - by eapply step_slot_inv.
  - by eapply step_send_inv.
  - destruct Hi as [Hc Hcalls Hroom Hord Htk Hpend Hreal Hdone _ Hsent].
    assert (Hp : pending y = queue (sch y)) by (unfold pending; by rewrite H).
    unfold waiting in *. rewrite Hp in *. by split.
  - by eapply step_drain_inv.
Qed.

Lemma steps_inv (y y' : System) : rtc step y y' → inv c y → inv c y'.
Proof. induction 1; [done|]. eauto using step_inv. Qed.

(** ** Where packets come from *)








(** ** When packets are sent *)






End Preservation.

(** * Theorems *)

Section Theorems.
Context {MC : Marshaler Command} {DC : StrictDecoder Command}.

Lemma reachable_inv (c : Config) (p : option PacketSecurity) (l : option LinkSecurity) (s : Scheduler) (y : System) :
  NewScheduler c p l = Ok s → rtc step (initial s) y → validConfig (config s) = true ∧ inv (config s) y.
Proof. intros [? ?]%initial_inv ?. split; [done|]. by eapply steps_inv. Qed.



(** C7. Every accepted command is accounted for once: the queue and the calls in
    progress never exceed the configured bound; a ticket's channel gets at most
    one result, so that no send on it blocks; packets go out in the order they
    were accepted and none twice; a result without error means the packet was
    handed to the link; and when the loop has stopped every ticket has its
    result and no later call is accepted. *)
Theorem tickets_once (c : Config) (p : option PacketSecurity) (l : option LinkSecurity) (s : Scheduler) (y : System) :
  NewScheduler c p l = Ok s → rtc step (initial s) y →
  (Z.of_nat (length (queue (sch y)) + length (calls y)) ≤ MaxQueue (config s) ≤ 4096) ∧
  StronglySorted lt (reals (sent y)) ∧
  (∀ ch, ch ∈ tickets y →
     heap y !! ch = Some [] ∨
     ∃ r, heap y !! ch = Some [r] ∧ (d_Err r = None → ch ∈ reals (sent y))) ∧
  (∀ e, runner y = Stopped e →
     (∀ ch, ch ∈ tickets y → ∃ r, heap y !! ch = Some [r]) ∧
     ∀ command now, ∃ e', reserve (sch y) command now = Err e').
Proof.
  intros Hs Hrun. destruct (reachable_inv c p l s y Hs Hrun) as [Hv Hi].
  apply validConfig_spec in Hv as (_ & _ & _ & Hq & _).
  destruct Hi as [Hc Hcalls Hroom Hord Htk Hpend Hreal Hdone Hok Hsent]. split_and!.
  - lia.
  - lia.
  - by eapply StronglySorted_app_1_l.
  - intros ch Hch. destruct (decide (ch ∈ waiting y)) as [(q & -> & Hin)%list_elem_of_fmap|Hni].
    + left. by apply Hpend.
    + right. by apply Hdone.
  - intros e Hr. unfold runner_ok in Hok. rewrite Hr in Hok. destruct Hok as [[_ Hte] Hempty]. split.
    + intros ch Hch. destruct (Hdone ch Hch) as (r & ? & _); [|eauto].
      unfold waiting, pending. rewrite Hr, Hempty. apply not_elem_of_nil.
    + intros command now. unfold reserve. rewrite Hte. destruct (ValidateCommand _ _); eauto.
Qed.

(** Calls that nothing interleaves with are runs of steps. *)
Lemma Enqueue_run (PrepareReal : bytes → Z → Result bytes) (y : System) (command : Command) (now : Time)
    (s' : Scheduler) (h' : Heap) (ch : Chan) :
  calls y = [] → Enqueue PrepareReal (sch y) (heap y) command now = (s', h', Ok ch) →
  rtc step y {| sch := s'; heap := h'; calls := []; accepted := accepted y ++ [(ch, command)];
                runner := runner y; started := started y; sent := sent y |}.
Proof.
  intros Hc. unfold Enqueue. destruct (reserve _ _ _) as [s|] eqn:Hr; [|done]. intros Hf.
  eapply rtc_l; [by eapply step_reserve|]. rewrite Hc. set (y1 := {| sch := s |}).
  apply rtc_once. exact (step_finish y1 PrepareReal [] command now [] s' h' (Ok ch) eq_refl Hf).
Qed.

Lemma dispatchSlot_run (y : System) (next now begun sentAt ended after : Time) (cover poll : Result bytes)
    (sendErr err : option error) (s' : Scheduler) (h' : Heap) (new : list Sent) :
  runner y = Waiting next → next ≤ now → now ≤ begun → begun ≤ sentAt → sentAt ≤ ended → ended ≤ after →
  TSub now next ≤ MaxLateness (config (sch y)) →
  dispatchSlot (sch y) (heap y) now cover poll sentAt sendErr (TSub ended begun) = (s', h', new, err) → new ≠ [] →
  let next' := TAdd next (SlotInterval (config s')) in
  rtc step y {| sch := s'; heap := h'; calls := calls y; accepted := accepted y;
                runner := afterSlot next' err (TSub next' after);
                started := started y; sent := sent y ++ new |}.
Proof.
  intros Hr Hn Hb Hs He Ha Hl. unfold dispatchSlot. destruct (prepareCover _ _) as [pk|] eqn:Hp; [|by intros; simplify_eq].
  destruct (takeSlot _ _ _) as [[[s1 h1] b] q] eqn:Ht.
  destruct (finishSlot _ _ _ _ _ _ _ _ _ _) as [[h2 tr] er] eqn:Hf. intros [= <- <- <- <-] _.
  eapply rtc_l; [by eapply step_slot|]. set (y1 := {| sch := s1 |}). apply rtc_once.
  exact (step_send y1 next now begun b q pk poll sentAt ended after sendErr h2 tr er eq_refl Hs He Ha Hf).
Qed.

(** [encoding/json] reads back the commands it writes. *)
Definition command_roundtrip : Prop :=
  ∀ (command : Command) (now : Time) (b : bytes),
    ValidateCommand command now = None → Marshal command = Ok b → decodeStrict b = Ok command.

(** A new command is usable for its whole lifetime: with a lifetime of at least a
    millisecond, it validates from five minutes before its creation to its
    expiry, and what [EncodeCommand] produces at one such time [DecodeCommand]
    reads back at another. *)
Theorem command_lifecycle (rand : Z → Result bytes) (kind : string) (payload : bytes) (now t t' : Time)
    (lifetime : Duration) (command : Command) (encoded : bytes) :
  command_roundtrip → (∀ b, rand RequestIDBytes = Ok b → blen b = RequestIDBytes) →
  Millisecond ≤ now → Millisecond ≤ lifetime →
  NewCommand rand kind payload now lifetime = Ok command →
  now - 5 * Minute ≤ t ≤ c_ExpiresAt command → now - 5 * Minute ≤ t' ≤ c_ExpiresAt command →
  ValidateCommand command t = None ∧
  (EncodeCommand command t = Ok encoded → DecodeCommand encoded t' = Ok command).
Proof.
  intros Hjson Hrand Hnow Hlife Hnew Ht Ht'.
  assert (Hv : ∀ t, now - 5 * Minute ≤ t ≤ c_ExpiresAt command → ValidateCommand command t = None).
  { intros u Hu. unfold NewCommand in Hnew. destruct (_ || _)%bool eqn:Hg; [done|].
    destruct (rand _) as [rid|] eqn:Hr; [|done]. apply (inj Ok) in Hnew as <-.
    specialize (Hrand rid eq_refl). unfold ValidateCommand.
    cbn [c_Version c_RequestID c_Kind c_Payload c_CreatedAt c_ExpiresAt] in *.
    unfold Truncate, After, TAdd, TSub, IsZero, validRequestID, MaxCommandLifetime, Minute, Second, Millisecond in *.
    rewrite Base64_encode_slen, Hrand, Z.eqb_refl, Base64_decode_encode, Hrand, Z.eqb_refl. cbn [negb].
    unbool. destruct (_ || _)%bool eqn:E; [exfalso|done].
    repeat (apply orb_true_iff in E as [E|E]); unbool; try congruence; div_lia. }
  split; [by apply Hv|]. unfold EncodeCommand, DecodeCommand. rewrite (Hv t Ht).
  destruct (Marshal command) as [b|] eqn:Hm; [|done]. destruct (_ || _)%bool eqn:Hsz; [done|].
  intros <-%(inj Ok). rewrite Hsz, (Hjson command t b) by (done || by apply Hv). by rewrite Hv.
Qed.

End Theorems.

(** * Witnesses *)

Module Sample.

#[export] Instance marshal_command : Marshaler Command := λ c,
  Ok (ToyCodec.put (c_Version c) (ToyCodec.put (c_RequestID c) (ToyCodec.put (c_Kind c)
       (ToyCodec.put (c_CreatedAt c) (ToyCodec.put (c_ExpiresAt c) (ToyCodec.put (c_Payload c) [])))))).

#[export] Instance decode_command : StrictDecoder Command := λ b,
  match ('(v, b) ← ToyCodec.get b; '(id, b) ← ToyCodec.get b; '(kind, b) ← ToyCodec.get b;
         '(c, b) ← ToyCodec.get b; '(e, b) ← ToyCodec.get b; '(p, b) ← ToyCodec.get b;
         Some {| c_Version := v; c_RequestID := id; c_Kind := kind; c_CreatedAt := c; c_ExpiresAt := e;
                 c_Payload := p |}) with
  | Some c => Ok c
  | None => Err "bad command"
  end.

Lemma roundtrip : command_roundtrip.
Proof.
  intros c now b _ H. apply (inj Ok) in H as <-. unfold decodeStrict, decode_command.
  do 6 (rewrite ToyCodec.get_put; cbn [mbind option_bind]). by destruct c.
Qed.

Definition now : Time := (unix_epoch_seconds + 1764403200) * Second.
Definition rand (n : Z) : Result bytes := Ok (replicate (Z.to_nat n) x05).
Definition noConfig : Config :=
  {| PacketBytes := 0; SlotInterval := 0; PollEverySlots := 0; MaxQueue := 0; MaxLateness := 0; DispatchBudget := 0 |}.
Definition provider : PacketSecurity :=
  {| ps_Protocol := "sphinx"; ps_IndependentAudit := "audit"; ps_MinimumMixHops := 3; ps_FixedLengthPackets := true;
     ps_LayeredMixing := true; ps_PerHopAuthentication := true; ps_ReplayProtection := true;
     ps_UniformReplies := true; ps_PostQuantumHybridOnion := true; ps_ForwardSecureRoutingKeys := true |}.
Definition link : LinkSecurity :=
  {| ls_Protocol := "quic"; ls_IndependentAudit := "audit"; ls_AuthenticatedEntry := true;
     ls_PersistentConnection := true; ls_FixedLengthFrames := true; ls_PostQuantumHybridKEX := true;
     ls_NoRedirects := true |}.
Definition scheduler : Scheduler :=
  {| config := withDefaults noConfig; queue := []; reservations := 0; slots := 0; running := false;
     terminalErr := None |}.
Definition packet : bytes := replicate 8192 x00.

Lemma packet_size : blen packet = 8192.
Proof. vm_compute. reflexivity. Qed.

Lemma created : NewScheduler noConfig (Some provider) (Some link) = Ok scheduler.
Proof. vm_compute. reflexivity. Qed.

Definition command : Command := Eval vm_compute in
  ok_or {| c_Version := 0; c_RequestID := ""; c_Kind := ""; c_CreatedAt := 0; c_ExpiresAt := 0; c_Payload := [] |}
    (NewCommand rand KindStore [x01] now Minute).

Lemma new_command : NewCommand rand KindStore [x01] now Minute = Ok command.
Proof. vm_compute. reflexivity. Qed.

(** A command accepted, sent in the first slot, and the loop then cancelled. *)
Lemma stopped (real cover : bytes) : blen real = 8192 → blen cover = 8192 →
  ∃ y x e, rtc step (initial scheduler) y ∧ sent y !! 0%nat = Some x ∧ tickets y = [0%nat] ∧
  runner y = Stopped e.
Proof.
  intros Hreal Hcover.
  assert (Hq := Enqueue_run (λ _ _, Ok real) (initial scheduler) command now).
  destruct (Enqueue _ _ _ _ _) as [[s1 h1] r1] eqn:E1.
  unfold Enqueue, finishEnqueue, prepare, validatePrepared in E1. rewrite Hreal in E1.
  vm_compute in E1. injection E1 as <- <- <-. specialize (Hq _ _ 0%nat eq_refl eq_refl).
  eexists _, _, "context canceled"%string. split; [etrans; [exact Hq|]|].
  - eapply rtc_l; [eapply (step_start _ now); reflexivity|]. set (y1 := {| started := now |}).
    set (t := now + 5 * Second). assert (Hd := dispatchSlot_run y1 t t t t t t (Ok cover) (Ok cover) None None).
    destruct (dispatchSlot _ _ _ _ _ _ _ _) as [[[s2 h2] new] err] eqn:E2.
    unfold dispatchSlot, prepareCover, validatePrepared in E2. rewrite Hcover in E2.
    vm_compute in E2. injection E2 as <- <- <- <-.
    specialize (Hd _ _ _ eq_refl (Z.le_refl _) (Z.le_refl _) (Z.le_refl _) (Z.le_refl _) (Z.le_refl _)
      ltac:(vm_compute; discriminate) eq_refl ltac:(discriminate)).
    etrans; [exact Hd|].
    eapply rtc_l; [eapply (step_cancel _ _ "context canceled"); reflexivity|].
    eapply rtc_l; [eapply step_end; reflexivity|].
    eapply rtc_l; [eapply step_drain; reflexivity|]. apply rtc_refl.
  - split_and!; reflexivity.
Qed.

End Sample.

#[local] Existing Instances Sample.marshal_command Sample.decode_command.


Lemma tickets_once_witness :
  ∃ y r, rtc step (initial Sample.scheduler) y ∧ heap y !! 0%nat = Some [r].
Proof.
  destruct (Sample.stopped _ _ Sample.packet_size Sample.packet_size) as (y & x & e & Hrun & _ & Ht & Hr).
  destruct (tickets_once Sample.noConfig (Some Sample.provider) (Some Sample.link) Sample.scheduler y
    Sample.created Hrun) as (_ & _ & _ & H).
  destruct (H e Hr) as [Hall _]. destruct (Hall 0%nat) as [r Hh]; [rewrite Ht; apply list_elem_of_here|].
  exists y, r. split; assumption.
Defined.

Lemma command_lifecycle_witness : ValidateCommand Sample.command (Sample.now + Second) = None.
Proof.
  destruct (command_lifecycle Sample.rand KindStore [x01] Sample.now (Sample.now + Second) Sample.now Minute
    Sample.command [] Sample.roundtrip) as [H _];
    [intros b Hb; apply (inj Ok) in Hb as <-; reflexivity|vm_compute; discriminate|vm_compute; discriminate|
     exact Sample.new_command|split; vm_compute; discriminate|split; vm_compute; discriminate|exact H].
Defined.

End Mix.
