(* ===== verification/Directory.v ===== *)
(** The node directory (src/nodedir): signed announcements, attestations by pinned
    authorities, the registry that merges them, and the agent that renews, admits
    and synchronises. HTTP exchanges are arguments: what the other side answered.
    The [clone] functions of the source copy values and are the identity here. *)
From stdpp Require Import pretty.
From S2P Require Import Prelude Sha256 Encoding Protocol Crypto Files.
Local Open Scope Z_scope.

Module Directory.

(** * net/netip *)

(** An IP address: 32 bits, or 128 bits with a zone. *)
Inductive Addr := V4 (a : Z) | V6 (a : Z) (zone : string).

#[export] Instance Addr_eq_dec : EqDecision Addr.
Proof. solve_decision. Defined.

(** The leading [bits] of an address of [width] bits. *)
Definition in_prefix (width a prefix bits : Z) : bool :=
  Z.shiftr a (width - bits) =? Z.shiftr prefix (width - bits).

Definition v4 (a b c d : Z) : Z := ((a * 256 + b) * 256 + c) * 256 + d.

(** ::ffff:0:0/96 *)
Definition mapped_prefix : Z := Z.shiftl 65535 32.
Definition Is4In6 (ip : Addr) : bool :=
  match ip with V4 _ => false | V6 a _ => in_prefix 128 a mapped_prefix 96 end.
Definition Unmap (ip : Addr) : Addr :=
  match ip with V4 _ => ip | V6 a _ => if Is4In6 ip then V4 (a `mod` 2 ^ 32) else ip end.

Definition Zone (ip : Addr) : string := match ip with V4 _ => "" | V6 _ z => z end.
Definition IsUnspecified (ip : Addr) : bool := bool_decide (ip = V4 0) || bool_decide (ip = V6 0 "").
Definition IsLoopback (ip : Addr) : bool :=
  match Unmap ip with V4 a => in_prefix 32 a (v4 127 0 0 0) 8 | V6 a _ => a =? 1 end.
Definition IsMulticast (ip : Addr) : bool :=
  match Unmap ip with
  | V4 a => in_prefix 32 a (v4 224 0 0 0) 4
  | V6 a _ => in_prefix 128 a (Z.shiftl 65280 112) 8
  end.
Definition IsLinkLocalUnicast (ip : Addr) : bool :=
  match Unmap ip with
  | V4 a => in_prefix 32 a (v4 169 254 0 0) 16
  | V6 a _ => in_prefix 128 a (Z.shiftl 65152 112) 10
  end.
Definition IsLinkLocalMulticast (ip : Addr) : bool :=
  match Unmap ip with
  | V4 a => in_prefix 32 a (v4 224 0 0 0) 24
  | V6 a _ => Z.land (Z.shiftr a 112) 65295 =? 65282
  end.
Definition IsPrivate (ip : Addr) : bool :=
  match Unmap ip with
  | V4 a => in_prefix 32 a (v4 10 0 0 0) 8 || in_prefix 32 a (v4 172 16 0 0) 12 ||
            in_prefix 32 a (v4 192 168 0 0) 16
  | V6 a _ => in_prefix 128 a (Z.shiftl 64512 112) 7
  end.
Definition IsGlobalUnicast (ip : Addr) : bool :=
  negb (bool_decide (ip = V4 0) || bool_decide (ip = V4 (v4 255 255 255 255))) &&
  negb (bool_decide (ip = V6 0 "")) && negb (IsLoopback ip) && negb (IsMulticast ip) &&
  negb (IsLinkLocalUnicast ip).

(** A prefix contains only zoneless addresses of its own family. *)
Inductive Prefix := P4 (a bits : Z) | P6 (a bits : Z).
Definition Contains (p : Prefix) (ip : Addr) : bool :=
  match p, ip with
  | P4 a bits, V4 x => in_prefix 32 x a bits
  | P6 a bits, V6 x zone => bool_decide (zone = ""%string) && in_prefix 128 x a bits
  | _, _ => false
  end.

(** The text form of addresses; parsing reads back what printing writes. *)
Class Netip := {
  ParseAddr : string → option Addr;
  AddrString : Addr → string;
}.

(** * Data *)

Definition ProtocolVersion : Z := 1.
Definition ChallengeBytes : Z := 32.
Definition MaxDirectoryNodes : Z := 512.
Definition MaxAttestations : Z := 16.
Definition MaxSnapshotBytes : Z := 16 * 1024 * 1024.
Definition MaxRegistrationBytes : Z := 256 * 1024.
Definition MinLease : Duration := 10 * Minute.
Definition MaxLease : Duration := 2 * Hour.
Definition MaxClockSkew : Duration := 5 * Minute.
Definition MaxSeedFileBytes : Z := 1024 * 1024.

Definition announcementDomain : string := "node-directory-announcement".
Definition attestationDomain : string := "node-directory-attestation".
Definition snapshotDomain : string := "node-directory-snapshot".
Definition challengeDomain : string := "node-directory-challenge".

Record Endpoint := { e_Scheme : string; e_IP : string; e_Port : Z (* uint16 *) }.

#[export] Instance Endpoint_eq_dec : EqDecision Endpoint.
Proof. solve_decision. Defined.

Record PinnedNode := { pn_Identity : NodePublicIdentity; pn_Endpoint : Endpoint }.

Record Announcement := {
  an_Version : Z;  (* uint8 *)
  an_Identity : NodePublicIdentity;
  an_Endpoint : Endpoint;
  an_Sequence : Z;  (* uint64 *)
  an_IssuedAt : Time;
  an_ExpiresAt : Time;
  an_Signature : HybridSignature;
}.

Record Attestation := {
  at_Version : Z;  (* uint8 *)
  at_AuthorityID : string;
  at_AnnouncementHash : bytes;
  at_ObservedAt : Time;
  at_ExpiresAt : Time;
  at_Signature : HybridSignature;
}.

Record Record_ := { r_Announcement : Announcement; r_Attestations : list Attestation }.

Record Snapshot := {
  sn_Version : Z;  (* uint8 *)
  sn_Publisher : NodePublicIdentity;
  sn_GeneratedAt : Time;
  sn_Records : list Record_;
  sn_Signature : HybridSignature;
}.

Record ChallengeResponse := {
  ch_Version : Z;  (* uint8 *)
  ch_NodeID : string;
  ch_Nonce : bytes;
  ch_CreatedAt : Time;
  ch_Signature : HybridSignature;
}.

Record Policy := {
  p_Seeds : list PinnedNode;
  p_AuthorityQuorum : Z;
  p_AllowPrivateIPs : bool;
  p_MaxNodes : Z;
}.

#[export] Instance Announcement_eq_dec : EqDecision Announcement.
Proof. solve_decision. Defined.
#[export] Instance Attestation_eq_dec : EqDecision Attestation.
Proof. solve_decision. Defined.
#[export] Instance Record__eq_dec : EqDecision Record_.
Proof. solve_decision. Defined.

Definition r_NodeID (r : Record_) : string := ni_NodeID (an_Identity (r_Announcement r)).

(** * Signed bytes *)

Definition writeUint16 (buf : bytes) (v : Z) : bytes := buf ++ be_encode 2 v.
Definition writeUint32 (buf : bytes) (v : Z) : bytes := buf ++ be_encode 4 v.
Definition writeUint64 (buf : bytes) (v : Z) : bytes := buf ++ be_encode 8 v.

Definition writeIdentity (buf : bytes) (identity : NodePublicIdentity) : bytes :=
  let buf := writeString buf (ni_NodeID identity) in
  let buf := writeBytes buf (ni_Ed25519Public identity) in
  let buf := writeBytes buf (ni_MLDSA65Public identity) in
  writeByte buf (ni_ProtocolVersion identity).

Definition signatureBytes (signature : HybridSignature) : bytes :=
  writeBytes (writeBytes [] (hs_Ed25519 signature)) (hs_MLDSA65 signature).

Definition announcementSigningBytes (a : Announcement) : bytes :=
  let buf := writeByte [] (an_Version a) in
  let buf := writeIdentity buf (an_Identity a) in
  let buf := writeString buf (e_Scheme (an_Endpoint a)) in
  let buf := writeString buf (e_IP (an_Endpoint a)) in
  let buf := writeUint16 buf (e_Port (an_Endpoint a)) in
  let buf := writeUint64 buf (an_Sequence a) in
  let buf := writeTime buf (an_IssuedAt a) in
  writeTime buf (an_ExpiresAt a).

Definition attestationSigningBytes (a : Attestation) : bytes :=
  let buf := writeByte [] (at_Version a) in
  let buf := writeString buf (at_AuthorityID a) in
  let buf := writeBytes buf (at_AnnouncementHash a) in
  let buf := writeTime buf (at_ObservedAt a) in
  writeTime buf (at_ExpiresAt a).

Definition challengeSigningBytes (r : ChallengeResponse) : bytes :=
  let buf := writeByte [] (ch_Version r) in
  let buf := writeString buf (ch_NodeID r) in
  let buf := writeBytes buf (ch_Nonce r) in
  writeTime buf (ch_CreatedAt r).

Definition snapshotSigningBytes (s : Snapshot) : bytes :=
  let buf := writeByte [] (sn_Version s) in
  let buf := writeIdentity buf (sn_Publisher s) in
  let buf := writeTime buf (sn_GeneratedAt s) in
  let buf := writeUint32 buf (u32 (blen (sn_Records s))) in
  foldl (λ buf r,
    let buf := writeBytes buf (announcementSigningBytes (r_Announcement r)) in
    let buf := writeBytes buf (signatureBytes (an_Signature (r_Announcement r))) in
    let buf := writeUint16 buf (blen (r_Attestations r)) in
    foldl (λ buf a,
      let buf := writeBytes buf (attestationSigningBytes a) in
      writeBytes buf (signatureBytes (at_Signature a))) buf (r_Attestations r))
    buf (sn_Records s).

(** The hash input of [AnnouncementHash]. *)
Definition announcementPreimage (a : Announcement) : bytes :=
  announcementSigningBytes a ++ signatureBytes (an_Signature a).
Definition AnnouncementHash (a : Announcement) : bytes := Sha256.Sum256 (announcementPreimage a).

#[global] Arguments AnnouncementHash : simpl never.
#[global] Arguments announcementSigningBytes : simpl never.
#[global] Arguments attestationSigningBytes : simpl never.
#[global] Arguments snapshotSigningBytes : simpl never.

(** * Endpoints *)

Definition nonPublicPrefixes : list Prefix :=
  [P4 (v4 0 0 0 0) 8; P4 (v4 100 64 0 0) 10; P4 (v4 192 0 0 0) 24; P4 (v4 192 0 2 0) 24;
   P4 (v4 198 18 0 0) 15; P4 (v4 198 51 100 0) 24; P4 (v4 203 0 113 0) 24; P4 (v4 240 0 0 0) 4;
   P6 (Z.shiftl 256 112) 64; P6 (Z.shiftl 536939960 96) 32].

Definition publicRoutable (address : Addr) : bool :=
  if negb (IsGlobalUnicast address) || IsPrivate address || IsLoopback address then false
  else negb (existsb (λ p, Contains p address) nonPublicPrefixes).

Section Code.
Context `{C : Crypto} {NI : Netip}.

Definition validateEndpoint (endpoint : Endpoint) (allowPrivate : bool) : Result Endpoint :=
  if negb (bool_decide (e_Scheme endpoint = "https"%string)) && negb (bool_decide (e_Scheme endpoint = "http"%string)) ||
     (e_Port endpoint =? 0)
  then Err "invalid node endpoint transport"
  else match ParseAddr (e_IP endpoint) with
  | None => Err "node endpoint must contain a usable literal IP"
  | Some address =>
      if negb (bool_decide (Zone address = ""%string)) || IsUnspecified address || IsMulticast address ||
         IsLinkLocalUnicast address || IsLinkLocalMulticast address
      then Err "node endpoint must contain a usable literal IP"
      else
        let address := Unmap address in
        if bool_decide (e_Scheme endpoint = "http"%string) &&
           negb (allowPrivate && (IsPrivate address || IsLoopback address))
        then Err "plain HTTP is restricted to private development endpoints"
        else if negb allowPrivate && negb (publicRoutable address)
        then Err "private node endpoint is disabled"
        else Ok {| e_Scheme := e_Scheme endpoint; e_IP := AddrString address; e_Port := e_Port endpoint |}
  end.

(** [err == nil && canonical == endpoint]. *)
Definition canonicalEndpoint (endpoint : Endpoint) (allowPrivate : bool) : bool :=
  match validateEndpoint endpoint allowPrivate with
  | Ok canonical => bool_decide (canonical = endpoint)
  | Err _ => false
  end.

(** * Policies *)

Fixpoint checkSeeds (allowPrivateIPs : bool) (seen : gset string) (seeds : list PinnedNode) : option error :=
  match seeds with
  | [] => None
  | seed :: seeds =>
      if negb (ValidPublicIdentity (pn_Identity seed)) then Some "invalid pinned seed identity"%string
      else if negb (canonicalEndpoint (pn_Endpoint seed) allowPrivateIPs)
      then Some "invalid or non-canonical pinned seed endpoint"%string
      else if bool_decide (ni_NodeID (pn_Identity seed) ∈ seen) then Some "duplicate pinned seed identity"%string
      else checkSeeds allowPrivateIPs ({[ni_NodeID (pn_Identity seed)]} ∪ seen) seeds
  end.

Definition NewPolicy (seeds : list PinnedNode) (authorityQuorum : Z) (allowPrivateIPs : bool) (maxNodes : Z)
  : Result Policy :=
  if (blen seeds =? 0) || (MaxAttestations <? blen seeds) || (authorityQuorum <=? 0) || (blen seeds <? authorityQuorum)
  then Err "invalid directory seed quorum"
  else
    let maxNodes := if maxNodes =? 0 then MaxDirectoryNodes else maxNodes in
    if (maxNodes <=? 0) || (MaxDirectoryNodes <? maxNodes) then Err "invalid directory node limit"
    else match checkSeeds allowPrivateIPs ∅ seeds with
    | Some e => Err e
    | None => Ok {| p_Seeds := seeds; p_AuthorityQuorum := authorityQuorum;
                    p_AllowPrivateIPs := allowPrivateIPs; p_MaxNodes := maxNodes |}
    end.

Definition pinned (policy : Policy) (nodeID : string) : option PinnedNode :=
  List.find (λ seed, bool_decide (ni_NodeID (pn_Identity seed) = nodeID)) (p_Seeds policy).

Definition sameIdentity (left right : NodePublicIdentity) : bool :=
  bool_decide (ni_NodeID left = ni_NodeID right) && (ni_ProtocolVersion left =? ni_ProtocolVersion right) &&
  bytes_equal (ni_Ed25519Public left) (ni_Ed25519Public right) &&
  bytes_equal (ni_MLDSA65Public left) (ni_MLDSA65Public right).

Definition Authority (policy : Policy) (identity : NodePublicIdentity) : bool :=
  match pinned policy (ni_NodeID identity) with
  | Some seed => sameIdentity (pn_Identity seed) identity
  | None => false
  end.

Definition isPinned (policy : Policy) (a : Announcement) : bool :=
  match pinned policy (ni_NodeID (an_Identity a)) with
  | Some seed => sameIdentity (pn_Identity seed) (an_Identity a) && bool_decide (pn_Endpoint seed = an_Endpoint a)
  | None => false
  end.

(** Later seeds overwrite earlier ones with the same identifier. *)
Definition authorities (policy : Policy) : gmap string NodePublicIdentity :=
  foldl (λ m seed, <[ni_NodeID (pn_Identity seed) := pn_Identity seed]> m) ∅ (p_Seeds policy).

(** * Announcements *)

Definition SignAnnouncement (signer : option HybridSigner) (coins : bytes) (endpoint : Endpoint) (sequence : Z)
    (now : Time) (lease : Duration) (allowPrivate : bool) : Result Announcement :=
  match signer with
  | None => Err "invalid node announcement input"
  | Some signer =>
      if (sequence =? 0) || IsZero now || (lease <? MinLease) || (MaxLease <? lease)
      then Err "invalid node announcement input"
      else if negb (canonicalEndpoint endpoint allowPrivate) then Err "node endpoint is not canonical"
      else
        let make sig :=
          {| an_Version := ProtocolVersion; an_Identity := PublicIdentity signer; an_Endpoint := endpoint;
             an_Sequence := sequence; an_IssuedAt := Truncate now Millisecond;
             an_ExpiresAt := Truncate (TAdd now lease) Millisecond; an_Signature := sig |} in
        if negb (ValidPublicIdentity (PublicIdentity signer)) then Err "invalid node signing identity"
        else match Sign signer coins announcementDomain (announcementSigningBytes (make zeroSignature)) with
             | Err e => Err e
             | Ok sig => Ok (make sig)
             end
  end.

Definition VerifyAnnouncement (a : Announcement) (now : Time) (allowPrivate : bool) : option error :=
  if negb (an_Version a =? ProtocolVersion) || negb (ValidPublicIdentity (an_Identity a)) ||
     negb (canonicalEndpoint (an_Endpoint a) allowPrivate) || (an_Sequence a =? 0) ||
     IsZero (an_IssuedAt a) || IsZero (an_ExpiresAt a) || After (an_IssuedAt a) (TAdd now MaxClockSkew) ||
     negb (After (an_ExpiresAt a) now) || (TSub (an_ExpiresAt a) (an_IssuedAt a) <? MinLease) ||
     (MaxLease <? TSub (an_ExpiresAt a) (an_IssuedAt a))
  then Some "invalid node announcement"%string
  else if negb (Verify (an_Identity a) announcementDomain (announcementSigningBytes a) (an_Signature a))
  then Some "invalid node announcement signature"%string
  else None.

Definition SignAttestation (signer : option HybridSigner) (coins : bytes) (a : Announcement) (now : Time)
  : Result Attestation :=
  match signer with
  | None => Err "invalid node attestation input"
  | Some signer =>
      if IsZero now || After now (an_ExpiresAt a) then Err "invalid node attestation input"
      else
        let make sig :=
          {| at_Version := ProtocolVersion; at_AuthorityID := ni_NodeID (PublicIdentity signer);
             at_AnnouncementHash := AnnouncementHash a; at_ObservedAt := Truncate now Millisecond;
             at_ExpiresAt := Truncate (an_ExpiresAt a) Millisecond; at_Signature := sig |} in
        match Sign signer coins attestationDomain (attestationSigningBytes (make zeroSignature)) with
        | Err e => Err e
        | Ok sig => Ok (make sig)
        end
  end.

(** * Records *)

(** One turn of the loop over the attestations. *)
Definition attestationFits (record : Record_) (now : Time) (a : Attestation) : bool :=
  negb (negb (at_Version a =? ProtocolVersion) || negb (blen (at_AnnouncementHash a) =? Sha256.Size) ||
        negb (bytes_equal (at_AnnouncementHash a) (AnnouncementHash (r_Announcement record))) ||
        IsZero (at_ObservedAt a) || After (at_ObservedAt a) (TAdd now MaxClockSkew) ||
        Before (at_ObservedAt a) (TAdd (an_IssuedAt (r_Announcement record)) (- MaxClockSkew)) ||
        negb (TEqual (at_ExpiresAt a) (an_ExpiresAt (r_Announcement record)))).

Fixpoint countAttestations (auth : gmap string NodePublicIdentity) (record : Record_) (now : Time)
    (seen : gset string) (valid : Z) (l : list Attestation) : Result Z :=
  match l with
  | [] => Ok valid
  | a :: l =>
      match auth !! at_AuthorityID a with
      | None => Err "invalid node attestation"
      | Some identity =>
          if negb (attestationFits record now a) then Err "invalid node attestation"
          else if bool_decide (at_AuthorityID a ∈ seen) then Err "duplicate node attestation"
          else if negb (Verify identity attestationDomain (attestationSigningBytes a) (at_Signature a))
          then Err "invalid node attestation signature"
          else countAttestations auth record now ({[at_AuthorityID a]} ∪ seen) (valid + 1) l
      end
  end.

Definition verifyRecordAttestations (policy : Policy) (record : Record_) (now : Time) : Result Z :=
  if (blen (p_Seeds policy) =? 0) || (MaxAttestations <? blen (p_Seeds policy)) ||
     (p_AuthorityQuorum policy <=? 0) || (blen (p_Seeds policy) <? p_AuthorityQuorum policy) ||
     (p_MaxNodes policy <=? 0) || (MaxDirectoryNodes <? p_MaxNodes policy)
  then Err "invalid node directory policy"
  else if MaxAttestations <? blen (r_Attestations record) then Err "node record has too many attestations"
  else match VerifyAnnouncement (r_Announcement record) now (p_AllowPrivateIPs policy) with
  | Some e => Err e
  | None => countAttestations (authorities policy) record now ∅ 0 (r_Attestations record)
  end.

Definition VerifyRecord (policy : Policy) (record : Record_) (now : Time) : option error :=
  match verifyRecordAttestations policy record now with
  | Err e => Some e
  | Ok valid =>
      if isPinned policy (r_Announcement record) then None
      else if valid <? p_AuthorityQuorum policy
      then Some "node record does not meet the pinned authority quorum"%string
      else None
  end.

Definition verifyPartialRecord (policy : Policy) (record : Record_) (now : Time) : option error :=
  match verifyRecordAttestations policy record now with Err e => Some e | Ok _ => None end.

(** [sort.Slice] by authority. *)
Definition authority_le (x y : Attestation) : Prop := str_ltb (at_AuthorityID y) (at_AuthorityID x) = false.
#[export] Instance authority_le_dec x y : Decision (authority_le x y).
Proof. unfold authority_le. apply _. Defined.
Definition sortAttestations (l : list Attestation) : list Attestation := merge_sort authority_le l.

(** The first attestation of the same authority is replaced. *)
Fixpoint replaceAttestation (l : list Attestation) (a : Attestation) : option (list Attestation) :=
  match l with
  | [] => None
  | x :: l =>
      if bool_decide (at_AuthorityID x = at_AuthorityID a) then Some (a :: l)
      else (x ::.) <$> replaceAttestation l a
  end.

Definition appendAttestation (record : Record_) (a : Attestation) : Record_ :=
  {| r_Announcement := r_Announcement record;
     r_Attestations :=
       sortAttestations (default (r_Attestations record ++ [a]) (replaceAttestation (r_Attestations record) a)) |}.

Definition mergePartial (left right : Record_) : Record_ :=
  let result := foldl appendAttestation left (r_Attestations right) in
  {| r_Announcement := r_Announcement result; r_Attestations := sortAttestations (r_Attestations result) |}.

(** * Challenges *)

Definition NewChallenge (rand : Z → Result bytes) : Result bytes := rand ChallengeBytes.

Definition SignChallenge (signer : option HybridSigner) (coins nonce : bytes) (now : Time)
  : Result ChallengeResponse :=
  match signer with
  | None => Err "invalid node challenge"
  | Some signer =>
      if negb (blen nonce =? ChallengeBytes) || IsZero now then Err "invalid node challenge"
      else
        let make sig :=
          {| ch_Version := ProtocolVersion; ch_NodeID := ni_NodeID (PublicIdentity signer); ch_Nonce := nonce;
             ch_CreatedAt := Truncate now Millisecond; ch_Signature := sig |} in
        match Sign signer coins challengeDomain (challengeSigningBytes (make zeroSignature)) with
        | Err e => Err e
        | Ok sig => Ok (make sig)
        end
  end.

Definition VerifyChallenge (identity : NodePublicIdentity) (nonce : bytes) (response : ChallengeResponse)
    (now : Time) : option error :=
  if negb (ch_Version response =? ProtocolVersion) ||
     negb (bool_decide (ch_NodeID response = ni_NodeID identity)) || negb (blen nonce =? ChallengeBytes) ||
     negb (bytes_equal nonce (ch_Nonce response)) ||
     Before (ch_CreatedAt response) (TAdd now (- MaxClockSkew)) ||
     After (ch_CreatedAt response) (TAdd now MaxClockSkew) ||
     negb (Verify identity challengeDomain (challengeSigningBytes response) (ch_Signature response))
  then Some "invalid node reachability proof"%string
  else None.

(** * The registry *)

Record Registry := { policy : Policy; records : gmap string Record_ }.

Definition NewRegistry (p : Policy) : Result Registry :=
  match NewPolicy (p_Seeds p) (p_AuthorityQuorum p) (p_AllowPrivateIPs p) (p_MaxNodes p) with
  | Err e => Err e
  | Ok validated => Ok {| policy := validated; records := ∅ |}
  end.

Definition mergeVerifiedRecord (records : gmap string Record_) (maxNodes : Z) (record : Record_)
  : Result (gmap string Record_) :=
  let nodeID := r_NodeID record in
  match records !! nodeID with
  | None =>
      if maxNodes <=? Z.of_nat (size records) then Err "node registry is full"
      else Ok (<[nodeID := record]> records)
  | Some existing =>
      let sequence := an_Sequence (r_Announcement record) in
      let known := an_Sequence (r_Announcement existing) in
      if sequence <? known then Err "node announcement sequence rollback"
      else if sequence =? known then
        if negb (bytes_equal (AnnouncementHash (r_Announcement record)) (AnnouncementHash (r_Announcement existing)))
        then Err "conflicting node announcement sequence"
        else Ok (<[nodeID := foldl appendAttestation record (r_Attestations existing)]> records)
      else Ok (<[nodeID := record]> records)
  end.

Definition set_records (g : Registry) (rs : gmap string Record_) : Registry :=
  {| policy := policy g; records := rs |}.

Definition Merge (g : Registry) (record : Record_) (now : Time) : Registry * option error :=
  match VerifyRecord (policy g) record now with
  | Some e => (g, Some e)
  | None =>
      match mergeVerifiedRecord (records g) (p_MaxNodes (policy g)) record with
      | Err e => (g, Some e)
      | Ok rs => (set_records g rs, None)
      end
  end.

Definition record_le : relation Record_ := key_le r_NodeID.
#[export] Instance record_le_dec x y : Decision (record_le x y).
Proof. unfold record_le. apply _. Defined.

Definition Active `{MO : MapOrder} (g : Registry) (now : Time) : list Record_ :=
  merge_sort record_le
    (filter (λ r, After (an_ExpiresAt (r_Announcement r)) now = true) ((range_map (records g)).*2)).

Definition Sweep (g : Registry) (now : Time) : Registry * Z :=
  let kept := filter (λ x : string * Record_, After (an_ExpiresAt (r_Announcement x.2)) now = true) (records g) in
  (set_records g kept, Z.of_nat (size (records g)) - Z.of_nat (size kept)).

(** [prev >= next] for some neighbours. *)
Fixpoint unsorted (lt : string → string → bool) (l : list Record_) : bool :=
  match l with
  | x :: ((y :: _) as l) => negb (lt (r_NodeID x) (r_NodeID y)) || unsorted lt l
  | _ => false
  end.

Definition SignSnapshot (signer : option HybridSigner) (coins : bytes) (rs : list Record_) (now : Time)
  : Result Snapshot :=
  match signer with
  | None => Err "invalid node directory snapshot input"
  | Some signer =>
      if IsZero now || (MaxDirectoryNodes <? blen rs) then Err "invalid node directory snapshot input"
      else
        let sorted := merge_sort record_le rs in
        if unsorted (λ x y, negb (bool_decide (x = y))) sorted then Err "duplicate node in directory snapshot"
        else
          let make sig :=
            {| sn_Version := ProtocolVersion; sn_Publisher := PublicIdentity signer;
               sn_GeneratedAt := Truncate now Millisecond; sn_Records := sorted; sn_Signature := sig |} in
          match Sign signer coins snapshotDomain (snapshotSigningBytes (make zeroSignature)) with
          | Err e => Err e
          | Ok sig => Ok (make sig)
          end
  end.

Definition VerifySnapshotHeader (s : Snapshot) (expectedPublisherID : string) (now : Time) (maxNodes : Z)
  : option error :=
  let maxNodes := if (maxNodes <=? 0) || (MaxDirectoryNodes <? maxNodes) then MaxDirectoryNodes else maxNodes in
  if negb (sn_Version s =? ProtocolVersion) || (maxNodes <? blen (sn_Records s)) ||
     negb (ValidPublicIdentity (sn_Publisher s)) ||
     negb (bool_decide (ni_NodeID (sn_Publisher s) = expectedPublisherID)) ||
     Before (sn_GeneratedAt s) (TAdd now (- MaxClockSkew)) || After (sn_GeneratedAt s) (TAdd now MaxClockSkew)
  then Some "invalid node directory snapshot"%string
  else if unsorted str_ltb (sn_Records s) then Some "node directory snapshot is not uniquely sorted"%string
  else if negb (Verify (sn_Publisher s) snapshotDomain (snapshotSigningBytes s) (sn_Signature s))
  then Some "invalid node directory snapshot signature"%string
  else None.

Fixpoint verifyAll (p : Policy) (rs : list Record_) (now : Time) : option error :=
  match rs with
  | [] => None
  | r :: rs => match VerifyRecord p r now with Some e => Some e | None => verifyAll p rs now end
  end.

Fixpoint mergeAll (updated : gmap string Record_) (maxNodes : Z) (rs : list Record_)
  : Result (gmap string Record_) :=
  match rs with
  | [] => Ok updated
  | r :: rs =>
      match mergeVerifiedRecord updated maxNodes r with
      | Err e => Err e
      | Ok updated => mergeAll updated maxNodes rs
      end
  end.

Definition MergeSnapshot (g : Registry) (s : Snapshot) (expectedPublisherID : string) (now : Time)
  : Registry * option error :=
  match VerifySnapshotHeader s expectedPublisherID now (p_MaxNodes (policy g)) with
  | Some e => (g, Some e)
  | None =>
      match verifyAll (policy g) (sn_Records s) now with
      | Some e => (g, Some e)
      | None =>
          match mergeAll (records g) (p_MaxNodes (policy g)) (sn_Records s) with
          | Err e => (g, Some e)
          | Ok updated => (set_records g updated, None)
          end
      end
  end.

(** * The agent *)

Definition zeroIdentity : NodePublicIdentity :=
  {| ni_NodeID := ""; ni_Ed25519Public := []; ni_MLDSA65Public := []; ni_ProtocolVersion := 0 |}.
Definition zeroRecord : Record_ :=
  {| r_Announcement :=
       {| an_Version := 0; an_Identity := zeroIdentity; an_Endpoint := {| e_Scheme := ""; e_IP := ""; e_Port := 0 |};
          an_Sequence := 0; an_IssuedAt := 0; an_ExpiresAt := 0; an_Signature := zeroSignature |};
     r_Attestations := [] |}.

Record Agent := {
  registry : Registry;
  a_policy : Policy;
  signer : HybridSigner;
  endpoint : Endpoint;
  lease : Duration;
  self : Record_;
  sequence : Z;  (* uint64 *)
}.

Definition set_self (g : Agent) (r : Record_) (n : Z) : Agent :=
  {| registry := registry g; a_policy := a_policy g; signer := signer g; endpoint := endpoint g;
     lease := lease g; self := r; sequence := n |}.
Definition set_registry (g : Agent) (r : Registry) : Agent :=
  {| registry := r; a_policy := a_policy g; signer := signer g; endpoint := endpoint g;
     lease := lease g; self := self g; sequence := sequence g |}.

Definition renew (coins : bytes) (g : Agent) (now : Time) : Agent * option error :=
  let expires := an_ExpiresAt (r_Announcement (self g)) in
  if negb (IsZero expires) && After expires (TAdd now (Z.quot (lease g) 2)) then (g, None)
  else if UnixMilli now <=? 0 then (g, Some "node directory requires a positive wall clock"%string)
  else
    let seq := u64 (UnixMilli now) in
    let seq := if seq <=? sequence g then u64 (sequence g + 1) else seq in
    match SignAnnouncement (Some (signer g)) coins (endpoint g) seq now (lease g) (p_AllowPrivateIPs (a_policy g)) with
    | Err e => (g, Some e)
    | Ok a =>
        let g := set_self g {| r_Announcement := a; r_Attestations := [] |} seq in
        if isPinned (a_policy g) a
        then let '(rg, e) := Merge (registry g) (self g) now in (set_registry g rg, e)
        else (g, None)
    end.

Definition NewAgent (coins : bytes) (p : Policy) (ep : Endpoint) (sg : option HybridSigner) (ls : Duration)
    (now : Time) : Result Agent :=
  match NewRegistry p with
  | Err e => Err e
  | Ok rg =>
      match sg with
      | None => Err "invalid node directory agent configuration"
      | Some sg =>
          if (ls <? MinLease) || (MaxLease <? ls) then Err "invalid node directory agent configuration"
          else if negb (canonicalEndpoint ep (p_AllowPrivateIPs p)) then Err "invalid advertised node endpoint"
          else
            let g := {| registry := rg; a_policy := policy rg; signer := sg; endpoint := ep; lease := ls;
                        self := zeroRecord; sequence := 0 |} in
            match renew coins g now with
            | (_, Some e) => Err e
            | (g, None) => Ok g
            end
      end
  end.

(** [probe] is the answer of the reachability prober. *)
Definition AcceptRegistration (probe : Announcement → option error) (coins : bytes) (g : Agent) (remoteIP : Addr)
    (request : Record_) (now : Time) : Agent * Result Record_ :=
  if negb (Authority (a_policy g) (PublicIdentity (signer g)))
  then (g, Err "this node is not a pinned directory authority")
  else match verifyPartialRecord (a_policy g) request now with
  | Some e => (g, Err e)
  | None =>
  match ParseAddr (e_IP (an_Endpoint (r_Announcement request))) with
  | None => (g, Err "advertised IP does not match the registration source")
  | Some advertised =>
  if negb (bool_decide (Unmap remoteIP = Unmap advertised))
  then (g, Err "advertised IP does not match the registration source")
  else match probe (r_Announcement request) with
  | Some e => (g, Err ("node reachability proof failed: " +:+ e))
  | None =>
  match SignAttestation (Some (signer g)) coins (r_Announcement request) now with
  | Err e => (g, Err e)
  | Ok a =>
      let result := appendAttestation request a in
      match VerifyRecord (a_policy g) result now with
      | Some _ => (g, Ok result)
      | None =>
          match Merge (registry g) result now with
          | (rg, Some e) => (set_registry g rg, Err e)
          | (rg, None) => (set_registry g rg, Ok result)
          end
      end
  end end end end.

(** [HTTPProber.Verify]: [post] is the outcome of the challenge request, [clock] the
    time of the check. *)
Definition proberVerify (rand : Z → Result bytes) (post : bytes → Result ChallengeResponse) (clock : Time)
    (a : Announcement) : option error :=
  match NewChallenge rand with
  | Err e => Some e
  | Ok nonce =>
      match post nonce with
      | Err e => Some e
      | Ok response => VerifyChallenge (an_Identity a) nonce response clock
      end
  end.

(** [decodeLimited]. *)
Definition decodeLimited {A} `{StrictDecoder A} (body : bytes) (limit : Z) : Result A :=
  if limit <? blen body then Err "directory response exceeds size limit" else decodeStrict body.

Context {DS : StrictDecoder Snapshot} {DP : StrictDecoder (list PinnedNode)}.

Definition responseStatusError (status : Z) : error := ("node returned HTTP status " +:+ pretty status)%string.

(** [get] is the outcome of the request through the client that [endpointClient]
    makes for the endpoint (an error of that client is an error of [get]): a
    status and a body. The callers pass a client that is not nil. *)
Definition FetchSnapshot (get : Endpoint → NodePublicIdentity → Result (Z * bytes)) (ep : Endpoint)
    (expectedPublisher : NodePublicIdentity) (now : Time) (maxNodes : Z) : Result Snapshot :=
  if negb (ValidPublicIdentity expectedPublisher) then Err "invalid expected directory publisher identity"
  else match get ep expectedPublisher with
  | Err e => Err e
  | Ok (status, body) =>
      if negb (status =? 200) then Err (responseStatusError status)
      else match decodeLimited body MaxSnapshotBytes with
      | Err e => Err e
      | Ok s =>
          match VerifySnapshotHeader s (ni_NodeID expectedPublisher) now maxNodes with
          | Some e => Err e
          | None => Ok s
          end
      end
  end.

(** [post seed record] is the record a seed answers to a registration. *)
Definition registerOne (post : PinnedNode → Record_ → Result Record_) (now : Time)
    (acc : Agent * Record_ * list error) (seed : PinnedNode) : Agent * Record_ * list error :=
  let '(g, me, failures) := acc in
  if bool_decide (ni_NodeID (pn_Identity seed) = ni_NodeID (PublicIdentity (signer g))) then acc
  else match post seed me with
  | Err e => (g, me, failures ++ [("register with " +:+ ni_NodeID (pn_Identity seed) +:+ ": " +:+ e)%string])
  | Ok result =>
      if negb (bytes_equal (AnnouncementHash (r_Announcement result)) (AnnouncementHash (r_Announcement me))) ||
         bool_decide (verifyPartialRecord (a_policy g) result now ≠ None)
      then (g, me, failures ++ [("register with " +:+ ni_NodeID (pn_Identity seed) +:+
                                  ": invalid attested record")%string])
      else
        let me := mergePartial me result in
        (set_self g me (sequence g), me, failures)
  end.

Definition pullOne (get : Endpoint → NodePublicIdentity → Result (Z * bytes)) (now : Time)
    (acc : Agent * Z * list error) (seed : PinnedNode) : Agent * Z * list error :=
  let '(g, pulls, failures) := acc in
  let id := ni_NodeID (pn_Identity seed) in
  match FetchSnapshot get (pn_Endpoint seed) (pn_Identity seed) now (p_MaxNodes (a_policy g)) with
  | Err e => (g, pulls, failures ++ [("pull from " +:+ id +:+ ": " +:+ e)%string])
  | Ok s =>
      match MergeSnapshot (registry g) s id now with
      | (_, Some e) => (g, pulls, failures ++ [("merge from " +:+ id +:+ ": " +:+ e)%string])
      | (rg, None) => (set_registry g rg, pulls + 1, failures)
      end
  end.

(** [errors.Join]. *)
Definition joinErrors (l : list error) : option error :=
  match l with
  | [] => None
  | e :: l => Some (foldl (λ acc e, acc +:+ String (Ascii.ascii_of_nat 10) e)%string e l)
  end.

Definition SyncOnce (coins : bytes) (post : PinnedNode → Record_ → Result Record_)
    (get : Endpoint → NodePublicIdentity → Result (Z * bytes)) (g : Agent) (now : Time) : Agent * option error :=
  match renew coins g now with
  | (g, Some e) => (g, Some e)
  | (g, None) =>
      let '(g, me, failures) := foldl (registerOne post now) (g, self g, []) (p_Seeds (a_policy g)) in
      let '(g, failures) :=
        match VerifyRecord (a_policy g) me now with
        | Some _ => (g, failures)
        | None =>
            match Merge (registry g) me now with
            | (rg, None) => (set_registry g rg, failures)
            | (rg, Some e) => (set_registry g rg, failures ++ [e])
            end
        end in
      let '(g, pulls, failures) := foldl (pullOne get now) (g, 0, failures) (p_Seeds (a_policy g)) in
      let g := set_registry g (Sweep (registry g) now).1 in
      (g, if pulls =? 0 then joinErrors failures else None)
  end.

(** * Seed files *)

Definition DecodePinnedNodes (data : bytes) : Result (list PinnedNode) :=
  if (blen data =? 0) || (MaxSeedFileBytes <? blen data) then Err "pinned seed data size is out of range"
  else match decodeStrict data with
  | Err e => Err e
  | Ok seeds =>
      if (blen seeds =? 0) || (MaxAttestations <? blen seeds) then Err "pinned seed count is out of range"
      else Ok seeds
  end.

Definition LoadPinnedNodes (io : IO) (disk : Disk) (path : string) : Result (list PinnedNode) :=
  if bool_decide (path = ""%string) then Err "empty pinned seed path"
  else match io (EntryInfo path), disk !! path with
  | Some e, _ => Err e
  | None, None => Err ErrNotExist
  | None, Some file =>
      if negb (f_regular file) || (blen (f_data file) <=? 0) || (MaxSeedFileBytes <? blen (f_data file))
      then Err "pinned seed file is not a bounded regular file"
      else match io (ReadFile path) with
      | Some e => Err e
      | None => DecodePinnedNodes (f_data file)
      end
  end.

End Code.

(** * Attestations and the quorum *)

Section Quorum.
Context `{C : Crypto} {NI : Netip}.

(** A pinned authority vouches for the announcement of [record] with [a]. *)
Definition vouches (auth : gmap string NodePublicIdentity) (record : Record_) (now : Time) (a : Attestation) : Prop :=
  ∃ identity, auth !! at_AuthorityID a = Some identity ∧ attestationFits record now a = true ∧
    Verify identity attestationDomain (attestationSigningBytes a) (at_Signature a) = true.

Lemma countAttestations_iff (auth : gmap string NodePublicIdentity) (record : Record_) (now : Time)
    (seen : gset string) (v n : Z) (l : list Attestation) :
  countAttestations auth record now seen v l = Ok n ↔
  n = v + blen l ∧ NoDup (at_AuthorityID <$> l) ∧
  Forall (λ a, at_AuthorityID a ∉ seen ∧ vouches auth record now a) l.
Proof.
  revert seen v. induction l as [|a l IH]; intros seen v; cbn [countAttestations].
  { rewrite fmap_nil. unfold blen. simpl. split.
    - intros <-%(inj Ok). split_and!; [lia|constructor|constructor].
    - intros (-> & _). f_equal. lia. }
  rewrite fmap_cons, list.NoDup_cons, list.Forall_cons.
  assert (Hlen : blen (a :: l) = 1 + blen l) by (unfold blen; simpl; lia). rewrite Hlen.
  unfold vouches at 1. destruct (auth !! at_AuthorityID a) as [identity|].
  2: { split; [done|]. intros (_ & _ & (_ & ? & ? & _) & _). done. }
  destruct (attestationFits record now a) eqn:Hfit; cbn [negb].
  2: { split; [done|]. intros (_ & _ & (_ & ? & _ & ? & _) & _). done. }
  case_bool_decide as Hseen; [split; [done|]; intros (_ & _ & [? _] & _); done|].
  destruct (Verify _ _ _ _) eqn:Hver; cbn [negb].
  2: { split; [done|]. intros (_ & _ & (_ & ? & [= <-] & _ & ?) & _). congruence. }
  rewrite IH, !List.Forall_forall. setoid_rewrite <- list_elem_of_In. split.
  - intros (-> & Hnd & Hall). split_and!; [lia| |done|set_solver|eauto|].
    + intros (b & Hb & Hin)%list_elem_of_fmap. destruct (Hall b Hin) as [Hn _]. set_solver.
    + intros b Hb. destruct (Hall b Hb). split; [set_solver|done].
  - intros (-> & (Hni & Hnd) & _ & Hall). split_and!; [lia|done|].
    intros b Hb. destruct (Hall b Hb). split; [|done].
    assert (at_AuthorityID b ≠ at_AuthorityID a); [|set_solver].
    intros E. apply Hni. rewrite <- E. by apply list_elem_of_fmap_2.
Qed.

Lemma foldl_authorities (seeds : list PinnedNode) (m : gmap string NodePublicIdentity) (id : string)
    (identity : NodePublicIdentity) :
  foldl (λ m seed, <[ni_NodeID (pn_Identity seed) := pn_Identity seed]> m) m seeds !! id = Some identity →
  m !! id = Some identity ∨
  ni_NodeID identity = id ∧ ∃ seed, seed ∈ seeds ∧ pn_Identity seed = identity.
Proof.
  revert m. induction seeds as [|seed seeds IH]; intros m; simpl; [auto|].
  intros [H|(? & x & ? & ?)]%IH.
  - apply lookup_insert_Some in H as [[<- <-]|[_ ?]]; [right; split; [done|]; set_solver|auto].
  - right. split; [done|]. set_solver.
Qed.

Lemma authorities_pinned (p : Policy) (id : string) (identity : NodePublicIdentity) :
  authorities p !! id = Some identity →
  ni_NodeID identity = id ∧ ∃ seed, seed ∈ p_Seeds p ∧ pn_Identity seed = identity.
Proof. intros [H|?]%foldl_authorities; [|done]. by rewrite lookup_empty in H. Qed.

(** An announcement that verifies. *)
Record announcement_ok (a : Announcement) (now : Time) (allowPrivate : bool) : Prop := {
  ao_version : an_Version a = ProtocolVersion;
  ao_endpoint : canonicalEndpoint (an_Endpoint a) allowPrivate = true;
  ao_sequence : an_Sequence a ≠ 0;
  ao_set : an_IssuedAt a ≠ 0 ∧ an_ExpiresAt a ≠ 0;
  ao_window : an_IssuedAt a ≤ now + MaxClockSkew ∧ now < an_ExpiresAt a;
  ao_lease : MinLease ≤ an_ExpiresAt a - an_IssuedAt a ≤ MaxLease;
  ao_signed : Verify (an_Identity a) announcementDomain (announcementSigningBytes a) (an_Signature a) = true;
}.

Lemma TSub_range (t u lo hi : Z) : - two63 < lo → hi < two63 - 1 → lo ≤ TSub t u ≤ hi ↔ lo ≤ t - u ≤ hi.
Proof. unfold TSub. lia. Qed.

Lemma VerifyAnnouncement_None (a : Announcement) (now : Time) (allowPrivate : bool) :
  VerifyAnnouncement a now allowPrivate = None ↔ announcement_ok a now allowPrivate.
Proof.
  pose proof (TSub_range (an_ExpiresAt a) (an_IssuedAt a) MinLease MaxLease ltac:(done) ltac:(done)) as Hr.
  unfold VerifyAnnouncement, After, TAdd, IsZero. split.
  - intros H. step_if H. step_if H. unbool. split; try done; lia.
  - intros [Hv He Hs [Hi Hx] [Hw Hw'] Hl Hsig]. rewrite Hv, He, Hsig, (Verify_valid _ _ _ _ Hsig). cbn [negb orb].
    rewrite (proj2 (Z.eqb_neq _ _) Hs), (proj2 (Z.eqb_neq _ _) Hi), (proj2 (Z.eqb_neq _ _) Hx),
      (proj2 (Z.ltb_ge _ _) Hw), (proj2 (Z.ltb_lt _ _) Hw'). cbn [negb orb].
    by rewrite !(proj2 (Z.ltb_ge _ _)) by lia.
Qed.

(** A policy within the bounds that [verifyRecordAttestations] checks. *)
Definition policy_ok (p : Policy) : Prop :=
  0 < blen (p_Seeds p) ≤ MaxAttestations ∧ 0 < p_AuthorityQuorum p ≤ blen (p_Seeds p) ∧
  0 < p_MaxNodes p ≤ MaxDirectoryNodes.

Lemma verifyRecordAttestations_Ok (p : Policy) (r : Record_) (now : Time) (n : Z) :
  verifyRecordAttestations p r now = Ok n ↔
  policy_ok p ∧ blen (r_Attestations r) ≤ MaxAttestations ∧
  announcement_ok (r_Announcement r) now (p_AllowPrivateIPs p) ∧
  n = blen (r_Attestations r) ∧ NoDup (at_AuthorityID <$> r_Attestations r) ∧
  Forall (vouches (authorities p) r now) (r_Attestations r).
Proof.
  unfold verifyRecordAttestations, policy_ok. pose proof (blen_nonneg (p_Seeds p)).
  rewrite <- VerifyAnnouncement_None. split.
  - intros Hok. step_if Hok. step_if Hok. destruct (VerifyAnnouncement _ _ _); [done|].
    apply countAttestations_iff in Hok as (-> & Hnd & Hall). unbool.
    split_and!; try done; try lia. eapply list.Forall_impl; [done|]. by intros a [_ ?].
  - intros ((? & ? & ?) & Hn & Hv & -> & Hnd & Hall). rewrite (proj2 (Z.eqb_neq _ _)) by lia.
    rewrite !(proj2 (Z.ltb_ge _ _)), !(proj2 (Z.leb_gt _ _)) by lia. cbn [orb]. rewrite Hv.
    apply countAttestations_iff. split_and!; [lia|done|]. eapply list.Forall_impl; [done|].
    intros a ?. split; [set_solver|done].
Qed.

(** C9. Admission needs the quorum: a record that verifies carries an announcement
    signed by its own node, for a canonical endpoint and a lease of 10 minutes
    to 2 hours that has not run out; and it is a pinned node at its pinned
    endpoint, or at least [AuthorityQuorum] distinct pinned identities have each
    signed an attestation of this very announcement. *)
Theorem VerifyRecord_quorum (p : Policy) (r : Record_) (now : Time) :
  VerifyRecord p r now = None →
  announcement_ok (r_Announcement r) now (p_AllowPrivateIPs p) ∧
  (isPinned p (r_Announcement r) = true ∨
   ∃ voters : list NodePublicIdentity,
     NoDup (ni_NodeID <$> voters) ∧ p_AuthorityQuorum p ≤ blen voters ∧
     Forall (λ v, (∃ seed, seed ∈ p_Seeds p ∧ pn_Identity seed = v) ∧
                  ∃ a, a ∈ r_Attestations r ∧ at_AuthorityID a = ni_NodeID v ∧
                    at_AnnouncementHash a = AnnouncementHash (r_Announcement r) ∧
                    Verify v attestationDomain (attestationSigningBytes a) (at_Signature a) = true) voters).
Proof.
  unfold VerifyRecord. destruct (verifyRecordAttestations _ _ _) as [n|] eqn:Hv; [|done].
  apply verifyRecordAttestations_Ok in Hv as (_ & _ & Ha & -> & Hnd & Hall). intros Hq. split; [done|].
  destruct (isPinned _ _); [by left|right]. destruct (_ <? _) eqn:Hlt; [done|]. unbool.
  assert (Hvoters : ∃ voters, at_AuthorityID <$> r_Attestations r = ni_NodeID <$> voters ∧
    Forall2 (λ a v, (∃ seed, seed ∈ p_Seeds p ∧ pn_Identity seed = v) ∧ at_AuthorityID a = ni_NodeID v ∧
      at_AnnouncementHash a = AnnouncementHash (r_Announcement r) ∧
      Verify v attestationDomain (attestationSigningBytes a) (at_Signature a) = true) (r_Attestations r) voters).
  { clear Hnd Hlt. induction Hall as [|a l (identity & Hau & Hfit & Hver) _ (vs & Heq & Hvs)].
    { exists []. split; constructor. }
    apply authorities_pinned in Hau as [Hid Hseed]. exists (identity :: vs).
    split; [by rewrite !fmap_cons, Heq, Hid|]. constructor; [|done].
    unfold attestationFits in Hfit. unbool. split_and!; try done. by apply bytes_equal_true. }
  destruct Hvoters as (vs & Heq & Hvs). exists vs. rewrite <- Heq. split_and!; [done| |].
  - unfold blen in *. apply Forall2_length in Hvs. lia.
  - apply List.Forall_forall. intros v Hv. apply list_elem_of_In, list_elem_of_lookup in Hv as [i Hi].
    destruct (Forall2_lookup_r _ _ _ _ _ Hvs Hi) as (a & Hai & ? & ? & ? & ?). split; [done|].
    exists a. split_and!; try done. by eapply list_elem_of_lookup_2.
Qed.

End Quorum.

(** * The registry *)

Section RegistryFacts.
Context `{C : Crypto} {NI : Netip} {MO : MapOrder}.

Lemma replaceAttestation_Some (l l' : list Attestation) (a : Attestation) :
  replaceAttestation l a = Some l' →
  at_AuthorityID <$> l' = at_AuthorityID <$> l ∧ ∀ x, x ∈ l' → x = a ∨ x ∈ l.
Proof.
  revert l'. induction l as [|y l IH]; intros l' H; simpl in H; [done|]. case_bool_decide as E.
  - simplify_eq. rewrite !fmap_cons, E. split; [done|]. set_solver.
  - destruct (replaceAttestation l a) as [k|] eqn:Hk; [|done]. simplify_eq/=.
    destruct (IH k eq_refl) as [-> Hin]. split; [done|]. set_solver.
Qed.

Lemma replaceAttestation_None (l : list Attestation) (a : Attestation) :
  replaceAttestation l a = None → at_AuthorityID a ∉ at_AuthorityID <$> l.
Proof.
  induction l as [|y l IH]; simpl; [set_solver|]. case_bool_decide; [done|].
  destruct (replaceAttestation l a); [done|]. intros _. set_solver.
Qed.

(** Adding an attestation keeps the authorities distinct and loses none. *)
Lemma appendAttestation_spec (P : Attestation → Prop) (r : Record_) (a : Attestation) :
  NoDup (at_AuthorityID <$> r_Attestations r) → Forall P (r_Attestations r) → P a →
  let r' := appendAttestation r a in
  r_Announcement r' = r_Announcement r ∧ NoDup (at_AuthorityID <$> r_Attestations r') ∧
  Forall P (r_Attestations r') ∧ blen (r_Attestations r) ≤ blen (r_Attestations r') ∧
  (∀ id, id ∈ at_AuthorityID <$> r_Attestations r → id ∈ at_AuthorityID <$> r_Attestations r').
Proof.
  intros Hnd HP Ha. unfold appendAttestation, sortAttestations. cbn [r_Announcement r_Attestations].
  split; [done|]. rewrite List.Forall_forall in HP. setoid_rewrite <- list_elem_of_In in HP.
  set (l := default _ _). unfold blen.
  assert (Hl : NoDup (at_AuthorityID <$> l) ∧ (∀ x, x ∈ l → x = a ∨ x ∈ r_Attestations r) ∧
    (length (r_Attestations r) ≤ length l)%nat ∧
    (∀ id, id ∈ at_AuthorityID <$> r_Attestations r → id ∈ at_AuthorityID <$> l)).
  { unfold l. destruct (replaceAttestation (r_Attestations r) a) as [k|] eqn:Hk; simpl.
    - apply replaceAttestation_Some in Hk as [E Hin]. rewrite E. split_and!; try done.
      rewrite <- (length_fmap at_AuthorityID), <- E, length_fmap. done.
    - apply replaceAttestation_None in Hk. rewrite fmap_app, length_app.
      split_and!; [|set_solver|lia|set_solver]. apply list.NoDup_app.
      split_and!; [done| |apply NoDup_singleton]. set_solver. }
  destruct Hl as (H1 & H2 & H3 & H4). clearbody l.
  pose proof (merge_sort_Permutation authority_le l) as Hp. split_and!.
  - by rewrite Hp.
  - rewrite Hp. apply List.Forall_forall. intros x Hx%list_elem_of_In. destruct (H2 x Hx) as [->|?]; [done|by apply HP].
  - rewrite Hp. lia.
  - intros id Hid. rewrite Hp. by apply H4.
Qed.

Lemma foldl_append_spec (P : Attestation → Prop) (l : list Attestation) (r : Record_) :
  NoDup (at_AuthorityID <$> r_Attestations r) → Forall P (r_Attestations r) → Forall P l →
  let r' := foldl appendAttestation r l in
  r_Announcement r' = r_Announcement r ∧ NoDup (at_AuthorityID <$> r_Attestations r') ∧
  Forall P (r_Attestations r') ∧ blen (r_Attestations r) ≤ blen (r_Attestations r').
Proof.
  revert r. induction l as [|a l IH]; intros r Hnd HP Hl; simpl; [done|].
  apply Forall_cons_iff in Hl as [Ha Hl].
  destruct (appendAttestation_spec P r a Hnd HP Ha) as (E & Hnd' & HP' & Hlen & _).
  destruct (IH _ Hnd' HP' Hl) as (E' & ? & ? & ?). split_and!; try done; (congruence || lia).
Qed.

(** A pinned authority has signed [t] over the announcement [a]. *)
Definition endorsed (p : Policy) (a : Announcement) (t : Attestation) : Prop :=
  ∃ identity, authorities p !! at_AuthorityID t = Some identity ∧ at_AnnouncementHash t = AnnouncementHash a ∧
    Verify identity attestationDomain (attestationSigningBytes t) (at_Signature t) = true.

(** A record the directory may serve: a verified announcement that is pinned or
    endorsed by a quorum of distinct authorities, with nothing else attached. *)
Record admitted (p : Policy) (r : Record_) : Prop := {
  ad_announcement : ∃ t, announcement_ok (r_Announcement r) t (p_AllowPrivateIPs p);
  ad_distinct : NoDup (at_AuthorityID <$> r_Attestations r);
  ad_endorsed : Forall (endorsed p (r_Announcement r)) (r_Attestations r);
  ad_quorum : isPinned p (r_Announcement r) = true ∨ p_AuthorityQuorum p ≤ blen (r_Attestations r);
}.

Lemma VerifyRecord_admitted (p : Policy) (r : Record_) (now : Time) :
  VerifyRecord p r now = None → admitted p r.
Proof.
  unfold VerifyRecord. destruct (verifyRecordAttestations _ _ _) as [n|] eqn:Hv; [|done].
  apply verifyRecordAttestations_Ok in Hv as (_ & _ & Ha & -> & Hnd & Hall). intros Hq.
  split; [eauto|done| |].
  - eapply list.Forall_impl; [done|]. intros a (identity & ? & Hfit & ?). exists identity. split_and!; try done.
    unfold attestationFits in Hfit. unbool. by apply bytes_equal_true.
  - destruct (isPinned _ _); [by left|right]. destruct (_ <? _) eqn:E; [done|]. by unbool.
Qed.

Record registry_ok (g : Registry) : Prop := {
  go_policy : policy_ok (policy g);
  go_size : Z.of_nat (size (records g)) ≤ p_MaxNodes (policy g);
  go_records id r : records g !! id = Some r → r_NodeID r = id ∧ admitted (policy g) r;
}.

(** What one merge does to the map of records. *)
Record merged (p : Policy) (rs rs' : gmap string Record_) : Prop := {
  mg_size : Z.of_nat (size rs) ≤ p_MaxNodes p → Z.of_nat (size rs') ≤ p_MaxNodes p;
  mg_admitted : (∀ id r, rs !! id = Some r → r_NodeID r = id ∧ admitted p r) →
    ∀ id r, rs' !! id = Some r → r_NodeID r = id ∧ admitted p r;
  mg_forward id r : rs !! id = Some r → ∃ r', rs' !! id = Some r' ∧
    (an_Sequence (r_Announcement r) < an_Sequence (r_Announcement r') ∨
     an_Sequence (r_Announcement r) = an_Sequence (r_Announcement r') ∧
     AnnouncementHash (r_Announcement r) = AnnouncementHash (r_Announcement r'));
}.

Lemma merged_refl (p : Policy) (rs : gmap string Record_) : merged p rs rs.
Proof. split; [done|done|]. intros id r H. exists r. auto. Qed.

Lemma merged_trans (p : Policy) (rs rs' rs'' : gmap string Record_) :
  merged p rs rs' → merged p rs' rs'' → merged p rs rs''.
Proof.
  intros [H1 H2 H3] [K1 K2 K3]. split; [auto|auto|]. intros id r Hr.
  destruct (H3 id r Hr) as (r' & Hr' & Hs). destruct (K3 id r' Hr') as (r'' & Hr'' & Ks).
  exists r''. split; [done|]. destruct Hs as [?|[? ?]], Ks as [?|[? ?]]; [left; lia..|right; split; congruence].
Qed.

(** A record stored under its own identifier, in a map that has room for it. *)
Lemma merged_insert (p : Policy) (rs : gmap string Record_) (r : Record_) :
  (is_Some (rs !! r_NodeID r) ∨ Z.of_nat (size rs) < p_MaxNodes p) →
  ((∀ id r, rs !! id = Some r → r_NodeID r = id ∧ admitted p r) → admitted p r) →
  (∀ old, rs !! r_NodeID r = Some old →
     an_Sequence (r_Announcement old) < an_Sequence (r_Announcement r) ∨
     an_Sequence (r_Announcement old) = an_Sequence (r_Announcement r) ∧
     AnnouncementHash (r_Announcement old) = AnnouncementHash (r_Announcement r)) →
  merged p rs (<[r_NodeID r := r]> rs).
Proof.
  intros Hroom Ha Hseq. split.
  - intros Hle. destruct (rs !! r_NodeID r) as [old|] eqn:E.
    + by rewrite map_size_insert_Some.
    + rewrite map_size_insert_None by done. destruct Hroom as [[? ?]|?]; [done|lia].
  - intros Hall id x [[<- <-]|[_ ?]]%lookup_insert_Some; auto.
  - intros id x Hx. destruct (decide (id = r_NodeID r)) as [->|Hne].
    + exists r. rewrite lookup_insert_eq. auto.
    + exists x. rewrite lookup_insert_ne by done. auto.
Qed.

Lemma mergeVerifiedRecord_merged (p : Policy) (rs rs' : gmap string Record_) (r : Record_) :
  admitted p r → mergeVerifiedRecord rs (p_MaxNodes p) r = Ok rs' → merged p rs rs'.
Proof.
  intros Ha. unfold mergeVerifiedRecord. destruct (rs !! r_NodeID r) as [old|] eqn:Eo.
  2: { destruct (_ <=? _) eqn:E; [done|]. intros <-%(inj Ok). unbool.
       apply merged_insert; [by right|done|]. intros ? ?. congruence. }
  destruct (_ <? _) eqn:Elt; [done|]. destruct (_ =? _) eqn:Eeq.
  2: { intros <-%(inj Ok). unbool. apply merged_insert; [left; eauto|done|].
       intros o Ho. rewrite Eo in Ho. injection Ho as <-. left. lia. }
  destruct (negb _) eqn:Eh; [done|]. intros <-%(inj Ok). unbool. apply bytes_equal_true in Eh.
  set (r' := foldl appendAttestation r (r_Attestations old)).
  assert (Hann : r_Announcement r' = r_Announcement r).
  { unfold r'. generalize (r_Attestations old). intros l. revert r Ha Eo Elt Eeq Eh r'.
    assert (Hgen : ∀ l r, r_Announcement (foldl appendAttestation r l) = r_Announcement r).
    { clear. induction l as [|t l IH]; intros r; [done|]. simpl. by rewrite IH. }
    intros. apply Hgen. }
  assert (Hid : r_NodeID r' = r_NodeID r) by (unfold r_NodeID; by rewrite Hann).
  rewrite <- Hid. apply merged_insert; rewrite ?Hid, ?Hann; [left; eauto| |].
  - intros Hall. destruct (Hall _ _ Eo) as [_ Hold]. destruct Ha as [Ht Hnd Hen Hq].
    destruct (foldl_append_spec (endorsed p (r_Announcement r)) (r_Attestations old) r Hnd Hen) as (_ & Hnd' & Hen' & Hlen).
    { eapply list.Forall_impl; [apply (ad_endorsed _ _ Hold)|]. intros t (i & ? & Hh & ?). exists i. by rewrite Eh. }
    fold r' in Hnd', Hen', Hlen. split; rewrite ?Hann; try done. destruct Hq; [by left|right; lia].
  - intros o Ho. rewrite Eo in Ho. injection Ho as <-. right. split; [lia|done].
Qed.

Lemma mergeAll_merged (p : Policy) (l : list Record_) (rs rs' : gmap string Record_) :
  Forall (admitted p) l → mergeAll rs (p_MaxNodes p) l = Ok rs' → merged p rs rs'.
Proof.
  revert rs. induction l as [|r l IH]; intros rs Hl H; simpl in H.
  - apply (inj Ok) in H as <-. apply merged_refl.
  - apply Forall_cons_iff in Hl as [Hr Hl]. destruct (mergeVerifiedRecord _ _ _) as [rs1|] eqn:H1; [|done].
    eapply merged_trans; [by eapply mergeVerifiedRecord_merged|by eapply IH].
Qed.

Lemma verifyAll_admitted (p : Policy) (l : list Record_) (now : Time) :
  verifyAll p l now = None → Forall (admitted p) l.
Proof.
  induction l as [|r l IH]; simpl; [constructor|]. destruct (VerifyRecord p r now) eqn:E; [done|].
  intros H. constructor; [by eapply VerifyRecord_admitted|by apply IH].
Qed.

Lemma Merge_merged (g g' : Registry) (r : Record_) (now : Time) (e : option error) :
  Merge g r now = (g', e) →
  policy g' = policy g ∧ merged (policy g) (records g) (records g') ∧ (e ≠ None → g' = g).
Proof.
  unfold Merge. destruct (VerifyRecord _ _ _) eqn:Hv; [intros; simplify_eq; eauto using merged_refl|].
  destruct (mergeVerifiedRecord _ _ _) eqn:Hm; intros; simplify_eq; [|eauto using merged_refl].
  split_and!; try done. eapply mergeVerifiedRecord_merged; [|done]. by eapply VerifyRecord_admitted.
Qed.

Lemma MergeSnapshot_merged (g g' : Registry) (s : Snapshot) (id : string) (now : Time) (e : option error) :
  MergeSnapshot g s id now = (g', e) →
  policy g' = policy g ∧ merged (policy g) (records g) (records g') ∧ (e ≠ None → g' = g).
Proof.
  unfold MergeSnapshot. destruct (VerifySnapshotHeader _ _ _ _); [intros; simplify_eq; eauto using merged_refl|].
  destruct (verifyAll _ _ _) eqn:Hv; [intros; simplify_eq; eauto using merged_refl|].
  destruct (mergeAll _ _ _) eqn:Hm; intros; simplify_eq; [|eauto using merged_refl].
  split_and!; try done. eapply mergeAll_merged; [|done]. by eapply verifyAll_admitted.
Qed.

(** The operations on a registry. *)
Inductive step : Registry → Registry → Prop :=
| step_merge g r now g' e : Merge g r now = (g', e) → step g g'
| step_snapshot g s id now g' e : MergeSnapshot g s id now = (g', e) → step g g'
| step_sweep g now : step g (Sweep g now).1.

Lemma NewPolicy_ok (seeds : list PinnedNode) (q : Z) (allow : bool) (m : Z) (p : Policy) :
  NewPolicy seeds q allow m = Ok p → policy_ok p ∧ checkSeeds allow ∅ (p_Seeds p) = None ∧ p_Seeds p = seeds ∧
    p_AllowPrivateIPs p = allow ∧ p_AuthorityQuorum p = q.
Proof.
  unfold NewPolicy, policy_ok. pose proof (blen_nonneg seeds). cbv zeta.
  set (m' := if m =? 0 then _ else _). intros Hn. step_if Hn. step_if Hn.
  destruct (checkSeeds allow ∅ seeds) eqn:Hc; [done|]. apply (inj Ok) in Hn as <-. simpl. unbool.
  split_and!; try done; lia.
Qed.

Lemma registry_step_ok (g g' : Registry) : step g g' → registry_ok g → registry_ok g'.
Proof.
  intros Hst [Hp Hn Hr].
  assert (Hm : ∀ g', policy g' = policy g → merged (policy g) (records g) (records g') → registry_ok g').
  { intros h E [H1 H2 _]. split; rewrite ?E; auto. }
  destruct Hst as [g r now g' e H|g s id now g' e H|g now].
  - apply Merge_merged in H as (? & ? & _). auto.
  - apply MergeSnapshot_merged in H as (? & ? & _). auto.
  - split; simpl; [done| |].
    + etrans; [|exact Hn]. apply Nat2Z.inj_le, map_subseteq_size, map_filter_subseteq.
    + intros id r [H _]%map_lookup_filter_Some. by apply Hr.
Qed.

(** C16. The directory only ever holds admitted nodes: after any sequence of merges,
    snapshot merges and sweeps, accepted or refused, there are at most
    [MaxNodes] records, each under the identifier of its own announcement, each
    announcement verified when it came in, and each pinned or endorsed by a
    quorum of distinct pinned authorities whose signatures over it verify. *)
Theorem registry_invariant (p : Policy) (g0 g : Registry) :
  NewRegistry p = Ok g0 → rtc step g0 g → registry_ok g.
Proof.
  unfold NewRegistry. destruct (NewPolicy _ _ _ _) as [v|] eqn:Hp; [|done]. intros <-%(inj Ok) Hrun.
  apply NewPolicy_ok in Hp as (Hp & _).
  assert (Hok : registry_ok {| policy := v; records := ∅ |}).
  { split; simpl; [done| |by intros]. destruct Hp as (_ & _ & ?). rewrite map_size_empty. lia. }
  clear Hp. induction Hrun; eauto using registry_step_ok.
Qed.

(** C33. Merging never goes back and never half-happens: a refused record or snapshot
    leaves the registry as it was; an accepted one keeps every node that was
    known, with an announcement of a higher sequence number, or of the same one
    and the same hash. *)
Theorem merge_forward (g g' : Registry) (now : Time) (e : option error) :
  (∃ r, Merge g r now = (g', e)) ∨ (∃ s id, MergeSnapshot g s id now = (g', e)) →
  (e ≠ None → g' = g) ∧
  ∀ id r, records g !! id = Some r → ∃ r', records g' !! id = Some r' ∧
    (an_Sequence (r_Announcement r) < an_Sequence (r_Announcement r') ∨
     an_Sequence (r_Announcement r) = an_Sequence (r_Announcement r') ∧
     AnnouncementHash (r_Announcement r) = AnnouncementHash (r_Announcement r')).
Proof.
  intros [[r H]|(s & id & H)]; [apply Merge_merged in H|apply MergeSnapshot_merged in H];
    destruct H as (_ & Hm & He); (split; [done|]); apply (mg_forward _ _ _ Hm).
Qed.

End RegistryFacts.

(** * Signing *)

Section Signing.
Context `{C : Crypto} {CL : CryptoLaws C} {NI : Netip}.

Lemma Truncate_idem (t : Time) : Truncate (Truncate t Millisecond) Millisecond = Truncate t Millisecond.
Proof. unfold Truncate, Millisecond. div_lia. Qed.

Lemma Truncate_lease (t d : Z) :
  MinLease ≤ d ≤ MaxLease →
  MinLease ≤ Truncate (TAdd t d) Millisecond - Truncate t Millisecond ≤ MaxLease.
Proof. unfold Truncate, TAdd, MinLease, MaxLease, Hour, Minute, Second, Millisecond. intros. div_lia. Qed.

Lemma Truncate_bounds (t : Z) : t - Millisecond < Truncate t Millisecond ≤ t.
Proof. unfold Truncate, Millisecond. div_lia. Qed.

(** What [SignAnnouncement] returns verifies until it expires. *)
Lemma SignAnnouncement_ok (s : HybridSigner) (coins : bytes) (ep : Endpoint) (seq : Z) (now : Time) (ls : Duration)
    (allow : bool) (a : Announcement) :
  blen (edPrivate s) = ed25519_PrivateKeySize → Millisecond ≤ now →
  SignAnnouncement (Some s) coins ep seq now ls allow = Ok a →
  an_Identity a = PublicIdentity s ∧ an_Endpoint a = ep ∧ an_Sequence a = seq ∧
  an_IssuedAt a = Truncate now Millisecond ∧ Truncate (an_ExpiresAt a) Millisecond = an_ExpiresAt a ∧
  now + MinLease - Millisecond < an_ExpiresAt a ∧
  ∀ t, now - MaxClockSkew ≤ t < an_ExpiresAt a → announcement_ok a t allow.
Proof.
  intros Hk Hnow. unfold SignAnnouncement. cbv zeta. intros Ha. do 3 step_if Ha.
  destruct (Sign _ _ _ _) as [sig|] eqn:Hs; [|done]. apply (inj Ok) in Ha as <-. unbool.
  pose proof (Truncate_lease now ls ltac:(lia)) as Hl. pose proof (Truncate_bounds now) as Hb.
  pose proof (Truncate_bounds (TAdd now ls)) as Hb'. unfold TAdd in Hb'.
  assert (Hms : 0 < Millisecond) by done.
  assert (Hml : 0 < MinLease) by done.
  split_and!; cbn [an_Identity an_Endpoint an_Sequence an_IssuedAt an_ExpiresAt]; try done.
  - apply Truncate_idem.
  - unfold TAdd. lia.
  - assert (Hi : Truncate now Millisecond ≠ 0).
    { unfold Truncate, Millisecond in *. clear -Hnow. div_lia. }
    intros t Ht. split; cbn [an_Version an_Identity an_Endpoint an_Sequence an_IssuedAt an_ExpiresAt an_Signature];
      try done; [split; [done|lia]|lia|].
    eapply sign_verifies; [by apply restore_signer|exact Hs].
Qed.

Lemma checkSeeds_nodup (allow : bool) (seen : gset string) (l : list PinnedNode) :
  checkSeeds allow seen l = None →
  NoDup ((ni_NodeID ∘ pn_Identity) <$> l) ∧ ∀ x, x ∈ l → ni_NodeID (pn_Identity x) ∉ seen.
Proof.
  revert seen. induction l as [|x l IH]; intros seen H; simpl in H.
  { split; [constructor|]. by intros x ?%elem_of_nil. }
  destruct (negb _); [done|]. destruct (negb _); [done|]. case_bool_decide; [done|].
  apply IH in H as [Hnd Hs]. rewrite fmap_cons. split.
  - apply list.NoDup_cons. split; [|done]. intros (y & Hy & Hin)%list_elem_of_fmap. specialize (Hs y Hin).
    simpl in Hy. set_solver.
  - intros y [->|Hy]%elem_of_cons; [done|]. specialize (Hs y Hy). set_solver.
Qed.

Lemma foldl_authorities_keep (l : list PinnedNode) (m : gmap string NodePublicIdentity) (id : string) :
  id ∉ (ni_NodeID ∘ pn_Identity) <$> l →
  foldl (λ m seed, <[ni_NodeID (pn_Identity seed) := pn_Identity seed]> m) m l !! id = m !! id.
Proof.
  revert m. induction l as [|x l IH]; intros m Hni; [done|]. rewrite fmap_cons, not_elem_of_cons in Hni.
  destruct Hni as [Hne Hni]. simpl. rewrite IH by done. by rewrite lookup_insert_ne.
Qed.

(** An authority of the policy is the one its identifier names. *)
Lemma Authority_lookup (p : Policy) (i : NodePublicIdentity) :
  checkSeeds (p_AllowPrivateIPs p) ∅ (p_Seeds p) = None → Authority p i = true →
  authorities p !! ni_NodeID i = Some i ∧ ni_NodeID i ∈ (ni_NodeID ∘ pn_Identity) <$> p_Seeds p.
Proof.
  intros [Hnd _]%checkSeeds_nodup. unfold Authority, pinned.
  destruct (List.find _ _) as [seed|] eqn:Hf; [|done]. apply find_some in Hf as [Hin%list_elem_of_In Hid]. unbool.
  unfold sameIdentity. intros H. unbool.
  assert (pn_Identity seed = i) as <-.
  { apply bytes_equal_true in H0, H1. destruct (pn_Identity seed), i; simpl in *. congruence. }
  split; [|by apply (list_elem_of_fmap_2 (ni_NodeID ∘ pn_Identity))].
  unfold authorities. apply list_elem_of_split in Hin as (l1 & l2 & E). rewrite E in *.
  rewrite fmap_app, fmap_cons in Hnd. apply list.NoDup_app in Hnd as (_ & _ & [Hni _]%list.NoDup_cons).
  rewrite foldl_app. simpl. rewrite foldl_authorities_keep by done. apply lookup_insert_eq.
Qed.

(** What an authority signs counts as an attestation. *)
Lemma SignAttestation_vouches (p : Policy) (s : HybridSigner) (coins : bytes) (a : Announcement) (t : Attestation)
    (rest : list Attestation) (issued now now' : Time) :
  blen (edPrivate s) = ed25519_PrivateKeySize →
  checkSeeds (p_AllowPrivateIPs p) ∅ (p_Seeds p) = None → Authority p (PublicIdentity s) = true →
  Millisecond ≤ issued ≤ now → now ≤ now' →
  an_IssuedAt a = Truncate issued Millisecond → Truncate (an_ExpiresAt a) Millisecond = an_ExpiresAt a →
  SignAttestation (Some s) coins a now = Ok t →
  at_AuthorityID t = ni_NodeID (PublicIdentity s) ∧
  vouches (authorities p) {| r_Announcement := a; r_Attestations := rest |} now' t.
Proof.
  intros Hk Hseeds Hau Hi Hn Hiss Hexp. unfold SignAttestation. cbv zeta. intros Ht. step_if Ht.
  destruct (Sign _ _ _ _) as [sig|] eqn:Hs; [|done]. apply (inj Ok) in Ht as <-. split; [done|].
  destruct (Authority_lookup p _ Hseeds Hau) as [Hl _].
  exists (PublicIdentity s). cbn [at_AuthorityID]. split_and!; [done| |].
  - unfold attestationFits, After, Before, TEqual, TAdd, IsZero.
    cbn [at_Version at_AnnouncementHash at_ObservedAt at_ExpiresAt r_Announcement].
    unfold AnnouncementHash at 1. rewrite Sha256.Sum256_blen, Hexp, Hiss, !Z.eqb_refl.
    rewrite (proj2 (bytes_equal_true _ _) eq_refl). cbn [negb orb].
    pose proof (Truncate_bounds issued). pose proof (Truncate_bounds now). assert (Hsk : 0 < MaxClockSkew) by done.
    assert (0 < Millisecond < MaxClockSkew) by done.
    rewrite (proj2 (Z.eqb_neq _ _)); [|unfold Truncate, Millisecond in *; clear -Hi; div_lia].
    rewrite !(proj2 (Z.ltb_ge _ _)) by lia. done.
  - cbn [at_Signature]. eapply sign_verifies; [by apply restore_signer|exact Hs].
Qed.

(** A record with a quorum of attestations verifies. *)
Lemma quorum_verifies (seeds : list PinnedNode) (q m : Z) (allow : bool) (p : Policy) (s : HybridSigner)
    (coins : bytes) (ep : Endpoint) (seq : Z) (t0 t : Time) (ls : Duration) (a : Announcement)
    (voters : list HybridSigner) (atts : list Attestation) :
  NewPolicy seeds q allow m = Ok p →
  blen (edPrivate s) = ed25519_PrivateKeySize → Millisecond ≤ t0 →
  SignAnnouncement (Some s) coins ep seq t0 ls allow = Ok a →
  NoDup ((λ v, ni_NodeID (PublicIdentity v)) <$> voters) → q ≤ blen voters →
  Forall2 (λ v x, blen (edPrivate v) = ed25519_PrivateKeySize ∧ Authority p (PublicIdentity v) = true ∧
                  ∃ coins now, t0 ≤ now ≤ t ∧ SignAttestation (Some v) coins a now = Ok x) voters atts →
  t0 ≤ t < an_ExpiresAt a →
  VerifyRecord p {| r_Announcement := a; r_Attestations := atts |} t = None.
Proof.
  intros Hp Hk Ht0 Ha Hnd Hq Hv Ht. apply NewPolicy_ok in Hp as (Hpo & Hseeds & Hsd & Hallow & Hquo).
  apply SignAnnouncement_ok in Ha as (_ & _ & _ & Hiss & Hexp & _ & Hok); [|done..].
  rewrite <- Hallow in *.
  assert (Hids : at_AuthorityID <$> atts = (λ v, ni_NodeID (PublicIdentity v)) <$> voters).
  { clear Hnd Hq. induction Hv as [|v x voters atts (Hkv & Hau & c & n & Hn & Hs) _ IH]; [done|].
    rewrite !fmap_cons, IH. f_equal.
    eapply (SignAttestation_vouches p v c a x [] t0 n n) in Hs as [? _]; try done; lia. }
  assert (Hall : Forall (vouches (authorities p) {| r_Announcement := a; r_Attestations := atts |} t) atts).
  { apply List.Forall_forall. intros x Hx%list_elem_of_In. apply list_elem_of_lookup in Hx as [i Hi].
    destruct (Forall2_lookup_r _ _ _ _ _ Hv Hi) as (v & _ & Hkv & Hau & c & n & Hn & Hs).
    eapply (SignAttestation_vouches p v c a x atts t0 n t) in Hs as [_ ?]; try done; lia. }
  assert (Hlen : blen atts = blen voters) by (unfold blen; by rewrite (Forall2_length Hv)).
  assert (Hmax : blen atts ≤ blen (p_Seeds p)).
  { rewrite <- Hids in Hnd. unfold blen. apply Nat2Z.inj_le.
    rewrite <- (length_fmap at_AuthorityID atts), <- (length_fmap (ni_NodeID ∘ pn_Identity) (p_Seeds p)).
    apply submseteq_length, NoDup_submseteq; [done|]. intros id (x & -> & Hx)%list_elem_of_fmap.
    apply list_elem_of_lookup in Hx as [i Hi].
    destruct (Forall2_lookup_r _ _ _ _ _ Hv Hi) as (v & _ & Hkv & Hau & c & n & Hn & Hs).
    eapply (SignAttestation_vouches p v c a x atts t0 n t) in Hs as [-> _]; try done; [|lia..].
    by apply Authority_lookup. }
  unfold VerifyRecord.
  rewrite (proj2 (verifyRecordAttestations_Ok p _ t (blen atts))).
  - destruct (isPinned _ _); [done|]. by rewrite (proj2 (Z.ltb_ge _ _)) by lia.
  - cbn [r_Attestations r_Announcement]. split_and!; try done.
    + destruct Hpo as ((_ & ?) & _). lia.
    + apply Hok. assert (0 < MaxClockSkew) by done. lia.
    + by rewrite Hids.
Qed.

(** A quorum is enough: a node that signs its announcement and gets attestations
    from [AuthorityQuorum] distinct pinned authorities, at any times between its
    announcement and the check, has a record that verifies at every time until
    the announcement expires, and that any registry of the policy with room takes
    in, whatever other nodes it holds. *)
Theorem quorum_admits (seeds : list PinnedNode) (q m : Z) (allow : bool) (p : Policy) (s : HybridSigner)
    (coins : bytes) (ep : Endpoint) (seq : Z) (t0 t : Time) (ls : Duration) (a : Announcement)
    (voters : list HybridSigner) (atts : list Attestation) :
  NewPolicy seeds q allow m = Ok p →
  blen (edPrivate s) = ed25519_PrivateKeySize → Millisecond ≤ t0 →
  SignAnnouncement (Some s) coins ep seq t0 ls allow = Ok a →
  NoDup ((λ v, ni_NodeID (PublicIdentity v)) <$> voters) → q ≤ blen voters →
  Forall2 (λ v x, blen (edPrivate v) = ed25519_PrivateKeySize ∧ Authority p (PublicIdentity v) = true ∧
                  ∃ coins now, t0 ≤ now ≤ t ∧ SignAttestation (Some v) coins a now = Ok x) voters atts →
  t0 ≤ t < an_ExpiresAt a →
  let r := {| r_Announcement := a; r_Attestations := atts |} in
  VerifyRecord p r t = None ∧
  ∀ g, policy g = p → records g !! r_NodeID r = None → Z.of_nat (size (records g)) < p_MaxNodes p →
    Merge g r t = (set_records g (<[r_NodeID r := r]> (records g)), None).
Proof.
  intros Hp Hk Ht0 Ha Hnd Hq Hv Ht. cbv zeta.
  assert (Hr : VerifyRecord p {| r_Announcement := a; r_Attestations := atts |} t = None) by (by eapply quorum_verifies).
  split; [done|]. intros g Hg Hnew Hroom. unfold Merge, mergeVerifiedRecord. rewrite Hg, Hr, Hnew.
  by rewrite (proj2 (Z.leb_gt _ _)).
Qed.

End Signing.

(** * The agent *)

Section AgentFacts.
Context `{C : Crypto} {CL : CryptoLaws C} {NI : Netip} {MO : MapOrder}
  {DS : StrictDecoder Snapshot}.

(** The agent's registry moved by registry operations, and nothing but the registry
    and the agent's own record changed. *)
Record evolved (g g' : Agent) : Prop := {
  ev_registry : rtc step (registry g) (registry g');
  ev_policy : a_policy g' = a_policy g;
  ev_signer : signer g' = signer g;
  ev_endpoint : endpoint g' = endpoint g ∧ lease g' = lease g;
}.

#[export] Instance evolved_preorder : PreOrder evolved.
Proof.
  split.
  - intros g. split; try done.
  - intros x y z [? ? ? [? ?]] [? ? ? [? ?]]. split; [by etrans|congruence..|split; congruence].
Qed.

Lemma evolved_registry (g : Agent) (rg : Registry) : rtc step (registry g) rg → evolved g (set_registry g rg).
Proof. by split. Qed.

Lemma evolved_self (g : Agent) (r : Record_) (n : Z) : evolved g (set_self g r n).
Proof. by split. Qed.

Lemma renew_evolved (coins : bytes) (g g' : Agent) (now : Time) (e : option error) :
  renew coins g now = (g', e) → evolved g g'.
Proof.
  unfold renew. cbv zeta. destruct (_ && _)%bool; [intros; by simplify_eq|].
  destruct (_ <=? 0); [intros; by simplify_eq|].
  set (seq := if _ <=? sequence g then _ else _).
  destruct (SignAnnouncement _ _ _ _ _ _ _) as [a|]; [|intros; by simplify_eq].
  set (g1 := set_self g _ seq). destruct (isPinned _ _).
  - destruct (Merge _ _ _) as [rg me] eqn:Hm. intros [= <- <-]. transitivity g1; [apply evolved_self|].
    apply evolved_registry. eapply rtc_once, step_merge. exact Hm.
  - intros [= <- <-]. apply evolved_self.
Qed.

Lemma AcceptRegistration_evolved (probe : Announcement → option error) (coins : bytes) (g g' : Agent) (ip : Addr)
    (request : Record_) (now : Time) (r : Result Record_) :
  AcceptRegistration probe coins g ip request now = (g', r) → evolved g g'.
Proof.
  unfold AcceptRegistration. intros H. repeat case_match; simplify_eq; try done.
  all: apply evolved_registry; eapply rtc_once, step_merge; eassumption.
Qed.

Lemma registerAll_evolved (post : PinnedNode → Record_ → Result Record_) (now : Time) (l : list PinnedNode)
    (g g' : Agent) (me me' : Record_) (f f' : list error) :
  foldl (registerOne post now) (g, me, f) l = (g', me', f') → evolved g g'.
Proof.
  revert g me f. induction l as [|seed l IH]; intros g me f H; simpl in H; [by simplify_eq|].
  destruct (bool_decide _); [by eapply IH|]. destruct (post _ _); [|by eapply IH].
  destruct (_ || _)%bool; [by eapply IH|]. apply IH in H. etrans; [|exact H]. apply evolved_self.
Qed.

Lemma pullAll_evolved (get : Endpoint → NodePublicIdentity → Result (Z * bytes)) (now : Time) (l : list PinnedNode)
    (g g' : Agent) (n n' : Z) (f f' : list error) :
  foldl (pullOne get now) (g, n, f) l = (g', n', f') → evolved g g'.
Proof.
  revert g n f. induction l as [|seed l IH]; intros g n f H; simpl in H; [by simplify_eq|].
  destruct (FetchSnapshot _ _ _ _ _) as [s|]; [|by eapply IH].
  destruct (MergeSnapshot _ _ _ _) as [rg [e|]] eqn:Hm; [by eapply IH|]. apply IH in H. etrans; [|exact H].
  apply evolved_registry. eapply rtc_once, step_snapshot. exact Hm.
Qed.

Lemma SyncOnce_evolved (coins : bytes) (post : PinnedNode → Record_ → Result Record_)
    (get : Endpoint → NodePublicIdentity → Result (Z * bytes)) (g g' : Agent) (now : Time) (e : option error) :
  SyncOnce coins post get g now = (g', e) → evolved g g'.
Proof.
  unfold SyncOnce. destruct (renew _ _ _) as [g1 [e1|]] eqn:Hr.
  { intros [= <- <-]. by eapply renew_evolved. }
  destruct (foldl (registerOne post now) _ _) as [[g2 me] f] eqn:Hreg. cbv beta iota.
  set (x := match VerifyRecord _ _ _ with None => _ | Some _ => _ end).
  assert (Hx : evolved g2 x.1).
  { unfold x. destruct (VerifyRecord _ _ _); [done|]. destruct (Merge _ _ _) as [rg [me'|]] eqn:Hm;
      apply evolved_registry; eapply rtc_once, step_merge; exact Hm. }
  destruct x as [g3 f3]. destruct (foldl (pullOne get now) _ _) as [[g4 n] f4] eqn:Hp.
  intros [= <- _]. transitivity g1; [by eapply renew_evolved|]. transitivity g2; [by eapply registerAll_evolved|].
  transitivity g3; [exact Hx|]. transitivity g4; [by eapply pullAll_evolved|].
  apply evolved_registry. apply rtc_once, step_sweep.
Qed.

(** The life of an agent: its own synchronisation, the registrations it handles and
    the sweeps of the node's ticker. *)
Inductive agent_step : Agent → Agent → Prop :=
| agent_sync coins post get g now g' e : SyncOnce coins post get g now = (g', e) → agent_step g g'
| agent_accept probe coins g ip request now g' r :
    AcceptRegistration probe coins g ip request now = (g', r) → agent_step g g'
| agent_sweep g now : agent_step g (set_registry g (Sweep (registry g) now).1).

Definition agent_ok (g : Agent) : Prop := registry_ok (registry g) ∧ a_policy g = policy (registry g).

Lemma steps_policy (x y : Registry) : rtc step x y → policy y = policy x.
Proof.
  induction 1 as [|x y z Hst _ IH]; [done|]. rewrite IH.
  destruct Hst as [g r now g' e H|g s id now g' e H|g now]; [apply Merge_merged in H|apply MergeSnapshot_merged in H|done];
    by destruct H as (? & _).
Qed.

Lemma evolved_ok (g g' : Agent) : evolved g g' → agent_ok g → agent_ok g'.
Proof.
  intros [Hrg Hp _ _] [Hok E]. split.
  - clear E Hp. induction Hrg; eauto using registry_step_ok.
  - by rewrite Hp, E, (steps_policy _ _ Hrg).
Qed.

Lemma agent_steps_evolved (g g' : Agent) : rtc agent_step g g' → evolved g g'.
Proof.
  induction 1 as [|x y z Hst _ IH]; [done|]. etrans; [|exact IH].
  destruct Hst; [by eapply SyncOnce_evolved|by eapply AcceptRegistration_evolved|].
  apply evolved_registry, rtc_once, step_sweep.
Qed.

Lemma NewAgent_ok (coins : bytes) (p : Policy) (ep : Endpoint) (sg : option HybridSigner) (ls : Duration)
    (now : Time) (g : Agent) :
  NewAgent coins p ep sg ls now = Ok g →
  agent_ok g ∧ ∃ s, sg = Some s ∧ signer g = s ∧ policy_ok (a_policy g).
Proof.
  unfold NewAgent. destruct (NewRegistry p) as [rg|] eqn:Hrg; [|done]. destruct sg as [s|]; [|done].
  destruct (_ || _)%bool; [done|]. destruct (negb _); [done|]. cbv zeta. set (g0 := {| registry := rg |}).
  destruct (renew _ _ _) as [g1 [e|]] eqn:Hr; [done|]. intros <-%(inj Ok).
  unfold NewRegistry in Hrg. destruct (NewPolicy _ _ _ _) as [v|] eqn:Hp; [|done]. apply (inj Ok) in Hrg.
  apply NewPolicy_ok in Hp as (Hp & _).
  assert (Hok : agent_ok g0).
  { split; [|done]. subst rg. split; simpl; [done| |by intros]. destruct Hp as (_ & _ & ?). rewrite map_size_empty. lia. }
  pose proof (renew_evolved _ _ _ _ _ Hr) as Hev. split; [by eapply evolved_ok|].
  exists s. destruct Hev as [_ Hpol Hs _]. split_and!; [done|done|]. rewrite Hpol. subst rg. done.
Qed.

(** ** Snapshots *)

#[export] Instance record_le_total : Total record_le.
Proof. apply key_le_total. Qed.
#[export] Instance record_le_trans : Transitive record_le.
Proof. apply key_le_trans. Qed.

Lemma sorted_unique (l : list Record_) :
  StronglySorted record_le l → NoDup (r_NodeID <$> l) →
  unsorted str_ltb l = false ∧ unsorted (λ x y, negb (bool_decide (x = y))) l = false.
Proof.
  induction 1 as [|x l Hs IH Hall]; [done|]. intros [Hni Hnd]%list.NoDup_cons. destruct (IH Hnd) as [H1 H2].
  destruct l as [|y l]; [done|]. cbn [unsorted] in *. apply Forall_cons_iff in Hall as [Hxy _].
  assert (Hne : r_NodeID x ≠ r_NodeID y) by (intros E; apply Hni; rewrite E; simpl; apply list_elem_of_here).
  rewrite H1, H2, (bool_decide_eq_false_2 _ Hne), (key_le_lt r_NodeID x y Hxy Hne). done.
Qed.

Lemma Active_spec (g : Registry) (now : Time) :
  registry_ok g →
  (∀ r, r ∈ Active g now ↔ records g !! r_NodeID r = Some r ∧ now < an_ExpiresAt (r_Announcement r)) ∧
  NoDup (r_NodeID <$> Active g now) ∧ blen (Active g now) ≤ p_MaxNodes (policy g).
Proof.
  intros [_ Hn Hr]. unfold Active.
  assert (Hkeys : r_NodeID <$> (range_map (records g)).*2 = (range_map (records g)).*1).
  { rewrite <- list_fmap_compose. apply list_fmap_ext. intros i [id r] Hi. simpl.
    apply list_elem_of_lookup_2, range_map_elem in Hi. by apply Hr in Hi as [? _]. }
  split_and!.
  - intros r. rewrite (merge_sort_Permutation record_le), list_elem_of_filter, list_elem_of_fmap.
    unfold After. rewrite Z.ltb_lt. split.
    + intros [? ([id r'] & -> & Hin%range_map_elem)]. simpl in *. destruct (Hr _ _ Hin) as [-> _]. done.
    + intros [Hl ?]. split; [done|]. exists (r_NodeID r, r). split; [done|]. by apply range_map_elem.
  - rewrite (merge_sort_Permutation record_le). eapply sublist_NoDup; [|apply fmap_sublist, sublist_filter].
    rewrite Hkeys. apply range_map_keys.
  - unfold blen. rewrite (merge_sort_Permutation record_le). etrans; [|exact Hn].
    apply Nat2Z.inj_le. etrans; [apply length_filter|]. rewrite length_fmap.
    rewrite (range_map_perm (records g)), length_map_to_list. done.
Qed.

(** A challenge response proves the key to whoever sent the nonce. *)
Lemma SignChallenge_verifies (coins nonce : bytes) (s : HybridSigner) (now now' : Time) (r : ChallengeResponse) :
  blen (edPrivate s) = ed25519_PrivateKeySize → SignChallenge (Some s) coins nonce now = Ok r →
  now ≤ now' ≤ now + 4 * Minute → VerifyChallenge (PublicIdentity s) nonce r now' = None.
Proof.
  intros Hk Hs Ht. unfold SignChallenge in Hs. cbv zeta in Hs. destruct (_ || _)%bool eqn:Hg; [done|]. unbool.
  destruct (Sign _ _ _ _) as [sig|] eqn:Hsig; [|done]. apply (inj Ok) in Hs as <-.
  unfold VerifyChallenge, Before, After, TAdd. cbn [ch_Version ch_NodeID ch_Nonce ch_CreatedAt ch_Signature].
  pose proof (Truncate_bounds now) as Hb. assert (Hc : 4 * Minute + Millisecond < MaxClockSkew) by done.
  assert (0 < Minute ∧ 0 < Millisecond) by done.
  rewrite bool_decide_eq_true_2, (proj2 (bytes_equal_true _ _) eq_refl) by done.
  rewrite !(proj2 (Z.ltb_ge _ _)) by lia. change (ProtocolVersion =? ProtocolVersion) with true.
  replace (blen nonce =? ChallengeBytes) with true by lia. cbn [negb orb].
  by erewrite sign_verifies; [|by apply restore_signer|exact Hsig].
Qed.

(** What an agent signs as its snapshot. *)
Lemma SignSnapshot_served (coins : bytes) (s : HybridSigner) (g : Agent) (now now' : Time) (snap : Snapshot) (maxNodes : Z) :
  blen (edPrivate s) = ed25519_PrivateKeySize → agent_ok g →
  SignSnapshot (Some s) coins (Active (registry g) now) now = Ok snap →
  (∀ r, r ∈ sn_Records snap ↔
     records (registry g) !! r_NodeID r = Some r ∧ now < an_ExpiresAt (r_Announcement r)) ∧
  Forall (admitted (a_policy g)) (sn_Records snap) ∧
  NoDup (r_NodeID <$> sn_Records snap) ∧ blen (sn_Records snap) ≤ p_MaxNodes (a_policy g) ∧
  (now ≤ now' ≤ now + MaxClockSkew - Millisecond → blen (sn_Records snap) ≤ maxNodes ≤ MaxDirectoryNodes → 0 < maxNodes →
   VerifySnapshotHeader snap (ni_NodeID (PublicIdentity s)) now' maxNodes = None).
Proof.
  intros Hk [Hok Hpol] Hsign.
  destruct (Active_spec (registry g) now Hok) as (Hin & Hnd & Hle).
  unfold SignSnapshot in Hsign. cbv zeta in Hsign. do 2 step_if Hsign.
  destruct (Sign _ _ _ _) as [sig|] eqn:Hs; [|done]. apply (inj Ok) in Hsign as <-. cbn [sn_Records].
  set (l := merge_sort record_le _).
  assert (Hperm : l ≡ₚ Active (registry g) now) by apply merge_sort_Permutation.
  split_and!.
  - intros r. by rewrite Hperm.
  - rewrite Hperm, Hpol. apply List.Forall_forall. intros r Hr%list_elem_of_In. apply Hin in Hr as [Hr _].
    by apply (go_records _ Hok) in Hr as [_ ?].
  - by rewrite Hperm.
  - rewrite Hpol. unfold blen. by rewrite Hperm.
  - intros Ht Hlen Hm. unfold VerifySnapshotHeader, Before, After, TAdd.
    cbn [sn_Version sn_Records sn_Publisher sn_GeneratedAt sn_Signature]. fold l.
    pose proof (Truncate_bounds now) as Hb. assert (Hc : 0 < Millisecond < MaxClockSkew) by done.
    rewrite PublicIdentity_valid, bool_decide_eq_true_2 by done.
    rewrite (proj2 (Z.leb_gt maxNodes 0)), (proj2 (Z.ltb_ge MaxDirectoryNodes maxNodes)) by lia. cbn [orb negb Z.eqb].
    rewrite (proj2 (Z.ltb_ge maxNodes _)) by lia. rewrite !(proj2 (Z.ltb_ge _ _)) by lia. cbn [orb].
    change (ProtocolVersion =? ProtocolVersion) with true. cbn [negb orb].
    assert (Hsorted : unsorted str_ltb l = false).
    { apply sorted_unique; [apply (StronglySorted_merge_sort record_le)|]. by rewrite Hperm. }
    rewrite Hsorted. erewrite sign_verifies; [done|by apply restore_signer|exact Hs].
Qed.

(** A record that verified keeps verifying until its announcement expires. *)
Lemma VerifyRecord_later (p : Policy) (r : Record_) (now now' : Time) :
  VerifyRecord p r now = None → now ≤ now' < an_ExpiresAt (r_Announcement r) → VerifyRecord p r now' = None.
Proof.
  intros Hv Ht. unfold VerifyRecord in *. destruct (verifyRecordAttestations p r now) as [n|] eqn:Hr; [|done].
  apply verifyRecordAttestations_Ok in Hr as (Hp & Hn & [? ? ? ? [? ?] ? ?] & Hl & Hnd & Hall).
  rewrite (proj2 (verifyRecordAttestations_Ok p r now' n)); [done|].
  split_and!; [done|done|by split; try done; lia|done|done|].
  eapply list.Forall_impl; [done|]. intros a (i & ? & Hfit & ?). exists i. split_and!; [done| |done].
  unfold attestationFits, After, TAdd in *. rewrite negb_true_iff, !orb_false_iff in *.
  destruct_and!. split_and!; try done. rewrite Z.ltb_ge in *. lia.
Qed.

Lemma verifyAll_None (p : Policy) (l : list Record_) (now : Time) :
  verifyAll p l now = None ↔ Forall (λ r, VerifyRecord p r now = None) l.
Proof.
  induction l as [|r l IH]; simpl; [by split; [constructor|]|]. rewrite Forall_cons_iff, <- IH.
  destruct (VerifyRecord p r now); naive_solver.
Qed.

(** Records of new nodes are taken as they are, as long as there is room. *)
Lemma mergeAll_fresh (maxNodes : Z) (l : list Record_) (rs : gmap string Record_) :
  NoDup (r_NodeID <$> l) → (∀ r, r ∈ l → rs !! r_NodeID r = None) →
  Z.of_nat (size rs) + blen l ≤ maxNodes →
  ∃ rs', mergeAll rs maxNodes l = Ok rs' ∧
    ∀ id r, rs' !! id = Some r ↔ rs !! id = Some r ∨ r ∈ l ∧ r_NodeID r = id.
Proof.
  revert rs. induction l as [|x l IH]; intros rs Hnd Hnew Hlen.
  { exists rs. split; [done|]. set_solver. }
  rewrite fmap_cons in Hnd. apply list.NoDup_cons in Hnd as [Hx Hnd]. rewrite blen_cons in Hlen.
  pose proof (blen_nonneg l). pose proof (Hnew x (list_elem_of_here _ _)) as Hxn.
  cbn [mergeAll]. unfold mergeVerifiedRecord. rewrite Hxn, (proj2 (Z.leb_gt _ _)) by lia.
  destruct (IH (<[r_NodeID x := x]> rs) Hnd) as (rs' & Hm & Hiff).
  - intros r Hr. rewrite lookup_insert_ne; [apply Hnew; by right|]. intros E. apply Hx. rewrite E.
    by apply list_elem_of_fmap_2.
  - rewrite map_size_insert_None by done. lia.
  - exists rs'. split; [done|]. intros id r. rewrite Hiff, lookup_insert_Some, elem_of_cons. split.
    + naive_solver.
    + intros [Hr|[[->|?] ?]]; [|by left; left|by right]. left. right. split; [congruence|done].
Qed.

(** C37. What a directory node serves is what its clients accept, up to the records
    themselves: however the agent has been synchronised and swept and whatever
    registrations it has handled, the snapshot it signs lists exactly the
    unexpired records of its registry, each admitted by the quorum of its policy.
    For a client of the same policy that pins this node and knows no records yet,
    at any time up to a millisecond less than the five minutes of permitted clock
    skew later, merging the snapshot succeeds exactly when every listed record
    passes [VerifyRecord] at that time, and then the client's registry is exactly
    the list; and a record that passes at the time of signing passes until it
    expires, so that only an expiry in between, or a record that does not verify
    at the node either, makes the client refuse. *)
Theorem snapshot_served (coins coins' : bytes) (p : Policy) (ep : Endpoint) (s : HybridSigner) (ls : Duration)
    (t0 now now' : Time) (g0 g : Agent) (snap : Snapshot) (client : Registry) :
  blen (edPrivate s) = ed25519_PrivateKeySize →
  NewAgent coins p ep (Some s) ls t0 = Ok g0 → rtc agent_step g0 g →
  SignSnapshot (Some s) coins' (Active (registry g) now) now = Ok snap →
  policy client = a_policy g → records client = ∅ → now ≤ now' ≤ now + MaxClockSkew - Millisecond →
  let merged := MergeSnapshot client snap (ni_NodeID (PublicIdentity s)) now' in
  (∀ r, r ∈ sn_Records snap ↔
     records (registry g) !! r_NodeID r = Some r ∧ now < an_ExpiresAt (r_Announcement r)) ∧
  Forall (admitted (a_policy g)) (sn_Records snap) ∧
  (merged.2 = None ↔ Forall (λ r, VerifyRecord (a_policy g) r now' = None) (sn_Records snap)) ∧
  (merged.2 = None → ∀ id r, records merged.1 !! id = Some r ↔ r ∈ sn_Records snap ∧ r_NodeID r = id) ∧
  (Forall (λ r, VerifyRecord (a_policy g) r now = None ∧ now' < an_ExpiresAt (r_Announcement r)) (sn_Records snap) →
   merged.2 = None).
Proof.
  intros Hk Hnew Hrun Hsign Hcp Hce Ht merged. apply NewAgent_ok in Hnew as (Hok0 & _).
  pose proof (evolved_ok _ _ (agent_steps_evolved _ _ Hrun) Hok0) as Hok.
  assert (Hmax : 0 < p_MaxNodes (a_policy g) ≤ MaxDirectoryNodes).
  { destruct Hok as [[(_ & _ & ?) _ _] ->]. done. }
  destruct (SignSnapshot_served coins' s g now now' snap (p_MaxNodes (a_policy g)) Hk Hok Hsign)
    as (Hin & Hadm & Hnd & Hlen & Hhdr).
  destruct (mergeAll_fresh (p_MaxNodes (a_policy g)) (sn_Records snap) ∅ Hnd) as (rs & Hrs & Hiff);
    [by intros; apply lookup_empty|rewrite map_size_empty; lia|].
  assert (Hmerged : merged.2 = None ↔ Forall (λ r, VerifyRecord (a_policy g) r now' = None) (sn_Records snap)).
  { unfold merged, MergeSnapshot. rewrite Hcp, Hce, Hhdr, Hrs by (done || lia). rewrite <- verifyAll_None.
    by destruct (verifyAll _ _ _). }
  split_and!; [done|done|done| |].
  - intros Hm%Hmerged%verifyAll_None id r. unfold merged, MergeSnapshot.
    rewrite Hcp, Hce, Hhdr, Hrs, Hm by (done || lia). cbn [fst set_records records]. rewrite Hiff, lookup_empty. naive_solver.
  - intros Hall. apply Hmerged. eapply list.Forall_impl; [done|]. intros r [Hv Hx].
    eapply VerifyRecord_later; [done|lia].
Qed.

(** ** Registrations and renewals *)

Lemma appendAttestation_elem (r : Record_) (a : Attestation) : a ∈ r_Attestations (appendAttestation r a).
Proof.
  unfold appendAttestation, sortAttestations. cbn [r_Attestations].
  rewrite (merge_sort_Permutation authority_le).
  destruct (replaceAttestation (r_Attestations r) a) as [k|] eqn:Hk; simpl; [|set_solver].
  revert k Hk. induction (r_Attestations r) as [|y l IH]; intros k Hk; simpl in Hk; [done|].
  case_bool_decide; [simplify_eq; set_solver|]. destruct (replaceAttestation l a); [|done].
  simplify_eq/=. specialize (IH _ eq_refl). set_solver.
Qed.

Lemma Merge_refused (g g' : Registry) (r : Record_) (now : Time) (e : error) :
  Merge g r now = (g', Some e) → g' = g.
Proof. intros H. apply Merge_merged in H as (_ & _ & H). by apply H. Qed.

(** An authority attests only what it has checked, and a refusal changes nothing:
    a registration is answered with a record only by a pinned authority, for a
    verified announcement whose address is the one the request came from and
    whose node passed the reachability probe; the record is the announcement
    that was sent, with the authority's attestation of it, and it enters the
    registry only through a merge. *)
Theorem AcceptRegistration_checked (probe : Announcement → option error) (coins : bytes) (g g' : Agent)
    (remote : Addr) (request : Record_) (now : Time) (res : Result Record_) :
  AcceptRegistration probe coins g remote request now = (g', res) →
  match res with
  | Err _ => g' = g
  | Ok r =>
      Authority (a_policy g) (PublicIdentity (signer g)) = true ∧
      announcement_ok (r_Announcement request) now (p_AllowPrivateIPs (a_policy g)) ∧
      (∃ ip, ParseAddr (e_IP (an_Endpoint (r_Announcement request))) = Some ip ∧ Unmap remote = Unmap ip) ∧
      probe (r_Announcement request) = None ∧
      r_Announcement r = r_Announcement request ∧
      (∃ t, t ∈ r_Attestations r ∧ at_AuthorityID t = ni_NodeID (PublicIdentity (signer g)) ∧
            at_AnnouncementHash t = AnnouncementHash (r_Announcement r)) ∧
      (g' = g ∨ ∃ rg, Merge (registry g) r now = (rg, None) ∧ g' = set_registry g rg)
  end.
Proof.
  unfold AcceptRegistration. destruct (Authority _ _); [|by intros [= <- <-]]. cbn [negb].
  destruct (verifyPartialRecord _ _ _) eqn:Hv; [by intros [= <- <-]|].
  destruct (ParseAddr _) as [ip|] eqn:Hip; [|by intros [= <- <-]].
  destruct (bool_decide _) eqn:Heq; [|by intros [= <- <-]]. cbn [negb]. unbool.
  destruct (probe _) eqn:Hpr; [by intros [= <- <-]|].
  destruct (SignAttestation _ _ _ _) as [t|] eqn:Ht; [|by intros [= <- <-]].
  assert (Hann : announcement_ok (r_Announcement request) now (p_AllowPrivateIPs (a_policy g))).
  { unfold verifyPartialRecord in Hv. destruct (verifyRecordAttestations _ _ _) eqn:E; [|done].
    by apply verifyRecordAttestations_Ok in E as (_ & _ & ? & _). }
  assert (Hat : at_AuthorityID t = ni_NodeID (PublicIdentity (signer g)) ∧
    at_AnnouncementHash t = AnnouncementHash (r_Announcement request)).
  { unfold SignAttestation in Ht. cbv zeta in Ht. step_if Ht. destruct (Sign _ _ _ _); [|done].
    by apply (inj Ok) in Ht as <-. }
  destruct Hat as [Hid Hh]. cbv zeta. pose proof (appendAttestation_elem request t) as Hel.
  destruct (VerifyRecord _ _ _).
  { intros [= <- <-]. split_and!; eauto. }
  destruct (Merge _ _ _) as [rg [e|]] eqn:Hm; intros [= <- <-].
  - apply Merge_refused in Hm as ->. by destruct g.
  - split_and!; eauto.
Qed.

(** Renewal keeps the node announced: a successful renewal either keeps an
    announcement with more than half its lease left, or replaces it by one that
    verifies, under a sequence number greater than all before. *)
Theorem renew_fresh (coins : bytes) (g g' : Agent) (now : Time) :
  blen (edPrivate (signer g)) = ed25519_PrivateKeySize → Millisecond ≤ now → UnixMilli now < two63 →
  0 ≤ sequence g < two64 - 1 → renew coins g now = (g', None) →
  (g' = g ∧ now + Z.quot (lease g) 2 < an_ExpiresAt (r_Announcement (self g))) ∨
  (sequence g < sequence g' ∧ an_Sequence (r_Announcement (self g')) = sequence g' ∧
   an_Identity (r_Announcement (self g')) = PublicIdentity (signer g) ∧
   an_Endpoint (r_Announcement (self g')) = endpoint g ∧
   announcement_ok (r_Announcement (self g')) now (p_AllowPrivateIPs (a_policy g))).
Proof.
  intros Hk Hnow Hum Hseq. unfold renew, After, TAdd. cbv zeta.
  destruct (_ && _)%bool eqn:Hkeep; [intros [= <-]; left; unbool; done|].
  destruct (_ <=? 0) eqn:Hpos; [done|]. unbool.
  set (seq := if _ <=? sequence g then _ else _).
  assert (Hlt : sequence g < seq).
  { assert (E1 : u64 (UnixMilli now) = UnixMilli now) by (unfold u64; apply Z.mod_small; lia).
    assert (E2 : u64 (sequence g + 1) = sequence g + 1) by (unfold u64; apply Z.mod_small; lia).
    unfold seq. rewrite E1, E2. destruct (UnixMilli now <=? sequence g) eqn:E; unbool; lia. }
  destruct (SignAnnouncement _ _ _ _ _ _ _) as [a|] eqn:Ha; [|done].
  apply SignAnnouncement_ok in Ha as (Hi & He & Hs & _ & _ & Hx & Hok); [|done..].
  assert (Hval : announcement_ok a now (p_AllowPrivateIPs (a_policy g))).
  { apply Hok. assert (0 < MaxClockSkew ∧ Millisecond < MinLease) by done. lia. }
  destruct (isPinned _ _); [destruct (Merge _ _ _)|]; intros [= <-]; right; by simpl.
Qed.

End AgentFacts.

(** * Witnesses *)

Module Sample.

#[export] Instance netip : Netip := {|
  ParseAddr s := if bool_decide (s = "8.8.8.8"%string) then Some (V4 (v4 8 8 8 8)) else None;
  AddrString a := if bool_decide (a = V4 (v4 8 8 8 8)) then "8.8.8.8"%string else ""%string;
|}.
#[export] Instance decode_snapshot : StrictDecoder Snapshot := λ _, Err "no network".

Definition now : Time := Samples.now.
Definition endpoint : Endpoint := {| e_Scheme := "https"; e_IP := "8.8.8.8"; e_Port := 443 |}.
Definition node_endpoint : Endpoint := {| e_Scheme := "https"; e_IP := "8.8.8.8"; e_Port := 8443 |}.

#[local] Existing Instances Toy.crypto Toy.laws.

Lemma canonical : canonicalEndpoint endpoint false = true ∧ canonicalEndpoint node_endpoint false = true.
Proof. split; vm_compute; reflexivity. Qed.

(** The toy scheme always signs. *)
Definition sig (s : HybridSigner) (domain : string) (m : bytes) : HybridSignature :=
  ok_or zeroSignature (Sign s [] domain m).
Lemma sig_ok (s : HybridSigner) (domain : string) (m : bytes) : Sign s [] domain m = Ok (sig s domain m).
Proof. reflexivity. Qed.

Section Run.
(** An authority [s1] and a node [s2]. *)
Context (s1 s2 : HybridSigner) (k1 : blen (edPrivate s1) = ed25519_PrivateKeySize)
        (k2 : blen (edPrivate s2) = ed25519_PrivateKeySize).

Definition seeds : list PinnedNode := [{| pn_Identity := PublicIdentity s1; pn_Endpoint := endpoint |}].
Definition policy : Policy :=
  {| p_Seeds := seeds; p_AuthorityQuorum := 1; p_AllowPrivateIPs := false; p_MaxNodes := 512 |}.

Lemma policy_new (m : Z) : m = 0 ∨ m = 512 → NewPolicy seeds 1 false m = Ok policy.
Proof.
  intros Hm. unfold NewPolicy, seeds. cbn [checkSeeds pn_Identity pn_Endpoint].
  rewrite (PublicIdentity_valid s1 k1), (proj1 canonical). cbn [negb].
  rewrite bool_decide_eq_false_2 by apply not_elem_of_empty. destruct Hm as [-> | ->]; reflexivity.
Qed.

(** The announcement of [s], sealed at [now] for an hour. *)
Definition draft (s : HybridSigner) (ep : Endpoint) (seq : Z) (sg : HybridSignature) : Announcement :=
  {| an_Version := ProtocolVersion; an_Identity := PublicIdentity s; an_Endpoint := ep; an_Sequence := seq;
     an_IssuedAt := Truncate now Millisecond; an_ExpiresAt := Truncate (TAdd now Hour) Millisecond; an_Signature := sg |}.
Definition announce (s : HybridSigner) (ep : Endpoint) (seq : Z) : Announcement :=
  draft s ep seq (sig s announcementDomain (announcementSigningBytes (draft s ep seq zeroSignature))).

Lemma announce_ok (s : HybridSigner) (ep : Endpoint) (seq : Z) :
  blen (edPrivate s) = ed25519_PrivateKeySize → seq ≠ 0 → canonicalEndpoint ep false = true →
  SignAnnouncement (Some s) [] ep seq now Hour false = Ok (announce s ep seq).
Proof.
  intros Hk Hs Hc. unfold SignAnnouncement. rewrite Hc, (PublicIdentity_valid s Hk), (proj2 (Z.eqb_neq seq 0) Hs).
  reflexivity.
Qed.

Definition announcement : Announcement := announce s2 node_endpoint 7.
Lemma announced : SignAnnouncement (Some s2) [] node_endpoint 7 now Hour false = Ok announcement.
Proof. apply announce_ok; [exact k2|discriminate|apply canonical]. Qed.

Definition vote (sg : HybridSignature) : Attestation :=
  {| at_Version := ProtocolVersion; at_AuthorityID := ni_NodeID (PublicIdentity s1);
     at_AnnouncementHash := AnnouncementHash announcement; at_ObservedAt := Truncate now Millisecond;
     at_ExpiresAt := Truncate (an_ExpiresAt announcement) Millisecond; at_Signature := sg |}.
Definition attestation : Attestation :=
  vote (sig s1 attestationDomain (attestationSigningBytes (vote zeroSignature))).
Lemma attested : SignAttestation (Some s1) [] announcement now = Ok attestation.
Proof. reflexivity. Qed.

Definition record : Record_ := {| r_Announcement := announcement; r_Attestations := [attestation] |}.

Lemma authority : Authority policy (PublicIdentity s1) = true.
Proof.
  unfold Authority, pinned, policy, seeds. cbn [p_Seeds List.find pn_Identity].
  rewrite bool_decide_eq_true_2 by done. unfold sameIdentity, bytes_equal.
  by rewrite !bool_decide_eq_true_2, Z.eqb_refl.
Qed.

Lemma votes (t : Time) : now ≤ t →
  Forall2 (λ v x, blen (edPrivate v) = ed25519_PrivateKeySize ∧ Authority policy (PublicIdentity v) = true ∧
                  ∃ coins n, now ≤ n ≤ t ∧ SignAttestation (Some v) coins announcement n = Ok x) [s1] [attestation].
Proof.
  intros Ht. constructor; [|constructor]. split; [exact k1|]. split; [exact authority|].
  exists [], now. split; [lia|exact attested].
Qed.

Lemma verified : VerifyRecord policy record now = None.
Proof.
  refine (quorum_verifies seeds 1 0 false policy s2 [] node_endpoint 7 now now Hour announcement [s1] [attestation]
    (policy_new 0 (or_introl eq_refl)) k2 _ announced (NoDup_singleton _) _ (votes now _) _);
    [vm_compute; discriminate|vm_compute; discriminate|reflexivity|split; [reflexivity|vm_compute; reflexivity]].
Qed.

Definition empty : Registry := {| Directory.policy := policy; records := ∅ |}.
Definition one : Registry := set_records empty {[r_NodeID record := record]}.

Lemma registry_created : NewRegistry policy = Ok empty.
Proof. unfold NewRegistry. cbn [policy p_Seeds p_AuthorityQuorum p_AllowPrivateIPs p_MaxNodes]. by rewrite policy_new by auto. Qed.

Lemma merge_one : Merge empty record now = (one, None).
Proof.
  unfold Merge. cbn [empty Directory.policy records]. rewrite verified. unfold mergeVerifiedRecord. by rewrite lookup_empty.
Qed.

(** The same announcement and attestation, expiring half a millisecond later: the
    signed bytes are those of [record]. *)
Definition shift (a : Announcement) : Announcement :=
  {| an_Version := an_Version a; an_Identity := an_Identity a; an_Endpoint := an_Endpoint a;
     an_Sequence := an_Sequence a; an_IssuedAt := an_IssuedAt a; an_ExpiresAt := an_ExpiresAt a + 500000;
     an_Signature := an_Signature a |}.
Definition shift_vote (t : Attestation) : Attestation :=
  {| at_Version := at_Version t; at_AuthorityID := at_AuthorityID t; at_AnnouncementHash := at_AnnouncementHash t;
     at_ObservedAt := at_ObservedAt t; at_ExpiresAt := at_ExpiresAt t + 500000; at_Signature := at_Signature t |}.
Definition later : Record_ :=
  {| r_Announcement := shift announcement; r_Attestations := [shift_vote attestation] |}.

Lemma same_bytes :
  announcementSigningBytes (shift announcement) = announcementSigningBytes announcement ∧
  AnnouncementHash (shift announcement) = AnnouncementHash announcement ∧
  attestationSigningBytes (shift_vote attestation) = attestationSigningBytes attestation.
Proof. split_and!; reflexivity. Qed.

Lemma shift_ok : announcement_ok (shift announcement) now false.
Proof.
  destruct (SignAnnouncement_ok s2 [] node_endpoint 7 now Hour false announcement k2 ltac:(vm_compute; discriminate) announced)
    as (_ & _ & _ & _ & _ & _ & Hok).
  destruct (Hok now ltac:(split; [vm_compute; discriminate|vm_compute; reflexivity])) as [? ? ? ? ? ? Hs].
  constructor; [done..|split; vm_compute; discriminate|split; [vm_compute; discriminate|vm_compute; reflexivity]|
    split; vm_compute; discriminate|].
  rewrite (proj1 same_bytes). exact Hs.
Qed.

Lemma vouch : vouches (authorities policy) record now attestation.
Proof.
  pose proof verified as Hv. unfold VerifyRecord in Hv.
  destruct (verifyRecordAttestations policy record now) as [n|] eqn:Hr; [|discriminate Hv].
  apply verifyRecordAttestations_Ok in Hr as (_ & _ & _ & _ & _ & Hall).
  by apply Forall_cons_iff in Hall as [? _].
Qed.

Lemma vouch_later : vouches (authorities policy) later now (shift_vote attestation).
Proof.
  destruct vouch as (i & Hl & _ & Hs). exists i. split; [exact Hl|]. split.
  - unfold attestationFits. cbn [later r_Announcement shift_vote at_AnnouncementHash at_Version].
    rewrite (proj1 (proj2 same_bytes)). cbn [attestation vote at_AnnouncementHash]. unfold bytes_equal.
    rewrite bool_decide_eq_true_2, (Sha256.Sum256_blen _ : blen (AnnouncementHash announcement) = _) by done. reflexivity.
  - rewrite (proj2 (proj2 same_bytes)). exact Hs.
Qed.

Lemma policy_fine : policy_ok policy.
Proof. unfold policy_ok. cbn. unfold blen. simpl. unfold MaxAttestations, MaxDirectoryNodes. lia. Qed.

(** Merging can leave a record that no longer verifies: a relay that shifts the
    expiry of a valid record by less than a millisecond changes no signed byte,
    so the registry takes it for the announcement it has, and puts the
    attestations it holds, with the unshifted expiry, next to the shifted
    announcement. The result is refused by [VerifyRecord], and with it every
    snapshot that lists it. *)
Lemma merge_keeps_unverifiable_record :
  ∃ r, VerifyRecord policy later now = None ∧ Merge one later now = (set_records one {[r_NodeID record := r]}, None) ∧
       VerifyRecord policy r now = Some "invalid node attestation"%string.
Proof.
  assert (Hlater : VerifyRecord policy later now = None).
  { unfold VerifyRecord. rewrite (proj2 (verifyRecordAttestations_Ok policy later now 1)); [by destruct (isPinned _ _)|].
    split_and!; [exact policy_fine|done|exact shift_ok|done|apply NoDup_singleton|].
    constructor; [exact vouch_later|constructor]. }
  assert (Happ : appendAttestation later attestation =
    {| r_Announcement := shift announcement; r_Attestations := [attestation] |}).
  { unfold appendAttestation. cbn [later r_Attestations r_Announcement replaceAttestation].
    by rewrite bool_decide_eq_true_2. }
  exists {| r_Announcement := shift announcement; r_Attestations := [attestation] |}. split; [exact Hlater|]. split.
  - unfold Merge. cbn [one set_records empty Directory.policy records]. rewrite Hlater. unfold mergeVerifiedRecord.
    change (r_NodeID later) with (r_NodeID record). rewrite lookup_singleton_eq.
    cbn [later record r_Announcement]. rewrite (proj1 (proj2 same_bytes)). cbn [shift an_Sequence].
    rewrite Z.ltb_irrefl, Z.eqb_refl. unfold bytes_equal. rewrite bool_decide_eq_true_2 by done. cbn [negb].
    cbn [foldl r_Attestations record]. change {| r_Announcement := _; r_Attestations := [shift_vote _] |} with later.
    by rewrite Happ, insert_singleton_eq.
  - unfold VerifyRecord, verifyRecordAttestations. cbn [r_Announcement r_Attestations].
    change (p_AllowPrivateIPs policy) with false. rewrite (proj2 (VerifyAnnouncement_None _ _ _) shift_ok). cbn [countAttestations].
    destruct vouch as (i & -> & _ & _). unfold attestationFits. cbn [r_Announcement].
    rewrite (proj1 (proj2 same_bytes)). unfold bytes_equal. rewrite bool_decide_eq_true_2 by done.
    rewrite (Sha256.Sum256_blen _ : blen (at_AnnouncementHash attestation) = _). reflexivity.
Qed.

(** The authority as an agent. *)
Definition agent (rs : gmap string Record_) (me : Record_) (seq : Z) : Agent :=
  {| registry := {| Directory.policy := policy; records := rs |}; a_policy := policy; signer := s1;
     Directory.endpoint := endpoint; lease := Hour; self := me; sequence := seq |}.

Definition seq0 : Z := u64 (UnixMilli now).
Definition self0 : Record_ := {| r_Announcement := announce s1 endpoint seq0; r_Attestations := [] |}.
Definition agent0 : Agent := agent {[r_NodeID self0 := self0]} self0 seq0.

Lemma self_announced : SignAnnouncement (Some s1) [] endpoint seq0 now Hour false = Ok (announce s1 endpoint seq0).
Proof. apply announce_ok; [exact k1|vm_compute; discriminate|apply canonical]. Qed.

Lemma self_pinned : isPinned policy (announce s1 endpoint seq0) = true.
Proof.
  unfold isPinned. pose proof authority as Ha. unfold Authority in Ha.
  change (an_Identity (announce s1 endpoint seq0)) with (PublicIdentity s1). destruct (pinned _ _) as [seed|] eqn:Hp; [|done].
  rewrite Ha. unfold pinned, policy, seeds in Hp. cbn [p_Seeds List.find pn_Identity] in Hp.
  rewrite bool_decide_eq_true_2 in Hp by done. injection Hp as <-. reflexivity.
Qed.

Lemma self_verified : VerifyRecord policy self0 now = None.
Proof.
  unfold VerifyRecord. rewrite (proj2 (verifyRecordAttestations_Ok policy self0 now 0)).
  - cbn [self0 r_Announcement]. by rewrite self_pinned.
  - split_and!; [exact policy_fine|done| |done|constructor|constructor].
    destruct (SignAnnouncement_ok s1 [] endpoint seq0 now Hour false _ k1 ltac:(vm_compute; discriminate) self_announced)
      as (_ & _ & _ & _ & _ & _ & Hok). apply Hok. split; [vm_compute; discriminate|vm_compute; reflexivity].
Qed.

Lemma agent0_new : NewAgent [] policy endpoint (Some s1) Hour now = Ok agent0.
Proof.
  unfold NewAgent. rewrite registry_created. cbn [p_AllowPrivateIPs policy empty Directory.policy].
  rewrite (proj1 canonical). unfold renew. cbn [self zeroRecord r_Announcement an_ExpiresAt].
  cbn [sequence Directory.endpoint lease a_policy signer registry].
  change (SignAnnouncement (Some s1) [] endpoint _ now Hour _) with (SignAnnouncement (Some s1) [] endpoint seq0 now Hour false).
  rewrite self_announced. cbn [set_self a_policy registry self]. rewrite self_pinned. unfold Merge. cbn [Directory.policy].
  change (VerifyRecord _ _ now) with (VerifyRecord policy self0 now). rewrite self_verified.
  unfold mergeVerifiedRecord. change (records _ !! _) with ((∅ : gmap string Record_) !! r_NodeID self0).
  rewrite lookup_empty. reflexivity.
Qed.

(** The node registers with an authority that knows no one. *)
Definition bare : Agent := agent ∅ zeroRecord 0.
Definition request : Record_ := {| r_Announcement := announcement; r_Attestations := [] |}.

Lemma request_verified : verifyPartialRecord policy request now = None.
Proof.
  unfold verifyPartialRecord. rewrite (proj2 (verifyRecordAttestations_Ok policy request now 0)); [done|].
  split_and!; [exact policy_fine|done| |done|constructor|constructor].
  destruct (SignAnnouncement_ok s2 [] node_endpoint 7 now Hour false _ k2 ltac:(vm_compute; discriminate) announced)
    as (_ & _ & _ & _ & _ & _ & Hok). apply Hok. split; [vm_compute; discriminate|vm_compute; reflexivity].
Qed.

Lemma accepted_record :
  AcceptRegistration (λ _, None) [] bare (V4 (v4 8 8 8 8)) request now = (set_registry bare one, Ok record).
Proof.
  unfold AcceptRegistration. cbn [bare agent a_policy signer registry]. rewrite authority. cbn [negb].
  rewrite request_verified. cbn [request r_Announcement]. change (ParseAddr _) with (Some (V4 (v4 8 8 8 8))).
  cbv iota beta. rewrite bool_decide_eq_true_2 by done. cbn [negb]. rewrite attested.
  change (appendAttestation _ attestation) with record. rewrite verified.
  change {| Directory.policy := policy; records := ∅ |} with empty. by rewrite merge_one.
Qed.

Definition served_draft (sg : HybridSignature) : Snapshot :=
  {| sn_Version := ProtocolVersion; sn_Publisher := PublicIdentity s1; sn_GeneratedAt := Truncate now Millisecond;
     sn_Records := [self0]; sn_Signature := sg |}.
Definition served : Snapshot :=
  served_draft (sig s1 snapshotDomain (snapshotSigningBytes (served_draft zeroSignature))).

Lemma served_signed : SignSnapshot (Some s1) [] (Active (registry agent0) now) now = Ok served.
Proof.
  assert (Active (registry agent0) now = [self0]) as ->; [|reflexivity].
  unfold Active. cbn [agent0 agent registry records range_map default_order]. rewrite map_to_list_singleton. reflexivity.
Qed.

End Run.
End Sample.

#[local] Existing Instances Toy.crypto Toy.laws Sample.netip Sample.decode_snapshot.

(** The authority and the node of the sample runs. *)
Definition auth : HybridSigner := Toy.signer x01.
Definition node : HybridSigner := Toy.signer x02.

Lemma VerifyRecord_quorum_witness :
  announcement_ok (r_Announcement (Sample.record auth node)) Sample.now false.
Proof.
  destruct (VerifyRecord_quorum (Sample.policy auth) (Sample.record auth node) Sample.now
    (Sample.verified auth node eq_refl eq_refl)) as [H _]. exact H.
Defined.

Lemma registry_invariant_witness : registry_ok (Sample.one auth node).
Proof.
  refine (registry_invariant (Sample.policy auth) (Sample.empty auth) (Sample.one auth node)
    (Sample.registry_created auth eq_refl) _).
  eapply rtc_once, step_merge. exact (Sample.merge_one auth node eq_refl eq_refl).
Defined.

Lemma merge_forward_witness :
  ∃ r', records (Merge (Sample.one auth node) (Sample.record auth node) Sample.now).1
          !! r_NodeID (Sample.record auth node) = Some r'.
Proof.
  destruct (merge_forward (Sample.one auth node) _ Sample.now _
    (or_introl (ex_intro _ (Sample.record auth node) (surjective_pairing _)))) as [_ H].
  destruct (H _ _ (lookup_singleton_eq _ _)) as (r' & Hr' & _). exists r'. exact Hr'.
Defined.

Lemma quorum_admits_witness :
  VerifyRecord (Sample.policy auth) (Sample.record auth node) (Sample.now + Minute) = None.
Proof.
  refine (proj1 (quorum_admits (Sample.seeds auth) 1 0 false (Sample.policy auth) node [] Sample.node_endpoint 7 Sample.now
    (Sample.now + Minute) Hour (Sample.announcement node) [auth] [Sample.attestation auth node]
    (Sample.policy_new auth eq_refl 0 (or_introl eq_refl)) eq_refl _ (Sample.announced node eq_refl)
    (NoDup_singleton _) _ (Sample.votes auth node eq_refl (Sample.now + Minute) _) _));
    [vm_compute; discriminate|vm_compute; discriminate|vm_compute; discriminate|split; [vm_compute; discriminate|vm_compute; reflexivity]].
Defined.

Lemma AcceptRegistration_checked_witness :
  Authority (Sample.policy auth) (PublicIdentity auth) = true.
Proof.
  destruct (AcceptRegistration_checked (λ _, None) [] (Sample.bare auth) _ (V4 (v4 8 8 8 8)) (Sample.request node)
    Sample.now _ (Sample.accepted_record auth node eq_refl eq_refl)) as [H _]. exact H.
Defined.

Lemma snapshot_served_witness :
  (MergeSnapshot (Sample.empty auth) (Sample.served auth) (ni_NodeID (PublicIdentity auth)) (Sample.now + Minute)).2
    = None.
Proof.
  destruct (snapshot_served [] [] (Sample.policy auth) Sample.endpoint auth Hour Sample.now Sample.now
    (Sample.now + Minute) (Sample.agent0 auth) (Sample.agent0 auth) (Sample.served auth) (Sample.empty auth) eq_refl
    (Sample.agent0_new auth eq_refl) (rtc_refl _ _) (Sample.served_signed auth) eq_refl eq_refl
    ltac:(split; vm_compute; discriminate)) as (_ & _ & _ & _ & H).
  apply H. constructor; [|constructor]. split; [exact (Sample.self_verified auth eq_refl)|vm_compute; reflexivity].
Defined.

End Directory.
