(* ===== verification/Hpke.v ===== *)
(** Public-key envelopes (src/pqcrypto/hpke.go) over the standard library's HPKE with
    the hybrid ML-KEM-768/X25519 KEM. [HPKE] is what the code uses of that package,
    [HPKELaws] what its documentation promises. *)
From S2P Require Import Prelude.
Local Open Scope Z_scope.

Module Hpke.

Class HPKE := {
  KEMPublic : Type;
  KEMPrivate : Type;
  kem_GenerateKey : bytes → Result KEMPrivate;
  kem_NewPublicKey : bytes → Result KEMPublic;
  kem_NewPrivateKey : bytes → Result KEMPrivate;
  kem_PrivateBytes : KEMPrivate → Result bytes;
  kem_PublicKey : KEMPrivate → KEMPublic;
  kem_PublicBytes : KEMPublic → bytes;
  (* [NewSender] followed by the first [Seal], with the coins of the encapsulation *)
  hpke_Sender : KEMPublic → bytes → bytes → bytes → bytes → Result (bytes * bytes);
  (* [NewRecipient] followed by the first [Open] *)
  hpke_Recipient : bytes → KEMPrivate → bytes → bytes → bytes → Result bytes;
}.

Class HPKELaws (H : HPKE) : Prop := {
  kem_public_codec k : kem_NewPublicKey (kem_PublicBytes k) = Ok k;
  kem_private_codec k b : kem_PrivateBytes k = Ok b → kem_NewPrivateKey b = Ok k;
  hpke_correct k info coins aad plaintext enc ct :
    hpke_Sender (kem_PublicKey k) info coins aad plaintext = Ok (enc, ct) →
    0 < blen enc ∧ 0 < blen ct ∧ hpke_Recipient enc k info aad ct = Ok plaintext;
}.

Definition HybridHPKESuite : string := "HPKE-MLKEM768-X25519-HKDFSHA256-CHACHA20POLY1305".
Definition hpkeInfo : string := "enig/direct-envelope/v1".

Record HybridKEMKeyPair := { kp_PrivateKey : bytes; kp_PublicKey : bytes }.

Section Code.
Context {H : HPKE}.

Definition GenerateHybridKEMKeyPair (coins : bytes) : Result HybridKEMKeyPair :=
  match kem_GenerateKey coins with
  | Err e => Err e
  | Ok privateKey =>
      match kem_PrivateBytes privateKey with
      | Err e => Err e
      | Ok privateBytes =>
          Ok {| kp_PrivateKey := privateBytes; kp_PublicKey := kem_PublicBytes (kem_PublicKey privateKey) |}
      end
  end.

Definition ValidateHybridKEMPublicKey (publicKey : bytes) : option error :=
  match kem_NewPublicKey publicKey with Ok _ => None | Err e => Some e end.

Definition HybridKEMPublicFromPrivate (privateKey : bytes) : Result bytes :=
  match kem_NewPrivateKey privateKey with
  | Err e => Err e
  | Ok private => Ok (kem_PublicBytes (kem_PublicKey private))
  end.

Definition Seal (coins publicKey aad plaintext : bytes) : Result (bytes * bytes) :=
  match kem_NewPublicKey publicKey with
  | Err e => Err e
  | Ok public => hpke_Sender public (str_bytes hpkeInfo) coins aad plaintext
  end.

Definition Open (privateKey encapsulation aad ciphertext : bytes) : Result bytes :=
  if (blen encapsulation =? 0) || (blen ciphertext =? 0) then Err "empty HPKE envelope"
  else match kem_NewPrivateKey privateKey with
  | Err e => Err e
  | Ok private => hpke_Recipient encapsulation private (str_bytes hpkeInfo) aad ciphertext
  end.

Lemma key_pair_public (coins : bytes) (pair : HybridKEMKeyPair) `{!HPKELaws H} :
  GenerateHybridKEMKeyPair coins = Ok pair →
  ValidateHybridKEMPublicKey (kp_PublicKey pair) = None ∧
  HybridKEMPublicFromPrivate (kp_PrivateKey pair) = Ok (kp_PublicKey pair).
Proof.
  unfold GenerateHybridKEMKeyPair, ValidateHybridKEMPublicKey, HybridKEMPublicFromPrivate.
  destruct (kem_GenerateKey coins) as [k|]; [|done]. destruct (kem_PrivateBytes k) as [b|] eqn:Hb; [|done].
  intros <-%(inj Ok). simpl. by rewrite kem_public_codec, (kem_private_codec k b).
Qed.

(** What is sealed to a generated key pair opens with it, under the same
    associated data. *)
Lemma Seal_Open `{!HPKELaws H} (coins coins' : bytes) (pair : HybridKEMKeyPair)
    (aad plaintext enc ct : bytes) :
  GenerateHybridKEMKeyPair coins = Ok pair →
  Seal coins' (kp_PublicKey pair) aad plaintext = Ok (enc, ct) →
  0 < blen enc ∧ 0 < blen ct ∧ Open (kp_PrivateKey pair) enc aad ct = Ok plaintext.
Proof.
  unfold GenerateHybridKEMKeyPair. destruct (kem_GenerateKey coins) as [k|]; [|done].
  destruct (kem_PrivateBytes k) as [b|] eqn:Hb; [|done]. intros <-%(inj Ok).
  unfold Seal, Open. cbn [kp_PublicKey kp_PrivateKey]. rewrite kem_public_codec. intros Hs.
  apply hpke_correct in Hs as (? & ? & Ho). split_and!; [done..|].
  rewrite !(proj2 (Z.eqb_neq _ _)) by lia. by rewrite (kem_private_codec k b).
Qed.

End Code.

(** A toy scheme with the laws and no security. *)
Module Toy.

#[export] Instance hpke : HPKE := {|
  KEMPublic := bytes; KEMPrivate := bytes;
  kem_GenerateKey coins := Ok coins;
  kem_NewPublicKey b := Ok b;
  kem_NewPrivateKey b := Ok b;
  kem_PrivateBytes k := Ok k;
  kem_PublicKey k := k;
  kem_PublicBytes k := k;
  hpke_Sender k info coins aad pt := Ok (x01 :: coins, x2a :: pt);
  hpke_Recipient enc k info aad ct := Ok (drop 1 ct);
|}.

#[export] Instance laws : HPKELaws hpke.
Proof.
  split; simpl; intros; [done|by apply (inj Ok) in H as <-|].
  apply (inj Ok) in H. simplify_eq. unfold blen. simpl. split_and!; [lia..|done].
Qed.

End Toy.

End Hpke.
