(* ===== verification/ClientNode.v ===== *)
(** What the client knows of a storage node: its reputation (src/client/reputation.go)
    and the checks on everything a node answers (src/client/http_node.go). The wire
    is outside: an exchange yields a status and a body, or an error. *)
From S2P Require Import Prelude Sha256 Encoding Protocol Work Crypto.
From stdpp Require Import pretty.
Local Open Scope Z_scope.

Module ClientNode.

(** * Reputation *)

Record NodeScore := {
  ns_NodeID : string;
  ns_SuccessfulStores : Z;  (* uint64 *)
  ns_SuccessfulProofs : Z;  (* uint64 *)
  ns_Failures : Z;          (* uint64 *)
  ns_ConsecutiveFails : Z;  (* uint32 *)
  ns_ExcludedUntil : Time;
  ns_LastFailure : string;
}.

Abbreviation Reputation := (gmap string NodeScore).

Definition zeroScore : NodeScore :=
  {| ns_NodeID := ""; ns_SuccessfulStores := 0; ns_SuccessfulProofs := 0; ns_Failures := 0;
     ns_ConsecutiveFails := 0; ns_ExcludedUntil := 0; ns_LastFailure := "" |}.

Definition NewReputation : Reputation := ∅.

Definition Success (r : Reputation) (nodeID : string) (proof : bool) : Reputation :=
  let score := map_get zeroScore r nodeID in
  <[nodeID :=
    {| ns_NodeID := nodeID;
       ns_SuccessfulStores := if proof then ns_SuccessfulStores score else u64 (ns_SuccessfulStores score + 1);
       ns_SuccessfulProofs := if proof then u64 (ns_SuccessfulProofs score + 1) else ns_SuccessfulProofs score;
       ns_Failures := ns_Failures score; ns_ConsecutiveFails := 0;
       ns_ExcludedUntil := ns_ExcludedUntil score; ns_LastFailure := ns_LastFailure score |}]> r.

(** [now] is the clock reading; [err] may be [nil]. *)
Definition Failure (now : Time) (r : Reputation) (nodeID : string) (err : option error) : Reputation :=
  let score := map_get zeroScore r nodeID in
  let fails := u32 (ns_ConsecutiveFails score + 1) in
  <[nodeID :=
    {| ns_NodeID := nodeID; ns_SuccessfulStores := ns_SuccessfulStores score;
       ns_SuccessfulProofs := ns_SuccessfulProofs score; ns_Failures := u64 (ns_Failures score + 1);
       ns_ConsecutiveFails := fails;
       ns_ExcludedUntil := if 3 <=? fails then TAdd now (24 * Hour) else ns_ExcludedUntil score;
       ns_LastFailure := default (ns_LastFailure score) err |}]> r.

Definition Exclude (now : Time) (r : Reputation) (nodeID : string) (duration : Duration) (reason : option error)
  : Reputation :=
  let score := map_get zeroScore r nodeID in
  <[nodeID :=
    {| ns_NodeID := nodeID; ns_SuccessfulStores := ns_SuccessfulStores score;
       ns_SuccessfulProofs := ns_SuccessfulProofs score; ns_Failures := u64 (ns_Failures score + 1);
       ns_ConsecutiveFails := u32 (ns_ConsecutiveFails score + 1);
       ns_ExcludedUntil := TAdd now duration;
       ns_LastFailure := default (ns_LastFailure score) reason |}]> r.

Definition Allowed (r : Reputation) (nodeID : string) (now : Time) : bool :=
  negb (After (ns_ExcludedUntil (map_get zeroScore r nodeID)) now).

Definition score_le (x y : NodeScore) : Prop := str_ltb (ns_NodeID y) (ns_NodeID x) = false.
#[export] Instance score_le_dec x y : Decision (score_le x y).
Proof. unfold score_le. apply _. Defined.

Definition ReputationSnapshot `{MO : MapOrder} (r : Reputation) : list NodeScore :=
  merge_sort score_le ((range_map r).*2).

(** * Exchanges *)

(** A response: the status and the whole body. *)
Abbreviation Wire := (Result (Z * bytes)).

(** The body of an error response is untrusted and never repeated. *)
Definition responseError (status : Z) : error := ("node returned HTTP status " +:+ pretty status)%string.

Definition decodeResponseJSON {A} `{!StrictDecoder A} (body : bytes) (limit : Z) : Result A :=
  if limit <? blen body then Err "node response exceeds size limit" else decodeStrict body.

Definition readResponse {A} `{!StrictDecoder A} (limit : Z) (response : Wire) : Result A :=
  match response with
  | Err e => Err e
  | Ok (status, body) =>
      if (status <? 200) || (300 <=? status) then Err (responseError status)
      else decodeResponseJSON body limit
  end.

Definition getJSON {A} `{!StrictDecoder A} (response : Wire) : Result A :=
  readResponse (2 * 1024 * 1024) response.

(** [exchange] is what the node answers to the body sent. *)
Definition postJSON {A B} `{!Marshaler A} `{!StrictDecoder B} (exchange : bytes → Wire) (source : A) : Result B :=
  match Marshal source with
  | Err e => Err e
  | Ok body => readResponse (12 * 1024 * 1024) (exchange body)
  end.

(** * Nodes *)

Definition receiptDomain : string := "storage-receipt".
Definition proofDomain : string := "storage-proof".
Definition deleteReceiptDomain : string := "delete-receipt".

Record FetchRequest := { fq_RouteTags : list string }.
Record FetchResponse := { fr_Items : list StoredItem }.

(** A node: its address, its pinned identity, whether it has an HTTP client, and
    how the network answers for it during one operation. *)
Record HTTPNode := {
  BaseURL : string;
  Identity : NodePublicIdentity;
  hasClient : bool;  (* [Client != nil] *)
  w_parameters : Wire;
  w_store : bytes → Wire;
  w_fetch : bytes → Wire;
  w_proof : bytes → Wire;
  w_delete : bytes → Wire;
}.

Definition nodeID (n : HTTPNode) : string := ni_NodeID (Identity n).

Section Nodes.
Context `{C : Crypto}.
Context {DParams : StrictDecoder NodeParameters}
        {MItem : Marshaler StoredItem} {DReceipt : StrictDecoder StorageReceipt}
        {MFetch : Marshaler FetchRequest} {DFetch : StrictDecoder FetchResponse}
        {MProof : Marshaler ProofRequest} {DProof : StrictDecoder StorageProof}
        {MDelete : Marshaler DeleteRequest} {DDelete : StrictDecoder DeleteReceipt}.

Definition sameNodeIdentity (left right : NodePublicIdentity) : bool :=
  bool_decide (ni_NodeID left = ni_NodeID right) && (ni_ProtocolVersion left =? ni_ProtocolVersion right) &&
  bytes_equal (ni_Ed25519Public left) (ni_Ed25519Public right) &&
  bytes_equal (ni_MLDSA65Public left) (ni_MLDSA65Public right).

Definition Parameters (n : HTTPNode) : Result NodeParameters :=
  match getJSON (w_parameters n) with
  | Err e => Err e
  | Ok parameters =>
      match ValidateNodeParameters parameters with
      | Some e => Err e
      | None => Ok parameters
      end
  end.

Definition verifyStorageReceipt (identity : NodePublicIdentity) (item : StoredItem) (receipt : StorageReceipt)
    (now : Time) : option error :=
  if negb (bool_decide (sr_NodeID receipt = ni_NodeID identity)) ||
     negb (bool_decide (sr_ItemID receipt = si_ItemID item)) ||
     negb (bytes_equal (sr_PayloadHash receipt) (Sha256.Sum256 (si_Payload item))) ||
     negb (TEqual (sr_ExpiresAt receipt) (si_ExpiresAt item)) ||
     Before (sr_StoredAt receipt) (TAdd (si_CreatedAt item) (- (5 * Minute))) ||
     After (sr_StoredAt receipt) (TAdd now (5 * Minute)) ||
     After (sr_StoredAt receipt) (sr_ExpiresAt receipt) ||
     negb (Verify identity receiptDomain (ReceiptSigningBytes receipt) (sr_Signature receipt))
  then Some "invalid storage receipt"%string
  else None.

Definition Store (now : Time) (n : HTTPNode) (item : StoredItem) : Result StorageReceipt :=
  match postJSON (w_store n) item with
  | Err e => Err e
  | Ok receipt =>
      match verifyStorageReceipt (Identity n) item receipt now with
      | Some e => Err e
      | None => Ok receipt
      end
  end.

Definition Fetch (n : HTTPNode) (routeTags : list string) : Result (list StoredItem) :=
  match postJSON (w_fetch n) {| fq_RouteTags := routeTags |} with
  | Err e => Err e
  | Ok response =>
      if DefaultMaxFetchItems <? blen (fr_Items response) then Err "node returned too many fetch items"
      else Ok (fr_Items response)
  end.

(** The two clock readings of the check are [now] and [now']. *)
Definition Prove (now now' : Time) (n : HTTPNode) (request : ProofRequest) : Result StorageProof :=
  if negb (slen (pq_ItemID request) =? Sha256.Size * 2) || (blen (pq_Nonce request) <? 16) ||
     (64 <? blen (pq_Nonce request)) || (pq_Offset request <? 0) || (pq_Length request <=? 0) ||
     (MaxProofSampleBytes <? pq_Length request)
  then Err "invalid storage proof request"
  else match postJSON (w_proof n) request with
  | Err e => Err e
  | Ok proof =>
      if negb (bool_decide (sp_NodeID proof = nodeID n)) ||
         negb (bool_decide (sp_ItemID proof = pq_ItemID request)) ||
         negb (bytes_equal (sp_Nonce proof) (pq_Nonce request)) ||
         negb (sp_Offset proof =? pq_Offset request) || negb (blen (sp_Sample proof) =? pq_Length request) ||
         negb (blen (sp_PayloadHash proof) =? Sha256.Size) ||
         Before (sp_ProvedAt proof) (TAdd now (- (5 * Minute))) ||
         After (sp_ProvedAt proof) (TAdd now' (5 * Minute)) ||
         negb (Verify (Identity n) proofDomain (ProofSigningBytes proof) (sp_Signature proof))
      then Err "invalid storage proof signature"
      else Ok proof
  end.

Definition Delete (now now' : Time) (n : HTTPNode) (request : DeleteRequest) : Result DeleteReceipt :=
  match postJSON (w_delete n) request with
  | Err e => Err e
  | Ok receipt =>
      if negb (bool_decide (dr_NodeID receipt = nodeID n)) ||
         negb (bool_decide (dr_ItemID receipt = dq_ItemID request)) ||
         Before (dr_DeletedAt receipt) (TAdd now (- (5 * Minute))) ||
         After (dr_DeletedAt receipt) (TAdd now' (5 * Minute)) ||
         negb (Verify (Identity n) deleteReceiptDomain (DeleteReceiptSigningBytes receipt) (dr_Signature receipt))
      then Err "invalid delete receipt"
      else Ok receipt
  end.

End Nodes.

(** * Facts about reputation *)

(** What happens to the reputation of a node, with the time it is recorded. *)
Inductive Event :=
| Succeeded (id : string) (proof : bool)
| Failed (id : string) (now : Time) (err : option error)
| Excluded (id : string) (now : Time) (duration : Duration) (err : option error).

Definition event (r : Reputation) (e : Event) : Reputation :=
  match e with
  | Succeeded id proof => Success r id proof
  | Failed id now err => Failure now r id err
  | Excluded id now d err => Exclude now r id d err
  end.
Definition events (r : Reputation) (l : list Event) : Reputation := foldl event r l.

(** The node an event is about. *)
Definition about (e : Event) : string :=
  match e with Succeeded id _ | Failed id _ _ | Excluded id _ _ _ => id end.

(** Failures since the last success, by the history alone. *)
Fixpoint strikes (l : list Event) (id : string) : Z :=
  match l with
  | [] => 0
  | e :: l => 
      if bool_decide (about e = id)
      then match e with Succeeded _ _ => 0 | _ => 1 + strikes l id end
      else strikes l id
  end.

Lemma event_other (r : Reputation) (e : Event) (id : string) : about e ≠ id → event r e !! id = r !! id.
Proof. destruct e; simpl; intros; unfold Success, Failure, Exclude; by rewrite lookup_insert_ne. Qed.

Lemma strikes_nonneg (l : list Event) (id : string) : 0 ≤ strikes l id.
Proof. induction l as [|[] l IH]; simpl; try case_bool_decide; lia. Qed.

Lemma strikes_score (l : list Event) (id : string) :
  strikes l id < two32 →
  ns_ConsecutiveFails (map_get zeroScore (events NewReputation (reverse l)) id) = strikes l id.
Proof.
  induction l as [|e l IH]; intros Hs; [done|].
  rewrite reverse_cons. unfold events. rewrite foldl_app. simpl in *. fold (events NewReputation (reverse l)).
  case_bool_decide as He.
  - pose proof (strikes_nonneg l id). unfold map_get in *. subst id.
    destruct e; simpl in *; unfold Success, Failure, Exclude, map_get; rewrite lookup_insert_eq; simpl;
      [done|rewrite IH by lia; unfold u32; rewrite Z.mod_small; lia..].
  - unfold map_get in *. rewrite event_other by done. by apply IH.
Qed.

(** Three failures in a row exclude a node for a day: in any history, if the latest
    event about a node is a failure recorded at [t] and it is at least the third
    since its last success, the node is not used before [t] plus 24 hours,
    whatever happened to other nodes since. *)
Theorem three_strikes (before after : list Event) (id : string) (t now : Time) (err : option error) :
  2 ≤ strikes (reverse before) id → strikes (reverse before) id < two32 - 1 →
  Forall (λ e, about e ≠ id) after → now < t + 24 * Hour →
  Allowed (events NewReputation (before ++ Failed id t err :: after)) id now = false.
Proof.
  intros Hs Hs' Hafter Hnow. unfold events. rewrite foldl_app. simpl. fold (events NewReputation before).
  assert (Hfoldl : ∀ r, foldl event r after !! id = r !! id).
  { induction Hafter as [|e l He _ IH]; intros r; [done|]. simpl. rewrite IH. by apply event_other. }
  pose proof (strikes_score (reverse before) id ltac:(lia)) as Hc. rewrite reverse_involutive in Hc.
  unfold Allowed, map_get in *. rewrite Hfoldl. unfold Failure, map_get. rewrite lookup_insert_eq. simpl. rewrite Hc.
  unfold u32. rewrite Z.mod_small by lia. rewrite (proj2 (Z.leb_le _ _)) by lia.
  unfold After, TAdd. by rewrite (proj2 (Z.ltb_lt _ _)).
Qed.

Lemma three_strikes_witness :
  Allowed (events NewReputation ([Failed "n" 1 None; Succeeded "m" true; Failed "n" 2 None] ++
                                 Failed "n" 3 None :: [Succeeded "m" false])) "n" (3 + Hour) = false.
Proof.
  apply (three_strikes [Failed "n" 1 None; Succeeded "m" true; Failed "n" 2 None] [Succeeded "m" false] "n" 3
    (3 + Hour) None); [vm_compute; discriminate|vm_compute; reflexivity|
    constructor; [discriminate|constructor]|vm_compute; reflexivity].
Defined.

End ClientNode.
