(* ===== verification/ClientCore.v ===== *)
(** The messenger's client core (src/client/core.go): replicated writes with a
    quorum of verified receipts, fetches merged from untrusted nodes, audits of
    the replicas, deletion, and the delivery state kept in the local store. *)
From S2P Require Import Prelude Sha256 Encoding Protocol Work Padding Crypto Hpke Files ClientStore ClientNode.
From stdpp Require Import pretty.
Local Open Scope Z_scope.

Module ClientCore.
Import ClientNode.

(** * Interfaces *)

(** [ClientStore], the interface the core expects of its local store. [E] is what
    one call meets outside the program: its context, I/O outcomes, clock and random
    bytes. *)
Class LocalStore (E St : Type) := {
  ls_Put : E → St → ClientStore.LocalRecord → Time → St * ClientStore.PruneReport * option error;
  ls_Get : E → St → string → Result ClientStore.LocalRecord;
  ls_Delete : E → St → string → St * option error;
  ls_PruneTo : E → St → Z → Time → St * ClientStore.PruneReport * option error;
  ls_SetLimit : E → St → Z → Time → St * ClientStore.PruneReport * option error;
  ls_Usage : St → ClientStore.ClientStorageUsage;
  ls_Close : E → St → St * list error;
}.

(** What the core relies on: in a consistent store, a record put without error is
    read back, normalised, by a later call that can read. *)
Class LocalStoreLaws (E St : Type) `{!LocalStore E St} := {
  ls_ok : St → Prop;
  ls_reads : E → Time → Prop;
  ls_put_ok e s r now s' rep err : ls_ok s → ls_Put e s r now = (s', rep, err) → ls_ok s';
  ls_delete_ok e s id s' err : ls_ok s → ls_Delete e s id = (s', err) → ls_ok s';
  ls_put_get e e' s r now s' rep later :
    ls_ok s → ls_Put e s r now = (s', rep, None) → ls_reads e' later → now ≤ later →
    ls_Get e' s' (ClientStore.lr_ID r) = Ok (ClientStore.normalizeLocalRecord r);
}.

(** Concurrent goroutines report in any order, and Go ranges over a map in any
    order. *)
Class Schedule := {
  shuffle {A} : list A → list A;
  shuffle_perm {A} (l : list A) : shuffle l ≡ₚ l;
}.

#[export] Program Instance in_order : Schedule := {| shuffle A l := l |}.
Solve Obligations with done.

(** The readings of the clock during an operation. *)
Inductive Instant :=
| AtStart
| AtSelect
| AtSolve
| AtAnswer (nodeID : string)          (* a node's answer is checked *)
| AtAnswer' (nodeID : string)         (* ... second reading *)
| AtFailure (nodeID : string)         (* a failure is recorded *)
| AtExclude (nodeID : string)         (* a node is excluded *)
| AtAllowed (nodeID : string)         (* its exclusion is looked up *)
| AtItem (nodeID : string) (i : nat)  (* a fetched item is checked *)
| AtPersist.
Abbreviation Clock := (Instant → Time).

(** * Data *)

Record Config := {
  c_Nodes : list (option HTTPNode);  (* [None] is a nil pointer *)
  c_Replicas : Z;
  c_WriteQuorum : Z;
  c_Reputation : option Reputation;
}.

Definition MaxClientNodes : Z := 64.

(** The core. [nodes], [replicas] and [writeQuorum] never change; [store] is [None]
    when there is no local store. *)
Record Core {St : Type} := {
  nodes : list HTTPNode;
  replicas : Z;
  writeQuorum : Z;
  reputation : Reputation;
  store : option St;
}.
Arguments Core : clear implicits.

Record Delivery := {
  d_Item : StoredItem;
  d_DeleteToken : bytes;
  d_Receipts : list StorageReceipt;
  d_FailedNodes : gmap string string;
}.

Definition zeroItem : StoredItem :=
  {| si_Version := 0; si_ItemID := ""; si_RouteTag := ""; si_CreatedAt := 0; si_ExpiresAt := 0;
     si_DeleteTokenHash := []; si_Payload := []; si_Work := zeroWork |}.
Definition noDelivery : Delivery :=
  {| d_Item := zeroItem; d_DeleteToken := []; d_Receipts := []; d_FailedNodes := ∅ |}.


(** Validation of the node list in [New]. *)
Fixpoint checkNodes `{!Crypto} (seen : gset string) (l : list (option HTTPNode)) : Result (list HTTPNode) :=
  match l with
  | [] => Ok []
  | None :: _ => Err "invalid node descriptor"
  | Some n :: l =>
      if negb (hasClient n) || negb (ValidPublicIdentity (Identity n)) then Err "invalid node descriptor"
      else if bool_decide (nodeID n ∈ seen) then Err "duplicate node identity"
      else match checkNodes ({[nodeID n]} ∪ seen) l with
           | Err e => Err e
           | Ok rest => Ok (n :: rest)
           end
  end.

Definition New `{!Crypto} {St} (config : Config) (store : option St) : Result (Core St) :=
  let count := blen (c_Nodes config) in
  if (count =? 0) || (MaxClientNodes <? count) then Err "at least one node is required"
  else match checkNodes ∅ (c_Nodes config) with
  | Err e => Err e
  | Ok nodes =>
      let replicas := if (c_Replicas config <=? 0) || (count <? c_Replicas config) then count
                      else c_Replicas config in
      let quorum := if c_WriteQuorum config <=? 0 then Z.quot replicas 2 + 1 else c_WriteQuorum config in
      if replicas <? quorum then Err "write quorum exceeds replica count"
      else Ok {| nodes := nodes; replicas := replicas; writeQuorum := quorum;
                 reputation := default NewReputation (c_Reputation config); store := store |}
  end.

Definition RandomCapability (rand : Z → Result bytes) : Result string :=
  match rand 32 with Err e => Err e | Ok value => Ok (Base64.EncodeToString value) end.

Definition RandomDeleteToken (rand : Z → Result bytes) : Result bytes := rand 32.

Definition directAAD (routeTag : string) (createdAt expiresAt : Time) : bytes :=
  str_bytes "enig/direct/v1" ++ [x00] ++ str_bytes routeTag ++ [x00] ++
  str_bytes (pretty (UnixMilli createdAt)) ++ [x00] ++ str_bytes (pretty (UnixMilli expiresAt)).

Definition deliveryRecordID (itemID : string) : string := ("delivery." +:+ itemID)%string.

Section Ops.
Context {C : Crypto}.
Context {DParams : StrictDecoder NodeParameters}
        {MItem : Marshaler StoredItem} {DReceipt : StrictDecoder StorageReceipt}
        {MFetch : Marshaler FetchRequest} {DFetch : StrictDecoder FetchResponse}
        {MProof : Marshaler ProofRequest} {DProof : StrictDecoder StorageProof}
        {MDelete : Marshaler DeleteRequest} {DDelete : StrictDecoder DeleteReceipt}.
Context {MDelivery : Marshaler Delivery} {DDelivery : StrictDecoder Delivery}.
Context {MO : MapOrder} {SCH : Schedule}.
Context {E St : Type} {LS : LocalStore E St}.

Implicit Types (c : Core St) (clk : Clock).

Definition set_reputation c (r : Reputation) : Core St :=
  {| nodes := nodes c; replicas := replicas c; writeQuorum := writeQuorum c; reputation := r; store := store c |}.
Definition set_store c (s : option St) : Core St :=
  {| nodes := nodes c; replicas := replicas c; writeQuorum := writeQuorum c; reputation := reputation c; store := s |}.

Definition allowedNodes (now : Time) c : list HTTPNode :=
  filter (λ n, Allowed (reputation c) (nodeID n) now = true) (nodes c).

Definition nodeByID c (id : string) : option HTTPNode :=
  snd <$> list_find (λ n, nodeID n = id) (nodes c).

(** * Persisting a delivery *)

Definition deliveryRecord (d : Delivery) (encoded : bytes) (now : Time) : ClientStore.LocalRecord :=
  let created := si_CreatedAt (d_Item d) in
  {| ClientStore.lr_Version := ClientStore.ClientStoreVersion;
     ClientStore.lr_ID := deliveryRecordID (si_ItemID (d_Item d));
     ClientStore.lr_Kind := ClientStore.LocalKindDelivery;
     ClientStore.lr_CreatedAt := created;
     ClientStore.lr_UpdatedAt := if Before now created then created else now;
     ClientStore.lr_ExpiresAt := si_ExpiresAt (d_Item d);
     ClientStore.lr_PrunePolicy := ClientStore.PruneAfterExpiry;
     ClientStore.lr_Payload := encoded |}.

Definition persistDelivery (e : E) c (d : Delivery) (now : Time) : Core St * option error :=
  match store c with
  | None => (c, None)
  | Some s =>
      match Marshal d with
      | Err err => (c, Some err)
      | Ok encoded =>
          let '(s, _, err) := ls_Put e s (deliveryRecord d encoded now) now in
          (set_store c (Some s), err)
      end
  end.

(** * Replicated writes *)

Record nodeParameters := { np_node : HTTPNode; np_parameters : NodeParameters }.

(** [delivery.FailedNodes[id] = err]. *)
Definition fail_node (d : Delivery) (id : string) (err : error) : Delivery :=
  {| d_Item := d_Item d; d_DeleteToken := d_DeleteToken d; d_Receipts := d_Receipts d;
     d_FailedNodes := <[id := err]> (d_FailedNodes d) |}.
Definition add_receipt (d : Delivery) (r : StorageReceipt) : Delivery :=
  {| d_Item := d_Item d; d_DeleteToken := d_DeleteToken d; d_Receipts := d_Receipts d ++ [r];
     d_FailedNodes := d_FailedNodes d |}.
Definition set_item (d : Delivery) (item : StoredItem) : Delivery :=
  {| d_Item := item; d_DeleteToken := d_DeleteToken d; d_Receipts := d_Receipts d;
     d_FailedNodes := d_FailedNodes d |}.

(** Nodes grouped by the length of their work epoch. *)
Abbreviation Groups := (gmap Z (list nodeParameters)).

(** One report of the parameter phase. *)
Definition collectParameters (clk : Clock) (payload : Z)
    (st : Reputation * Delivery * Groups) (result : HTTPNode * Result NodeParameters)
  : Reputation * Delivery * Groups :=
  let '(rep, d, groups) := st in
  let id := nodeID result.1 in
  match result.2 with
  | Err err => (Failure (clk (AtFailure id)) rep id (Some err), fail_node d id err, groups)
  | Ok parameters =>
      if np_MaxItemBytes parameters <? payload
      then (rep, fail_node d id "item violates node limits", groups)
      else (rep, d,
            <[np_EpochSeconds parameters :=
                default [] (groups !! np_EpochSeconds parameters) ++
                [{| np_node := result.1; np_parameters := parameters |}]]> groups)
  end.

(** Lower difficulty first, then the smaller identifier. *)
Definition cheaper (x y : nodeParameters) : bool :=
  if np_Difficulty (np_parameters x) =? np_Difficulty (np_parameters y)
  then str_ltb (nodeID (np_node x)) (nodeID (np_node y))
  else np_Difficulty (np_parameters x) <? np_Difficulty (np_parameters y).
Definition cheap_le (x y : nodeParameters) : Prop := cheaper y x = false.
#[export] Instance cheap_le_dec x y : Decision (cheap_le x y).
Proof. unfold cheap_le. apply _. Defined.

Record Selection := { sel_group : list nodeParameters; sel_epoch : Z; sel_threshold : Z }.
Definition noSelection : Selection := {| sel_group := []; sel_epoch := 0; sel_threshold := 0 |}.

(** One iteration over the groups. The index [writeQuorum - 1] is in range: the
    group has at least [writeQuorum] nodes and [New] makes the quorum positive. *)
Definition selectGroup (quorum : Z) (sel : Selection) (entry : Z * list nodeParameters) : Selection :=
  let '(epoch, group) := entry in
  if blen group <? quorum then sel
  else
    let group := merge_sort cheap_le group in
    match group !! Z.to_nat (quorum - 1) with
    | None => sel
    | Some last =>
        let threshold := np_Difficulty (np_parameters last) in
        if (blen (sel_group sel) <? blen group) ||
           (blen group =? blen (sel_group sel)) &&
           ((blen (sel_group sel) =? 0) || (threshold <? sel_threshold sel))
        then {| sel_group := group; sel_epoch := epoch; sel_threshold := threshold |}
        else sel
    end.

(** One answer to a store request, from a primary or a replacement. *)
Definition recordStore (clk : Clock) (st : Reputation * Delivery) (result : HTTPNode * Result StorageReceipt)
  : Reputation * Delivery :=
  let '(rep, d) := st in
  let id := nodeID result.1 in
  match result.2 with
  | Err err => (Failure (clk (AtFailure id)) rep id (Some err), fail_node d id err)
  | Ok receipt => (Success rep id false, add_receipt d receipt)
  end.

(** Replacements are asked one by one until there are enough receipts. *)
Fixpoint storeBackups (clk : Clock) (wanted : Z) (item : StoredItem) (st : Reputation * Delivery)
    (backups : list HTTPNode) : Reputation * Delivery :=
  match backups with
  | [] => st
  | n :: backups =>
      if wanted <=? blen (d_Receipts st.2) then st
      else storeBackups clk wanted item
             (recordStore clk st (n, Store (clk (AtAnswer (nodeID n))) n item)) backups
  end.

Definition quorumError (got want : Z) : error :=
  ("write quorum not reached: got " +:+ pretty got +:+ " of " +:+ pretty want +:+ " receipts")%string.

(** [fuel] and [poll] belong to the proof-of-work search, [e] to the local store.
    [None] is a search still running. *)
Definition StoreReplicated (clk : Clock) (fuel : nat) (poll : Z → option error) (e : E) c
    (item : StoredItem) (deleteToken : bytes) : option (Core St * Delivery * option error) :=
  match ValidateItem item (clk AtStart) DefaultMaxItemBytes with
  | Some err => Some (c, noDelivery, Some err)
  | None =>
  if negb (blen deleteToken =? CapabilityBytes) ||
     negb (bytes_equal (si_DeleteTokenHash item) (DeleteTokenHash deleteToken))
  then Some (c, noDelivery, Some "delete capability does not match item"%string)
  else
  let candidates := allowedNodes (clk AtSelect) c in
  if blen candidates <? writeQuorum c
  then Some (c, noDelivery, Some "not enough non-excluded nodes for write quorum"%string)
  else
  let delivery := {| d_Item := zeroItem; d_DeleteToken := deleteToken; d_Receipts := []; d_FailedNodes := ∅ |} in
  let parameterResults := shuffle ((λ n, (n, Parameters n)) <$> candidates) in
  let '(rep, delivery, groups) :=
    foldl (collectParameters clk (blen (si_Payload item))) (reputation c, delivery, ∅) parameterResults in
  let c := set_reputation c rep in
  let sel := foldl (selectGroup (writeQuorum c)) noSelection (shuffle (map_to_list groups)) in
  if blen (sel_group sel) <? writeQuorum c
  then Some (c, noDelivery, Some "could not obtain node parameters"%string)
  else
  let usable := np_node <$>
    filter (λ p, np_Difficulty (np_parameters p) ≤ sel_threshold sel) (sel_group sel) in
  match SolveWork fuel poll item (clk AtSolve) (sel_epoch sel) (sel_threshold sel) with
  | None => None
  | Some (Err err) => Some (c, noDelivery, Some err)
  | Some (Ok work) =>
      let item := set_Work item work in
      let delivery := set_item delivery item in
      let primaryCount := Z.to_nat (Z.min (replicas c) (blen usable)) in
      let results :=
        shuffle ((λ n, (n, Store (clk (AtAnswer (nodeID n))) n item)) <$> take primaryCount usable) in
      let st := foldl (recordStore clk) (reputation c, delivery) results in
      let '(rep, delivery) := storeBackups clk (replicas c) item st (drop primaryCount usable) in
      let c := set_reputation c rep in
      if blen (d_Receipts delivery) <? writeQuorum c then
        let writeErr := quorumError (blen (d_Receipts delivery)) (writeQuorum c) in
        if 0 <? blen (d_Receipts delivery) then
          let '(c, persistErr) := persistDelivery e c delivery (clk AtPersist) in
          Some (c, delivery,
                Some match persistErr with
                     | Some p => (writeErr +:+ String (Ascii.ascii_of_nat 10) EmptyString +:+ p)%string
                     | None => writeErr
                     end)
        else Some (c, delivery, Some writeErr)
      else
        let '(c, err) := persistDelivery e c delivery (clk AtPersist) in
        Some (c, delivery, (λ p, ("persist delivery state: " +:+ p)%string) <$> err)
  end end.

(** * Composing an item *)

(** The random values of a send: the route, the padding, the encapsulation and the
    delete token. *)
Record Randomness := {
  r_route : Z → Result bytes;
  r_padding : Z → Result bytes;
  r_coins : bytes;
  r_token : Z → Result bytes;
}.

Definition newItem (routeTag : string) (createdAt : Time) (deleteToken payload : bytes) : StoredItem :=
  let item := {| si_Version := ProtocolVersion; si_ItemID := ""; si_RouteTag := routeTag;
                 si_CreatedAt := createdAt; si_ExpiresAt := TAdd createdAt FixedItemRetention;
                 si_DeleteTokenHash := DeleteTokenHash deleteToken; si_Payload := payload;
                 si_Work := zeroWork |} in
  set_ItemID item (ComputeItemID item).

Context {HP : Hpke.HPKE} {MDirect : Marshaler DirectCiphertext} {DDirect : StrictDecoder DirectCiphertext}.

(** Everything of [SendDirect] before the store: the item and its delete token. *)
Definition sealDirect (now : Time) (rnd : Randomness) (recipient : bytes) (routeTag : string)
    (plaintext : bytes) : Result (StoredItem * bytes) :=
  match (if bool_decide (routeTag = ""%string) then RandomCapability (r_route rnd) else Ok routeTag) with
  | Err e => Err e
  | Ok routeTag =>
  if negb (ValidRouteTag routeTag) then Err "invalid route capability"
  else match Hpke.ValidateHybridKEMPublicKey recipient with
  | Some _ => Err "invalid recipient HPKE public key"
  | None =>
  let createdAt := Truncate now Millisecond in
  let expiresAt := TAdd createdAt FixedItemRetention in
  match Padding.PadMessage (r_padding rnd) plaintext with
  | Err e => Err e
  | Ok padded =>
  match Hpke.Seal (r_coins rnd) recipient (directAAD routeTag createdAt expiresAt) padded with
  | Err e => Err e
  | Ok (encapsulation, ciphertext) =>
  match Marshal {| dc_Suite := Hpke.HybridHPKESuite; dc_Encapsulation := encapsulation;
                   dc_Ciphertext := ciphertext |} with
  | Err e => Err e
  | Ok payload =>
  match RandomDeleteToken (r_token rnd) with
  | Err e => Err e
  | Ok deleteToken => Ok (newItem routeTag createdAt deleteToken payload, deleteToken)
  end end end end end end.

(** [now] is the reading for the creation time. *)
Definition SendDirect (now : Time) (rnd : Randomness) clk (fuel : nat) (poll : Z → option error) (e : E) c
    (recipient : bytes) (routeTag : string) (plaintext : bytes)
  : option (Core St * Delivery * option error) :=
  match sealDirect now rnd recipient routeTag plaintext with
  | Err err => Some (c, noDelivery, Some err)
  | Ok (item, deleteToken) => StoreReplicated clk fuel poll e c item deleteToken
  end.

Definition StoreOpaque (now : Time) clk (fuel : nat) (poll : Z → option error) (e : E) c
    (routeTag : string) (encryptedPayload deleteToken : bytes)
  : option (Core St * Delivery * option error) :=
  if negb (ValidRouteTag routeTag) || (blen encryptedPayload =? 0) ||
     (DefaultMaxItemBytes <? blen encryptedPayload) || negb (blen deleteToken =? CapabilityBytes)
  then Some (c, noDelivery, Some "invalid opaque item capabilities"%string)
  else StoreReplicated clk fuel poll e c
         (newItem routeTag (Truncate now Millisecond) deleteToken encryptedPayload) deleteToken.

Definition OpenDirectItem (privateKey : bytes) (item : StoredItem) : Result bytes :=
  match ValidateItem item (si_CreatedAt item) DefaultMaxItemBytes with
  | Some _ => Err ErrInvalidItem
  | None =>
      match decodeStrict (si_Payload item) with
      | Err e => Err e
      | Ok sealed =>
          if negb (bool_decide (dc_Suite sealed = Hpke.HybridHPKESuite)) ||
             (blen (dc_Encapsulation sealed) =? 0) || (blen (dc_Ciphertext sealed) =? 0) ||
             (DefaultMaxItemBytes <? blen (dc_Ciphertext sealed))
          then Err "unsupported direct-message cipher suite"
          else match Hpke.Open privateKey (dc_Encapsulation sealed)
                       (directAAD (si_RouteTag item) (si_CreatedAt item) (si_ExpiresAt item))
                       (dc_Ciphertext sealed) with
               | Err e => Err e
               | Ok padded => Padding.UnpadMessage padded
               end
      end
  end.

(** * Fetching *)

Fixpoint checkTags (requested : gset string) (tags : list string) : Result (gset string) :=
  match tags with
  | [] => Ok requested
  | t :: tags =>
      if negb (ValidRouteTag t) then Err "invalid route tag"
      else if bool_decide (t ∈ requested) then Err "duplicate route tag"
      else checkTags ({[t]} ∪ requested) tags
  end.

Record FetchState := {
  fs_seen : gmap string StoredItem;
  fs_total : Z;  (* int64 *)
  fs_rep : Reputation;
  fs_last : option error;
  fs_success : bool;
}.

(** The items of one answer: the map, the byte total and [responseValid]. *)
Fixpoint mergeItems clk (id : string) (requested : gset string) (i : nat) (items : list StoredItem)
    (seen : gmap string StoredItem) (total : Z) (valid : bool)
  : Result (gmap string StoredItem * Z * bool) :=
  match items with
  | [] => Ok (seen, total, valid)
  | it :: items =>
      if negb (bool_decide (si_RouteTag it ∈ requested)) ||
         negb (bool_decide (ValidateItem it (clk (AtItem id i)) DefaultMaxItemBytes = None))
      then mergeItems clk id requested (i + 1) items seen total false
      else match seen !! si_ItemID it with
      | Some _ => mergeItems clk id requested (i + 1) items seen total valid
      | None =>
          if DefaultMaxFetchItems <=? Z.of_nat (size seen) then Err "combined fetch result exceeds item limit"
          else if DefaultMaxFetchBytes <? total + blen (si_Payload it)
          then Err "combined fetch result exceeds size limit"
          else mergeItems clk id requested (i + 1) items (<[si_ItemID it := it]> seen)
                 (total + blen (si_Payload it)) valid
      end
  end.

(** One node of the fetch loop; an error ends the fetch. *)
Definition fetchNode clk (requested : gset string) (routeTags : list string) (st : FetchState) (n : HTTPNode)
  : Result FetchState :=
  let id := nodeID n in
  let failed rep seen total err :=
    {| fs_seen := seen; fs_total := total;
       fs_rep := Failure (clk (AtFailure id)) rep id (Some err); fs_last := Some err;
       fs_success := fs_success st |} in
  match Fetch n routeTags with
  | Err err => Ok (failed (fs_rep st) (fs_seen st) (fs_total st) err)
  | Ok items =>
      if DefaultMaxFetchItems <? blen items
      then Ok (failed (fs_rep st) (fs_seen st) (fs_total st) "node returned too many fetch items"%string)
      else match mergeItems clk id requested 0 items (fs_seen st) (fs_total st) true with
      | Err err => Err err
      | Ok (seen, total, true) =>
          Ok {| fs_seen := seen; fs_total := total; fs_rep := fs_rep st; fs_last := fs_last st;
                fs_success := true |}
      | Ok (seen, total, false) =>
          Ok (failed (fs_rep st) seen total "node returned an invalid fetch item"%string)
      end
  end.

(** The loop; an early return keeps the reputation recorded so far. *)
Fixpoint fetchNodes clk (requested : gset string) (routeTags : list string) (st : FetchState)
    (l : list HTTPNode) : FetchState * option error :=
  match l with
  | [] => (st, None)
  | n :: l =>
      match fetchNode clk requested routeTags st n with
      | Err err => (st, Some err)
      | Ok st => fetchNodes clk requested routeTags st l
      end
  end.

Definition older (x y : StoredItem) : Prop := Before (si_CreatedAt y) (si_CreatedAt x) = false.
#[export] Instance older_dec x y : Decision (older x y).
Proof. unfold older. apply _. Defined.

Definition Fetch clk c (routeTags : list string) : Core St * Result (list StoredItem) :=
  if (blen routeTags =? 0) || (MaxRouteTagsPerFetch <? blen routeTags)
  then (c, Err "route tag count out of range")
  else match checkTags ∅ routeTags with
  | Err e => (c, Err e)
  | Ok requested =>
      let '(st, stop) :=
        fetchNodes clk requested routeTags
          {| fs_seen := ∅; fs_total := 0; fs_rep := reputation c; fs_last := None; fs_success := false |}
          (allowedNodes (clk AtSelect) c) in
      let c := set_reputation c (fs_rep st) in
      match stop with
      | Some err => (c, Err err)
      | None =>
          let result := merge_sort older ((range_map (fs_seen st)).*2) in
          if fs_success st then (c, Ok result)
          else match fs_last st with
               | Some err => (c, Err err)
               | None => (c, Ok result)
               end
      end
  end.

(** * Auditing *)

(** [rand n] and [below n]: [rand.Read] into [n] bytes and [rand.Int] below [n], for
    the [i]-th receipt. *)
Record AuditRandomness := { ar_rand : nat → Z → Result bytes; ar_below : nat → Z → Result Z }.

Definition randomProofOffset (below : Z → Result Z) (payloadBytes sampleBytes : Z) : Result Z :=
  if (payloadBytes <=? 0) || (sampleBytes <=? 0) || (payloadBytes <? sampleBytes)
  then Err "invalid proof sample bounds"
  else
    let maxStart := payloadBytes - sampleBytes in
    if maxStart =? 0 then Ok 0 else below (maxStart + 1).

(** What one audited node is found to have done: nothing wrong, an error, or an
    answer with the wrong bytes. *)
Inductive Finding := Proved | Missed (err : error) | Forged (err : error).

Definition wrongBytes : error := "node returned incorrect stored bytes".

Definition auditNode clk (d : Delivery) (request : ProofRequest) (n : HTTPNode) : Finding :=
  match Prove (clk (AtAnswer (nodeID n))) (clk (AtAnswer' (nodeID n))) n request with
  | Err err => Missed err
  | Ok proof =>
      let offset := pq_Offset request in
      let last := offset + blen (sp_Sample proof) in
      let payload := si_Payload (d_Item d) in
      if (blen payload <? last) || negb (bytes_equal (sp_Sample proof) (slice payload offset last)) ||
         negb (bytes_equal (sp_PayloadHash proof) (Sha256.Sum256 payload))
      then Forged wrongBytes
      else Proved
  end.

(** The bookkeeping after an audited node's answer. *)
Definition judge clk (rep : Reputation) (id : string) (f : Finding) : Reputation * option error :=
  let excluded err rep :=
    if Allowed rep id (clk (AtAllowed id)) then Failure (clk (AtFailure id)) rep id (Some err) else rep in
  match f with
  | Proved => (Success rep id true, None)
  | Missed err => (excluded err rep, Some err)
  | Forged err => (excluded err (Exclude (clk (AtExclude id)) rep id (24 * Hour) (Some err)), Some err)
  end.

Definition auditReceipt clk (rnd : AuditRandomness) c (d : Delivery) (i : nat)
    (st : Reputation * gmap string (option error)) (receipt : StorageReceipt)
  : Reputation * gmap string (option error) :=
  let '(rep, results) := st in
  match nodeByID c (sr_NodeID receipt) with
  | None => st
  | Some n =>
      let id := nodeID n in
      match ar_rand rnd i 32 with
      | Err err => (rep, <[id := Some err]> results)
      | Ok nonce =>
          let sampleLength := Z.min 4096 (blen (si_Payload (d_Item d))) in
          match randomProofOffset (ar_below rnd i) (blen (si_Payload (d_Item d))) sampleLength with
          | Err err => (rep, <[id := Some err]> results)
          | Ok offset =>
              let request := {| pq_ItemID := si_ItemID (d_Item d); pq_Nonce := nonce;
                                pq_Offset := offset; pq_Length := sampleLength |} in
              let '(rep, err) := judge clk rep id (auditNode clk d request n) in
              (rep, <[id := err]> results)
          end
      end
  end.

Fixpoint auditLoop clk (rnd : AuditRandomness) c (d : Delivery) (i : nat)
    (st : Reputation * gmap string (option error)) (receipts : list StorageReceipt)
  : Reputation * gmap string (option error) :=
  match receipts with
  | [] => st
  | r :: receipts => auditLoop clk rnd c d (i + 1) (auditReceipt clk rnd c d i st r) receipts
  end.

Definition Audit clk (rnd : AuditRandomness) c (d : Delivery) : Core St * gmap string (option error) :=
  let '(rep, results) := auditLoop clk rnd c d 0 (reputation c, ∅) (d_Receipts d) in
  (set_reputation c rep, results).

(** The clock of the audit and that of the repair are [clk] and [clk']. *)
Definition AuditAndRepair clk (rnd : AuditRandomness) (clk' : Clock) (fuel : nat) (poll : Z → option error)
    (e : E) c (d : Delivery) : option (Core St * Delivery * gmap string (option error) * option error) :=
  let '(c, audit) := Audit clk rnd c d in
  if negb (existsb (λ p, bool_decide (p.2 ≠ None)) (range_map audit)) then Some (c, d, audit, None)
  else match StoreReplicated clk' fuel poll e c (d_Item d) (d_DeleteToken d) with
       | None => None
       | Some (c, repaired, err) => Some (c, repaired, audit, err)
       end.

(** * Deleting *)

Definition deleteReceipt clk c (d : Delivery) (st : Reputation * gmap string (option error) * bool)
    (receipt : StorageReceipt) : Reputation * gmap string (option error) * bool :=
  let '(rep, results, all) := st in
  match nodeByID c (sr_NodeID receipt) with
  | None => (rep, results, false)
  | Some n =>
      let id := nodeID n in
      match Delete (clk (AtAnswer id)) (clk (AtAnswer' id)) n
              {| dq_ItemID := si_ItemID (d_Item d); dq_DeleteToken := d_DeleteToken d |} with
      | Ok _ => (rep, <[id := None]> results, all)
      | Err err => (Failure (clk (AtFailure id)) rep id (Some err), <[id := Some err]> results, false)
      end
  end.

Definition DeleteDelivery clk (e : E) c (d : Delivery) : Core St * gmap string (option error) :=
  if negb (blen (d_DeleteToken d) =? CapabilityBytes) ||
     negb (bytes_equal (si_DeleteTokenHash (d_Item d)) (DeleteTokenHash (d_DeleteToken d)))
  then (c, foldl (λ results r, <[sr_NodeID r := Some "invalid delete capability"%string]> results)
             ∅ (d_Receipts d))
  else
    let '(rep, results, allDeleted) :=
      foldl (deleteReceipt clk c d) (reputation c, ∅, 0 <? blen (d_Receipts d)) (d_Receipts d) in
    let c := set_reputation c rep in
    match store c with
    | Some s =>
        if allDeleted then
          let '(s, err) := ls_Delete e s (deliveryRecordID (si_ItemID (d_Item d))) in
          let c := set_store c (Some s) in
          match err with
          | Some err =>
              if bool_decide (err = ClientStore.ErrLocalRecordNotFound) then (c, results)
              else (c, <["local-client-store"%string := Some err]> results)
          | None => (c, results)
          end
        else (c, results)
    | None => (c, results)
    end.

Definition DeleteItemEverywhere clk c (itemID : string) (deleteToken : bytes) : gmap string (option error) :=
  if negb (blen deleteToken =? CapabilityBytes) || negb (slen itemID =? Sha256.Size * 2)
  then foldl (λ results n, <[nodeID n := Some "invalid delete request"%string]> results) ∅ (nodes c)
  else foldl (λ results n,
         <[nodeID n :=
             match Delete (clk (AtAnswer (nodeID n))) (clk (AtAnswer' (nodeID n))) n
                     {| dq_ItemID := itemID; dq_DeleteToken := deleteToken |} with
             | Ok _ => None
             | Err err => Some err
             end]> results) ∅ (nodes c).

(** * Restoring a delivery *)

Fixpoint checkReceipts c (d : Delivery) (now : Time) (seen : gset string) (l : list StorageReceipt) : option error :=
  match l with
  | [] => None
  | receipt :: l =>
      match nodeByID c (sr_NodeID receipt) with
      | None => Some "persisted receipt references an unknown node"%string
      | Some node =>
          if bool_decide (sr_NodeID receipt ∈ seen)
          then Some "persisted delivery contains duplicate receipts"%string
          else match verifyStorageReceipt (Identity node) (d_Item d) receipt now with
               | Some err => Some err
               | None => checkReceipts c d now ({[sr_NodeID receipt]} ∪ seen) l
               end
      end
  end.

Definition LoadDelivery (e : E) c (itemID : string) (now : Time) : Result Delivery :=
  match store c with
  | None => Err "persistent client store is unavailable"
  | Some s =>
  if negb (slen itemID =? Sha256.Size * 2) || IsZero now then Err "persistent client store is unavailable"
  else match ls_Get e s (deliveryRecordID itemID) with
  | Err err => Err err
  | Ok record =>
  if negb (ClientStore.lr_Version record =? ClientStore.ClientStoreVersion) ||
     negb (bool_decide (ClientStore.lr_ID record = deliveryRecordID itemID)) ||
     negb (bool_decide (ClientStore.lr_Kind record = ClientStore.LocalKindDelivery)) ||
     negb (bool_decide (ClientStore.lr_PrunePolicy record = ClientStore.PruneAfterExpiry))
  then Err "invalid persisted delivery record"
  else match decodeStrict (ClientStore.lr_Payload record) with
  | Err err => Err err
  | Ok delivery =>
  if negb (bool_decide (si_ItemID (d_Item delivery) = itemID)) ||
     negb (bool_decide (ValidateItem (d_Item delivery) now DefaultMaxItemBytes = None)) ||
     negb (TEqual (ClientStore.lr_CreatedAt record) (si_CreatedAt (d_Item delivery))) ||
     negb (TEqual (ClientStore.lr_ExpiresAt record) (si_ExpiresAt (d_Item delivery))) ||
     negb (blen (d_DeleteToken delivery) =? CapabilityBytes) ||
     negb (bytes_equal (si_DeleteTokenHash (d_Item delivery)) (DeleteTokenHash (d_DeleteToken delivery)))
  then Err "invalid persisted delivery state"
  else match checkReceipts c delivery now ∅ (d_Receipts delivery) with
       | Some err => Err err
       | None => Ok delivery
       end
  end end end.

(** * Storage administration *)

Definition CoreStorageUsage c : option ClientStore.ClientStorageUsage := ls_Usage <$> store c.

Definition SetClientStorageLimit (e : E) c (maxBytes : Z) (now : Time)
  : Core St * ClientStore.PruneReport * option error :=
  match store c with
  | None => (c, ClientStore.noReport, Some "persistent client store is unavailable"%string)
  | Some s => let '(s, report, err) := ls_SetLimit e s maxBytes now in (set_store c (Some s), report, err)
  end.

Definition PruneClientStorage (e : E) c (targetBytes : Z) (now : Time)
  : Core St * ClientStore.PruneReport * option error :=
  match store c with
  | None => (c, ClientStore.noReport, Some "persistent client store is unavailable"%string)
  | Some s => let '(s, report, err) := ls_PruneTo e s targetBytes now in (set_store c (Some s), report, err)
  end.

Definition CloseCore (e : E) c : Core St * list error :=
  match store c with
  | None => (c, [])
  | Some s => let '(s, errs) := ls_Close e s in (set_store c (Some s), errs)
  end.

(** * Facts about the core *)

(** What [New] establishes and no operation changes. *)
Record core_ok c : Prop := {
  ck_ids : NoDup (nodeID <$> nodes c);
  ck_valid : Forall (λ n, ValidPublicIdentity (Identity n) = true) (nodes c);
  ck_quorum : 0 < writeQuorum c ≤ replicas c;
  ck_replicas : replicas c ≤ blen (nodes c);
}.

Lemma checkNodes_Ok (seen : gset string) (l : list (option HTTPNode)) (k : list HTTPNode) :
  checkNodes seen l = Ok k →
  l = Some <$> k ∧ NoDup (nodeID <$> k) ∧ (∀ n, n ∈ k → nodeID n ∉ seen) ∧
  Forall (λ n, ValidPublicIdentity (Identity n) = true) k.
Proof.
  revert seen k. induction l as [|[n|] l IH]; intros seen k; cbn [checkNodes]; [|intros H|done].
  { intros <-%(inj Ok). split_and!; [done|constructor|set_solver|constructor]. }
  repeat step_if H. unbool. destruct (checkNodes _ l) as [rest|] eqn:Hr; [|done].
  apply (inj Ok) in H as <-. apply IH in Hr as (-> & Hnd & Hseen & Hval). split_and!.
  - done.
  - apply list.NoDup_cons. split; [|done]. intros (m & Hm & Hin)%list_elem_of_fmap.
    apply (Hseen m Hin). rewrite <- Hm. set_solver.
  - intros m [->|Hm]%elem_of_cons; [done|]. specialize (Hseen m Hm). set_solver.
  - by constructor.
Qed.

Lemma New_core_ok (config : Config) (st : option St) c : New config st = Ok c → core_ok c ∧ store c = st.
Proof.
  unfold New. intros H. cbv zeta in H. step_if H. destruct (checkNodes ∅ (c_Nodes config)) as [k|] eqn:Hk; [|done].
  apply checkNodes_Ok in Hk as (Hl & Hnd & _ & Hval).
  assert (Hlen : blen (c_Nodes config) = blen k) by (rewrite Hl; unfold blen; by rewrite length_fmap).
  rewrite Hlen in *. unbool. pose proof (blen_nonneg k).
  destruct ((c_Replicas config <=? 0) || (blen k <? c_Replicas config))%bool eqn:Hr;
  destruct (c_WriteQuorum config <=? 0) eqn:Hq; unbool; step_if H; unbool;
    apply (inj Ok) in H as <-; (split; [|done]); constructor; cbn [nodes replicas writeQuorum]; try done; try lia.
  - pose proof (Z.quot_pos (blen k) 2 ltac:(lia) ltac:(lia)). lia.
  - pose proof (Z.quot_pos (c_Replicas config) 2 ltac:(lia) ltac:(lia)). lia.
Qed.

Lemma nodeByID_Some c (id : string) (n : HTTPNode) :
  nodeByID c id = Some n → n ∈ nodes c ∧ nodeID n = id.
Proof.
  unfold nodeByID. destruct (list_find _ _) as [[i m]|] eqn:Hf; [|done]. intros [= <-].
  apply list_find_Some in Hf as (Hl & ? & _). split; [by eapply list_elem_of_lookup_2|done].
Qed.

Lemma nodeByID_nodes c (n : HTTPNode) : core_ok c → n ∈ nodes c → nodeByID c (nodeID n) = Some n.
Proof.
  intros [Hnd _ _ _] Hn. unfold nodeByID.
  destruct (list_find _ _) as [[i m]|] eqn:Hf; simpl.
  - apply list_find_Some in Hf as (Hl & Hid & _). f_equal.
    apply list_elem_of_lookup_1 in Hn as [j Hj].
    assert (i = j) as ->; [|congruence].
    eapply NoDup_lookup; [exact Hnd| |]; rewrite list_lookup_fmap; [by rewrite Hl|]. rewrite Hj. simpl. by rewrite Hid.
  - apply list_find_None in Hf. rewrite List.Forall_forall in Hf. by destruct (Hf n); [apply list_elem_of_In|].
Qed.

Lemma allowedNodes_elem c (now : Time) (n : HTTPNode) :
  n ∈ allowedNodes now c ↔ n ∈ nodes c ∧ Allowed (reputation c) (nodeID n) now = true.
Proof. unfold allowedNodes. rewrite list_elem_of_filter. tauto. Qed.

Lemma allowedNodes_ids c (now : Time) : core_ok c → NoDup (nodeID <$> allowedNodes now c).
Proof.
  intros [Hnd _ _ _]. eapply sublist_NoDup; [exact Hnd|]. apply fmap_sublist, sublist_filter.
Qed.

(** ** The parameter phase *)

(** A group holds nodes that answered with its epoch length and take the item. *)
Definition group_ok (asked : list (HTTPNode * Result NodeParameters)) (payload epoch : Z)
    (g : list nodeParameters) : Prop :=
  np_node <$> g `sublist_of` asked.*1 ∧
  ∀ p, p ∈ g → (np_node p, Ok (np_parameters p)) ∈ asked ∧ np_EpochSeconds (np_parameters p) = epoch ∧
               payload ≤ np_MaxItemBytes (np_parameters p).

Lemma group_ok_skip asked payload epoch g x :
  group_ok asked payload epoch g → group_ok (asked ++ [x]) payload epoch g.
Proof.
  intros [Hs Hg]. split.
  - rewrite fmap_app. by apply sublist_inserts_r.
  - intros p (? & ? & ?)%Hg. split_and!; [|done..]. apply elem_of_app. by left.
Qed.

Lemma collectParameters_spec clk (payload : Z) (rep : Reputation) (d : Delivery)
    (asked : list (HTTPNode * Result NodeParameters)) :
  let '(_, d', groups) := foldl (collectParameters clk payload) (rep, d, ∅) asked in
  d_Item d' = d_Item d ∧ d_DeleteToken d' = d_DeleteToken d ∧ d_Receipts d' = d_Receipts d ∧
  ∀ epoch g, groups !! epoch = Some g → group_ok asked payload epoch g.
Proof.
  pose (P asked (st : Reputation * Delivery * Groups) :=
    let '(_, d', groups) := st in
    d_Item d' = d_Item d ∧ d_DeleteToken d' = d_DeleteToken d ∧ d_Receipts d' = d_Receipts d ∧
    ∀ epoch g, groups !! epoch = Some g → group_ok asked payload epoch g).
  apply (foldl_inv P); [done|]. unfold P. intros seen [n r] [[rep' d'] groups] _ (H1 & H2 & H3 & Hg).
  unfold collectParameters. cbn [fst snd].
  destruct r as [q|err]; [destruct (np_MaxItemBytes q <? payload) eqn:Hmax; unbool|].
  1,3: split_and!; [done..|]; intros epoch g Hl; by apply group_ok_skip, Hg.
  split_and!; [done..|]. intros epoch g. destruct (decide (epoch = np_EpochSeconds q)) as [->|].
  2: { rewrite lookup_insert_ne by done. intros Hl. by apply group_ok_skip, Hg. }
  rewrite lookup_insert_eq. intros [= <-].
  assert (Hold : group_ok seen payload (np_EpochSeconds q) (default [] (groups !! np_EpochSeconds q))).
  { destruct (groups !! _) as [g|] eqn:Hl; [by apply Hg|]. split; [apply sublist_nil_l|set_solver]. }
  destruct Hold as [Hs Hm]. split.
  - rewrite !fmap_app. by apply sublist_app.
  - intros p [(? & ? & ?)%Hm| ->%list_elem_of_singleton]%elem_of_app; cbn [np_node np_parameters].
    + split_and!; [|done..]. apply elem_of_app. by left.
    + split_and!; [|done|lia]. apply elem_of_app. right. by left.
Qed.

Lemma collect_fields clk (payload : Z) (rep rep' : Reputation) (d d' : Delivery)
    (asked : list (HTTPNode * Result NodeParameters)) (groups : Groups) :
  foldl (collectParameters clk payload) (rep, d, ∅) asked = (rep', d', groups) →
  d_Item d' = d_Item d ∧ d_DeleteToken d' = d_DeleteToken d ∧ d_Receipts d' = d_Receipts d.
Proof. intros H. pose proof (collectParameters_spec clk payload rep d asked) as Hs. rewrite H in Hs. naive_solver. Qed.

(** ** The choice of a group *)

Lemma selectGroups_spec (quorum : Z) (l : list (Z * list nodeParameters)) :
  let sel := foldl (selectGroup quorum) noSelection l in
  sel_group sel = [] ∨ ∃ g, (sel_epoch sel, g) ∈ l ∧ sel_group sel ≡ₚ g.
Proof.
  cbv zeta.
  apply (foldl_inv (λ _ sel, sel_group sel = [] ∨ ∃ g, (sel_epoch sel, g) ∈ l ∧ sel_group sel ≡ₚ g)); [by left|].
  intros _ [epoch g] sel Hin Hsel. unfold selectGroup.
  destruct (blen g <? quorum); [done|]. destruct (_ !! _) as [p|]; [|done]. cbv zeta.
  destruct (_ || _)%bool; [|done]. right. exists g. split; [done|]. cbn [sel_group]. apply merge_sort_Permutation.
Qed.

(** ** The store phase *)

(** Answers to a list of requests, in the order they were handled. *)
Definition answered (f : HTTPNode → Result StorageReceipt) (asked : list HTTPNode) : list StorageReceipt :=
  omap (λ n, to_option (f n)) asked.

Definition answering clk (item : StoredItem) (n : HTTPNode) : Result StorageReceipt :=
  Store (clk (AtAnswer (nodeID n))) n item.

Lemma recordStore_fields clk (st : Reputation * Delivery) n r :
  d_Item (recordStore clk st (n, r)).2 = d_Item st.2 ∧
  d_DeleteToken (recordStore clk st (n, r)).2 = d_DeleteToken st.2 ∧
  d_Receipts (recordStore clk st (n, r)).2 = d_Receipts st.2 ++ omap (λ r, to_option r) [r].
Proof. destruct st as [rep d], r; simpl; rewrite ?app_nil_r; done. Qed.

Lemma recordStores_spec clk (f : HTTPNode → Result StorageReceipt) (asked : list HTTPNode)
    (st : Reputation * Delivery) :
  let st' := foldl (recordStore clk) st ((λ n, (n, f n)) <$> asked) in
  d_Item st'.2 = d_Item st.2 ∧ d_DeleteToken st'.2 = d_DeleteToken st.2 ∧
  d_Receipts st'.2 = d_Receipts st.2 ++ answered f asked.
Proof.
  cbv zeta. revert st. induction asked as [|n asked IH]; intros st; [by rewrite app_nil_r|].
  cbn [fmap list_fmap foldl]. destruct (recordStore_fields clk st n (f n)) as (H1 & H2 & H3).
  destruct (IH (recordStore clk st (n, f n))) as (-> & -> & ->). split_and!; [done..|].
  rewrite H3. unfold answered. simpl. rewrite <- app_assoc. by destruct (f n).
Qed.

Lemma storeBackups_spec clk (wanted : Z) (item : StoredItem) (backups : list HTTPNode) (st : Reputation * Delivery) :
  let st' := storeBackups clk wanted item st backups in
  ∃ asked rest, backups = asked ++ rest ∧
    d_Item st'.2 = d_Item st.2 ∧ d_DeleteToken st'.2 = d_DeleteToken st.2 ∧
    d_Receipts st'.2 = d_Receipts st.2 ++ answered (answering clk item) asked ∧
    (blen (d_Receipts st.2) ≤ wanted → blen (d_Receipts st'.2) ≤ wanted) ∧
    (rest = [] ∨ wanted ≤ blen (d_Receipts st'.2)).
Proof.
  cbv zeta. revert st. induction backups as [|n backups IH]; intros st; cbn [storeBackups].
  { exists [], []. unfold answered. simpl. rewrite app_nil_r. split_and!; try done. by left. }
  destruct (wanted <=? _) eqn:Hw; unbool.
  { exists [], (n :: backups). unfold answered. simpl. rewrite app_nil_r. split_and!; try done. by right. }
  destruct (recordStore_fields clk st n (answering clk item n)) as (H1 & H2 & H3).
  destruct (IH (recordStore clk st (n, answering clk item n))) as (asked & rest & -> & I1 & I2 & I3 & I4 & I5).
  exists (n :: asked), rest. unfold answering in *. rewrite I1, I2. split_and!; [done..| | |done].
  - rewrite I3, H3. unfold answered. simpl. rewrite <- app_assoc. by destruct (Store _ n item).
  - intros _. apply I4. rewrite H3, blen_app. destruct (Store _ n item); unfold blen in *; simpl; lia.
Qed.

Lemma answered_le (f : HTTPNode → Result StorageReceipt) (asked : list HTTPNode) :
  blen (answered f asked) ≤ blen asked.
Proof.
  unfold answered, blen. induction asked as [|n asked IH]; [done|]. cbn [omap list_omap].
  destruct (to_option (f n)); cbn [length]; unfold omap in *; lia.
Qed.

Lemma Store_Ok (now : Time) (n : HTTPNode) (item : StoredItem) (r : StorageReceipt) :
  Store now n item = Ok r → verifyStorageReceipt (Identity n) item r now = None.
Proof.
  unfold Store. destruct (postJSON _ _) as [r'|]; [|done].
  destruct (verifyStorageReceipt _ _ r' now) eqn:Hv; [done|]. by intros <-%(inj Ok).
Qed.

Lemma verifyStorageReceipt_None (identity : NodePublicIdentity) (item : StoredItem) (r : StorageReceipt) (now : Time) :
  verifyStorageReceipt identity item r now = None ↔
  sr_NodeID r = ni_NodeID identity ∧ sr_ItemID r = si_ItemID item ∧
  sr_PayloadHash r = Sha256.Sum256 (si_Payload item) ∧ sr_ExpiresAt r = si_ExpiresAt item ∧
  si_CreatedAt item - 5 * Minute ≤ sr_StoredAt r ≤ now + 5 * Minute ∧ sr_StoredAt r ≤ sr_ExpiresAt r ∧
  Verify identity receiptDomain (ReceiptSigningBytes r) (sr_Signature r) = true.
Proof.
  unfold verifyStorageReceipt, bytes_equal, TEqual, Before, After, TAdd. split.
  - intros H. step_if H. unbool. split_and!; (done || lia).
  - intros (-> & -> & -> & -> & ? & ? & ->). rewrite !bool_decide_eq_true_2, Z.eqb_refl by done.
    rewrite !(proj2 (Z.ltb_ge _ _)) by lia. done.
Qed.

(** ** A whole write *)

(** A receipt that counts: of a configured node that was not excluded, verified
    against the node's pinned key for the delivered item when it arrived, from a
    node whose limits the item respects and whose work demand its postage meets. *)
Definition receipt_from clk c (item : StoredItem) (r : StorageReceipt) : Prop :=
  ∃ n p, n ∈ nodes c ∧ Allowed (reputation c) (nodeID n) (clk AtSelect) = true ∧ sr_NodeID r = nodeID n ∧
    verifyStorageReceipt (Identity n) item r (clk (AtAnswer (nodeID n))) = None ∧
    Parameters n = Ok p ∧ blen (si_Payload item) ≤ np_MaxItemBytes p ∧
    VerifyWork item (clk AtSolve) (np_EpochSeconds p) (np_Difficulty p) = None.

(** A delivery after its store phase, whatever the number of receipts. *)
Record attempted clk c (item : StoredItem) (token : bytes) (d : Delivery) : Prop := {
  at_valid : ValidateItem item (clk AtStart) DefaultMaxItemBytes = None;
  at_length : blen token = CapabilityBytes;
  at_hash : si_DeleteTokenHash item = DeleteTokenHash token;
  at_item : ∃ work, d_Item d = set_Work item work;
  at_token : d_DeleteToken d = token;
  at_distinct : NoDup (sr_NodeID <$> d_Receipts d);
  at_receipts : Forall (receipt_from clk c (d_Item d)) (d_Receipts d);
  at_most : blen (d_Receipts d) ≤ replicas c;
}.

Lemma answered_spec clk c (item : StoredItem) (asked : list HTTPNode) :
  NoDup (nodeID <$> asked) →
  (∀ n, n ∈ asked → n ∈ nodes c ∧ Allowed (reputation c) (nodeID n) (clk AtSelect) = true ∧
     ∃ p, Parameters n = Ok p ∧ blen (si_Payload item) ≤ np_MaxItemBytes p ∧
          VerifyWork item (clk AtSolve) (np_EpochSeconds p) (np_Difficulty p) = None) →
  NoDup (sr_NodeID <$> answered (answering clk item) asked) ∧
  Forall (receipt_from clk c item) (answered (answering clk item) asked).
Proof.
  intros Hnd Hn.
  assert (Hr : ∀ n r, to_option (answering clk item n) = Some r →
    sr_NodeID r = nodeID n ∧ verifyStorageReceipt (Identity n) item r (clk (AtAnswer (nodeID n))) = None).
  { intros n r. unfold answering. destruct (Store _ n item) as [r'|] eqn:Hs; [|done]. intros [= <-].
    apply Store_Ok in Hs as Hv. split; [|done]. by apply verifyStorageReceipt_None in Hv as [? _]. }
  split.
  - eapply sublist_NoDup; [exact Hnd|]. apply omap_keys. by intros n r _ [? _]%Hr.
  - apply List.Forall_forall. intros r (n & Hin & [Hid Hv]%Hr)%list_elem_of_In%list_elem_of_omap.
    destruct (Hn n Hin) as (? & ? & p & ? & ? & ?). exists n, p. split_and!; done.
Qed.

(** The nodes that a write considers usable, given what they answered. *)
Lemma usable_spec clk c (payload : Z) (rep rep' : Reputation) (d d' : Delivery) (groups : Groups) :
  core_ok c →
  foldl (collectParameters clk payload) (rep, d, ∅)
    (shuffle ((λ n, (n, Parameters n)) <$> allowedNodes (clk AtSelect) c)) = (rep', d', groups) →
  let sel := foldl (selectGroup (writeQuorum c)) noSelection (shuffle (map_to_list groups)) in
  let usable := np_node <$> filter (λ p, np_Difficulty (np_parameters p) ≤ sel_threshold sel) (sel_group sel) in
  NoDup (nodeID <$> usable) ∧
  ∀ n, n ∈ usable → n ∈ nodes c ∧ Allowed (reputation c) (nodeID n) (clk AtSelect) = true ∧
    ∃ p, Parameters n = Ok p ∧ payload ≤ np_MaxItemBytes p ∧ np_EpochSeconds p = sel_epoch sel ∧
         np_Difficulty p ≤ sel_threshold sel.
Proof.
  intros Hok Hc. cbv zeta. set (l := (λ n, (n, Parameters n)) <$> allowedNodes (clk AtSelect) c) in *.
  pose proof (collectParameters_spec clk payload rep d (shuffle l)) as Hspec. rewrite Hc in Hspec.
  destruct Hspec as (_ & _ & _ & Hg). pose proof (selectGroups_spec (writeQuorum c) (shuffle (map_to_list groups))) as Hsel.
  cbv zeta in Hsel. set (sel := foldl _ noSelection _) in *.
  assert (Hids : NoDup (nodeID <$> (shuffle l).*1)).
  { rewrite (shuffle_perm l). unfold l. rewrite fst_tagged. by apply allowedNodes_ids. }
  destruct Hsel as [->|(g & Hin & Hperm)]; [split; [constructor|set_solver]|].
  rewrite (shuffle_perm (map_to_list groups)) in Hin. apply elem_of_map_to_list in Hin. apply Hg in Hin as [Hs Hm]. split.
  - eapply (sublist_NoDup _ (nodeID <$> (np_node <$> sel_group sel))); [|apply fmap_sublist, fmap_sublist, sublist_filter].
    rewrite Hperm. eapply sublist_NoDup; [exact Hids|]. by apply fmap_sublist.
  - intros n (p & -> & [Hd Hp]%list_elem_of_filter)%list_elem_of_fmap. rewrite Hperm in Hp.
    apply Hm in Hp as (Hl & He & Hx). rewrite (shuffle_perm l) in Hl.
    apply list_elem_of_fmap in Hl as (n & Hn & Ha). apply allowedNodes_elem in Ha as [? ?].
    injection Hn as -> Hn. split_and!; [done..|]. exists (np_parameters p). split_and!; (done || lia).
Qed.

(** What the store phase leaves of a delivery. *)
Lemma storePhase_spec clk c (item : StoredItem) (usable : list HTTPNode) (rep : Reputation) (d : Delivery) :
  d_Receipts d = [] → 0 ≤ replicas c →
  let primaryCount := Z.to_nat (Z.min (replicas c) (blen usable)) in
  let st := foldl (recordStore clk) (rep, d)
    (shuffle ((λ n, (n, answering clk item n)) <$> take primaryCount usable)) in
  let st' := storeBackups clk (replicas c) item st (drop primaryCount usable) in
  ∃ asked rest, asked ++ rest ≡ₚ usable ∧ d_Item st'.2 = d_Item d ∧ d_DeleteToken st'.2 = d_DeleteToken d ∧
    d_Receipts st'.2 = answered (answering clk item) asked ∧ blen (d_Receipts st'.2) ≤ replicas c ∧
    (rest = [] ∨ replicas c ≤ blen (d_Receipts st'.2)).
Proof.
  intros Hempty Hrep. cbv zeta. set (k := Z.to_nat _).
  destruct (Permutation_map_inv (λ n, (n, answering clk item n)) (take k usable)
    (shuffle_perm _)) as (prim & Hl & Hp).
  change (shuffle ((λ n, (n, answering clk item n)) <$> take k usable) =
          (λ n, (n, answering clk item n)) <$> prim) in Hl. rewrite Hl.
  destruct (recordStores_spec clk (answering clk item) prim (rep, d)) as (P1 & P2 & P3).
  destruct (storeBackups_spec clk (replicas c) item (drop k usable)
    (foldl (recordStore clk) (rep, d) ((λ n, (n, answering clk item n)) <$> prim)))
    as (asked & rest & Hsplit & B1 & B2 & B3 & B4 & B5).
  exists (prim ++ asked), rest. rewrite B1, B2, P1, P2. rewrite P3 in B3, B4. cbn [snd] in *. rewrite Hempty in *.
  split_and!; [| done | done | | | done].
  - rewrite <- app_assoc, <- Hsplit, <- Hp, take_drop. done.
  - rewrite B3. unfold answered. simpl. by rewrite omap_app.
  - apply B4. simpl. etrans; [apply answered_le|]. unfold blen. rewrite <- Hp, length_take. unfold k, blen. lia.
Qed.

Inductive write_result clk (e : E) c (item : StoredItem) (token : bytes)
  : Core St → Delivery → option error → Prop :=
| write_refused rep err : write_result clk e c item token (set_reputation c rep) noDelivery (Some err)
| write_none rep d : attempted clk c item token d → d_Receipts d = [] →
    write_result clk e c item token (set_reputation c rep) d (Some (quorumError 0 (writeQuorum c)))
| write_partial rep d c' perr : attempted clk c item token d → 0 < blen (d_Receipts d) < writeQuorum c →
    persistDelivery e (set_reputation c rep) d (clk AtPersist) = (c', perr) →
    write_result clk e c item token c' d
      (Some match perr with
            | Some p => (quorumError (blen (d_Receipts d)) (writeQuorum c) +:+
                         String (Ascii.ascii_of_nat 10) EmptyString +:+ p)%string
            | None => quorumError (blen (d_Receipts d)) (writeQuorum c)
            end)
| write_done rep d c' perr : attempted clk c item token d → writeQuorum c ≤ blen (d_Receipts d) →
    persistDelivery e (set_reputation c rep) d (clk AtPersist) = (c', perr) →
    write_result clk e c item token c' d ((λ p, ("persist delivery state: " +:+ p)%string) <$> perr).

Lemma set_reputation_id c : set_reputation c (reputation c) = c.
Proof. by destruct c. Qed.

Lemma StoreReplicated_result clk (fuel : nat) (poll : Z → option error) (e : E) c (item : StoredItem)
    (token : bytes) c' (d : Delivery) (err : option error) :
  core_ok c → StoreReplicated clk fuel poll e c item token = Some (c', d, err) →
  write_result clk e c item token c' d err.
Proof.
  intros Hok. unfold StoreReplicated. intros H.
  assert (Hre : ∀ err, write_result clk e c item token c noDelivery (Some err)).
  { intros err'. rewrite <- (set_reputation_id c) at 2. constructor. }
  destruct (ValidateItem item _ _) eqn:Hvalid; [simplify_eq; apply Hre|].
  destruct (negb (blen token =? CapabilityBytes) || _)%bool eqn:Htok; [simplify_eq; apply Hre|].
  cbv zeta in H. destruct (blen (allowedNodes _ c) <? _); [simplify_eq; apply Hre|].
  match type of H with context [foldl (collectParameters ?k ?b) ?st ?l] =>
    destruct (foldl (collectParameters k b) st l) as [[rep d0] groups] eqn:Hcol end.
  destruct (collect_fields _ _ _ _ _ _ _ _ Hcol) as (Hd0 & Ht0 & Hr0).
  destruct (usable_spec clk c _ _ _ _ _ _ Hok Hcol) as [Hnd Husable].
  cbn [writeQuorum set_reputation replicas reputation] in H.
  set (sel := foldl (selectGroup _) _ _) in *. set (usable := np_node <$> _) in *.
  destruct (blen (sel_group sel) <? _); [simplify_eq; constructor|].
  destruct (SolveWork _ _ _ _ _ _) as [[work|serr]|] eqn:Hsolve; [|simplify_eq; constructor|done].
  destruct (storePhase_spec clk c (set_Work item work) usable rep (set_item d0 (set_Work item work)))
    as (asked & rest & Hperm & I1 & I2 & I3 & I4 & _); [done|pose proof (ck_quorum _ Hok); lia|].
  change (λ n, (n, Store (clk (AtAnswer (nodeID n))) n (set_Work item work)))
    with (λ n, (n, answering clk (set_Work item work) n)) in H.
  destruct (storeBackups _ _ _ _ _) as [rep' d1]. cbn [snd] in *.
  assert (Hasked : ∀ n, n ∈ asked → n ∈ usable) by (intros n Hn; rewrite <- Hperm; apply elem_of_app; by left).
  destruct (answered_spec clk c (set_Work item work) asked) as [Hnd' Hall].
  { rewrite <- Hperm, fmap_app in Hnd. by apply list.NoDup_app in Hnd as [? _]. }
  { intros n Hn. destruct (Husable n (Hasked n Hn)) as (? & ? & p & ? & ? & Hep & Hdiff). split_and!; [done..|].
    exists p. split_and!; [done..|]. rewrite Hep. eapply SolveWork_verifies; [exact Hsolve|lia|done]. }
  assert (Hatt : attempted clk c item token d1).
  { unfold bytes_equal in *. unbool. constructor; [done..|by exists work|by rewrite I2|by rewrite I3|by rewrite I1, I3|done]. }
  destruct (blen (d_Receipts d1) <? writeQuorum c) eqn:Hq; unbool.
  - destruct (0 <? _) eqn:Hpos; unbool.
    + destruct (persistDelivery _ _ _ _) as [c1 perr] eqn:Hper. simplify_eq. by apply (write_partial clk e c item token rep').
    + simplify_eq. assert (d_Receipts d = []) as Hnil by (destruct (d_Receipts d); [done|unfold blen in Hpos; simpl in Hpos; lia]).
      rewrite Hnil. by apply (write_none clk e c item token rep').
  - destruct (persistDelivery _ _ _ _) as [c1 perr] eqn:Hper. simplify_eq. by apply (write_done clk e c item token rep').
Qed.

(** A write changes the reputation and the local store only. *)
Lemma write_core clk (e : E) c (item : StoredItem) (token : bytes) c' (d : Delivery) (err : option error) :
  core_ok c → write_result clk e c item token c' d err → core_ok c' ∧ writeQuorum c' = writeQuorum c.
Proof.
  assert (Hper : ∀ rep d c' perr, core_ok c → persistDelivery e (set_reputation c rep) d (clk AtPersist) = (c', perr) →
    core_ok c' ∧ writeQuorum c' = writeQuorum c).
  { clear. intros rep d c' perr Hok H. unfold persistDelivery in H.
    destruct (store _) as [s|]; [|injection H as <- _; destruct Hok; split; [by constructor|done]].
    destruct (Marshal d) as [b|]; [|injection H as <- _; destruct Hok; split; [by constructor|done]].
    destruct (ls_Put _ _ _ _) as [[s' ?] ?]. injection H as <- _. destruct Hok; split; [by constructor|done]. }
  intros Hok H. destruct H; [destruct Hok; split; [by constructor|done]..|by eapply Hper|by eapply Hper].
Qed.

(** C1. A write that reports success is replicated: the delivery carries the caller's
    item with postage and the caller's delete token, and between [writeQuorum] and
    [replicas] receipts of pairwise different nodes, every one of them a verified
    receipt of a configured, not excluded node whose size limit and work demand the
    item meets. No answer of any node, in any order, makes a weaker success. *)
Theorem StoreReplicated_quorum clk (fuel : nat) (poll : Z → option error) (e : E) c (item : StoredItem)
    (token : bytes) c' (d : Delivery) :
  core_ok c → StoreReplicated clk fuel poll e c item token = Some (c', d, None) →
  (∃ work, d_Item d = set_Work item work) ∧ d_DeleteToken d = token ∧
  writeQuorum c ≤ blen (d_Receipts d) ≤ replicas c ∧
  NoDup (sr_NodeID <$> d_Receipts d) ∧ Forall (receipt_from clk c (d_Item d)) (d_Receipts d).
Proof.
  intros Hok H%StoreReplicated_result; [|done].
  inversion H as [| | |rep d' c1 perr Hatt Hq Hper]; subst. by destruct Hatt.
Qed.

(** ** Persisted deliveries *)

(** Text that JSON carries unchanged. *)
Definition ascii_text (s : string) : bool :=
  forallb (λ b, (32 <=? b2z b) && (b2z b <? 127))%bool (str_bytes s).
Definition json_text (d : Delivery) : Prop :=
  ascii_text (si_ItemID (d_Item d)) = true ∧ ascii_text (si_RouteTag (d_Item d)) = true ∧
  Forall (λ r, ascii_text (sr_NodeID r) = true ∧ ascii_text (sr_ItemID r) = true) (d_Receipts d) ∧
  map_Forall (λ k v, ascii_text k = true ∧ ascii_text v = true) (d_FailedNodes d).

(** [encoding/json] on deliveries: what is written is read back. *)
Definition delivery_codec : Prop :=
  ∀ (d : Delivery) (b : bytes), json_text d → Marshal d = Ok b → decodeStrict b = Ok d.

Lemma ValidateItem_later (item : StoredItem) (work : WorkProof) (now later : Time) :
  ValidateItem item now DefaultMaxItemBytes = None → now ≤ later → later < si_ExpiresAt item →
  ValidateItem (set_Work item work) later DefaultMaxItemBytes = None.
Proof. rewrite !ValidateItem_None. intros [] Hle Hlt. constructor; try done. simpl. lia. Qed.

Lemma checkReceipts_None c (d : Delivery) (now : Time) (seen : gset string) (l : list StorageReceipt) :
  core_ok c → NoDup (sr_NodeID <$> l) → (∀ r, r ∈ l → sr_NodeID r ∉ seen) →
  (∀ r, r ∈ l → ∃ n, n ∈ nodes c ∧ sr_NodeID r = nodeID n ∧ verifyStorageReceipt (Identity n) (d_Item d) r now = None) →
  checkReceipts c d now seen l = None.
Proof.
  intros Hok. revert seen. induction l as [|r l IH]; intros seen Hnd Hseen Hv; [done|]. cbn [checkReceipts].
  destruct (Hv r) as (n & Hn & Hid & Hr); [by left|]. rewrite Hid, nodeByID_nodes, <- Hid by done.
  rewrite bool_decide_eq_false_2 by (apply Hseen; by left). rewrite Hr.
  apply list.NoDup_cons in Hnd as [Hnew Hnd]. apply IH; [done| |intros; apply Hv; by right].
  intros r' Hr'. rewrite not_elem_of_union, not_elem_of_singleton. split; [|apply Hseen; by right].
  intros Heq. apply Hnew. rewrite <- Heq. by apply list_elem_of_fmap_2.
Qed.

Lemma receipts_later clk c (d : Delivery) (later : Time) :
  core_ok c → (∀ i, clk i ≤ later) → Forall (receipt_from clk c (d_Item d)) (d_Receipts d) →
  NoDup (sr_NodeID <$> d_Receipts d) → checkReceipts c d later ∅ (d_Receipts d) = None.
Proof.
  intros Hok Hclk Hall Hnd. apply checkReceipts_None; [done..|set_solver|].
  intros r Hr. rewrite List.Forall_forall in Hall.
  destruct (Hall r) as (n & p & Hn & _ & Hid & Hv & _); [by apply list_elem_of_In|].
  exists n. split_and!; [done..|]. rewrite verifyStorageReceipt_None in *. pose proof (Hclk (AtAnswer (nodeID n))).
  destruct Hv as (? & ? & ? & ? & ? & ? & ?). split_and!; (done || lia).
Qed.

Lemma nodeByID_frame c (r : Reputation) (s : option St) (d : Delivery) (now : Time) (seen : gset string) l :
  checkReceipts (set_store (set_reputation c r) s) d now seen l = checkReceipts c d now seen l.
Proof. revert seen. induction l as [|x l IH]; intros seen; [done|]. simpl. by rewrite IH. Qed.

Lemma ComputeItemID_slen (item : StoredItem) : slen (ComputeItemID item) = Sha256.Size * 2.
Proof.
  unfold ComputeItemID, slen. rewrite Hex_encode_length, Nat2Z.inj_mul.
  fold (blen (Sha256.Sum256 (ItemCommitment item))). by rewrite Sha256.Sum256_blen.
Qed.

(** What [LoadDelivery] makes of a delivery after [persistDelivery] put it. *)
Lemma LoadDelivery_persisted `{!LocalStoreLaws E St} clk c (rep : Reputation) (item : StoredItem) (token : bytes)
    (d : Delivery) (s : St) (e e' : E) c' (later : Time) :
  core_ok c → store c = Some s → ls_ok s → delivery_codec → json_text d → attempted clk c item token d →
  persistDelivery e (set_reputation c rep) d (clk AtPersist) = (c', None) →
  (∀ i, clk i ≤ later) → later < si_ExpiresAt item → later ≠ 0 → ls_reads e' later →
  LoadDelivery e' c' (si_ItemID item) later =
    (if bool_decide (ms_aligned (si_CreatedAt item)) then Ok d else Err "invalid persisted delivery state").
Proof.
  intros Hok Hs Hls Hcodec Htext [Hvalid Hlen Hhash [work Hitem] Htoken Hnd Hall _] Hper Hclk Hexp Hzero Hreads.
  unfold persistDelivery in Hper. cbn [store set_reputation] in Hper. rewrite Hs in Hper.
  destruct (Marshal d) as [b|] eqn:Hm; [|done].
  destruct (ls_Put e s _ _) as [[s' prep] err] eqn:Hput. simplify_eq.
  pose proof (ls_put_get _ e' _ _ _ _ _ later Hls Hput Hreads (Hclk AtPersist)) as Hget.
  cbn [deliveryRecord ClientStore.lr_ID] in Hget. rewrite Hitem in Hget. cbn [set_Work si_ItemID] in Hget.
  pose proof Hvalid as Hv'. apply ValidateItem_None in Hv'.
  unfold LoadDelivery. cbn [set_store store].
  rewrite (iv_id _ _ _ Hv') at 1. rewrite ComputeItemID_slen, Z.eqb_refl.
  unfold IsZero. rewrite (proj2 (Z.eqb_neq later 0)) by done. cbn [negb orb]. rewrite Hget.
  cbn [ClientStore.normalizeLocalRecord deliveryRecord ClientStore.lr_Version ClientStore.lr_ID ClientStore.lr_Kind
       ClientStore.lr_PrunePolicy ClientStore.lr_Payload ClientStore.lr_CreatedAt ClientStore.lr_ExpiresAt].
  rewrite Hitem. cbn [set_Work si_ItemID si_CreatedAt si_ExpiresAt].
  rewrite !bool_decide_eq_true_2 by done. cbn [negb orb Z.eqb ClientStore.ClientStoreVersion Pos.eqb].
  rewrite (Hcodec d b Htext Hm), Hitem. cbn [set_Work si_ItemID si_CreatedAt si_ExpiresAt si_DeleteTokenHash].
  rewrite (ValidateItem_later item work (clk AtStart)) by (done || apply Hclk).
  rewrite !(bool_decide_eq_true_2 (_ = _)) by done. cbn [negb orb].
  unfold bytes_equal. rewrite Hlen, Hhash, Z.eqb_refl, bool_decide_eq_true_2 by done. cbn [negb orb].
  rewrite (iv_retention _ _ _ Hv'). unfold TEqual. case_bool_decide as Hms.
  - assert (Hms' : ms_aligned (si_CreatedAt item + FixedItemRetention)).
    { unfold ms_aligned in *. rewrite Z.add_mod, Hms by done. done. }
    rewrite (proj2 (Truncate_id _) Hms), (proj2 (Truncate_id _) Hms'), Z.eqb_refl.
    match goal with |- context [if ?b then ?x else ?x] => replace (if b then x else x) with x by (by destruct b) end.
    rewrite Z.eqb_refl. cbn [negb orb].
    rewrite nodeByID_frame. by rewrite (receipts_later clk c d later).
  - rewrite (proj2 (Z.eqb_neq _ _)) by (by rewrite Truncate_id). done.
Qed.

(** C30. Delivery state survives a restart: when a write reports success, or reports that
    the quorum was missed while some node did sign a receipt, [LoadDelivery] at any
    later time before the item expires gives back exactly the delivery, with the
    receipts and the capability to delete them. It takes an item created at a whole
    millisecond, as [SendDirect] and [StoreOpaque] make them; for any other item the
    state is on disk and [LoadDelivery] refuses it. *)
Theorem delivery_kept `{!LocalStoreLaws E St} clk (fuel : nat) (poll : Z → option error) (e e' : E) c
    (item : StoredItem) (token : bytes) c' (d : Delivery) (err : option error) (s : St) (later : Time) :
  core_ok c → store c = Some s → ls_ok s → delivery_codec → json_text d →
  StoreReplicated clk fuel poll e c item token = Some (c', d, err) →
  err = None ∨ 0 < blen (d_Receipts d) ∧ err = Some (quorumError (blen (d_Receipts d)) (writeQuorum c)) →
  (∀ i, clk i ≤ later) → later < si_ExpiresAt item → later ≠ 0 → ls_reads e' later →
  LoadDelivery e' c' (si_ItemID item) later =
    (if bool_decide (ms_aligned (si_CreatedAt item)) then Ok d else Err "invalid persisted delivery state").
Proof.
  intros Hok Hs Hls Hcodec Htext H%StoreReplicated_result Herr Hclk Hexp Hzero Hreads; [|done].
  inversion H as [|rep d' Hatt Hnil|rep d' c1 perr Hatt Hq Hper|rep d' c1 perr Hatt Hq Hper]; subst.
  - destruct Herr as [?|[? _]]; [done|]. unfold blen in *. simpl in *. lia.
  - destruct Herr as [?|[? _]]; [done|]. rewrite Hnil in *. unfold blen in *. simpl in *. lia.
  - destruct Herr as [?|[_ [= He]]]; [done|]. destruct perr as [p|].
    + exfalso. apply (f_equal slen) in He. rewrite !slen_app in He. unfold slen in He. simpl in He. lia.
    + by eapply LoadDelivery_persisted.
  - destruct perr as [p|]; [destruct Herr as [?|[_ He]]; [done|]|by eapply LoadDelivery_persisted].
    exfalso. injection He as He. unfold quorumError in He. simpl in He. done.
Qed.

(** ** Fetching *)

Lemma checkTags_Ok (seen : gset string) (tags : list string) (requested : gset string) :
  checkTags seen tags = Ok requested → ∀ t, t ∈ requested ↔ t ∈ seen ∨ t ∈ tags.
Proof.
  revert seen. induction tags as [|t tags IH]; intros seen H; cbn [checkTags] in H.
  { apply (inj Ok) in H as <-. set_solver. }
  repeat step_if H. intros u. rewrite (IH _ H u). set_solver.
Qed.

(** An item that a node offered at position [i] of its answer and that passes the
    checks. *)
Definition offered clk (routeTags : list string) (n : HTTPNode) (i : nat) (it : StoredItem) : Prop :=
  ∃ items, ClientNode.Fetch n routeTags = Ok items ∧ items !! i = Some it ∧ si_RouteTag it ∈ routeTags ∧
    ValidateItem it (clk (AtItem (nodeID n) i)) DefaultMaxItemBytes = None.

Definition payload_size (_ : string) (it : StoredItem) : Z := blen (si_Payload it).

(** The collected items: from nodes asked, under their identifiers, within the limits. *)
Record collected clk (routeTags : list string) (asked : list HTTPNode) (seen : gmap string StoredItem) (total : Z) : Prop := {
  co_from id it : seen !! id = Some it → si_ItemID it = id ∧ ∃ n i, n ∈ asked ∧ offered clk routeTags n i it;
  co_total : total = map_sum payload_size seen;
  co_bytes : total ≤ DefaultMaxFetchBytes;
  co_items : Z.of_nat (size seen) ≤ DefaultMaxFetchItems;
}.

Lemma collected_insert clk routeTags asked seen total n i it :
  collected clk routeTags asked seen total → n ∈ asked → offered clk routeTags n i it →
  seen !! si_ItemID it = None → Z.of_nat (size seen) < DefaultMaxFetchItems →
  total + blen (si_Payload it) ≤ DefaultMaxFetchBytes →
  collected clk routeTags asked (<[si_ItemID it := it]> seen) (total + blen (si_Payload it)).
Proof.
  intros [Hfrom -> _ _] Hn Hoff Hnew Hsize Hbytes. constructor; [|rewrite map_sum_insert by done; unfold payload_size; lia|done|].
  - intros id it'. destruct (decide (id = si_ItemID it)) as [->|]; [|rewrite lookup_insert_ne by done; apply Hfrom].
    rewrite lookup_insert_eq. intros [= <-]. eauto.
  - rewrite map_size_insert_None by done. lia.
Qed.

Lemma mergeItems_spec clk (routeTags : list string) (requested : gset string) (n : HTTPNode) (asked : list HTTPNode)
    (all items : list StoredItem) (i : nat) seen total valid seen' total' valid' :
  (∀ t, t ∈ requested ↔ t ∈ routeTags) → n ∈ asked → ClientNode.Fetch n routeTags = Ok all →
  (∀ k, items !! k = all !! (i + k)%nat) → collected clk routeTags asked seen total →
  mergeItems clk (nodeID n) requested i items seen total valid = Ok (seen', total', valid') →
  collected clk routeTags asked seen' total' ∧ seen ⊆ seen' ∧
  (∀ k it, offered clk routeTags n (i + k) it → is_Some (seen' !! si_ItemID it)) ∧
  (valid' = true → valid = true ∧ ∀ k it, items !! k = Some it → offered clk routeTags n (i + k) it).
Proof.
  intros Hreq Hn Hf. revert i seen total valid. induction items as [|it items IH]; intros i seen total valid Hall Hc H.
  { apply (inj Ok) in H. simplify_eq. split_and!; [done..| |done].
    intros k it (l & Hl & Hlk & _). rewrite Hf in Hl. apply (inj Ok) in Hl as <-. by rewrite <- Hall in Hlk. }
  assert (Hi : all !! i = Some it) by (rewrite <- (Nat.add_0_r i); by rewrite <- Hall).
  assert (Hnext : ∀ k, items !! k = all !! (i + 1 + k)%nat) by (intros k; rewrite <- Nat.add_assoc; apply (Hall (S k))).
  (* the later items, then this one *)
  assert (Hstep : ∀ seen1 total1 valid1, collected clk routeTags asked seen1 total1 → seen ⊆ seen1 →
    (offered clk routeTags n i it → is_Some (seen1 !! si_ItemID it)) →
    (valid1 = true → valid = true ∧ offered clk routeTags n i it) →
    mergeItems clk (nodeID n) requested (i + 1) items seen1 total1 valid1 = Ok (seen', total', valid') →
    collected clk routeTags asked seen' total' ∧ seen ⊆ seen' ∧
    (∀ k it, offered clk routeTags n (i + k) it → is_Some (seen' !! si_ItemID it)) ∧
    (valid' = true → valid = true ∧ ∀ k it', (it :: items) !! k = Some it' → offered clk routeTags n (i + k) it')).
  { intros seen1 total1 valid1 Hc1 Hsub Hit Hv1 Hm. destruct (IH _ _ _ _ Hnext Hc1 Hm) as (I1 & I2 & I3 & I4).
    split_and!; [done|by etrans| |].
    - intros [|k] it' Hoff.
      + rewrite Nat.add_0_r in Hoff. destruct (Hoff) as (l & Hl & Hlk & _). rewrite Hf in Hl.
        apply (inj Ok) in Hl as <-. rewrite Hi in Hlk. injection Hlk as <-.
        destruct (Hit Hoff) as [x Hx]. exists x. by eapply lookup_weaken.
      + apply (I3 k). by replace (i + 1 + k)%nat with (i + S k)%nat by lia.
    - intros [Hv Hk]%I4. destruct (Hv1 Hv) as [? Hoff]. split; [done|]. intros [|k] it' Hlk.
      + injection Hlk as <-. by rewrite Nat.add_0_r.
      + replace (i + S k)%nat with (i + 1 + k)%nat by lia. by apply Hk. }
  cbn [mergeItems] in H.
  destruct (negb (bool_decide (si_RouteTag it ∈ requested)) || _)%bool eqn:Hbad.
  { apply (Hstep seen total false); [done..| |done|done]. intros (l & _ & _ & Ht & Hv). exfalso.
    by rewrite !bool_decide_eq_true_2 in Hbad by (done || by apply Hreq). }
  unbool. assert (Hoff : offered clk routeTags n i it) by (exists all; split_and!; [done..|by apply Hreq|done]).
  destruct (seen !! si_ItemID it) as [old|] eqn:Hold.
  { apply (Hstep seen total valid); [done..|by rewrite Hold|done|done]. }
  repeat step_if H. unbool. eapply (Hstep _ _ valid); [by eapply (collected_insert _ _ _ _ total n i)|by apply insert_subseteq|..|exact H].
  - rewrite lookup_insert_eq. by eexists.
  - done.
Qed.

(** What the fetch loop has established after asking [asked]. *)
Record fetched clk (routeTags : list string) (asked : list HTTPNode) (st : FetchState) : Prop := {
  fe_collected : collected clk routeTags asked (fs_seen st) (fs_total st);
  fe_complete n i it : n ∈ asked → offered clk routeTags n i it → is_Some (fs_seen st !! si_ItemID it);
  fe_last : fs_last st = None → fs_success st = true ∨ asked = [];
  fe_success n items : n ∈ asked → ClientNode.Fetch n routeTags = Ok items →
    (∀ i it, items !! i = Some it → offered clk routeTags n i it) → fs_success st = true;
}.

Lemma collected_mono clk routeTags asked n seen total :
  collected clk routeTags asked seen total → collected clk routeTags (asked ++ [n]) seen total.
Proof.
  intros [Hf ? ? ?]. constructor; try done. intros id it (? & m & i & ? & ?)%Hf. split; [done|].
  exists m, i. split; [|done]. apply elem_of_app. by left.
Qed.

Lemma offered_fun clk routeTags n i it items :
  offered clk routeTags n i it → ClientNode.Fetch n routeTags = Ok items → items !! i = Some it.
Proof. intros (l & Hl & Hi & _) H. rewrite Hl in H. by apply (inj Ok) in H as <-. Qed.

Lemma mergeItems_valid clk (routeTags : list string) (requested : gset string) (n : HTTPNode)
    (all items : list StoredItem) (i : nat) seen total seen' total' valid' :
  (∀ t, t ∈ requested ↔ t ∈ routeTags) → (∀ k it, items !! k = Some it → offered clk routeTags n (i + k) it) →
  mergeItems clk (nodeID n) requested i items seen total true = Ok (seen', total', valid') → valid' = true.
Proof.
  intros Hreq. revert i seen total. induction items as [|it items IH]; intros i seen total Hoff H; cbn [mergeItems] in H.
  { apply (inj Ok) in H. by simplify_eq. }
  destruct (Hoff 0%nat it eq_refl) as (l & _ & _ & Ht & Hv). rewrite Nat.add_0_r in Hv.
  rewrite !bool_decide_eq_true_2 in H by (done || by apply Hreq). cbn [negb orb] in H.
  assert (Hk : ∀ k it, items !! k = Some it → offered clk routeTags n (i + 1 + k) it).
  { intros k it' Hk. rewrite <- Nat.add_assoc. by apply (Hoff (S k)). }
  destruct (seen !! _); [by apply IH in H|]. repeat step_if H. by apply IH in H.
Qed.

Lemma fetchNode_spec clk (routeTags : list string) (requested : gset string) (asked : list HTTPNode) (n : HTTPNode)
    (st st' : FetchState) :
  (∀ t, t ∈ requested ↔ t ∈ routeTags) → fetched clk routeTags asked st →
  fetchNode clk requested routeTags st n = Ok st' → fetched clk routeTags (asked ++ [n]) st'.
Proof.
  intros Hreq [Hcol Hcomp Hlast Hsucc]. unfold fetchNode. destruct (ClientNode.Fetch n routeTags) as [items|err] eqn:Hf.
  2: { intros <-%(inj Ok). constructor; cbn [fs_seen fs_total fs_last fs_success].
       - by apply collected_mono.
       - intros m i it [Hm| ->%list_elem_of_singleton]%elem_of_app Hoff; [by eapply Hcomp|].
         destruct Hoff as (l & Hl & _). congruence.
       - done.
       - intros m items [Hm| ->%list_elem_of_singleton]%elem_of_app Hm'; [by apply Hsucc|congruence]. }
  assert (Hsmall : blen items ≤ DefaultMaxFetchItems).
  { unfold ClientNode.Fetch in Hf. destruct (postJSON _ _) as [resp|]; [|done]. step_if Hf. unbool.
    by apply (inj Ok) in Hf as <-. }
  rewrite (proj2 (Z.ltb_ge _ _)) by done.
  destruct (mergeItems _ _ _ _ _ _ _ _) as [[[seen total] valid]|] eqn:Hm; [|done].
  destruct (mergeItems_spec clk routeTags requested n (asked ++ [n]) items items 0 _ _ _ _ _ _ Hreq
    ltac:(apply elem_of_app; right; by left) Hf ltac:(done) (collected_mono _ _ _ n _ _ Hcol) Hm) as (M1 & M2 & M3 & M4).
  assert (Hcomp' : ∀ m i it, m ∈ asked ++ [n] → offered clk routeTags m i it → is_Some (seen !! si_ItemID it)).
  { intros m i it [Hin| ->%list_elem_of_singleton]%elem_of_app Hoff; [|by apply (M3 i)].
    destruct (Hcomp m i it Hin Hoff) as [x Hx]. exists x. by eapply lookup_weaken. }
  destruct valid; intros <-%(inj Ok); constructor; cbn [fs_seen fs_total fs_last fs_success]; try done.
  - by left.
  - intros m items' [Hin| ->%list_elem_of_singleton]%elem_of_app Hm' Hoff; [by eapply Hsucc|].
    rewrite Hf in Hm'. apply (inj Ok) in Hm' as <-.
    by apply (mergeItems_valid _ routeTags _ _ items) in Hm.
Qed.

Lemma fetchNodes_spec clk (routeTags : list string) (requested : gset string) (asked l : list HTTPNode)
    (st st' : FetchState) :
  (∀ t, t ∈ requested ↔ t ∈ routeTags) → fetched clk routeTags asked st →
  fetchNodes clk requested routeTags st l = (st', None) → fetched clk routeTags (asked ++ l) st'.
Proof.
  intros Hreq. revert asked st. induction l as [|n l IH]; intros asked st Hst; cbn [fetchNodes].
  { intros [= <-]. by rewrite app_nil_r. }
  destruct (fetchNode _ _ _ _ _) as [st1|] eqn:Hn; [|done]. intros H.
  replace (asked ++ n :: l) with ((asked ++ [n]) ++ l) by (by rewrite <- app_assoc).
  eapply IH; [|exact H]. by eapply fetchNode_spec.
Qed.

#[local] Instance older_total : Total older.
Proof. intros x y. unfold older, Before. rewrite !Z.ltb_ge. lia. Qed.

Lemma mergeItems_Err clk id requested i items seen total valid e :
  mergeItems clk id requested i items seen total valid = Err e →
  e = "combined fetch result exceeds item limit"%string ∨ e = "combined fetch result exceeds size limit"%string.
Proof.
  revert i seen total valid. induction items as [|it items IH]; intros i seen total valid H; cbn [mergeItems] in H; [done|].
  step_if H; [by apply IH in H|]. destruct (seen !! _); [by apply IH in H|].
  step_if H; [injection H as <-; by left|]. step_if H; [injection H as <-; by right|by apply IH in H].
Qed.

Lemma Fetch_run clk c (routeTags : list string) c' (res : Result (list StoredItem)) :
  Fetch clk c routeTags = (c', res) →
  (∃ e, res = Err e ∧ (checkTags ∅ routeTags = Err e ∨ e = "route tag count out of range"%string ∨
     e = "combined fetch result exceeds item limit"%string ∨ e = "combined fetch result exceeds size limit"%string)) ∨
  ∃ st, fetched clk routeTags (allowedNodes (clk AtSelect) c) st ∧
    match res with
    | Ok l => l = merge_sort older ((range_map (fs_seen st)).*2) ∧ (fs_success st = true ∨ fs_last st = None)
    | Err e => fs_success st = false ∧ fs_last st = Some e
    end.
Proof.
  unfold Fetch. intros H. step_if H; [simplify_eq; left; eexists; split; [done|]; by right; left|].
  destruct (checkTags ∅ routeTags) as [requested|e] eqn:Ht; [|simplify_eq; left; eexists; split; [done|]; by left].
  pose proof (checkTags_Ok _ _ _ Ht) as Hreq. destruct (fetchNodes _ _ _ _ _) as [st [e|]] eqn:Hf.
  - simplify_eq. left. exists e. split; [done|]. right; right.
    revert Hf. generalize (allowedNodes (clk AtSelect) c) as ns. intros ns.
    generalize {| fs_seen := ∅; fs_total := 0; fs_rep := reputation c; fs_last := None; fs_success := false |} as st0.
    induction ns as [|n ns IH]; intros st0; cbn [fetchNodes]; [done|].
    destruct (fetchNode _ _ _ st0 n) as [st1|e'] eqn:Hn; [apply IH|]. intros [= _ <-]. revert Hn. unfold fetchNode.
    destruct (ClientNode.Fetch n routeTags) as [items|]; [|done]. destruct (_ <? blen items); [done|].
    destruct (mergeItems _ _ _ _ _ _ _ _) as [[[seen total] []]|e''] eqn:Hm; [done..|]. intros [= <-].
    by apply mergeItems_Err in Hm.
  - right. exists st. split.
    + apply (fetchNodes_spec clk routeTags requested [] (allowedNodes (clk AtSelect) c)) in Hf; [done|set_solver|].
      constructor; cbn [fs_seen fs_total fs_last fs_success].
      * constructor; [intros id it; by rewrite lookup_empty|by rewrite map_sum_empty|done|by rewrite map_size_empty].
      * intros n i it Hn. by apply not_elem_of_nil in Hn.
      * by right.
      * intros n items Hn. by apply not_elem_of_nil in Hn.
    + destruct (fs_success st) eqn:Hs; [simplify_eq; by auto|]. destruct (fs_last st) eqn:Hl; simplify_eq; auto.
Qed.

Lemma total_perm (l k : list StoredItem) :
  l ≡ₚ k → foldr (λ it acc, blen (si_Payload it) + acc) 0 l = foldr (λ it acc, blen (si_Payload it) + acc) 0 k.
Proof. induction 1; simpl; lia. Qed.

(** C31. A fetch over untrusted nodes returns only what was asked for and all of what was
    offered: the result is oldest first, without duplicates, at most 512 items and
    8 MiB; every item carries a requested route, was offered by a node that is not
    excluded and was valid when it arrived; and every such offer is represented in
    the result by an item of the same identifier. *)
Theorem Fetch_merged clk c (routeTags : list string) c' (l : list StoredItem) :
  Fetch clk c routeTags = (c', Ok l) →
  Sorted older l ∧ NoDup (si_ItemID <$> l) ∧ blen l ≤ DefaultMaxFetchItems ∧
  foldr (λ it acc, blen (si_Payload it) + acc) 0 l ≤ DefaultMaxFetchBytes ∧
  (∀ it, it ∈ l → ∃ n i, n ∈ allowedNodes (clk AtSelect) c ∧ offered clk routeTags n i it) ∧
  (∀ n i it, n ∈ allowedNodes (clk AtSelect) c → offered clk routeTags n i it →
     ∃ it', it' ∈ l ∧ si_ItemID it' = si_ItemID it).
Proof.
  intros [(e & ? & _)|(st & [[Hfrom Htot Hbytes Hitems] Hcomp _ _] & -> & _)]%Fetch_run; [done|].
  pose proof (merge_sort_Permutation older ((range_map (fs_seen st)).*2)) as Hp.
  assert (Hin : ∀ it, it ∈ merge_sort older ((range_map (fs_seen st)).*2) ↔ fs_seen st !! si_ItemID it = Some it).
  { intros it. rewrite Hp, list_elem_of_fmap. split.
    - intros ([id it'] & -> & Hx%range_map_elem). cbn [snd]. by destruct (Hfrom id it' Hx) as [-> _].
    - intros Hx. exists (si_ItemID it, it). split; [done|]. by apply range_map_elem. }
  split_and!.
  - apply Sorted_merge_sort, _.
  - rewrite Hp. rewrite <- list_fmap_compose.
    replace ((si_ItemID ∘ snd) <$> range_map (fs_seen st)) with ((range_map (fs_seen st)).*1); [apply range_map_keys|].
    apply list_fmap_ext. intros i [id it] Hx%list_elem_of_lookup_2%range_map_elem. simpl. by destruct (Hfrom id it Hx).
  - unfold blen. rewrite Hp, length_fmap, (range_map_perm (fs_seen st)).
    rewrite length_map_to_list. lia.
  - rewrite Htot, <- (map_sum_list payload_size _ (range_map (fs_seen st))) in Hbytes by apply range_map_perm.
    etrans; [|exact Hbytes]. apply Z.eq_le_incl.
    transitivity (foldr (λ it acc, blen (si_Payload it) + acc) 0 ((range_map (fs_seen st)).*2)).
    + by apply total_perm.
    + clear. induction (range_map (fs_seen st)) as [|[k x] t IH]; [done|].
      rewrite fmap_cons. cbn [foldr fst snd]. by rewrite IH.
  - intros it Hx%Hin. by destruct (Hfrom _ _ Hx) as [_ ?].
  - intros n i it Hn Hoff. destruct (Hcomp n i it Hn Hoff) as [it' Hx]. destruct (Hfrom _ _ Hx) as [Hid _].
    exists it'. split; [|done]. apply Hin. by rewrite Hid.
Qed.

(** One node with a clean answer is enough for a fetch to succeed, unless the
    combined answers pass the limits. *)
Lemma Fetch_survives clk c (routeTags : list string) c' (e : error) (n : HTTPNode) (items : list StoredItem) :
  Fetch clk c routeTags = (c', Err e) → n ∈ allowedNodes (clk AtSelect) c →
  ClientNode.Fetch n routeTags = Ok items → (∀ i it, items !! i = Some it → offered clk routeTags n i it) →
  checkTags ∅ routeTags = Err e ∨ e = "route tag count out of range"%string ∨
  e = "combined fetch result exceeds item limit"%string ∨ e = "combined fetch result exceeds size limit"%string.
Proof.
  intros [(e' & [= ->] & ?)|(st & [_ _ _ Hs] & Hf & _)]%Fetch_run Hn Hi Ho; [done|].
  rewrite (Hs n items) in Hf by done. done.
Qed.

(** ** Audits *)

Lemma judge_other clk (rep : Reputation) (id id' : string) (f : Finding) :
  id' ≠ id → (judge clk rep id f).1 !! id' = rep !! id'.
Proof.
  intros Hne. destruct f; simpl; unfold Success, Failure, Exclude; try case_match; by rewrite ?lookup_insert_ne.
Qed.

Lemma auditReceipt_other clk (rnd : AuditRandomness) c (d : Delivery) (i : nat)
    (st : Reputation * gmap string (option error)) (r : StorageReceipt) (id : string) :
  id ≠ sr_NodeID r →
  (auditReceipt clk rnd c d i st r).1 !! id = st.1 !! id ∧ (auditReceipt clk rnd c d i st r).2 !! id = st.2 !! id.
Proof.
  intros Hne. destruct st as [rep results]. unfold auditReceipt.
  destruct (nodeByID c _) as [n|] eqn:Hn; [|done]. apply nodeByID_Some in Hn as [_ Hid].
  destruct (ar_rand _ _ _); [|simpl; rewrite lookup_insert_ne; [done|congruence]].
  destruct (randomProofOffset _ _ _); [|simpl; rewrite lookup_insert_ne; [done|congruence]].
  match goal with |- context [judge clk rep ?k ?f] => pose proof (judge_other clk rep k id f) as Hj;
    destruct (judge clk rep k f) as [rep' err] end.
  simpl in *. rewrite lookup_insert_ne by congruence. split; [apply Hj; congruence|done].
Qed.

Lemma auditLoop_other clk (rnd : AuditRandomness) c (d : Delivery) (l : list StorageReceipt) (i : nat)
    (st : Reputation * gmap string (option error)) (id : string) :
  id ∉ sr_NodeID <$> l →
  (auditLoop clk rnd c d i st l).1 !! id = st.1 !! id ∧ (auditLoop clk rnd c d i st l).2 !! id = st.2 !! id.
Proof.
  revert i st. induction l as [|r l IH]; intros i st Hid; [done|]. rewrite fmap_cons, not_elem_of_cons in Hid.
  destruct Hid as [Hne Hid]. cbn [auditLoop]. destruct (IH (i + 1)%nat (auditReceipt clk rnd c d i st r) Hid) as [-> ->].
  by apply auditReceipt_other.
Qed.

Lemma auditLoop_app clk (rnd : AuditRandomness) c (d : Delivery) (l k : list StorageReceipt) (i : nat) st :
  auditLoop clk rnd c d i st (l ++ k) = auditLoop clk rnd c d (i + length l) (auditLoop clk rnd c d i st l) k.
Proof.
  revert i st. induction l as [|r l IH]; intros i st; cbn [auditLoop app length]; [by rewrite Nat.add_0_r|].
  rewrite IH. f_equal. lia.
Qed.

(** The challenge for the [i]-th receipt. *)
Definition challenge (rnd : AuditRandomness) (d : Delivery) (i : nat) : Result ProofRequest :=
  match ar_rand rnd i 32 with
  | Err err => Err err
  | Ok nonce =>
      let sample := Z.min 4096 (blen (si_Payload (d_Item d))) in
      match randomProofOffset (ar_below rnd i) (blen (si_Payload (d_Item d))) sample with
      | Err err => Err err
      | Ok offset => Ok {| pq_ItemID := si_ItemID (d_Item d); pq_Nonce := nonce; pq_Offset := offset; pq_Length := sample |}
      end
  end.

(** [proof] answers [request] with the bytes of the payload. *)
Definition right_bytes (d : Delivery) (request : ProofRequest) (proof : StorageProof) : Prop :=
  let payload := si_Payload (d_Item d) in
  pq_Offset request + blen (sp_Sample proof) ≤ blen payload ∧
  sp_Sample proof = slice payload (pq_Offset request) (pq_Offset request + blen (sp_Sample proof)) ∧
  sp_PayloadHash proof = Sha256.Sum256 payload.

Lemma auditNode_spec clk (d : Delivery) (request : ProofRequest) (n : HTTPNode) :
  match Prove (clk (AtAnswer (nodeID n))) (clk (AtAnswer' (nodeID n))) n request with
  | Err err => auditNode clk d request n = Missed err
  | Ok proof => (right_bytes d request proof → auditNode clk d request n = Proved) ∧
                (~ right_bytes d request proof → auditNode clk d request n = Forged wrongBytes)
  end.
Proof.
  unfold auditNode, right_bytes. destruct (Prove _ _ n request) as [proof|]; [|done]. unfold bytes_equal. cbv zeta. split.
  - intros (? & ? & ?). by rewrite (proj2 (Z.ltb_ge _ _)), !bool_decide_eq_true_2.
  - intros Hw. destruct (_ || _)%bool eqn:Hb; [done|]. unbool. destruct Hw. split_and!; (done || lia).
Qed.

(** The audit of one receipt, whatever the others do. *)
Lemma Audit_one clk (rnd : AuditRandomness) c (d : Delivery) (l1 l2 : list StorageReceipt) (r : StorageReceipt)
    (n : HTTPNode) c' results :
  core_ok c → d_Receipts d = l1 ++ r :: l2 → NoDup (sr_NodeID <$> d_Receipts d) →
  n ∈ nodes c → nodeID n = sr_NodeID r → Audit clk rnd c d = (c', results) →
  match challenge rnd d (length l1) with
  | Err err => results !! nodeID n = Some (Some err) ∧ reputation c' !! nodeID n = reputation c !! nodeID n
  | Ok request =>
      ∃ rep, rep !! nodeID n = reputation c !! nodeID n ∧
        let '(rep', err) := judge clk rep (nodeID n) (auditNode clk d request n) in
        results !! nodeID n = Some err ∧ reputation c' !! nodeID n = rep' !! nodeID n
  end.
Proof.
  intros Hok Hd Hnd Hn Hid. unfold Audit. rewrite Hd in *. rewrite fmap_app, fmap_cons in Hnd.
  apply list.NoDup_app in Hnd as (_ & Hdisj & [Hnd2 _]%list.NoDup_cons).
  assert (H1 : sr_NodeID r ∉ sr_NodeID <$> l1) by (intros Hx; apply (Hdisj _ Hx); by left).
  destruct (auditLoop _ _ _ _ _ _ _) as [rep2 res2] eqn:Hl. intros [= <- <-]. cbn [reputation set_reputation].
  rewrite auditLoop_app in Hl. cbn [auditLoop Nat.add] in Hl.
  destruct (auditLoop_other clk rnd c d l1 0 (reputation c, ∅) _ H1) as [Hr1 _]. cbn [fst] in Hr1.
  destruct (auditLoop clk rnd c d 0 (reputation c, ∅) l1) as [rep1 res1]. cbn [fst] in Hr1.
  match type of Hl with auditLoop _ _ _ _ ?i ?st _ = _ =>
    destruct (auditLoop_other clk rnd c d l2 i st _ Hnd2) as [Ha Hb] end.
  rewrite Hl in Ha, Hb. cbn [fst snd] in Ha, Hb. rewrite Hid, Ha, Hb. unfold auditReceipt, challenge.
  rewrite <- Hid, nodeByID_nodes by done.
  destruct (ar_rand _ _ _) as [nonce|]; [|cbn [fst snd]; by rewrite lookup_insert_eq, Hid].
  cbv zeta. destruct (randomProofOffset _ _ _) as [offset|]; [|cbn [fst snd]; by rewrite lookup_insert_eq, Hid].
  exists rep1. split; [by rewrite Hid|].
  destruct (judge _ _ _ _) as [rep' err]. cbn [fst snd]. by rewrite lookup_insert_eq.
Qed.

Lemma Prove_Ok (now now' : Time) (n : HTTPNode) (request : ProofRequest) (proof : StorageProof) :
  Prove now now' n request = Ok proof →
  sp_NodeID proof = nodeID n ∧ sp_ItemID proof = pq_ItemID request ∧ sp_Nonce proof = pq_Nonce request ∧
  sp_Offset proof = pq_Offset request ∧ blen (sp_Sample proof) = pq_Length request ∧
  Verify (Identity n) proofDomain (ProofSigningBytes proof) (sp_Signature proof) = true.
Proof.
  unfold Prove, bytes_equal. intros H. step_if H. destruct (postJSON _ _) as [p|]; [|done]. step_if H. unbool.
  apply (inj Ok) in H as <-. done.
Qed.

(** C32. An audit believes only proofs: a node whose audit reports no error has signed, for
    a nonce drawn for this audit, the payload's hash and a sample of up to 4096
    payload bytes at an offset drawn for this audit, and they are the bytes of the
    delivery. A node that signs any other bytes is reported and is not used for the
    24 hours after its exclusion. *)
Theorem Audit_proof clk (rnd : AuditRandomness) c (d : Delivery) (l1 l2 : list StorageReceipt) (r : StorageReceipt)
    (n : HTTPNode) c' results :
  core_ok c → d_Receipts d = l1 ++ r :: l2 → NoDup (sr_NodeID <$> d_Receipts d) →
  n ∈ nodes c → nodeID n = sr_NodeID r → Audit clk rnd c d = (c', results) →
  clk (AtAllowed (nodeID n)) < clk (AtExclude (nodeID n)) + 24 * Hour →
  (results !! nodeID n = Some None →
     ∃ request proof, challenge rnd d (length l1) = Ok request ∧ sp_Nonce proof = pq_Nonce request ∧
       sp_Offset proof = pq_Offset request ∧ right_bytes d request proof ∧
       blen (sp_Sample proof) = Z.min 4096 (blen (si_Payload (d_Item d))) ∧
       Verify (Identity n) proofDomain (ProofSigningBytes proof) (sp_Signature proof) = true) ∧
  (∀ request proof, challenge rnd d (length l1) = Ok request →
     Prove (clk (AtAnswer (nodeID n))) (clk (AtAnswer' (nodeID n))) n request = Ok proof →
     ~ right_bytes d request proof →
     results !! nodeID n = Some (Some wrongBytes) ∧
     ∀ t, t < clk (AtExclude (nodeID n)) + 24 * Hour → Allowed (reputation c') (nodeID n) t = false).
Proof.
  intros Hok Hd Hnd Hn Hid Ha Hclk.
  pose proof (Audit_one clk rnd c d l1 l2 r n c' results Hok Hd Hnd Hn Hid Ha) as Hone.
  destruct (challenge rnd d (length l1)) as [request|err] eqn:Hch.
  2: { destruct Hone as [Hres _]. split; [rewrite Hres; done|done]. }
  destruct Hone as (rep & _ & Hone). pose proof (auditNode_spec clk d request n) as Hspec.
  assert (Hlen : pq_Length request = Z.min 4096 (blen (si_Payload (d_Item d)))).
  { unfold challenge in Hch. destruct (ar_rand _ _ _); [|done]. cbv zeta in Hch.
    destruct (randomProofOffset _ _ _); [|done]. by apply (inj Ok) in Hch as <-. }
  split.
  - destruct (Prove _ _ n request) as [proof|] eqn:Hp.
    2: { rewrite Hspec in Hone. simpl in Hone. destruct Hone as [-> _]. done. }
    destruct Hspec as [_ Hbad]. apply Prove_Ok in Hp as (_ & _ & ? & ? & Hs & ?). intros Hres.
    exists request, proof. split_and!; [done..| |congruence|done].
    destruct (auditNode clk d request n) eqn:Hau; [|simpl in Hone; destruct Hone as [Hr _]; rewrite Hres in Hr; done..].
    apply dec_stable. by intros ?%Hbad.
  - intros request' proof [= <-] Hp Hwrong. rewrite Hp in Hspec. destruct Hspec as [_ Hspec].
    rewrite (Hspec Hwrong) in Hone. unfold judge in Hone.
    assert (Hex : ns_ExcludedUntil (map_get zeroScore (Exclude (clk (AtExclude (nodeID n))) rep (nodeID n) (24 * Hour)
        (Some wrongBytes)) (nodeID n)) = clk (AtExclude (nodeID n)) + 24 * Hour).
    { unfold Exclude, map_get. by rewrite lookup_insert_eq. }
    assert (Hno : ∀ t, t < clk (AtExclude (nodeID n)) + 24 * Hour →
      Allowed (Exclude (clk (AtExclude (nodeID n))) rep (nodeID n) (24 * Hour) (Some wrongBytes)) (nodeID n) t = false).
    { intros t Ht. unfold Allowed, After. rewrite Hex. by rewrite (proj2 (Z.ltb_lt _ _)). }
    rewrite (Hno _ Hclk) in Hone. destruct Hone as [Hres Hrep]. split; [done|]. intros t Ht.
    rewrite <- (Hno t Ht). unfold Allowed, map_get. by rewrite Hrep.
Qed.

(** ** Deletion *)

Lemma Delete_Ok (now now' : Time) (n : HTTPNode) (request : DeleteRequest) (r : DeleteReceipt) :
  Delete now now' n request = Ok r →
  dr_NodeID r = nodeID n ∧ dr_ItemID r = dq_ItemID request ∧
  Verify (Identity n) deleteReceiptDomain (DeleteReceiptSigningBytes r) (dr_Signature r) = true.
Proof.
  unfold Delete. intros H. destruct (postJSON _ _) as [r'|]; [|done]. step_if H. unbool. by apply (inj Ok) in H as <-.
Qed.

(** A replica of the delivery that its node has confirmed to be gone. *)
Definition confirmed c (d : Delivery) (r : StorageReceipt) : Prop :=
  ∃ n rc, n ∈ nodes c ∧ nodeID n = sr_NodeID r ∧ dr_NodeID rc = nodeID n ∧ dr_ItemID rc = si_ItemID (d_Item d) ∧
    Verify (Identity n) deleteReceiptDomain (DeleteReceiptSigningBytes rc) (dr_Signature rc) = true.

Lemma deleteReceipts_spec clk c (d : Delivery) (l : list StorageReceipt) (st : Reputation * gmap string (option error) * bool) :
  (foldl (deleteReceipt clk c d) st l).2 = true → st.2 = true ∧ Forall (confirmed c d) l.
Proof.
  revert st. induction l as [|r l IH]; intros [[rep results] all] H; [done|]. cbn [foldl] in H.
  apply IH in H as [H Hl]. unfold deleteReceipt in H.
  destruct (nodeByID c (sr_NodeID r)) as [n|] eqn:Hn; [|done]. apply nodeByID_Some in Hn as [Hn Hid].
  destruct (Delete _ _ n _) as [rc|] eqn:Hd; [|done]. apply Delete_Ok in Hd as (? & ? & ?).
  split; [done|]. constructor; [|done]. by exists n, rc.
Qed.

(** The local delivery state, and with it the delete token, is given up only when
    every replica is gone: if [Delete] changes the local store, the token matches
    the item, there was a receipt, and each receipt's node answered with a signed
    deletion receipt for the item. *)
Theorem DeleteDelivery_keeps clk (e : E) c (d : Delivery) c' results :
  DeleteDelivery clk e c d = (c', results) → store c' ≠ store c →
  si_DeleteTokenHash (d_Item d) = DeleteTokenHash (d_DeleteToken d) ∧ d_Receipts d ≠ [] ∧
  Forall (confirmed c d) (d_Receipts d).
Proof.
  unfold DeleteDelivery, bytes_equal. destruct (negb _ || _)%bool eqn:Htok; [by intros [= <- _]|]. unbool.
  destruct (foldl _ _ _) as [[rep res] all] eqn:Hf. cbn [set_reputation store].
  destruct (store c) as [s|] eqn:Hs; [|intros [= <- _]; cbn [set_reputation store]; congruence].
  destruct all; [|intros [= <- _]; cbn [set_reputation store]; congruence]. intros _ _.
  apply (f_equal snd) in Hf as Ha. apply deleteReceipts_spec in Ha as [Hlen Hall]. cbn [snd] in Hlen. unbool.
  split_and!; [done| |done]. intros Hnil. rewrite Hnil in Hlen. unfold blen in Hlen. simpl in Hlen. lia.
Qed.

(** ** Direct messages *)

(** [encoding/json] on sealed messages: read back, and with the ciphertext in base64,
    so a third longer than its bytes. *)
Definition direct_codec : Prop :=
  ∀ (m : DirectCiphertext) (b : bytes), ascii_text (dc_Suite m) = true → Marshal m = Ok b →
    decodeStrict b = Ok m ∧ 4 * blen (dc_Ciphertext m) ≤ 3 * blen b ∧ 0 < blen b.

Lemma newItem_valid (routeTag : string) (now created : Time) (token payload : bytes) :
  ValidRouteTag routeTag = true → 0 < blen payload ≤ DefaultMaxItemBytes →
  created ≤ now + 5 * Minute → now < created + FixedItemRetention →
  ValidateItem (newItem routeTag created token payload) now DefaultMaxItemBytes = None.
Proof.
  intros Hr Hp Hc He. apply ValidateItem_None. constructor; cbn; done.
Qed.

Lemma sealDirect_Ok (now : Time) (rnd : Randomness) (recipient : bytes) (tag : string) (plaintext : bytes)
    (item : StoredItem) (token : bytes) :
  sealDirect now rnd recipient tag plaintext = Ok (item, token) →
  ∃ routeTag padded enc ct payload, ValidRouteTag routeTag = true ∧ (tag ≠ ""%string → routeTag = tag) ∧
    Padding.PadMessage (r_padding rnd) plaintext = Ok padded ∧
    Hpke.Seal (r_coins rnd) recipient
      (directAAD routeTag (Truncate now Millisecond) (Truncate now Millisecond + FixedItemRetention)) padded = Ok (enc, ct) ∧
    Marshal {| dc_Suite := Hpke.HybridHPKESuite; dc_Encapsulation := enc; dc_Ciphertext := ct |} = Ok payload ∧
    r_token rnd 32 = Ok token ∧ item = newItem routeTag (Truncate now Millisecond) token payload.
Proof.
  unfold sealDirect, RandomDeleteToken, RandomCapability. intros H.
  destruct (if bool_decide (tag = ""%string) then _ else _) as [route|] eqn:Ht; [|done].
  destruct (ValidRouteTag route) eqn:Hr; [|done]. cbn [negb] in H.
  destruct (Hpke.ValidateHybridKEMPublicKey recipient); [done|]. cbv zeta in H.
  destruct (Padding.PadMessage _ _) as [padded|] eqn:Hp; [|done].
  destruct (Hpke.Seal _ _ _ _) as [[enc ct]|] eqn:Hs; [|done].
  destruct (Marshal _) as [payload|] eqn:Hm; [|done]. destruct (r_token rnd 32) as [tok|] eqn:Hk; [|done].
  apply (inj Ok) in H. injection H as <- <-.
  exists route, padded, enc, ct, payload. split_and!; try done. intros Hne.
  rewrite bool_decide_eq_false_2 in Ht by done. by apply (inj Ok) in Ht as <-.
Qed.

Lemma padded_large (rand : Z → Result bytes) (plaintext padded : bytes) :
  Padding.rand_fills rand → Padding.PadMessage rand plaintext = Ok padded → 65532 < blen plaintext → 262144 ≤ blen padded.
Proof.
  intros Hf Hp Hbig. destruct (Padding.PadMessage_roundtrip _ _ _ Hf Hp) as (_ & Hin & Hle & _).
  apply list_elem_of_In in Hin. unfold Padding.messageBuckets in Hin. simpl in Hin. lia.
Qed.

(** C19. A direct message is read by its recipient: the item [SendDirect] makes for a
    generated key pair, as long as its payload is small enough to be stored, is
    valid for its whole lifetime and opens with the private key to the plaintext,
    whatever postage is attached. A message of more than 65532 bytes never gets
    that far: it is padded to the largest bucket, whose encoding exceeds the item
    limit, and the store refuses it. *)
Theorem direct_roundtrip {HL : Hpke.HPKELaws HP} (now t : Time) (rnd : Randomness) (coins : bytes)
    (pair : Hpke.HybridKEMKeyPair) (tag : string) (plaintext : bytes) (item : StoredItem) (token : bytes)
    (work : WorkProof) :
  direct_codec → Padding.rand_fills (r_padding rnd) → Hpke.GenerateHybridKEMKeyPair coins = Ok pair →
  (∀ aad enc ct pt, Hpke.Seal (r_coins rnd) (Hpke.kp_PublicKey pair) aad pt = Ok (enc, ct) → blen pt ≤ blen ct) →
  sealDirect now rnd (Hpke.kp_PublicKey pair) tag plaintext = Ok (item, token) →
  Truncate now Millisecond - 5 * Minute ≤ t < Truncate now Millisecond + FixedItemRetention →
  (blen (si_Payload item) ≤ DefaultMaxItemBytes →
     ValidateItem (set_Work item work) t DefaultMaxItemBytes = None ∧
     OpenDirectItem (Hpke.kp_PrivateKey pair) (set_Work item work) = Ok plaintext) ∧
  (65532 < blen plaintext →
     ∀ clk fuel poll (e : E) c, clk AtStart = t →
       StoreReplicated clk fuel poll e c item token = Some (c, noDelivery, Some ErrItemTooLarge)).
Proof.
  intros Hcodec Hfill Hgen Hgrow Hseal Ht.
  apply sealDirect_Ok in Hseal as (route & padded & enc & ct & payload & Hr & _ & Hpad & Hs & Hm & _ & ->).
  destruct (Hcodec {| dc_Suite := Hpke.HybridHPKESuite; dc_Encapsulation := enc; dc_Ciphertext := ct |} payload
    ltac:(vm_compute; reflexivity) Hm) as (Hdec & Hlen & Hpos). cbn [dc_Ciphertext] in Hlen.
  cbn [newItem si_Payload set_ItemID]. split.
  - intros Hmax.
    assert (Hvalid : ∀ u, Truncate now Millisecond - 5 * Minute ≤ u < Truncate now Millisecond + FixedItemRetention →
      ValidateItem (set_Work (newItem route (Truncate now Millisecond) token payload) work) u DefaultMaxItemBytes = None).
    { intros u Hu. apply ValidateItem_None.
      destruct (proj1 (ValidateItem_None _ _ _) (newItem_valid route u (Truncate now Millisecond) token payload
        Hr ltac:(lia) ltac:(lia) ltac:(lia))). by constructor. }
    split; [by apply Hvalid|]. destruct (Hpke.Seal_Open _ _ _ _ _ _ _ Hgen Hs) as (He & Hc & Hopen).
    unfold OpenDirectItem. change (si_CreatedAt (set_Work _ work)) with (Truncate now Millisecond).
    rewrite Hvalid by (split; [unfold Minute, Second, Millisecond in *; lia|unfold FixedItemRetention, Hour, Minute, Second, Millisecond; lia]).
    cbn [set_Work newItem set_ItemID si_Payload si_RouteTag si_CreatedAt si_ExpiresAt].
    rewrite Hdec. cbn [dc_Suite dc_Encapsulation dc_Ciphertext].
    rewrite bool_decide_eq_true_2, !(proj2 (Z.eqb_neq _ 0)), (proj2 (Z.ltb_ge _ _)) by (done || lia). cbn [negb orb].
    unfold TAdd. rewrite Hopen. by destruct (Padding.PadMessage_roundtrip _ _ _ Hfill Hpad) as [-> _].
  - intros Hbig clk fuel poll e c Hclk. unfold StoreReplicated. rewrite Hclk.
    assert (Hp : 262144 ≤ blen padded) by (by eapply padded_large).
    pose proof (Hgrow _ _ _ _ Hs).
    assert (ValidateItem (newItem route (Truncate now Millisecond) token payload) t DefaultMaxItemBytes = Some ErrItemTooLarge)
      as ->; [|done].
    unfold ValidateItem. cbn [newItem set_ItemID si_Version si_RouteTag si_DeleteTokenHash si_Payload]. rewrite Hr.
    unfold DeleteTokenHash. rewrite Sha256.Sum256_blen. cbn [negb orb Z.eqb Pos.eqb].
    rewrite (proj2 (Z.ltb_lt DefaultMaxItemBytes (blen payload))) by (unfold DefaultMaxItemBytes; lia).
    rewrite orb_true_r. reflexivity.
Qed.

End Ops.

(** * The encrypted disk store implements the interface *)

Section Disk.
Context {MO : MapOrder} {MR : Marshaler ClientStore.LocalRecord} {DR : StrictDecoder ClientStore.LocalRecord}
        {AE : ClientStore.AEAD} {AEL : ClientStore.AEADLaws}.

(** What a call to the store meets: I/O outcomes, random bytes, its context and the
    clock. *)
Record Call := {
  call_io : IO;
  call_rand : Z → Result bytes;
  call_fills : ClientStore.rand_fills call_rand;
  call_ctx : option ClientStore.Ctx;
  call_now : Time;
}.

#[export] Instance disk_store : LocalStore Call (Disk * ClientStore.EncryptedDiskStore) := {|
  ls_Put k x r now :=
    let '(d, s, rep, e) := ClientStore.Put (call_io k) (call_rand k) (call_ctx k) x.1 x.2 r now in ((d, s), rep, e);
  ls_Get k x id := ClientStore.Get (call_io k) (call_ctx k) (call_now k) x.1 x.2 id;
  ls_Delete k x id := let '(d, s, e) := ClientStore.Delete (call_io k) (call_ctx k) x.1 x.2 id in ((d, s), e);
  ls_PruneTo k x target now :=
    let '(d, s, rep, e) := ClientStore.PruneTo (call_io k) (call_ctx k) x.1 x.2 target now in ((d, s), rep, e);
  ls_SetLimit k x limit now :=
    let '(d, s, rep, e) := ClientStore.SetLimit (call_io k) (call_ctx k) x.1 x.2 limit now in ((d, s), rep, e);
  ls_Usage x := ClientStore.Usage x.2;
  ls_Close k x := let '(s, errs) := ClientStore.Close (call_io k) x.2 in ((x.1, s), errs);
|}.

(** A call that can read at [later]: no I/O error, a live context. *)
Definition can_read (k : Call) (later : Time) : Prop :=
  (∀ name, call_io k (EntryInfo name) = None ∧ call_io k (ReadFile name) = None) ∧
  (∃ ctx, call_ctx k = Some ctx ∧ ctx None = None) ∧ later ≤ call_now k.

#[export] Program Instance disk_laws (H : ClientStore.record_roundtrip)
  : LocalStoreLaws Call (Disk * ClientStore.EncryptedDiskStore) := {|
  ls_ok x := ClientStore.store_ok x.2;
  ls_reads := can_read;
|}.
Next Obligation.
  intros H e [d s] r now [d' s'] rep err Hok Hput. cbn in *.
  destruct (ClientStore.Put _ _ _ _ _ _ _) as [[[d1 s1] rep1] err1] eqn:Hp. simplify_eq.
  apply ClientStore.Put_cases in Hp as [(-> & _)|(enc & _ & _ & _ & Hres)]; [done| |done].
  by destruct (ClientStore.record_put_ok _ _ _ _ _ _ _ _ _ Hok Hres).
Qed.
Next Obligation.
  intros H e [d s] id [d' s'] err Hok Hdel. cbn in *.
  destruct (ClientStore.Delete _ _ _ _ _) as [[d1 s1] err1] eqn:Hd. simplify_eq.
  by apply ClientStore.record_delete_cases in Hd as [[-> _]|(m & _ & ? & _)].
Qed.
Next Obligation.
  intros H e e' [d s] r now [d' s'] rep later Hok Hput (Hio & (ctx' & Hctx & Hlive) & Hnow) Hle. cbn in *.
  destruct (ClientStore.Put _ _ _ _ _ _ _) as [[[d1 s1] rep1] err1] eqn:Hp. simplify_eq.
  destruct (call_ctx e) as [ctx|] eqn:He; [|done]. rewrite Hctx.
  eapply ClientStore.put_get; [done|apply call_fills|exact Hok|exact Hp|done|done|lia].
Qed.

End Disk.

(** * A sample run *)

(** Hexadecimal text is plain. *)
Lemma hex_ascii (l : bytes) : ascii_text (Hex.EncodeToString l) = true.
Proof.
  unfold ascii_text, Hex.EncodeToString. rewrite str_bytes_of. induction l as [|b l IH]; [done|].
  csimpl in *. rewrite IH.
  assert (Hd : ∀ v, 0 ≤ v < 16 → ((32 <=? b2z (Hex.digit v)) && (b2z (Hex.digit v) <? 127))%bool = true)
    by (by apply (seqZ_check (λ v, ((32 <=? b2z (Hex.digit v)) && (b2z (Hex.digit v) <? 127))%bool = true))).
  pose proof (b2z_range b). rewrite !Hd by div_lia. done.
Qed.

Module Sample.
#[local] Existing Instances Toy.crypto Toy.laws.

(** A store that keeps everything in memory. *)
Abbreviation Mem := (gmap string ClientStore.LocalRecord).
#[export] Instance mem : LocalStore () Mem := {|
  ls_Put _ m r now := (<[ClientStore.lr_ID r := ClientStore.normalizeLocalRecord r]> m, ClientStore.noReport, None);
  ls_Get _ m id := match m !! id with Some r => Ok r | None => Err ClientStore.ErrLocalRecordNotFound end;
  ls_Delete _ m id := (delete id m, None);
  ls_PruneTo _ m _ _ := (m, ClientStore.noReport, None);
  ls_SetLimit _ m _ _ := (m, ClientStore.noReport, None);
  ls_Usage m := {| ClientStore.cu_UsedBytes := 0; ClientStore.cu_MaxBytes := 0;
                   ClientStore.cu_Records := Z.of_nat (size m); ClientStore.cu_MaxRecords := 0 |};
  ls_Close _ m := (m, []);
|}.
#[export] Program Instance mem_laws : LocalStoreLaws () Mem := {| ls_ok _ := True; ls_reads _ _ := True |}.
Next Obligation. done. Qed.
Next Obligation. done. Qed.
Next Obligation.
  intros e e' s r now s' rep later _ Hp _ _. cbn [ls_Put mem] in Hp. injection Hp as <- _.
  cbn [ls_Get mem]. by rewrite lookup_insert_eq.
Qed.

Definition now : Time := Samples.now.
Definition clk : Clock := λ _, now.
Definition token : bytes := Samples.token.
Definition item : StoredItem := newItem Samples.route now token (str_bytes "sealed").

Lemma item_fine : ValidateItem item now DefaultMaxItemBytes = None.
Proof. apply newItem_valid; [vm_compute; reflexivity|split; vm_compute; [reflexivity|discriminate]|vm_compute; discriminate|vm_compute; reflexivity]. Qed.

Definition params : NodeParameters :=
  {| np_ProtocolVersion := ProtocolVersion; np_Difficulty := 0; np_EpochSeconds := 600;
     np_MaxItemBytes := DefaultMaxItemBytes; np_StorageUsed := 0; np_StorageCapacity := 1024 |}.

Section Run.
(** One node, with the signer [g]. *)
Context (g : HybridSigner) (kg : blen (edPrivate g) = ed25519_PrivateKeySize).

Definition sig (domain : string) (m : bytes) : HybridSignature := ok_or zeroSignature (Sign g [] domain m).
Lemma sig_verifies (domain : string) (m : bytes) : Verify (PublicIdentity g) domain m (sig domain m) = true.
Proof. apply (sign_verifies (PrivateMaterial g) g []); [by apply restore_signer|reflexivity]. Qed.

Definition blank (sg : HybridSignature) : StorageReceipt :=
  {| sr_NodeID := ni_NodeID (PublicIdentity g); sr_ItemID := si_ItemID item;
     sr_PayloadHash := Sha256.Sum256 (si_Payload item); sr_StoredAt := now; sr_ExpiresAt := si_ExpiresAt item;
     sr_Signature := sg |}.
Definition receipt : StorageReceipt := blank (sig receiptDomain (ReceiptSigningBytes (blank zeroSignature))).
Definition blank_delete (sg : HybridSignature) : DeleteReceipt :=
  {| dr_NodeID := ni_NodeID (PublicIdentity g); dr_ItemID := si_ItemID item; dr_DeletedAt := now; dr_Signature := sg |}.
Definition deleted : DeleteReceipt :=
  blank_delete (sig deleteReceiptDomain (DeleteReceiptSigningBytes (blank_delete zeroSignature))).
Definition blank_proof (sg : HybridSignature) : StorageProof :=
  {| sp_NodeID := ni_NodeID (PublicIdentity g); sp_ItemID := si_ItemID item; sp_Nonce := replicate 32 x00;
     sp_Offset := 0; sp_Sample := si_Payload item; sp_PayloadHash := Sha256.Sum256 (si_Payload item);
     sp_ProvedAt := now; sp_Signature := sg |}.
Definition proved : StorageProof :=
  blank_proof (sig proofDomain (ProofSigningBytes (blank_proof zeroSignature))).

(** Its answers on the wire, and how they decode. *)
Definition node : HTTPNode :=
  {| BaseURL := "https://node"; Identity := PublicIdentity g; hasClient := true;
     w_parameters := Ok (200, []); w_store := λ _, Ok (201, []); w_fetch := λ _, Ok (200, []);
     w_proof := λ _, Ok (200, []); w_delete := λ _, Ok (200, []) |}.
#[local] Instance d_params : StrictDecoder NodeParameters := λ _, Ok params.
#[local] Instance m_item : Marshaler StoredItem := λ _, Ok [].
#[local] Instance d_receipt : StrictDecoder StorageReceipt := λ _, Ok receipt.
#[local] Instance m_fetch : Marshaler FetchRequest := λ _, Ok [].
#[local] Instance d_fetch : StrictDecoder FetchResponse := λ _, Ok {| fr_Items := [item] |}.
#[local] Instance m_proof : Marshaler ProofRequest := λ _, Ok [].
#[local] Instance d_proof : StrictDecoder StorageProof := λ _, Ok proved.
#[local] Instance m_delete : Marshaler DeleteRequest := λ _, Ok [].
#[local] Instance d_delete : StrictDecoder DeleteReceipt := λ _, Ok deleted.

Definition config : Config := {| c_Nodes := [Some node]; c_Replicas := 0; c_WriteQuorum := 0; c_Reputation := None |}.
Definition core (m : Mem) : Core Mem :=
  {| nodes := [node]; replicas := 1; writeQuorum := 1; reputation := ∅; store := Some m |}.

Lemma core_new : New config (Some ∅) = Ok (core ∅).
Proof. unfold New. cbn [config c_Nodes checkNodes hasClient node Identity]. by rewrite (PublicIdentity_valid g kg). Qed.

Lemma core_fine (m : Mem) : core_ok (core m).
Proof.
  destruct (New_core_ok config (Some ∅) (core ∅) core_new) as [[H1 H2 H3 H4] _]. by constructor.
Qed.

Definition work : WorkProof := {| wp_Epoch := Z.quot (Unix now) 600; wp_Nonce := 0; wp_Difficulty := 0 |}.
Definition delivery : Delivery :=
  {| d_Item := set_Work item work; d_DeleteToken := token; d_Receipts := [receipt]; d_FailedNodes := ∅ |}.

Lemma no_zero_bits (l : bytes) : HasLeadingZeroBits l 0 = true.
Proof. by destruct l. Qed.

Lemma solved (it : StoredItem) : SolveWork 1 (λ _, None) it now 600 0 = Some (Ok work).
Proof. unfold SolveWork. cbn [orb solve_loop]. rewrite no_zero_bits. reflexivity. Qed.

Lemma receipt_fine (it : StoredItem) : it = item ∨ it = set_Work item work →
  verifyStorageReceipt (PublicIdentity g) it receipt now = None.
Proof.
  intros Hit. apply verifyStorageReceipt_None.
  destruct Hit as [-> | ->]; (split_and!; [done..|vm_compute; discriminate|vm_compute; discriminate|vm_compute; discriminate|apply sig_verifies]).
Qed.

(** How the delivery of this run is written to the local store. *)
#[local] Instance receipt_eq_dec : EqDecision StorageReceipt.
Proof. solve_decision. Defined.
#[local] Instance delivery_eq_dec : EqDecision Delivery.
Proof. solve_decision. Defined.
#[local] Instance m_delivery : Marshaler Delivery := λ d, if decide (d = delivery) then Ok [x01] else Err "no sample".
#[local] Instance d_delivery : StrictDecoder Delivery := λ _, Ok delivery.

Lemma codec : delivery_codec.
Proof.
  intros d b _. unfold Marshal, m_delivery. destruct (decide (d = delivery)) as [->|]; [|done]. reflexivity.
Qed.

Definition stored : Core Mem * Delivery * option error :=
  default (core ∅, noDelivery, None) (StoreReplicated clk 1 (λ _, None) () (core ∅) item token).

Lemma answered_receipt : Store now node (set_Work item work) = Ok receipt.
Proof.
  unfold Store. change (postJSON (w_store node) _) with (Ok receipt : Result StorageReceipt). cbv iota beta.
  cbn [node Identity]. by rewrite receipt_fine by auto.
Qed.

Definition kept : Core Mem :=
  set_store (set_reputation (core ∅) (Success ∅ (nodeID node) false))
    (Some {[deliveryRecordID (si_ItemID item) :=
            ClientStore.normalizeLocalRecord (deliveryRecord delivery [x01] now)]}).

Lemma stored_run : StoreReplicated clk 1 (λ _, None) () (core ∅) item token = Some (kept, delivery, None).
Proof.
  unfold StoreReplicated. change (clk AtStart) with now. rewrite item_fine.
  change (negb (blen token =? CapabilityBytes)) with false. unfold bytes_equal.
  rewrite bool_decide_eq_true_2 by done. cbn [orb negb]. cbv zeta.
  change (allowedNodes (clk AtSelect) (core ∅)) with [node].
  change (blen [node] <? writeQuorum (core ∅)) with false. cbv iota.
  match goal with |- context [foldl (collectParameters ?k ?b) ?st ?l] =>
    change (foldl (collectParameters k b) st l) with
      ((∅, {| d_Item := zeroItem; d_DeleteToken := token; d_Receipts := []; d_FailedNodes := ∅ |},
        {[600 := [{| np_node := node; np_parameters := params |}]]}) : Reputation * Delivery * gmap Z (list nodeParameters)) end.
  cbv iota beta.
  match goal with |- context [foldl (selectGroup ?q) ?st ?l] =>
    change (foldl (selectGroup q) st l) with
      {| sel_group := [{| np_node := node; np_parameters := params |}]; sel_epoch := 600; sel_threshold := 0 |} end.
  cbn [sel_group sel_epoch sel_threshold]. 
  match goal with |- context [blen ?l <? ?q] => change (blen l <? q) with false end. cbv iota.
  change (clk AtSolve) with now. rewrite solved.
  match goal with |- context [np_node <$> ?l] => change (np_node <$> l) with [node] end.
  match goal with |- context [Z.to_nat ?z] => change (Z.to_nat z) with 1%nat end. cbn [take drop storeBackups fmap list_fmap shuffle in_order foldl].
  change (clk (AtAnswer (nodeID node))) with now. rewrite answered_receipt. cbn [recordStore fst snd].
  match goal with |- context [blen ?l <? ?q] => change (blen l <? q) with false end. cbv iota. unfold persistDelivery. cbn [set_reputation core store].
  match goal with |- context [Marshal ?d] => change d with delivery end.
  assert (Hm : Marshal delivery = Ok [x01]) by (unfold Marshal, m_delivery; by rewrite decide_True).
  rewrite Hm. reflexivity.
Qed.

Lemma delivery_text : json_text delivery.
Proof.
  split_and!; [apply hex_ascii|vm_compute; reflexivity|constructor; [split; apply hex_ascii|constructor]|].
  apply map_Forall_empty.
Qed.

Lemma clk_before (i : Instant) : clk i ≤ now + Hour.
Proof. vm_compute. discriminate. Qed.
Lemma before_expiry : now + Hour < si_ExpiresAt item.
Proof. vm_compute. reflexivity. Qed.
Lemma later_nonzero : now + Hour ≠ 0.
Proof. vm_compute. discriminate. Qed.

(** One item, fetched. *)
Definition fetched_core : Core Mem := set_reputation (core ∅) ∅.
Lemma fetch_run : Fetch clk (core ∅) [Samples.route] = (fetched_core, Ok [item]).
Proof.
  unfold Fetch. change (_ || _)%bool with false. cbv iota.
  assert (Ht : checkTags ∅ [Samples.route] = Ok ({[Samples.route]} ∪ ∅)).
  { cbn [checkTags]. change (ValidRouteTag Samples.route) with true.
    by rewrite bool_decide_eq_false_2 by apply not_elem_of_empty. }
  rewrite Ht. change (allowedNodes (clk AtSelect) (core ∅)) with [node]. cbn [fetchNodes]. unfold fetchNode.
  change (ClientNode.Fetch node _) with (Ok [item] : Result (list StoredItem)). cbv zeta iota beta.
  change (DefaultMaxFetchItems <? blen [item]) with false. cbv iota. cbn [mergeItems fs_seen fs_total].
  change (clk (AtItem (nodeID node) 0)) with now. rewrite item_fine.
  rewrite !bool_decide_eq_true_2 by (done || (cbn [item newItem set_ItemID si_RouteTag]; set_solver)). cbn [negb orb].
  rewrite lookup_empty. rewrite map_size_empty. change (DefaultMaxFetchItems <=? Z.of_nat 0) with false. cbv iota.
  change (DefaultMaxFetchBytes <? 0 + blen (si_Payload item)) with false. cbv iota. cbn [fs_rep fs_success fs_seen fs_last].
  rewrite insert_empty. unfold range_map, default_order. rewrite map_to_list_singleton. reflexivity.
Qed.

(** The delivery, deleted everywhere. *)
Lemma delete_run :
  DeleteDelivery clk () kept delivery =
    (set_store (set_reputation kept (reputation kept)) (Some (delete (deliveryRecordID (si_ItemID item))
       (default ∅ (store kept)))), {[nodeID node := None]}).
Proof.
  unfold DeleteDelivery, bytes_equal. change (negb (blen (d_DeleteToken delivery) =? CapabilityBytes)) with false.
  rewrite bool_decide_eq_true_2 by done. cbn [negb orb delivery d_Receipts foldl]. unfold deleteReceipt.
  assert (Hn : nodeByID kept (sr_NodeID receipt) = Some node) by exact (nodeByID_nodes (core ∅) node (core_fine ∅) ltac:(by left)).
  rewrite Hn. change (clk (AtAnswer (nodeID node))) with now. change (clk (AtAnswer' (nodeID node))) with now.
  assert (Hd : Delete now now node {| dq_ItemID := si_ItemID (set_Work item work); dq_DeleteToken := token |} = Ok deleted).
  { unfold Delete. change (postJSON (w_delete node) _) with (Ok deleted : Result DeleteReceipt). cbv iota beta.
    rewrite !bool_decide_eq_true_2 by done. cbn [node Identity]. rewrite sig_verifies. reflexivity. }
  cbn [d_Item delivery d_DeleteToken]. rewrite Hd. reflexivity.
Qed.

Lemma delete_changes :
  store (set_store (set_reputation kept (reputation kept))
    (Some (delete (deliveryRecordID (si_ItemID item)) (default ∅ (store kept))))) ≠ store kept.
Proof.
  assert (Hx : ∀ k (v : ClientStore.LocalRecord), Some (delete k ({[k := v]} : Mem)) ≠ Some {[k := v]}).
  { intros k v H. apply (inj Some), (f_equal (lookup k)) in H. by rewrite lookup_delete_eq, lookup_singleton_eq in H. }
  exact (Hx _ _).
Qed.

Definition audit_rnd : AuditRandomness := {| ar_rand _ n := Padding.zero_rand n; ar_below _ _ := Ok 0 |}.
Definition request : ProofRequest :=
  {| pq_ItemID := si_ItemID item; pq_Nonce := replicate 32 x00; pq_Offset := 0; pq_Length := 6 |}.

Lemma answered_proof : Prove now now node request = Ok proved.
Proof.
  unfold Prove. change (postJSON (w_proof node) request) with (Ok proved : Result StorageProof). cbv iota.
  change (Verify (Identity node) _ _ _) with
    (Verify (PublicIdentity g) proofDomain (ProofSigningBytes (blank_proof zeroSignature))
       (sig proofDomain (ProofSigningBytes (blank_proof zeroSignature)))).
  rewrite sig_verifies. unfold bytes_equal. rewrite !bool_decide_eq_true_2 by done.
  assert (blen (sp_PayloadHash proved) = Sha256.Size) as -> by exact (f_equal Z.of_nat (Sha256.Sum256_length (si_Payload item))).
  assert (slen (pq_ItemID request) = Sha256.Size * 2) as -> by apply ComputeItemID_slen.
  reflexivity.
Qed.

Definition audited : Core Mem * gmap string (option error) := Audit clk audit_rnd (core ∅) delivery.

Lemma audit_passes : audited.2 !! nodeID node = Some None.
Proof.
  assert (auditNode clk delivery request node = Proved) as Hn.
  { pose proof (auditNode_spec clk delivery request node) as H.
    change (Prove _ _ node request) with (Prove now now node request) in H. rewrite answered_proof in H.
    apply H. split_and!; [vm_compute; discriminate|vm_compute; reflexivity|reflexivity]. }
  unfold audited, Audit. cbn [d_Receipts delivery auditLoop]. unfold auditReceipt.
  assert (nodeByID (core ∅) (sr_NodeID receipt) = Some node) as ->.
  { unfold nodeByID. cbn [core nodes list_find]. by rewrite decide_True by reflexivity. }
  change (ar_rand audit_rnd 0 32) with (Ok (replicate 32 x00) : Result bytes). cbv beta iota zeta.
  change (randomProofOffset _ _ _) with (Ok 0 : Result Z). cbv beta iota.
  change {| pq_ItemID := _; pq_Nonce := _; pq_Offset := _; pq_Length := _ |} with request. rewrite Hn.
  cbn [judge snd]. apply lookup_insert_eq.
Qed.
End Run.

Definition g : HybridSigner := Toy.signer x01.

(** A serialisation of sealed messages: two bytes per byte, and a terminator. *)
Definition spell (l : bytes) : bytes := mjoin ((λ b, [x01; b]) <$> l) ++ [x00].
Fixpoint unspell (l : bytes) : option (bytes * bytes) :=
  match l with
  | x00 :: r => Some ([], r)
  | x01 :: b :: r => '(k, r) ← unspell r; Some (b :: k, r)
  | _ => None
  end.

Lemma unspell_spell (l r : bytes) : unspell (spell l ++ r) = Some (l, r).
Proof. unfold spell. induction l as [|b l IH]; [done|]. csimpl. by rewrite IH. Qed.
Lemma spell_length (l : bytes) : blen (spell l) = 2 * blen l + 1.
Proof.
  unfold spell. rewrite blen_app. change (blen [x00]) with 1.
  induction l as [|b l IH]; [done|]. csimpl in *. rewrite !blen_cons. lia.
Qed.

#[export] Instance m_direct : Marshaler DirectCiphertext := λ m,
  Ok (spell (str_bytes (dc_Suite m)) ++ spell (dc_Encapsulation m) ++ spell (dc_Ciphertext m)).
#[export] Instance d_direct : StrictDecoder DirectCiphertext := λ b,
  match '(s, r) ← unspell b; '(e, r) ← unspell r; '(c, r) ← unspell r; Some (s, e, c) with
  | Some (s, e, c) => Ok {| dc_Suite := bytes_str s; dc_Encapsulation := e; dc_Ciphertext := c |}
  | None => Err "bad message"
  end.

Lemma direct_json : direct_codec.
Proof.
  intros m b _ <-%(inj Ok). split_and!.
  - unfold decodeStrict, d_direct. rewrite unspell_spell. cbn [mbind option_bind]. rewrite unspell_spell. cbn [mbind option_bind].
    rewrite <- (app_nil_r (spell (dc_Ciphertext m))), unspell_spell. cbn [mbind option_bind].
    rewrite bytes_str_of. by destruct m.
  - rewrite !blen_app, !spell_length. pose proof (blen_nonneg (str_bytes (dc_Suite m))).
    pose proof (blen_nonneg (dc_Encapsulation m)). pose proof (blen_nonneg (dc_Ciphertext m)). lia.
  - rewrite !blen_app, !spell_length. pose proof (blen_nonneg (str_bytes (dc_Suite m))).
    pose proof (blen_nonneg (dc_Encapsulation m)). pose proof (blen_nonneg (dc_Ciphertext m)). lia.
Qed.

#[local] Existing Instances Hpke.Toy.hpke Hpke.Toy.laws.
Definition pair : Hpke.HybridKEMKeyPair := {| Hpke.kp_PrivateKey := [x05]; Hpke.kp_PublicKey := [x05] |}.
Definition rnd : Randomness :=
  {| r_route := Padding.zero_rand; r_padding := Padding.zero_rand; r_coins := []; r_token := λ _, Ok token |}.
Definition hello : bytes := str_bytes "hello".
Definition padded : bytes := Eval vm_compute in ok_or [] (Padding.PadMessage Padding.zero_rand hello).
Definition payload : bytes := spell (str_bytes Hpke.HybridHPKESuite) ++ spell [x01] ++ spell (x2a :: padded).
Definition hello_item : StoredItem := newItem Samples.route (Truncate now Millisecond) token payload.

Lemma hello_sealed : sealDirect now rnd (Hpke.kp_PublicKey pair) Samples.route hello = Ok (hello_item, token).
Proof.
  unfold sealDirect. rewrite bool_decide_eq_false_2 by discriminate. change (ValidRouteTag Samples.route) with true.
  change (Padding.PadMessage _ hello) with (Ok padded). reflexivity.
Qed.

Lemma hello_small : blen (si_Payload hello_item) ≤ DefaultMaxItemBytes.
Proof.
  change (si_Payload hello_item) with payload. unfold payload. rewrite !blen_app, !spell_length. vm_compute. discriminate.
Qed.
End Sample.

#[local] Existing Instances Toy.crypto Toy.laws Sample.mem Sample.mem_laws Sample.m_direct Sample.d_direct.

Lemma StoreReplicated_quorum_witness :
  1 ≤ blen (d_Receipts (Sample.delivery Sample.g)) ∧ NoDup (sr_NodeID <$> d_Receipts (Sample.delivery Sample.g)).
Proof.
  destruct (StoreReplicated_quorum Sample.clk 1 (λ _, None) () (Sample.core Sample.g ∅) Sample.item Sample.token
    (Sample.kept Sample.g) (Sample.delivery Sample.g) (Sample.core_fine Sample.g eq_refl ∅)
    (Sample.stored_run Sample.g eq_refl)) as (_ & _ & H & Hn & _).
  split; [exact (proj1 H)|exact Hn].
Defined.

Lemma delivery_kept_witness :
  LoadDelivery (DDelivery := Sample.d_delivery Sample.g) () (Sample.kept Sample.g) (si_ItemID Sample.item) (Sample.now + Hour) = Ok (Sample.delivery Sample.g).
Proof.
  exact (delivery_kept Sample.clk 1 (λ _, None) () () (Sample.core Sample.g ∅) Sample.item Sample.token
    (Sample.kept Sample.g) (Sample.delivery Sample.g) None ∅ (Sample.now + Hour) (Sample.core_fine Sample.g eq_refl ∅)
    eq_refl I (Sample.codec Sample.g) (Sample.delivery_text Sample.g) (Sample.stored_run Sample.g eq_refl)
    (or_introl eq_refl) Sample.clk_before Sample.before_expiry Sample.later_nonzero I).
Defined.

Lemma Fetch_merged_witness : blen [Sample.item] ≤ DefaultMaxFetchItems ∧ NoDup (si_ItemID <$> [Sample.item]).
Proof.
  destruct (Fetch_merged Sample.clk (Sample.core Sample.g ∅) [Samples.route] (Sample.fetched_core Sample.g) [Sample.item]
    (Sample.fetch_run Sample.g)) as (_ & Hn & Hl & _). split; [exact Hl|exact Hn].
Defined.

Lemma DeleteDelivery_keeps_witness :
  si_DeleteTokenHash (d_Item (Sample.delivery Sample.g)) = DeleteTokenHash (d_DeleteToken (Sample.delivery Sample.g)).
Proof.
  destruct (DeleteDelivery_keeps Sample.clk () (Sample.kept Sample.g) (Sample.delivery Sample.g) _ _
    (Sample.delete_run Sample.g eq_refl) (Sample.delete_changes Sample.g)) as [H _]. exact H.
Defined.

#[local] Existing Instances Hpke.Toy.hpke Hpke.Toy.laws.
Lemma direct_roundtrip_witness :
  OpenDirectItem (Hpke.kp_PrivateKey Sample.pair) (set_Work Sample.hello_item Sample.work) = Ok Sample.hello.
Proof.
  destruct (direct_roundtrip (E := ()) (St := Sample.Mem) (HP := Hpke.Toy.hpke) (DParams := Sample.d_params)
    (MItem := Sample.m_item) (DReceipt := Sample.d_receipt Sample.g) (MDelivery := Sample.m_delivery Sample.g) Sample.now Sample.now Sample.rnd [x05] Sample.pair Samples.route
    Sample.hello Sample.hello_item Sample.token Sample.work Sample.direct_json Padding.zero_rand_fills eq_refl) as [H _];
    [|exact Sample.hello_sealed|split; vm_compute; [discriminate|reflexivity]|].
  - intros aad enc ct pt Hs. injection Hs as _ <-. rewrite blen_cons. lia.
  - destruct (H Sample.hello_small) as [_ Ho]. exact Ho.
Defined.

Lemma Audit_proof_witness :
  ∃ proof, sp_Nonce proof = replicate 32 x00 ∧ right_bytes (Sample.delivery Sample.g) Sample.request proof.
Proof.
  destruct (Audit_proof (MProof := Sample.m_proof) (DProof := Sample.d_proof Sample.g) Sample.clk Sample.audit_rnd
    (Sample.core Sample.g ∅) (Sample.delivery Sample.g) [] [] (Sample.receipt Sample.g) (Sample.node Sample.g)
    (Sample.audited Sample.g).1 (Sample.audited Sample.g).2
    (Sample.core_fine Sample.g eq_refl ∅) eq_refl (NoDup_singleton _) (list_elem_of_here _ _) eq_refl
    (surjective_pairing _) ltac:(vm_compute; reflexivity)) as [Hok _].
  destruct (Hok (Sample.audit_passes Sample.g eq_refl)) as (request & proof & Hc & Hnonce & _ & Hright & _).
  change (Ok Sample.request = Ok request) in Hc. apply (inj Ok) in Hc as <-. exists proof. split; [exact Hnonce|exact Hright].
Defined.

End ClientCore.
