(* ===== verification/Account.v ===== *)
(** Accounts and their devices (src/account): device certificates and device-to-device
    synchronisation ([devices.go]), signed public profiles and their resolution through
    an untrusted directory ([profile.go]), and registration with a vault for the
    private keys ([registration.go]). Slices are values here, so the copies the code
    makes before it wipes a buffer are the values copied. *)
From S2P Require Import Prelude Sha256 Encoding Protocol Crypto Identity Hpke.
Import Identity.
Local Open Scope Z_scope.

Module Account.

(** * Devices *)

Definition MaxDevicesPerAccount : Z := 32.
Definition MaxDeviceIDBytes : Z := 128.
Definition MaxSyncEventBytes : Z := 256 * 1024.

Record DeviceCertificate := {
  c_AccountID : string;
  c_Device : DeviceDescriptor;
  c_Signature : HybridSignature;
}.

(** What [certificateBytes] writes. *)
Record UnsignedCertificate := { uc_AccountID : string; uc_Device : DeviceDescriptor }.

Definition noDevice : DeviceDescriptor :=
  {| dd_DeviceID := ""; dd_AccountID := ""; dd_HPKEPublicKey := [];
     dd_SigningKey := {| ni_NodeID := ""; ni_Ed25519Public := []; ni_MLDSA65Public := []; ni_ProtocolVersion := 0 |} |}.
Definition noCertificate : DeviceCertificate :=
  {| c_AccountID := ""; c_Device := noDevice; c_Signature := zeroSignature |}.

(** The device a certificate is for. *)
Definition device_id (c : DeviceCertificate) : string := dd_DeviceID (c_Device c).

Definition validDeviceID (deviceID : string) : bool :=
  (slen deviceID <=? MaxDeviceIDBytes) && ValidDeviceID deviceID.

Definition syncAAD (accountID deviceID : string) : bytes :=
  str_bytes "enig/device-sync/v1" ++ [x00] ++ str_bytes accountID ++ [x00] ++ str_bytes deviceID.

Section Devices.
Context `{C : Crypto} {HP : Hpke.HPKE} {MC : Marshaler UnsignedCertificate}.

Definition validDeviceDescriptor (device : DeviceDescriptor) : bool :=
  validDeviceID (dd_DeviceID device) && ValidAccountID (dd_AccountID device) &&
  ValidPublicIdentity (dd_SigningKey device) &&
  bool_decide (dd_DeviceID device = DeviceID (dd_SigningKey device)) &&
  bool_decide (Hpke.ValidateHybridKEMPublicKey (dd_HPKEPublicKey device) = None).

Definition certificateBytes (certificate : DeviceCertificate) : Result bytes :=
  Marshal {| uc_AccountID := c_AccountID certificate; uc_Device := c_Device certificate |}.

Definition SignDevice (accountSigner : option HybridSigner) (coins : bytes) (device : DeviceDescriptor)
  : Result DeviceCertificate :=
  match accountSigner with
  | None => Err "account signer is required"
  | Some signer =>
      let accountID := AccountID (PublicIdentity signer) in
      if negb (bool_decide (dd_AccountID device = accountID)) || negb (validDeviceDescriptor device)
      then Err "invalid device descriptor"
      else
        let certificate sg := {| c_AccountID := accountID; c_Device := device; c_Signature := sg |} in
        match certificateBytes (certificate zeroSignature) with
        | Err e => Err e
        | Ok message =>
            match Sign signer coins "device-certificate" message with
            | Err e => Err e
            | Ok sg => Ok (certificate sg)
            end
        end
  end.

Definition VerifyDevice (accountPublic : NodePublicIdentity) (certificate : DeviceCertificate) : bool :=
  if negb (ValidPublicIdentity accountPublic) ||
     negb (bool_decide (c_AccountID certificate = AccountID accountPublic)) ||
     negb (bool_decide (dd_AccountID (c_Device certificate) = c_AccountID certificate)) ||
     negb (validDeviceDescriptor (c_Device certificate))
  then false
  else match certificateBytes certificate with
       | Err _ => false
       | Ok message => Verify accountPublic "device-certificate" message (c_Signature certificate)
       end.

(** The loop of [SealSyncEvent]; [coins i] are those of the [i]-th encapsulation. *)
Fixpoint sealLoop (coins : nat → bytes) (accountPublic : NodePublicIdentity) (event : bytes) (i : nat)
    (seen : gset string) (devices : list DeviceCertificate) : Result (list DeviceSyncEnvelope) :=
  match devices with
  | [] => Ok []
  | certificate :: devices =>
      if negb (VerifyDevice accountPublic certificate) then Err "unverified device certificate"
      else if bool_decide (device_id certificate ∈ seen) then Err "duplicate sync device"
      else
        match Hpke.Seal (coins i) (dd_HPKEPublicKey (c_Device certificate))
                (syncAAD (c_AccountID certificate) (device_id certificate)) event with
        | Err e => Err e
        | Ok (encapsulation, ciphertext) =>
            match sealLoop coins accountPublic event (i + 1) ({[device_id certificate]} ∪ seen) devices with
            | Err e => Err e
            | Ok rest =>
                Ok ({| de_DeviceID := device_id certificate;
                       de_Payload := {| dc_Suite := Hpke.HybridHPKESuite; dc_Encapsulation := encapsulation;
                                        dc_Ciphertext := ciphertext |} |} :: rest)
            end
        end
  end.

Definition SealSyncEvent (coins : nat → bytes) (accountPublic : NodePublicIdentity)
    (devices : list DeviceCertificate) (event : bytes) : Result (list DeviceSyncEnvelope) :=
  if negb (ValidPublicIdentity accountPublic) || (blen devices =? 0) || (MaxDevicesPerAccount <? blen devices) ||
     (blen event =? 0) || (MaxSyncEventBytes <? blen event)
  then Err "invalid device sync input"
  else sealLoop coins accountPublic event 0 ∅ devices.

Definition OpenSyncEvent (privateHPKEKey : bytes) (accountID deviceID : string) (envelope : DeviceSyncEnvelope)
  : Result bytes :=
  let payload := de_Payload envelope in
  if bool_decide (accountID = ""%string) || negb (validDeviceID deviceID) ||
     negb (bool_decide (de_DeviceID envelope = deviceID)) ||
     negb (bool_decide (dc_Suite payload = Hpke.HybridHPKESuite)) || (blen (dc_Encapsulation payload) =? 0) ||
     (blen (dc_Ciphertext payload) =? 0) || (MaxSyncEventBytes + 1024 <? blen (dc_Ciphertext payload))
  then Err "device sync envelope mismatch"
  else Hpke.Open privateHPKEKey (dc_Encapsulation payload) (syncAAD accountID deviceID) (dc_Ciphertext payload).

End Devices.

(** * Public profiles *)

Definition ProfileVersion : Z := 1.
Definition MaxPublicProfileBytes : Z := 256 * 1024.

Record PublicProfile := {
  p_Version : Z;     (* uint8 *)
  p_AccountID : string;
  p_AccountPublic : NodePublicIdentity;
  p_Revision : Z;    (* uint64 *)
  p_UpdatedAt : Time;
  p_Devices : list DeviceCertificate;
  p_Signature : HybridSignature;
}.

Definition set_Signature (p : PublicProfile) (sg : HybridSignature) : PublicProfile :=
  {| p_Version := p_Version p; p_AccountID := p_AccountID p; p_AccountPublic := p_AccountPublic p;
     p_Revision := p_Revision p; p_UpdatedAt := p_UpdatedAt p; p_Devices := p_Devices p; p_Signature := sg |}.

Section Profiles.
Context `{C : Crypto} {HP : Hpke.HPKE} {MC : Marshaler UnsignedCertificate}.
Context {MP : Marshaler PublicProfile} {DP : StrictDecoder PublicProfile}.

Definition profileSigningBytes (profile : PublicProfile) : Result bytes :=
  Marshal (set_Signature profile zeroSignature).

(** The certificates are valid and strictly ordered after [previous]. *)
Fixpoint checkDevices (accountPublic : NodePublicIdentity) (previous : string) (l : list DeviceCertificate)
  : option error :=
  match l with
  | [] => None
  | certificate :: l =>
      if negb (str_ltb previous (device_id certificate)) || negb (VerifyDevice accountPublic certificate)
      then Some "invalid or unsorted device certificate"%string
      else checkDevices accountPublic (device_id certificate) l
  end.

Definition validateProfileStructure (profile : PublicProfile) (now : Time) : option error :=
  if negb (p_Version profile =? ProfileVersion) || (p_Revision profile =? 0) ||
     negb (ValidAccountID (p_AccountID profile)) || negb (ValidPublicIdentity (p_AccountPublic profile)) ||
     negb (bool_decide (p_AccountID profile = AccountID (p_AccountPublic profile))) ||
     IsZero (p_UpdatedAt profile) || After (p_UpdatedAt profile) (TAdd now (5 * Minute)) ||
     (blen (p_Devices profile) =? 0) || (MaxDevicesPerAccount <? blen (p_Devices profile))
  then Some "invalid public profile"%string
  else checkDevices (p_AccountPublic profile) "" (p_Devices profile).

Definition SignPublicProfile (accountSigner : option HybridSigner) (coins : bytes) (revision : Z)
    (updatedAt : Time) (devices : list DeviceCertificate) : Result PublicProfile :=
  match accountSigner with
  | None => Err "invalid public profile input"
  | Some signer =>
      if (revision =? 0) || IsZero updatedAt || (blen devices =? 0) || (MaxDevicesPerAccount <? blen devices)
      then Err "invalid public profile input"
      else
        let profile :=
          {| p_Version := ProfileVersion; p_AccountID := AccountID (PublicIdentity signer);
             p_AccountPublic := PublicIdentity signer; p_Revision := revision;
             p_UpdatedAt := Truncate updatedAt Millisecond;
             p_Devices := merge_sort (key_le device_id) devices; p_Signature := zeroSignature |} in
        match validateProfileStructure profile (TAdd (p_UpdatedAt profile) Minute) with
        | Some e => Err e
        | None =>
            match profileSigningBytes profile with
            | Err e => Err e
            | Ok message =>
                match Sign signer coins "account-public-profile" message with
                | Err e => Err e
                | Ok sg => Ok (set_Signature profile sg)
                end
            end
        end
  end.

Definition VerifyPublicProfile (profile : PublicProfile) (now : Time) : option error :=
  match validateProfileStructure profile now with
  | Some e => Some e
  | None =>
      match profileSigningBytes profile with
      | Err _ => Some "invalid public profile signature"%string
      | Ok message =>
          if negb (Verify (p_AccountPublic profile) "account-public-profile" message (p_Signature profile))
          then Some "invalid public profile signature"%string
          else None
      end
  end.

Definition DecodePublicProfile (encoded : bytes) (now : Time) : Result PublicProfile :=
  if (blen encoded =? 0) || (MaxPublicProfileBytes <? blen encoded)
  then Err "public profile size is out of range"
  else match decodeStrict encoded with
  | Err e => Err e
  | Ok profile =>
      match VerifyPublicProfile profile now with
      | Some e => Err e
      | None => Ok profile
      end
  end.

(** [resolver] is the untrusted directory; [None] is a [nil] interface. *)
Definition ResolveVerified (resolver : option (string → Result PublicProfile)) (accountID : string)
    (minimumRevision : Z) (now : Time) : Result PublicProfile :=
  match resolver with
  | None => Err "invalid account profile lookup"
  | Some Resolve =>
      if negb (ValidAccountID accountID) then Err "invalid account profile lookup"
      else match Resolve accountID with
      | Err e => Err e
      | Ok profile =>
          if negb (bool_decide (p_AccountID profile = accountID)) || (p_Revision profile <? minimumRevision)
          then Err "directory returned a substituted or rolled-back profile"
          else match VerifyPublicProfile profile now with
          | Some e => Err ("verify resolved profile: " +:+ e)%string
          | None => Ok profile
          end
      end
  end.

(** The first certificate of the device decides. *)
Fixpoint ProfileContainsDevice_loop (l : list DeviceCertificate) (candidate : DeviceCertificate) : bool :=
  match l with
  | [] => false
  | certificate :: l =>
      if negb (bool_decide (device_id certificate = device_id candidate))
      then ProfileContainsDevice_loop l candidate
      else match certificateBytes certificate, certificateBytes candidate with
           | Ok message, Ok message' =>
               bytes_equal message message' &&
               bytes_equal (hs_Ed25519 (c_Signature certificate)) (hs_Ed25519 (c_Signature candidate)) &&
               bytes_equal (hs_MLDSA65 (c_Signature certificate)) (hs_MLDSA65 (c_Signature candidate))
           | _, _ => false
           end
  end.
Definition ProfileContainsDevice (profile : PublicProfile) (candidate : DeviceCertificate) : bool :=
  ProfileContainsDevice_loop (p_Devices profile) candidate.

(** Copies of every slice: the same values. *)
Definition cloneIdentity (p : NodePublicIdentity) : NodePublicIdentity :=
  {| ni_NodeID := ni_NodeID p; ni_Ed25519Public := ni_Ed25519Public p; ni_MLDSA65Public := ni_MLDSA65Public p;
     ni_ProtocolVersion := ni_ProtocolVersion p |}.
Definition cloneSignature (sg : HybridSignature) : HybridSignature :=
  {| hs_Ed25519 := hs_Ed25519 sg; hs_MLDSA65 := hs_MLDSA65 sg |}.
Definition cloneCertificate (c : DeviceCertificate) : DeviceCertificate :=
  {| c_AccountID := c_AccountID c;
     c_Device := {| dd_DeviceID := dd_DeviceID (c_Device c); dd_AccountID := dd_AccountID (c_Device c);
                    dd_HPKEPublicKey := dd_HPKEPublicKey (c_Device c);
                    dd_SigningKey := cloneIdentity (dd_SigningKey (c_Device c)) |};
     c_Signature := cloneSignature (c_Signature c) |}.
Definition cloneProfile (p : PublicProfile) : PublicProfile :=
  {| p_Version := p_Version p; p_AccountID := p_AccountID p; p_AccountPublic := cloneIdentity (p_AccountPublic p);
     p_Revision := p_Revision p; p_UpdatedAt := p_UpdatedAt p; p_Devices := cloneCertificate <$> p_Devices p;
     p_Signature := cloneSignature (p_Signature p) |}.

Lemma cloneCertificate_id (c : DeviceCertificate) : cloneCertificate c = c.
Proof. by destruct c as [? [? ? ? []] []]. Qed.
Lemma cloneProfile_id (p : PublicProfile) : cloneProfile p = p.
Proof.
  destruct p as [? ? [] ? ? l []]. unfold cloneProfile. cbn. do 2 f_equal.
  induction l as [|c l IH]; [done|]. by rewrite fmap_cons, IH, cloneCertificate_id.
Qed.

End Profiles.

(** * Registration *)

Definition privateRecordVersion : Z := 1.
Definition MaxPrivateRecordBytes : Z := 512 * 1024.

(** [SecretVault], with the state [V] of the vault and what a call finds outside the
    program ([E]: cancellation, the platform). *)
Class SecretVault (E V : Type) := {
  sv_Store : E → V → string → bytes → V * option error;
  sv_Load : E → V → string → Result bytes;
}.

(** Its contract: a value that was stored is loaded again, by a load that works. *)
Class SecretVaultLaws (E V : Type) `{!SecretVault E V} := {
  sv_works : E → Prop;
  sv_load_stored e e' v v' key secret :
    sv_Store e v key secret = (v', None) → sv_works e' → sv_Load e' v' key = Ok secret;
}.

Section Registration.
Context `{C : Crypto} {KG : KeyGen C} {HP : Hpke.HPKE} {MC : Marshaler UnsignedCertificate}.
Context {MP : Marshaler PublicProfile} {DP : StrictDecoder PublicProfile}.

Record privateRecord := {
  pr_Version : Z;  (* uint8 *)
  pr_Profile : PublicProfile;
  pr_AccountSigning : PrivateSigningMaterial;
  pr_DeviceSigning : PrivateSigningMaterial;
  pr_DeviceHPKE : bytes;
}.

Record LocalAccount := {
  profile : PublicProfile;
  accountSigner : HybridSigner;
  deviceSigner : HybridSigner;
  deviceHPKE : bytes;
  deviceCert : DeviceCertificate;
}.

Context {MR : Marshaler privateRecord} {DR : StrictDecoder privateRecord}.
Context {E V : Type} {SV : SecretVault E V}.

Definition newLocalAccount (p : PublicProfile) (s g : HybridSigner) (hpke : bytes) (c : DeviceCertificate) : LocalAccount :=
  {| profile := cloneProfile p; accountSigner := s; deviceSigner := g; deviceHPKE := hpke;
     deviceCert := cloneCertificate c |}.

Definition vaultKey (accountID : string) : string := ("enig/account/v1/" +:+ accountID)%string.

(** The coins of a registration: four key halves, the KEM and two signatures. *)
Record Coins := {
  k_account : bytes * bytes; k_device : bytes * bytes; k_kem : bytes; k_certificate : bytes; k_profile : bytes;
}.

(** The keys, certificate and profile of a new account. *)
Definition createAccount (k : Coins) (now : Time) : Result LocalAccount :=
  match GenerateHybridSigner (k_account k).1 (k_account k).2 with
  | Err e => Err e
  | Ok accountSigner =>
  match GenerateHybridSigner (k_device k).1 (k_device k).2 with
  | Err e => Err e
  | Ok deviceSigner =>
  match Hpke.GenerateHybridKEMKeyPair (k_kem k) with
  | Err e => Err e
  | Ok deviceKEM =>
      let accountID := AccountID (PublicIdentity accountSigner) in
      let devicePublic := PublicIdentity deviceSigner in
      match SignDevice (Some accountSigner) (k_certificate k)
              {| dd_DeviceID := DeviceID devicePublic; dd_AccountID := accountID;
                 dd_HPKEPublicKey := Hpke.kp_PublicKey deviceKEM; dd_SigningKey := devicePublic |} with
      | Err e => Err e
      | Ok certificate =>
      match SignPublicProfile (Some accountSigner) (k_profile k) 1 now [certificate] with
      | Err e => Err e
      | Ok profile =>
          Ok (newLocalAccount profile accountSigner deviceSigner (Hpke.kp_PrivateKey deviceKEM) certificate)
      end end end end end.

Definition recordOf (a : LocalAccount) : privateRecord :=
  {| pr_Version := privateRecordVersion; pr_Profile := profile a;
     pr_AccountSigning := PrivateMaterial (accountSigner a); pr_DeviceSigning := PrivateMaterial (deviceSigner a);
     pr_DeviceHPKE := deviceHPKE a |}.

Definition Register (k : Coins) (now : Time) (e : E) (vault : option V) : option V * Result LocalAccount :=
  match vault with
  | None => (None, Err "protected secret vault is required")
  | Some v =>
      match createAccount k now with
      | Err err => (vault, Err err)
      | Ok account =>
          match Marshal (recordOf account) with
          | Err err => (vault, Err err)
          | Ok encoded =>
              if MaxPrivateRecordBytes <? blen encoded
              then (vault, Err "private account record exceeds size limit")
              else
                let '(v, err) := sv_Store e v (vaultKey (AccountID (PublicIdentity (accountSigner account)))) encoded in
                (Some v, match err with
                         | Some err => Err ("protect account keys: " +:+ err)%string
                         | None => Ok account
                         end)
          end
      end
  end.

Fixpoint profileDevice_loop (l : list DeviceCertificate) (deviceID : string) : option DeviceCertificate :=
  match l with
  | [] => None
  | certificate :: l =>
      if bool_decide (device_id certificate = deviceID) then Some certificate else profileDevice_loop l deviceID
  end.
Definition profileDevice (profile : PublicProfile) (deviceID : string) : option DeviceCertificate :=
  profileDevice_loop (p_Devices profile) deviceID.

Definition sameIdentity (p q : NodePublicIdentity) : bool :=
  bool_decide (ni_NodeID p = ni_NodeID q) && (ni_ProtocolVersion p =? ni_ProtocolVersion q) &&
  bytes_equal (ni_Ed25519Public p) (ni_Ed25519Public q) && bytes_equal (ni_MLDSA65Public p) (ni_MLDSA65Public q).

(** The checks of [Load] on a decoded record. *)
Definition restoreAccount (record : privateRecord) (accountID : string) (now : Time) : Result LocalAccount :=
  if negb (pr_Version record =? privateRecordVersion) ||
     negb (bool_decide (p_AccountID (pr_Profile record) = accountID))
  then Err "private account record identity mismatch"
  else match VerifyPublicProfile (pr_Profile record) now with
  | Some err => Err err
  | None =>
  match NewHybridSigner (pr_AccountSigning record) with
  | Err err => Err err
  | Ok accountSigner =>
  match NewHybridSigner (pr_DeviceSigning record) with
  | Err err => Err err
  | Ok deviceSigner =>
      if negb (bool_decide (AccountID (PublicIdentity accountSigner) = accountID))
      then Err "account private key does not match public profile"
      else match profileDevice (pr_Profile record) (DeviceID (PublicIdentity deviceSigner)) with
      | None => Err "device private key does not match public profile"
      | Some certificate =>
          if negb (sameIdentity (dd_SigningKey (c_Device certificate)) (PublicIdentity deviceSigner))
          then Err "device private key does not match public profile"
          else match Hpke.HybridKEMPublicFromPrivate (pr_DeviceHPKE record) with
          | Err _ => Err "device HPKE private key does not match public profile"
          | Ok publicHPKE =>
              if negb (bytes_equal publicHPKE (dd_HPKEPublicKey (c_Device certificate)))
              then Err "device HPKE private key does not match public profile"
              else Ok (newLocalAccount (pr_Profile record) accountSigner deviceSigner (pr_DeviceHPKE record) certificate)
          end
      end
  end end end.

Definition Load (now : Time) (e : E) (vault : option V) (accountID : string) : Result LocalAccount :=
  match vault with
  | None => Err "valid account ID and protected secret vault are required"
  | Some v =>
      if negb (ValidAccountID accountID) then Err "valid account ID and protected secret vault are required"
      else match sv_Load e v (vaultKey accountID) with
      | Err err => Err ("load protected account keys: " +:+ err)%string
      | Ok encoded =>
          if (blen encoded =? 0) || (MaxPrivateRecordBytes <? blen encoded)
          then Err "private account record size is out of range"
          else match decodeStrict encoded with
          | Err err => Err err
          | Ok record => restoreAccount record accountID now
          end
      end
  end.

Definition ID (account : LocalAccount) : string := p_AccountID (profile account).
Definition Profile (account : LocalAccount) : PublicProfile := cloneProfile (profile account).
Definition LocalCertificate (account : LocalAccount) : DeviceCertificate := cloneCertificate (deviceCert account).
Definition LocalDeviceID (account : LocalAccount) : string := device_id (deviceCert account).

(** [None] is a [nil] account or one without a signer or key. *)
Definition SignDevicePayload (account : option LocalAccount) (coins : bytes) (domain : string) (message : bytes)
  : Result HybridSignature :=
  match account with
  | None => Err "local device signer is unavailable"
  | Some account =>
      if bool_decide (domain = ""%string) then Err "local device signer is unavailable"
      else Sign (deviceSigner account) coins domain message
  end.

Definition OpenDeviceEnvelope (account : option LocalAccount) (encapsulation aad ciphertext : bytes) : Result bytes :=
  match account with
  | None => Err "local device decryption key is unavailable"
  | Some account =>
      if blen (deviceHPKE account) =? 0 then Err "local device decryption key is unavailable"
      else Hpke.Open (deviceHPKE account) encapsulation aad ciphertext
  end.

End Registration.

(** * Certificates and profiles *)

Section Facts.
Context `{C : Crypto} {HP : Hpke.HPKE} {MC : Marshaler UnsignedCertificate}.
Context {MP : Marshaler PublicProfile} {DP : StrictDecoder PublicProfile}.

Lemma validDeviceDescriptor_true (d : DeviceDescriptor) :
  validDeviceDescriptor d = true ↔
  validDeviceID (dd_DeviceID d) = true ∧ ValidAccountID (dd_AccountID d) = true ∧
  ValidPublicIdentity (dd_SigningKey d) = true ∧ dd_DeviceID d = DeviceID (dd_SigningKey d) ∧
  Hpke.ValidateHybridKEMPublicKey (dd_HPKEPublicKey d) = None.
Proof. unfold validDeviceDescriptor. rewrite !andb_true_iff, !bool_decide_eq_true. tauto. Qed.

Record certified (accountPublic : NodePublicIdentity) (c : DeviceCertificate) : Prop := {
  cf_public : ValidPublicIdentity accountPublic = true;
  cf_account : c_AccountID c = AccountID accountPublic;
  cf_same : dd_AccountID (c_Device c) = c_AccountID c;
  cf_device : validDeviceDescriptor (c_Device c) = true;
  cf_signed : ∃ message, certificateBytes c = Ok message ∧
                Verify accountPublic "device-certificate" message (c_Signature c) = true;
}.

Lemma VerifyDevice_true (accountPublic : NodePublicIdentity) (c : DeviceCertificate) :
  VerifyDevice accountPublic c = true ↔ certified accountPublic c.
Proof.
  unfold VerifyDevice. split.
  - intros H. step_if H. unbool. destruct (certificateBytes c) as [m|] eqn:Hm; [|done]. constructor; eauto.
  - intros [-> -> -> -> (m & -> & Hv)]. by rewrite !bool_decide_eq_true_2 by done.
Qed.

(** The certificate an account signs for a device verifies. *)
Lemma SignDevice_certified `{!CryptoLaws C} (s : HybridSigner) (coins : bytes) (d : DeviceDescriptor)
    (c : DeviceCertificate) :
  blen (edPrivate s) = ed25519_PrivateKeySize → SignDevice (Some s) coins d = Ok c →
  c_Device c = d ∧ certified (PublicIdentity s) c.
Proof.
  intros Hs. unfold SignDevice. destruct (negb _ || _)%bool eqn:E; [done|]. unbool.
  destruct (certificateBytes _) as [m|] eqn:Hm; [|done]. destruct (Sign _ _ _ _) as [sg|] eqn:Hsg; [|done].
  intros <-%(inj Ok). split; [done|]. constructor; cbn [c_AccountID c_Device c_Signature]; try done.
  - by apply PublicIdentity_valid.
  - exists m. split; [done|]. eapply (sign_verifies (PrivateMaterial s)); [by apply restore_signer|done].
Qed.

(** ** The order of the certificates *)

Definition id_lt (s t : string) : Prop := str_ltb s t = true.

#[local] Instance id_lt_trans : Transitive id_lt.
Proof. intros s t u. apply str_ltb_trans. Qed.

Lemma checkDevices_None (accountPublic : NodePublicIdentity) (l : list DeviceCertificate) (previous : string) :
  checkDevices accountPublic previous l = None ↔
  Forall (certified accountPublic) l ∧ Sorted id_lt (previous :: (device_id <$> l)).
Proof.
  revert previous. induction l as [|c l IH]; intros previous; cbn [checkDevices].
  - split; [|done]. intros _. repeat constructor.
  - rewrite fmap_cons, list.Forall_cons. destruct (negb _ || _)%bool eqn:E.
    + split; [done|]. intros [[Hc _] Hs]. apply VerifyDevice_true in Hc. rewrite Hc, orb_false_r in E. unbool.
      apply Sorted_inv in Hs as [_ Hr]. inversion Hr as [|? ? Hx]. unfold id_lt in Hx. congruence.
    + unbool. rewrite IH. rewrite VerifyDevice_true in *. split.
      * intros [Hf Hs]. split; [done|]. constructor; [done|]. by constructor.
      * intros [[_ Hf] Hs]. by apply Sorted_inv in Hs as [Hs _].
Qed.

Lemma increasing_NoDup (l : list string) : Sorted id_lt l → NoDup l.
Proof.
  intros Hs%Sorted_StronglySorted; [|apply id_lt_trans]. induction Hs as [|x l _ IH Hall]; constructor; [|done].
  intros Hx. rewrite Forall_forall in Hall. specialize (Hall x). unfold id_lt in Hall.
  rewrite str_ltb_irrefl in Hall. apply list_elem_of_In in Hx. by specialize (Hall Hx).
Qed.

(** Sorting distinct identifiers makes them strictly increasing. *)
Lemma sorted_increasing (l : list DeviceCertificate) :
  NoDup (device_id <$> l) → Forall (λ c, device_id c ≠ ""%string) l →
  Sorted id_lt (""%string :: (device_id <$> merge_sort (key_le device_id) l)).
Proof.
  intros Hnd Hne. pose proof (merge_sort_Permutation (key_le device_id) l) as Hp.
  assert (Hs : StronglySorted (key_le device_id) (merge_sort (key_le device_id) l)) by apply (StronglySorted_merge_sort _).
  rewrite <- Hp in Hnd, Hne. revert Hnd Hne Hs. generalize (merge_sort (key_le device_id) l) as k. clear.
  intros k Hnd Hne Hs. assert (Hk : Sorted id_lt (device_id <$> k)).
  { clear Hne. induction Hs as [|x k Hs IH Hall]; [constructor|]. rewrite fmap_cons in *.
    apply list.NoDup_cons in Hnd as [Hni Hnd]. constructor; [by apply IH|]. destruct k as [|y k]; constructor.
    apply Forall_cons_iff in Hall as [Hxy _]. apply (key_le_lt device_id x y Hxy).
    intros Heq. apply Hni. rewrite Heq. apply list_elem_of_here. }
  constructor; [done|]. destruct k as [|x k]; constructor. apply Forall_cons_iff in Hne as [Hx _].
  unfold id_lt. by destruct (device_id x).
Qed.

(** ** Profiles *)

Record structured (p : PublicProfile) : Prop := {
  st_version : p_Version p = ProfileVersion;
  st_revision : p_Revision p ≠ 0;
  st_id : ValidAccountID (p_AccountID p) = true;
  st_public : ValidPublicIdentity (p_AccountPublic p) = true;
  st_account : p_AccountID p = AccountID (p_AccountPublic p);
  st_updated : p_UpdatedAt p ≠ 0;
  st_count : 0 < blen (p_Devices p) ≤ MaxDevicesPerAccount;
  st_devices : Forall (certified (p_AccountPublic p)) (p_Devices p);
  st_sorted : Sorted id_lt (""%string :: (device_id <$> p_Devices p));
}.

Lemma validateProfileStructure_None (p : PublicProfile) (now : Time) :
  validateProfileStructure p now = None ↔ structured p ∧ p_UpdatedAt p ≤ now + 5 * Minute.
Proof.
  unfold validateProfileStructure, IsZero, After, TAdd. pose proof (blen_nonneg (p_Devices p)). split.
  - intros Hv. destruct (_ || _)%bool eqn:E; [done|]. unbool. apply checkDevices_None in Hv as [? ?].
    split; [constructor|]; try done; lia.
  - intros [[Hver Hrev Hid Hp Hacc Hup Hn Hd Hs] Ht]. rewrite Hver, Hid, Hp. rewrite bool_decide_eq_true_2 by done.
    rewrite (proj2 (Z.eqb_neq (p_Revision p) 0)), (proj2 (Z.eqb_neq (p_UpdatedAt p) 0)),
      (proj2 (Z.ltb_ge (now + _) _)), (proj2 (Z.eqb_neq (blen _) 0)), (proj2 (Z.ltb_ge MaxDevicesPerAccount _)) by lia.
    cbn [negb orb]. by apply checkDevices_None.
Qed.

Definition signed (p : PublicProfile) : Prop :=
  ∃ message, profileSigningBytes p = Ok message ∧
    Verify (p_AccountPublic p) "account-public-profile" message (p_Signature p) = true.

Lemma VerifyPublicProfile_None (p : PublicProfile) (now : Time) :
  VerifyPublicProfile p now = None ↔ (structured p ∧ signed p) ∧ p_UpdatedAt p ≤ now + 5 * Minute.
Proof.
  unfold VerifyPublicProfile, signed. pose proof (validateProfileStructure_None p now) as Hv.
  destruct (validateProfileStructure p now) as [e|].
  - split; [done|]. intros [[? ?] ?]. by rewrite (proj2 Hv).
  - destruct (proj1 Hv eq_refl) as [Hst Hup]. split.
    + intros H. destruct (profileSigningBytes p) as [m|]; [|done]. step_if H. unbool. eauto 10.
    + intros [[_ (m & -> & ->)] _]. done.
Qed.

Lemma profile_NoDup (p : PublicProfile) : structured p → NoDup (device_id <$> p_Devices p).
Proof. intros Hs. pose proof (increasing_NoDup _ (st_sorted _ Hs)) as H. by apply list.NoDup_cons in H as [_ H]. Qed.

(** A profile contains each of its certificates. *)
Lemma ProfileContainsDevice_member (p : PublicProfile) (c : DeviceCertificate) :
  structured p → c ∈ p_Devices p → ProfileContainsDevice p c = true.
Proof.
  intros Hst Hc. pose proof (profile_NoDup p Hst) as Hnd. pose proof (st_devices _ Hst) as Hcert.
  unfold ProfileContainsDevice. revert Hc Hnd Hcert. generalize (p_AccountPublic p) as pub.
  intros pub. induction (p_Devices p) as [|c' l IH]; intros Hc Hnd Hcert; [by apply not_elem_of_nil in Hc|].
  rewrite fmap_cons in Hnd. apply list.NoDup_cons in Hnd as [Hni Hnd]. apply list.Forall_cons in Hcert as [Hc' Hcert].
  cbn [ProfileContainsDevice_loop]. apply elem_of_cons in Hc as [->|Hc].
  - rewrite bool_decide_eq_true_2 by done. destruct Hc' as [_ _ _ _ (m & -> & _)].
    cbn [negb]. by rewrite !(proj2 (bytes_equal_true _ _)) by done.
  - rewrite bool_decide_eq_false_2; [by apply IH|]. intros Heq. apply Hni. rewrite Heq. by apply list_elem_of_fmap_2.
Qed.

Lemma SignPublicProfile_Ok `{!CryptoLaws C} (s : HybridSigner) (coins : bytes) (revision : Z) (updatedAt : Time)
    (devices : list DeviceCertificate) (p : PublicProfile) :
  blen (edPrivate s) = ed25519_PrivateKeySize →
  SignPublicProfile (Some s) coins revision updatedAt devices = Ok p →
  p_AccountPublic p = PublicIdentity s ∧ p_Revision p = revision ∧ p_UpdatedAt p = Truncate updatedAt Millisecond ∧
  p_Devices p = merge_sort (key_le device_id) devices ∧ structured p ∧ signed p.
Proof.
  intros Hs H. unfold SignPublicProfile in H. step_if H. cbv zeta in H. set (q := {| p_Version := _ |}) in H.
  destruct (validateProfileStructure q _) eqn:Hv; [done|]. apply validateProfileStructure_None in Hv as [Hst _].
  destruct (profileSigningBytes q) as [m|] eqn:Hm; [|done]. destruct (Sign s coins _ m) as [sg|] eqn:Hsg; [|done].
  apply (inj Ok) in H as <-. split_and!; [done..|destruct Hst; by constructor|].
  exists m. split; [done|]. eapply (sign_verifies (PrivateMaterial s)); [by apply restore_signer|done].
Qed.

(** Before it is signed. *)
Definition draft (s : HybridSigner) (revision : Z) (updatedAt : Time) (devices : list DeviceCertificate) : PublicProfile :=
  {| p_Version := ProfileVersion; p_AccountID := AccountID (PublicIdentity s);
     p_AccountPublic := PublicIdentity s; p_Revision := revision; p_UpdatedAt := Truncate updatedAt Millisecond;
     p_Devices := merge_sort (key_le device_id) devices; p_Signature := zeroSignature |}.

Lemma draft_structured `{!CryptoLaws C} (s : HybridSigner) (revision : Z) (updatedAt : Time)
    (devices : list DeviceCertificate) :
  blen (edPrivate s) = ed25519_PrivateKeySize → revision ≠ 0 → Truncate updatedAt Millisecond ≠ 0 →
  0 < blen devices ≤ MaxDevicesPerAccount → NoDup (device_id <$> devices) →
  Forall (certified (PublicIdentity s)) devices → structured (draft s revision updatedAt devices).
Proof.
  intros Hs Hrev Htr Hn Hnd Hcert. pose proof (merge_sort_Permutation (key_le device_id) devices) as Hp.
  pose proof (PublicIdentity_valid s Hs) as Hpub. constructor; cbn; try done.
  - by apply AccountID_valid.
  - unfold blen. by rewrite Hp.
  - by rewrite Hp.
  - apply sorted_increasing; [done|]. eapply list.Forall_impl; [exact Hcert|].
    intros c [_ _ _ (Hd & _)%validDeviceDescriptor_true _]. unfold validDeviceID in Hd. unbool. by eapply valid_nonempty.
Qed.

(** Signing good input fails only with the encoding or the signature. *)
Lemma SignPublicProfile_draft (s : HybridSigner) (coins : bytes) (revision : Z) (updatedAt : Time)
    (devices : list DeviceCertificate) :
  updatedAt ≠ 0 → 0 < blen devices ≤ MaxDevicesPerAccount → structured (draft s revision updatedAt devices) →
  SignPublicProfile (Some s) coins revision updatedAt devices =
    match profileSigningBytes (draft s revision updatedAt devices) with
    | Err e => Err e
    | Ok message =>
        match Sign s coins "account-public-profile" message with
        | Err e => Err e
        | Ok sg => Ok (set_Signature (draft s revision updatedAt devices) sg)
        end
    end.
Proof.
  intros Hup Hn Hst. unfold SignPublicProfile, IsZero. pose proof (st_revision _ Hst) as Hrev. cbn in Hrev.
  rewrite (proj2 (Z.eqb_neq revision 0)), (proj2 (Z.eqb_neq updatedAt 0)), (proj2 (Z.eqb_neq (blen devices) 0)),
    (proj2 (Z.ltb_ge MaxDevicesPerAccount _)) by lia. cbn [orb]. cbv zeta. fold (draft s revision updatedAt devices).
  by rewrite (proj2 (validateProfileStructure_None _ _)) by
    (split; [done|unfold TAdd, Minute, Second, Millisecond; lia]).
Qed.

(** A published profile verifies: for distinct certificates that verify under the
    account, [SignPublicProfile] fails only if encoding or signing fails, and the
    profile it returns lists exactly these devices in strictly increasing order and
    passes [VerifyPublicProfile] from five minutes before its date on, for ever. *)
Theorem profile_roundtrip `{!CryptoLaws C} (s : HybridSigner) (coins : bytes) (revision : Z) (updatedAt : Time)
    (devices : list DeviceCertificate) :
  blen (edPrivate s) = ed25519_PrivateKeySize → revision ≠ 0 → updatedAt ≠ 0 → Truncate updatedAt Millisecond ≠ 0 →
  0 < blen devices ≤ MaxDevicesPerAccount → NoDup (device_id <$> devices) →
  Forall (λ c, VerifyDevice (PublicIdentity s) c = true) devices →
  match SignPublicProfile (Some s) coins revision updatedAt devices with
  | Ok p => p_AccountID p = AccountID (PublicIdentity s) ∧ p_Revision p = revision ∧ p_Devices p ≡ₚ devices ∧
      Sorted id_lt (device_id <$> p_Devices p) ∧
      ∀ now, updatedAt - 5 * Minute ≤ now → VerifyPublicProfile p now = None
  | Err e => (∃ p, profileSigningBytes p = Err e) ∨ (∃ m, Sign s coins "account-public-profile" m = Err e)
  end.
Proof.
  intros Hs Hrev Hup Htr Hn Hnd Hv.
  assert (Hst : structured (draft s revision updatedAt devices)).
  { apply draft_structured; try done. eapply list.Forall_impl; [exact Hv|]. intros c. apply VerifyDevice_true. }
  destruct (SignPublicProfile (Some s) coins revision updatedAt devices) as [q|e] eqn:Hsign; cycle 1.
  { rewrite (SignPublicProfile_draft _ _ _ _ _ Hup Hn Hst) in Hsign.
    destruct (profileSigningBytes _) as [m|e'] eqn:Hm; [|left; eexists; rewrite Hm; congruence].
    destruct (Sign s coins _ m) as [sg|e'] eqn:Hsg; [done|right; exists m; congruence]. }
  destruct (SignPublicProfile_Ok s coins revision updatedAt devices q Hs Hsign) as (Hpub & Hr & Hu & Hdev & Hq & Hsg).
  split_and!; [by rewrite (st_account _ Hq), Hpub|done|by rewrite Hdev, merge_sort_Permutation|by pose proof (st_sorted _ Hq) as [? _]%Sorted_inv|].
  intros now Hnow. apply VerifyPublicProfile_None. split; [done|]. rewrite Hu. pose proof (Truncate_le updatedAt). lia.
Qed.

(** C18. The directory is trusted for availability only: whatever the resolver answers, a
    profile that [ResolveVerified] returns is the requested account's, not older
    than the revision the client has seen, signed by the account key with strictly
    between 0 and 33 distinct devices that this key certified; and two profiles
    accepted for one account, from any resolvers at any times, carry one account
    key, or their keys collide under SHA-256. *)
Theorem ResolveVerified_trust resolver (id : string) (minimum : Z) (now : Time) (p : PublicProfile) :
  ResolveVerified resolver id minimum now = Ok p →
  p_AccountID p = id ∧ minimum ≤ p_Revision p ∧ p_UpdatedAt p ≤ now + 5 * Minute ∧
  AccountID (p_AccountPublic p) = id ∧ signed p ∧ 0 < blen (p_Devices p) ≤ MaxDevicesPerAccount ∧
  NoDup (device_id <$> p_Devices p) ∧ Forall (λ c, VerifyDevice (p_AccountPublic p) c = true) (p_Devices p) ∧
  ∀ resolver' minimum' now' q, ResolveVerified resolver' id minimum' now' = Ok q →
    p_AccountPublic p = p_AccountPublic q ∨
    Sha256.collides (keyPreimage "account" (p_AccountPublic p) []) (keyPreimage "account" (p_AccountPublic q) []).
Proof.
  assert (Hres : ∀ resolver minimum now p, ResolveVerified resolver id minimum now = Ok p →
    p_AccountID p = id ∧ minimum ≤ p_Revision p ∧ VerifyPublicProfile p now = None).
  { clear. intros [r|] minimum now p H; [|done]. cbn [ResolveVerified] in H. step_if H. destruct (r id) as [q|]; [|done].
    step_if H. destruct (VerifyPublicProfile q now) eqn:Hv; [done|]. apply (inj Ok) in H as <-. unbool. done. }
  intros (Hid & Hmin & Hv)%Hres. apply VerifyPublicProfile_None in Hv as [[Hst Hsg] Hup].
  pose proof (st_account _ Hst) as Hacc.
  split_and!; [done..|congruence|done|by apply st_count|by apply st_count|by apply profile_NoDup| |].
  - eapply list.Forall_impl; [by apply st_devices|]. intros c. apply VerifyDevice_true.
  - intros resolver' minimum' now' q (Hid' & _ & Hv')%Hres. apply VerifyPublicProfile_None in Hv' as [[Hst' _] _].
    apply AccountID_self_certifying; [by apply st_public..|]. rewrite <- (st_account _ Hst'). congruence.
Qed.

(** ** Synchronisation between devices *)

Lemma sealLoop_sealed (coins : nat → bytes) (pub : NodePublicIdentity) (event : bytes)
    (devices : list DeviceCertificate) (k : nat) (seen : gset string) (l : list DeviceSyncEnvelope) :
  sealLoop coins pub event k seen devices = Ok l →
  length l = length devices ∧ ∀ i c env, devices !! i = Some c → l !! i = Some env →
    certified pub c ∧ de_DeviceID env = device_id c ∧ dc_Suite (de_Payload env) = Hpke.HybridHPKESuite ∧
    Hpke.Seal (coins (k + i)%nat) (dd_HPKEPublicKey (c_Device c)) (syncAAD (c_AccountID c) (device_id c)) event =
      Ok (dc_Encapsulation (de_Payload env), dc_Ciphertext (de_Payload env)).
Proof.
  revert k seen l. induction devices as [|c devices IH]; intros k seen l H; cbn [sealLoop] in H.
  { apply (inj Ok) in H as <-. split; [done|]. by intros i ? ?. }
  step_if H. step_if H. destruct (Hpke.Seal _ _ _ _) as [[enc ct]|] eqn:Hs; [|done].
  destruct (sealLoop _ _ _ _ _ devices) as [rest|] eqn:Hr; [|done]. apply (inj Ok) in H as <-.
  apply IH in Hr as [Hlen Hi]. split; [simpl; lia|]. intros [|i] c' env Hc He; simpl in Hc, He.
  - injection Hc as <-. injection He as <-. unbool. rewrite Nat.add_0_r. split_and!; [by apply VerifyDevice_true|done..].
  - rewrite <- Nat.add_succ_comm, <- (Nat.add_1_r k). by apply Hi.
Qed.

(** C38. A sync event reaches every device: [SealSyncEvent] makes one envelope for each
    certified device, in order, and the device that holds the matching private key
    opens it to the event; under any other device identifier it is refused. The
    ciphertext may exceed the event by the 1024 bytes that the receiver allows. *)
Theorem sync_roundtrip `{!Hpke.HPKELaws HP} (coins : nat → bytes) (kem : bytes) (pair : Hpke.HybridKEMKeyPair)
    (pub : NodePublicIdentity) (devices : list DeviceCertificate) (event : bytes) (l : list DeviceSyncEnvelope) :
  Hpke.GenerateHybridKEMKeyPair kem = Ok pair →
  (∀ r k aad enc ct, Hpke.Seal r k aad event = Ok (enc, ct) → blen ct ≤ blen event + 1024) →
  SealSyncEvent coins pub devices event = Ok l →
  length l = length devices ∧ ∀ i c env, devices !! i = Some c → l !! i = Some env →
    (dd_HPKEPublicKey (c_Device c) = Hpke.kp_PublicKey pair →
       OpenSyncEvent (Hpke.kp_PrivateKey pair) (AccountID pub) (device_id c) env = Ok event) ∧
    ∀ key id, id ≠ device_id c →
      OpenSyncEvent key (AccountID pub) id env = Err "device sync envelope mismatch".
Proof.
  intros Hk Hgrow Hseal. unfold SealSyncEvent in Hseal. step_if Hseal. unbool. apply sealLoop_sealed in Hseal as [Hlen Hi].
  split; [done|]. intros i c env Hc He. destruct (Hi i c env Hc He) as ([Hpub Hacc Hsame Hd _] & Hid & Hsuite & Hs).
  split.
  - intros Hkey. rewrite Hkey in Hs. pose proof (Hgrow _ _ _ _ _ Hs).
    apply (Hpke.Seal_Open _ _ _ _ _ _ _ Hk) in Hs as (He' & Hc' & Hopen).
    apply validDeviceDescriptor_true in Hd as (Hdid & _). unfold OpenSyncEvent, device_id in *.
    rewrite Hdid, Hid, Hsuite, <- Hacc.
    rewrite (bool_decide_eq_false_2 (c_AccountID c = _)) by (rewrite Hacc; eapply valid_nonempty, (AccountID_valid pub Hpub)).
    rewrite !bool_decide_eq_true_2 by done.
    rewrite !(proj2 (Z.eqb_neq _ _)), (proj2 (Z.ltb_ge _ _)) by lia. exact Hopen.
  - intros key id Hne. unfold OpenSyncEvent. rewrite Hid, (bool_decide_eq_false_2 (device_id c = id)) by done.
    cbn [negb]. by rewrite !orb_true_r.
Qed.

End Facts.

(** * Local accounts *)

Section Local.
Context `{C : Crypto} {KG : KeyGen C} {HP : Hpke.HPKE} {MC : Marshaler UnsignedCertificate}.
Context {MP : Marshaler PublicProfile} {DP : StrictDecoder PublicProfile}.
Context {MR : Marshaler privateRecord} {DR : StrictDecoder privateRecord}.

(** The private keys of a local account are those its signed profile announces. *)
Record local_ok (a : LocalAccount) : Prop := {
  lo_size : blen (edPrivate (deviceSigner a)) = ed25519_PrivateKeySize;
  lo_account : AccountID (PublicIdentity (accountSigner a)) = ID a;
  lo_structured : structured (profile a);
  lo_signed : signed (profile a);
  lo_member : deviceCert a ∈ p_Devices (profile a);
  lo_key : dd_SigningKey (c_Device (deviceCert a)) = PublicIdentity (deviceSigner a);
  lo_hpke : Hpke.HybridKEMPublicFromPrivate (deviceHPKE a) = Ok (dd_HPKEPublicKey (c_Device (deviceCert a)));
}.

Lemma newLocalAccount_eq (p : PublicProfile) (s g : HybridSigner) (hpke : bytes) (c : DeviceCertificate) :
  newLocalAccount p s g hpke c =
    {| profile := p; accountSigner := s; deviceSigner := g; deviceHPKE := hpke; deviceCert := c |}.
Proof. unfold newLocalAccount. by rewrite cloneProfile_id, cloneCertificate_id. Qed.

Lemma sameIdentity_true (p q : NodePublicIdentity) : sameIdentity p q = true ↔ p = q.
Proof.
  unfold sameIdentity. rewrite !andb_true_iff, !bool_decide_eq_true, !bytes_equal_true, Z.eqb_eq.
  destruct p, q; simpl. split; [by intros [[[-> ->] ->] ->]|by intros [= -> -> -> ->]].
Qed.

Lemma profileDevice_found (l : list DeviceCertificate) (id : string) (c : DeviceCertificate) :
  profileDevice_loop l id = Some c → c ∈ l ∧ device_id c = id.
Proof.
  induction l as [|c' l IH]; [done|]. cbn [profileDevice_loop]. case_bool_decide.
  - intros [= <-]. split; [apply list_elem_of_here|done].
  - intros [? ?]%IH. split; [by apply list_elem_of_further|done].
Qed.

(** Whatever the vault contains, a restored account is consistent. *)
Lemma restoreAccount_ok (r : privateRecord) (id : string) (now : Time) (a : LocalAccount) :
  restoreAccount r id now = Ok a → local_ok a ∧ ID a = id.
Proof.
  intros H. unfold restoreAccount in H. step_if H. destruct (VerifyPublicProfile _ _) eqn:Hv; [done|].
  apply VerifyPublicProfile_None in Hv as [[Hst Hsg] _].
  destruct (NewHybridSigner (pr_AccountSigning r)) as [s|]; [|done].
  destruct (NewHybridSigner (pr_DeviceSigning r)) as [g|] eqn:Hg; [|done]. step_if H.
  destruct (profileDevice _ _) as [c|] eqn:Hc; [|done]. apply profileDevice_found in Hc as [Hin _]. step_if H.
  destruct (Hpke.HybridKEMPublicFromPrivate _) as [k|] eqn:Hk; [|done]. step_if H. rewrite newLocalAccount_eq in H. apply (inj Ok) in H as <-. unbool.
  rewrite sameIdentity_true, bytes_equal_true in *. split; [|done]. constructor; cbn; try done.
  - unfold NewHybridSigner in Hg. step_if Hg. unbool. destruct (mldsa65_UnmarshalPrivate _); [|done].
    by apply (inj Ok) in Hg as <-.
  - unfold ID. cbn. congruence.
  - congruence.
Qed.

Lemma createAccount_ok `{!CryptoLaws C} `{!Hpke.HPKELaws HP} (k : Coins) (now : Time) (a : LocalAccount) :
  createAccount k now = Ok a →
  local_ok a ∧ blen (edPrivate (accountSigner a)) = ed25519_PrivateKeySize ∧
  p_Devices (profile a) = [deviceCert a] ∧ p_Revision (profile a) = 1 ∧
  p_UpdatedAt (profile a) = Truncate now Millisecond ∧
  device_id (deviceCert a) = DeviceID (PublicIdentity (deviceSigner a)).
Proof.
  unfold createAccount. destruct (GenerateHybridSigner (k_account k).1 _) as [s|] eqn:Hs; [|done].
  destruct (GenerateHybridSigner (k_device k).1 _) as [g|] eqn:Hg; [|done].
  apply generated_size in Hs, Hg. destruct (Hpke.GenerateHybridKEMKeyPair _) as [pair|] eqn:Hk; [|done].
  apply Hpke.key_pair_public in Hk as [_ Hk]; [|done]. cbv zeta.
  destruct (SignDevice _ _ _) as [c|] eqn:Hc; [|done]. apply SignDevice_certified in Hc as [Hd Hc]; [|done].
  destruct (SignPublicProfile _ _ _ _ _) as [p|] eqn:Hp; [|done].
  apply SignPublicProfile_Ok in Hp as (Hpub & Hrev & Hup & Hdev & Hst & Hsg); [|done].
  rewrite newLocalAccount_eq. intros <-%(inj Ok). cbn.
  change (merge_sort (key_le device_id) [c]) with [c] in Hdev.
  split_and!; [|done..|by unfold device_id; rewrite Hd]. constructor; cbn; try done.
  - unfold ID. cbn. by rewrite (st_account _ Hst), Hpub.
  - rewrite Hdev. apply list_elem_of_here.
  - by rewrite Hd.
  - by rewrite Hd.
Qed.

Context {E V : Type} {SV : SecretVault E V}.

(** [encoding/json] on the records of new accounts: read back as written. *)
Definition record_codec : Prop :=
  ∀ k now a b, createAccount k now = Ok a → Marshal (recordOf a) = Ok b →
    0 < blen b ∧ decodeStrict b = Ok (recordOf a).

(** C28. A registered account survives a restart: once [Register] has returned an account,
    [Load] under its identifier gives back exactly that account, private keys
    included, at any time not before five minutes before the registration, and its
    published profile verifies. When [Register] fails before the vault is written,
    the vault is unchanged; and whatever a vault holds, [Load] returns only accounts
    whose private keys match their signed profile. *)
Theorem registered_loads `{!CryptoLaws C} `{!Hpke.HPKELaws HP} {SL : SecretVaultLaws E V} (k : Coins)
    (now later : Time) (e e' : E) (v : V) (vault : option V) (r : Result LocalAccount) :
  record_codec → Register k now e (Some v) = (vault, r) →
  (∀ a, r = Ok a → now - 5 * Minute ≤ later → sv_works e' →
     Load later e' vault (ID a) = Ok a ∧ VerifyPublicProfile (profile a) later = None) ∧
  (∀ err, createAccount k now = Err err → vault = Some v ∧ r = Err err) ∧
  (∀ any id a, Load later e' any id = Ok a → local_ok a ∧ ID a = id).
Proof.
  intros Hcodec Hreg. split_and!.
  - intros a -> Hlater Hworks. unfold Register in Hreg. destruct (createAccount k now) as [a'|] eqn:Ha; [|done].
    destruct (Marshal (recordOf a')) as [b|] eqn:Hb; [|done]. destruct (MaxPrivateRecordBytes <? blen b) eqn:Hlen; [done|].
    destruct (sv_Store e v _ b) as [v' err] eqn:Hst. destruct err; [done|]. injection Hreg as <- ->.
    destruct (Hcodec _ _ _ _ Ha Hb) as [Hpos Hdec].
    apply createAccount_ok in Ha as ([Hsize Hacc Hstr Hsg Hin Hkey Hhpke] & Hs & Hdev & _ & Hup & Hid).
    assert (Hver : VerifyPublicProfile (profile a) later = None).
    { apply VerifyPublicProfile_None. split; [done|]. rewrite Hup. pose proof (Truncate_le now). lia. }
    split; [|done]. unfold Load. unfold ID at 1. rewrite (st_id _ Hstr). cbn [negb].
    rewrite Hacc in Hst. rewrite (sv_load_stored _ _ _ _ _ _ Hst Hworks), Hlen.
    rewrite (proj2 (Z.eqb_neq _ _)) by lia. cbn [orb]. rewrite Hdec. unfold restoreAccount.
    cbn [recordOf pr_Version pr_Profile pr_AccountSigning pr_DeviceSigning pr_DeviceHPKE].
    rewrite (bool_decide_eq_true_2 (p_AccountID (profile a) = ID a)) by done. cbn [negb orb Z.eqb].
    rewrite Hver, !restore_signer, (bool_decide_eq_true_2 _ Hacc) by done. cbn [negb].
    unfold profileDevice. rewrite Hdev. cbn [profileDevice_loop]. rewrite (bool_decide_eq_true_2 _ Hid).
    rewrite (proj2 (sameIdentity_true _ _) Hkey), Hhpke, (proj2 (bytes_equal_true _ _) eq_refl), newLocalAccount_eq. by destruct a.
  - intros err Herr. unfold Register in Hreg. rewrite Herr in Hreg. by injection Hreg as <- <-.
  - intros any id a Hl. destruct any as [w|]; [|done]. unfold Load in Hl. step_if Hl.
    destruct (sv_Load e' w _) as [b|]; [|done]. step_if Hl. destruct (decodeStrict b) as [rec|]; [|done].
    by eapply restoreAccount_ok.
Qed.

End Local.

(** * Witnesses *)

#[export] Instance DeviceDescriptor_eq_dec : EqDecision DeviceDescriptor.
Proof. solve_decision. Defined.
#[export] Instance DeviceCertificate_eq_dec : EqDecision DeviceCertificate.
Proof. solve_decision. Defined.
#[export] Instance PublicProfile_eq_dec : EqDecision PublicProfile.
Proof. solve_decision. Defined.
#[export] Instance PrivateSigningMaterial_eq_dec : EqDecision PrivateSigningMaterial.
Proof. solve_decision. Defined.
#[export] Instance privateRecord_eq_dec : EqDecision privateRecord.
Proof. solve_decision. Defined.

(** One account with one device, over the toy schemes. *)
Module Sample.

#[local] Existing Instances Toy.crypto Toy.laws Toy.keygen Hpke.Toy.hpke Hpke.Toy.laws.
#[export] Instance m_cert : Marshaler UnsignedCertificate := λ _, Ok [x01].
#[export] Instance m_profile : Marshaler PublicProfile := λ _, Ok [x02].

Definition now : Time := Samples.now.
Definition kem : Hpke.HybridKEMKeyPair := {| Hpke.kp_PrivateKey := [x05]; Hpke.kp_PublicKey := [x05] |}.

Section Run.
(** The account key and the device key. *)
Context (s g : HybridSigner) (ks : blen (edPrivate s) = ed25519_PrivateKeySize)
        (kg : blen (edPrivate g) = ed25519_PrivateKeySize).

Definition sig (w : HybridSigner) (domain : string) (m : bytes) : HybridSignature :=
  ok_or zeroSignature (Sign w [] domain m).

Definition descriptor : DeviceDescriptor :=
  {| dd_DeviceID := DeviceID (PublicIdentity g); dd_AccountID := AccountID (PublicIdentity s);
     dd_HPKEPublicKey := [x05]; dd_SigningKey := PublicIdentity g |}.
Definition cert : DeviceCertificate :=
  {| c_AccountID := AccountID (PublicIdentity s); c_Device := descriptor;
     c_Signature := sig s "device-certificate" [x01] |}.

Lemma descriptor_valid : validDeviceDescriptor descriptor = true.
Proof.
  apply validDeviceDescriptor_true. destruct (DeviceID_valid _ (PublicIdentity_valid g kg)) as [Hv Hl].
  split_and!; [|by apply AccountID_valid, PublicIdentity_valid|by apply PublicIdentity_valid|done|done].
  unfold validDeviceID. cbn [descriptor dd_DeviceID]. by rewrite Hv, Hl.
Qed.

Lemma device_signed : SignDevice (Some s) [] descriptor = Ok cert.
Proof.
  unfold SignDevice. cbn [descriptor dd_AccountID]. rewrite (bool_decide_eq_true_2 (_ = _)) by done.
  fold descriptor. by rewrite descriptor_valid.
Qed.

Lemma device_verified : VerifyDevice (PublicIdentity s) cert = true.
Proof. apply VerifyDevice_true. by destruct (SignDevice_certified s [] descriptor cert ks device_signed). Qed.

Definition prof : PublicProfile :=
  set_Signature (draft s 1 now [cert]) (sig s "account-public-profile" [x02]).

Lemma one_device : 0 < blen [cert] ≤ MaxDevicesPerAccount.
Proof. unfold blen, MaxDevicesPerAccount. simpl. lia. Qed.

Lemma draft_fine : structured (draft s 1 now [cert]).
Proof.
  apply draft_structured; [done|done|vm_compute; discriminate|apply one_device|apply NoDup_singleton|].
  constructor; [by apply VerifyDevice_true, device_verified|constructor].
Qed.

Lemma profile_signed : SignPublicProfile (Some s) [] 1 now [cert] = Ok prof.
Proof.
  rewrite SignPublicProfile_draft; [reflexivity|vm_compute; discriminate|apply one_device|apply draft_fine].
Qed.

Lemma certs_distinct : NoDup (device_id <$> [cert]).
Proof. apply NoDup_singleton. Qed.

Lemma certs_verified : Forall (λ c, VerifyDevice (PublicIdentity s) c = true) [cert].
Proof. constructor; [apply device_verified|constructor]. Qed.

Lemma profile_fine : structured prof ∧ signed prof.
Proof. by destruct (SignPublicProfile_Ok s [] 1 now [cert] prof ks profile_signed) as (_ & _ & _ & _ & Hst & Hsg). Qed.

Lemma profile_verified (t : Time) : now - 5 * Minute ≤ t → VerifyPublicProfile prof t = None.
Proof.
  intros Ht. apply VerifyPublicProfile_None. split; [apply profile_fine|].
  change (p_UpdatedAt prof) with (Truncate now Millisecond). pose proof (Truncate_le now). lia.
Qed.

Lemma resolved :
  ResolveVerified (Some (λ _, Ok prof)) (AccountID (PublicIdentity s)) 1 now = Ok prof.
Proof.
  unfold ResolveVerified. rewrite AccountID_valid by (by apply PublicIdentity_valid).
  rewrite bool_decide_eq_true_2 by done. rewrite profile_verified by (unfold Minute, Second, Millisecond; lia). done.
Qed.

Lemma sealed : ∃ env, SealSyncEvent (λ _, []) (PublicIdentity s) [cert] [x2a] = Ok [env].
Proof.
  unfold SealSyncEvent. rewrite (PublicIdentity_valid s ks). cbn [negb orb].
  change (_ || _)%bool with false. cbv beta iota. cbn [sealLoop].
  rewrite device_verified. cbn [negb]. rewrite bool_decide_eq_false_2 by set_solver. eexists. reflexivity.
Qed.

Lemma overhead (r k aad enc ct : bytes) : Hpke.Seal r k aad [x2a] = Ok (enc, ct) → blen ct ≤ blen [x2a] + 1024.
Proof. intros H. injection H as _ <-. vm_compute. discriminate. Qed.

Definition account : LocalAccount :=
  {| profile := prof; accountSigner := s; deviceSigner := g; deviceHPKE := [x05]; deviceCert := cert |}.

#[local] Instance m_record : Marshaler privateRecord :=
  λ r, if decide (r = recordOf account) then Ok [x03] else Err "no sample".
#[local] Instance d_record : StrictDecoder privateRecord := λ _, Ok (recordOf account).

Lemma account_codec : record_codec.
Proof.
  intros k t a b _. unfold Marshal, m_record. destruct (decide _) as [->|]; [|done].
  intros <-%(inj Ok). split; [done|reflexivity].
Qed.

End Run.

Abbreviation Vault := (gmap string bytes).
#[export] Instance vault : SecretVault () Vault :=
  {| sv_Store _ v key secret := (<[key := secret]> v, None);
     sv_Load _ v key := match v !! key with Some b => Ok b | None => Err "not found" end |}.
#[export] Program Instance vault_laws : SecretVaultLaws () Vault := {| sv_works _ := True |}.
Next Obligation.
  intros e e' v v' key secret H _. cbn in *. injection H as <-. by rewrite lookup_insert_eq.
Qed.

(** The signers that the toy key generation makes of these coins. *)
Definition coins (b c : byte) : Coins :=
  {| k_account := (replicate 64 b, replicate 1952 b); k_device := (replicate 64 c, replicate 1952 c);
     k_kem := [x05]; k_certificate := []; k_profile := [] |}.

Lemma generated (b : byte) : GenerateHybridSigner (replicate 64 b) (replicate 1952 b) = Ok (Toy.signer b).
Proof.
  unfold GenerateHybridSigner. cbn [ed25519_GenerateKey mldsa65_GenerateKey Toy.keygen]. unfold Toy.fit.
  rewrite (take_app_length' (replicate 64 b)), (take_app_length' (replicate 1952 b)) by (by rewrite length_replicate).
  change (replicate 1952 b) with (Toy.key_bytes (pqPrivate (Toy.signer b))). by rewrite Toy.unmarshal_bytes.
Qed.

Lemma account_created (b c : byte) : createAccount (coins b c) now = Ok (account (Toy.signer b) (Toy.signer c)).
Proof.
  unfold createAccount. cbn [coins k_account k_device k_kem k_certificate k_profile fst snd]. rewrite !generated.
  change (Hpke.GenerateHybridKEMKeyPair [x05]) with (Ok kem : Result Hpke.HybridKEMKeyPair). cbv beta iota zeta.
  change {| dd_DeviceID := _ |} with (descriptor (Toy.signer b) (Toy.signer c)). rewrite device_signed by done.
  cbv beta iota. by rewrite profile_signed, newLocalAccount_eq.
Qed.

#[local] Existing Instances m_record d_record.

(** The vault after the registration. *)
Definition protected (s : HybridSigner) : Vault := {[vaultKey (AccountID (PublicIdentity s)) := [x03]]}.

Lemma registered (b c : byte) :
  Register (MR := m_record (Toy.signer b) (Toy.signer c)) (coins b c) now () (Some ∅) =
    (Some (protected (Toy.signer b)), Ok (account (Toy.signer b) (Toy.signer c))).
Proof. unfold Register. rewrite account_created. unfold Marshal, m_record. by rewrite decide_True. Qed.

End Sample.

#[local] Existing Instances Toy.crypto Toy.laws Toy.keygen Hpke.Toy.hpke Hpke.Toy.laws.
#[local] Existing Instances Sample.m_cert Sample.m_profile Sample.vault Sample.vault_laws.

Abbreviation s0 := (Toy.signer x01).
Abbreviation g0 := (Toy.signer x02).

Lemma profile_roundtrip_witness :
  VerifyPublicProfile (Sample.prof s0 g0) (Sample.now + Hour) = None.
Proof.
  pose proof (profile_roundtrip s0 [] 1 Sample.now [Sample.cert s0 g0] eq_refl ltac:(discriminate)
    ltac:(vm_compute; discriminate) ltac:(vm_compute; discriminate) (Sample.one_device s0 g0)
    (Sample.certs_distinct s0 g0) (Sample.certs_verified s0 g0 eq_refl eq_refl)) as H.
  rewrite (Sample.profile_signed s0 g0 eq_refl eq_refl) in H.
  destruct H as (_ & _ & _ & _ & H). apply H. vm_compute. discriminate.
Defined.

Lemma ResolveVerified_trust_witness : NoDup (device_id <$> p_Devices (Sample.prof s0 g0)).
Proof.
  destruct (ResolveVerified_trust _ _ _ _ _ (Sample.resolved s0 g0 eq_refl eq_refl)) as (_ & _ & _ & _ & _ & _ & H & _).
  exact H.
Defined.

Lemma sync_roundtrip_witness :
  ∃ env, OpenSyncEvent [x05] (AccountID (PublicIdentity s0)) (device_id (Sample.cert s0 g0)) env = Ok [x2a].
Proof.
  destruct (Sample.sealed s0 g0 eq_refl eq_refl) as [env Hs].
  destruct (sync_roundtrip (HP := Hpke.Toy.hpke) (λ _, []) [x05] Sample.kem (PublicIdentity s0) [Sample.cert s0 g0] [x2a]
    [env] eq_refl Sample.overhead Hs) as [_ H].
  destruct (H 0%nat (Sample.cert s0 g0) env eq_refl eq_refl) as [Ho _]. exists env. exact (Ho eq_refl).
Defined.

Lemma registered_loads_witness :
  Load (DR := Sample.d_record s0 g0) (Sample.now + Hour) () (Some (Sample.protected s0)) (ID (Sample.account s0 g0)) =
    Ok (Sample.account s0 g0).
Proof.
  destruct (registered_loads (MR := Sample.m_record s0 g0) (DR := Sample.d_record s0 g0) (Sample.coins x01 x02)
    Sample.now (Sample.now + Hour) () () ∅ (Some (Sample.protected s0)) (Ok (Sample.account s0 g0))
    (Sample.account_codec s0 g0) (Sample.registered x01 x02)) as [H _].
  destruct (H _ eq_refl) as [Hl _]; [vm_compute; discriminate|exact I|exact Hl].
Defined.

End Account.
