(* ===== verification/Message.v ===== *)
(** Signed application messages (src/message): creation and verification of direct
    messages ([message.go]), the strict pipeline that sends them through a ratchet and
    a metadata-private transport and opens them against a replay store
    ([pipeline.go]), and delivery receipts ([receipt.go]). The ratchet, the transport
    and the replay store are providers outside the program: interfaces here, with the
    contracts their comments state. *)
From S2P Require Import Prelude Sha256 Encoding Protocol Padding Crypto Identity Hpke Account.
Import Identity Account.
Local Open Scope Z_scope.

Module Message.

Definition Version : Z := 1.
Definition MaxBodyBytes : Z := 192 * 1024.
Definition MaxSignedMessageBytes : Z := 300 * 1024.
Definition MaxReceiptBytes : Z := 64 * 1024.
Definition messageIDBytes : Z := 32.
Definition directKind : string := "direct".

Record SignedMessage := {
  m_Version : Z;                (* uint8 *)
  m_Kind : string;
  m_MessageID : string;
  m_SenderID : string;
  m_RecipientID : string;
  m_SenderProfileRevision : Z;  (* uint64 *)
  m_SenderDevice : DeviceCertificate;
  m_CreatedAt : Time;
  m_ExpiresAt : Time;
  m_Body : bytes;
  m_Signature : HybridSignature;
}.

Record VerifiedMessage := { message : SignedMessage }.

Definition set_signature (m : SignedMessage) (sg : HybridSignature) : SignedMessage :=
  {| m_Version := m_Version m; m_Kind := m_Kind m; m_MessageID := m_MessageID m; m_SenderID := m_SenderID m;
     m_RecipientID := m_RecipientID m; m_SenderProfileRevision := m_SenderProfileRevision m;
     m_SenderDevice := m_SenderDevice m; m_CreatedAt := m_CreatedAt m; m_ExpiresAt := m_ExpiresAt m;
     m_Body := m_Body m; m_Signature := sg |}.

Definition noMessage : SignedMessage :=
  {| m_Version := 0; m_Kind := ""; m_MessageID := ""; m_SenderID := ""; m_RecipientID := "";
     m_SenderProfileRevision := 0; m_SenderDevice := noCertificate; m_CreatedAt := 0; m_ExpiresAt := 0;
     m_Body := []; m_Signature := zeroSignature |}.

Definition cloneMessage (m : SignedMessage) : SignedMessage :=
  {| m_Version := m_Version m; m_Kind := m_Kind m; m_MessageID := m_MessageID m; m_SenderID := m_SenderID m;
     m_RecipientID := m_RecipientID m; m_SenderProfileRevision := m_SenderProfileRevision m;
     m_SenderDevice := cloneCertificate (m_SenderDevice m); m_CreatedAt := m_CreatedAt m;
     m_ExpiresAt := m_ExpiresAt m; m_Body := m_Body m; m_Signature := cloneSignature (m_Signature m) |}.

Definition randomMessageID (rand : Z → Result bytes) : Result string :=
  match rand messageIDBytes with
  | Err e => Err e
  | Ok value => Ok (Base64.EncodeToString value)
  end.

Definition validMessageID (messageID : string) : bool :=
  if negb (slen messageID =? Base64.EncodedLen messageIDBytes) then false
  else match Base64.DecodeString messageID with
       | Some decoded => blen decoded =? messageIDBytes
       | None => false
       end.

Section Messages.
Context `{C : Crypto} {HP : Hpke.HPKE} {MC : Marshaler UnsignedCertificate} {MP : Marshaler PublicProfile}.
Context {MM : Marshaler SignedMessage} {DM : StrictDecoder SignedMessage}.

Definition messageSigningBytes (m : SignedMessage) : Result bytes := Marshal (set_signature m zeroSignature).

(** [rand] gives the message identifier, [coins] the signature's randomness. *)
Definition NewDirect (rand : Z → Result bytes) (coins : bytes) (sender : option LocalAccount) (recipientID : string)
    (body : bytes) (now : Time) (retention : Duration) : Result SignedMessage :=
  match sender with
  | None => Err "invalid direct message input"
  | Some account =>
      if negb (ValidAccountID recipientID) || bool_decide (recipientID = ID account) || (blen body =? 0) ||
         (MaxBodyBytes <? blen body) || IsZero now || (retention <=? 0) || (FixedItemRetention <? retention)
      then Err "invalid direct message input"
      else match randomMessageID rand with
      | Err e => Err e
      | Ok messageID =>
          let createdAt := Truncate now Millisecond in
          let m :=
            {| m_Version := Version; m_Kind := directKind; m_MessageID := messageID; m_SenderID := ID account;
               m_RecipientID := recipientID; m_SenderProfileRevision := p_Revision (Profile account);
               m_SenderDevice := LocalCertificate account; m_CreatedAt := createdAt;
               m_ExpiresAt := Truncate (TAdd createdAt retention) Millisecond; m_Body := body;
               m_Signature := zeroSignature |} in
          match messageSigningBytes m with
          | Err e => Err e
          | Ok encoded =>
              if MaxSignedMessageBytes <? blen encoded then Err "signed message exceeds size limit"
              else match SignDevicePayload (Some account) coins "client-direct-message" encoded with
              | Err e => Err e
              | Ok sg => Ok (set_signature m sg)
              end
          end
      end
  end.

Definition validateDirectStructure (m : SignedMessage) (expectedRecipient : string) (now : Time) : option error :=
  if negb (m_Version m =? Version) || negb (bool_decide (m_Kind m = directKind)) ||
     negb (validMessageID (m_MessageID m)) || negb (ValidAccountID (m_SenderID m)) ||
     negb (ValidAccountID (m_RecipientID m)) || bool_decide (m_SenderID m = m_RecipientID m) ||
     negb (bool_decide (m_RecipientID m = expectedRecipient)) || (m_SenderProfileRevision m =? 0) ||
     negb (bool_decide (c_AccountID (m_SenderDevice m) = m_SenderID m)) || (blen (m_Body m) =? 0) ||
     (MaxBodyBytes <? blen (m_Body m)) || IsZero (m_CreatedAt m) || IsZero (m_ExpiresAt m) ||
     After (m_CreatedAt m) (TAdd now (5 * Minute)) || negb (After (m_ExpiresAt m) (m_CreatedAt m)) ||
     (FixedItemRetention <? TSub (m_ExpiresAt m) (m_CreatedAt m)) || After now (TAdd (m_ExpiresAt m) (5 * Minute))
  then Some "invalid direct message"%string
  else None.

Definition VerifyDirect (senderProfile : PublicProfile) (m : SignedMessage) (expectedRecipient : string) (now : Time)
  : Result VerifiedMessage :=
  match validateDirectStructure m expectedRecipient now with
  | Some e => Err e
  | None =>
      if negb (bool_decide (p_AccountID senderProfile = m_SenderID m)) ||
         (p_Revision senderProfile <? m_SenderProfileRevision m) ||
         negb (bool_decide (VerifyPublicProfile senderProfile now = None)) ||
         negb (VerifyDevice (p_AccountPublic senderProfile) (m_SenderDevice m)) ||
         negb (ProfileContainsDevice senderProfile (m_SenderDevice m))
      then Err "message sender is not certified by the ENIG account"
      else match messageSigningBytes m with
      | Err _ => Err "invalid direct message signature"
      | Ok encoded =>
          if (MaxSignedMessageBytes <? blen encoded) ||
             negb (Verify (dd_SigningKey (c_Device (m_SenderDevice m))) "client-direct-message" encoded (m_Signature m))
          then Err "invalid direct message signature"
          else Ok {| message := cloneMessage m |}
      end
  end.

Definition Encode (m : SignedMessage) : Result bytes :=
  match Marshal m with
  | Err e => Err e
  | Ok encoded =>
      if (blen encoded =? 0) || (MaxSignedMessageBytes <? blen encoded)
      then Err "signed message size is out of range"
      else Ok encoded
  end.

Definition Decode (encoded : bytes) : Result SignedMessage :=
  if (blen encoded =? 0) || (MaxSignedMessageBytes <? blen encoded) then Err "signed message size is out of range"
  else match decodeStrict encoded with
  | Err e => Err e
  | Ok m =>
      if (blen (m_Body m) =? 0) || (MaxBodyBytes <? blen (m_Body m)) then Err "message body size is out of range"
      else Ok m
  end.

Definition Digest (m : SignedMessage) : Result bytes :=
  match Encode m with
  | Err e => Err e
  | Ok encoded => Ok (Sha256.Sum256 encoded)
  end.

End Messages.

(** * The strict pipeline *)

Definition MaxRatchetSkippedKeys : Z := 2048.
Definition ErrRatchetProviderRequired : error := "audited PQXDH/Double-or-Triple-Ratchet provider required".
Definition ErrMetadataPrivateTransportRequired : error := "metadata-private mix transport with cover traffic required".
Definition ErrReplayStoreRequired : error := "persistent atomic message replay store required".

Record RatchetSecurity := {
  rs_Protocol : string; rs_IndependentAudit : string; rs_ForwardSecrecy : bool; rs_PostCompromiseSecurity : bool;
  rs_PostQuantumHandshake : bool; rs_UniquePerMessageKeys : bool; rs_DeletesConsumedKeys : bool;
  rs_MaxSkippedMessageKeys : Z;  (* int *)
}.

Record RoutedCiphertext := { rc_RouteTag : string; rc_Payload : bytes; rc_ExpiresAt : Time }.

Record TransportSecurity := {
  ts_Protocol : string; ts_IndependentAudit : string; ts_MixLayers : Z;  (* int *)
  ts_SenderReceiverUnlinkability : bool; ts_CoverTraffic : bool; ts_ConstantRate : bool; ts_Batching : bool;
  ts_AnonymousFetch : bool; ts_FixedSizePackets : bool;
}.

Class RatchetProvider (R : Type) := {
  rt_Security : R → RatchetSecurity;
  rt_Encrypt : R → string → string → bytes → Time → R * Result RoutedCiphertext;
  rt_Decrypt : R → RoutedCiphertext → R * Result bytes;
}.

Class PrivateTransport (T : Type) := {
  tr_Security : T → TransportSecurity;
  tr_Send : T → RoutedCiphertext → T * option error;
}.

(** [E] is what a call to the store finds outside the program, its clock included. *)
Class ReplayStore (E St : Type) := {
  rp_Accept : E → St → string → string → Time → St * option error;
}.

(** The contract: an accepted pair of sender and message is remembered, and refused,
    at least until the expiry it was accepted with. *)
Class ReplayStoreLaws (E St : Type) {RS : ReplayStore E St} := {
  rp_now : E → Time;
  rp_remembers : St → string → string → Time → Prop;
  rp_accepted e s a m t s' : rp_Accept e s a m t = (s', None) → rp_remembers s' a m t;
  rp_kept e s a m t a' m' t' s' r :
    rp_remembers s a m t → rp_now e ≤ t → rp_Accept e s a' m' t' = (s', r) → rp_remembers s' a m t;
  rp_refused e s a m t t' s' r :
    rp_remembers s a m t → rp_now e ≤ t → rp_Accept e s a m t' = (s', r) → r ≠ None;
}.

Section Pipeline.
Context `{C : Crypto} {HP : Hpke.HPKE} {MC : Marshaler UnsignedCertificate} {MP : Marshaler PublicProfile}.
Context {MM : Marshaler SignedMessage} {DM : StrictDecoder SignedMessage}.
Context {R T E St : Type} {RP : RatchetProvider R} {PT : PrivateTransport T} {RS : ReplayStore E St}.

(** A field is [None] while the interface is [nil]. *)
Record StrictPipeline := { ratchet : option R; transport : option T; replays : option St }.

Definition NewStrictPipeline (ratchet : option R) (transport : option T) (replays : option St) : Result StrictPipeline :=
  match ratchet with
  | None => Err ErrRatchetProviderRequired
  | Some r =>
      let sec := rt_Security r in
      if bool_decide (rs_Protocol sec = ""%string) || bool_decide (rs_IndependentAudit sec = ""%string) ||
         negb (rs_ForwardSecrecy sec) || negb (rs_PostCompromiseSecurity sec) || negb (rs_PostQuantumHandshake sec) ||
         negb (rs_UniquePerMessageKeys sec) || negb (rs_DeletesConsumedKeys sec) ||
         (rs_MaxSkippedMessageKeys sec <=? 0) || (MaxRatchetSkippedKeys <? rs_MaxSkippedMessageKeys sec)
      then Err ErrRatchetProviderRequired
      else match transport with
      | None => Err ErrMetadataPrivateTransportRequired
      | Some t =>
          let sec := tr_Security t in
          if bool_decide (ts_Protocol sec = ""%string) || bool_decide (ts_IndependentAudit sec = ""%string) ||
             (ts_MixLayers sec <? 3) || negb (ts_SenderReceiverUnlinkability sec) || negb (ts_CoverTraffic sec) ||
             negb (ts_ConstantRate sec) || negb (ts_Batching sec) || negb (ts_AnonymousFetch sec) ||
             negb (ts_FixedSizePackets sec)
          then Err ErrMetadataPrivateTransportRequired
          else match replays with
          | None => Err ErrReplayStoreRequired
          | Some _ => Ok {| ratchet := ratchet; transport := transport; replays := replays |}
          end
      end
  end.

(** One ciphertext per recipient device. *)
Fixpoint sendLoop (recipientID : string) (plaintext : bytes) (expiresAt : Time) (r : R) (t : T)
    (seenRoutes : gset string) (routed : list RoutedCiphertext) (devices : list DeviceCertificate)
  : R * T * list RoutedCiphertext * option error :=
  match devices with
  | [] => (r, t, routed, None)
  | certificate :: devices =>
      match rt_Encrypt r recipientID (device_id certificate) plaintext expiresAt with
      | (r, Err e) => (r, t, routed, Some e)
      | (r, Ok item) =>
          if negb (ValidRouteTag (rc_RouteTag item)) || (blen (rc_Payload item) =? 0) ||
             (DefaultMaxItemBytes <? blen (rc_Payload item)) || negb (TEqual (rc_ExpiresAt item) expiresAt)
          then (r, t, routed, Some "ratchet provider returned an invalid routed ciphertext"%string)
          else if bool_decide (rc_RouteTag item ∈ seenRoutes)
          then (r, t, routed, Some "ratchet provider reused a route capability"%string)
          else match tr_Send t item with
          | (t, Some e) => (r, t, routed, Some e)
          | (t, None) =>
              sendLoop recipientID plaintext expiresAt r t ({[rc_RouteTag item]} ∪ seenRoutes) (routed ++ [item]) devices
          end
      end
  end.

Definition SendDirect (rand : Z → Result bytes) (coins : bytes) (pipeline : StrictPipeline)
    (sender : option LocalAccount) (recipient : PublicProfile) (body : bytes) (now : Time) (retention : Duration)
  : StrictPipeline * SignedMessage * list RoutedCiphertext * option error :=
  match ratchet pipeline, transport pipeline, sender with
  | Some r, Some t, Some _ =>
      match VerifyPublicProfile recipient now with
      | Some e => (pipeline, noMessage, [], Some ("recipient profile: " +:+ e)%string)
      | None =>
          match NewDirect rand coins sender (p_AccountID recipient) body now retention with
          | Err e => (pipeline, noMessage, [], Some e)
          | Ok m =>
              match Encode m with
              | Err e => (pipeline, noMessage, [], Some e)
              | Ok plaintext =>
                  let '(r, t, routed, e) :=
                    sendLoop (p_AccountID recipient) plaintext (m_ExpiresAt m) r t ∅ [] (p_Devices recipient) in
                  ({| ratchet := Some r; transport := Some t; replays := replays pipeline |}, m, routed, e)
              end
          end
      end
  | _, _, _ => (pipeline, noMessage, [], Some "strict messaging pipeline is unavailable"%string)
  end.

Definition set_ratchet (p : StrictPipeline) (r : R) : StrictPipeline :=
  {| ratchet := Some r; transport := transport p; replays := replays p |}.

Definition OpenDirect (e : E) (pipeline : StrictPipeline) (local : option LocalAccount) (sender : PublicProfile)
    (item : RoutedCiphertext) (now : Time) : StrictPipeline * Result VerifiedMessage :=
  match ratchet pipeline, replays pipeline, local with
  | Some r, Some store, Some account =>
      if negb (ValidRouteTag (rc_RouteTag item)) || (blen (rc_Payload item) =? 0) ||
         (DefaultMaxItemBytes <? blen (rc_Payload item)) || IsZero (rc_ExpiresAt item)
      then (pipeline, Err "invalid routed ciphertext")
      else
        let '(r, decrypted) := rt_Decrypt r item in
        let pipeline := set_ratchet pipeline r in
        match decrypted with
        | Err err => (pipeline, Err err)
        | Ok plaintext =>
            if (blen plaintext =? 0) || (MaxSignedMessageBytes <? blen plaintext)
            then (pipeline, Err "ratchet plaintext size is out of range")
            else match Decode plaintext with
            | Err err => (pipeline, Err err)
            | Ok m =>
                if negb (TEqual (rc_ExpiresAt item) (m_ExpiresAt m)) || negb (ValidAccountID (ID account))
                then (pipeline, Err "ratchet metadata does not match signed message")
                else match VerifyDirect sender m (ID account) now with
                | Err err => (pipeline, Err err)
                | Ok verified =>
                    let '(store, err) := rp_Accept e store (m_SenderID m) (m_MessageID m) (m_ExpiresAt m) in
                    ({| ratchet := ratchet pipeline; transport := transport pipeline; replays := Some store |},
                     match err with
                     | Some err => Err ("reject replayed message: " +:+ err)%string
                     | None => Ok verified
                     end)
                end
            end
        end
  | _, _, _ => (pipeline, Err "invalid routed ciphertext")
  end.

End Pipeline.

(** * Delivery receipts *)

Record DeliveryReceipt := {
  r_Version : Z;                  (* uint8 *)
  r_MessageID : string;
  r_MessageDigest : bytes;
  r_SenderID : string;
  r_RecipientID : string;
  r_ReceiverProfileRevision : Z;  (* uint64 *)
  r_ReceiverDevice : DeviceCertificate;
  r_ReceivedAt : Time;
  r_Signature : HybridSignature;
}.

Definition sign_receipt (r : DeliveryReceipt) (sg : HybridSignature) : DeliveryReceipt :=
  {| r_Version := r_Version r; r_MessageID := r_MessageID r; r_MessageDigest := r_MessageDigest r;
     r_SenderID := r_SenderID r; r_RecipientID := r_RecipientID r;
     r_ReceiverProfileRevision := r_ReceiverProfileRevision r; r_ReceiverDevice := r_ReceiverDevice r;
     r_ReceivedAt := r_ReceivedAt r; r_Signature := sg |}.

Section Receipts.
Context `{C : Crypto} {HP : Hpke.HPKE} {MC : Marshaler UnsignedCertificate} {MP : Marshaler PublicProfile}.
Context {MM : Marshaler SignedMessage} {MD : Marshaler DeliveryReceipt} {DD : StrictDecoder DeliveryReceipt}.

Definition receiptSigningBytes (r : DeliveryReceipt) : Result bytes := Marshal (sign_receipt r zeroSignature).

Definition NewDeliveryReceipt (coins : bytes) (receiver : option LocalAccount) (verified : VerifiedMessage) (now : Time)
  : Result DeliveryReceipt :=
  let m := message verified in
  match receiver with
  | None => Err "receipt receiver does not match verified message"
  | Some account =>
      if bool_decide (m_MessageID m = ""%string) || negb (bool_decide (ID account = m_RecipientID m)) || IsZero now ||
         Before now (TAdd (m_CreatedAt m) (- (5 * Minute))) || After now (TAdd (m_ExpiresAt m) (5 * Minute))
      then Err "receipt receiver does not match verified message"
      else match Digest m with
      | Err e => Err e
      | Ok digest =>
          let receipt :=
            {| r_Version := Version; r_MessageID := m_MessageID m; r_MessageDigest := digest; r_SenderID := ID account;
               r_RecipientID := m_SenderID m; r_ReceiverProfileRevision := p_Revision (Profile account);
               r_ReceiverDevice := LocalCertificate account; r_ReceivedAt := Truncate now Millisecond;
               r_Signature := zeroSignature |} in
          match receiptSigningBytes receipt with
          | Err e => Err e
          | Ok encoded =>
              if MaxReceiptBytes <? blen encoded then Err "delivery receipt exceeds size limit"
              else match SignDevicePayload (Some account) coins "client-delivery-receipt" encoded with
              | Err e => Err e
              | Ok sg => Ok (sign_receipt receipt sg)
              end
          end
      end
  end.

Definition VerifyDeliveryReceipt (receiverProfile : PublicProfile) (r : DeliveryReceipt) (original : SignedMessage)
    (now : Time) : option error :=
  if negb (r_Version r =? Version) || negb (validMessageID (r_MessageID r)) ||
     negb (bool_decide (r_MessageID r = m_MessageID original)) || negb (blen (r_MessageDigest r) =? Sha256.Size) ||
     negb (ValidAccountID (r_SenderID r)) || negb (ValidAccountID (r_RecipientID r)) ||
     negb (bool_decide (r_SenderID r = m_RecipientID original)) ||
     negb (bool_decide (r_RecipientID r = m_SenderID original)) ||
     negb (bool_decide (p_AccountID receiverProfile = r_SenderID r)) || (r_ReceiverProfileRevision r =? 0) ||
     (p_Revision receiverProfile <? r_ReceiverProfileRevision r) ||
     negb (bool_decide (c_AccountID (r_ReceiverDevice r) = r_SenderID r)) || IsZero (r_ReceivedAt r) ||
     Before (r_ReceivedAt r) (TAdd (m_CreatedAt original) (- (5 * Minute))) ||
     After (r_ReceivedAt r) (TAdd (m_ExpiresAt original) (5 * Minute)) ||
     After (r_ReceivedAt r) (TAdd now (5 * Minute))
  then Some "invalid delivery receipt"%string
  else if negb (bool_decide (VerifyPublicProfile receiverProfile now = None)) ||
          negb (VerifyDevice (p_AccountPublic receiverProfile) (r_ReceiverDevice r)) ||
          negb (ProfileContainsDevice receiverProfile (r_ReceiverDevice r))
  then Some "receipt device is not certified by the ENIG account"%string
  else match Digest original with
  | Err _ => Some "delivery receipt message digest mismatch"%string
  | Ok digest =>
      if negb (bytes_equal digest (r_MessageDigest r)) then Some "delivery receipt message digest mismatch"%string
      else match receiptSigningBytes r with
      | Err _ => Some "invalid delivery receipt signature"%string
      | Ok encoded =>
          if (MaxReceiptBytes <? blen encoded) ||
             negb (Verify (dd_SigningKey (c_Device (r_ReceiverDevice r))) "client-delivery-receipt" encoded (r_Signature r))
          then Some "invalid delivery receipt signature"%string
          else None
      end
  end.

Definition EncodeDeliveryReceipt (r : DeliveryReceipt) : Result bytes :=
  match Marshal r with
  | Err e => Err e
  | Ok encoded =>
      if (blen encoded =? 0) || (MaxReceiptBytes <? blen encoded) then Err "delivery receipt size is out of range"
      else Ok encoded
  end.

Definition DecodeDeliveryReceipt (encoded : bytes) : Result DeliveryReceipt :=
  if (blen encoded =? 0) || (MaxReceiptBytes <? blen encoded) then Err "delivery receipt size is out of range"
  else match decodeStrict encoded with
  | Err e => Err e
  | Ok receipt =>
      if negb (validMessageID (r_MessageID receipt)) || negb (blen (r_MessageDigest receipt) =? Sha256.Size)
      then Err "invalid delivery receipt structure"
      else Ok receipt
  end.

End Receipts.

(** * Messages *)

Section MessageFacts.
Context `{C : Crypto} {CL : CryptoLaws C} {HP : Hpke.HPKE} {MC : Marshaler UnsignedCertificate}.
Context {MP : Marshaler PublicProfile} {MM : Marshaler SignedMessage} {DM : StrictDecoder SignedMessage}.

Lemma cloneMessage_id (m : SignedMessage) : cloneMessage m = m.
Proof. destruct m as [? ? ? ? ? ? ? ? ? ? []]. unfold cloneMessage. cbn. by rewrite cloneCertificate_id. Qed.

(** A draw of 32 bytes makes a valid message identifier. *)
Lemma randomMessageID_valid (rand : Z → Result bytes) (id : string) :
  Padding.rand_fills rand → randomMessageID rand = Ok id → validMessageID id = true ∧ id ≠ ""%string.
Proof.
  intros Hr. unfold randomMessageID. destruct (rand messageIDBytes) as [v|] eqn:Hv; [|done]. intros <-%(inj Ok).
  apply Hr in Hv; [|done]. assert (validMessageID (Base64.EncodeToString v) = true) as Hok.
  { unfold validMessageID. rewrite Base64_encode_slen, Base64_decode_encode, Hv. reflexivity. }
  split; [done|]. intros E. by rewrite E in Hok.
Qed.

(** What the profile of a local account says about its device. *)
Lemma local_device (a : LocalAccount) (t : Time) :
  local_ok a → p_UpdatedAt (profile a) ≤ t + 5 * Minute →
  VerifyPublicProfile (profile a) t = None ∧ VerifyDevice (p_AccountPublic (profile a)) (deviceCert a) = true ∧
  ProfileContainsDevice (profile a) (deviceCert a) = true ∧ c_AccountID (deviceCert a) = ID a ∧
  ValidAccountID (ID a) = true.
Proof.
  intros [Hsize Hacc Hst Hsg Hin Hkey Hhpke] Ht. pose proof (proj1 (Forall_forall _ _) (st_devices _ Hst) _ (proj1 (list_elem_of_In _ _) Hin)) as Hc.
  split_and!.
  - by apply VerifyPublicProfile_None.
  - by apply VerifyDevice_true.
  - by apply ProfileContainsDevice_member.
  - rewrite (cf_account _ _ Hc). unfold ID. by rewrite (st_account _ Hst).
  - apply (st_id _ Hst).
Qed.

Lemma local_signature (a : LocalAccount) (coins : bytes) (domain : string) (m : bytes) (sg : HybridSignature) :
  local_ok a → SignDevicePayload (Some a) coins domain m = Ok sg →
  Verify (dd_SigningKey (c_Device (deviceCert a))) domain m sg = true.
Proof.
  intros Ha. unfold SignDevicePayload. case_bool_decide; [done|]. intros Hs. rewrite (lo_key _ Ha).
  eapply (sign_verifies (PrivateMaterial (deviceSigner a))); [apply restore_signer, Ha|done].
Qed.

(** What [NewDirect] returns. *)
Record created (a : LocalAccount) (recipientID : string) (body : bytes) (now : Time) (retention : Duration)
    (m : SignedMessage) : Prop := {
  cr_recipient : ValidAccountID recipientID = true ∧ recipientID ≠ ID a;
  cr_body : 0 < blen body ≤ MaxBodyBytes;
  cr_retention : 0 < retention ≤ FixedItemRetention;
  cr_id : validMessageID (m_MessageID m) = true;
  cr_fields : m_Version m = Version ∧ m_Kind m = directKind ∧ m_SenderID m = ID a ∧ m_RecipientID m = recipientID ∧
    m_SenderProfileRevision m = p_Revision (profile a) ∧ m_SenderDevice m = deviceCert a ∧
    m_CreatedAt m = Truncate now Millisecond ∧ m_ExpiresAt m = Truncate (Truncate now Millisecond + retention) Millisecond ∧
    m_Body m = body;
  cr_signed : ∃ encoded coins, messageSigningBytes m = Ok encoded ∧ blen encoded ≤ MaxSignedMessageBytes ∧
    SignDevicePayload (Some a) coins "client-direct-message" encoded = Ok (m_Signature m);
}.

Lemma NewDirect_created (rand : Z → Result bytes) (coins : bytes) (a : LocalAccount) (recipientID : string)
    (body : bytes) (now : Time) (retention : Duration) (m : SignedMessage) :
  Padding.rand_fills rand → NewDirect rand coins (Some a) recipientID body now retention = Ok m →
  created a recipientID body now retention m.
Proof.
  intros Hr H. unfold NewDirect, Profile, LocalCertificate in H. rewrite cloneProfile_id, cloneCertificate_id in H.
  step_if H. destruct (randomMessageID rand) as [id|] eqn:Hid; [|done].
  apply randomMessageID_valid in Hid as [Hid _]; [|done]. cbv zeta in H. set (m0 := {| m_Version := _ |}) in H.
  destruct (messageSigningBytes m0) as [b|] eqn:Hb; [|done]. step_if H.
  destruct (SignDevicePayload _ _ _ _) as [sg|] eqn:Hsg; [|done]. apply (inj Ok) in H as <-. unbool.
  pose proof (blen_nonneg body). constructor; cbn; try done; try lia. eauto.
Qed.

(** The expiry is after the creation exactly from one millisecond of retention on. *)
Lemma expiry_bounds (now : Time) (retention : Duration) :
  0 < retention → let created := Truncate now Millisecond in
  let expires := Truncate (created + retention) Millisecond in
  created ≤ expires ≤ created + retention ∧ (created < expires ↔ Millisecond ≤ retention).
Proof.
  intros Hr created expires. pose proof (Truncate_aligned now) as Ha. subst expires. fold created in Ha.
  unfold ms_aligned in Ha. unfold Truncate at 1 2 3.
  assert (Hm : (created + retention) `mod` Millisecond = retention `mod` Millisecond).
  { rewrite Z.add_mod, Ha, Z.add_0_l, Z.mod_mod by done. done. }
  rewrite Hm. pose proof (Z.mod_pos_bound retention Millisecond ltac:(done)).
  pose proof (Z.mod_le retention Millisecond ltac:(lia) ltac:(done)). split; [lia|]. split.
  - intros ?. destruct (Z.lt_ge_cases retention Millisecond) as [Hlt|]; [|done].
    rewrite (Z.mod_small retention) in * by lia. lia.
  - intros ?. lia.
Qed.

(** A new message passes the checks of its recipient over its lifetime, if it has one. *)
Lemma created_verifies (a : LocalAccount) (recipientID : string) (body : bytes) (now t : Time) (retention : Duration)
    (m : SignedMessage) :
  local_ok a → created a recipientID body now retention m → 0 < Truncate now Millisecond →
  Truncate now Millisecond - 5 * Minute ≤ t ≤ m_ExpiresAt m + 5 * Minute → p_UpdatedAt (profile a) ≤ t + 5 * Minute →
  VerifyDirect (profile a) m recipientID t =
    if Millisecond <=? retention then Ok {| message := m |} else Err "invalid direct message".
Proof.
  intros Ha [[Hrid Hne] Hbody Hret Hid (Hv & Hk & Hs & Hr & Hrev & Hdev & Hc & Hx & Hb) (enc & coins & Henc & Hlen & Hsg)]
    Hpos Ht Hup.
  destruct (local_device a t Ha Hup) as (Hp & Hd & Hin & Hca & Hida).
  destruct (expiry_bounds now retention ltac:(lia)) as [Hb1 Hb2]. rewrite <- Hc, <- Hx in *.
  pose proof (local_signature a _ _ _ _ Ha Hsg) as Hver. pose proof (st_revision _ (lo_structured _ Ha)) as Hrev0.
  assert (Hstr : validateDirectStructure m recipientID t =
    if Millisecond <=? retention then None else Some "invalid direct message"%string).
  { unfold validateDirectStructure, IsZero, After, TAdd. rewrite Hv, Hk, Hid, Hs, Hr, Hida, Hrid, Hrev, Hdev, Hca, Hb.
    rewrite (bool_decide_eq_false_2 (ID a = recipientID)) by congruence. rewrite !bool_decide_eq_true_2 by done.
    rewrite (proj2 (Z.eqb_neq (p_Revision _) 0)), (proj2 (Z.eqb_neq (blen _) 0)), (proj2 (Z.ltb_ge MaxBodyBytes _)),
      (proj2 (Z.eqb_neq (m_CreatedAt m) 0)), (proj2 (Z.eqb_neq (m_ExpiresAt m) 0)), (proj2 (Z.ltb_ge (t + _) _)),
      (proj2 (Z.ltb_ge (m_ExpiresAt m + _) _)) by (done || lia).
    rewrite (proj2 (Z.ltb_ge FixedItemRetention _)).
    2:{ unfold TSub. unfold FixedItemRetention, Hour, Minute, Second, Millisecond in *. lia. }
    cbn [negb orb Z.eqb]. rewrite !orb_false_r. destruct (Z.leb_spec Millisecond retention) as [Hle|Hlt].
    - by rewrite (proj2 (Z.ltb_lt _ _)) by tauto.
    - rewrite (proj2 (Z.ltb_ge _ _)); [done|]. destruct (Z.lt_ge_cases (m_CreatedAt m) (m_ExpiresAt m)) as [Hl|]; [|done].
      apply Hb2 in Hl. lia. }
  unfold VerifyDirect. rewrite Hstr. destruct (Millisecond <=? retention); [|done].
  rewrite Hs, Hrev, Hdev, Hd, Hin, Henc, Hver. rewrite !bool_decide_eq_true_2 by done. rewrite Z.ltb_irrefl. cbn [negb orb].
  by rewrite (proj2 (Z.ltb_ge _ _)), cloneMessage_id by done.
Qed.

End MessageFacts.

(** * The pipeline *)

Section PipelineFacts.
Context `{C : Crypto} {CL : CryptoLaws C} {HP : Hpke.HPKE} {MC : Marshaler UnsignedCertificate}.
Context {MP : Marshaler PublicProfile} {MM : Marshaler SignedMessage} {DM : StrictDecoder SignedMessage}.
Context {R T E St : Type} {RP : RatchetProvider R} {PT : PrivateTransport T} {RS : ReplayStore E St}.
Implicit Types (p : StrictPipeline (R := R) (T := T) (St := St)).

(** The transport acknowledged these items, in this order. *)
Inductive acked : T → list RoutedCiphertext → T → Prop :=
| acked_nil t : acked t [] t
| acked_snoc t l t1 item t2 : acked t l t1 → tr_Send t1 item = (t2, None) → acked t (l ++ [item]) t2.

Definition routable (expiresAt : Time) (item : RoutedCiphertext) : Prop :=
  ValidRouteTag (rc_RouteTag item) = true ∧ 0 < blen (rc_Payload item) ≤ DefaultMaxItemBytes ∧
  rc_ExpiresAt item = expiresAt.

(** What the loop has done when it has reported [routed]. *)
Record dispatched (expiresAt : Time) (t : T) (routed : list RoutedCiphertext) (t' : T) : Prop := {
  ds_acked : acked t routed t';
  ds_routes : NoDup (rc_RouteTag <$> routed);
  ds_items : Forall (routable expiresAt) routed;
}.

Lemma sendLoop_dispatched (id : string) (plaintext : bytes) (expiresAt : Time) (t0 : T) (devices : list DeviceCertificate)
    (r : R) (t : T) (seen : gset string) (routed : list RoutedCiphertext) r' t' routed' err :
  dispatched expiresAt t0 routed t → (∀ x, x ∈ seen ↔ x ∈ rc_RouteTag <$> routed) →
  sendLoop id plaintext expiresAt r t seen routed devices = (r', t', routed', err) →
  (∃ t1, dispatched expiresAt t0 routed' t1 ∧
     (t' = t1 ∨ ∃ item e, tr_Send t1 item = (t', Some e) ∧ err = Some e)) ∧
  (err = None → blen routed' = blen routed + blen devices).
Proof.
  revert r t seen routed. induction devices as [|c devices IH]; intros r t seen routed Hd Hseen H; cbn [sendLoop] in H.
  { injection H as <- <- <- <-. split; [eauto|]. intros _. unfold blen. simpl. lia. }
  destruct (rt_Encrypt r id _ _ _) as [r1 [item|e]]; cycle 1.
  { injection H as <- <- <- <-. split; [eauto|done]. }
  destruct (negb _ || _ || _ || _)%bool eqn:Hok.
  { injection H as <- <- <- <-. split; [eauto|done]. }
  case_bool_decide as Hdup.
  { injection H as <- <- <- <-. split; [eauto|done]. }
  destruct (tr_Send t item) as [t2 [e|]] eqn:Hsend.
  { injection H as <- <- <- <-. split; [|done]. exists t. split; [done|]. eauto. }
  unfold TEqual in Hok. unbool. pose proof (blen_nonneg (rc_Payload item)). apply IH in H.
  - destruct H as [Hx Hn]. split; [done|]. intros He. rewrite (Hn He), blen_app. unfold blen. simpl. lia.
  - destruct Hd as [Ha Hr Hi]. constructor.
    + by econstructor.
    + rewrite fmap_app. apply list.NoDup_app. split_and!; [done| |apply NoDup_singleton].
      intros x Hx ->%list_elem_of_singleton. apply Hdup. by apply Hseen.
    + apply Forall_app. split; [done|]. constructor; [|constructor]. split_and!; [done|lia|lia|done].
  - intros x. rewrite fmap_app. set_solver.
Qed.

(** refuses before it touches the providers, or runs the loop. *)
Lemma SendDirect_cases (rand : Z → Result bytes) (coins : bytes) p (sender : option LocalAccount)
    (recipient : PublicProfile) (body : bytes) (now : Time) (retention : Duration) (t : T) p' m routed err :
  transport p = Some t → SendDirect rand coins p sender recipient body now retention = (p', m, routed, err) →
  (∃ e, p' = p ∧ routed = [] ∧ err = Some e) ∨
  (∃ r b r' t', structured recipient ∧
     NewDirect rand coins sender (p_AccountID recipient) body now retention = Ok m ∧ Encode m = Ok b ∧
     sendLoop (p_AccountID recipient) b (m_ExpiresAt m) r t ∅ [] (p_Devices recipient) = (r', t', routed, err) ∧
     p' = {| ratchet := Some r'; transport := Some t'; replays := replays p |}).
Proof.
  intros Ht H. unfold SendDirect in H. rewrite Ht in H.
  destruct (ratchet p) as [r|]; [|injection H; eauto]. destruct sender as [a|]; [|injection H; eauto].
  destruct (VerifyPublicProfile recipient now) eqn:Hv; [injection H; eauto|].
  apply VerifyPublicProfile_None in Hv as [[Hst _] _].
  destruct (NewDirect _ _ _ _ _ _ _) as [m0|] eqn:Hm; [|injection H; eauto].
  destruct (Encode m0) as [b|] eqn:Hb; [|injection H; eauto].
  destruct (sendLoop _ _ _ _ _ _ _ _) as [[[r1 t1] l] e] eqn:Hl. injection H as <- <- <- <-. right. eauto 10.
Qed.

(** The list of routed ciphertexts that [SendDirect] returns is exactly what the
    transport has acknowledged, also when it fails half way: at most one further
    send was tried, and that one failed with the error reported. Every ciphertext
    has a valid route of its own and the expiry of the message, and without an error
    there is one for each device of the recipient. *)
Theorem SendDirect_routed (rand : Z → Result bytes) (coins : bytes) p (sender : option LocalAccount)
    (recipient : PublicProfile) (body : bytes) (now : Time) (retention : Duration) (t : T) p' m routed err :
  transport p = Some t → SendDirect rand coins p sender recipient body now retention = (p', m, routed, err) →
  replays p' = replays p ∧ NoDup (rc_RouteTag <$> routed) ∧ Forall (routable (m_ExpiresAt m)) routed ∧
  (∃ t1 t2, acked t routed t1 ∧ transport p' = Some t2 ∧
     (t2 = t1 ∨ ∃ item e, tr_Send t1 item = (t2, Some e) ∧ err = Some e)) ∧
  (err = None → blen routed = blen (p_Devices recipient) ∧ 0 < blen routed ∧
     NewDirect rand coins sender (p_AccountID recipient) body now retention = Ok m).
Proof.
  intros Ht [(e & -> & -> & ->)|(r & b & r1 & t1 & Hst & Hm & _ & Hl & ->)]%(SendDirect_cases _ _ _ _ _ _ _ _ t); [..|done].
  { split_and!; [done|constructor|constructor| |done]. exists t, t. split_and!; [constructor|done|by left]. }
  apply (sendLoop_dispatched _ _ _ t) in Hl as [(t2 & [Ha Hr Hi] & Hsend) Hn]; [|constructor; constructor|set_solver].
  split_and!; [done..|by exists t2, t1|].
  intros He. pose proof (st_count _ Hst). specialize (Hn He). change (blen []) with 0 in Hn. split_and!; [lia|lia|done].
Qed.

(** ** Opening *)

(** An item that carries the message [m] to the account [a]. *)
Record carries (r : R) (item : RoutedCiphertext) (r' : R) (m : SignedMessage) (a : LocalAccount) : Prop := {
  ca_item : routable (m_ExpiresAt m) item;
  ca_expiry : rc_ExpiresAt item ≠ 0;
  ca_local : ValidAccountID (ID a) = true;
  ca_decrypts : ∃ b, rt_Decrypt r item = (r', Ok b) ∧ Decode b = Ok m;
}.

Lemma Decode_sized (b : bytes) (m : SignedMessage) : Decode b = Ok m → 0 < blen b ≤ MaxSignedMessageBytes.
Proof. unfold Decode. intros H. step_if H. unbool. pose proof (blen_nonneg b). lia. Qed.

Lemma VerifyDirect_same (sender : PublicProfile) (m : SignedMessage) (id : string) (now : Time) (v : VerifiedMessage) :
  VerifyDirect sender m id now = Ok v → v = {| message := m |}.
Proof.
  unfold VerifyDirect. intros Hv. destruct (validateDirectStructure _ _ _); [done|]. step_if Hv.
  destruct (messageSigningBytes m); [|done]. step_if Hv. apply (inj Ok) in Hv as <-. by rewrite cloneMessage_id.
Qed.

(** On an item that carries a message, [OpenDirect] verifies and asks the replay store. *)
Lemma OpenDirect_carries (e : E) p (a : LocalAccount) (sender : PublicProfile) (item : RoutedCiphertext) (now : Time)
    r r' m store :
  ratchet p = Some r → replays p = Some store → carries r item r' m a →
  OpenDirect e p (Some a) sender item now =
    match VerifyDirect sender m (ID a) now with
    | Err err => (set_ratchet p r', Err err)
    | Ok verified =>
        let '(store', err) := rp_Accept e store (m_SenderID m) (m_MessageID m) (m_ExpiresAt m) in
        ({| ratchet := Some r'; transport := transport p; replays := Some store' |},
         match err with
         | Some err => Err ("reject replayed message: " +:+ err)%string
         | None => Ok verified
         end)
    end.
Proof.
  intros Hr Hs [(Htag & Hlen & Hexp) Hnz Hid (b & Hdec & Hb)]. pose proof (Decode_sized b m Hb).
  unfold OpenDirect. rewrite Hr, Hs, Htag, Hdec, Hb, Hid. unfold IsZero, TEqual. rewrite Hexp in *.
  rewrite !(proj2 (Z.eqb_neq _ 0)), !(proj2 (Z.ltb_ge _ _)), Z.eqb_refl by lia. reflexivity.
Qed.

(** What happened to the providers during [OpenDirect], and when it accepts. *)
Lemma OpenDirect_run (e : E) p (local : option LocalAccount) (sender : PublicProfile) (item : RoutedCiphertext)
    (now : Time) p' res :
  OpenDirect e p local sender item now = (p', res) →
  (replays p' = replays p ∧ ∃ err, res = Err err) ∨
  (∃ r r' store store' err m a, local = Some a ∧ ratchet p = Some r ∧ ratchet p' = Some r' ∧ carries r item r' m a ∧
     replays p = Some store ∧ replays p' = Some store' ∧
     VerifyDirect sender m (ID a) now = Ok {| message := m |} ∧
     rp_Accept e store (m_SenderID m) (m_MessageID m) (m_ExpiresAt m) = (store', err) ∧
     match err with None => res = Ok {| message := m |} | Some x => ∃ err, res = Err err end).
Proof.
  intros H. unfold OpenDirect in H. destruct (ratchet p) as [r|]; [|left; injection H as <- <-; eauto].
  destruct (replays p) as [store|] eqn:Hst; [|left; injection H as <- <-; eauto].
  destruct local as [a|]; [|left; injection H as <- <-; eauto].
  step_if H; [left; injection H as <- <-; eauto|]. destruct (rt_Decrypt r item) as [r' [b|]] eqn:Hdec;
    [|left; injection H as <- <-; eauto]. step_if H; [left; injection H as <- <-; eauto|].
  destruct (Decode b) as [m|] eqn:Hb; [|left; injection H as <- <-; eauto].
  step_if H; [left; injection H as <- <-; eauto|].
  destruct (VerifyDirect sender m (ID a) now) as [v|] eqn:Hv; [|left; injection H as <- <-; eauto].
  pose proof (VerifyDirect_same _ _ _ _ _ Hv) as ->.
  destruct (rp_Accept e store _ _ _) as [store' err] eqn:Hacc. injection H as <- <-.
  right. exists r, r', store, store', err, m, a. unfold IsZero, TEqual in *. unbool.
  pose proof (blen_nonneg (rc_Payload item)).
  split_and!; try done; [|by destruct err; eauto]. constructor; [split_and!; [done|lia|lia|done]|done|done|eauto].
Qed.

(** ** Replays *)

(** A call of [OpenDirect] on the same device. *)
Record Call := { k_env : E; k_sender : PublicProfile; k_item : RoutedCiphertext; k_now : Time }.

Definition open_call (local : option LocalAccount) p (c : Call) : StrictPipeline * Result VerifiedMessage :=
  OpenDirect (k_env c) p local (k_sender c) (k_item c) (k_now c).
Definition opened (local : option LocalAccount) p (l : list Call) : StrictPipeline :=
  foldl (λ p c, (open_call local p c).1) p l.

Lemma opened_remembers {RL : ReplayStoreLaws E St} (local : option LocalAccount) (l : list Call) p a m t store :
  replays p = Some store → rp_remembers store a m t → (∀ c, c ∈ l → rp_now (k_env c) ≤ t) →
  ∃ store', replays (opened local p l) = Some store' ∧ rp_remembers store' a m t.
Proof.
  revert p store. induction l as [|c l IH]; intros p store Hs Hm Hl; [by exists store|]. cbn [opened foldl].
  destruct (open_call local p c) as [p' res] eqn:Hc. cbn [fst].
  apply OpenDirect_run in Hc as [[Hsame _]|(r & r' & s & s' & err & m0 & a0 & _ & _ & _ & _ & Hs0 & Hs' & _ & Hacc & _)].
  - apply (IH p' store); [congruence|done|]. intros c' ?. apply Hl. by apply list_elem_of_further.
  - apply (IH p' s'); [done| |intros c' ?; apply Hl; by apply list_elem_of_further].
    assert (s = store) as -> by congruence. eapply rp_kept; [exact Hm| |exact Hacc]. apply Hl, list_elem_of_here.
Qed.

Lemma VerifyDirect_expiry (sender : PublicProfile) (m : SignedMessage) (id : string) (now : Time) (v : VerifiedMessage) :
  VerifyDirect sender m id now = Ok v → now ≤ m_ExpiresAt m + 5 * Minute.
Proof.
  unfold VerifyDirect, validateDirectStructure, After, TAdd. intros H. step_if H. unbool. lia.
Qed.

(** C6. A message is delivered once: over any store that keeps the replay contract, whatever is
    opened in between, and as long as the store's clock has not run ahead of the
    time passed to the second opening, a message identifier of one sender is accepted a second time
    only after the accepted message has expired, and then only within the five
    minutes of clock tolerance that [VerifyDirect] grants the second message. *)
Theorem open_once {RL : ReplayStoreLaws E St} (local : option LocalAccount) p (x y : Call) (l : list Call) p1 p2
    (v w : VerifiedMessage) :
  open_call local p x = (p1, Ok v) → open_call local (opened local p1 l) y = (p2, Ok w) →
  m_SenderID (message v) = m_SenderID (message w) → m_MessageID (message v) = m_MessageID (message w) →
  (∀ c, c ∈ l ++ [y] → rp_now (k_env c) ≤ k_now y) →
  m_ExpiresAt (message v) < k_now y ≤ m_ExpiresAt (message w) + 5 * Minute.
Proof.
  intros Hx Hy Hid Hmid Hclock.
  apply OpenDirect_run in Hx as [[_ [? ?]]|(r & r' & s & s' & err & m & a & _ & _ & _ & _ & _ & Hs' & _ & Hacc & Hv)]; [done|].
  destruct err; [by destruct Hv|]. apply (inj Ok) in Hv as ->. cbn [message] in *. apply rp_accepted in Hacc.
  apply OpenDirect_run in Hy as [[_ [? ?]]|(r2 & r2' & s2 & s2' & err2 & m2 & a2 & _ & _ & _ & _ & Hs2 & _ & Hver & Hacc2 & Hw)]; [done|].
  destruct err2; [by destruct Hw|]. apply (inj Ok) in Hw as ->. cbn [message] in *.
  split; [|by apply VerifyDirect_expiry in Hver]. destruct (Z.lt_ge_cases (m_ExpiresAt m) (k_now y)) as [|Hle]; [done|].
  exfalso. destruct (opened_remembers local l p1 _ _ _ s' Hs' Hacc) as (s3 & Hs3 & Hrem).
  { intros c Hc. etrans; [apply Hclock|exact Hle]. by apply elem_of_app; left. }
  assert (s3 = s2) as -> by congruence. rewrite Hid, Hmid in Hrem.
  eapply rp_refused; [exact Hrem| |exact Hacc2|done]. etrans; [apply Hclock|exact Hle]. apply elem_of_app. right. apply list_elem_of_here.
Qed.

(** ** A message from sender to recipient *)

(** [encoding/json] on the messages of consistent accounts: read back as written. *)
Definition message_codec : Prop :=
  ∀ a recipientID body now retention m b,
    local_ok a → created a recipientID body now retention m → Marshal m = Ok b → decodeStrict b = Ok m.

Lemma Encode_Decode (a : LocalAccount) (recipientID : string) (body : bytes) (now : Time) (retention : Duration)
    (m : SignedMessage) (b : bytes) :
  message_codec → local_ok a → created a recipientID body now retention m → Encode m = Ok b → Decode b = Ok m.
Proof.
  intros Hcodec Ha Hcr H. unfold Encode in H. destruct (Marshal m) as [b'|] eqn:Hm; [|done]. step_if H.
  apply (inj Ok) in H as <-. unfold Decode. rewrite Hif, (Hcodec a recipientID body now retention m b') by done.
  destruct Hcr as [_ Hb _ _ (_ & _ & _ & _ & _ & _ & _ & _ & ->) _].
  by rewrite (proj2 (Z.eqb_neq _ _)), (proj2 (Z.ltb_ge _ _)) by lia.
Qed.

(** C27. What [NewDirect] signs, the recipient reads: an item that decrypts to the encoded
    message opens, from five minutes before its creation to five minutes after its
    expiry, to exactly this message, unless the replay store refuses it. The
    message needs a retention of at least a millisecond: [NewDirect] also signs
    shorter ones, whose expiry is rounded down to their creation, and every
    recipient refuses those. *)
Theorem message_roundtrip (rand : Z → Result bytes) (coins : bytes) (a b : LocalAccount) (body plaintext : bytes)
    (now t : Time) (retention : Duration) (m : SignedMessage) (e : E) p r r' store (item : RoutedCiphertext) :
  message_codec → Padding.rand_fills rand → local_ok a → ValidAccountID (ID b) = true → 0 < Truncate now Millisecond →
  NewDirect rand coins (Some a) (ID b) body now retention = Ok m → Encode m = Ok plaintext →
  ratchet p = Some r → replays p = Some store → rt_Decrypt r item = (r', Ok plaintext) → routable (m_ExpiresAt m) item →
  Truncate now Millisecond - 5 * Minute ≤ t ≤ m_ExpiresAt m + 5 * Minute → p_UpdatedAt (profile a) ≤ t + 5 * Minute →
  OpenDirect e p (Some b) (profile a) item t =
    if Millisecond <=? retention then
      let '(store', err) := rp_Accept e store (ID a) (m_MessageID m) (m_ExpiresAt m) in
      ({| ratchet := Some r'; transport := transport p; replays := Some store' |},
       match err with Some err => Err ("reject replayed message: " +:+ err)%string | None => Ok {| message := m |} end)
    else (set_ratchet p r', Err "invalid direct message").
Proof.
  intros Hcodec Hrand Ha Hb Hpos Hnew Henc Hr Hs Hdec Hitem Ht Hup.
  apply NewDirect_created in Hnew as Hcr; [|done]. pose proof (Encode_Decode _ _ _ _ _ _ _ Hcodec Ha Hcr Henc) as Hd.
  destruct (expiry_bounds now retention) as [Hexp _]; [apply (cr_retention _ _ _ _ _ _ Hcr)|].
  pose proof (cr_fields _ _ _ _ _ _ Hcr) as (_ & _ & Hsid & _ & _ & _ & _ & Hx & _). rewrite <- Hx in Hexp.
  rewrite (OpenDirect_carries e p b (profile a) item t r r' m store Hr Hs).
  - rewrite (created_verifies a (ID b) body now t retention m Ha Hcr Hpos Ht Hup), Hsid.
    by destruct (Millisecond <=? retention).
  - constructor; [done| |done|eauto]. destruct Hitem as (_ & _ & ->). lia.
Qed.

End PipelineFacts.

(** * Receipts *)

Section ReceiptFacts.
Context `{C : Crypto} {CL : CryptoLaws C} {HP : Hpke.HPKE} {MC : Marshaler UnsignedCertificate}.
Context {MP : Marshaler PublicProfile} {MM : Marshaler SignedMessage}.
Context {MD : Marshaler DeliveryReceipt} {DD : StrictDecoder DeliveryReceipt}.

Lemma Digest_Ok (m : SignedMessage) (d : bytes) :
  Digest m = Ok d → ∃ b, Encode m = Ok b ∧ d = Sha256.Sum256 b.
Proof. unfold Digest. destruct (Encode m) as [b|]; [|done]. intros <-%(inj Ok). eauto. Qed.

(** Receipts reach the sender and bind the message: the receipt a consistent account
    issues for a message it received verifies against that message, from five
    minutes before its date on, if the message was created on a whole millisecond;
    and no receipt verifies for two messages, whoever signed it, unless their
    encodings collide under SHA-256. *)
Theorem receipt_binding (coins : bytes) (b : LocalAccount) (m : SignedMessage) (now : Time) (r : DeliveryReceipt) :
  (local_ok b → validMessageID (m_MessageID m) = true → ValidAccountID (m_SenderID m) = true →
   ms_aligned (m_CreatedAt m) → Truncate now Millisecond ≠ 0 →
   NewDeliveryReceipt coins (Some b) {| message := m |} now = Ok r →
   ∀ t, now ≤ t + 5 * Minute → p_UpdatedAt (profile b) ≤ t + 5 * Minute →
     VerifyDeliveryReceipt (profile b) r m t = None) ∧
  ∀ q q' m' t t', VerifyDeliveryReceipt q r m t = None → VerifyDeliveryReceipt q' r m' t' = None →
    ∃ x x', Encode m = Ok x ∧ Encode m' = Ok x' ∧ (x = x' ∨ Sha256.collides x x').
Proof.
  split.
  - intros Hb Hid Hsid Hal Hnz H t Ht Hup. unfold NewDeliveryReceipt, Profile, LocalCertificate in H.
    rewrite cloneProfile_id, cloneCertificate_id in H. cbn [message] in H. step_if H.
    destruct (Digest m) as [d|] eqn:Hd; [|done]. cbv zeta in H. set (r0 := {| r_Version := _ |}) in H.
    destruct (receiptSigningBytes r0) as [enc|] eqn:Henc; [|done]. step_if H.
    destruct (SignDevicePayload _ _ _ _) as [sg|] eqn:Hsg; [|done]. apply (inj Ok) in H as <-.
    destruct (local_device b t Hb Hup) as (Hp & Hdev & Hin & Hca & Hida).
    pose proof (local_signature b _ _ _ _ Hb Hsg) as Hver. pose proof (st_revision _ (lo_structured _ Hb)) as Hrev.
    destruct (Digest_Ok m d Hd) as (x & _ & ->). pose proof (Truncate_le now) as Htr.
    assert (Hlow : m_CreatedAt m - 5 * Minute ≤ Truncate now Millisecond).
    { unfold Before, TAdd in *. unbool. unfold ms_aligned, Truncate in *.
      unfold Minute, Second in *. pose proof (Z.div_mod now Millisecond ltac:(done)).
      pose proof (Z.div_mod (m_CreatedAt m) Millisecond ltac:(done)). unfold Millisecond in *.
      pose proof (Z.mod_pos_bound now 1000000 ltac:(done)). lia. }
    unfold VerifyDeliveryReceipt. match goal with |- context [if ?g then _ else _] => destruct g eqn:Hg end.
    { exfalso. unfold r0, Before, After, TAdd, IsZero in *. cbn [sign_receipt r_Version r_MessageID r_MessageDigest
        r_SenderID r_RecipientID r_ReceiverProfileRevision r_ReceiverDevice r_ReceivedAt] in Hg.
      rewrite Sha256.Sum256_blen in Hg. unfold ID in *. refute Hg. }
    unfold r0 in *. cbn [sign_receipt r_ReceiverDevice r_MessageDigest r_Signature]. rewrite Hdev, Hin, Hd.
    rewrite (bool_decide_eq_true_2 _ Hp), (proj2 (bytes_equal_true _ _) eq_refl). cbn [negb orb].
    unfold receiptSigningBytes, sign_receipt in *. cbn in *. by rewrite Henc, Hif0, Hver.
  - assert (Hdig : ∀ q m t, VerifyDeliveryReceipt q r m t = None → ∃ x, Encode m = Ok x ∧ r_MessageDigest r = Sha256.Sum256 x).
    { clear. intros q m t H. unfold VerifyDeliveryReceipt in H. step_if H. step_if H.
      destruct (Digest m) as [d|] eqn:Hd; [|done]. destruct (Digest_Ok m d Hd) as (x & Hx & ->). step_if H. unbool.
      rewrite bytes_equal_true in *. eauto. }
    intros q q' m' t t' (x & Hx & Hr)%Hdig (x' & Hx' & Hr')%Hdig. exists x, x'. split_and!; [done..|].
    apply Sha256.Sum256_inj. congruence.
Qed.

End ReceiptFacts.

(** * Witnesses *)

#[export] Instance SignedMessage_eq_dec : EqDecision SignedMessage.
Proof. solve_decision. Defined.

Module Sample.

(** A replay store for the witnesses: it keeps the contract and forgets an entry
    when a call finds it expired. *)
Abbreviation Seen := (gmap (string * string) Time).

#[export] Instance seen_store : ReplayStore Time Seen := {|
  rp_Accept now s a m t :=
    let s := filter (λ kv, now ≤ kv.2) s in
    match s !! (a, m) with
    | Some _ => (s, Some "replay"%string)
    | None => (<[(a, m) := t]> s, None)
    end;
|}.

#[export] Program Instance seen_laws : ReplayStoreLaws Time Seen := {|
  rp_now now := now;
  rp_remembers s a m t := ∃ t', s !! (a, m) = Some t' ∧ t ≤ t';
|}.
Next Obligation.
  intros e s a m t s' H. cbn in H. destruct (filter _ s !! (a, m)); [done|]. injection H as <-.
  exists t. rewrite lookup_insert_eq. split; [done|lia].
Qed.
Next Obligation.
  intros e s a m t a' m' t' s' r (u & Hu & Ht) He H. cbn in H.
  assert (Hk : filter (λ kv, e ≤ kv.2) s !! (a, m) = Some u) by (apply map_lookup_filter_Some; split; [done|cbn; lia]).
  destruct (filter _ s !! (a', m')) eqn:Hl; injection H as <- _; exists u; [done|].
  rewrite lookup_insert_ne; [done|]. intros [= <- <-]. congruence.
Qed.
Next Obligation.
  intros e s a m t t' s' r (u & Hu & Ht) He H. cbn in H.
  assert (Hk : filter (λ kv, e ≤ kv.2) s !! (a, m) = Some u) by (apply map_lookup_filter_Some; split; [done|cbn; lia]).
  rewrite Hk in H. by injection H as _ <-.
Qed.

#[local] Existing Instances Toy.crypto Toy.laws Hpke.Toy.hpke Hpke.Toy.laws.
#[local] Existing Instances Account.Sample.m_cert Account.Sample.m_profile.

Definition now : Time := Samples.now.
Definition t0 : Time := Eval vm_compute in Truncate now Millisecond.
Definition expiry : Time := t0 + Hour.

(** An account identifier different from [id]. *)
Definition some_id (b : byte) : string := (AccountPrefix +:+ Base32.EncodeToString (replicate 32 b))%string.
Definition other (id : string) : string := if decide (id = some_id x00) then some_id x01 else some_id x00.

Lemma other_valid (id : string) : ValidAccountID (other id) = true.
Proof. unfold other. destruct (decide _); by apply valid_digest. Qed.
Lemma other_ne (id : string) : other id ≠ id.
Proof. unfold other. destruct (decide _) as [->|Hne]; [vm_compute; discriminate|congruence]. Qed.

(** A ratchet that does not encrypt and a transport that keeps what it is given. *)
#[export] Instance ratchet0 : RatchetProvider () := {|
  rt_Security _ := {| rs_Protocol := ""; rs_IndependentAudit := ""; rs_ForwardSecrecy := false;
    rs_PostCompromiseSecurity := false; rs_PostQuantumHandshake := false; rs_UniquePerMessageKeys := false;
    rs_DeletesConsumedKeys := false; rs_MaxSkippedMessageKeys := 0 |};
  rt_Encrypt _ _ _ plaintext t := ((), Ok {| rc_RouteTag := Samples.route; rc_Payload := plaintext; rc_ExpiresAt := t |});
  rt_Decrypt _ item := ((), Ok (rc_Payload item));
|}.
#[export] Instance transport0 : PrivateTransport (list RoutedCiphertext) := {|
  tr_Security _ := {| ts_Protocol := ""; ts_IndependentAudit := ""; ts_MixLayers := 0;
    ts_SenderReceiverUnlinkability := false; ts_CoverTraffic := false; ts_ConstantRate := false; ts_Batching := false;
    ts_AnonymousFetch := false; ts_FixedSizePackets := false |};
  tr_Send t item := (t ++ [item], None);
|}.

Section Run.
Context (s g : HybridSigner) (ks : blen (edPrivate s) = ed25519_PrivateKeySize)
        (kg : blen (edPrivate g) = ed25519_PrivateKeySize).

Definition alice : LocalAccount := Account.Sample.account s g.

Lemma alice_ok : local_ok alice.
Proof.
  destruct (Account.Sample.profile_fine s g ks kg) as [Hst Hsg].
  constructor; try done. unfold alice. cbn. apply list_elem_of_here.
Qed.

(** Her correspondent, of whom only the identifier matters. *)
Definition bob : LocalAccount :=
  {| profile := {| p_Version := 1; p_AccountID := other (ID alice); p_AccountPublic := PublicIdentity g; p_Revision := 1;
                   p_UpdatedAt := now; p_Devices := []; p_Signature := zeroSignature |};
     accountSigner := s; deviceSigner := g; deviceHPKE := []; deviceCert := noCertificate |}.

Lemma bob_id : ValidAccountID (ID bob) = true.
Proof. apply other_valid. Qed.
Lemma alice_updated (t : Time) : t0 ≤ t + 5 * Minute → p_UpdatedAt (profile alice) ≤ t + 5 * Minute.
Proof. done. Qed.

Definition draft : SignedMessage :=
  {| m_Version := Version; m_Kind := directKind; m_MessageID := Base64.EncodeToString (replicate 32 x00);
     m_SenderID := ID alice; m_RecipientID := ID bob; m_SenderProfileRevision := 1;
     m_SenderDevice := deviceCert alice; m_CreatedAt := t0; m_ExpiresAt := expiry; m_Body := [x2a];
     m_Signature := zeroSignature |}.
Definition hello : SignedMessage :=
  set_signature draft (Account.Sample.sig g "client-direct-message" [x03]).

#[local] Instance m_message : Marshaler SignedMessage := λ m,
  if decide (m = draft) then Ok [x03] else if decide (m = hello) then Ok [x04] else Err "no sample".
#[local] Instance d_message : StrictDecoder SignedMessage := λ b,
  if decide (b = [x03]) then Ok draft else Ok hello.

Lemma sample_codec : message_codec.
Proof.
  intros a id body t ret m b _ _. unfold Marshal, m_message, decodeStrict, d_message.
  destruct (decide (m = draft)) as [->|]; [by intros <-%(inj Ok)|].
  destruct (decide (m = hello)) as [->|]; [by intros <-%(inj Ok)|done].
Qed.

Lemma marshal_draft : Marshal draft = Ok [x03].
Proof. unfold Marshal, m_message. by rewrite decide_True. Qed.
Lemma hello_unsigned : set_signature hello zeroSignature = draft.
Proof. done. Qed.

Lemma written : NewDirect Padding.zero_rand [] (Some alice) (ID bob) [x2a] now Hour = Ok hello.
Proof.
  unfold NewDirect, Profile, LocalCertificate. rewrite cloneProfile_id, cloneCertificate_id.
  change (ValidAccountID (ID bob)) with (ValidAccountID (other (ID alice))). rewrite other_valid.
  rewrite bool_decide_eq_false_2 by apply other_ne. change (_ || _)%bool with false. cbv beta iota.
  change (randomMessageID Padding.zero_rand) with (Ok (Base64.EncodeToString (replicate 32 x00)) : Result string).
  cbv beta iota zeta. change (Truncate now Millisecond) with t0.
  change (Truncate (TAdd t0 Hour) Millisecond) with expiry. change (p_Revision (profile alice)) with 1.
  fold draft. unfold messageSigningBytes. change (set_signature draft zeroSignature) with draft. rewrite marshal_draft.
  reflexivity.
Qed.

Definition item : RoutedCiphertext := {| rc_RouteTag := Samples.route; rc_Payload := [x04]; rc_ExpiresAt := expiry |}.

Lemma hello_ne : hello ≠ draft.
Proof.
  intros E. apply (f_equal (λ m, blen (hs_Ed25519 (m_Signature m)))) in E.
  change (blen (hs_Ed25519 (m_Signature hello))) with
    (blen (ed25519_Sign (edPrivate g) (domainMessage "client-direct-message" [x03]))) in E.
  rewrite ed_sign_size in E by done. discriminate E.
Qed.

Lemma encoded : Encode hello = Ok [x04].
Proof.
  unfold Encode, Marshal, m_message. destruct (decide (hello = draft)) as [E|_]; [by destruct hello_ne|].
  by rewrite decide_True.
Qed.

Lemma decoded : Decode [x04] = Ok hello.
Proof. reflexivity. Qed.

Lemma hello_created : created alice (ID bob) [x2a] now Hour hello.
Proof. apply (NewDirect_created Padding.zero_rand []); [apply Padding.zero_rand_fills|apply written]. Qed.

Lemma hello_verified (t : Time) :
  t0 - 5 * Minute ≤ t ≤ expiry + 5 * Minute → VerifyDirect (profile alice) hello (ID bob) t = Ok {| message := hello |}.
Proof.
  intros Ht. rewrite (created_verifies alice (ID bob) [x2a] now t Hour hello alice_ok hello_created); [done|done|exact Ht|].
  change (p_UpdatedAt (profile alice)) with t0. lia.
Qed.

Lemma item_carries : carries () item () hello bob.
Proof.
  constructor; [|done| |].
  - split_and!; [vm_compute; reflexivity|vm_compute; reflexivity|vm_compute; discriminate|done].
  - apply other_valid.
  - exists [x04]. split; [done|apply decoded].
Qed.

(** The pipeline with a replay store in the state [seen]. *)
Definition pipeline (seen : Seen) : StrictPipeline (R := ()) (T := list RoutedCiphertext) (St := Seen) :=
  {| ratchet := Some (); transport := Some []; replays := Some seen |}.
Definition accepted : Seen := {[(ID alice, m_MessageID hello) := expiry]}.

Lemma opens : OpenDirect now (pipeline ∅) (Some bob) (profile alice) item now = (pipeline accepted, Ok {| message := hello |}).
Proof.
  rewrite (OpenDirect_carries now (pipeline ∅) bob (profile alice) item now () () hello ∅ eq_refl eq_refl item_carries).
  rewrite hello_verified by (vm_compute; split; discriminate). cbn [rp_Accept seen_store].
  rewrite map_filter_empty, lookup_empty. reflexivity.
Qed.

Lemma first_answer :
  (let '(store', err) := rp_Accept now (∅ : Seen) (ID alice) (m_MessageID hello) (m_ExpiresAt hello) in
   ({| ratchet := Some (); transport := transport (pipeline ∅); replays := Some store' |},
    match err with Some err => Err ("reject replayed message: " +:+ err)%string | None => Ok {| message := hello |} end)) =
  (pipeline accepted, Ok {| message := hello |}).
Proof. cbn [rp_Accept seen_store]. rewrite map_filter_empty, lookup_empty. reflexivity. Qed.

Lemma item_routable : routable (m_ExpiresAt hello) item.
Proof. apply item_carries. Qed.

Definition late : Time := expiry + Minute.

Lemma opens_again : OpenDirect late (pipeline accepted) (Some bob) (profile alice) item late = (pipeline accepted, Ok {| message := hello |}).
Proof.
  rewrite (OpenDirect_carries late (pipeline accepted) bob (profile alice) item late () () hello accepted eq_refl eq_refl item_carries).
  rewrite hello_verified by (vm_compute; split; discriminate). cbn [rp_Accept seen_store].
  assert (filter (λ kv, late ≤ kv.2) accepted = ∅) as ->.
  { unfold accepted. apply map_filter_singleton_False. cbn. vm_compute. intros H. by apply H. }
  rewrite lookup_empty. reflexivity.
Qed.

(** A message to Alice, and her receipt. *)
Definition incoming : SignedMessage :=
  {| m_Version := Version; m_Kind := directKind; m_MessageID := Base64.EncodeToString (replicate 32 x00);
     m_SenderID := other (ID alice); m_RecipientID := ID alice; m_SenderProfileRevision := 1;
     m_SenderDevice := noCertificate; m_CreatedAt := t0; m_ExpiresAt := expiry; m_Body := [x2a];
     m_Signature := zeroSignature |}.

Definition receipt_draft : DeliveryReceipt :=
  {| r_Version := Version; r_MessageID := m_MessageID incoming; r_MessageDigest := Sha256.Sum256 [x06];
     r_SenderID := ID alice; r_RecipientID := other (ID alice); r_ReceiverProfileRevision := 1;
     r_ReceiverDevice := deviceCert alice; r_ReceivedAt := t0; r_Signature := zeroSignature |}.
Definition receipt : DeliveryReceipt :=
  sign_receipt receipt_draft (Account.Sample.sig g "client-delivery-receipt" [x07]).

#[local] Instance m_any : Marshaler SignedMessage := λ _, Ok [x06].
#[local] Instance m_receipt : Marshaler DeliveryReceipt := λ _, Ok [x07].

Lemma issued : NewDeliveryReceipt (MM := m_any) [] (Some alice) {| message := incoming |} now = Ok receipt.
Proof.
  unfold NewDeliveryReceipt, Profile, LocalCertificate. rewrite cloneProfile_id, cloneCertificate_id. cbn [message].
  rewrite (bool_decide_eq_true_2 (ID alice = m_RecipientID incoming)) by done.
  change (_ || _)%bool with false. cbv beta iota. reflexivity.
Qed.

Lemma incoming_id : validMessageID (m_MessageID incoming) = true.
Proof. vm_compute. reflexivity. Qed.
Lemma incoming_sender : ValidAccountID (m_SenderID incoming) = true.
Proof. apply other_valid. Qed.

(** Alice writes to herself in all but the identifier. *)
Definition sent := SendDirect (MM := m_message) Padding.zero_rand [] (pipeline ∅) (Some alice) (profile alice) [x2a] now Hour.
Lemma sent_run :
  SendDirect (MM := m_message) Padding.zero_rand [] (pipeline ∅) (Some alice) (profile alice) [x2a] now Hour =
    (sent.1.1.1, sent.1.1.2, sent.1.2, sent.2).
Proof. fold sent. by destruct sent as [[[? ?] ?] ?]. Qed.

End Run.

End Sample.

#[local] Existing Instances Toy.crypto Toy.laws Hpke.Toy.hpke Hpke.Toy.laws.
#[local] Existing Instances Account.Sample.m_cert Account.Sample.m_profile Sample.ratchet0 Sample.transport0 Sample.seen_store Sample.seen_laws.
Abbreviation s0 := (Toy.signer x01).
Abbreviation g0 := (Toy.signer x02).

Lemma SendDirect_routed_witness :
  NoDup (rc_RouteTag <$> (Sample.sent s0 g0).1.2).
Proof.
  destruct (SendDirect_routed (MM := Sample.m_message s0 g0) Padding.zero_rand [] (Sample.pipeline ∅) (Some (Sample.alice s0 g0)) (profile (Sample.alice s0 g0))
    [x2a] Sample.now Hour [] (Sample.sent s0 g0).1.1.1 (Sample.sent s0 g0).1.1.2 (Sample.sent s0 g0).1.2
    (Sample.sent s0 g0).2 eq_refl (Sample.sent_run s0 g0)) as (_ & H & _). exact H.
Defined.

Lemma open_once_witness : Sample.expiry < Sample.late ≤ Sample.expiry + 5 * Minute.
Proof.
  refine (open_once (MM := Sample.m_message s0 g0) (DM := Sample.d_message s0 g0) (Some (Sample.bob s0 g0)) (Sample.pipeline ∅)
    {| k_env := Sample.now; k_sender := profile (Sample.alice s0 g0); k_item := Sample.item; k_now := Sample.now |}
    {| k_env := Sample.late; k_sender := profile (Sample.alice s0 g0); k_item := Sample.item; k_now := Sample.late |} []
    _ _ {| message := Sample.hello s0 g0 |} {| message := Sample.hello s0 g0 |}
    (Sample.opens s0 g0 eq_refl eq_refl) (Sample.opens_again s0 g0 eq_refl eq_refl) eq_refl eq_refl _).
  intros c Hc. apply list_elem_of_singleton in Hc as ->. reflexivity.
Defined.

Lemma message_roundtrip_witness :
  OpenDirect (MM := Sample.m_message s0 g0) (DM := Sample.d_message s0 g0) Sample.now (Sample.pipeline ∅)
    (Some (Sample.bob s0 g0)) (profile (Sample.alice s0 g0)) Sample.item Sample.now =
    (Sample.pipeline (Sample.accepted s0 g0), Ok {| message := Sample.hello s0 g0 |}).
Proof.
  refine (eq_trans (message_roundtrip (MM := Sample.m_message s0 g0) (DM := Sample.d_message s0 g0) (RS := Sample.seen_store)
    (RP := Sample.ratchet0) Padding.zero_rand [] (Sample.alice s0 g0)
    (Sample.bob s0 g0) [x2a] [x04] Sample.now Sample.now Hour (Sample.hello s0 g0) Sample.now (Sample.pipeline ∅) () () ∅
    Sample.item (Sample.sample_codec s0 g0) Padding.zero_rand_fills (Sample.alice_ok s0 g0 eq_refl eq_refl)
    (Sample.bob_id s0 g0) eq_refl (Sample.written s0 g0) (Sample.encoded s0 g0 eq_refl)
    eq_refl eq_refl eq_refl (Sample.item_routable s0 g0) _ (Sample.alice_updated s0 g0 Sample.now _)) (Sample.first_answer s0 g0)).
  - split; [vm_compute; discriminate|]. change (m_ExpiresAt (Sample.hello s0 g0)) with Sample.expiry. vm_compute. discriminate.
  - vm_compute. discriminate.
Defined.

Lemma receipt_binding_witness :
  VerifyDeliveryReceipt (MM := Sample.m_any) (MD := Sample.m_receipt) (profile (Sample.alice s0 g0)) (Sample.receipt s0 g0)
    (Sample.incoming s0 g0) (Sample.now + Hour) = None.
Proof.
  destruct (receipt_binding (MM := Sample.m_any) (MD := Sample.m_receipt) [] (Sample.alice s0 g0) (Sample.incoming s0 g0)
    Sample.now (Sample.receipt s0 g0)) as [H _].
  apply (H (Sample.alice_ok s0 g0 eq_refl eq_refl) (Sample.incoming_id s0 g0) (Sample.incoming_sender s0 g0) eq_refl
    ltac:(discriminate) (Sample.issued s0 g0)); [|apply (Sample.alice_updated s0 g0)]; vm_compute; discriminate.
Defined.

End Message.
