(* ===== verification/Media.v ===== *)
(** Encrypted files (src/media/file.go): a file is cut into chunks of one size, each
    padded, sealed under the file key and stored under a route of its own; the manifest
    and the secret travel to the recipient, who fetches the chunks by their hashes.
    [ChunkCore] is what this package uses of the client core; the core of ClientCore
    implements it. *)
From stdpp Require Import pretty.
From S2P Require Import Prelude Sha256 Encoding Protocol Work Padding Crypto Files ClientStore ClientNode Hpke ClientCore.
Local Open Scope Z_scope.

Module Media.

(** * The client core, as this package sees it *)

(** [E] is what a call finds outside the program. [None] is a store still looking for
    its proof of work. *)
Class ChunkCore (E Cr : Type) := {
  cc_StoreOpaque : E → Cr → string → bytes → bytes → option (Cr * ClientCore.Delivery * option error);
  cc_Fetch : E → Cr → list string → Cr * Result (list StoredItem);
  cc_DeleteItemEverywhere : E → Cr → string → bytes → Cr * gmap string (option error);
}.

(** What it promises: a store that reports success has put exactly these bytes under
    the route, at as many different nodes as its write quorum asks for. *)
Class ChunkCoreLaws (E Cr : Type) {CC : ChunkCore E Cr} := {
  cc_ok : Cr → Prop;
  cc_quorum : Cr → Z;
  cc_kept e c tag payload token c' d err :
    cc_ok c → cc_StoreOpaque e c tag payload token = Some (c', d, err) → cc_ok c' ∧ cc_quorum c' = cc_quorum c;
  cc_stored e c tag payload token c' d :
    cc_ok c → cc_StoreOpaque e c tag payload token = Some (c', d, None) →
    si_RouteTag (ClientCore.d_Item d) = tag ∧ si_Payload (ClientCore.d_Item d) = payload ∧
    ClientCore.d_DeleteToken d = token ∧ cc_quorum c ≤ blen (ClientCore.d_Receipts d) ∧
    NoDup (sr_NodeID <$> ClientCore.d_Receipts d);
}.

(** * Data *)

Record FileChunkSecret := { cs_Index : Z; cs_DeleteToken : bytes }.
Record FileSecret := { fs_FileID : string; fs_Key : bytes; fs_DeleteTokens : list FileChunkSecret }.
Record EncryptedChunk := { ec_Metadata : FileChunk; ec_Payload : bytes; ec_DeleteToken : bytes }.
Record EncryptedFile := { ef_Secret : FileSecret; ef_Manifest : FileManifest; ef_Chunks : list EncryptedChunk }.

Definition MaxFileNameBytes : Z := 255.
Definition MaxMediaTypeBytes : Z := 255.

(** [strings.ContainsAny] with a NUL, a carriage return or a line feed. *)
Definition hasControl (s : string) : bool :=
  existsb (λ b, bool_decide (b = x00) || bool_decide (b = x0d) || bool_decide (b = x0a)) (str_bytes s).

(** A list cut into pieces of [size], the last one possibly shorter. *)
Fixpoint pieces {A} (fuel : nat) (size : nat) (l : list A) : list (list A) :=
  match fuel, l with
  | _, [] => []
  | O, _ => []
  | S fuel, _ => take size l :: pieces fuel size (drop size l)
  end.

Definition chunkAAD (fileID : string) (index : Z) : bytes :=
  str_bytes "enig/file/v1" ++ [x00] ++ str_bytes fileID ++ [x00] ++ str_bytes (pretty index).

(** * Encryption *)

(** The draws for one chunk. *)
Record ChunkRandomness := {
  cr_padding : Z → Result bytes;
  cr_nonce : Z → Result bytes;
  cr_route : Z → Result bytes;
  cr_token : Z → Result bytes;
}.

Section Encryption.
Context {AE : ClientStore.AEAD}.

Definition encryptChunk (key : bytes) (fileID : string) (chunkSize : Z) (rnd : ChunkRandomness) (index : Z)
    (piece : bytes) : Result EncryptedChunk :=
  match cr_padding rnd (chunkSize - blen piece) with
  | Err e => Err e
  | Ok filler =>
  match cr_nonce rnd ClientStore.aead_NonceSize with
  | Err e => Err e
  | Ok nonce =>
      let padded := be_encode 4 (blen piece) ++ piece ++ filler in
      let ciphertext := nonce ++ ClientStore.aead_Seal key nonce padded (chunkAAD fileID index) in
      match ClientCore.RandomCapability (cr_route rnd) with
      | Err e => Err e
      | Ok routeTag =>
      match ClientCore.RandomDeleteToken (cr_token rnd) with
      | Err e => Err e
      | Ok deleteToken =>
          Ok {| ec_Metadata := {| fc_Index := index; fc_RouteTag := routeTag;
                                  fc_CipherHash := Sha256.Sum256 ciphertext; fc_CipherSize := blen ciphertext |};
                ec_Payload := ciphertext; ec_DeleteToken := deleteToken |}
      end end
  end end.

Fixpoint encryptChunks (key : bytes) (fileID : string) (chunkSize : Z) (rnd : nat → ChunkRandomness) (index : nat)
    (l : list bytes) : Result (list EncryptedChunk) :=
  match l with
  | [] => Ok []
  | piece :: l =>
      match encryptChunk key fileID chunkSize (rnd index) (Z.of_nat index) piece with
      | Err e => Err e
      | Ok chunk =>
          match encryptChunks key fileID chunkSize rnd (index + 1) l with
          | Err e => Err e
          | Ok chunks => Ok (chunk :: chunks)
          end
      end
  end.

Definition chunkSecret (chunk : EncryptedChunk) : FileChunkSecret :=
  {| cs_Index := fc_Index (ec_Metadata chunk); cs_DeleteToken := ec_DeleteToken chunk |}.

(** [rand_key] and [rand_id] fill the key and the file identifier. *)
Definition EncryptFile (rand_key rand_id : Z → Result bytes) (rnd : nat → ChunkRandomness) (name mediaType : string)
    (plaintext : bytes) (maxBytes chunkSize : Z) : Result EncryptedFile :=
  let maxBytes := if maxBytes <=? 0 then DefaultMaxFileBytes else maxBytes in
  if DefaultMaxFileBytes <? maxBytes then Err "configured file limit exceeds protocol maximum"
  else
  let chunkSize := if chunkSize <=? 0 then DefaultFileChunkSize else chunkSize in
  if (blen plaintext =? 0) || (maxBytes <? blen plaintext) then Err "file size is outside configured limits"
  else
  let baseName := Base name in
  if bool_decide (baseName = "."%string) || bool_decide (baseName = ""%string) || (MaxFileNameBytes <? slen baseName) ||
     (slen mediaType =? 0) || (MaxMediaTypeBytes <? slen mediaType) || hasControl (baseName +:+ mediaType)
  then Err "invalid file metadata"
  else if (chunkSize <? 16 * 1024) || (DefaultMaxItemBytes - 1024 <? chunkSize)
  then Err "invalid encrypted file chunk size"
  else match rand_key 32 with
  | Err e => Err e
  | Ok key =>
  match rand_id 32 with
  | Err e => Err e
  | Ok fileIDRaw =>
      let fileID := Base64.EncodeToString fileIDRaw in
      match encryptChunks key fileID chunkSize rnd 0 (pieces (length plaintext) (Z.to_nat chunkSize) plaintext) with
      | Err e => Err e
      | Ok chunks =>
          Ok {| ef_Secret := {| fs_FileID := fileID; fs_Key := key; fs_DeleteTokens := chunkSecret <$> chunks |};
                ef_Manifest := {| fm_Version := ProtocolVersion; fm_FileID := fileID; fm_Name := baseName;
                                  fm_MediaType := mediaType; fm_PlaintextBytes := blen plaintext;
                                  fm_ChunkSize := chunkSize; fm_Chunks := ec_Metadata <$> chunks |};
                ef_Chunks := chunks |}
      end
  end end.

(** * Decryption *)

(** The loop over the chunks of a manifest; [tokens] are the secrets of the same
    indices, as many as there are chunks. *)
Fixpoint checkChunks (cipherSize : Z) (index : Z) (seenRoutes : gset string) (seenHashes : gset bytes)
    (chunks : list FileChunk) (tokens : list FileChunkSecret) : option error :=
  match chunks, tokens with
  | metadata :: chunks, token :: tokens =>
      if negb (fc_Index metadata =? index) || negb (ValidRouteTag (fc_RouteTag metadata)) ||
         negb (blen (fc_CipherHash metadata) =? Sha256.Size) || negb (fc_CipherSize metadata =? cipherSize) ||
         negb (cs_Index token =? index) || negb (blen (cs_DeleteToken token) =? CapabilityBytes)
      then Some "invalid file chunk metadata"%string
      else if bool_decide (fc_RouteTag metadata ∈ seenRoutes) then Some "duplicate file chunk route"%string
      else if bool_decide (fc_CipherHash metadata ∈ seenHashes) then Some "duplicate file chunk hash"%string
      else checkChunks cipherSize (index + 1) ({[fc_RouteTag metadata]} ∪ seenRoutes)
             ({[fc_CipherHash metadata]} ∪ seenHashes) chunks tokens
  | _, _ => None
  end.

Definition validateManifest (secret : FileSecret) (manifest : FileManifest) : option error :=
  if negb (bool_decide (blen <$> Base64.DecodeString (fm_FileID manifest) = Some CapabilityBytes)) ||
     negb (fm_Version manifest =? ProtocolVersion) || negb (bool_decide (fm_FileID manifest = fs_FileID secret)) ||
     negb (blen (fs_Key secret) =? 32) || (fm_PlaintextBytes manifest <=? 0) ||
     (DefaultMaxFileBytes <? fm_PlaintextBytes manifest) || (fm_ChunkSize manifest <? 16 * 1024) ||
     (DefaultMaxItemBytes - 1024 <? fm_ChunkSize manifest) || (slen (fm_Name manifest) =? 0) ||
     (MaxFileNameBytes <? slen (fm_Name manifest)) || negb (bool_decide (Base (fm_Name manifest) = fm_Name manifest)) ||
     (slen (fm_MediaType manifest) =? 0) || (MaxMediaTypeBytes <? slen (fm_MediaType manifest)) ||
     hasControl (fm_Name manifest +:+ fm_MediaType manifest)
  then Some "invalid file manifest"%string
  else
  let expectedChunks := Z.quot (i64 (fm_PlaintextBytes manifest + fm_ChunkSize manifest - 1)) (fm_ChunkSize manifest) in
  if (expectedChunks <=? 0) || (Z.quot DefaultMaxFileBytes (16 * 1024) + 1 <? expectedChunks) ||
     negb (blen (fm_Chunks manifest) =? expectedChunks) ||
     negb (blen (fs_DeleteTokens secret) =? blen (fm_Chunks manifest))
  then Some "invalid file chunk count"%string
  else checkChunks (fm_ChunkSize manifest + 4 + 12 + 16) 0 ∅ ∅ (fm_Chunks manifest) (fs_DeleteTokens secret).

Definition invalidChunk (index : Z) : error := ("invalid encrypted chunk " +:+ pretty index)%string.

(** One chunk, authenticated and stripped of its padding. *)
Definition decryptChunk (key : bytes) (manifest : FileManifest) (metadata : FileChunk) (ciphertext : bytes)
  : Result bytes :=
  if negb (bytes_equal (Sha256.Sum256 ciphertext) (fc_CipherHash metadata)) ||
     negb (blen ciphertext =? fc_CipherSize metadata) || (blen ciphertext <? ClientStore.aead_NonceSize)
  then Err (invalidChunk (fc_Index metadata))
  else
    let nonce := slice ciphertext 0 ClientStore.aead_NonceSize in
    let body := slice ciphertext ClientStore.aead_NonceSize (blen ciphertext) in
    match ClientStore.aead_Open key nonce body (chunkAAD (fm_FileID manifest) (fc_Index metadata)) with
    | None => Err ("decrypt chunk " +:+ pretty (fc_Index metadata) +:+ ": cipher: message authentication failed")%string
    | Some padded =>
        if negb (blen padded =? fm_ChunkSize manifest + 4) then Err "invalid padded chunk size"
        else
          let length := be_decode (slice padded 0 4) in
          if fm_ChunkSize manifest <? length then Err "invalid plaintext chunk length"
          else Ok (slice padded 4 (4 + length))
    end.

Fixpoint decryptChunks (key : bytes) (manifest : FileManifest) (chunks : gmap Z bytes) (output : bytes)
    (l : list FileChunk) : Result bytes :=
  match l with
  | [] => Ok output
  | metadata :: l =>
      match chunks !! fc_Index metadata with
      | None => Err ("missing encrypted chunk " +:+ pretty (fc_Index metadata))%string
      | Some ciphertext =>
          match decryptChunk key manifest metadata ciphertext with
          | Err e => Err e
          | Ok piece => decryptChunks key manifest chunks (output ++ piece) l
          end
      end
  end.

Definition DecryptFile (secret : FileSecret) (manifest : FileManifest) (chunks : gmap Z bytes) : Result bytes :=
  match validateManifest secret manifest with
  | Some e => Err e
  | None =>
      if negb (Z.of_nat (size chunks) =? blen (fm_Chunks manifest))
      then Err "encrypted chunk set does not match manifest"
      else if negb (bool_decide (fm_FileID manifest = fs_FileID secret)) || negb (blen (fs_Key secret) =? 32)
      then Err "file secret does not match manifest"
      else match decryptChunks (fs_Key secret) manifest chunks [] (fm_Chunks manifest) with
      | Err e => Err e
      | Ok output =>
          if negb (blen output =? fm_PlaintextBytes manifest)
          then Err "reconstructed file size does not match manifest"
          else Ok output
      end
  end.

End Encryption.

(** * Storing and retrieving *)

Section Transfer.
Context {AE : ClientStore.AEAD} {E Cr : Type} {CC : ChunkCore E Cr} {MO : MapOrder}.

(** One call of the core for each chunk; [env i] is the environment of the [i]-th. *)
Fixpoint storeChunks (env : nat → E) (core : Cr) (index : nat) (deliveries : list ClientCore.Delivery)
    (chunks : list EncryptedChunk) (expected : list FileChunk) (tokens : list FileChunkSecret)
  : option (Cr * list ClientCore.Delivery * option error) :=
  match chunks, expected, tokens with
  | chunk :: chunks, want :: expected, token :: tokens =>
      let metadata := ec_Metadata chunk in
      if negb (fc_Index metadata =? Z.of_nat index) || negb (bool_decide (fc_RouteTag metadata = fc_RouteTag want)) ||
         negb (fc_CipherSize metadata =? fc_CipherSize want) ||
         negb (bytes_equal (fc_CipherHash metadata) (fc_CipherHash want)) ||
         negb (bytes_equal (ec_DeleteToken chunk) (cs_DeleteToken token))
      then Some (core, deliveries, Some "encrypted chunk metadata mismatch"%string)
      else match cc_StoreOpaque (env index) core (fc_RouteTag metadata) (ec_Payload chunk) (ec_DeleteToken chunk) with
      | None => None
      | Some (core, _, Some err) =>
          Some (core, deliveries,
                Some ("store encrypted chunk " +:+ pretty (fc_Index metadata) +:+ ": " +:+ err)%string)
      | Some (core, delivery, None) =>
          storeChunks env core (index + 1) (deliveries ++ [delivery]) chunks expected tokens
      end
  | _, _, _ => Some (core, deliveries, None)
  end.

Definition Store (env : nat → E) (core : Cr) (encrypted : EncryptedFile)
  : option (Cr * list ClientCore.Delivery * option error) :=
  match validateManifest (ef_Secret encrypted) (ef_Manifest encrypted) with
  | Some err => Some (core, [], Some err)
  | None =>
      if negb (blen (ef_Chunks encrypted) =? blen (fm_Chunks (ef_Manifest encrypted)))
      then Some (core, [], Some "encrypted chunks do not match manifest"%string)
      else storeChunks env core 0 [] (ef_Chunks encrypted) (fm_Chunks (ef_Manifest encrypted))
             (fs_DeleteTokens (ef_Secret encrypted))
  end.

(** [metadataByHash]: the last chunk with a hash wins. *)
Definition byHash (chunks : list FileChunk) : gmap bytes FileChunk :=
  foldl (λ m metadata, <[fc_CipherHash metadata := metadata]> m) ∅ chunks.

(** The chunks found so far, and the items they came in. *)
Definition Found : Type := gmap Z bytes * gmap Z StoredItem.

Definition takeItem (hashes : gmap bytes FileChunk) (found : Found) (item : StoredItem) : Found :=
  match hashes !! Sha256.Sum256 (si_Payload item) with
  | None => found
  | Some metadata =>
      if negb (bool_decide (fc_RouteTag metadata = si_RouteTag item)) then found
      else (<[fc_Index metadata := si_Payload item]> found.1, <[fc_Index metadata := item]> found.2)
  end.

(** The batches of route tags; [start] is the index of the first tag of the batch. *)
Fixpoint fetchBatches (env : nat → E) (hashes : gmap bytes FileChunk) (core : Cr) (start : Z) (i : nat) (found : Found)
    (batches : list (list string)) : Cr * Result Found :=
  match batches with
  | [] => (core, Ok found)
  | tags :: batches =>
      match cc_Fetch (env i) core tags with
      | (core, Err err) =>
          (core, Err ("fetch encrypted chunks " +:+ pretty start +:+ "-" +:+ pretty (start + blen tags - 1) +:+ ": "
                      +:+ err)%string)
      | (core, Ok items) =>
          fetchBatches env hashes core (start + blen tags) (i + 1) (foldl (takeItem hashes) found items) batches
      end
  end.

(** Deletion requests, one for each chunk that was found. *)
Fixpoint deleteChunks (env : nat → E) (items : gmap Z StoredItem) (core : Cr) (i : nat)
    (report : gmap string (option error)) (tokens : list FileChunkSecret) : Cr * gmap string (option error) :=
  match tokens with
  | [] => (core, report)
  | token :: tokens =>
      match items !! cs_Index token with
      | None => deleteChunks env items core (i + 1) report tokens
      | Some item =>
          let '(core, answers) := cc_DeleteItemEverywhere (env i) core (si_ItemID item) (cs_DeleteToken token) in
          deleteChunks env items core (i + 1)
            (foldl (λ report p, <[("chunk-" +:+ pretty (cs_Index token) +:+ "/" +:+ p.1)%string := p.2]> report)
               report (range_map answers)) tokens
      end
  end.

(** [fetches] and [deletes] are the environments of the two kinds of calls. *)
Definition Retrieve (fetches deletes : nat → E) (core : Cr) (secret : FileSecret) (manifest : FileManifest)
    (deleteAfterSuccess : bool) : Cr * Result (bytes * gmap string (option error)) :=
  match validateManifest secret manifest with
  | Some err => (core, Err err)
  | None =>
      let routeTags := fc_RouteTag <$> fm_Chunks manifest in
      match fm_Chunks manifest with
      | [] => (core, Err "index out of range")
      | first :: _ =>
          let maxTagsPerBatch := Z.quot DefaultMaxFetchBytes (fc_CipherSize first) in
          if maxTagsPerBatch <=? 0 then (core, Err "encrypted file chunk exceeds fetch byte limit")
          else
            let batchSize := Z.min MaxRouteTagsPerFetch maxTagsPerBatch in
            match fetchBatches fetches (byHash (fm_Chunks manifest)) core 0 0 (∅, ∅)
                    (pieces (length routeTags) (Z.to_nat batchSize) routeTags) with
            | (core, Err err) => (core, Err err)
            | (core, Ok (chunks, items)) =>
                match DecryptFile secret manifest chunks with
                | Err err => (core, Err err)
                | Ok plaintext =>
                    if deleteAfterSuccess then
                      let '(core, report) := deleteChunks deletes items core 0 ∅ (fs_DeleteTokens secret) in
                      (core, Ok (plaintext, report))
                    else (core, Ok (plaintext, ∅))
                end
            end
      end
  end.

End Transfer.

(** * Cutting a list *)

Lemma pieces_concat {A} (size : nat) (l : list A) (fuel : nat) :
  (0 < size)%nat → (length l ≤ fuel)%nat → mjoin (pieces fuel size l) = l.
Proof.
  intros Hs. revert l. induction fuel as [|fuel IH]; intros l Hl; [by destruct l; [|simpl in Hl; lia]|].
  destruct l as [|x l]; [done|]. cbn [pieces mjoin list_join]. rewrite IH; [apply take_drop|].
  rewrite length_drop. simpl in *. lia.
Qed.

Lemma pieces_sizes {A} (size : nat) (l : list A) (fuel : nat) :
  (0 < size)%nat → Forall (λ p, (0 < length p ≤ size)%nat) (pieces fuel size l).
Proof.
  intros Hs. revert l. induction fuel as [|fuel IH]; intros [|x l]; cbn [pieces]; try constructor; [|apply IH].
  rewrite length_take. simpl. lia.
Qed.

Lemma pieces_count {A} (size : nat) (l : list A) (fuel : nat) :
  (0 < size)%nat → (length l ≤ fuel)%nat →
  blen (pieces fuel size l) = (blen l + Z.of_nat size - 1) / Z.of_nat size.
Proof.
  intros Hs. revert l. induction fuel as [|fuel IH]; intros l Hl.
  { destruct l; [|simpl in Hl; lia]. unfold blen. simpl. rewrite Z.div_small; lia. }
  destruct l as [|x l]; cbn [pieces]; [unfold blen; simpl; rewrite Z.div_small; lia|].
  rewrite blen_cons, IH by (rewrite length_drop; simpl in *; lia). unfold blen. rewrite length_drop.
  set (n := length (x :: l)) in *. assert (0 < n)%nat by (subst n; simpl; lia). clearbody n.
  destruct (Nat.le_gt_cases n size) as [Hle|Hgt].
  - replace (n - size)%nat with 0%nat by lia. rewrite Z.div_small by lia.
    replace (Z.of_nat n + Z.of_nat size - 1) with (Z.of_nat n - 1 + 1 * Z.of_nat size) by lia.
    rewrite Z.div_add, Z.div_small by lia. done.
  - rewrite Nat2Z.inj_sub by lia.
    replace (Z.of_nat n + Z.of_nat size - 1) with (Z.of_nat n - Z.of_nat size + Z.of_nat size - 1 + 1 * Z.of_nat size) by lia.
    rewrite Z.div_add by lia. done.
Qed.

(** * File names *)

Lemma stripTrailing_plain (l : bytes) : slash ∉ l → stripTrailing l = l.
Proof.
  induction l as [|b l IH]; intros H; [done|]. cbn [stripTrailing]. rewrite IH by set_solver.
  destruct l; [|done]. rewrite bool_decide_eq_false_2 by set_solver. done.
Qed.

Lemma afterLastSlash_plain (l : bytes) : slash ∉ l → afterLastSlash l = l.
Proof. destruct l; [done|]. intros H. cbn [afterLastSlash]. by rewrite bool_decide_eq_false_2. Qed.

Lemma afterLastSlash_no_slash (l : bytes) : slash ∉ afterLastSlash l.
Proof. induction l as [|b l IH]; cbn [afterLastSlash]; [set_solver|]. by case_bool_decide. Qed.

Lemma Base_idem (s : string) : Base (Base s) = Base s.
Proof.
  unfold Base at 2 3. case_bool_decide; [reflexivity|].
  set (l := afterLastSlash _). assert (Hl : slash ∉ l) by apply afterLastSlash_no_slash. clearbody l.
  destruct (blen l =? 0) eqn:Hz; [reflexivity|]. unbool. unfold Base. rewrite bool_decide_eq_false_2.
  - rewrite str_bytes_of, stripTrailing_plain, afterLastSlash_plain by done. by rewrite (proj2 (Z.eqb_neq _ _)).
  - intros E. apply Hz. apply (f_equal str_bytes) in E. rewrite str_bytes_of in E. by rewrite E.
Qed.

(** * Chunks *)

Section Facts.
Context {AE : ClientStore.AEAD} {AL : ClientStore.AEADLaws}.

Definition chunk_fills (rnd : ChunkRandomness) : Prop :=
  Padding.rand_fills (cr_padding rnd) ∧ Padding.rand_fills (cr_nonce rnd) ∧
  Padding.rand_fills (cr_route rnd) ∧ Padding.rand_fills (cr_token rnd).

(** A sealed chunk of [piece]: it fits the manifest and opens to the piece. *)
Record sealed (key : bytes) (fileID : string) (chunkSize : Z) (piece : bytes) (c : EncryptedChunk) : Prop := {
  se_route : ValidRouteTag (fc_RouteTag (ec_Metadata c)) = true;
  se_hash : fc_CipherHash (ec_Metadata c) = Sha256.Sum256 (ec_Payload c);
  se_size : fc_CipherSize (ec_Metadata c) = chunkSize + 4 + 12 + 16;
  se_token : blen (ec_DeleteToken c) = CapabilityBytes;
  se_open : ∀ manifest, fm_FileID manifest = fileID → fm_ChunkSize manifest = chunkSize →
    decryptChunk key manifest (ec_Metadata c) (ec_Payload c) = Ok piece;
}.

Lemma slice_app {A} (l k : list A) (n : Z) : blen l = n → slice (l ++ k) 0 n = l.
Proof. intros <-. unfold slice, blen. rewrite Z.sub_0_r, Nat2Z.id, drop_0. by rewrite list.take_app_length. Qed.

Lemma slice_rest {A} (l k : list A) (n m : Z) : blen l = n → m = n + blen k → slice (l ++ k) n m = k.
Proof.
  intros <- ->. unfold slice, blen. rewrite Nat2Z.id, list.drop_app_length.
  replace (Z.to_nat _) with (length k) by lia. apply firstn_all.
Qed.

Lemma encryptChunk_sealed (key : bytes) (fileID : string) (chunkSize : Z) (rnd : ChunkRandomness) (index : Z)
    (piece : bytes) (c : EncryptedChunk) :
  blen key = 32 → 0 ≤ chunkSize < two32 → blen piece ≤ chunkSize → chunk_fills rnd →
  encryptChunk key fileID chunkSize rnd index piece = Ok c →
  sealed key fileID chunkSize piece c ∧ fc_Index (ec_Metadata c) = index.
Proof.
  intros Hk Hcs Hp (Hf1 & Hf2 & Hf3 & Hf4) H. unfold encryptChunk, ClientCore.RandomCapability, ClientCore.RandomDeleteToken in H.
  destruct (cr_padding rnd _) as [filler|] eqn:Hfil; [|done]. apply Hf1 in Hfil; [|lia].
  destruct (cr_nonce rnd _) as [nonce|] eqn:Hn; [|done]. apply Hf2 in Hn; [|done].
  destruct (cr_route rnd 32) as [route|] eqn:Hr; [|done]. apply Hf3 in Hr; [|done].
  destruct (cr_token rnd 32) as [token|] eqn:Ht; [|done]. apply Hf4 in Ht; [|done].
  set (padded := be_encode 4 (blen piece) ++ piece ++ filler) in H.
  assert (Hlen : blen padded = chunkSize + 4).
  { subst padded. rewrite !blen_app. unfold blen at 1. rewrite be_encode_length. lia. }
  pose proof (ClientStore.aead_overhead key nonce padded (chunkAAD fileID index)) as Hover.
  set (ct := ClientStore.aead_Seal _ _ _ _) in *. apply (inj Ok) in H as <-.
  split; [|done]. constructor; cbn [ec_Metadata ec_Payload ec_DeleteToken fc_RouteTag fc_CipherHash fc_CipherSize fc_Index].
  - by apply ValidRouteTag_encode.
  - done.
  - rewrite blen_app, Hn, Hover, Hlen. unfold ClientStore.aead_NonceSize. lia.
  - done.
  - intros manifest Hid Hsz. unfold decryptChunk. cbn [fc_CipherHash fc_CipherSize fc_Index].
    rewrite (proj2 (bytes_equal_true _ _) eq_refl), Z.eqb_refl. cbn [negb orb].
    rewrite (proj2 (Z.ltb_ge _ _)) by (rewrite blen_app; pose proof (blen_nonneg ct); lia).
    rewrite slice_app by done. rewrite slice_rest by (done || rewrite blen_app; lia). rewrite Hid.
    subst ct. rewrite ClientStore.aead_roundtrip by done. rewrite Hlen, Hsz, Z.eqb_refl. cbn [negb].
    assert (Hb : blen (be_encode 4 (blen piece)) = 4) by (unfold blen; by rewrite be_encode_length).
    subst padded. rewrite slice_app by done. pose proof (blen_nonneg piece).
    rewrite be_decode_encode_small by (change (256 ^ Z.of_nat 4) with two32; lia).
    rewrite (proj2 (Z.ltb_ge _ _)) by lia. f_equal. unfold slice.
    replace (Z.to_nat 4) with (length (be_encode 4 (blen piece))) by (by rewrite be_encode_length).
    rewrite list.drop_app_length. replace (Z.to_nat _) with (length piece) by (unfold blen; lia). by rewrite list.take_app_length.
Qed.

Lemma encryptChunks_sealed (key : bytes) (fileID : string) (chunkSize : Z) (rnd : nat → ChunkRandomness) (l : list bytes)
    (index : nat) (chunks : list EncryptedChunk) :
  blen key = 32 → 0 ≤ chunkSize < two32 → Forall (λ p, blen p ≤ chunkSize) l → (∀ i, chunk_fills (rnd i)) →
  encryptChunks key fileID chunkSize rnd index l = Ok chunks →
  Forall2 (sealed key fileID chunkSize) l chunks ∧
  (λ c, fc_Index (ec_Metadata c)) <$> chunks = Z.of_nat <$> seq index (length l).
Proof.
  intros Hk Hcs Hl Hf. revert index chunks. induction Hl as [|p l Hp _ IH]; intros index chunks H; cbn [encryptChunks] in H.
  { apply (inj Ok) in H as <-. split; [constructor|done]. }
  destruct (encryptChunk _ _ _ _ _ _) as [c|] eqn:Hc; [|done].
  apply encryptChunk_sealed in Hc as [Hc Hi]; [|done..].
  destruct (encryptChunks _ _ _ _ _ _) as [cs|] eqn:Hcs'; [|done]. apply (inj Ok) in H as <-.
  apply IH in Hcs' as [Hall Hidx]. split; [by constructor|].
  rewrite fmap_cons, Hi, Hidx. cbn [length seq]. by rewrite fmap_cons, Nat.add_1_r.
Qed.

(** ** Encrypted files *)

Record file_ok (name mediaType : string) (plaintext : bytes) (f : EncryptedFile) (l : list bytes) : Prop := {
  fo_chunkSize : 16 * 1024 ≤ fm_ChunkSize (ef_Manifest f) ≤ DefaultMaxItemBytes - 1024;
  fo_bytes : fm_PlaintextBytes (ef_Manifest f) = blen plaintext ∧ 0 < blen plaintext ≤ DefaultMaxFileBytes;
  fo_name : fm_Name (ef_Manifest f) = Base name ∧ Base name ≠ ""%string ∧ slen (Base name) ≤ MaxFileNameBytes;
  fo_type : fm_MediaType (ef_Manifest f) = mediaType ∧ slen mediaType ≠ 0 ∧ slen mediaType ≤ MaxMediaTypeBytes ∧
            hasControl (Base name +:+ mediaType) = false;
  fo_version : fm_Version (ef_Manifest f) = ProtocolVersion;
  fo_id : fm_FileID (ef_Manifest f) = fs_FileID (ef_Secret f) ∧
          (blen <$> Base64.DecodeString (fm_FileID (ef_Manifest f))) = Some CapabilityBytes;
  fo_key : blen (fs_Key (ef_Secret f)) = 32;
  fo_pieces : mjoin l = plaintext ∧
    blen l = (blen plaintext + fm_ChunkSize (ef_Manifest f) - 1) / fm_ChunkSize (ef_Manifest f);
  fo_sealed : Forall2 (sealed (fs_Key (ef_Secret f)) (fm_FileID (ef_Manifest f)) (fm_ChunkSize (ef_Manifest f)))
                l (ef_Chunks f);
  fo_index : (λ c, fc_Index (ec_Metadata c)) <$> ef_Chunks f = Z.of_nat <$> seq 0 (length l);
  fo_lists : fm_Chunks (ef_Manifest f) = ec_Metadata <$> ef_Chunks f ∧
             fs_DeleteTokens (ef_Secret f) = chunkSecret <$> ef_Chunks f;
}.

Lemma EncryptFile_ok (rand_key rand_id : Z → Result bytes) (rnd : nat → ChunkRandomness) (name mediaType : string)
    (plaintext : bytes) (maxBytes chunkSize : Z) (f : EncryptedFile) :
  Padding.rand_fills rand_key → Padding.rand_fills rand_id → (∀ i, chunk_fills (rnd i)) →
  EncryptFile rand_key rand_id rnd name mediaType plaintext maxBytes chunkSize = Ok f →
  ∃ l, file_ok name mediaType plaintext f l.
Proof.
  intros Hfk Hfi Hfc H. unfold EncryptFile in H. cbv zeta in H. set (mx := if maxBytes <=? 0 then _ else _) in H.
  set (cs := if chunkSize <=? 0 then _ else _) in H.
  destruct (DefaultMaxFileBytes <? mx) eqn:Hmax; [done|]. destruct ((blen plaintext =? 0) || _)%bool eqn:Hp; [done|].
  destruct (bool_decide (Base name = "."%string) || _ || _ || _ || _ || _)%bool eqn:Hname; [done|].
  destruct ((cs <? _) || _)%bool eqn:Hcs; [done|]. unbool.
  destruct (rand_key 32) as [key|] eqn:Hk; [|done]. apply Hfk in Hk; [|done].
  destruct (rand_id 32) as [raw|] eqn:Hi; [|done]. apply Hfi in Hi; [|done].
  destruct (encryptChunks _ _ _ _ _ _) as [chunks|] eqn:Hc; [|done]. apply (inj Ok) in H as <-.
  assert (Hsz : (0 < Z.to_nat cs)%nat) by lia. pose proof (blen_nonneg plaintext).
  exists (pieces (length plaintext) (Z.to_nat cs) plaintext).
  apply encryptChunks_sealed in Hc as [Hall Hidx]; [|done|unfold DefaultMaxItemBytes in *; lia| |done].
  - constructor; cbn [ef_Secret ef_Manifest ef_Chunks fm_Version fm_FileID fm_Name fm_MediaType fm_PlaintextBytes
      fm_ChunkSize fm_Chunks fs_FileID fs_Key fs_DeleteTokens]; try done; try lia.
    + split; [done|]. rewrite Base64_decode_encode. cbn. by rewrite Hi.
    + split; [by apply pieces_concat|]. rewrite pieces_count by done. by rewrite Z2Nat.id by lia.
  - eapply list.Forall_impl; [apply (pieces_sizes (Z.to_nat cs) plaintext); exact Hsz|].
    intros p Hp'. cbn beta in Hp'. unfold blen. lia.
Qed.

Lemma checkChunks_None (key : bytes) (fileID : string) (chunkSize : Z) (l : list bytes) (chunks : list EncryptedChunk)
    (index : nat) (routes : gset string) (hashes : gset bytes) :
  Forall2 (sealed key fileID chunkSize) l chunks →
  (λ c, fc_Index (ec_Metadata c)) <$> chunks = Z.of_nat <$> seq index (length l) →
  NoDup (fc_RouteTag <$> (ec_Metadata <$> chunks)) → NoDup (fc_CipherHash <$> (ec_Metadata <$> chunks)) →
  (∀ c, c ∈ chunks → fc_RouteTag (ec_Metadata c) ∉ routes ∧ fc_CipherHash (ec_Metadata c) ∉ hashes) →
  checkChunks (chunkSize + 4 + 12 + 16) (Z.of_nat index) routes hashes (ec_Metadata <$> chunks) (chunkSecret <$> chunks) = None.
Proof.
  intros Hs. revert index routes hashes.
  induction Hs as [|p c l chunks [Hroute Hhash Hsize Htok _] _ IH]; intros index routes hashes Hidx Hr Hh Hnew; [done|].
  rewrite !fmap_cons in *. cbn [length seq] in Hidx. rewrite fmap_cons in Hidx. injection Hidx as Hi Hidx.
  apply list.NoDup_cons in Hr as [Hrn Hr], Hh as [Hhn Hh]. destruct (Hnew c (list_elem_of_here _ _)) as [Hnr Hnh].
  cbn [checkChunks chunkSecret cs_Index cs_DeleteToken].
  rewrite Hi, Hroute, Hhash, Hsize, Htok, Sha256.Sum256_blen, !Z.eqb_refl. cbn [negb orb]. rewrite <- Hhash.
  rewrite (bool_decide_eq_false_2 _ Hnr), (bool_decide_eq_false_2 _ Hnh).
  replace (Z.of_nat index + 1) with (Z.of_nat (S index)) by lia. apply IH; [done..|].
  intros c' Hc'. destruct (Hnew c' (list_elem_of_further _ _ _ Hc')) as [H1 H2]. rewrite <- !list_fmap_compose in *.
  split; intros [Heq%elem_of_singleton|?]%elem_of_union; try done.
  - apply Hrn. rewrite <- Heq. by apply (list_elem_of_fmap_2 (fc_RouteTag ∘ ec_Metadata)).
  - apply Hhn. rewrite <- Heq. by apply (list_elem_of_fmap_2 (fc_CipherHash ∘ ec_Metadata)).
Qed.

Lemma file_validates (name mediaType : string) (plaintext : bytes) (f : EncryptedFile) (l : list bytes) :
  file_ok name mediaType plaintext f l → NoDup (fc_RouteTag <$> fm_Chunks (ef_Manifest f)) →
  NoDup (fc_CipherHash <$> fm_Chunks (ef_Manifest f)) → validateManifest (ef_Secret f) (ef_Manifest f) = None.
Proof.
  intros [Hcs [Hb Hlen] (Hn & Hne & Hnl) (Ht & Ht0 & Htl & Hctl) Hv [Hid Hraw] Hk [_ Hcount] Hs Hidx [Hch Htok]] Hr Hh.
  set (m := ef_Manifest f) in *. set (sec := ef_Secret f) in *.
  assert (Hnum : blen (fm_Chunks m) = blen l ∧ blen (fs_DeleteTokens sec) = blen l).
  { apply Forall2_length in Hs. unfold blen. rewrite Hch, Htok, !length_fmap. lia. }
  unfold validateManifest. match goal with |- context [if ?g then _ else _] => destruct g eqn:Hg end.
  { exfalso. assert (slen (fm_Name m) ≠ 0) by (rewrite Hn; unfold slen; by destruct (Base name)).
    rewrite Hn, Ht in *. rewrite Hctl, Base_idem in Hg. refute Hg. }
  clear Hg. rewrite i64_small by (unfold DefaultMaxFileBytes, DefaultMaxItemBytes in *; lia).
  rewrite Z.quot_div_nonneg, Hb, <- Hcount by lia.
  assert (Hrange : 0 < blen l ≤ 4097).
  { rewrite Hcount. unfold DefaultMaxFileBytes in *. split; [apply Z.div_str_pos; lia|].
    apply Z.div_le_upper_bound; lia. }
  match goal with |- context [if ?g then _ else _] => destruct g eqn:Hg end.
  { exfalso. change (Z.quot DefaultMaxFileBytes (16 * 1024) + 1) with 4097 in Hg. refute Hg. }
  rewrite Hch, Htok in *. apply (checkChunks_None (fs_Key sec) (fm_FileID m) (fm_ChunkSize m) l (ef_Chunks f) 0); try done.
Qed.

(** ** Decrypting *)

(** The payloads of an encrypted file by chunk index. *)
Definition payloads (f : EncryptedFile) : gmap Z bytes :=
  list_to_map ((λ c, (fc_Index (ec_Metadata c), ec_Payload c)) <$> ef_Chunks f).

(** Chunks that pass their hashes are the chunks that were sealed, or collide. *)
Lemma decryptChunks_sealed (key : bytes) (fileID : string) (chunkSize : Z) (manifest : FileManifest) (got : gmap Z bytes)
    (l : list bytes) (chunks : list EncryptedChunk) (output : bytes) :
  fm_FileID manifest = fileID → fm_ChunkSize manifest = chunkSize → Forall2 (sealed key fileID chunkSize) l chunks →
  (∀ c, c ∈ chunks → got !! fc_Index (ec_Metadata c) = Some (ec_Payload c)) →
  decryptChunks key manifest got output (ec_Metadata <$> chunks) = Ok (output ++ mjoin l).
Proof.
  intros Hid Hcs Hs. revert output. induction Hs as [|p c l chunks [_ _ _ _ Hopen] _ IH]; intros output Hgot.
  { cbn. by rewrite app_nil_r. }
  rewrite fmap_cons. cbn [decryptChunks]. rewrite (Hgot c (list_elem_of_here _ _)), (Hopen manifest Hid Hcs).
  rewrite IH by (intros; apply Hgot; by apply list_elem_of_further). cbn [mjoin list_join]. by rewrite app_assoc.
Qed.

Lemma decryptChunks_hashes (key : bytes) (manifest : FileManifest) (got : gmap Z bytes) (l : list FileChunk)
    (output p : bytes) :
  decryptChunks key manifest got output l = Ok p →
  ∀ m, m ∈ l → ∃ x, got !! fc_Index m = Some x ∧ Sha256.Sum256 x = fc_CipherHash m.
Proof.
  revert output. induction l as [|m0 l IH]; intros output H m Hm; [by apply not_elem_of_nil in Hm|].
  cbn [decryptChunks] in H. destruct (got !! fc_Index m0) as [x|] eqn:Hx; [|done].
  destruct (decryptChunk key manifest m0 x) as [piece|] eqn:Hd; [|done].
  apply elem_of_cons in Hm as [->|Hm]; [|by eapply IH]. exists x. split; [done|].
  unfold decryptChunk in Hd. step_if Hd. unbool. by apply bytes_equal_true.
Qed.

Lemma payloads_lookup (name mediaType : string) (plaintext : bytes) (f : EncryptedFile) (l : list bytes) :
  file_ok name mediaType plaintext f l →
  Z.of_nat (size (payloads f)) = blen (fm_Chunks (ef_Manifest f)) ∧
  ∀ c, c ∈ ef_Chunks f → payloads f !! fc_Index (ec_Metadata c) = Some (ec_Payload c).
Proof.
  intros Hf. assert (Hnd : NoDup ((λ c, (fc_Index (ec_Metadata c), ec_Payload c)) <$> ef_Chunks f).*1).
  { rewrite <- list_fmap_compose. change (NoDup ((λ c, fc_Index (ec_Metadata c)) <$> ef_Chunks f)).
    rewrite (fo_index _ _ _ _ _ Hf). apply NoDup_fmap_2; [apply _|]. apply NoDup_seq. }
  split.
  - unfold payloads, blen. rewrite map_size_list_to_map by done. destruct (fo_lists _ _ _ _ _ Hf) as [-> _].
    by rewrite !length_fmap.
  - intros c Hc. apply elem_of_list_to_map_1; [done|]. apply list_elem_of_fmap. by exists c.
Qed.

Lemma DecryptFile_sealed (name mediaType : string) (plaintext : bytes) (f : EncryptedFile) (l : list bytes)
    (got : gmap Z bytes) :
  file_ok name mediaType plaintext f l → validateManifest (ef_Secret f) (ef_Manifest f) = None →
  Z.of_nat (size got) = blen (fm_Chunks (ef_Manifest f)) →
  (∀ c, c ∈ ef_Chunks f → got !! fc_Index (ec_Metadata c) = Some (ec_Payload c)) →
  DecryptFile (ef_Secret f) (ef_Manifest f) got = Ok plaintext.
Proof.
  intros Hf Hval Hsize Hgot. unfold DecryptFile. rewrite Hval, Hsize, Z.eqb_refl. cbn [negb].
  destruct (fo_id _ _ _ _ _ Hf) as [Hid _]. rewrite (bool_decide_eq_true_2 _ Hid), (fo_key _ _ _ _ _ Hf). cbn [negb orb Z.eqb Pos.eqb].
  destruct (fo_lists _ _ _ _ _ Hf) as [Hch _]. rewrite Hch.
  rewrite (decryptChunks_sealed _ _ _ (ef_Manifest f) got l (ef_Chunks f) [] eq_refl eq_refl (fo_sealed _ _ _ _ _ Hf) Hgot).
  destruct (fo_pieces _ _ _ _ _ Hf) as [-> _]. destruct (fo_bytes _ _ _ _ _ Hf) as [-> _]. cbn [app].
  by rewrite Z.eqb_refl.
Qed.

(** Whatever decrypts is the file, or a ciphertext given collides with one of its chunks. *)
Lemma DecryptFile_original (name mediaType : string) (plaintext : bytes) (f : EncryptedFile) (l : list bytes)
    (got : gmap Z bytes) (p : bytes) :
  file_ok name mediaType plaintext f l → validateManifest (ef_Secret f) (ef_Manifest f) = None →
  DecryptFile (ef_Secret f) (ef_Manifest f) got = Ok p →
  p = plaintext ∨ ∃ c x, c ∈ ef_Chunks f ∧ got !! fc_Index (ec_Metadata c) = Some x ∧ Sha256.collides x (ec_Payload c).
Proof.
  intros Hf Hval Hd. assert (Hsize : Z.of_nat (size got) = blen (fm_Chunks (ef_Manifest f))).
  { unfold DecryptFile in Hd. rewrite Hval in Hd. step_if Hd. by unbool. }
  destruct (decide (Forall (λ c, got !! fc_Index (ec_Metadata c) = Some (ec_Payload c)) (ef_Chunks f))) as [Hall|Hno].
  - left. rewrite Forall_forall in Hall.
    rewrite (DecryptFile_sealed _ _ _ _ _ got Hf Hval Hsize) in Hd; [by apply (inj Ok) in Hd|].
    intros c Hin. apply Hall. by apply list_elem_of_In.
  - right. apply not_Forall_Exists in Hno; [|apply _]. apply list.Exists_exists in Hno as (c & Hin & Hne). cbn beta in Hne.
    unfold DecryptFile in Hd. rewrite Hval in Hd. step_if Hd. step_if Hd.
    destruct (decryptChunks _ _ _ _ _) as [out|] eqn:Hdec; [|done].
    destruct (fo_lists _ _ _ _ _ Hf) as [Hlist _]. rewrite Hlist in Hdec.
    destruct (decryptChunks_hashes _ _ _ _ _ _ Hdec (ec_Metadata c)) as (x & Hx & Hhash);
      [by apply list_elem_of_fmap_2|].
    pose proof (fo_sealed _ _ _ _ _ Hf) as Hs. apply list_elem_of_lookup in Hin as [i Hi'].
    destruct (Forall2_lookup_r _ _ _ _ _ Hs Hi') as (q & _ & [_ Hh _ _ _]).
    exists c, x. split_and!; [by eapply list_elem_of_lookup_2|done|]. rewrite Hh in Hhash.
    apply Sha256.Sum256_inj in Hhash as [->|?]; [|done]. congruence.
Qed.

(** C29. A file comes back whole: the chunks that [EncryptFile] makes, given by their
    indices, decrypt with its secret and manifest to the plaintext, for every
    accepted file, chunk size and randomness, as long as the random routes and the
    ciphertext hashes are distinct. The number of chunks is the file size over the
    chunk size, rounded up, and every ciphertext has the same length. *)
Theorem file_roundtrip (rand_key rand_id : Z → Result bytes) (rnd : nat → ChunkRandomness) (name mediaType : string)
    (plaintext : bytes) (maxBytes chunkSize : Z) (f : EncryptedFile) :
  Padding.rand_fills rand_key → Padding.rand_fills rand_id → (∀ i, chunk_fills (rnd i)) →
  EncryptFile rand_key rand_id rnd name mediaType plaintext maxBytes chunkSize = Ok f →
  NoDup (fc_RouteTag <$> fm_Chunks (ef_Manifest f)) → NoDup (fc_CipherHash <$> fm_Chunks (ef_Manifest f)) →
  DecryptFile (ef_Secret f) (ef_Manifest f) (payloads f) = Ok plaintext ∧
  blen (ef_Chunks f) = (blen plaintext + fm_ChunkSize (ef_Manifest f) - 1) / fm_ChunkSize (ef_Manifest f) ∧
  Forall (λ c, fc_CipherSize (ec_Metadata c) = fm_ChunkSize (ef_Manifest f) + 32) (ef_Chunks f).
Proof.
  intros Hk Hi Hc H Hr Hh. destruct (EncryptFile_ok _ _ _ _ _ _ _ _ _ Hk Hi Hc H) as [l Hf].
  destruct (payloads_lookup _ _ _ _ _ Hf) as [Hsize Hgot]. pose proof (fo_sealed _ _ _ _ _ Hf) as Hs. split_and!.
  - by eapply DecryptFile_sealed, Hgot; [| eapply file_validates|].
  - destruct (fo_pieces _ _ _ _ _ Hf) as [_ <-]. apply Forall2_length in Hs. unfold blen. by rewrite Hs.
  - apply Forall_forall. intros c Hin%list_elem_of_In. apply list_elem_of_lookup in Hin as [i Hi'].
    destruct (Forall2_lookup_r _ _ _ _ _ Hs Hi') as (p & _ & [_ _ Hsz _ _]). lia.
Qed.

End Facts.

(** * Retrieving *)

Section RetrieveFacts.
Context {AE : ClientStore.AEAD} {AL : ClientStore.AEADLaws} {E Cr : Type} {CC : ChunkCore E Cr} {MO : MapOrder}.

(** The routes of the manifest, cut into batches, were fetched from [core] with the result [found]. *)
Definition fetched (fetches : nat → E) (core : Cr) (manifest : FileManifest) (core' : Cr) (found : Result Found) : Prop :=
  ∃ batches, mjoin batches = fc_RouteTag <$> fm_Chunks manifest ∧
    fetchBatches fetches (byHash (fm_Chunks manifest)) core 0 0 (∅, ∅) batches = (core', found).

(** C10. Untrusted nodes cannot change a file: whatever the core fetches, if [Retrieve]
    returns a plaintext for the secret and manifest of an encrypted file, it is the
    original, or a ciphertext that was fetched collides with the chunk it stands for. Nothing is
    deleted before:
    when it returns an error, or deletion was not asked for, the core is as the
    fetches left it. *)
Theorem Retrieve_integrity (rand_key rand_id : Z → Result bytes) (rnd : nat → ChunkRandomness) (name mediaType : string)
    (plaintext : bytes) (maxBytes chunkSize : Z) (f : EncryptedFile) (fetches deletes : nat → E) (core core' : Cr)
    (delete : bool) res :
  Padding.rand_fills rand_key → Padding.rand_fills rand_id → (∀ i, chunk_fills (rnd i)) →
  EncryptFile rand_key rand_id rnd name mediaType plaintext maxBytes chunkSize = Ok f →
  Retrieve fetches deletes core (ef_Secret f) (ef_Manifest f) delete = (core', res) →
  (∀ p report, res = Ok (p, report) →
     p = plaintext ∨
     ∃ core1 got items c x, fetched fetches core (ef_Manifest f) core1 (Ok (got, items)) ∧ c ∈ ef_Chunks f ∧
       got !! fc_Index (ec_Metadata c) = Some x ∧ Sha256.collides x (ec_Payload c)) ∧
  ((∃ e, res = Err e) ∨ delete = false → core' = core ∨ ∃ found, fetched fetches core (ef_Manifest f) core' found).
Proof.
  intros Hk Hi Hc Hfile H. destruct (EncryptFile_ok _ _ _ _ _ _ _ _ _ Hk Hi Hc Hfile) as [l Hf].
  unfold Retrieve in H. destruct (validateManifest _ _) as [e|] eqn:Hval.
  { injection H as <- <-. split; [done|by left]. }
  destruct (fm_Chunks (ef_Manifest f)) as [|first rest] eqn:Hch.
  { injection H as <- <-. split; [done|by left]. }
  rewrite <- Hch in *. cbv zeta in H. destruct (_ <=? 0) eqn:Hpos; [injection H as <- <-; split; [done|by left]|]. unbool.
  set (batches := pieces _ _ _) in H.
  assert (Hcut : mjoin batches = fc_RouteTag <$> fm_Chunks (ef_Manifest f)).
  { apply pieces_concat; [|done]. unfold MaxRouteTagsPerFetch. lia. }
  destruct (fetchBatches _ _ _ _ _ _ batches) as [core1 [[got items]|e]] eqn:Hfetch; cycle 1.
  { injection H as <- <-. split; [done|]. right. exists (Err e). by exists batches. }
  assert (Hgot : fetched fetches core (ef_Manifest f) core1 (Ok (got, items))) by by exists batches.
  destruct (DecryptFile _ _ got) as [p|e] eqn:Hd; cycle 1.
  { injection H as <- <-. split; [done|]. eauto. }
  assert (Hp : p = plaintext ∨ ∃ core1 got items c x, fetched fetches core (ef_Manifest f) core1 (Ok (got, items)) ∧
    c ∈ ef_Chunks f ∧ got !! fc_Index (ec_Metadata c) = Some x ∧ Sha256.collides x (ec_Payload c)).
  { destruct (DecryptFile_original _ _ _ _ _ _ _ Hf Hval Hd) as [->|(c & x & ? & ? & ?)]; [by left|right]. eauto 10. }
  destruct delete.
  - destruct (deleteChunks _ _ _ _ _ _) as [core2 report]. injection H as <- <-.
    split; [by intros ? ? [= <- <-]|]. by intros [[? ?]|?].
  - injection H as <- <-. split; [by intros ? ? [= <- <-]|]. eauto.
Qed.

End RetrieveFacts.

(** * Storing *)

Section StoreFacts.
Context {E Cr : Type} {CC : ChunkCore E Cr} {CL : ChunkCoreLaws E Cr}.

(** The delivery of a chunk. *)
Definition delivered (quorum : Z) (c : EncryptedChunk) (d : ClientCore.Delivery) : Prop :=
  si_RouteTag (ClientCore.d_Item d) = fc_RouteTag (ec_Metadata c) ∧ si_Payload (ClientCore.d_Item d) = ec_Payload c ∧
  ClientCore.d_DeleteToken d = ec_DeleteToken c ∧ quorum ≤ blen (ClientCore.d_Receipts d) ∧
  NoDup (sr_NodeID <$> ClientCore.d_Receipts d).

Lemma storeChunks_delivered (env : nat → E) (quorum : Z) (chunks : list EncryptedChunk) (expected : list FileChunk)
    (tokens : list FileChunkSecret) (core core' : Cr) (index : nat) (before : list EncryptedChunk) ds ds' err :
  cc_ok core → cc_quorum core = quorum → Forall2 (delivered quorum) before ds →
  length expected = length chunks → length tokens = length chunks →
  storeChunks env core index ds chunks expected tokens = Some (core', ds', err) →
  (∃ done rest, chunks = done ++ rest ∧ Forall2 (delivered quorum) (before ++ done) ds' ∧ (err = None → rest = [])).
Proof.
  revert core index before ds expected tokens. induction chunks as [|c chunks IH];
    intros core index before ds expected tokens Hok Hq Hds He Ht H; destruct expected as [|want expected], tokens as [|tok tokens];
    try (simpl in *; lia); cbn [storeChunks] in H.
  { injection H as <- <- <-. exists [], []. split_and!; [done|by rewrite app_nil_r|done]. }
  cbv zeta in H. step_if H.
  { injection H as <- <- <-. exists [], (c :: chunks). split_and!; [done|by rewrite app_nil_r|done]. }
  destruct (cc_StoreOpaque _ _ _ _ _) as [[[core1 d] [e|]]|] eqn:Hst; [| |done].
  { injection H as <- <- <-. exists [], (c :: chunks). split_and!; [done|by rewrite app_nil_r|done]. }
  destruct (cc_kept _ _ _ _ _ _ _ _ Hok Hst) as [Hok1 Hq1]. pose proof (cc_stored _ _ _ _ _ _ _ Hok Hst) as Hd.
  rewrite Hq in Hd, Hq1. apply (IH _ _ (before ++ [c])) in H as (fin & rest & -> & Hall & Herr); try done.
  - exists (c :: fin), rest. split_and!; [done|by rewrite <- app_assoc in Hall|done].
  - apply Forall2_app; [done|]. by constructor.
  - simpl in *. lia.
  - simpl in *. lia.
Qed.

(** A stored file is replicated chunk by chunk: over a core that keeps its promise,
    the deliveries [Store] returns are those of the first chunks, in order, each
    with the chunk's ciphertext, route and delete token and with receipts of a
    write quorum of different nodes; without an error they cover the whole file,
    and after an error they cover what was stored before it. *)
Theorem Store_delivered (env : nat → E) (core core' : Cr) (f : EncryptedFile) ds err :
  cc_ok core → Store env core f = Some (core', ds, err) →
  ∃ stored rest, ef_Chunks f = stored ++ rest ∧ Forall2 (delivered (cc_quorum core)) stored ds ∧
    (err = None → rest = []).
Proof.
  intros Hok H. unfold Store in H. destruct (validateManifest _ _) eqn:Hval.
  { injection H as <- <- <-. exists [], (ef_Chunks f). split_and!; [done|constructor|done]. }
  step_if H. { injection H as <- <- <-. exists [], (ef_Chunks f). split_and!; [done|constructor|done]. }
  unbool. apply (storeChunks_delivered env (cc_quorum core) _ _ _ _ _ _ []) in H; try done.
  - unfold blen in *. lia.
  - unfold validateManifest in Hval. step_if Hval. step_if Hval. unbool. unfold blen in *. lia.
Qed.

End StoreFacts.

(** * The client core is such a core *)

Section Core.
Context {C : Crypto}.
Context {DParams : StrictDecoder NodeParameters}
        {MItem : Marshaler StoredItem} {DReceipt : StrictDecoder StorageReceipt}
        {MFetch : Marshaler ClientNode.FetchRequest} {DFetch : StrictDecoder ClientNode.FetchResponse}
        {MDelete : Marshaler DeleteRequest} {DDelete : StrictDecoder DeleteReceipt}
        {MDelivery : Marshaler ClientCore.Delivery}.
Context {MO : MapOrder} {SCH : ClientCore.Schedule} {E St : Type} {LS : ClientCore.LocalStore E St}.

(** The environment of a call of the core. *)
Record CoreCall := {
  q_now : Time; q_clock : ClientCore.Clock; q_fuel : nat; q_poll : Z → option error; q_env : E;
}.

#[export] Instance client_core : ChunkCore CoreCall (ClientCore.Core St) := {|
  cc_StoreOpaque k c := ClientCore.StoreOpaque (q_now k) (q_clock k) (q_fuel k) (q_poll k) (q_env k) c;
  cc_Fetch k c := ClientCore.Fetch (q_clock k) c;
  cc_DeleteItemEverywhere k c id token := (c, ClientCore.DeleteItemEverywhere (q_clock k) c id token);
|}.

#[export] Program Instance client_core_laws : ChunkCoreLaws CoreCall (ClientCore.Core St) := {|
  cc_ok := ClientCore.core_ok; cc_quorum := ClientCore.writeQuorum;
|}.
Next Obligation.
  intros k c tag payload token c' d err Hok H. cbn in H. unfold ClientCore.StoreOpaque in H. step_if H.
  { by injection H as <- <- <-. }
  apply ClientCore.StoreReplicated_result in H; [|done]. by eapply ClientCore.write_core.
Qed.
Next Obligation.
  intros k c tag payload token c' d Hok H. cbn in H. unfold ClientCore.StoreOpaque in H. step_if H.
  apply ClientCore.StoreReplicated_result in H; [|done].
  inversion H as [| | |rep d' c1 perr [_ _ _ [w Hi] Ht Hnd _ _] Hq Hper Hc Hd]; subst. rewrite Hi. done.
Qed.

End Core.

(** * Witnesses *)

Module Sample.

#[local] Existing Instances ClientStore.Sample.aead ClientStore.Sample.aead_laws.

Definition rnd : ChunkRandomness :=
  {| cr_padding := Padding.zero_rand; cr_nonce := Padding.zero_rand; cr_route := Padding.zero_rand;
     cr_token := Padding.zero_rand |}.
Definition hello : bytes := str_bytes "hello".
Definition no_file : EncryptedFile :=
  {| ef_Secret := {| fs_FileID := ""; fs_Key := []; fs_DeleteTokens := [] |};
     ef_Manifest := {| fm_Version := 0; fm_FileID := ""; fm_Name := ""; fm_MediaType := ""; fm_PlaintextBytes := 0;
                       fm_ChunkSize := 0; fm_Chunks := [] |};
     ef_Chunks := [] |}.
Definition file : EncryptedFile :=
  ok_or no_file (EncryptFile Padding.zero_rand Padding.zero_rand (λ _, rnd) "dir/a.txt" "text/plain" hello 0 16384).

Lemma fills (i : nat) : chunk_fills rnd.
Proof. split_and!; apply Padding.zero_rand_fills. Qed.

Lemma encrypted :
  EncryptFile Padding.zero_rand Padding.zero_rand (λ _, rnd) "dir/a.txt" "text/plain" hello 0 16384 = Ok file.
Proof. apply ok_or_eq. reflexivity. Qed.

Lemma one_route : NoDup (fc_RouteTag <$> fm_Chunks (ef_Manifest file)).
Proof. apply NoDup_short. apply Nat.eq_le_incl. reflexivity. Qed.
Lemma one_hash : NoDup (fc_CipherHash <$> fm_Chunks (ef_Manifest file)).
Proof. apply NoDup_short. apply Nat.eq_le_incl. reflexivity. Qed.

(** A core that holds items for everyone and stores with a quorum of none. *)
#[export] Instance core : ChunkCore () (list StoredItem) := {|
  cc_StoreOpaque _ c tag payload token :=
    Some (c, {| ClientCore.d_Item := {| si_Version := 1; si_ItemID := ""; si_RouteTag := tag; si_CreatedAt := 0;
                  si_ExpiresAt := 0; si_DeleteTokenHash := []; si_Payload := payload; si_Work := zeroWork |};
                ClientCore.d_DeleteToken := token; ClientCore.d_Receipts := []; ClientCore.d_FailedNodes := ∅ |}, None);
  cc_Fetch _ c _ := (c, Ok c);
  cc_DeleteItemEverywhere _ c _ _ := (c, ∅);
|}.
#[export] Program Instance core_laws : ChunkCoreLaws () (list StoredItem) := {| cc_ok _ := True; cc_quorum _ := 0 |}.
Next Obligation. by intros e c tag payload token c' d err _ [= <- <- <-]. Qed.
Next Obligation.
  intros e c tag payload token c' d _ [= <- <-]. split_and!; [done..|constructor].
Qed.

Definition chunk : EncryptedChunk :=
  {| ec_Metadata := {| fc_Index := 0; fc_RouteTag := ""; fc_CipherHash := []; fc_CipherSize := 0 |};
     ec_Payload := []; ec_DeleteToken := [] |}.
Definition first : EncryptedChunk := default chunk (head (ef_Chunks file)).
Definition item : StoredItem :=
  {| si_Version := 1; si_ItemID := "item"; si_RouteTag := fc_RouteTag (ec_Metadata first); si_CreatedAt := 0;
     si_ExpiresAt := 0; si_DeleteTokenHash := []; si_Payload := ec_Payload first; si_Work := zeroWork |}.

Lemma chunks_first : ef_Chunks file = [first].
Proof. reflexivity. Qed.
Lemma metadata_first : fm_Chunks (ef_Manifest file) = [ec_Metadata first].
Proof. reflexivity. Qed.

Lemma file_fine : ∃ l, file_ok "dir/a.txt" "text/plain" hello file l.
Proof.
  exact (EncryptFile_ok Padding.zero_rand Padding.zero_rand (λ _, rnd) "dir/a.txt" "text/plain" hello 0 16384 file
    Padding.zero_rand_fills Padding.zero_rand_fills fills encrypted).
Qed.

Lemma validated : validateManifest (ef_Secret file) (ef_Manifest file) = None.
Proof. destruct file_fine as [l Hf]. exact (file_validates _ _ _ _ _ Hf one_route one_hash). Qed.

Lemma taken : takeItem (byHash [ec_Metadata first]) (∅, ∅) item = ({[0 := ec_Payload first]}, {[0 := item]}).
Proof.
  unfold takeItem, byHash. cbn [foldl si_Payload item].
  change (fc_CipherHash (ec_Metadata first)) with (Sha256.Sum256 (ec_Payload first)). rewrite lookup_insert_eq.
  rewrite bool_decide_eq_true_2 by reflexivity. reflexivity.
Qed.

Lemma decrypted : DecryptFile (ef_Secret file) (ef_Manifest file) {[0 := ec_Payload first]} = Ok hello.
Proof.
  destruct file_fine as [l Hf]. apply (DecryptFile_sealed _ _ _ _ _ _ Hf validated).
  - rewrite map_size_singleton, metadata_first. reflexivity.
  - intros c. rewrite chunks_first. intros ->%list_elem_of_singleton.
    change (fc_Index (ec_Metadata first)) with 0. apply lookup_singleton_eq.
Qed.

Lemma first_size : fc_CipherSize (ec_Metadata first) = 16416.
Proof.
  destruct file_fine as [l Hf]. pose proof (fo_sealed _ _ _ _ _ Hf) as Hs. rewrite chunks_first in Hs.
  inversion Hs as [|? ? ? ? [_ _ Hsize _ _] _]. rewrite Hsize. reflexivity.
Qed.

Lemma retrieved :
  Retrieve (λ _, ()) (λ _, ()) [item] (ef_Secret file) (ef_Manifest file) false = ([item], Ok (hello, ∅)).
Proof.
  unfold Retrieve. rewrite validated, metadata_first. cbv zeta.
  rewrite first_size. change (_ <=? 0) with false. cbv iota.
  change (pieces _ _ _) with [[fc_RouteTag (ec_Metadata first)]]. cbn [fetchBatches cc_Fetch core foldl].
  rewrite taken. cbv beta iota. by rewrite decrypted.
Qed.

End Sample.

#[local] Existing Instances ClientStore.Sample.aead ClientStore.Sample.aead_laws Sample.core Sample.core_laws.

Lemma file_roundtrip_witness :
  DecryptFile (ef_Secret Sample.file) (ef_Manifest Sample.file) (payloads Sample.file) = Ok Sample.hello.
Proof.
  destruct (file_roundtrip Padding.zero_rand Padding.zero_rand (λ _, Sample.rnd) "dir/a.txt" "text/plain" Sample.hello 0
    16384 Sample.file Padding.zero_rand_fills Padding.zero_rand_fills Sample.fills Sample.encrypted Sample.one_route
    Sample.one_hash) as [H _]. exact H.
Defined.

Lemma Retrieve_integrity_witness :
  Sample.hello = Sample.hello ∨
  ∃ core1 got items c x, fetched (λ _, ()) [Sample.item] (ef_Manifest Sample.file) core1 (Ok (got, items)) ∧
    c ∈ ef_Chunks Sample.file ∧ got !! fc_Index (ec_Metadata c) = Some x ∧ Sha256.collides x (ec_Payload c).
Proof.
  destruct (Retrieve_integrity Padding.zero_rand Padding.zero_rand (λ _, Sample.rnd) "dir/a.txt" "text/plain" Sample.hello 0
    16384 Sample.file (λ _, ()) (λ _, ()) [Sample.item] [Sample.item] false (Ok (Sample.hello, ∅))
    Padding.zero_rand_fills Padding.zero_rand_fills Sample.fills Sample.encrypted Sample.retrieved) as [H _].
  exact (H _ _ eq_refl).
Defined.

Lemma Store_delivered_witness :
  ∃ d, Store (λ _, ()) [] Sample.file = Some ([], [d], None) ∧ delivered 0 Sample.first d.
Proof.
  assert (Hs : ∃ d, Store (λ _, ()) [] Sample.file = Some ([], [d], None)).
  { unfold Store. rewrite Sample.validated, Sample.metadata_first, Sample.chunks_first.
    change (fs_DeleteTokens (ef_Secret Sample.file)) with [chunkSecret Sample.first].
    cbn [storeChunks]. unfold bytes_equal. rewrite !bool_decide_eq_true_2 by reflexivity.
    rewrite !Z.eqb_refl. change (fc_Index (ec_Metadata Sample.first)) with 0. eexists. reflexivity. }
  destruct Hs as [d Hs]. exists d. split; [exact Hs|].
  destruct (Store_delivered (CL := Sample.core_laws) (λ _, ()) [] [] Sample.file [d] None I Hs) as (stored & rest & He & Hf & Hr).
  rewrite (Hr eq_refl), app_nil_r, Sample.chunks_first in He. rewrite <- He in Hf.
  inversion Hf as [|? ? ? ? Hd _]. exact Hd.
Defined.

End Media.
