(* ===== verification/Transport.v ===== *)
(** Node transport authentication: the self-signed certificate of a node
    (src/pqcrypto/tls.go), the server's TLS profile with certificate renewal and the
    client that pins a node's key (src/transportauth/transport.go). The TLS handshake
    and X.509 are packages outside the program. *)
From S2P Require Import Prelude Sha256 Encoding Protocol Crypto.
Local Open Scope Z_scope.

Module Transport.

Definition Day : Duration := 24 * Hour.
Definition NodeTransportCertificateLifetime : Duration := 366 * Day.
Definition transportCertificateRenewBefore : Duration := 30 * Day.

(** * X.509 and TLS *)

Inductive PublicKey := Ed25519Key (k : bytes) | OtherPublicKey.
Inductive PrivateKey := Ed25519Private (k : bytes) | OtherPrivateKey.
Inductive ExtKeyUsage := ExtKeyUsageServerAuth | ExtKeyUsageOther (z : Z).
#[export] Instance ExtKeyUsage_eq_dec : EqDecision ExtKeyUsage.
Proof. solve_decision. Defined.

Definition KeyUsageDigitalSignature : Z := 1.

(** The template of a certificate, as far as it is set. *)
Record Template := {
  tp_SerialNumber : Z;
  tp_NotBefore : Time;
  tp_NotAfter : Time;
  tp_KeyUsage : Z;
  tp_ExtKeyUsage : list ExtKeyUsage;
  tp_BasicConstraintsValid : bool;
  tp_IsCA : bool;
}.

(** A parsed certificate; [lf_Raw] stands for the signed part, its signature and the
    algorithm. *)
Record Leaf := {
  lf_PublicKey : PublicKey;
  lf_IsCA : bool;
  lf_KeyUsage : Z;
  lf_NotBefore : Time;
  lf_NotAfter : Time;
  lf_ExtKeyUsage : list ExtKeyUsage;
  lf_Raw : bytes;
}.

(** crypto/x509. [CreateCertificate] issues the template under itself. *)
Class X509 := {
  CreateCertificate : bytes → Template → bytes → bytes → Result bytes;
  ParseCertificate : bytes → Result Leaf;
  CheckSignature : Leaf → option error;
}.

(** What is documented of them: a certificate issued for one's own key parses to the
    fields of its template, with times in whole seconds, and its signature checks. *)
Class X509Laws `{C : Crypto} (X : X509) : Prop := {
  issued_parses coins t k b l :
    blen k = ed25519_PrivateKeySize → CreateCertificate coins t (ed25519_Public k) k = Ok b → ParseCertificate b = Ok l →
    lf_PublicKey l = Ed25519Key (ed25519_Public k) ∧ lf_IsCA l = tp_IsCA t ∧ lf_KeyUsage l = tp_KeyUsage t ∧
    lf_NotBefore l = Truncate (tp_NotBefore t) Second ∧ lf_NotAfter l = Truncate (tp_NotAfter t) Second ∧
    lf_ExtKeyUsage l = tp_ExtKeyUsage t ∧ CheckSignature l = None;
}.

(** [tls.Certificate]. *)
Record Certificate := {
  ct_Certificate : list bytes;
  ct_PrivateKey : option PrivateKey;
  ct_Leaf : option Leaf;
}.

Definition VersionTLS13 : Z := 0x0304.
Definition X25519MLKEM768 : Z := 4588.

(** The fields of a [tls.Config] that are set. *)
Record ServerConfig := {
  sc_Certificates : list Certificate;
  sc_MinVersion : Z;
  sc_MaxVersion : Z;
  sc_CurvePreferences : list Z;
  sc_NextProtos : list string;
  sc_SessionTicketsDisabled : bool;
}.

Record ConnectionState := {
  cs_Version : Z;
  cs_CurveID : Z;
  cs_PeerCertificates : list Leaf;
}.

Section Transport.
Context `{C : Crypto} {X : X509}.

(** * Certificates *)

(** [serial] is the outcome of [rand.Int] below 2^128, [coins] what [CreateCertificate]
    reads. The receiver is not nil. *)
Definition TransportCertificate (serial : Result Z) (coins : bytes) (s : HybridSigner) (now : Time) : Result Certificate :=
  if negb (blen (edPrivate s) =? ed25519_PrivateKeySize) || IsZero now then Err "invalid node transport certificate input"
  else match serial with
  | Err e => Err e
  | Ok serial =>
      let template :=
        {| tp_SerialNumber := if serial =? 0 then 1 else serial;
           tp_NotBefore := TAdd now (- (5 * Minute)); tp_NotAfter := TAdd now NodeTransportCertificateLifetime;
           tp_KeyUsage := KeyUsageDigitalSignature; tp_ExtKeyUsage := [ExtKeyUsageServerAuth];
           tp_BasicConstraintsValid := true; tp_IsCA := false |} in
      match CreateCertificate coins template (ed25519_Public (edPrivate s)) (edPrivate s) with
      | Err e => Err e
      | Ok encoded =>
          match ParseCertificate encoded with
          | Err e => Err e
          | Ok leaf => Ok {| ct_Certificate := [encoded]; ct_PrivateKey := Some (Ed25519Private (edPrivate s));
                             ct_Leaf := Some leaf |}
          end
      end
  end.

Fixpoint allowsServerAuthentication (usages : list ExtKeyUsage) : bool :=
  match usages with
  | [] => false
  | usage :: usages => if bool_decide (usage = ExtKeyUsageServerAuth) then true else allowsServerAuthentication usages
  end.

(** * The server *)

Definition serverTLSConfigAt (certificate : Certificate) (now : Time) : Result ServerConfig :=
  match ct_Certificate certificate, ct_PrivateKey certificate with
  | [raw], Some private =>
      match (match ct_Leaf certificate with
             | Some leaf => Ok leaf
             | None => match ParseCertificate raw with
                       | Ok leaf => Ok leaf | Err _ => Err "node transport certificate is malformed" end
             end) with
      | Err e => Err e
      | Ok leaf =>
          if negb (match lf_PublicKey leaf, private with
                   | Ed25519Key public, Ed25519Private private => bytes_equal public (ed25519_Public private)
                   | _, _ => false end) ||
             lf_IsCA leaf || (Z.land (lf_KeyUsage leaf) KeyUsageDigitalSignature =? 0) ||
             Before now (lf_NotBefore leaf) || After now (lf_NotAfter leaf) ||
             negb (allowsServerAuthentication (lf_ExtKeyUsage leaf)) || bool_decide (CheckSignature leaf ≠ None)
          then Err "node transport certificate has unsafe constraints"
          else Ok {| sc_Certificates := [{| ct_Certificate := ct_Certificate certificate;
                                            ct_PrivateKey := ct_PrivateKey certificate; ct_Leaf := Some leaf |}];
                     sc_MinVersion := VersionTLS13; sc_MaxVersion := VersionTLS13;
                     sc_CurvePreferences := [X25519MLKEM768]; sc_NextProtos := ["http/1.1"%string];
                     sc_SessionTicketsDisabled := true |}
      end
  | _, _ => Err "node transport certificate is unavailable"
  end.

Definition ServerTLSConfig (certificate : Certificate) (now : Time) : Result ServerConfig :=
  serverTLSConfigAt certificate now.

(** The source of the server's certificates: its signer and the certificate in use. *)
Record certificateSource := { cs_signer : HybridSigner; cs_certificate : option Certificate }.

Definition fresh (c : Certificate) (now : Time) : bool :=
  match ct_Leaf c with
  | Some leaf => negb (Before now (lf_NotBefore leaf)) &&
                 Before now (TAdd (lf_NotAfter leaf) (- transportCertificateRenewBefore))
  | None => false
  end.

Definition get (source : certificateSource) (serial : Result Z) (coins : bytes) (now : Time)
  : certificateSource * Result Certificate :=
  let renew :=
    match TransportCertificate serial coins (cs_signer source) now with
    | Err e => (source, Err e)
    | Ok certificate => ({| cs_signer := cs_signer source; cs_certificate := Some certificate |}, Ok certificate)
    end in
  match cs_certificate source with
  | Some certificate => if fresh certificate now then (source, Ok certificate) else renew
  | None => renew
  end.

(** [GetConfigForClient]; the configuration's protocols are those of the first one. The
    clock is read twice. *)
Definition GetConfigForClient (source : certificateSource) (protos : list string) (serial : Result Z) (coins : bytes)
    (now now' : Time) : certificateSource * Result ServerConfig :=
  match get source serial coins now with
  | (source, Err e) => (source, Err e)
  | (source, Ok certificate) =>
      match serverTLSConfigAt certificate now' with
      | Err e => (source, Err e)
      | Ok next => (source, Ok {| sc_Certificates := sc_Certificates next; sc_MinVersion := sc_MinVersion next;
                                  sc_MaxVersion := sc_MaxVersion next; sc_CurvePreferences := sc_CurvePreferences next;
                                  sc_NextProtos := protos; sc_SessionTicketsDisabled := sc_SessionTicketsDisabled next |})
      end
  end.

Definition rotatingServerTLSConfig (signer : option HybridSigner) (serial : Result Z) (coins : bytes) (now now' : Time)
  : Result (certificateSource * ServerConfig) :=
  match signer with
  | None => Err "node transport signer is unavailable"
  | Some signer =>
      match get {| cs_signer := signer; cs_certificate := None |} serial coins now with
      | (_, Err e) => Err e
      | (source, Ok certificate) =>
          match serverTLSConfigAt certificate now' with
          | Err e => Err e
          | Ok config => Ok (source, config)
          end
      end
  end.

(** * The client *)

(** The transport of an [http.Client], as far as it is inspected: none, a standard one
    (whether it has TLS dialers of its own, the protocols of its TLS configuration if
    there is one) or a foreign one. *)
Inductive RoundTripper :=
| NoTransport
| HTTPTransport (customDialTLS : bool) (nextProtos : option (list string))
| ForeignTransport.

Record HTTPClient := { hc_Timeout : Duration; hc_Transport : RoundTripper; hc_NoRedirect : bool }.

(** The client [PinnedHTTPClient] builds. [pc_expected] is the key its
    [VerifyConnection] captures; certificate chains are not checked otherwise. *)
Record PinnedClient := {
  pc_Timeout : Duration;
  pc_MinVersion : Z;
  pc_MaxVersion : Z;
  pc_CurvePreferences : list Z;
  pc_SessionTicketsDisabled : bool;
  pc_InsecureSkipVerify : bool;
  pc_expected : bytes;
  pc_NextProtos : list string;
  pc_ForceAttemptHTTP2 : bool;
  pc_NoRedirect : bool;
}.

(** [defaultProtos] are the protocols of a clone of [http.DefaultTransport]. *)
Definition PinnedHTTPClient (defaultProtos : option (list string)) (base : option HTTPClient) (identity : NodePublicIdentity) : Result PinnedClient :=
  if negb (ValidPublicIdentity identity) then Err "invalid pinned node identity"
  else
  let base := default {| hc_Timeout := 15 * Second; hc_Transport := NoTransport; hc_NoRedirect := false |} base in
  let build protos :=
    Ok {| pc_Timeout := hc_Timeout base; pc_MinVersion := VersionTLS13; pc_MaxVersion := VersionTLS13;
          pc_CurvePreferences := [X25519MLKEM768]; pc_SessionTicketsDisabled := true; pc_InsecureSkipVerify := true;
          pc_expected := ni_Ed25519Public identity; pc_NextProtos := protos; pc_ForceAttemptHTTP2 := true;
          pc_NoRedirect := true |} in
  match hc_Transport base with
  | ForeignTransport => Err "pinned node transport requires an HTTP transport"
  | NoTransport => build (default [] defaultProtos)
  | HTTPTransport customDialTLS nextProtos =>
      if customDialTLS then Err "custom TLS dialers cannot enforce node identity pinning"
      else build (default [] nextProtos)
  end.

(** The closure [VerifyConnection] over the key [expected]. *)
Definition VerifyConnection (expected : bytes) (state : ConnectionState) (now : Time) : option error :=
  if negb (cs_Version state =? VersionTLS13) || negb (cs_CurveID state =? X25519MLKEM768) ||
     negb (length (cs_PeerCertificates state) =? 1)%nat
  then Some "node did not negotiate the required hybrid TLS transport"%string
  else match cs_PeerCertificates state with
  | certificate :: _ =>
      if negb (match lf_PublicKey certificate with Ed25519Key public => bytes_equal public expected | _ => false end) ||
         lf_IsCA certificate || (Z.land (lf_KeyUsage certificate) KeyUsageDigitalSignature =? 0) ||
         Before now (lf_NotBefore certificate) || After now (lf_NotAfter certificate) ||
         negb (allowsServerAuthentication (lf_ExtKeyUsage certificate)) || bool_decide (CheckSignature certificate ≠ None)
      then Some "node transport certificate does not match the pinned identity"%string
      else None
  | [] => None
  end.

(** * Properties *)

(** A completed TLS handshake, as crypto/tls documents it: version and group are within
    both configurations, and the peer's certificates are the parsed chain the server
    presents. *)
Definition handshake (server : ServerConfig) (client : PinnedClient) (st : ConnectionState) : Prop :=
  sc_MinVersion server ≤ cs_Version st ≤ sc_MaxVersion server ∧ pc_MinVersion client ≤ cs_Version st ≤ pc_MaxVersion client ∧
  cs_CurveID st ∈ sc_CurvePreferences server ∧ cs_CurveID st ∈ pc_CurvePreferences client ∧
  ∃ c rest, sc_Certificates server = c :: rest ∧
    Forall2 (λ b l, ParseCertificate b = Ok l) (ct_Certificate c) (cs_PeerCertificates st).

(** The histories of a server: its source of certificates and the time of the last use.
    Its clock does not go back. *)
Inductive serves (s : HybridSigner) : certificateSource → Time → Prop :=
| serves_new serial coins now now' source config :
    rotatingServerTLSConfig (Some s) serial coins now now' = Ok (source, config) → serves s source now
| serves_next source t protos serial coins now now' source' r :
    serves s source t → t ≤ now → GetConfigForClient source protos serial coins now now' = (source', r) →
    serves s source' now.

Context {XL : X509Laws X}.

(** A certificate the signer issued at [t]. *)
Record issued (s : HybridSigner) (c : Certificate) (t : Time) : Prop := {
  is_raw : ∃ b l, ct_Certificate c = [b] ∧ ct_Leaf c = Some l ∧ ParseCertificate b = Ok l ∧
    lf_PublicKey l = Ed25519Key (ed25519_Public (edPrivate s)) ∧ lf_IsCA l = false ∧
    lf_KeyUsage l = KeyUsageDigitalSignature ∧ lf_ExtKeyUsage l = [ExtKeyUsageServerAuth] ∧ CheckSignature l = None ∧
    lf_NotBefore l ≤ t - 5 * Minute ∧ t + 365 * Day ≤ lf_NotAfter l;
  is_private : ct_PrivateKey c = Some (Ed25519Private (edPrivate s));
}.

Lemma TransportCertificate_issued (serial : Result Z) (coins : bytes) (s : HybridSigner) (now : Time) (c : Certificate) :
  TransportCertificate serial coins s now = Ok c → issued s c now.
Proof.
  unfold TransportCertificate. destruct (negb _ || _) eqn:Hg; [done|]. unbool. destruct serial as [n|]; [|done].
  match goal with |- context [CreateCertificate _ ?t _ _] => set (template := t) end. cbv zeta.
  destruct (CreateCertificate _ _ _ _) as [b|] eqn:Hc; [|done]. destruct (ParseCertificate b) as [l|] eqn:Hp; [|done].
  intros <-%(inj Ok). split; [|done]. exists b, l.
  destruct (issued_parses coins template (edPrivate s) b l) as (H1 & H2 & H3 & H4 & H5 & H6 & H7); [done..|].
  split_and!; try done; [rewrite H4|rewrite H5]; unfold Truncate, template, TAdd, NodeTransportCertificateLifetime; simpl.
  - pose proof (Z.mod_pos_bound (now + - (5 * Minute)) Second ltac:(done)). lia.
  - pose proof (Z.mod_pos_bound (now + 366 * Day) Second ltac:(done)).
    change Day with (86400 * Second) in *. unfold Second, Millisecond in *. lia.
Qed.

(** What [get] hands out: a certificate issued by the signer, by now, that has a month
    to go. *)
Definition current (s : HybridSigner) (c : Certificate) (now : Time) : Prop :=
  ∃ t, issued s c t ∧ t ≤ now ∧ ∀ l, ct_Leaf c = Some l → now + 30 * Day ≤ lf_NotAfter l.

Definition holds (s : HybridSigner) (source : certificateSource) (now : Time) : Prop :=
  cs_signer source = s ∧ ∀ c, cs_certificate source = Some c → ∃ t, issued s c t ∧ t ≤ now.

Lemma get_current (s : HybridSigner) (source source' : certificateSource) (serial : Result Z) (coins : bytes) (t now : Time)
    (r : Result Certificate) :
  holds s source t → t ≤ now → get source serial coins now = (source', r) →
  holds s source' now ∧ ∀ c, r = Ok c → current s c now.
Proof.
  intros [Hs Hc] Ht. unfold get.
  assert (holds s source now) as Hh.
  { split; [done|]. intros c Hx. destruct (Hc c Hx) as (t0 & ? & ?). exists t0. split; [done|lia]. }
  assert (∀ source' r,
    match TransportCertificate serial coins (cs_signer source) now with
    | Err e => (source, Err e)
    | Ok certificate => ({| cs_signer := cs_signer source; cs_certificate := Some certificate |}, Ok certificate)
    end = (source', r) → holds s source' now ∧ ∀ c, r = Ok c → current s c now) as Hrenew.
  { intros src r0. destruct (TransportCertificate _ _ _ _) as [c|] eqn:Hn; intros H; injection H as <- <-; [|done].
    apply TransportCertificate_issued in Hn. rewrite Hs in *. split.
    - split; [done|]. intros c0 Hx. simpl in Hx. injection Hx as <-. by exists now.
    - intros c0 <-%(inj Ok). exists now. split_and!; [done|lia|]. intros l Hl.
      destruct Hn as [(b & l0 & _ & Hl0 & _ & _ & _ & _ & _ & _ & _ & ?) _]. rewrite Hl in Hl0. injection Hl0 as <-.
      change Day with (86400 * Second) in *. unfold Second, Millisecond in *. lia. }
  destruct (cs_certificate source) as [c|] eqn:Hcert; [|by apply Hrenew].
  destruct (fresh c now) eqn:Hf; [|by apply Hrenew]. intros H. injection H as <- <-. split; [done|].
  intros c0 <-%(inj Ok). destruct (Hc c eq_refl) as (t0 & Hi & Hle). exists t0. split_and!; [done|lia|].
  intros l Hl. unfold fresh in Hf. rewrite Hl in Hf. unfold Before, TAdd in Hf. unbool.
  unfold transportCertificateRenewBefore in *. lia.
Qed.

Lemma serves_holds (s : HybridSigner) (source : certificateSource) (t : Time) : serves s source t → holds s source t.
Proof.
  induction 1 as [serial coins now now' source config H|source t protos serial coins now now' source' r _ IH Ht H].
  - unfold rotatingServerTLSConfig in H. destruct (get _ _ _ _) as [src [c|]] eqn:Hg; [|done].
    destruct (serverTLSConfigAt c now'); [|done]. injection H as <- _.
    eapply (get_current s) in Hg; [apply Hg| |apply Z.le_refl]. by split.
  - unfold GetConfigForClient in H. destruct (get _ _ _ _) as [src rc] eqn:Hg.
    eapply get_current in Hg as [Hh _]; [|exact IH|exact Ht].
    destruct rc as [c|]; [destruct (serverTLSConfigAt c now')|]; by injection H as <- _.
Qed.

(** A current certificate serves for a month. *)
Lemma current_config (s : HybridSigner) (c : Certificate) (now now' : Time) :
  current s c now → now ≤ now' ≤ now + 30 * Day →
  ∃ cfg, serverTLSConfigAt c now' = Ok cfg ∧ sc_Certificates cfg = [c] ∧ sc_MinVersion cfg = VersionTLS13 ∧
    sc_MaxVersion cfg = VersionTLS13 ∧ sc_CurvePreferences cfg = [X25519MLKEM768].
Proof.
  intros (t & [(b & l & Hr & Hl & Hp & Hk & Hca & Hu & He & Hsig & Hnb & Hna) Hpr] & Ht & Hlate) Hnow.
  specialize (Hlate l Hl). unfold serverTLSConfigAt. rewrite Hr, Hpr, Hl, Hk, Hca, Hu, He, Hsig.
  rewrite (proj2 (bytes_equal_true _ _) eq_refl). unfold Before, After.
  pose proof (eq_refl : 0 <? 5 * Minute = true) as Hm. unbool.
  rewrite (proj2 (Z.ltb_ge now' (lf_NotBefore l))), (proj2 (Z.ltb_ge (lf_NotAfter l) now')) by lia.
  eexists. split; [reflexivity|]. split_and!; try done. simpl. rewrite <- Hl, <- Hpr, <- Hr. by destruct c.
Qed.

(** The pinned client's decision on a current certificate is the comparison of keys. *)
Lemma VerifyConnection_current (s : HybridSigner) (c : Certificate) (cfg : ServerConfig) (client : PinnedClient)
    (st : ConnectionState) (now clock : Time) :
  current s c now → sc_Certificates cfg = [c] → sc_MinVersion cfg = VersionTLS13 → sc_MaxVersion cfg = VersionTLS13 →
  sc_CurvePreferences cfg = [X25519MLKEM768] → handshake cfg client st → now - 5 * Minute ≤ clock ≤ now + 30 * Day →
  VerifyConnection (pc_expected client) st clock = None ↔ pc_expected client = ed25519_Public (edPrivate s).
Proof.
  intros (t & [(b & l & Hr & Hl & Hp & Hk & Hca & Hu & He & Hsig & Hnb & Hna) Hpr] & Ht & Hlate) Hcs Hmin Hmax Hcp.
  intros (Hv & _ & Hcurve & _ & c0 & rest & Hc0 & Hchain) Hclock. specialize (Hlate l Hl).
  rewrite Hcs in Hc0. injection Hc0 as <- <-. rewrite Hr in Hchain.
  inversion Hchain as [|? l0 ? ls Hpl Hnil Hb Hlist]; subst. inversion Hnil; subst.
  rewrite Hp in Hpl. injection Hpl as <-.
  rewrite Hcp in Hcurve. apply list_elem_of_singleton in Hcurve.
  assert (cs_Version st = VersionTLS13) as Hver by lia.
  unfold VerifyConnection. rewrite Hver, Hcurve, <- Hlist, Hk, Hca, Hu, He, Hsig. simpl.
  unfold Before, After. rewrite (proj2 (Z.ltb_ge clock (lf_NotBefore l))), (proj2 (Z.ltb_ge (lf_NotAfter l) clock)) by lia.
  destruct (bytes_equal _ _) eqn:Heq; simpl.
  - apply bytes_equal_true in Heq. by rewrite Heq.
  - split; [done|]. intros Hx. symmetry in Hx. apply bytes_equal_true in Hx. congruence.
Qed.

(** C22. The pinned transport connects exactly the node it names. In every
    history of a server that renews its certificate, as long as a certificate can be
    issued when one is needed, a client's connection gets a configuration; after the
    handshake, a client that pins an identity and whose clock is at most five minutes
    behind and a month ahead of the server's accepts the connection if and only if the
    identity's Ed25519 key is that of the server's signer. Renewal never changes the key
    and never lets a certificate run out. *)
Theorem transport_pinned (s : HybridSigner) (source : certificateSource) (t now now' clock : Time) (protos : list string)
    (serial : Result Z) (coins : bytes) :
  serves s source t → t ≤ now → now ≤ now' ≤ now + 30 * Day →
  is_ok (TransportCertificate serial coins s now) = true →
  ∃ source' cfg, GetConfigForClient source protos serial coins now now' = (source', Ok cfg) ∧
  ∀ defaultProtos base identity client st,
    PinnedHTTPClient defaultProtos base identity = Ok client → handshake cfg client st →
    now - 5 * Minute ≤ clock ≤ now + 30 * Day →
    VerifyConnection (pc_expected client) st clock = None ↔ ni_Ed25519Public identity = ed25519_Public (edPrivate s).
Proof.
  intros Hs%serves_holds Ht Hnow Hok. destruct (get source serial coins now) as [source' r] eqn:Hg.
  assert (∃ c, r = Ok c) as [c ->].
  { unfold get in Hg. rewrite (proj1 Hs) in Hg. destruct (TransportCertificate _ _ _ _) as [x|]; [|done].
    destruct (cs_certificate source) as [c|]; [destruct (fresh c now)|]; injection Hg as _ <-; eauto. }
  destruct (get_current _ _ _ _ _ _ _ _ Hs Ht Hg) as [_ Hcur]. specialize (Hcur c eq_refl).
  destruct (current_config s c now now' Hcur Hnow) as (cfg & Hcfg & H1 & H2 & H3 & H4).
  unfold GetConfigForClient. rewrite Hg, Hcfg. eexists _, _. split; [reflexivity|].
  intros dp base identity client st Hp Hh Hclock.
  assert (pc_expected client = ni_Ed25519Public identity) as <-.
  { unfold PinnedHTTPClient in Hp. step_if Hp. destruct (hc_Transport _) as [|[]|]; try discriminate Hp; by injection Hp as <-. }
  eapply VerifyConnection_current; [exact Hcur|exact H1|exact H2|exact H3|exact H4|exact Hh|exact Hclock].
Qed.

End Transport.

(** * A sample server *)

Module Sample.
#[local] Existing Instances Toy.crypto Toy.laws.

#[export] Instance ExtKeyUsage_countable : Countable ExtKeyUsage.
Proof.
  refine (inj_countable' (λ u, match u with ExtKeyUsageServerAuth => None | ExtKeyUsageOther z => Some z end)
    (λ o, match o with None => ExtKeyUsageServerAuth | Some z => ExtKeyUsageOther z end) _). by intros [].
Defined.

Abbreviation Fields := (Z * Z * Z * bool * list ExtKeyUsage)%type.

#[export] Instance x509 : X509 := {|
  CreateCertificate _ t public _ :=
    Ok (ToyCodec.put ((Truncate (tp_NotBefore t) Second, Truncate (tp_NotAfter t) Second, tp_KeyUsage t, tp_IsCA t,
                       tp_ExtKeyUsage t) : Fields) public);
  ParseCertificate b :=
    match ToyCodec.get b : option (Fields * bytes) with
    | Some ((notBefore, notAfter, usage, ca, ext), public) =>
        Ok {| lf_PublicKey := Ed25519Key public; lf_IsCA := ca; lf_KeyUsage := usage; lf_NotBefore := notBefore;
              lf_NotAfter := notAfter; lf_ExtKeyUsage := ext; lf_Raw := [] |}
    | None => Err "x509: malformed certificate"
    end;
  CheckSignature _ := None;
|}.

#[export] Instance x509_laws : X509Laws x509.
Proof.
  constructor. intros coins t k b l _ Hb Hp. injection Hb as <-. cbn [ParseCertificate x509] in Hp.
  rewrite ToyCodec.get_put in Hp. by injection Hp as <-.
Qed.

Definition now : Time := unix_epoch_seconds * Second.
Definition later : Time := now + 340 * Day.

Section Run.
Context (s : HybridSigner) (ks : blen (edPrivate s) = ed25519_PrivateKeySize).

Definition leaf (t : Time) : Leaf :=
  {| lf_PublicKey := Ed25519Key (ed25519_Public (edPrivate s)); lf_IsCA := false; lf_KeyUsage := KeyUsageDigitalSignature;
     lf_NotBefore := Truncate (TAdd t (- (5 * Minute))) Second;
     lf_NotAfter := Truncate (TAdd t NodeTransportCertificateLifetime) Second;
     lf_ExtKeyUsage := [ExtKeyUsageServerAuth]; lf_Raw := [] |}.
Definition raw (t : Time) : bytes :=
  ToyCodec.put ((lf_NotBefore (leaf t), lf_NotAfter (leaf t), KeyUsageDigitalSignature, false, [ExtKeyUsageServerAuth]) : Fields)
    (ed25519_Public (edPrivate s)).
Definition certificate (t : Time) : Certificate :=
  {| ct_Certificate := [raw t]; ct_PrivateKey := Some (Ed25519Private (edPrivate s)); ct_Leaf := Some (leaf t) |}.

Lemma parsed (t : Time) : ParseCertificate (raw t) = Ok (leaf t).
Proof. cbn [ParseCertificate x509]. unfold raw. by rewrite ToyCodec.get_put. Qed.

Lemma issue (t : Time) : IsZero t = false → TransportCertificate (Ok 7) [] s t = Ok (certificate t).
Proof.
  intros Ht. unfold TransportCertificate. rewrite ks, Ht. cbn [negb orb Z.eqb].
  match goal with |- context [CreateCertificate ?c ?t0 ?p ?k] =>
    change (CreateCertificate c t0 p k) with (Ok (raw t) : Result bytes) end.
  cbv beta iota zeta. by rewrite parsed.
Qed.

Definition source (t : Time) : certificateSource := {| cs_signer := s; cs_certificate := Some (certificate t) |}.
Definition config (t : Time) : ServerConfig :=
  {| sc_Certificates := [certificate t]; sc_MinVersion := VersionTLS13; sc_MaxVersion := VersionTLS13;
     sc_CurvePreferences := [X25519MLKEM768]; sc_NextProtos := ["http/1.1"%string]; sc_SessionTicketsDisabled := true |}.

Lemma configured (t : Time) :
  Before t (lf_NotBefore (leaf t)) = false → After t (lf_NotAfter (leaf t)) = false →
  serverTLSConfigAt (certificate t) t = Ok (config t).
Proof.
  intros H1 H2. unfold serverTLSConfigAt. cbn [certificate ct_Certificate ct_PrivateKey ct_Leaf].
  rewrite H1, H2. cbn [leaf lf_PublicKey]. by rewrite (proj2 (bytes_equal_true _ _) eq_refl).
Qed.

Lemma first : rotatingServerTLSConfig (Some s) (Ok 7) [] now now = Ok (source now, config now).
Proof.
  unfold rotatingServerTLSConfig, get. cbn [cs_certificate cs_signer]. rewrite (issue now eq_refl).
  by rewrite (configured now eq_refl eq_refl).
Qed.

(** Nearly a year later the certificate is renewed. *)
Lemma renewed : GetConfigForClient (source now) ["http/1.1"%string] (Ok 7) [] later later = (source later, Ok (config later)).
Proof.
  unfold GetConfigForClient, get. cbn [source cs_certificate cs_signer].
  change (fresh (certificate now) later) with false. rewrite (issue later eq_refl).
  by rewrite (configured later eq_refl eq_refl).
Qed.

Definition state : ConnectionState :=
  {| cs_Version := VersionTLS13; cs_CurveID := X25519MLKEM768; cs_PeerCertificates := [leaf later] |}.

Definition client : PinnedClient :=
  {| pc_Timeout := 15 * Second; pc_MinVersion := VersionTLS13; pc_MaxVersion := VersionTLS13;
     pc_CurvePreferences := [X25519MLKEM768]; pc_SessionTicketsDisabled := true; pc_InsecureSkipVerify := true;
     pc_expected := ni_Ed25519Public (PublicIdentity s); pc_NextProtos := []; pc_ForceAttemptHTTP2 := true;
     pc_NoRedirect := true |}.

Lemma pinned : PinnedHTTPClient None None (PublicIdentity s) = Ok client.
Proof. unfold PinnedHTTPClient. by rewrite (PublicIdentity_valid s ks). Qed.

Lemma connects : handshake (config later) client state.
Proof.
  split_and!; try (cbn; lia); [apply list_elem_of_here..|].
  exists (certificate later), []. split; [done|]. constructor; [apply parsed|constructor].
Qed.

Lemma issuable : is_ok (TransportCertificate (Ok 7) [] s later) = true.
Proof. by rewrite (issue later eq_refl). Qed.

End Run.

Definition alice : HybridSigner := Toy.signer x01.

End Sample.

#[local] Existing Instances Toy.crypto Toy.laws Sample.x509 Sample.x509_laws.

Lemma transport_pinned_witness :
  VerifyConnection (pc_expected (Sample.client Sample.alice)) (Sample.state Sample.alice) Sample.later = None.
Proof.
  destruct (transport_pinned Sample.alice (Sample.source Sample.alice Sample.now) Sample.now Sample.later Sample.later
    Sample.later ["http/1.1"%string] (Ok 7) [] (serves_new _ _ _ _ _ _ _ (Sample.first Sample.alice eq_refl)))
    as (source' & cfg & Hc & H);
    [vm_compute; discriminate|split; vm_compute; discriminate|exact (Sample.issuable Sample.alice eq_refl)|].
  rewrite (Sample.renewed Sample.alice eq_refl) in Hc. injection Hc as <- <-.
  apply (H None None (PublicIdentity Sample.alice) _ _ (Sample.pinned Sample.alice eq_refl) (Sample.connects Sample.alice));
    [split; vm_compute; discriminate|reflexivity].
Defined.

End Transport.
