(* ===== verification/Node.v ===== *)
(** The running storage node: start-up as in src/cmd/propagare-node/main.go, the
    directory endpoints and the request limit of src/node/server.go, and the node as
    a machine in which requests, the expiry ticker and the directory agent interleave.
    The item endpoints are those of [NodeServer]; here they are seen through the
    operations they make on the store. *)
From Stdlib Require Import Ascii.
From S2P Require Import Prelude Sha256 Encoding Protocol Work Crypto Files NodeStore NodeServer NodeKeys Directory Transport.
Local Open Scope Z_scope.

Module Node.

Import Directory (Addr, ParseAddr, AddrString, Unmap, Netip, Agent, Record_, Snapshot, ChallengeResponse, Endpoint, PinnedNode,
  Policy, Registry, Announcement).
Import NodeServer (Server, Config, Limiter, Request, LimitedDecoder, decodeJSON).

(** * net.SplitHostPort *)

Fixpoint indexByte (c : ascii) (s : string) : option nat :=
  match s with
  | EmptyString => None
  | String d s => if Ascii.eqb c d then Some 0%nat else S <$> indexByte c s
  end.

Fixpoint lastIndexByte (c : ascii) (s : string) : option nat :=
  match s with
  | EmptyString => None
  | String d s =>
      match lastIndexByte c s with
      | Some i => Some (S i)
      | None => if Ascii.eqb c d then Some 0%nat else None
      end
  end.

(** [s[k:]]. *)
Definition from (k : nat) (s : string) : string := String.substring k (String.length s - k) s.
Definition containsByte (c : ascii) (s : string) : bool := bool_decide (indexByte c s ≠ None).

Definition missingPort : error := "missing port in address".
Definition tooManyColons : error := "too many colons in address".

Definition SplitHostPort (hostport : string) : Result (string * string) :=
  match lastIndexByte ":" hostport with
  | None => Err missingPort
  | Some i =>
      let finish (j k : nat) (host : string) :=
        if containsByte "[" (from j hostport) then Err "unexpected '[' in address"
        else if containsByte "]" (from k hostport) then Err "unexpected ']' in address"
        else Ok (host, from (S i) hostport) in
      match hostport with
      | String "[" _ =>
          match indexByte "]" hostport with
          | None => Err "missing ']' in address"
          | Some e =>
              if bool_decide (S e = String.length hostport) then Err missingPort
              else if bool_decide (S e = i) then finish 1%nat (S e) (String.substring 1 (e - 1) hostport)
              else if bool_decide (String.get (S e) hostport = Some ":"%char) then Err tooManyColons
              else Err missingPort
          end
      | _ =>
          let host := String.substring 0 i hostport in
          if containsByte ":" host then Err tooManyColons else finish 0%nat 0%nat host
      end
  end.

Definition requestIP `{Netip} (remoteAddr : string) : Result Addr :=
  match SplitHostPort remoteAddr with
  | Err _ => Err "invalid remote address"
  | Ok (host, _) =>
      match ParseAddr host with
      | None => Err "invalid remote IP"
      | Some address => Ok (Unmap address)
      end
  end.

(** * Requests and replies *)

(** The patterns registered with the mux. *)
Inductive Route :=
| GetHealth | GetIdentity | GetParameters | PostItems | PostFetch | PostProof | PostDelete
| GetNodes | PostRegister | PostChallenge.
#[export] Instance Route_eq_dec : EqDecision Route.
Proof. solve_decision. Defined.

Definition routes : list Route :=
  [GetHealth; GetIdentity; GetParameters; PostItems; PostFetch; PostProof; PostDelete].
Definition directoryRoutes : list Route := [GetNodes; PostRegister; PostChallenge].

Record RegistrationRequest := { rr_Record : Record_ }.
Record ChallengeRequest := { cr_Nonce : bytes }.

(** A request as the mux sees it: the pattern it matches, the remote address, and what
    [decodeJSON] reads. *)
Record HTTPRequest := { h_route : Route; h_remote : string; h_request : Request }.

Inductive ReplyBody :=
| ErrorReply (message : string)
| HealthReply (now : Time)
| IdentityReply (identity : NodePublicIdentity)
| ParametersReply (p : NodeParameters)
| SnapshotReply (s : Snapshot)
| RecordReply (r : Record_)
| ChallengeReply (r : ChallengeResponse).

Record Reply := { rp_status : Z; rp_body : ReplyBody }.

Definition StatusForbidden : Z := 403.

Definition replyError (st : Z) (err : error) : Reply :=
  {| rp_status := st;
     rp_body := ErrorReply (if st <? NodeServer.StatusInternalServerError then err else "request failed") |}.
Definition replyJSON (value : ReplyBody) : Reply := {| rp_status := NodeServer.StatusOK; rp_body := value |}.

Definition rateExceeded : Reply :=
  replyError NodeServer.StatusTooManyRequests "directory request rate exceeded".

Section Operations.
Context `{C : Crypto} {KG : KeyGen C} {NI : Netip} {MO : MapOrder} {X : Transport.X509}
  {MI : Marshaler StoredItem} {DI : StrictDecoder StoredItem} {MP : Marshaler PrivateSigningMaterial}
  {DP : StrictDecoder PrivateSigningMaterial} {DN : StrictDecoder (list PinnedNode)} {DS : StrictDecoder Snapshot}
  {DR : LimitedDecoder RegistrationRequest} {DC : LimitedDecoder ChallengeRequest}.

(** * NodeState *)

(** The server, what its requests share, and the store's directory. [n_requests] is the
    number of tokens in the channel [requestWork]. *)
Record Node := {
  n_server : Server;
  n_mux : list Route;
  n_requests : Z;
  n_disk : Disk;
  n_store : NodeStore.DiskStore;
  n_tls : Transport.certificateSource;
  n_directory : option Agent;
  n_limiter : Limiter;
}.

Definition set_requests (n : Node) (k : Z) : Node :=
  {| n_server := n_server n; n_mux := n_mux n; n_requests := k; n_disk := n_disk n; n_store := n_store n;
     n_tls := n_tls n; n_directory := n_directory n; n_limiter := n_limiter n |}.
Definition set_store (n : Node) (disk : Disk) (s : NodeStore.DiskStore) : Node :=
  {| n_server := n_server n; n_mux := n_mux n; n_requests := n_requests n; n_disk := disk; n_store := s;
     n_tls := n_tls n; n_directory := n_directory n; n_limiter := n_limiter n |}.
Definition set_directory (n : Node) (g : Agent) : Node :=
  {| n_server := n_server n; n_mux := n_mux n; n_requests := n_requests n; n_disk := n_disk n; n_store := n_store n;
     n_tls := n_tls n; n_directory := Some g; n_limiter := n_limiter n |}.
Definition set_limiter (n : Node) (l : Limiter) : Node :=
  {| n_server := n_server n; n_mux := n_mux n; n_requests := n_requests n; n_disk := n_disk n; n_store := n_store n;
     n_tls := n_tls n; n_directory := n_directory n; n_limiter := l |}.

Definition nodeID (n : Node) : string := ni_NodeID (NodeServer.identity (n_server n)).
Definition IdentityID (g : Agent) : string := ni_NodeID (PublicIdentity (Directory.signer g)).

Definition EnableDirectory (n : Node) (agent : option Agent) : Node * option error :=
  match agent with
  | None => (n, Some "node directory agent identity does not match server"%string)
  | Some g =>
      if negb (bool_decide (IdentityID g = nodeID n))
      then (n, Some "node directory agent identity does not match server"%string)
      else if bool_decide (is_Some (n_directory n)) then (n, Some "node directory is already enabled"%string)
      else ({| n_server := n_server n; n_mux := n_mux n ++ directoryRoutes; n_requests := n_requests n;
               n_disk := n_disk n; n_store := n_store n; n_tls := n_tls n; n_directory := Some g;
               n_limiter := NodeServer.enabledLimiter |}, None)
  end.

(** * The request limit *)

(** [limitConcurrentRequests]: taking a token of the channel, and giving it back. *)
Definition acquireRequest (n : Node) : option Node :=
  if n_requests n <? NodeServer.c_MaxConcurrentRequests (NodeServer.config (n_server n))
  then Some (set_requests n (n_requests n + 1)) else None.
Definition releaseRequest (n : Node) : Node := set_requests n (n_requests n - 1).

Definition capacityReached : Reply :=
  replyError NodeServer.StatusServiceUnavailable "node request capacity reached".

(** * Handlers *)

Definition handleHealth (now : Time) : Reply := replyJSON (HealthReply now).
Definition handleIdentity (n : Node) : Reply := replyJSON (IdentityReply (NodeServer.identity (n_server n))).
Definition handleParameters (n : Node) : Reply :=
  replyJSON (ParametersReply (NodeServer.parameters (n_server n) (n_store n))).

(** The first statement of the three directory handlers: the remote address and a slot. *)
Definition enterDirectory (n : Node) (remoteAddr : string) (now : Time) (rateLimit : bool) : Node * option Addr :=
  match requestIP remoteAddr with
  | Err _ => (n, None)
  | Ok ip =>
      let '(l, admitted) :=
        NodeServer.acquireDirectoryWork (n_limiter n) (Some (AddrString ip)) now rateLimit in
      (set_limiter n l, if admitted then Some ip else None)
  end.
Definition leaveDirectory (n : Node) : Node := set_limiter n (NodeServer.releaseDirectoryWork (n_limiter n)).

(** What a handler draws on the way: the coins of its signature, its clock, and the
    outcome of the reachability probe. *)
Record Draws := { d_coins : bytes; d_now : Time; d_probe : Announcement → option error }.

(** The handlers between taking and giving back the slot. *)
Definition serveNodes (d : Draws) (g : Agent) : Reply :=
  match Directory.SignSnapshot (Some (Directory.signer g)) (d_coins d)
          (Directory.Active (Directory.registry g) (d_now d)) (d_now d) with
  | Err e => replyError NodeServer.StatusInternalServerError e
  | Ok snapshot => replyJSON (SnapshotReply snapshot)
  end.

Definition serveRegistration (d : Draws) (g : Agent) (remoteIP : Addr) (r : Request) : Agent * Reply :=
  match decodeJSON r Directory.MaxRegistrationBytes with
  | Err e => (g, replyError NodeServer.StatusBadRequest e)
  | Ok request =>
      match Directory.AcceptRegistration (d_probe d) (d_coins d) g remoteIP (rr_Record request) (d_now d) with
      | (g, Err e) => (g, replyError StatusForbidden e)
      | (g, Ok record) => (g, replyJSON (RecordReply record))
      end
  end.

Definition serveChallenge (d : Draws) (g : Agent) (r : Request) : Reply :=
  match decodeJSON r (8 * 1024) with
  | Err e => replyError NodeServer.StatusBadRequest e
  | Ok request =>
      match Directory.SignChallenge (Some (Directory.signer g)) (d_coins d) (cr_Nonce request) (d_now d) with
      | Err e => replyError NodeServer.StatusBadRequest e
      | Ok response => replyJSON (ChallengeReply response)
      end
  end.

Definition rateLimited (rt : Route) : bool := negb (bool_decide (rt = GetNodes)).

Definition serveDirectory (d : Draws) (g : Agent) (remoteIP : Addr) (rq : HTTPRequest) : Agent * Reply :=
  match h_route rq with
  | PostRegister => serveRegistration d g remoteIP (h_request rq)
  | PostChallenge => (g, serveChallenge d g (h_request rq))
  | _ => (g, serveNodes d g)
  end.

(** [handleNodeDirectory], [handleNodeRegistration] and [handleNodeChallenge] without
    interruption; [None] is the dereference of a missing agent. *)
Definition handleDirectory (d : Draws) (now : Time) (n : Node) (rq : HTTPRequest) : option (Node * Reply) :=
  match enterDirectory n (h_remote rq) now (rateLimited (h_route rq)) with
  | (n, None) => Some (n, rateExceeded)
  | (n, Some ip) =>
      g ← n_directory n;
      let '(g, reply) := serveDirectory d g ip rq in
      Some (leaveDirectory (set_directory n g), reply)
  end.

(** * The agent's loop *)

(** A synchronisation: its coins, the answers it gets and its time. *)
Record Tick := {
  tk_coins : bytes;
  tk_post : PinnedNode → Record_ → Result Record_;
  tk_get : Endpoint → NodePublicIdentity → Result (Z * bytes);
  tk_now : Time;
}.

Definition sync (g : Agent) (t : Tick) : Agent * option error :=
  Directory.SyncOnce (tk_coins t) (tk_post t) (tk_get t) g (tk_now t).

(** [Run] until its context is done: [done] is the context's error after the first
    synchronisation, [err] the one that ends the loop after [ticks]. *)
Definition Run (interval : Duration) (g : Agent) (first : Tick) (done : option error) (ticks : list Tick) (err : error)
  : Agent * error :=
  if (interval <? Minute) || (Z.quot Directory.MaxLease 2 <? interval)
  then (g, "invalid node directory synchronization interval"%string)
  else match sync g first, done with
  | (g, Some _), Some e => (g, e)
  | (g, _), _ => (foldl (λ g t, (sync g t).1) g ticks, err)
  end.

(** * Start-up (cmd/propagare-node) *)

(** The flags after parsing; [o_config] has them applied except the difficulty. *)
Record Options := {
  o_config : Config;
  o_difficulty : Z;       (* uint *)
  o_advertiseIP : string;
  o_advertisePort : Z;    (* uint *)
  o_seedFile : string;
  o_quorum : Z;
  o_lease : Duration;
  o_allowPrivate : bool;
}.

Definition with_difficulty (c : Config) (d : Z) : Config :=
  {| NodeServer.c_ListenAddress := NodeServer.c_ListenAddress c; NodeServer.c_DataDir := NodeServer.c_DataDir c;
     NodeServer.c_KeyFile := NodeServer.c_KeyFile c; NodeServer.c_BaseDifficulty := d;
     NodeServer.c_EpochSeconds := NodeServer.c_EpochSeconds c; NodeServer.c_MaxItemBytes := NodeServer.c_MaxItemBytes c;
     NodeServer.c_StorageCapacity := NodeServer.c_StorageCapacity c; NodeServer.c_MailboxQuota := NodeServer.c_MailboxQuota c;
     NodeServer.c_MaxFetchItems := NodeServer.c_MaxFetchItems c; NodeServer.c_MaxFetchBytes := NodeServer.c_MaxFetchBytes c;
     NodeServer.c_SweepInterval := NodeServer.c_SweepInterval c;
     NodeServer.c_MaxConcurrentRequests := NodeServer.c_MaxConcurrentRequests c |}.

(** What start-up meets: the system calls and contents of the directories of the key
    file (by its entry name), the store and the seed file, the coins and the clock. *)
Record World := {
  w_keyIO : IO; w_keyHere : bool; w_keyDisk : Disk; w_edCoins : bytes; w_pqCoins : bytes;
  w_serial : Result Z; w_certCoins : bytes; w_tlsNow : Time; w_tlsNow' : Time;
  w_storeIO : IO; w_storeNow : Time; w_storeDisk : Disk;
  w_seedIO : IO; w_seedDisk : Disk; w_agentCoins : bytes; w_agentNow : Time;
}.

Definition startDirectory (o : Options) (w : World) (sg : HybridSigner) (n : Node) : Result Node :=
  if (o_advertisePort o =? 0) || (65535 <? o_advertisePort o) then Err "advertise-port is out of range"
  else match Directory.LoadPinnedNodes (w_seedIO w) (w_seedDisk w) (o_seedFile o) with
  | Err e => Err e
  | Ok seeds =>
  match Directory.NewPolicy seeds (o_quorum o) (o_allowPrivate o) Directory.MaxDirectoryNodes with
  | Err e => Err e
  | Ok policy =>
  match Directory.NewAgent (w_agentCoins w) policy
          {| Directory.e_Scheme := "https"; Directory.e_IP := o_advertiseIP o; Directory.e_Port := o_advertisePort o |}
          (Some sg) (o_lease o) (w_agentNow w) with
  | Err e => Err e
  | Ok agent =>
  match EnableDirectory n (Some agent) with
  | (_, Some e) => Err e
  | (n, None) => Ok n
  end end end end.

(** [main] up to serving: the directory of the key file afterwards, and the node or the
    error with which the process ends. *)
Definition main (o : Options) (w : World) : Disk * Result Node :=
  if MaxWorkDifficulty - 2 <? o_difficulty o then (w_keyDisk w, Err "difficulty exceeds protocol maximum")
  else
  let config := with_difficulty (o_config o) (u8 (o_difficulty o)) in
  match NodeServer.Validate config with
  | Some e => (w_keyDisk w, Err e)
  | None =>
  match NodeKeys.LoadOrCreateSigner (w_keyIO w) (w_keyHere w) (w_keyDisk w) (NodeServer.c_KeyFile config)
          (w_edCoins w) (w_pqCoins w) with
  | (keys, Err e) => (keys, Err e)
  | (keys, Ok signer) =>
  match Transport.rotatingServerTLSConfig (Some signer) (w_serial w) (w_certCoins w) (w_tlsNow w) (w_tlsNow' w) with
  | Err e => (keys, Err e)
  | Ok (tls, _) =>
  match NodeStore.NewDiskStore (w_storeIO w) (w_storeNow w) (w_storeDisk w) (NodeServer.c_DataDir config)
          (NodeServer.c_StorageCapacity config) (NodeServer.c_MailboxQuota config) with
  | (_, Err e) => (keys, Err e)
  | (disk, Ok store) =>
  match NodeServer.NewServer config (Some store) (Some signer) with
  | Err e => (keys, Err e)
  | Ok server =>
      let n := {| n_server := server; n_mux := routes; n_requests := 0; n_disk := disk; n_store := store; n_tls := tls;
                  n_directory := None; n_limiter := {| NodeServer.directoryLast := ∅; NodeServer.directoryWork := None |} |} in
      (keys, if bool_decide (o_advertiseIP o = ""%string) then Ok n else startDirectory o w signer n)
  end end end end end.

(** * The running node *)

(** A request in flight: before its handler has a directory slot, and with one. *)
Inductive Task := Waiting (rq : HTTPRequest) | Working (rq : HTTPRequest) (ip : Addr).

Definition working (t : Task) : bool := match t with Working _ _ => true | Waiting _ => false end.

Definition itemRoute (rt : Route) : bool := bool_decide (rt ∈ [PostItems; PostFetch; PostProof; PostDelete]).
Definition directoryRoute (rt : Route) : bool := bool_decide (rt ∈ directoryRoutes).

(** The endpoints that answer at once. *)
Definition plainReply (now : Time) (n : Node) (rt : Route) : option Reply :=
  match rt with
  | GetHealth => Some (handleHealth now)
  | GetIdentity => Some (handleIdentity n)
  | GetParameters => Some (handleParameters n)
  | _ => None
  end.

Abbreviation NodeState := (Node * list Task)%type.
Abbreviation Label := (option (HTTPRequest * Reply)).

(** One step: a request arrives and is admitted or turned away, a handler answers, takes
    a directory slot or answers with one, an item handler or the expiry ticker operates
    on the store, the registry is swept, or the agent does part of a synchronisation.
    A step shows the reply it sends, if it sends one of those modelled here. *)
Inductive node_step : NodeState → Label → NodeState → Prop :=
| node_arrive n n' ts rq : acquireRequest n = Some n' → node_step (n, ts) None (n', Waiting rq :: ts)
| node_full n ts rq : acquireRequest n = None → node_step (n, ts) (Some (rq, capacityReached)) (n, ts)
| node_plain n ts ts1 ts2 rq now reply :
    ts = ts1 ++ Waiting rq :: ts2 → plainReply now n (h_route rq) = Some reply →
    node_step (n, ts) (Some (rq, reply)) (releaseRequest n, ts1 ++ ts2)
| node_item n ts rq disk s :
    Waiting rq ∈ ts → itemRoute (h_route rq) = true → NodeStore.step (n_disk n, n_store n) (disk, s) →
    node_step (n, ts) None (set_store n disk s, ts)
| node_item_done n ts ts1 ts2 rq :
    ts = ts1 ++ Waiting rq :: ts2 → itemRoute (h_route rq) = true →
    node_step (n, ts) None (releaseRequest n, ts1 ++ ts2)
| node_unknown n ts ts1 ts2 rq :
    ts = ts1 ++ Waiting rq :: ts2 → h_route rq ∉ n_mux n →
    node_step (n, ts) None (releaseRequest n, ts1 ++ ts2)
| node_refuse n n' ts ts1 ts2 rq now :
    ts = ts1 ++ Waiting rq :: ts2 → directoryRoute (h_route rq) = true → h_route rq ∈ n_mux n →
    enterDirectory n (h_remote rq) now (rateLimited (h_route rq)) = (n', None) →
    node_step (n, ts) (Some (rq, rateExceeded)) (releaseRequest n', ts1 ++ ts2)
| node_enter n n' ts ts1 ts2 rq now ip :
    ts = ts1 ++ Waiting rq :: ts2 → directoryRoute (h_route rq) = true → h_route rq ∈ n_mux n →
    enterDirectory n (h_remote rq) now (rateLimited (h_route rq)) = (n', Some ip) →
    node_step (n, ts) None (n', ts1 ++ Working rq ip :: ts2)
| node_serve n ts ts1 ts2 rq ip d g g' reply :
    ts = ts1 ++ Working rq ip :: ts2 → n_directory n = Some g → serveDirectory d g ip rq = (g', reply) →
    node_step (n, ts) (Some (rq, reply)) (releaseRequest (leaveDirectory (set_directory n g')), ts1 ++ ts2)
| node_sweep n ts io now disk s e :
    NodeStore.Sweep io (n_disk n) (n_store n) now = (disk, s, e) → node_step (n, ts) None (set_store n disk s, ts)
| node_sweep_registry n ts g now :
    n_directory n = Some g →
    node_step (n, ts) None
      (set_directory n (Directory.set_registry g (Directory.Sweep (Directory.registry g) now).1), ts)
| node_sync n ts g g' :
    n_directory n = Some g → Directory.evolved g g' → node_step (n, ts) None (set_directory n g', ts).

(** A run, with the replies it sends in order. *)
Inductive run : NodeState → list (HTTPRequest * Reply) → NodeState → Prop :=
| run_nil x : run x [] x
| run_cons x y z l tr : node_step x l y → run y tr z → run x (option_list l ++ tr) z.

End Operations.

(** * The capacity of the store does not change *)

Section Capacity.
Import NodeStore.
Context {MO : MapOrder} {MI : Marshaler StoredItem} {DI : StrictDecoder StoredItem}.

Lemma sweep_loop_capacity (io : IO) (now : Time) (l : list (string * StoredItem)) (disk disk' : Disk) (s s' : DiskStore)
    (b : bool) (r : bool + error) :
  sweep_loop io now l disk s b = (disk', s', r) → capacity s' = capacity s.
Proof.
  revert disk s b. induction l as [|[id it] l IH]; intros disk s b H; simpl in H; [by simplify_eq|].
  destruct (After _ _); [by eapply IH|]. destruct (path id); [|by simplify_eq].
  destruct (os_Remove _ _ _) as [d e]. destruct (remove_failed e); [by simplify_eq|]. by apply IH in H.
Qed.

Lemma step_capacity (x y : Disk * DiskStore) : step x y → capacity y.2 = capacity x.2.
Proof.
  intros [io now disk s it disk' s' e H|io disk s id disk' s' e H|io now disk s disk' s' e H|io disk s s' errs H]; simpl.
  - unfold Put in H. repeat case_match; by simplify_eq.
  - unfold Delete in H. repeat case_match; by simplify_eq.
  - unfold Sweep in H. destruct (closed s); [by simplify_eq|].
    destruct (sweep_loop _ _ _ _ _ _) as [[d t] r] eqn:Hl. apply sweep_loop_capacity in Hl.
    destruct r as [[]|]; by simplify_eq.
  - unfold Close in H. by destruct (closed s); simplify_eq.
Qed.

Lemma load_loop_capacity (io : IO) (now : Time) (l : list (string * File)) (disk disk' : Disk) (s s' : DiskStore) (b b' : bool) :
  load_loop io now l disk s b = (disk', Ok (s', b')) → capacity s' = capacity s.
Proof.
  revert disk s b. induction l as [|[name file] l IH]; intros disk s b H; simpl in H; [by simplify_eq|].
  repeat (case_match; try done); by apply IH in H.
Qed.

Lemma NewDiskStore_capacity (io : IO) (now : Time) (disk disk' : Disk) (dir : string) (c q : Z) (s : DiskStore) :
  NewDiskStore io now disk dir c q = (disk', Ok s) → capacity s = c.
Proof.
  unfold NewDiskStore. intros H. repeat (case_match; try done); simplify_eq;
    by match goal with Hl : load_loop _ _ _ _ _ _ = _ |- _ => apply load_loop_capacity in Hl end.
Qed.

End Capacity.

(** * What the node keeps, and what it answers *)

Section Facts.
Context `{C : Crypto} {CL : CryptoLaws C} {KG : KeyGen C} {NI : Netip} {MO : MapOrder} {X : Transport.X509}
  {MI : Marshaler StoredItem} {DI : StrictDecoder StoredItem} {IC : NodeStore.ItemCodec}
  {MP : Marshaler PrivateSigningMaterial} {DP : StrictDecoder PrivateSigningMaterial}
  {DN : StrictDecoder (list PinnedNode)} {DS : StrictDecoder Snapshot}
  {DR : LimitedDecoder RegistrationRequest} {DC : LimitedDecoder ChallengeRequest}.

Abbreviation NodeState := (Node * list Task)%type.
Abbreviation Label := (option (HTTPRequest * Reply)).

(** Directory slots taken. *)
Definition slots (ts : list Task) : Z := blen (filter (λ t, working t = true) ts).

(** The directory side: without an agent there are no slots and no directory routes;
    with one, every slot belongs to a request in flight. *)
Definition directory_ok (sg : HybridSigner) (n : Node) (ts : list Task) : Prop :=
  match n_directory n with
  | None => NodeServer.directoryWork (n_limiter n) = None ∧ n_mux n = routes ∧ slots ts = 0
  | Some g => Directory.agent_ok g ∧ Directory.signer g = sg ∧ NodeServer.directoryWork (n_limiter n) = Some (slots ts)
  end.

Definition task_ok (t : Task) : Prop :=
  match t with Waiting _ => True | Working rq ip => requestIP (h_remote rq) = Ok ip end.

Record node_ok (cfg : Config) (sg : HybridSigner) (x : NodeState) : Prop := {
  no_signer : blen (edPrivate sg) = ed25519_PrivateKeySize;
  no_server : NodeServer.NewServer cfg (Some (n_store x.1)) (Some sg) = Ok (n_server x.1);
  no_difficulty : 0 ≤ NodeServer.c_BaseDifficulty cfg;
  no_requests : n_requests x.1 = blen x.2 ∧ blen x.2 ≤ NodeServer.c_MaxConcurrentRequests cfg;
  no_limiter : NodeServer.limiter_ok (n_limiter x.1);
  no_directory : directory_ok sg x.1 x.2;
  no_tasks : Forall task_ok x.2;
  no_store : NodeStore.store_ok (n_store x.1) ∧ NodeStore.disk_ok (n_disk x.1) (n_store x.1);
  no_capacity : NodeStore.capacity (n_store x.1) = NodeServer.c_StorageCapacity cfg;
}.

(** What a reply claims is so: identity and parameters are the node's and acceptable to
    clients; a snapshot verifies for whoever pins the node and lists admitted records
    only; a record is answered to the address it announces, attested by the node; a
    challenge response proves the node's key for the nonce that was sent. *)
Definition reply_ok (sg : HybridSigner) (policy : option Policy) (rq : HTTPRequest) (reply : Reply) : Prop :=
  let me := PublicIdentity sg in
  match rp_body reply with
  | ErrorReply _ | HealthReply _ => True
  | IdentityReply i => i = me ∧ ValidPublicIdentity i = true
  | ParametersReply p => ValidateNodeParameters p = None
  | SnapshotReply s =>
      (∃ p, policy = Some p ∧ Forall (Directory.admitted p) (Directory.sn_Records s)) ∧
      ∃ now, ∀ now', now ≤ now' ≤ now + 4 * Minute →
        Directory.VerifySnapshotHeader s (ni_NodeID me) now' Directory.MaxDirectoryNodes = None
  | RecordReply r =>
      (∃ ip adv, requestIP (h_remote rq) = Ok ip ∧
         ParseAddr (Directory.e_IP (Directory.an_Endpoint (Directory.r_Announcement r))) = Some adv ∧ Unmap ip = Unmap adv) ∧
      (∃ p, policy = Some p ∧ Directory.Authority p me = true) ∧
      ∃ t, t ∈ Directory.r_Attestations r ∧ Directory.at_AuthorityID t = ni_NodeID me ∧
        Directory.at_AnnouncementHash t = Directory.AnnouncementHash (Directory.r_Announcement r)
  | ChallengeReply r =>
      ∃ request, decodeJSON (h_request rq) (8 * 1024) = Ok request ∧
      ∃ now, ∀ now', now ≤ now' ≤ now + 4 * Minute → Directory.VerifyChallenge me (cr_Nonce request) r now' = None
  end.

Definition policyOf (n : Node) : option Policy := Directory.a_policy <$> n_directory n.

(** ** Replies *)

Lemma serveNodes_ok (d : Draws) (g : Agent) (rq : HTTPRequest) :
  blen (edPrivate (Directory.signer g)) = ed25519_PrivateKeySize → Directory.agent_ok g →
  reply_ok (Directory.signer g) (Some (Directory.a_policy g)) rq (serveNodes d g).
Proof.
  intros Hk Hok. unfold serveNodes. destruct (Directory.SignSnapshot _ _ _ _) as [s|] eqn:Hs; [|done].
  unfold reply_ok. cbn [rp_body replyJSON].
  assert (Hlen : blen (Directory.sn_Records s) ≤ Directory.MaxDirectoryNodes).
  { unfold Directory.SignSnapshot in Hs. cbv zeta in Hs. destruct (_ || _) eqn:Hg; [done|]. unbool.
    destruct (Directory.unsorted _ _); [done|]. destruct (Sign _ _ _ _); [|done].
    apply (inj Ok) in Hs as <-. cbn [Directory.sn_Records]. unfold blen in *.
    by rewrite (merge_sort_Permutation Directory.record_le). }
  destruct (Directory.SignSnapshot_served _ _ g _ (d_now d) s Directory.MaxDirectoryNodes Hk Hok Hs) as (_ & Hadm & _).
  split; [eauto|]. exists (d_now d). intros now' Hnow.
  destruct (Directory.SignSnapshot_served _ _ g _ now' s Directory.MaxDirectoryNodes Hk Hok Hs) as (_ & _ & _ & _ & H).
  apply H; [|done|done]. assert (4 * Minute < Directory.MaxClockSkew - Millisecond) by done. lia.
Qed.

Lemma serveRegistration_ok (d : Draws) (g g' : Agent) (ip : Addr) (rq : HTTPRequest) (reply : Reply) :
  requestIP (h_remote rq) = Ok ip → serveRegistration d g ip (h_request rq) = (g', reply) →
  reply_ok (Directory.signer g) (Some (Directory.a_policy g)) rq reply.
Proof.
  intros Hip. unfold serveRegistration. destruct (decodeJSON _ _) as [request|]; [|by intros [= <- <-]].
  destruct (Directory.AcceptRegistration _ _ _ _ _ _) as [g1 [r|e]] eqn:Ha; [|by intros [= <- <-]].
  intros [= <- <-].
  destruct (Directory.AcceptRegistration_checked _ _ _ _ _ _ _ _ Ha) as (Hauth & _ & (adv & Hp & Hu) & _ & Hr & Ht & _).
  unfold reply_ok. cbn [rp_body replyJSON]. rewrite Hr in *. split_and!; eauto 6.
Qed.

Lemma serveChallenge_ok (d : Draws) (g : Agent) (rq : HTTPRequest) (policy : option Policy) :
  blen (edPrivate (Directory.signer g)) = ed25519_PrivateKeySize →
  reply_ok (Directory.signer g) policy rq (serveChallenge d g (h_request rq)).
Proof.
  intros Hk. unfold serveChallenge. destruct (decodeJSON _ _) as [request|] eqn:Hd; [|done].
  destruct (Directory.SignChallenge _ _ _ _) as [r|] eqn:Hs; [|done].
  unfold reply_ok. cbn [rp_body replyJSON]. exists request. split; [done|]. exists (d_now d). intros now' Hnow.
  by eapply Directory.SignChallenge_verifies.
Qed.

Lemma serveDirectory_ok (d : Draws) (g g' : Agent) (ip : Addr) (rq : HTTPRequest) (reply : Reply) :
  blen (edPrivate (Directory.signer g)) = ed25519_PrivateKeySize → Directory.agent_ok g →
  requestIP (h_remote rq) = Ok ip → serveDirectory d g ip rq = (g', reply) →
  Directory.evolved g g' ∧ reply_ok (Directory.signer g) (Some (Directory.a_policy g)) rq reply.
Proof.
  intros Hk Hok Hip. unfold serveDirectory. destruct (h_route rq);
    try (intros [= <- <-]; split; [done|by auto using serveNodes_ok, serveChallenge_ok]).
  intros H. split; [|by eapply serveRegistration_ok]. unfold serveRegistration in H.
  destruct (decodeJSON _ _); [|by injection H as <- _].
  destruct (Directory.AcceptRegistration _ _ _ _ _ _) as [g1 r] eqn:Ha.
  apply Directory.AcceptRegistration_evolved in Ha. by destruct r; injection H as <- _.
Qed.

(** ** Slots *)

Lemma slots_app (l k : list Task) : slots (l ++ k) = slots l + slots k.
Proof. unfold slots, blen. rewrite list.filter_app, length_app. lia. Qed.

Lemma slots_cons (t : Task) (l : list Task) : slots (t :: l) = (if working t then 1 else 0) + slots l.
Proof.
  unfold slots, blen. rewrite filter_cons. destruct (working t); [rewrite decide_True by done|rewrite decide_False by done];
    cbn [length]; lia.
Qed.

Lemma slots_nonneg (l : list Task) : 0 ≤ slots l.
Proof. unfold slots, blen. lia. Qed.

Lemma acquire_slot (l l' : Limiter) (ip : option string) (now : Time) (rl b : bool) :
  NodeServer.acquireDirectoryWork l ip now rl = (l', b) → NodeServer.limiter_ok l →
  NodeServer.limiter_ok l' ∧
  NodeServer.directoryWork l' = (λ w, if b then w + 1 else w) <$> NodeServer.directoryWork l ∧
  (b = true → is_Some (NodeServer.directoryWork l)).
Proof.
  intros H Hl. split.
  { replace l' with (NodeServer.event l (NodeServer.Acquire ip now rl)) by (cbn [NodeServer.event]; by rewrite H).
    by apply NodeServer.event_ok. }
  unfold NodeServer.acquireDirectoryWork in H. destruct (NodeServer.directoryWork l) as [w|] eqn:Hw; [|by simplify_eq].
  destruct ip; [|by simplify_eq/=]. destruct (if rl then _ else _) as [last []]; cbn [negb] in H; [|by simplify_eq].
  destruct (w <? NodeServer.directorySlots); by simplify_eq.
Qed.

Lemma enterDirectory_slot (n n' : Node) (remote : string) (now : Time) (rl : bool) (r : option Addr) :
  enterDirectory n remote now rl = (n', r) → NodeServer.limiter_ok (n_limiter n) →
  ∃ l, n' = set_limiter n l ∧ NodeServer.limiter_ok l ∧
    NodeServer.directoryWork l = (λ w, match r with Some _ => w + 1 | None => w end) <$> NodeServer.directoryWork (n_limiter n) ∧
    ∀ ip, r = Some ip → requestIP remote = Ok ip ∧ is_Some (NodeServer.directoryWork (n_limiter n)).
Proof.
  unfold enterDirectory. intros H Hl. destruct (requestIP remote) as [ip|] eqn:Hip.
  - destruct (NodeServer.acquireDirectoryWork _ _ _ _) as [l b] eqn:Ha.
    apply acquire_slot in Ha as (Hl' & Hw & Hb); [|done]. injection H as <- <-. exists l.
    split_and!; [done|done| |]; destruct b; try done. intros ? [= ->]. by split; [|apply Hb].
  - injection H as <- <-. exists (n_limiter n). split_and!; [by destruct n|done| |done].
    by destruct (NodeServer.directoryWork _).
Qed.

Lemma leave_limiter (l : Limiter) (w : Z) :
  NodeServer.limiter_ok l → NodeServer.directoryWork l = Some w → 1 ≤ w →
  NodeServer.limiter_ok (NodeServer.releaseDirectoryWork l) ∧
  NodeServer.directoryWork (NodeServer.releaseDirectoryWork l) = Some (w - 1).
Proof.
  intros [Hs Hw] Hl Hpos. unfold NodeServer.releaseDirectoryWork, NodeServer.limiter_ok. cbn. rewrite Hl.
  specialize (Hw _ Hl). split; [|done]. split; [done|]. intros ? [= <-]. lia.
Qed.

(** ** Steps *)

Lemma node_ok_swap (cfg : Config) (sg : HybridSigner) (n n' : Node) (ts ts' : list Task) :
  node_ok cfg sg (n, ts) → n_server n' = n_server n →
  n_requests n' = blen ts' → blen ts' ≤ NodeServer.c_MaxConcurrentRequests cfg →
  NodeServer.limiter_ok (n_limiter n') → directory_ok sg n' ts' → Forall task_ok ts' →
  n_store n' = n_store n → n_disk n' = n_disk n → node_ok cfg sg (n', ts').
Proof. intros [] Hsv Hrq Hmax Hlim Hdir Htk Hst Hdk. by split; cbn [fst snd] in *; rewrite ?Hst, ?Hdk, ?Hsv. Qed.

Lemma drop_waiting (cfg : Config) (sg : HybridSigner) (n : Node) (ts1 ts2 : list Task) (rq : HTTPRequest) :
  node_ok cfg sg (n, ts1 ++ Waiting rq :: ts2) → node_ok cfg sg (releaseRequest n, ts1 ++ ts2).
Proof.
  intros Hok. pose proof Hok as [_ _ _ [Hrq Hmax] Hlim Hdir Htk _ _]. cbn [fst snd] in *.
  unfold blen in Hrq, Hmax. rewrite length_app in Hrq, Hmax. cbn [length] in Hrq, Hmax.
  eapply node_ok_swap; [exact Hok|done| |unfold blen; rewrite length_app; lia|done| | |done|done].
  - cbn [releaseRequest set_requests n_requests]. unfold blen. rewrite length_app. lia.
  - unfold directory_ok in *. cbn [releaseRequest set_requests n_directory n_limiter n_mux].
    rewrite slots_app, slots_cons in Hdir. cbn [working] in Hdir. by rewrite slots_app.
  - rewrite list.Forall_app, list.Forall_cons in Htk. destruct Htk as (? & _ & ?). by apply list.Forall_app.
Qed.

Lemma change_limiter (cfg : Config) (sg : HybridSigner) (n : Node) (ts : list Task) (l : Limiter) :
  node_ok cfg sg (n, ts) → NodeServer.limiter_ok l →
  NodeServer.directoryWork l = NodeServer.directoryWork (n_limiter n) → node_ok cfg sg (set_limiter n l, ts).
Proof.
  intros Hok Hl Hw. pose proof Hok as [_ _ _ [Hrq Hmax] _ Hdir Htk _ _]. cbn [fst snd] in *.
  eapply node_ok_swap; [exact Hok|done..| |done|done|done].
  unfold directory_ok in *. cbn [set_limiter n_directory n_limiter n_mux]. by rewrite Hw.
Qed.

Lemma change_store (cfg : Config) (sg : HybridSigner) (n : Node) (ts : list Task) (disk : Disk) (s : NodeStore.DiskStore) :
  node_ok cfg sg (n, ts) → NodeStore.step (n_disk n, n_store n) (disk, s) → node_ok cfg sg (set_store n disk s, ts).
Proof.
  intros [Hk Hsv Hd Hrq Hlim Hdir Htk [Hst Hdk] Hcap] Hstep. cbn [fst snd] in *. split; cbn [fst snd]; try done.
  - by apply (NodeStore.step_ok _ _ Hstep).
  - cbn [set_store n_store]. pose proof (step_capacity _ _ Hstep) as Hc. cbn in Hc. congruence.
Qed.

Lemma change_agent (cfg : Config) (sg : HybridSigner) (n : Node) (ts : list Task) (g g' : Agent) :
  node_ok cfg sg (n, ts) → n_directory n = Some g → Directory.evolved g g' →
  node_ok cfg sg (set_directory n g', ts) ∧ policyOf (set_directory n g') = policyOf n.
Proof.
  intros Hok Hg Hev. pose proof Hok as [_ _ _ [Hrq Hmax] Hlim Hdir Htk _ _]. cbn [fst snd] in *. split.
  - eapply node_ok_swap; [exact Hok|done..| |done|done|done].
    unfold directory_ok in *. rewrite Hg in Hdir. cbn [set_directory n_directory n_limiter n_mux].
    destruct Hdir as (Ha & Hs & Hw). split; [by eapply Directory.evolved_ok|]. split; [|done].
    by rewrite (Directory.ev_signer _ _ Hev).
  - unfold policyOf. rewrite Hg. cbn. by rewrite (Directory.ev_policy _ _ Hev).
Qed.

Lemma enter_ok (cfg : Config) (sg : HybridSigner) (n n' : Node) (ts1 ts2 : list Task) (rq : HTTPRequest) (now : Time)
    (rl : bool) (r : option Addr) :
  node_ok cfg sg (n, ts1 ++ Waiting rq :: ts2) → enterDirectory n (h_remote rq) now rl = (n', r) →
  policyOf n' = policyOf n ∧
  match r with
  | None => node_ok cfg sg (releaseRequest n', ts1 ++ ts2)
  | Some ip => node_ok cfg sg (n', ts1 ++ Working rq ip :: ts2)
  end.
Proof.
  intros Hok He. pose proof Hok as [_ _ _ [Hrq Hmax] Hlim Hdir Htk _ _]. cbn [fst snd] in *.
  apply enterDirectory_slot in He as (l & -> & Hl & Hw & Hip); [|done]. split; [done|].
  destruct r as [ip|].
  2: { apply (drop_waiting _ _ (set_limiter n l) _ _ rq), change_limiter; [done..|]. rewrite Hw.
       by destruct (NodeServer.directoryWork (n_limiter n)). }
  destruct (Hip _ eq_refl) as [Hreq [w Hsome]]. unfold blen in Hrq, Hmax. rewrite length_app in Hrq, Hmax.
  eapply node_ok_swap; [exact Hok|done| |unfold blen; rewrite length_app; exact Hmax|done| | |done|done].
  - cbn [set_limiter n_requests]. unfold blen. by rewrite length_app.
  - unfold directory_ok in *. cbn [set_limiter n_directory n_limiter n_mux]. rewrite Hw.
    rewrite slots_app, slots_cons in *. cbn [working] in *. destruct (n_directory n).
    + destruct Hdir as (? & ? & ->). split_and!; [done..|]. cbn. f_equal. lia.
    + destruct Hdir as [Hnone _]. congruence.
  - rewrite list.Forall_app, list.Forall_cons in *. by destruct Htk as (? & _ & ?).
Qed.

Lemma serve_ok (cfg : Config) (sg : HybridSigner) (n : Node) (ts1 ts2 : list Task) (rq : HTTPRequest) (ip : Addr)
    (d : Draws) (g g' : Agent) (reply : Reply) :
  node_ok cfg sg (n, ts1 ++ Working rq ip :: ts2) → n_directory n = Some g → serveDirectory d g ip rq = (g', reply) →
  let n' := releaseRequest (leaveDirectory (set_directory n g')) in
  node_ok cfg sg (n', ts1 ++ ts2) ∧ policyOf n' = policyOf n ∧ reply_ok sg (policyOf n) rq reply.
Proof.
  intros Hok Hg Hs n'. pose proof Hok as [Hk _ _ [Hrq Hmax] Hlim Hdir Htk _ _]. cbn [fst snd] in *.
  unfold directory_ok in Hdir. rewrite Hg in Hdir. destruct Hdir as (Ha & <- & Hw).
  rewrite slots_app, slots_cons in Hw. cbn [working] in Hw.
  rewrite list.Forall_app, list.Forall_cons in Htk. destruct Htk as (Ht1 & Hip & Ht2).
  destruct (serveDirectory_ok _ _ _ _ _ _ Hk Ha Hip Hs) as [Hev Hrep].
  destruct (change_agent _ _ _ _ _ _ Hok Hg Hev) as [Hok' Hpol].
  destruct (leave_limiter _ _ Hlim Hw) as [Hl Hwork]; [pose proof (slots_nonneg ts1); pose proof (slots_nonneg ts2); lia|].
  split_and!; [|exact Hpol|unfold policyOf; by rewrite Hg].
  unfold blen in Hrq, Hmax. rewrite length_app in Hrq, Hmax. cbn [length] in Hrq, Hmax.
  pose proof (no_directory _ _ _ Hok') as Hd'. unfold directory_ok in Hd'. cbn in Hd'.
  eapply node_ok_swap; [exact Hok|done| |unfold blen; rewrite length_app; lia|done| |by apply list.Forall_app|done|done].
  - cbn. unfold blen. rewrite length_app. lia.
  - unfold directory_ok. cbn -[slots]. destruct Hd' as (? & ? & _). split_and!; [done|done|].
    cbn in Hwork. rewrite Hwork, slots_app. f_equal. lia.
Qed.

Lemma plainReply_ok (cfg : Config) (sg : HybridSigner) (n : Node) (ts : list Task) (rq : HTTPRequest) (now : Time)
    (rt : Route) (reply : Reply) (p : option Policy) :
  node_ok cfg sg (n, ts) → plainReply now n rt = Some reply → reply_ok sg p rq reply.
Proof.
  intros [Hk Hsv Hd _ _ _ _ [Hst _] Hcap] H. cbn [fst] in *.
  destruct (NodeServer.NewServer_identity _ _ _ _ Hsv) as (_ & _ & _ & Hid).
  destruct rt; simplify_eq/=; unfold reply_ok; cbn [rp_body handleHealth handleIdentity handleParameters replyJSON]; [done| |].
  - rewrite Hid. split; [done|]. by apply PublicIdentity_valid.
  - by apply (NodeServer.parameters_valid cfg _ sg).
Qed.

Lemma node_step_ok (cfg : Config) (sg : HybridSigner) (x y : NodeState) (l : Label) :
  node_step x l y → node_ok cfg sg x →
  node_ok cfg sg y ∧ policyOf y.1 = policyOf x.1 ∧ ∀ a, l = Some a → reply_ok sg (policyOf x.1) a.1 a.2.
Proof.
  intros Hst Hok. destruct Hst as [n n' ts rq Ha|n ts rq Ha|n ts ts1 ts2 rq now reply -> Hr|n ts rq disk s Hin Hrt Hs
    |n ts ts1 ts2 rq -> _|n ts ts1 ts2 rq -> _|n n' ts ts1 ts2 rq now -> _ _ He|n n' ts ts1 ts2 rq now ip -> _ _ He
    |n ts ts1 ts2 rq ip d g g' reply -> Hg Hs|n ts io now disk s e Hs|n ts g now Hg|n ts g g' Hg Hev]; cbn [fst].
  - pose proof Hok as [_ Hsv _ [Hrq Hmax] ? Hdir Htk _ _]. cbn [fst snd] in *. unfold acquireRequest in Ha.
    destruct (NodeServer.NewServer_identity _ _ _ _ Hsv) as (_ & Hc & _). rewrite Hc in Ha.
    destruct (_ <? _) eqn:Hlt; [|done]. injection Ha as <-. unbool. split; [|done].
    eapply node_ok_swap; [exact Hok|done| | |done| |by constructor|done|done]; cbn; unfold blen in *; cbn [length]; [lia..|].
    unfold directory_ok in *. cbn [set_requests n_directory n_limiter n_mux]. by rewrite slots_cons.
  - split_and!; [done|done|]. by intros a [= <-].
  - split_and!; [by eapply drop_waiting|done|]. intros a [= <-]. by eapply plainReply_ok.
  - by split; [apply change_store|].
  - by split; [eapply drop_waiting|].
  - by split; [eapply drop_waiting|].
  - destruct (enter_ok _ _ _ _ _ _ _ _ _ _ Hok He) as [Hp Hn]. split_and!; [done|done|]. by intros a [= <-].
  - by destruct (enter_ok _ _ _ _ _ _ _ _ _ _ Hok He) as [Hp Hn].
  - destruct (serve_ok _ _ _ _ _ _ _ _ _ _ _ Hok Hg Hs) as (Hn & Hp & Hr). split_and!; [done|done|]. by intros a [= <-].
  - split; [|done]. eapply change_store; [done|]. by eapply NodeStore.step_sweep.
  - destruct (change_agent _ _ _ _ g (Directory.set_registry g (Directory.Sweep (Directory.registry g) now).1) Hok Hg) as [Hn Hp];
      [|done]. apply Directory.evolved_registry, rtc_once, Directory.step_sweep.
  - by destruct (change_agent _ _ _ _ _ _ Hok Hg Hev).
Qed.

Lemma node_steps_ok (cfg : Config) (sg : HybridSigner) (x y : NodeState) (tr : list (HTTPRequest * Reply)) :
  run x tr y → node_ok cfg sg x →
  node_ok cfg sg y ∧ policyOf y.1 = policyOf x.1 ∧ Forall (λ a, reply_ok sg (policyOf x.1) a.1 a.2) tr.
Proof.
  induction 1 as [x|x y z l tr Hst _ IH]; intros Hok; [done|].
  destruct (node_step_ok _ _ _ _ _ Hst Hok) as (Hy & Hp & Hl). destruct (IH Hy) as (Hz & Hpz & Htr).
  rewrite Hp in *. split_and!; [done|done|]. apply list.Forall_app. split; [|done].
  destruct l as [a|]; [|constructor]. constructor; [by apply Hl|constructor].
Qed.

(** ** Start-up *)

Lemma main_ok (o : Options) (w : World) (keys : Disk) (n : Node) :
  NodeServer.c_StorageCapacity (o_config o) < two63 → main o w = (keys, Ok n) →
  let cfg := with_difficulty (o_config o) (u8 (o_difficulty o)) in
  ∃ sg keys0, NodeKeys.LoadOrCreateSigner (w_keyIO w) (w_keyHere w) (w_keyDisk w) (NodeServer.c_KeyFile (o_config o))
    (w_edCoins w) (w_pqCoins w) = (keys0, Ok sg) ∧ keys = keys0 ∧ node_ok cfg sg (n, []).
Proof.
  intros Hcap H cfg. unfold main in H. destruct (_ <? o_difficulty o); [done|]. fold cfg in H.
  destruct (NodeServer.Validate cfg) eqn:Hv; [done|].
  destruct (NodeKeys.LoadOrCreateSigner _ _ _ _ _ _) as [k [sg|]] eqn:Hsg; [|done].
  destruct (Transport.rotatingServerTLSConfig _ _ _ _ _) as [[tls tc]|]; [|done].
  destruct (NodeStore.NewDiskStore _ _ _ _ _ _) as [disk [store|]] eqn:Hst; [|done].
  destruct (NodeServer.NewServer _ _ _) as [server|] eqn:Hsv; [|done]. injection H as <- H.
  exists sg, k. split; [done|]. split; [done|]. pose proof (NodeKeys.loaded_size _ _ _ _ _ _ _ _ Hsg) as Hk.
  pose proof (NodeStore.NewDiskStore_ok _ _ _ _ _ _ _ _ Hcap Hst) as Hsok.
  pose proof (NodeServer.NewServer_identity _ _ _ _ Hsv) as (_ & _ & _ & Hid).
  assert (Hmax : 0 ≤ NodeServer.c_MaxConcurrentRequests cfg).
  { unfold NodeServer.Validate in Hv. step_if Hv. unbool. lia. }
  assert (Hd : 0 ≤ NodeServer.c_BaseDifficulty cfg) by (cbn; unfold u8; div_lia).
  pose proof (NewDiskStore_capacity _ _ _ _ _ _ _ _ Hst) as Hc.
  set (n0 := {| n_server := server |}) in H.
  assert (H0 : node_ok cfg sg (n0, [])).
  { split; cbn [fst snd n0 n_server n_store n_requests n_limiter n_disk]; try done. }
  destruct (bool_decide _); [by apply (inj Ok) in H as <-|].
  unfold startDirectory in H. destruct (_ || _); [done|]. destruct (Directory.LoadPinnedNodes _ _ _); [|done].
  destruct (Directory.NewPolicy _ _ _ _); [|done].
  destruct (Directory.NewAgent _ _ _ _ _ _) as [g|] eqn:Hg; [|done].
  apply Directory.NewAgent_ok in Hg as (Hag & s & [= <-] & Hs & _).
  unfold EnableDirectory in H. destruct (negb _); [done|]. cbn [n0 n_directory] in H.
  rewrite bool_decide_eq_false_2 in H by (by intros []). apply (inj Ok) in H as <-.
  eapply node_ok_swap; [exact H0|done..| | |constructor|done|done].
  - split; cbn; [|intros ? [= <-]; done]. rewrite map_size_empty. done.
  - by unfold directory_ok; cbn.
Qed.

(** C5. A started node stays within its limits and answers truthfully. Whatever
    requests arrive, however their handlers, the expiry ticker and the directory agent
    interleave and whatever I/O fails: the requests in flight are those holding a token,
    never more than configured; the directory slots taken are those of handlers that
    hold one, at most eight, and such a handler always finds its agent; the store's
    accounting and files stay exact; and every reply is right: the parameters pass the
    client's check, a snapshot verifies under the identity of the node's key file and
    lists only records admitted by the quorum, a registration is confirmed only to the
    address it announces and by an authority, a challenge is answered with a proof. *)
Theorem node_run (o : Options) (w : World) (keys : Disk) (n0 n : Node) (ts : list Task) (tr : list (HTTPRequest * Reply)) :
  NodeServer.c_StorageCapacity (o_config o) < two63 → main o w = (keys, Ok n0) → run (n0, []) tr (n, ts) →
  ∃ sg, NodeKeys.LoadOrCreateSigner (w_keyIO w) (w_keyHere w) (w_keyDisk w) (NodeServer.c_KeyFile (o_config o))
          (w_edCoins w) (w_pqCoins w) = (keys, Ok sg) ∧
  n_requests n = blen ts ∧ blen ts ≤ NodeServer.c_MaxConcurrentRequests (o_config o) ∧
  slots ts ≤ NodeServer.directorySlots ∧
  (∀ rq ip, Working rq ip ∈ ts → is_Some (n_directory n) ∧ requestIP (h_remote rq) = Ok ip) ∧
  NodeStore.store_ok (n_store n) ∧ NodeStore.disk_ok (n_disk n) (n_store n) ∧
  Forall (λ a, reply_ok sg (policyOf n0) a.1 a.2) tr.
Proof.
  intros Hcap Hmain Hrun. destruct (main_ok _ _ _ _ Hcap Hmain) as (sg & k & Hsg & -> & H0).
  destruct (node_steps_ok _ _ _ _ _ Hrun H0) as (Hn & _ & Htr). exists sg.
  destruct Hn as [_ _ _ [Hrq Hmax] [_ Hlim] Hdir Htk [Hst Hdk] _]. cbn [fst snd] in *.
  split_and!; [done|done|done| | |done|done|done].
  - unfold directory_ok in Hdir. destruct (n_directory n); [destruct Hdir as (_ & _ & Hw); apply Hlim in Hw; lia|].
    destruct Hdir as (_ & _ & ->). done.
  - intros rq ip Hin. split; [|by apply (proj1 (list.Forall_forall _ _) Htk) in Hin].
    unfold directory_ok in Hdir. destruct (n_directory n); [done|]. destruct Hdir as (_ & _ & Hz). exfalso.
    apply list_elem_of_split in Hin as (l & k' & ->). rewrite slots_app, slots_cons in Hz. cbn [working] in Hz.
    pose proof (slots_nonneg l). pose proof (slots_nonneg k'). lia.
Qed.

End Facts.

(** ** The handlers as steps *)

Section Handlers.
Context `{C : Crypto} {CL : CryptoLaws C} {NI : Netip} {MO : MapOrder}
  {MI : Marshaler StoredItem} {DI : StrictDecoder StoredItem} {DS : StrictDecoder Snapshot}
  {DR : LimitedDecoder RegistrationRequest} {DC : LimitedDecoder ChallengeRequest}
  {DItem : LimitedDecoder StoredItem} {DDelete : LimitedDecoder DeleteRequest}.

(** A directory handler that is not interrupted is a run of its two steps. *)
Lemma handleDirectory_run (d : Draws) (now : Time) (n n' : Node) (ts : list Task) (rq : HTTPRequest) (reply : Reply) :
  directoryRoute (h_route rq) = true → h_route rq ∈ n_mux n → handleDirectory d now n rq = Some (n', reply) →
  run (n, Waiting rq :: ts) [(rq, reply)] (releaseRequest n', ts).
Proof.
  intros Hrt Hmux H. unfold handleDirectory in H.
  destruct (enterDirectory _ _ _ _) as [n1 [ip|]] eqn:He.
  - destruct (n_directory n1) as [g|] eqn:Hg; [|done]. cbn in H.
    destruct (serveDirectory d g ip rq) as [g1 r] eqn:Hs. injection H as <- <-.
    eapply (run_cons _ _ _ None); [by eapply (node_enter _ _ _ [])|].
    eapply (run_cons _ _ _ (Some _) []); [by eapply (node_serve _ _ [])|constructor].
  - injection H as <- <-. eapply (run_cons _ _ _ (Some _) []); [by eapply (node_refuse _ _ _ [])|constructor].
Qed.

(** The item handlers change the store by at most one of its operations. *)
Lemma handleStore_steps (io : IO) (now now' : Time) (coins : bytes) (sv : Server) (disk disk' : Disk)
    (s s' : NodeStore.DiskStore) (r : Request) (resp : NodeServer.Response) :
  NodeServer.handleStore io now now' coins sv disk s r = (disk', s', resp) → rtc NodeStore.step (disk, s) (disk', s').
Proof.
  unfold NodeServer.handleStore. intros H.
  destruct (decodeJSON _ _); [|by simplify_eq]. destruct (ValidateItem _ _ _); [by simplify_eq|].
  destruct (VerifyWork _ _ _ _); [by simplify_eq|]. destruct (NodeStore.Put _ _ _ _ _) as [[d t] e] eqn:Hput.
  apply rtc_once. apply NodeStore.step_put in Hput. destruct e; [by simplify_eq|]. by destruct (Sign _ _ _ _); simplify_eq.
Qed.

Lemma handleDelete_steps (io : IO) (now now' : Time) (coins : bytes) (sv : Server) (disk disk' : Disk)
    (s s' : NodeStore.DiskStore) (r : Request) (resp : NodeServer.Response) :
  NodeServer.handleDelete io now now' coins sv disk s r = (disk', s', resp) → rtc NodeStore.step (disk, s) (disk', s').
Proof.
  unfold NodeServer.handleDelete. intros H.
  destruct (decodeJSON _ _); [|by simplify_eq]. destruct (_ || _); [by simplify_eq|].
  destruct (NodeStore.Get _ _ _); [|by simplify_eq]. destruct (negb (DeleteTokenMatches _ _)); [by simplify_eq|].
  destruct (NodeStore.Delete _ _ _ _) as [[d t] e] eqn:Hdel.
  apply rtc_once. apply NodeStore.step_delete in Hdel. destruct e; [by simplify_eq|]. by destruct (Sign _ _ _ _); simplify_eq.
Qed.

#[local] Existing Instance Directory.evolved_preorder.

(** The agent's loop only evolves the agent. *)
Lemma Run_evolved (interval : Duration) (g g' : Agent) (first : Tick) (cancelled : option error) (ticks : list Tick) (err e : error) :
  Run interval g first cancelled ticks err = (g', e) → Directory.evolved g g'.
Proof.
  assert (Hsync : ∀ g t, Directory.evolved g (sync g t).1).
  { intros h t. unfold sync. destruct (Directory.SyncOnce _ _ _ _ _) eqn:Hs. by eapply Directory.SyncOnce_evolved. }
  assert (Hloop : ∀ ticks g, Directory.evolved g (foldl (λ g t, (sync g t).1) g ticks)).
  { intros ts. induction ts as [|t ts IH]; intros h; [done|]. etrans; [apply Hsync|apply IH]. }
  unfold Run. destruct (_ || _); [by intros [= <- _]|]. pose proof (Hsync g first) as Hf.
  destruct (sync g first) as [h [e0|]]; cbn [fst] in Hf; [destruct cancelled|]; intros [= <- _]; [done|by etrans..].
Qed.

End Handlers.

(** * A node that starts and serves its directory *)

Module Sample.
#[local] Existing Instances Toy.crypto Toy.laws Toy.keygen Transport.Sample.x509 Directory.Sample.netip
  Directory.Sample.decode_snapshot NodeStore.Sample.marshal_item NodeStore.Sample.decode_item NodeStore.Sample.codec.

Definition keyFile : string := "propagare-node-key.json".
Definition file (data : bytes) : File := {| f_dir := false; f_regular := true; f_private := true; f_data := data |}.
Definition keys : Disk := {[keyFile := file [x01]]}.

Definition options : Options :=
  {| o_config := NodeServer.DefaultConfig; o_difficulty := 16; o_advertiseIP := "8.8.8.8"; o_advertisePort := 443;
     o_seedFile := "seeds.json"; o_quorum := 1; o_lease := Hour; o_allowPrivate := false |}.

Definition world : World :=
  {| w_keyIO := λ _, None; w_keyHere := true; w_keyDisk := keys; w_edCoins := []; w_pqCoins := [];
     w_serial := Ok 7; w_certCoins := []; w_tlsNow := Transport.Sample.now; w_tlsNow' := Transport.Sample.now;
     w_storeIO := λ _, None; w_storeNow := Directory.Sample.now; w_storeDisk := ∅;
     w_seedIO := λ _, None; w_seedDisk := {[("seeds.json"%string) := file [x01]]}; w_agentCoins := [];
     w_agentNow := Directory.Sample.now |}.

Definition request : HTTPRequest :=
  {| h_route := GetNodes; h_remote := "8.8.8.8:50000";
     h_request := {| NodeServer.rq_mediaType := Err "no media type"; NodeServer.rq_body := [] |} |}.

Lemma remote_ip : requestIP (h_remote request) = Ok (Directory.V4 (Directory.v4 8 8 8 8)).
Proof. vm_compute. reflexivity. Qed.

#[export] Instance no_registration : LimitedDecoder RegistrationRequest := λ _ _, Err "none".
#[export] Instance no_challenge : LimitedDecoder ChallengeRequest := λ _ _, Err "none".

Section Run.
Context (s : HybridSigner) (ks : blen (edPrivate s) = ed25519_PrivateKeySize).

(** The key file holds the signer's keys, the seed file pins the node itself. *)
#[export] Instance key_codec : Marshaler PrivateSigningMaterial := λ _, Err "not written".
#[export] Instance key_file : StrictDecoder PrivateSigningMaterial := λ _, Ok (PrivateMaterial s).
#[export] Instance seed_file : StrictDecoder (list PinnedNode) := λ _, Ok (Directory.Sample.seeds s).

Definition config : Config := with_difficulty NodeServer.DefaultConfig 16.
Definition server : Server :=
  {| NodeServer.config := config; NodeServer.signer := s; NodeServer.identity := PublicIdentity s |}.

Definition started : Node :=
  {| n_server := server; n_mux := routes ++ directoryRoutes; n_requests := 0; n_disk := ∅;
     n_store := NodeStore.emptyStore (NodeServer.c_StorageCapacity config) (NodeServer.c_MailboxQuota config);
     n_tls := Transport.Sample.source s Transport.Sample.now; n_directory := Some (Directory.Sample.agent0 s);
     n_limiter := NodeServer.enabledLimiter |}.

Lemma loaded : NodeKeys.LoadOrCreateSigner (λ _, None) true keys (NodeServer.c_KeyFile config) [] [] = (keys, Ok s).
Proof.
  rewrite (NodeKeys.load_quiet _ _ _ _ [x01]); [by unfold decodeStrict, key_file; rewrite restore_signer|done|done| |done|done].
  intros n Hp. unfold keys. apply lookup_singleton_ne. intros <-. vm_compute in Hp. discriminate.
Qed.

Lemma data_opened : NodeStore.NewDiskStore (λ _, None) Directory.Sample.now ∅ (NodeServer.c_DataDir config)
  (NodeServer.c_StorageCapacity config) (NodeServer.c_MailboxQuota config) = (∅, Ok (n_store started)).
Proof. vm_compute. reflexivity. Qed.

Lemma main_started : main options world = (keys, Ok started).
Proof.
  unfold main. change (_ <? o_difficulty options) with false. cbv iota zeta.
  change (with_difficulty (o_config options) (u8 (o_difficulty options))) with config.
  change (NodeServer.Validate config) with (@None error). cbv iota.
  change (NodeKeys.LoadOrCreateSigner _ _ _ _ _ _)
    with (NodeKeys.LoadOrCreateSigner (λ _, None) true keys (NodeServer.c_KeyFile config) [] []).
  rewrite loaded. cbn [w_serial w_certCoins w_tlsNow w_tlsNow' world]. rewrite (Transport.Sample.first s ks).
  cbn [w_storeIO w_storeNow w_storeDisk world]. rewrite data_opened.
  change (NodeServer.NewServer config _ _) with (@Ok Server server). cbv iota zeta.
  rewrite bool_decide_eq_false_2 by done. f_equal. unfold startDirectory.
  cbn [o_advertisePort options Z.eqb Z.ltb Z.compare Pos.compare Pos.compare_cont orb].
  change (Directory.LoadPinnedNodes _ _ _) with (@Ok (list PinnedNode) (Directory.Sample.seeds s)). cbv iota.
  cbn [o_quorum o_allowPrivate options].
  rewrite (Directory.Sample.policy_new s ks Directory.MaxDirectoryNodes (or_intror eq_refl)).
  change (Directory.NewAgent _ _ _ _ _ _)
    with (Directory.NewAgent [] (Directory.Sample.policy s) Directory.Sample.endpoint (Some s) Hour Directory.Sample.now).
  rewrite (Directory.Sample.agent0_new s ks). unfold EnableDirectory.
  rewrite bool_decide_eq_true_2 by done. cbn [negb]. by rewrite bool_decide_eq_false_2 by (by intros []).
Qed.

Definition draws : Draws := {| d_coins := []; d_now := Directory.Sample.now; d_probe := λ _, None |}.
Definition answer : Reply := replyJSON (SnapshotReply (Directory.Sample.served s)).

Lemma served : ∃ n, run (started, []) [(request, answer)] (n, []).
Proof.
  assert (Hs : serveDirectory draws (Directory.Sample.agent0 s) (Directory.V4 (Directory.v4 8 8 8 8)) request =
    (Directory.Sample.agent0 s, answer)).
  { unfold serveDirectory. cbn [request h_route]. unfold serveNodes. cbn [draws d_coins d_now].
    change (Directory.signer (Directory.Sample.agent0 s)) with s. by rewrite (Directory.Sample.served_signed s). }
  eexists. eapply (run_cons _ _ _ None); [by eapply (node_arrive _ _ _ request)|].
  apply (handleDirectory_run draws Directory.Sample.now); [done|by vm_compute; repeat constructor|].
  unfold handleDirectory, enterDirectory. rewrite remote_ip. cbn [set_requests n_limiter started].
  match goal with |- context [NodeServer.acquireDirectoryWork ?l ?i ?t ?b] =>
    change (NodeServer.acquireDirectoryWork l i t b)
      with ({| NodeServer.directoryLast := ∅; NodeServer.directoryWork := Some 1 |}, true) end.
  cbn [n_directory set_requests started set_limiter mbind option_bind]. by rewrite Hs.
Qed.

End Run.
End Sample.

#[local] Existing Instances Toy.crypto Toy.laws Toy.keygen Transport.Sample.x509 Directory.Sample.netip
  Directory.Sample.decode_snapshot NodeStore.Sample.marshal_item NodeStore.Sample.decode_item NodeStore.Sample.codec
  Sample.no_registration Sample.no_challenge Sample.key_codec.

(** The signer of the key file, and the node that started from it. *)
Definition alice : HybridSigner := Toy.signer x01.
#[local] Instance alice_key : StrictDecoder PrivateSigningMaterial := Sample.key_file alice.
#[local] Instance alice_seed : StrictDecoder (list PinnedNode) := Sample.seed_file alice.

Lemma node_run_witness :
  ∃ n, run (Sample.started alice, []) [(Sample.request, Sample.answer alice)] (n, []) ∧ NodeStore.store_ok (n_store n) ∧
  ∃ sg, reply_ok sg (policyOf (Sample.started alice)) Sample.request (Sample.answer alice).
Proof.
  destruct (Sample.served alice) as [n Hrun]. exists n. split; [exact Hrun|].
  destruct (node_run Sample.options Sample.world Sample.keys (Sample.started alice) n [] _ eq_refl
    (Sample.main_started alice eq_refl) Hrun) as (sg & _ & _ & _ & _ & _ & Hst & _ & Htr).
  split; [exact Hst|]. exists sg. exact (Forall_inv Htr).
Defined.

End Node.
