(* ===== verification/ClientDirectory.v ===== *)
(** How a client finds and reaches nodes: the directory bootstrap from several pinned
    seeds (src/client/directory.go) and the connection to a node, pinned or for
    development (src/client/http_node.go). What a channel to an address answers is the
    network's: an argument. *)
From S2P Require Import Prelude Sha256 Encoding Protocol Crypto Files Directory ClientNode Transport.
From stdpp Require Import pretty.
Local Open Scope Z_scope.

Module ClientDirectory.

Import Directory.

Definition MaxClientNodes : Z := 64.

Record DirectoryBootstrap := {
  Seeds : list PinnedNode;
  AuthorityQuorum : Z;
  MinSeedResponses : Z;
  AllowPrivateIPs : bool;
  MaxNodes : Z;
}.

(** * Addresses *)

(** The parts of a [url.URL] that are inspected; [u_Hostname] is [Hostname()]. *)
Record URL := {
  u_Scheme : string;
  u_Host : string;
  u_Hostname : string;
  u_User : bool;  (* [User != nil] *)
  u_RawQuery : string;
  u_Fragment : string;
}.

(** [url.Parse]. *)
Class UrlParser := url_Parse : string → Result URL.

(** [net.JoinHostPort]: a host with a colon is put in brackets. *)
Definition JoinHostPort (host port : string) : string :=
  if bool_decide (x3a ∈ str_bytes host) then ("[" +:+ host +:+ "]:" +:+ port)%string else (host +:+ ":" +:+ port)%string.

Definition BaseURL (endpoint : Endpoint) : string :=
  (e_Scheme endpoint +:+ "://" +:+ JoinHostPort (e_IP endpoint) (pretty (e_Port endpoint)))%string.

(** [strings.TrimRight(s, "/")]. *)
Fixpoint dropSlashes (l : bytes) : bytes :=
  match l with x2f :: l => dropSlashes l | _ => l end.
Definition TrimRight (s : string) : string := bytes_str (reverse (dropSlashes (reverse (str_bytes s)))).

Section Addresses.
Context {UP : UrlParser} {NI : Netip}.

Definition validNodeBaseURL (baseURL : string) : Result URL :=
  match url_Parse baseURL with
  | Err _ => Err "invalid node base URL"
  | Ok parsed =>
      if negb (bool_decide (u_Scheme parsed = "http"%string)) && negb (bool_decide (u_Scheme parsed = "https"%string)) ||
         bool_decide (u_Host parsed = ""%string) || u_User parsed || negb (bool_decide (u_RawQuery parsed = ""%string)) ||
         negb (bool_decide (u_Fragment parsed = ""%string))
      then Err "invalid node base URL"
      else Ok parsed
  end.

Definition privateDevelopmentHost (host : string) : bool :=
  match ParseAddr host with
  | Some address => IsLoopback address || IsPrivate address
  | None => false
  end.

End Addresses.

(** * Connections *)

(** The client a request goes through. *)
Inductive Client :=
| PlainClient (c : Transport.HTTPClient)
| PinnedClient (c : Transport.PinnedClient).

(** What the other end of a channel answers. *)
Record Channel := {
  ch_identity : ClientNode.Wire;
  ch_parameters : ClientNode.Wire;
  ch_store : bytes → ClientNode.Wire;
  ch_fetch : bytes → ClientNode.Wire;
  ch_proof : bytes → ClientNode.Wire;
  ch_delete : bytes → ClientNode.Wire;
}.

Class Network := reach : Client → string → Channel.

Definition defaultClient : Transport.HTTPClient :=
  {| Transport.hc_Timeout := 15 * Second; Transport.hc_Transport := Transport.NoTransport; Transport.hc_NoRedirect := false |}.

(** [CheckRedirect] of the copy refuses redirects. *)
Definition noRedirect (c : Client) : Client :=
  match c with
  | PlainClient c => PlainClient {| Transport.hc_Timeout := Transport.hc_Timeout c;
                                    Transport.hc_Transport := Transport.hc_Transport c; Transport.hc_NoRedirect := true |}
  | PinnedClient c => PinnedClient c
  end.

Section Connections.
Context `{C : Crypto} {NI : Netip} {UP : UrlParser} {NW : Network} {DI : StrictDecoder NodePublicIdentity}.

(** The node that answers through [client] at [base]. *)
Definition nodeAt (client : Client) (base : string) (identity : NodePublicIdentity) : ClientNode.HTTPNode :=
  let ch := reach client base in
  {| ClientNode.BaseURL := base; ClientNode.Identity := identity; ClientNode.hasClient := true;
     ClientNode.w_parameters := ch_parameters ch; ClientNode.w_store := ch_store ch; ClientNode.w_fetch := ch_fetch ch;
     ClientNode.w_proof := ch_proof ch; ClientNode.w_delete := ch_delete ch |}.

Definition discoverHTTPNode (baseURL : string) (client : Client) (allowPrivateHTTP : bool) : Result ClientNode.HTTPNode :=
  match validNodeBaseURL baseURL with
  | Err _ => Err "invalid node base URL"
  | Ok parsed =>
      if bool_decide (u_Scheme parsed = "http"%string) &&
         (negb allowPrivateHTTP || negb (privateDevelopmentHost (u_Hostname parsed)))
      then Err "plain HTTP node discovery is restricted to explicit private development"
      else
        let safeClient := noRedirect client in
        let base := TrimRight baseURL in
        match ch_identity (reach safeClient base) with
        | Err e => Err e
        | Ok (status, body) =>
            if negb (status =? 200) then Err (ClientNode.responseError status)
            else match ClientNode.decodeResponseJSON body (64 * 1024) with
            | Err e => Err e
            | Ok identity =>
                if negb (ValidPublicIdentity identity) then Err "node identity is internally inconsistent"
                else Ok (nodeAt safeClient base identity)
            end
        end
  end.

Definition DiscoverHTTPNode (baseURL : string) (httpClient : option Transport.HTTPClient) : Result ClientNode.HTTPNode :=
  discoverHTTPNode baseURL (PlainClient (default defaultClient httpClient)) false.

Definition DiscoverHTTPNodeForDevelopment (baseURL : string) (httpClient : option Transport.HTTPClient)
  : Result ClientNode.HTTPNode :=
  discoverHTTPNode baseURL (PlainClient (default defaultClient httpClient)) true.

Definition ConnectPinnedHTTPNode (protos : option (list string)) (baseURL : string) (identity : NodePublicIdentity)
    (httpClient : option Transport.HTTPClient) : Result ClientNode.HTTPNode :=
  if negb (ValidPublicIdentity identity) then Err "invalid pinned node identity"
  else if negb (match validNodeBaseURL baseURL with Ok parsed => bool_decide (u_Scheme parsed = "https"%string) | Err _ => false end)
  then Err "pinned node transport requires HTTPS framing"
  else match Transport.PinnedHTTPClient protos httpClient identity with
  | Err e => Err e
  | Ok pinnedClient =>
      match discoverHTTPNode baseURL (PinnedClient pinnedClient) false with
      | Err e => Err e
      | Ok node =>
          if negb (ClientNode.sameNodeIdentity (ClientNode.Identity node) identity)
          then Err "node identity endpoint does not match the pinned identity"
          else Ok node
      end
  end.

Definition connectRecord (protos : option (list string)) (httpClient : option Transport.HTTPClient) (record : Record_)
  : Result ClientNode.HTTPNode :=
  let a := r_Announcement record in
  if bool_decide (e_Scheme (an_Endpoint a) = "http"%string)
  then DiscoverHTTPNodeForDevelopment (BaseURL (an_Endpoint a)) httpClient
  else ConnectPinnedHTTPNode protos (BaseURL (an_Endpoint a)) (an_Identity a) httpClient.

Fixpoint connectLoop (protos : option (list string)) (httpClient : option Transport.HTTPClient) (records : list Record_)
  : list ClientNode.HTTPNode :=
  match records with
  | [] => []
  | record :: records =>
      match connectRecord protos httpClient record with
      | Err _ => connectLoop protos httpClient records
      | Ok node =>
          if negb (bool_decide (ni_NodeID (ClientNode.Identity node) = r_NodeID record))
          then connectLoop protos httpClient records
          else node :: connectLoop protos httpClient records
      end
  end.

Definition ConnectDirectoryRecords (protos : option (list string)) (records : list Record_) (limit : Z)
    (httpClient : option Transport.HTTPClient) : Result (list ClientNode.HTTPNode) :=
  if (limit <=? 0) || (MaxClientNodes <? limit) || (MaxDirectoryNodes <? blen records)
  then Err "invalid directory connection limit"
  else
    let records := if limit <? blen records then take (Z.to_nat limit) records else records in
    let nodes := connectLoop protos httpClient records in
    if blen nodes =? 0 then Err "no admitted directory node was reachable" else Ok nodes.

Lemma discoverHTTPNode_Ok (baseURL : string) (client : Client) (allow : bool) (n : ClientNode.HTTPNode) :
  discoverHTTPNode baseURL client allow = Ok n →
  ValidPublicIdentity (ClientNode.Identity n) = true ∧
  n = nodeAt (noRedirect client) (TrimRight baseURL) (ClientNode.Identity n) ∧
  ∃ u, validNodeBaseURL baseURL = Ok u ∧
    (u_Scheme u = "http"%string → allow = true ∧ privateDevelopmentHost (u_Hostname u) = true).
Proof.
  unfold discoverHTTPNode. destruct (validNodeBaseURL baseURL) as [u|] eqn:Hu; [|done].
  destruct (bool_decide _ && _) eqn:Hg; [done|]. cbv zeta. destruct (ch_identity _) as [[status body]|]; [|done].
  destruct (status =? 200); [|done]. cbn [negb]. destruct (ClientNode.decodeResponseJSON body _) as [identity|]; [|done].
  destruct (ValidPublicIdentity identity) eqn:Hv; [|done]. intros <-%(inj Ok). split_and!; try done.
  exists u. split; [done|]. intros Hs. rewrite bool_decide_eq_true_2 in Hg by done. cbn [andb] in Hg. by unbool.
Qed.

Lemma sameNodeIdentity_eq (p q : NodePublicIdentity) : ClientNode.sameNodeIdentity p q = true → p = q.
Proof.
  unfold ClientNode.sameNodeIdentity. intros H. unbool.
  repeat match goal with H : bytes_equal _ _ = true |- _ => apply bytes_equal_true in H end.
  destruct p, q; simpl in *; congruence.
Qed.

(** A node reached over the transport that pins the identity's key. *)
Definition pinnedTo (n : ClientNode.HTTPNode) (identity : NodePublicIdentity) : Prop :=
  ∃ c, Transport.pc_expected c = ni_Ed25519Public identity ∧ n = nodeAt (PinnedClient c) (ClientNode.BaseURL n) identity.

Lemma ConnectPinnedHTTPNode_Ok (protos : option (list string)) (baseURL : string) (identity : NodePublicIdentity)
    (httpClient : option Transport.HTTPClient) (n : ClientNode.HTTPNode) :
  ConnectPinnedHTTPNode protos baseURL identity httpClient = Ok n → ClientNode.Identity n = identity ∧ pinnedTo n identity.
Proof.
  unfold ConnectPinnedHTTPNode. destruct (negb _); [done|]. destruct (negb _); [done|].
  destruct (Transport.PinnedHTTPClient _ _ _) as [c|] eqn:Hc; [|done].
  destruct (discoverHTTPNode _ _ _) as [m|] eqn:Hd; [|done]. destruct (negb _) eqn:Hs; [done|]. intros <-%(inj Ok).
  unbool. apply sameNodeIdentity_eq in Hs. split; [done|]. exists c. split.
  - unfold Transport.PinnedHTTPClient in Hc. step_if Hc.
    destruct (Transport.hc_Transport _) as [|[]|]; try discriminate Hc; by injection Hc as <-.
  - apply discoverHTTPNode_Ok in Hd as (_ & Hn & _). rewrite Hs in Hn. rewrite Hn. done.
Qed.

Lemma connectLoop_spec (protos : option (list string)) (httpClient : option Transport.HTTPClient) (records : list Record_) :
  (length (connectLoop protos httpClient records) ≤ length records)%nat ∧
  ∀ n, n ∈ connectLoop protos httpClient records → ∃ r, r ∈ records ∧ connectRecord protos httpClient r = Ok n ∧
    ni_NodeID (ClientNode.Identity n) = r_NodeID r.
Proof.
  induction records as [|r l [IHl IH]]; simpl; [split; [lia|by intros n ?%elem_of_nil]|].
  assert ((length (connectLoop protos httpClient l) ≤ S (length l))%nat ∧
    ∀ n, n ∈ connectLoop protos httpClient l → ∃ r0, r0 ∈ r :: l ∧ connectRecord protos httpClient r0 = Ok n ∧
      ni_NodeID (ClientNode.Identity n) = r_NodeID r0) as Hskip.
  { split; [lia|]. intros n Hn. destruct (IH n Hn) as (r0 & ? & ?). exists r0. split; [by right|done]. }
  destruct (connectRecord protos httpClient r) as [n|] eqn:Hc; [|done]. case_bool_decide as Hid; [|done].
  split; [simpl; lia|]. intros m [->|Hm]%elem_of_cons; [|by apply Hskip].
  exists r. split_and!; [left|done|done].
Qed.

(** A client talks only to nodes the directory admitted. Among valid
    records, however the addresses answer, ConnectDirectoryRecords returns at least one
    and at most [limit] nodes, tries only the first [limit] records, and every node
    returned has, keys included, the identity of one of them (or two key pairs collide
    under SHA-256); for a record that is not plain HTTP the identity is compared in full
    and the channel is the TLS transport that pins the identity's key; a plain HTTP
    record is used only if its address is a literal private or loopback one. *)
Theorem ConnectDirectoryRecords_admitted (protos : option (list string)) (records : list Record_) (limit : Z)
    (httpClient : option Transport.HTTPClient) (nodes : list ClientNode.HTTPNode) :
  Forall (λ r, ValidPublicIdentity (an_Identity (r_Announcement r)) = true) records →
  ConnectDirectoryRecords protos records limit httpClient = Ok nodes →
  1 ≤ blen nodes ≤ limit ∧ limit ≤ MaxClientNodes ∧
  ∀ n, n ∈ nodes → ∃ r, r ∈ take (Z.to_nat limit) records ∧
    let identity := an_Identity (r_Announcement r) in
    (ClientNode.Identity n = identity ∨
     Sha256.collides (node_id_preimage (ClientNode.Identity n)) (node_id_preimage identity)) ∧
    (e_Scheme (an_Endpoint (r_Announcement r)) ≠ "http"%string →
     ClientNode.Identity n = identity ∧ pinnedTo n identity) ∧
    (e_Scheme (an_Endpoint (r_Announcement r)) = "http"%string →
     ∃ u, validNodeBaseURL (BaseURL (an_Endpoint (r_Announcement r))) = Ok u ∧
       (u_Scheme u = "http"%string → privateDevelopmentHost (u_Hostname u) = true)).
Proof.
  intros Hval. unfold ConnectDirectoryRecords. destruct (_ || _) eqn:Hg; [done|]. unbool.
  set (tried := if limit <? blen records then _ else _).
  assert (tried = take (Z.to_nat limit) records) as ->.
  { unfold tried. destruct (_ <? _) eqn:Hl; [done|]. unbool. rewrite take_ge; [done|]. unfold blen in *. lia. }
  destruct (connectLoop_spec protos httpClient (take (Z.to_nat limit) records)) as [Hlen Hall].
  destruct (_ =? 0) eqn:Hz; [done|]. intros <-%(inj Ok). unbool. rewrite length_take in Hlen.
  pose proof (blen_nonneg (connectLoop protos httpClient (take (Z.to_nat limit) records))).
  split_and!; [lia|unfold blen in *; lia|done|]. intros n Hn. destruct (Hall n Hn) as (r & Hr & Hc & Hid). exists r. split; [done|].
  assert (ValidPublicIdentity (an_Identity (r_Announcement r)) = true) as Hv.
  { rewrite list.Forall_forall in Hval. apply Hval. by eapply elem_of_take in Hr as (i & Hi & _); apply list_elem_of_lookup_2 in Hi. }
  unfold connectRecord in Hc. case_bool_decide as Hs.
  - apply discoverHTTPNode_Ok in Hc as (Hv' & _ & u & Hu & Hp). split_and!; [by apply NodeID_self_certifying|done|].
    intros _. exists u. split; [done|]. intros Hh. by apply Hp.
  - apply ConnectPinnedHTTPNode_Ok in Hc as [He Hpin]. split_and!; [by left|done|done].
Qed.

End Connections.

(** * The directory *)

Section Bootstrap.
Context `{C : Crypto} {NI : Netip} {MO : MapOrder} {DS : StrictDecoder Snapshot}.

Definition seedError (seed : PinnedNode) (e : error) : error :=
  ("seed " +:+ ni_NodeID (pn_Identity seed) +:+ ": " +:+ e)%string.

(** One received result. *)
Definition takeView (now : Time) (acc : Registry * Z * list error) (result : PinnedNode * Result Snapshot)
  : Registry * Z * list error :=
  let '(g, successes, failures) := acc in
  match result.2 with
  | Err e => (g, successes, failures ++ [seedError result.1 e])
  | Ok snapshot =>
      match MergeSnapshot g snapshot (ni_NodeID (pn_Identity result.1)) now with
      | (g, Some e) => (g, successes, failures ++ [seedError result.1 e])
      | (g, None) => (g, successes + 1, failures)
      end
  end.

(** [arrival] is the seeds in the order in which their results reach the channel; [get]
    what they answer. *)
Definition FetchNodeDirectory (config : DirectoryBootstrap) (arrival : list PinnedNode)
    (get : Endpoint → NodePublicIdentity → Result (Z * bytes)) (now : Time) : Result (list Record_) :=
  match NewPolicy (Seeds config) (AuthorityQuorum config) (AllowPrivateIPs config) (MaxNodes config) with
  | Err e => Err e
  | Ok policy =>
      if (MinSeedResponses config <=? 0) || (blen (Seeds config) <? MinSeedResponses config)
      then Err "invalid minimum seed response count"
      else match NewRegistry policy with
      | Err e => Err e
      | Ok registry =>
          let results := (λ seed, (seed, FetchSnapshot get (pn_Endpoint seed) (pn_Identity seed) now (p_MaxNodes policy)))
                         <$> arrival in
          let '(registry, successes, failures) := foldl (takeView now) (registry, 0, []) results in
          if successes <? MinSeedResponses config
          then Err ("verified only " +:+ pretty successes +:+ " of " +:+ pretty (MinSeedResponses config) +:+
                    " required seed views: " +:+ default ""%string (joinErrors failures))%string
          else Ok (Active registry now)
      end
  end.

(** * Verified views *)

(** The records hold the node of [r] with a lease at least as recent. *)
Definition covers (rs : gmap string Record_) (r : Record_) : Prop :=
  ∃ r', rs !! r_NodeID r = Some r' ∧ an_Sequence (r_Announcement r) ≤ an_Sequence (r_Announcement r').

Lemma merged_covers (p : Policy) (rs rs' : gmap string Record_) (r : Record_) : merged p rs rs' → covers rs r → covers rs' r.
Proof.
  intros [_ _ Hf] (r' & Hr & Hs). destruct (Hf _ _ Hr) as (r2 & Hr2 & Hs2). exists r2. split; [done|].
  destruct Hs2 as [?|[? _]]; lia.
Qed.

Definition unexpired (now : Time) (rs : gmap string Record_) : Prop :=
  ∀ id r, rs !! id = Some r → now < an_ExpiresAt (r_Announcement r).

Lemma foldl_append_announcement (l : list Attestation) (r : Record_) :
  r_Announcement (foldl appendAttestation r l) = r_Announcement r.
Proof. revert r. induction l as [|a l IH]; intros r; [done|]. simpl. by rewrite IH. Qed.

(** A merged record is stored, with its own announcement. *)
Lemma mergeVerifiedRecord_stored (rs rs' : gmap string Record_) (m : Z) (r : Record_) :
  mergeVerifiedRecord rs m r = Ok rs' → ∃ r', rs' = <[r_NodeID r := r']> rs ∧ r_Announcement r' = r_Announcement r.
Proof.
  unfold mergeVerifiedRecord. destruct (rs !! r_NodeID r) as [old|].
  - destruct (_ <? _); [done|]. destruct (_ =? _); [|intros <-%(inj Ok); by exists r].
    destruct (negb _); [done|]. intros <-%(inj Ok). eexists. split; [done|apply foldl_append_announcement].
  - destruct (_ <=? _); [done|]. intros <-%(inj Ok). by exists r.
Qed.

Lemma mergeAll_views (p : Policy) (now : Time) (l : list Record_) (rs rs' : gmap string Record_) :
  Forall (admitted p) l → Forall (λ r, now < an_ExpiresAt (r_Announcement r)) l →
  mergeAll rs (p_MaxNodes p) l = Ok rs' → (unexpired now rs → unexpired now rs') ∧ Forall (covers rs') l.
Proof.
  revert rs. induction l as [|r l IH]; intros rs Ha Ht H; simpl in H; [by injection H as <-|].
  apply list.Forall_cons in Ha as [Hr Ha]. apply list.Forall_cons in Ht as [Hn Ht].
  destruct (mergeVerifiedRecord _ _ _) as [rs1|] eqn:Hm; [|done].
  destruct (IH _ Ha Ht H) as [Hu Hc]. pose proof (mergeAll_merged p l rs1 rs' Ha H) as Hmerged.
  apply mergeVerifiedRecord_stored in Hm as (r' & -> & Hann). split.
  - intros Hold. apply Hu. intros id x [[<- <-]|[_ Hx]]%lookup_insert_Some; [by rewrite Hann|by eapply Hold].
  - constructor; [|done]. eapply merged_covers; [exact Hmerged|]. exists r'. rewrite lookup_insert_eq, Hann. by split.
Qed.

Lemma verifyAll_unexpired (p : Policy) (l : list Record_) (now : Time) :
  verifyAll p l now = None → Forall (λ r, now < an_ExpiresAt (r_Announcement r)) l.
Proof.
  induction l as [|r l IH]; simpl; [constructor|]. destruct (VerifyRecord p r now) eqn:Hv; [done|].
  intros H. constructor; [|by apply IH]. unfold VerifyRecord in Hv.
  destruct (verifyRecordAttestations _ _ _) as [n|] eqn:Hn; [|done].
  apply verifyRecordAttestations_Ok in Hn as (_ & _ & Ha & _). apply (ao_window _ _ _ Ha).
Qed.

(** Every record is one of [pool] under its own identifier, with attestations that records of
    the same node in [pool] carry. *)
Definition sourced (pool : list Record_) (rs : gmap string Record_) : Prop :=
  ∀ id r, rs !! id = Some r → r_NodeID r = id ∧ (∃ r0, r0 ∈ pool ∧ r_Announcement r0 = r_Announcement r) ∧
    ∀ a, a ∈ r_Attestations r → ∃ r1, r1 ∈ pool ∧ r_NodeID r1 = id ∧ a ∈ r_Attestations r1.

Lemma sourced_mono (pool pool' : list Record_) (rs : gmap string Record_) :
  pool ⊆ pool' → sourced pool rs → sourced pool' rs.
Proof.
  intros Hsub Hs id r Hr. destruct (Hs id r Hr) as (? & (r0 & ? & ?) & Ha). split_and!; [done|exists r0; auto|].
  intros a (r1 & ? & ? & ?)%Ha. exists r1. auto.
Qed.

Lemma foldl_append_elem (l : list Attestation) (r : Record_) (a : Attestation) :
  a ∈ r_Attestations (foldl appendAttestation r l) → a ∈ r_Attestations r ∨ a ∈ l.
Proof.
  revert r. induction l as [|x l IH]; intros r H; [by left|]. simpl in H. apply IH in H as [H|H]; [|set_solver].
  unfold appendAttestation, sortAttestations in H. cbn [r_Attestations] in H.
  rewrite (merge_sort_Permutation authority_le) in H.
  destruct (replaceAttestation _ x) as [k|] eqn:Hk; simpl in H; [|set_solver].
  apply replaceAttestation_Some in Hk as [_ Hin]. apply Hin in H. set_solver.
Qed.

Lemma mergeVerifiedRecord_sourced (pool : list Record_) (rs rs' : gmap string Record_) (m : Z) (r : Record_) :
  mergeVerifiedRecord rs m r = Ok rs' → sourced pool rs → sourced (pool ++ [r]) rs'.
Proof.
  intros Hm Hs. assert (Hold : sourced (pool ++ [r]) rs) by (eapply sourced_mono; [|exact Hs]; set_solver).
  assert (Hnew : ∀ r', r_Announcement r' = r_Announcement r →
    (∀ a, a ∈ r_Attestations r' → a ∈ r_Attestations r ∨ ∃ old, rs !! r_NodeID r = Some old ∧ a ∈ r_Attestations old) →
    sourced (pool ++ [r]) (<[r_NodeID r := r']> rs)).
  { intros r' Hann Hatt id x [[<- <-]|[_ Hx]]%lookup_insert_Some; [|by apply Hold].
    assert (r_NodeID r' = r_NodeID r) as Hid by (unfold r_NodeID; by rewrite Hann).
    split_and!; [done|exists r; split; [set_solver|done]|].
    intros a [Ha|(old & Ho & Ha)]%Hatt; [exists r; split_and!; [set_solver|done|done]|by apply (Hold _ _ Ho)]. }
  unfold mergeVerifiedRecord in Hm. destruct (rs !! r_NodeID r) as [old|] eqn:Eo.
  - destruct (_ <? _); [done|]. destruct (_ =? _); [destruct (negb _); [done|]|]; apply (inj Ok) in Hm as <-; apply Hnew; auto.
    + apply foldl_append_announcement.
    + intros a [?|?]%foldl_append_elem; [by left|right; eauto].
  - destruct (_ <=? _); [done|]. apply (inj Ok) in Hm as <-. apply Hnew; auto.
Qed.

Lemma mergeAll_sourced (pool l : list Record_) (rs rs' : gmap string Record_) (m : Z) :
  mergeAll rs m l = Ok rs' → sourced pool rs → sourced (pool ++ l) rs'.
Proof.
  revert pool rs. induction l as [|r l IH]; intros pool rs H Hs; simpl in H; [injection H as <-; by rewrite app_nil_r|].
  destruct (mergeVerifiedRecord _ _ _) as [rs1|] eqn:Hm; [|done].
  eapply mergeVerifiedRecord_sourced in Hm; [|done]. rewrite cons_middle, app_assoc. by eapply IH.
Qed.

(** The records of all views. *)
Definition listed (views : list (PinnedNode * Snapshot)) : list Record_ := mjoin ((λ v, sn_Records v.2) <$> views).

(** An accepted view: the seed's snapshot passed the header check and all its nodes are
    covered. *)
Record view (p : Policy) (now : Time) (rs : gmap string Record_) (seed : PinnedNode) (s : Snapshot) : Prop := {
  vw_header : VerifySnapshotHeader s (ni_NodeID (pn_Identity seed)) now (p_MaxNodes p) = None;
  vw_covers : Forall (covers rs) (sn_Records s);
}.

Lemma MergeSnapshot_view (g g' : Registry) (s : Snapshot) (seed : PinnedNode) (now : Time) :
  MergeSnapshot g s (ni_NodeID (pn_Identity seed)) now = (g', None) → unexpired now (records g) →
  unexpired now (records g') ∧ view (policy g) now (records g') seed s ∧
  ∀ pool, sourced pool (records g) → sourced (pool ++ sn_Records s) (records g').
Proof.
  unfold MergeSnapshot. destruct (VerifySnapshotHeader _ _ _ _) eqn:Hh; [done|].
  destruct (verifyAll _ _ _) eqn:Hv; [done|]. destruct (mergeAll _ _ _) as [rs|] eqn:Hm; [|done].
  intros [= <-] Hu. destruct (mergeAll_views (policy g) now _ _ _ (verifyAll_admitted _ _ _ Hv) (verifyAll_unexpired _ _ _ Hv) Hm).
  split_and!; [auto|by split|]. intros pool. by eapply mergeAll_sourced.
Qed.

(** All results, in any order: the registry stays sound, and the successes are counted
    by verified views. *)
Lemma takeViews (now : Time) (l : list (PinnedNode * Result Snapshot)) (g g' : Registry) (n n' : Z) (f f' : list error) :
  foldl (takeView now) (g, n, f) l = (g', n', f') → unexpired now (records g) →
  rtc step g g' ∧ merged (policy g) (records g) (records g') ∧ unexpired now (records g') ∧ policy g' = policy g ∧
  ∃ views : list (PinnedNode * Snapshot), n' = n + blen views ∧
    (prod_map id Ok <$> views) `sublist_of` l ∧
    Forall (λ v, view (policy g) now (records g') v.1 v.2) views ∧
    ∀ pool, sourced pool (records g) → sourced (pool ++ listed views) (records g').
Proof.
  revert g n f. induction l as [|[seed r] l IH]; intros g n f; simpl.
  { intros [= <- <- <-] Hu. split_and!; [done|apply merged_refl|done|done|]. exists []. rewrite Z.add_0_r. split_and!; try done. intros pool. by rewrite app_nil_r. }
  assert (∀ f0, foldl (takeView now) (g, n, f0) l = (g', n', f') → unexpired now (records g) →
    rtc step g g' ∧ merged (policy g) (records g) (records g') ∧ unexpired now (records g') ∧ policy g' = policy g ∧
    ∃ views : list (PinnedNode * Snapshot), n' = n + blen views ∧
      (prod_map id Ok <$> views) `sublist_of` ((seed, r) :: l) ∧
      Forall (λ v, view (policy g) now (records g') v.1 v.2) views ∧
      ∀ pool, sourced pool (records g) → sourced (pool ++ listed views) (records g')) as Hskip.
  { intros f0 H Hu. destruct (IH _ _ _ H Hu) as (H1 & H2 & H3 & H4 & views & H5 & H6 & H7 & H8). split_and!; try done.
    exists views. split_and!; try done. by apply sublist_cons. }
  destruct r as [s|e]; [|apply Hskip].
  destruct (MergeSnapshot g s (ni_NodeID (pn_Identity seed)) now) as [g1 [e|]] eqn:Hm.
  { assert (g1 = g) as -> by (by apply (MergeSnapshot_merged _ _ _ _ _ _ Hm)). apply Hskip. }
  intros H Hu. destruct (MergeSnapshot_view _ _ _ _ _ Hm Hu) as (Hu1 & [Hh Hc] & Hs1).
  pose proof (MergeSnapshot_merged _ _ _ _ _ _ Hm) as (Hpol & Hmg & _).
  destruct (IH _ _ _ H Hu1) as (H1 & H2 & H3 & H4 & views & -> & H6 & H7 & H8). rewrite Hpol in *. split_and!; try done.
  - eapply rtc_l; [|exact H1]. by eapply step_snapshot.
  - by eapply merged_trans.
  - exists ((seed, s) :: views). split_and!.
    + unfold blen. simpl. lia.
    + rewrite fmap_cons. by apply sublist_skip.
    + constructor; [|done]. split; [done|]. simpl. eapply list.Forall_impl; [exact Hc|]. intros x. by eapply merged_covers.
    + intros pool Hp. unfold listed. cbn [fmap list_fmap mjoin list_join snd]. rewrite app_assoc. by apply H8, Hs1.
Qed.

Lemma NewPolicy_again (p p' : Policy) (seeds : list PinnedNode) (q m : Z) (allow : bool) :
  NewPolicy seeds q allow m = Ok p →
  NewPolicy (p_Seeds p) (p_AuthorityQuorum p) (p_AllowPrivateIPs p) (p_MaxNodes p) = Ok p' → p' = p.
Proof.
  intros Hp Hp'. pose proof (NewPolicy_ok _ _ _ _ _ Hp) as ((_ & _ & Hm) & _).
  unfold NewPolicy in Hp'. destruct (_ || _); [done|]. rewrite (proj2 (Z.eqb_neq (p_MaxNodes p) 0)) in Hp' by lia.
  destruct (_ || _); [done|]. destruct (checkSeeds _ _ _); [done|]. injection Hp' as <-. by destruct p.
Qed.

Context {CL : CryptoLaws C}.

(** C24. The directory a client bootstraps from is what the quorum admitted and
    what enough pinned seeds vouch for. Whatever the seeds answer and in whichever order,
    a successful fetch returns unexpired records of different nodes, at most 512, each
    admitted under the configured policy by a quorum of the pinned authorities; at least
    the configured number of different seeds gave a signed, fresh view; and the result
    is the union of these views: every node in one of them is returned, with a lease at
    least as recent, and every record returned is in one of them, with attestations that
    the records of its node in these views carry. *)
Theorem FetchNodeDirectory_views (config : DirectoryBootstrap) (arrival : list PinnedNode)
    (get : Endpoint → NodePublicIdentity → Result (Z * bytes)) (now : Time) (rs : list Record_) :
  arrival ≡ₚ Seeds config → FetchNodeDirectory config arrival get now = Ok rs →
  ∃ p, NewPolicy (Seeds config) (AuthorityQuorum config) (AllowPrivateIPs config) (MaxNodes config) = Ok p ∧
  Forall (λ r, admitted p r ∧ now < an_ExpiresAt (r_Announcement r)) rs ∧ NoDup (r_NodeID <$> rs) ∧
  blen rs ≤ MaxDirectoryNodes ∧
  ∃ views : list (PinnedNode * Snapshot), MinSeedResponses config ≤ blen views ∧
    NoDup ((λ v, ni_NodeID (pn_Identity v.1)) <$> views) ∧
    (∀ seed s, (seed, s) ∈ views →
      seed ∈ Seeds config ∧ FetchSnapshot get (pn_Endpoint seed) (pn_Identity seed) now (p_MaxNodes p) = Ok s ∧
      VerifySnapshotHeader s (ni_NodeID (pn_Identity seed)) now (p_MaxNodes p) = None ∧
      ∀ r, r ∈ sn_Records s → ∃ r', r' ∈ rs ∧ r_NodeID r' = r_NodeID r ∧
        an_Sequence (r_Announcement r) ≤ an_Sequence (r_Announcement r')) ∧
    ∀ r, r ∈ rs →
      (∃ seed s r0, (seed, s) ∈ views ∧ r0 ∈ sn_Records s ∧ r_Announcement r0 = r_Announcement r) ∧
      ∀ a, a ∈ r_Attestations r → ∃ seed s r1, (seed, s) ∈ views ∧ r1 ∈ sn_Records s ∧ r_NodeID r1 = r_NodeID r ∧
        a ∈ r_Attestations r1.
Proof.
  intros Hperm. unfold FetchNodeDirectory. destruct (NewPolicy _ _ _ _) as [p|] eqn:Hp; [|done].
  destruct (_ || _) eqn:Hmin; [done|]. unfold NewRegistry. destruct (NewPolicy (p_Seeds p) _ _ _) as [p'|] eqn:Hp'; [|done].
  pose proof (NewPolicy_again _ _ _ _ _ _ Hp Hp') as ->. set (g0 := {| policy := p; records := ∅ |}).
  match goal with |- context [foldl _ _ ?l] => set (results := l) end.
  destruct (foldl (takeView now) (g0, 0, []) results) as [[g n] f] eqn:Hf. destruct (n <? MinSeedResponses config) eqn:Hn; [done|].
  intros <-%(inj Ok). unbool.
  destruct (takeViews _ _ _ _ _ _ _ _ Hf) as (Hrun & _ & Hu & Hpol & views & -> & Hsub & Hviews & Hsrc); [intros id r; simpl; by rewrite lookup_empty|].
  assert (registry_ok g) as Hok.
  { apply NewPolicy_ok in Hp as (Hp & _). assert (registry_ok g0) as Hg0.
    { split; simpl; [done| |by intros]. destruct Hp as (_ & _ & ?). rewrite map_size_empty. lia. }
    clear -Hrun Hg0. induction Hrun; eauto using registry_step_ok. }
  destruct (Active_spec g now Hok) as (Hin & Hnd & Hlen). exists p. split; [done|].
  split_and!; [|done|by destruct (go_policy _ Hok) as (_ & _ & _ & ?); etrans|].
  { apply List.Forall_forall. intros r Hr%list_elem_of_In. apply Hin in Hr as [Hr Hex]. split; [|done].
    apply (go_records _ Hok) in Hr as [_ Hr]. by rewrite Hpol in Hr. }
  assert ((fst <$> views) `sublist_of` arrival) as Hseeds.
  { apply (fmap_sublist fst) in Hsub. unfold results in Hsub. rewrite <- !list_fmap_compose in Hsub.
    change (fst ∘ (λ seed, (seed, _))) with (λ x : PinnedNode, x) in Hsub. by rewrite list_fmap_id in Hsub. }
  exists views. split_and!; [lia| | |].
  - apply NewPolicy_ok in Hp as (_ & Hc & Hs & _). apply checkSeeds_nodup in Hc as [Hc _]. rewrite Hs, <- Hperm in Hc.
    change (NoDup (((ni_NodeID ∘ pn_Identity) ∘ fst) <$> views)). rewrite list_fmap_compose.
    eapply sublist_NoDup; [exact Hc|by apply fmap_sublist].
  - intros seed s Hv. rewrite list.Forall_forall in Hviews. destruct (Hviews _ Hv) as [Hh Hc]. simpl in *.
    assert ((seed, Ok s) ∈ results) as Hr.
    { eapply elem_of_sublist; [|exact Hsub]. apply list_elem_of_fmap. by exists (seed, s). }
    unfold results in Hr. apply list_elem_of_fmap in Hr as (x & [= <- Hfetch] & Hx).
    split_and!; [by rewrite <- Hperm|done|done|].
    intros r Hr. rewrite list.Forall_forall in Hc. destruct (Hc r Hr) as (r' & Hr' & Hseq). exists r'.
    pose proof (proj1 (go_records _ Hok _ _ Hr')) as Hid.
    split_and!; [|done|done]. apply Hin. rewrite Hid. split; [done|]. by eapply Hu.
  - assert (Hpool : ∀ r, r ∈ [] ++ listed views → ∃ seed s, (seed, s) ∈ views ∧ r ∈ sn_Records s).
    { intros r. unfold listed. rewrite app_nil_l, list_elem_of_join. intros (l & Hr & Hl).
      apply list_elem_of_fmap in Hl as ([seed s] & -> & Hv). by exists seed, s. }
    intros r [Hr _]%Hin. destruct (Hsrc []) with (r_NodeID r) r as (_ & (r0 & Hr0 & Ha) & Hatt);
      [intros id x; simpl; by rewrite lookup_empty|done|]. split.
    + destruct (Hpool r0 Hr0) as (seed & s & ? & ?). by exists seed, s, r0.
    + intros a (r1 & Hr1 & ? & ?)%Hatt. destruct (Hpool r1 Hr1) as (seed & s & ? & ?). by exists seed, s, r1.
Qed.

End Bootstrap.

(** * A sample bootstrap *)

Module Sample.
#[local] Existing Instances Toy.crypto Toy.laws Directory.Sample.netip.

Section Run.
Context (s : HybridSigner) (ks : blen (edPrivate s) = ed25519_PrivateKeySize).

(** The one seed serves a snapshot with its own record, and so does its address. *)
#[local] Instance decode_snapshot : StrictDecoder Snapshot := λ _, Ok (Directory.Sample.served s).
#[local] Instance decode_identity : StrictDecoder NodePublicIdentity := λ _, Ok (PublicIdentity s).
#[local] Instance urls : UrlParser := λ _,
  Ok {| u_Scheme := "https"; u_Host := "8.8.8.8:443"; u_Hostname := "8.8.8.8"; u_User := false; u_RawQuery := "";
        u_Fragment := "" |}.
#[local] Instance network : Network := λ _ _,
  {| ch_identity := Ok (200, []); ch_parameters := Err "closed"; ch_store _ := Err "closed"; ch_fetch _ := Err "closed";
     ch_proof _ := Err "closed"; ch_delete _ := Err "closed" |}.

Definition get (ep : Endpoint) (identity : NodePublicIdentity) : Result (Z * bytes) := Ok (200, []).
Definition config : DirectoryBootstrap :=
  {| Seeds := Directory.Sample.seeds s; AuthorityQuorum := 1; MinSeedResponses := 1; AllowPrivateIPs := false; MaxNodes := 0 |}.
Definition self : Record_ := Directory.Sample.self0 s.

Lemma header :
  VerifySnapshotHeader (Directory.Sample.served s) (ni_NodeID (PublicIdentity s)) Directory.Sample.now 512 = None.
Proof.
  unfold VerifySnapshotHeader.
  match goal with |- context [if ?g then Some "invalid node directory snapshot"%string else _] => assert (g = false) as -> end.
  { change (sn_Publisher (Directory.Sample.served s)) with (PublicIdentity s).
    rewrite (PublicIdentity_valid s ks), bool_decide_eq_true_2 by done. vm_compute. reflexivity. }
  change (unsorted str_ltb (sn_Records (Directory.Sample.served s))) with false. cbv iota.
  assert (Verify (PublicIdentity s) snapshotDomain (snapshotSigningBytes (Directory.Sample.served s))
            (sn_Signature (Directory.Sample.served s)) = true) as Hv
    by (apply (sign_verifies (PrivateMaterial s) s []); [by apply restore_signer|reflexivity]).
  change (sn_Publisher (Directory.Sample.served s)) with (PublicIdentity s). by rewrite Hv.
Qed.

Lemma fetched (seed : PinnedNode) :
  seed ∈ Directory.Sample.seeds s →
  FetchSnapshot get (pn_Endpoint seed) (pn_Identity seed) Directory.Sample.now 512 = Ok (Directory.Sample.served s).
Proof.
  intros ->%list_elem_of_singleton. unfold FetchSnapshot. cbn [pn_Identity pn_Endpoint].
  rewrite (PublicIdentity_valid s ks). cbn [negb get]. change (negb (200 =? 200)) with false. cbv iota.
  change (decodeLimited [] MaxSnapshotBytes) with (Ok (Directory.Sample.served s) : Result Snapshot). cbv iota beta.
  by rewrite header.
Qed.

Lemma merged_view :
  MergeSnapshot (Directory.Sample.empty s) (Directory.Sample.served s) (ni_NodeID (PublicIdentity s)) Directory.Sample.now =
  (set_records (Directory.Sample.empty s) {[r_NodeID self := self]}, None).
Proof.
  unfold MergeSnapshot. cbn [Directory.Sample.empty policy records Directory.Sample.policy p_MaxNodes]. rewrite header.
  change (sn_Records (Directory.Sample.served s)) with [self]. cbn [verifyAll mergeAll].
  change (VerifyRecord _ self Directory.Sample.now) with (VerifyRecord (Directory.Sample.policy s) (Directory.Sample.self0 s)
    Directory.Sample.now). rewrite (Directory.Sample.self_verified s ks).
  unfold mergeVerifiedRecord. by rewrite lookup_empty.
Qed.

Lemma bootstrapped :
  FetchNodeDirectory config (Directory.Sample.seeds s) get Directory.Sample.now = Ok [self].
Proof.
  unfold FetchNodeDirectory. cbn [config Seeds AuthorityQuorum AllowPrivateIPs MaxNodes MinSeedResponses].
  rewrite (Directory.Sample.policy_new s ks 0 (or_introl eq_refl)). change ((1 <=? 0) || (blen _ <? 1)) with false. cbv iota.
  rewrite (Directory.Sample.registry_created s ks). cbn [fmap list_fmap Directory.Sample.seeds foldl].
  change (p_MaxNodes (Directory.Sample.policy s)) with 512. rewrite (fetched _ (list_elem_of_here _ _)). unfold takeView. cbn [fst snd pn_Identity]. rewrite merged_view.
  change (0 + 1 <? 1) with false. cbv iota. f_equal. unfold Active.
  cbn [set_records records range_map default_order]. rewrite map_to_list_singleton. reflexivity.
Qed.

Lemma self_valid : Forall (λ r, ValidPublicIdentity (an_Identity (r_Announcement r)) = true) [self].
Proof. constructor; [exact (PublicIdentity_valid s ks)|constructor]. Qed.

Definition client : Transport.PinnedClient := Transport.Sample.client s.
Definition connected : ClientNode.HTTPNode :=
  nodeAt (PinnedClient client) (TrimRight (BaseURL Directory.Sample.endpoint)) (PublicIdentity s).

Lemma connects_pinned : ConnectDirectoryRecords None [self] 1 None = Ok [connected].
Proof.
  unfold ConnectDirectoryRecords. change ((1 <=? 0) || _ || _) with false. cbv iota zeta.
  change (1 <? blen [self]) with false. cbv iota. cbn [connectLoop].
  assert (connectRecord None None self = Ok connected) as ->.
  { unfold connectRecord. rewrite bool_decide_eq_false_2 by discriminate.
    unfold ConnectPinnedHTTPNode. change (an_Identity (r_Announcement self)) with (PublicIdentity s).
    rewrite (PublicIdentity_valid s ks). cbn [negb]. rewrite (Transport.Sample.pinned s ks).
    unfold discoverHTTPNode. change (validNodeBaseURL _) with (url_Parse ""). cbn [url_Parse urls u_Scheme negb].
    rewrite bool_decide_eq_true_2 by done. cbn [negb]. rewrite bool_decide_eq_false_2 by discriminate. cbn [andb].
    cbv zeta. cbn [reach network ch_identity]. change (negb (200 =? 200)) with false. cbv iota.
    change (ClientNode.decodeResponseJSON [] (64 * 1024)) with (Ok (PublicIdentity s) : Result NodePublicIdentity).
    cbv iota beta. rewrite (PublicIdentity_valid s ks). cbn [negb].
    unfold ClientNode.sameNodeIdentity. cbn [nodeAt ClientNode.Identity].
    rewrite bool_decide_eq_true_2, Z.eqb_refl, !(proj2 (bytes_equal_true _ _) eq_refl) by done. reflexivity. }
  cbn [nodeAt connected ClientNode.Identity]. rewrite bool_decide_eq_true_2 by done. reflexivity.
Qed.

End Run.
Definition alice : HybridSigner := Toy.signer x01.
End Sample.

#[local] Existing Instances Toy.crypto Toy.laws Directory.Sample.netip.

Lemma FetchNodeDirectory_views_witness :
  ∃ p, NewPolicy (Seeds (Sample.config Sample.alice)) 1 false 0 = Ok p ∧ Forall (admitted p) [Sample.self Sample.alice].
Proof.
  destruct (FetchNodeDirectory_views (DS := Sample.decode_snapshot Sample.alice) (Sample.config Sample.alice)
    (Directory.Sample.seeds Sample.alice) Sample.get Directory.Sample.now [Sample.self Sample.alice] (Permutation_refl _)
    (Sample.bootstrapped Sample.alice eq_refl)) as (p & Hp & Hr & _).
  exists p. split; [exact Hp|]. eapply list.Forall_impl; [exact Hr|]. intros r [H _]. exact H.
Defined.

Lemma ConnectDirectoryRecords_admitted_witness :
  1 ≤ blen [Sample.connected Sample.alice] ≤ 1.
Proof.
  apply (ConnectDirectoryRecords_admitted (UP := Sample.urls) (NW := Sample.network)
    (DI := Sample.decode_identity Sample.alice) None [Sample.self Sample.alice] 1 None [Sample.connected Sample.alice]
    (Sample.self_valid Sample.alice eq_refl) (Sample.connects_pinned Sample.alice eq_refl)).
Defined.

End ClientDirectory.
