(* ===== verification/DirectoryHttp.v ===== *)
(** The requests of a directory agent (src/nodedir/agent.go: endpointClient, postJSON,
    postRegistration, HTTPProber) against the endpoints of a running node: what an agent
    posts to a node of the same program is answered as if the agent had called it. *)
From stdpp Require Import pretty.
From S2P Require Import Prelude Sha256 Encoding Protocol Crypto Files NodeServer Directory Transport Node ClientDirectory.
Local Open Scope Z_scope.

Module DirectoryHttp.

Import Directory.
Import Node (RegistrationRequest, ChallengeRequest, rr_Record, cr_Nonce).

(** * Clients *)

(** What [endpointClient] gives: a client that pins a node, or a plain one. *)
Inductive Client := PinnedHTTP (c : Transport.PinnedClient) | PlainHTTP (c : Transport.HTTPClient).

Definition noRedirectClient (c : Transport.HTTPClient) : Transport.HTTPClient :=
  {| Transport.hc_Timeout := Transport.hc_Timeout c; Transport.hc_Transport := Transport.hc_Transport c;
     Transport.hc_NoRedirect := true |}.

(** An exchange: a client, a URL and a body give a status and what reading the response
    gives, or fail. *)
Abbreviation Exchange := (Client → string → bytes → Result (Z * Result bytes)).

Section Requests.
Context `{C : Crypto} (defaultProtos : option (list string)) (exchange : Exchange).

Definition endpointClient (client : option Transport.HTTPClient) (ep : Endpoint) (identity : NodePublicIdentity)
  : Result Client :=
  match client with
  | None => Err "HTTP client is required"
  | Some client =>
      if bool_decide (e_Scheme ep = "https"%string)
      then match Transport.PinnedHTTPClient defaultProtos (Some client) identity with
           | Err e => Err e
           | Ok c => Ok (PinnedHTTP c)
           end
      else if negb (bool_decide (e_Scheme ep = "http"%string)) then Err "unsupported node endpoint transport"
      else Ok (PlainHTTP (noRedirectClient client))
  end.

Definition postJSON {A B} `{Marshaler A} `{StrictDecoder B} (client : Client) (url : string) (source : A) (limit : Z)
  : Result B :=
  match Marshal source with
  | Err e => Err e
  | Ok body =>
      if limit <? blen body then Err "directory request exceeds size limit"
      else match exchange client url body with
      | Err e => Err e
      | Ok (status, data) =>
          if (status <? 200) || (300 <=? status) then Err (responseStatusError status)
          else match data with
          | Err e => Err e
          | Ok data => decodeLimited data limit
          end
      end
  end.

Context {MR : Marshaler RegistrationRequest} {MC : Marshaler ChallengeRequest} {DR : StrictDecoder Record_}
  {DC : StrictDecoder ChallengeResponse}.

Definition postRegistration (client : option Transport.HTTPClient) (seed : PinnedNode) (record : Record_) : Result Record_ :=
  match endpointClient client (pn_Endpoint seed) (pn_Identity seed) with
  | Err e => Err e
  | Ok c => postJSON c (ClientDirectory.BaseURL (pn_Endpoint seed) +:+ "/v1/nodes/register")
              {| rr_Record := record |} MaxRegistrationBytes
  end.

(** [HTTPProber.Verify]; the client is made before the request, after the nonce. *)
Definition postChallenge (client : option Transport.HTTPClient) (a : Announcement) (nonce : bytes) : Result ChallengeResponse :=
  match endpointClient client (an_Endpoint a) (an_Identity a) with
  | Err e => Err e
  | Ok c => postJSON c (ClientDirectory.BaseURL (an_Endpoint a) +:+ "/v1/nodes/challenge")
              {| cr_Nonce := nonce |} MaxRegistrationBytes
  end.

Definition httpProbe (client : option Transport.HTTPClient) (rand : Z → Result bytes) (clock : Time) (a : Announcement)
  : option error :=
  match client with
  | None => Some "node reachability prober is unavailable"%string
  | Some _ => proberVerify rand (postChallenge client a) clock a
  end.

End Requests.

(** * The other side *)

(** [writeJSON] ends the encoded value with a newline. *)
Definition encoded {A} `{Marshaler A} (a : A) : bytes := match Marshal a with Ok b => b ++ [x0a] | Err _ => [] end.

Section Link.
Context `{C : Crypto} {CL : CryptoLaws C} {NI : Netip} {MO : MapOrder} (defaultProtos : option (list string))
  {MR : Marshaler RegistrationRequest} {MC : Marshaler ChallengeRequest} {MA : Marshaler Record_}
  {MB : Marshaler ChallengeResponse} {DR : StrictDecoder Record_} {DC : StrictDecoder ChallengeResponse}
  {LR : NodeServer.LimitedDecoder RegistrationRequest} {LC : NodeServer.LimitedDecoder ChallengeRequest}.

(** A message gets through: it is encoded within the limit and decoded to itself. *)
Definition carries {A} `{Marshaler A} (decode : bytes → Result A) (limit : Z) (suffix : bytes) (a : A) : Prop :=
  ∃ b, Marshal a = Ok b ∧ blen (b ++ suffix) ≤ limit ∧ decode (b ++ suffix) = Ok a.

Definition requestCarried {A} `{Marshaler A} `{!NodeServer.LimitedDecoder A} (limit : Z) (a : A) : Prop :=
  carries (NodeServer.decodeLimited limit) limit [] a.
Definition replyCarried {A} `{Marshaler A} `{!StrictDecoder A} (a : A) : Prop :=
  carries decodeStrict MaxRegistrationBytes [x0a] a.

Definition jsonRequest (body : bytes) : NodeServer.Request :=
  {| NodeServer.rq_mediaType := Ok "application/json"%string; NodeServer.rq_body := body |}.

(** The bytes of a reply; those of the replies that are not decoded do not matter. *)
Definition replyBytes (reply : Node.Reply) : bytes :=
  match Node.rp_body reply with
  | Node.RecordReply r => encoded r
  | Node.ChallengeReply r => encoded r
  | _ => []
  end.

(** An exchange that reaches the directory handler of a node with agent [g]. *)
Definition reachesRegister (exchange : Exchange) (url : string) (d : Node.Draws) (g : Agent) (ip : Addr) : Prop :=
  ∀ c body, exchange c url body =
    let reply := (Node.serveRegistration d g ip (jsonRequest body)).2 in
    Ok (Node.rp_status reply, Ok (replyBytes reply)).

Definition reachesChallenge (exchange : Exchange) (url : string) (d : Node.Draws) (g : Agent) : Prop :=
  ∀ c body, exchange c url body =
    let reply := Node.serveChallenge d g (jsonRequest body) in
    Ok (Node.rp_status reply, Ok (replyBytes reply)).

(** ** Requests are answered as calls *)

Lemma endpointClient_https (client : Transport.HTTPClient) (ep : Endpoint) (identity : NodePublicIdentity) (c : Client) :
  e_Scheme ep = "https"%string → endpointClient defaultProtos (Some client) ep identity = Ok c →
  ∃ pc, c = PinnedHTTP pc ∧ Transport.pc_expected pc = ni_Ed25519Public identity.
Proof.
  intros Hs. unfold endpointClient. rewrite bool_decide_eq_true_2 by done.
  destruct (Transport.PinnedHTTPClient _ _ _) as [pc|] eqn:Hp; [|done]. intros <-%(inj Ok). exists pc. split; [done|].
  unfold Transport.PinnedHTTPClient in Hp. destruct (negb _); [done|]. cbv zeta in Hp.
  repeat (case_match; try done); by apply (inj Ok) in Hp as <-.
Qed.

Lemma decodeJSON_json {A} `{!NodeServer.LimitedDecoder A} (body : bytes) (limit : Z) :
  NodeServer.decodeJSON (A := A) (jsonRequest body) limit = NodeServer.decodeLimited limit body.
Proof. unfold NodeServer.decodeJSON, jsonRequest. cbn. by rewrite bool_decide_eq_true_2. Qed.

(** A registration posted to a node is its [AcceptRegistration]. *)
Lemma postRegistration_call (exchange : Exchange) (client : option Transport.HTTPClient) (seed : PinnedNode)
    (record : Record_) (d : Node.Draws) (g : Agent) (ip : Addr) (c : Client) :
  endpointClient defaultProtos client (pn_Endpoint seed) (pn_Identity seed) = Ok c →
  reachesRegister exchange (ClientDirectory.BaseURL (pn_Endpoint seed) +:+ "/v1/nodes/register") d g ip →
  requestCarried MaxRegistrationBytes {| rr_Record := record |} →
  match AcceptRegistration (Node.d_probe d) (Node.d_coins d) g ip record (Node.d_now d) with
  | (_, Ok r) => replyCarried r → postRegistration defaultProtos exchange client seed record = Ok r
  | (_, Err _) => postRegistration defaultProtos exchange client seed record = Err (responseStatusError 403)
  end.
Proof.
  intros Hc Hx (body & Hm & Hlen & Hdec). rewrite app_nil_r in *. unfold postRegistration, postJSON.
  rewrite Hc, Hm, (proj2 (Z.ltb_ge _ _)) by lia. rewrite Hx.
  cbv zeta. unfold Node.serveRegistration. rewrite decodeJSON_json, Hdec. cbn [rr_Record].
  destruct (AcceptRegistration _ _ _ _ _ _) as [g' [r|e]]; cbn -[MaxRegistrationBytes decodeLimited pretty]; [|done].
  intros (b & Hb & Hsmall & Hr). unfold replyBytes, encoded. cbn [Node.rp_body Node.replyJSON]. rewrite Hb.
  unfold decodeLimited. by rewrite (proj2 (Z.ltb_ge _ _)).
Qed.

(** A probed node that runs the challenge endpoint passes the probe. *)
Lemma httpProbe_passes (exchange : Exchange) (client : Transport.HTTPClient) (a : Announcement)
    (rand : Z → Result bytes) (nonce : bytes) (clock : Time) (d : Node.Draws) (g : Agent) (c : Client) (r : ChallengeResponse) :
  endpointClient defaultProtos (Some client) (an_Endpoint a) (an_Identity a) = Ok c →
  reachesChallenge exchange (ClientDirectory.BaseURL (an_Endpoint a) +:+ "/v1/nodes/challenge") d g →
  an_Identity a = PublicIdentity (signer g) → blen (edPrivate (signer g)) = ed25519_PrivateKeySize →
  rand ChallengeBytes = Ok nonce → requestCarried (8 * 1024) {| cr_Nonce := nonce |} →
  SignChallenge (Some (signer g)) (Node.d_coins d) nonce (Node.d_now d) = Ok r → replyCarried r →
  Node.d_now d ≤ clock ≤ Node.d_now d + 4 * Minute →
  httpProbe defaultProtos exchange (Some client) rand clock a = None.
Proof.
  intros Hc Hx Hid Hk Hrand (body & Hm & Hlen & Hdec) Hsign (b & Hb & Hsmall & Hr) Ht. rewrite app_nil_r in *.
  unfold httpProbe, proberVerify, NewChallenge. rewrite Hrand.
  unfold postChallenge, postJSON. rewrite Hc, Hm, (proj2 (Z.ltb_ge _ _)) by (unfold MaxRegistrationBytes; lia). rewrite Hx.
  cbv zeta. unfold Node.serveChallenge. rewrite decodeJSON_json, Hdec. cbn [cr_Nonce].
  rewrite Hsign. cbn -[MaxRegistrationBytes decodeLimited VerifyChallenge].
  unfold replyBytes, encoded. cbn [Node.rp_body Node.replyJSON]. rewrite Hb. unfold decodeLimited.
  rewrite (proj2 (Z.ltb_ge _ _)), Hr, Hid by done. by eapply SignChallenge_verifies.
Qed.

(** The records leave no place for [r]: its node is unknown and they are full, or its node
    is known by a newer announcement or by another one of the same sequence number. *)
Definition displaced (rs : gmap string Record_) (maxNodes : Z) (r : Record_) : Prop :=
  match rs !! r_NodeID r with
  | None => maxNodes ≤ Z.of_nat (size rs)
  | Some known =>
      an_Sequence (r_Announcement r) < an_Sequence (r_Announcement known) ∨
      an_Sequence (r_Announcement r) = an_Sequence (r_Announcement known) ∧
      AnnouncementHash (r_Announcement r) ≠ AnnouncementHash (r_Announcement known)
  end.

#[export] Instance displaced_dec rs maxNodes r : Decision (displaced rs maxNodes r).
Proof. unfold displaced. destruct (rs !! r_NodeID r); apply _. Defined.

Lemma Merge_displaced (g : Registry) (r : Record_) (now : Time) :
  VerifyRecord (policy g) r now = None →
  (displaced (records g) (p_MaxNodes (policy g)) r → ∃ e, (Merge g r now).2 = Some e) ∧
  (¬ displaced (records g) (p_MaxNodes (policy g)) r → (Merge g r now).2 = None).
Proof.
  intros Hv. unfold Merge, mergeVerifiedRecord, displaced. rewrite Hv. destruct (records g !! r_NodeID r) as [known|].
  - destruct (_ <? _) eqn:Hlt; unbool; [split; [eauto|]; intros Hn; exfalso; apply Hn; by left|].
    destruct (_ =? _) eqn:Heq; unbool; [|split; [intros [?|[? _]]; lia|done]].
    destruct (bytes_equal _ _) eqn:Hh; cbn [negb].
    + apply bytes_equal_true in Hh. split; [intros [?|[_ ?]]; [lia|done]|done].
    + split; [eauto|]. intros Hn. exfalso. apply Hn. right. split; [done|]. intros E.
      by rewrite (proj2 (bytes_equal_true _ _) E) in Hh.
  - destruct (_ <=? _) eqn:Hle; unbool; [split; [eauto|done]|split; [lia|done]].
Qed.

(** C25. Registration works between nodes of this program. A node posts its signed
    announcement to an authority; the authority probes the announced endpoint, where the
    node answers; then the node gets its announcement back with the authority's
    attestation, also when it registers the same announcement again. The one exception is a
    record that the attestation completes but for which the authority's registry has no
    place, because it is full or knows a newer announcement of the node or
    another one of the same sequence number: then the node gets the status 403. Over https the node talks only
    to the holder of the authority's pinned key, and the authority only to the holder of
    the announced one. *)
Theorem registration_succeeds (exchange exchange' : Exchange) (client client' : Transport.HTTPClient) (seed : PinnedNode)
    (record : Record_) (d d' : Node.Draws) (g h : Agent) (ip adv : Addr) (c c' : Client) (rand : Z → Result bytes)
    (nonce : bytes) (clock : Time) (response : ChallengeResponse) (t : Attestation) :
  let a := r_Announcement record in
  (* the node reaches the authority [g] *)
  endpointClient defaultProtos (Some client) (pn_Endpoint seed) (pn_Identity seed) = Ok c →
  reachesRegister exchange (ClientDirectory.BaseURL (pn_Endpoint seed) +:+ "/v1/nodes/register") d g ip →
  requestCarried MaxRegistrationBytes {| rr_Record := record |} →
  (* the authority reaches the node [h] *)
  Node.d_probe d = httpProbe defaultProtos exchange' (Some client') rand clock →
  endpointClient defaultProtos (Some client') (an_Endpoint a) (an_Identity a) = Ok c' →
  reachesChallenge exchange' (ClientDirectory.BaseURL (an_Endpoint a) +:+ "/v1/nodes/challenge") d' h →
  an_Identity a = PublicIdentity (signer h) → blen (edPrivate (signer h)) = ed25519_PrivateKeySize →
  rand ChallengeBytes = Ok nonce → requestCarried (8 * 1024) {| cr_Nonce := nonce |} →
  SignChallenge (Some (signer h)) (Node.d_coins d') nonce (Node.d_now d') = Ok response → replyCarried response →
  Node.d_now d' ≤ clock ≤ Node.d_now d' + 4 * Minute →
  (* the record is in order and comes from where it says *)
  Authority (a_policy g) (PublicIdentity (signer g)) = true →
  verifyPartialRecord (a_policy g) record (Node.d_now d) = None →
  ParseAddr (e_IP (an_Endpoint a)) = Some adv → Unmap ip = Unmap adv →
  SignAttestation (Some (signer g)) (Node.d_coins d) a (Node.d_now d) = Ok t →
  replyCarried (appendAttestation record t) → policy (registry g) = a_policy g →
  let result := postRegistration defaultProtos exchange (Some client) seed record in
  let complete := VerifyRecord (a_policy g) (appendAttestation record t) (Node.d_now d) = None in
  let noPlace := displaced (records (registry g)) (p_MaxNodes (a_policy g)) (appendAttestation record t) in
  (¬ (complete ∧ noPlace) → result = Ok (appendAttestation record t)) ∧
  (complete ∧ noPlace → result = Err (responseStatusError 403)) ∧
  (e_Scheme (pn_Endpoint seed) = "https"%string →
   ∃ pc, c = PinnedHTTP pc ∧ Transport.pc_expected pc = ni_Ed25519Public (pn_Identity seed)) ∧
  (e_Scheme (an_Endpoint a) = "https"%string →
   ∃ pc, c' = PinnedHTTP pc ∧ Transport.pc_expected pc = ni_Ed25519Public (an_Identity a)).
Proof.
  intros a Hc Hx Hreq Hprobe Hc' Hx' Hid Hk Hrand Hnonce Hsign Hresp Ht Hauth Hver Hadv Hip Hatt Hrep Hpol result complete noPlace.
  apply and_assoc. split; [|by split; intros Hs; eapply endpointClient_https].
  assert (Hpass : Node.d_probe d a = None).
  { rewrite Hprobe. by eapply (httpProbe_passes exchange' client' a rand nonce clock d' h c' response). }
  pose proof (postRegistration_call exchange (Some client) seed record d g ip c Hc Hx Hreq) as Hcall.
  subst a. unfold AcceptRegistration in Hcall. rewrite Hauth, Hver, Hadv, bool_decide_eq_true_2, Hpass, Hatt in Hcall by done.
  cbn [negb] in Hcall. cbv zeta in Hcall. subst complete noPlace. rewrite <- Hpol.
  pose proof (Merge_displaced (registry g) (appendAttestation record t) (Node.d_now d)) as Hmerge. rewrite Hpol in *.
  destruct (VerifyRecord _ _ _) as [e|]; [split; [intros _; by apply Hcall|by intros [? _]]|].
  destruct (Hmerge eq_refl) as [Hno Hyes].
  destruct (Merge _ _ _) as [rg [e|]]; cbn [snd] in *.
  - split; [|done]. intros Hn. exfalso. apply Hn. split; [done|].
    apply dec_stable. by intros ?%Hyes.
  - split; [intros _; by apply Hcall|]. by intros [_ [? ?]%Hno].
Qed.

End Link.

(** * A node registers with an authority *)

Module Sample.
#[local] Existing Instances Toy.crypto Toy.laws Directory.Sample.netip.

Section Run.
Context (s1 s2 : HybridSigner) (k1 : blen (edPrivate s1) = ed25519_PrivateKeySize)
        (k2 : blen (edPrivate s2) = ed25519_PrivateKeySize).

Definition nonce : bytes := replicate 32 x07.
Definition draws (probe : Announcement → option error) : Node.Draws :=
  {| Node.d_coins := []; Node.d_now := Directory.Sample.now; Node.d_probe := probe |}.

(** The node's own agent. *)
Definition node : Agent :=
  {| registry := Directory.Sample.empty s1; a_policy := Directory.Sample.policy s1; signer := s2;
     endpoint := Directory.Sample.node_endpoint; lease := Hour; self := Directory.Sample.request s2; sequence := 7 |}.

Definition response : ChallengeResponse :=
  let r := {| ch_Version := ProtocolVersion; ch_NodeID := ni_NodeID (PublicIdentity s2); ch_Nonce := nonce;
              ch_CreatedAt := Truncate Directory.Sample.now Millisecond; ch_Signature := zeroSignature |} in
  {| ch_Version := ProtocolVersion; ch_NodeID := ni_NodeID (PublicIdentity s2); ch_Nonce := nonce;
     ch_CreatedAt := Truncate Directory.Sample.now Millisecond;
     ch_Signature := Directory.Sample.sig s2 challengeDomain (challengeSigningBytes r) |}.

Lemma response_signed : SignChallenge (Some s2) [] nonce Directory.Sample.now = Ok response.
Proof. reflexivity. Qed.

(** Wires that carry the messages of this exchange. *)
#[export] Instance m_request : Marshaler RegistrationRequest := λ _, Ok [].
#[export] Instance m_nonce : Marshaler ChallengeRequest := λ _, Ok [].
#[export] Instance m_record : Marshaler Record_ := λ _, Ok [].
#[export] Instance m_response : Marshaler ChallengeResponse := λ _, Ok [].
#[export] Instance d_request : NodeServer.LimitedDecoder RegistrationRequest :=
  λ _ _, Ok {| rr_Record := Directory.Sample.request s2 |}.
#[export] Instance d_nonce : NodeServer.LimitedDecoder ChallengeRequest := λ _ _, Ok {| cr_Nonce := nonce |}.
#[export] Instance d_record : StrictDecoder Record_ := λ _, Ok (Directory.Sample.record s1 s2).
#[export] Instance d_response : StrictDecoder ChallengeResponse := λ _, Ok response.

Definition client : Transport.HTTPClient :=
  {| Transport.hc_Timeout := 8 * Second; Transport.hc_Transport := Transport.NoTransport; Transport.hc_NoRedirect := true |}.
Definition seed : PinnedNode := {| pn_Identity := PublicIdentity s1; pn_Endpoint := Directory.Sample.endpoint |}.

(** The challenge reaches the node, the registration the authority. *)
Definition toNode : Exchange := λ _ _ body,
  let reply := Node.serveChallenge (draws (λ _, None)) node (jsonRequest body) in
  Ok (Node.rp_status reply, Ok (replyBytes reply)).
Definition probe : Announcement → option error :=
  httpProbe None toNode (Some client) (λ _, Ok nonce) Directory.Sample.now.
Definition toAuthority : Exchange := λ _ _ body,
  let reply := (Node.serveRegistration (draws probe) (Directory.Sample.bare s1) (V4 (v4 8 8 8 8)) (jsonRequest body)).2 in
  Ok (Node.rp_status reply, Ok (replyBytes reply)).

Lemma pins (ep : Endpoint) (s : HybridSigner) :
  e_Scheme ep = "https"%string → blen (edPrivate s) = ed25519_PrivateKeySize →
  ∃ c, endpointClient None (Some client) ep (PublicIdentity s) = Ok c.
Proof.
  intros He Hk. unfold endpointClient. rewrite bool_decide_eq_true_2 by done. unfold Transport.PinnedHTTPClient.
  rewrite PublicIdentity_valid by done. cbn. eauto.
Qed.

Lemma reaches_authority (url : string) : reachesRegister toAuthority url (draws probe) (Directory.Sample.bare s1) (V4 (v4 8 8 8 8)).
Proof. done. Qed.
Lemma reaches_node (url : string) : reachesChallenge toNode url (draws (λ _, None)) node.
Proof. done. Qed.
Lemma request_carried : requestCarried MaxRegistrationBytes {| rr_Record := Directory.Sample.request s2 |}.
Proof. by exists []. Qed.
Lemma nonce_carried : requestCarried (8 * 1024) {| cr_Nonce := nonce |}.
Proof. by exists []. Qed.
Lemma response_carried : replyCarried response.
Proof. by exists []. Qed.
Lemma record_carried : replyCarried (appendAttestation (Directory.Sample.request s2) (Directory.Sample.attestation s1 s2)).
Proof. by exists []. Qed.
Lemma node_named : an_Identity (r_Announcement (Directory.Sample.request s2)) = PublicIdentity (signer node).
Proof. reflexivity. Qed.
Lemma node_addressed : ParseAddr (e_IP (an_Endpoint (r_Announcement (Directory.Sample.request s2)))) = Some (V4 (v4 8 8 8 8)).
Proof. reflexivity. Qed.
Lemma in_time : Directory.Sample.now ≤ Directory.Sample.now ≤ Directory.Sample.now + 4 * Minute.
Proof. split; [done|vm_compute; discriminate]. Qed.
Lemma attested_record : appendAttestation (Directory.Sample.request s2) (Directory.Sample.attestation s1 s2) = Directory.Sample.record s1 s2.
Proof. reflexivity. Qed.
Lemma has_place :
  ¬ displaced (records (registry (Directory.Sample.bare s1))) (p_MaxNodes (a_policy (Directory.Sample.bare s1)))
      (appendAttestation (Directory.Sample.request s2) (Directory.Sample.attestation s1 s2)).
Proof.
  unfold displaced. change (records (registry (Directory.Sample.bare s1))) with (∅ : gmap string Record_). rewrite lookup_empty, map_size_empty.
  change (p_MaxNodes _) with 512. lia.
Qed.
End Run.
End Sample.

#[local] Existing Instances Toy.crypto Toy.laws Directory.Sample.netip Sample.m_request Sample.m_nonce Sample.m_record Sample.m_response.
Definition auth : HybridSigner := Toy.signer x01.
Definition node : HybridSigner := Toy.signer x02.
#[local] Instance w_request : NodeServer.LimitedDecoder RegistrationRequest := Sample.d_request node.
#[local] Instance w_nonce : NodeServer.LimitedDecoder ChallengeRequest := Sample.d_nonce.
#[local] Instance w_record : StrictDecoder Record_ := Sample.d_record auth node.
#[local] Instance w_response : StrictDecoder ChallengeResponse := Sample.d_response node.

Lemma registration_succeeds_witness :
  let result := postRegistration None (Sample.toAuthority auth node) (Some Sample.client) (Sample.seed auth) (Directory.Sample.request node) in
  let confirmed := appendAttestation (Directory.Sample.request node) (Directory.Sample.attestation auth node) in
  result = Ok confirmed.
Proof.
  destruct (Sample.pins Directory.Sample.endpoint auth eq_refl eq_refl) as [c Hc].
  destruct (Sample.pins Directory.Sample.node_endpoint node eq_refl eq_refl) as [c' Hc'].
  destruct (registration_succeeds None (Sample.toAuthority auth node) (Sample.toNode auth node) Sample.client Sample.client
    (Sample.seed auth) (Directory.Sample.request node) (Sample.draws (Sample.probe auth node)) (Sample.draws (λ _, None))
    (Directory.Sample.bare auth) (Sample.node auth node) (V4 (v4 8 8 8 8)) (V4 (v4 8 8 8 8)) c c' (λ _, Ok Sample.nonce)
    Sample.nonce Directory.Sample.now (Sample.response node) (Directory.Sample.attestation auth node)
    Hc (Sample.reaches_authority auth node _) (Sample.request_carried node)
    eq_refl Hc' (Sample.reaches_node auth node _) (Sample.node_named auth node) eq_refl eq_refl
    Sample.nonce_carried (Sample.response_signed node) (Sample.response_carried node)
    Sample.in_time (Directory.Sample.authority auth) (Directory.Sample.request_verified auth node eq_refl)
    (Sample.node_addressed node) eq_refl (Directory.Sample.attested auth node) (Sample.record_carried auth node) eq_refl) as [H _].
  apply H. intros [_ Hno]. exact (Sample.has_place auth node Hno).
Defined.

End DirectoryHttp.
