(* ===== verification/Call.v ===== *)
(** Direct calls (src/call/call.go): signed offers and answers, the checks on them, and
    the endpoint with its bounded number of calls and its memory of call identifiers.
    The WebRTC stack and the SDP parser are packages outside the program: interfaces
    here. An endpoint is shared by concurrent calls; the parts of a call that hold its
    mutex are the atomic steps of the machine at the end of the model. *)
From S2P Require Import Prelude Sha256 Encoding Protocol Padding Crypto.
Local Open Scope Z_scope.

Module Call.

Definition CallProtocolVersion : Z := 1.
Definition MaxSignalBytes : Z := 96 * 1024.
Definition MaxSDPBytes : Z := 64 * 1024.
Definition MaxICECandidates : Z := 64.
Definition MaxICEServers : Z := 8.
Definition MaxICEURLs : Z := 16.
Definition MaxConcurrentCalls : Z := 64.
Definition MaxRememberedCallIDs : Z := 4096.
Definition DefaultSignalLifetime : Duration := 2 * Minute.
Definition MaxSignalLifetime : Duration := 5 * Minute.
Definition DefaultCallDuration : Duration := Hour.
Definition MaxCallDuration : Duration := 24 * Hour.
Definition clockSkew : Duration := 2 * Minute.
Definition signalDomain : string := "direct-call-signal".

Definition ErrInvalidSignal : error := "invalid direct-call signal".
Definition ErrExpiredSignal : error := "expired direct-call signal".
Definition ErrSignalReplay : error := "direct-call signal replay".
Definition ErrCallLimit : error := "concurrent direct-call limit reached".
Definition ErrAnswerAlreadyUsed : error := "call answer was already applied".

Inductive SignalType := SignalOffer | SignalAnswer | OtherSignal (s : string).
#[export] Instance SignalType_eq_dec : EqDecision SignalType.
Proof. solve_decision. Defined.

Record Media := { md_Audio : bool; md_Video : bool }.

Record Signal := {
  sg_Version : Z;  (* uint8 *)
  sg_CallID : string;
  sg_Type : SignalType;
  sg_InitiatorID : string;
  sg_ResponderID : string;
  sg_CreatedAt : Time;
  sg_ExpiresAt : Time;
  sg_Media : Media;
  sg_SDP : string;
  sg_Signature : HybridSignature;
}.

Definition set_sig (s : Signal) (sg : HybridSignature) : Signal :=
  {| sg_Version := sg_Version s; sg_CallID := sg_CallID s; sg_Type := sg_Type s; sg_InitiatorID := sg_InitiatorID s;
     sg_ResponderID := sg_ResponderID s; sg_CreatedAt := sg_CreatedAt s; sg_ExpiresAt := sg_ExpiresAt s;
     sg_Media := sg_Media s; sg_SDP := sg_SDP s; sg_Signature := sg |}.

(** * Session descriptions *)

(** The parsed description, as far as it is inspected: attributes are pairs of key and
    value, a media section has a name and attributes. *)
Record SessionDescription := {
  sd_Attributes : list (string * string);
  sd_Media : list (string * list (string * string));
}.

(** [sdp.SessionDescription.Unmarshal]. *)
Class SdpParser := sdp_Unmarshal : string → Result SessionDescription.

(** The number of bytes of the white space rune at the head, if there is one: ASCII
    space and \t \n \v \f \r, U+0085, U+00A0, U+1680, U+2000 to U+200A, U+2028, U+2029,
    U+202F, U+205F and U+3000 in UTF-8. None of them begins with a continuation byte. *)
Definition spaceWidth (l : bytes) : nat :=
  match l with
  | (x20 | x09 | x0a | x0b | x0c | x0d) :: _ => 1
  | xc2 :: (x85 | xa0) :: _ => 2
  | xe1 :: x9a :: x80 :: _ => 3
  | xe2 :: x80 :: (x80 | x81 | x82 | x83 | x84 | x85 | x86 | x87 | x88 | x89 | x8a | xa8 | xa9 | xaf) :: _ => 3
  | xe2 :: x81 :: x9f :: _ => 3
  | xe3 :: x80 :: x80 :: _ => 3
  | _ => 0
  end.

(** [strings.Fields]: [field] is the field being read. *)
Fixpoint fieldsLoop (fuel : nat) (field l : bytes) : list bytes :=
  let close := match field with [] => [] | _ => [field] end in
  match fuel, l with
  | O, _ => close
  | _, [] => close
  | S fuel, b :: l' =>
      match spaceWidth l with
      | O => fieldsLoop fuel (field ++ [b]) l'
      | n => close ++ fieldsLoop fuel [] (drop n l)
      end
  end.
Definition Fields (s : string) : list bytes :=
  let l := str_bytes s in fieldsLoop (S (length l)) [] l.

(** Simple case folding to the letters of "sha-256": ASCII upper case, and U+017F,
    which folds to s. *)
Fixpoint foldCase (l : bytes) : bytes :=
  match l with
  | xc5 :: xbf :: l => x73 :: foldCase l
  | b :: l => (if (65 <=? b2z b) && (b2z b <=? 90) then z2b (b2z b + 32) else b) :: foldCase l
  | [] => []
  end.
Definition EqualFoldSHA (l : bytes) : bool := bytes_equal (foldCase l) (str_bytes "sha-256").

Definition colon : byte := x3a.
Definition validSHA256Fingerprint (value : string) : bool :=
  match Fields value with
  | [algorithm; digits] =>
      if negb (EqualFoldSHA algorithm) then false
      else
        let compact := filter (λ b, b ≠ colon) digits in
        match Hex.decode compact with
        | Some decoded => (blen decoded =? 32) && (blen (filter (λ b, b = colon) digits) =? 31)
        | None => false
        end
  | _ => false
  end.

Definition hasNUL (s : string) : bool := bool_decide (x00 ∈ str_bytes s).

(** Fingerprint found, number of candidates. *)
Definition scanAttribute (st : bool * Z) (attribute : string * string) : bool * Z :=
  let '(fingerprint, candidates) := st in
  (fingerprint || bool_decide (attribute.1 = "fingerprint"%string) && validSHA256Fingerprint attribute.2,
   if bool_decide (attribute.1 = "candidate"%string) then candidates + 1 else candidates).

(** The loop over the media sections: [None] at a section that is neither audio nor
    video, else the counts. *)
Fixpoint scanMedia (audio video : Z) (st : bool * Z) (l : list (string * list (string * string)))
  : option (Z * Z * (bool * Z)) :=
  match l with
  | [] => Some (audio, video, st)
  | (name, attributes) :: l =>
      if bool_decide (name = "audio"%string) then scanMedia (audio + 1) video (foldl scanAttribute st attributes) l
      else if bool_decide (name = "video"%string) then scanMedia audio (video + 1) (foldl scanAttribute st attributes) l
      else None
  end.

Definition validateMedia (media : Media) : option error :=
  if negb (md_Audio media) && negb (md_Video media) then Some "a direct call requires audio or video"%string else None.

Definition validateSDP `{SdpParser} (raw : string) (media : Media) : option error :=
  if (slen raw =? 0) || (MaxSDPBytes <? slen raw) || hasNUL raw then Some ErrInvalidSignal
  else match sdp_Unmarshal raw with
  | Err _ => Some ErrInvalidSignal
  | Ok description =>
      match scanMedia 0 0 (foldl scanAttribute (false, 0) (sd_Attributes description)) (sd_Media description) with
      | None => Some ErrInvalidSignal
      | Some (audio, video, (fingerprint, candidates)) =>
          if negb fingerprint || (MaxICECandidates <? candidates) || (1 <? audio) || (1 <? video) ||
             negb (Bool.eqb (md_Audio media) (audio =? 1)) || negb (Bool.eqb (md_Video media) (video =? 1))
          then Some ErrInvalidSignal
          else None
      end
  end.

(** * Signals *)

Definition randomCallID (rand : Z → Result bytes) : Result string :=
  match rand 32 with Err e => Err e | Ok random => Ok (Base64.EncodeToString random) end.

Definition validCallID (callID : string) : bool :=
  if negb (slen callID =? Base64.EncodedLen 32) then false
  else match Base64.DecodeString callID with Some decoded => blen decoded =? 32 | None => false end.

Section Signals.
Context `{C : Crypto} {MS : Marshaler Signal} {SP : SdpParser}.

Definition signalBytes (signal : Signal) : Result bytes :=
  match Marshal (set_sig signal zeroSignature) with
  | Err e => Err e
  | Ok encoded => if MaxSignalBytes <? blen encoded then Err ErrInvalidSignal else Ok encoded
  end.

Definition signSignal (signer : HybridSigner) (coins : bytes) (signal : Signal) : Result Signal :=
  match signalBytes signal with
  | Err e => Err e
  | Ok encoded =>
      match Sign signer coins signalDomain encoded with
      | Err e => Err e
      | Ok sg => Ok (set_sig signal sg)
      end
  end.

Definition verifySignal (signal : Signal) (expectedType : SignalType) (signer : NodePublicIdentity) (localID : string)
    (now : Time) : option error :=
  if negb (ValidPublicIdentity signer) || negb (sg_Version signal =? CallProtocolVersion) ||
     negb (bool_decide (sg_Type signal = expectedType)) || negb (validCallID (sg_CallID signal)) ||
     bool_decide (sg_InitiatorID signal = ""%string) || bool_decide (sg_ResponderID signal = ""%string) ||
     bool_decide (sg_InitiatorID signal = sg_ResponderID signal)
  then Some ErrInvalidSignal
  else
  let isAnswer := bool_decide (expectedType = SignalAnswer) in
  let isOffer := bool_decide (expectedType = SignalOffer) in
  let expectedSigner := if isAnswer then sg_ResponderID signal else sg_InitiatorID signal in
  if negb (bool_decide (ni_NodeID signer = expectedSigner)) ||
     isOffer && negb (bool_decide (localID = sg_ResponderID signal)) ||
     isAnswer && negb (bool_decide (localID = sg_InitiatorID signal))
  then Some ErrInvalidSignal
  else if After (sg_CreatedAt signal) (TAdd now clockSkew) || negb (After (sg_ExpiresAt signal) now) ||
          negb (After (sg_ExpiresAt signal) (sg_CreatedAt signal)) ||
          (MaxSignalLifetime <? TSub (sg_ExpiresAt signal) (sg_CreatedAt signal))
  then Some ErrExpiredSignal
  else match validateMedia (sg_Media signal) with
  | Some _ => Some ErrInvalidSignal
  | None =>
      if (slen (sg_SDP signal) =? 0) || (MaxSDPBytes <? slen (sg_SDP signal)) || hasNUL (sg_SDP signal)
      then Some ErrInvalidSignal
      else match signalBytes signal with
      | Err _ => Some ErrInvalidSignal
      | Ok encoded =>
          if negb (Verify signer signalDomain encoded (sg_Signature signal)) then Some ErrInvalidSignal
          else match validateSDP (sg_SDP signal) (sg_Media signal) with
          | Some _ => Some ErrInvalidSignal
          | None => None
          end
      end
  end.

End Signals.

(** * WebRTC *)

Inductive RTPCodecType := RTPCodecTypeAudio | RTPCodecTypeVideo | RTPCodecTypeOther (z : Z).
Inductive SDPType := SDPTypeOffer | SDPTypeAnswer.
Record Description := { ds_Type : SDPType; ds_SDP : string }.

(** The [Credential] of a server is of any type; only strings are inspected. *)
Record ICEServer := { ice_URLs : list string; ice_Username : string; ice_Credential : option string }.

Inductive ICETransportPolicy := ICETransportPolicyAll | ICETransportPolicyRelay | ICETransportPolicyOther (z : Z).
#[export] Instance ICETransportPolicy_eq_dec : EqDecision ICETransportPolicy.
Proof. solve_decision. Defined.

Inductive BundlePolicy := BundlePolicyMaxBundle.
Inductive RTCPMuxPolicy := RTCPMuxPolicyRequire.
Inductive SDPSemantics := SDPSemanticsUnifiedPlan.

Record Configuration := {
  rc_ICEServers : list ICEServer;
  rc_ICETransportPolicy : ICETransportPolicy;
  rc_BundlePolicy : BundlePolicy;
  rc_RTCPMuxPolicy : RTCPMuxPolicy;
  rc_SDPSemantics : SDPSemantics;
}.

Inductive CipherSuite := TLS_ECDHE_ECDSA_WITH_AES_256_GCM_SHA384 | TLS_ECDHE_ECDSA_WITH_AES_128_GCM_SHA256.
Inductive SRTPProfile := SRTP_AEAD_AES_256_GCM | SRTP_AEAD_AES_128_GCM.
Inductive ExtendedMasterSecret := RequireExtendedMasterSecret.

(** The fields of a [webrtc.SettingEngine] the endpoint sets. *)
Record SettingEngine := {
  se_DTLSCipherSuites : list CipherSuite;
  se_SRTPProtectionProfiles : list SRTPProfile;
  se_DTLSExtendedMasterSecret : ExtendedMasterSecret;
  se_DTLSReplayProtectionWindow : Z;
  se_SRTPReplayProtectionWindow : Z;
  se_SRTCPReplayProtectionWindow : Z;
  se_LogDisabled : bool;
}.

(** What is used of pion/webrtc. A [PeerConnection] is the state of one object; the
    operations that change it return its new state. [gatherComplete] is the state once
    the gathering promise resolves. *)
Class WebRTC := {
  ECDSAKey : Type;
  Certificate : Type;
  PeerConnection : Type;
  RTPSender : Type;
  TrackLocal : Type;
  ecdsa_GenerateKey : bytes → Result ECDSAKey;
  GenerateCertificate : ECDSAKey → bytes → Result Certificate;
  NewPeerConnection : SettingEngine → Configuration → Certificate → Result PeerConnection;
  AddTransceiverFromKind : RTPCodecType → PeerConnection → PeerConnection * Result RTPSender;
  CreateOffer : PeerConnection → PeerConnection * Result Description;
  CreateAnswer : PeerConnection → PeerConnection * Result Description;
  SetLocalDescription : Description → PeerConnection → PeerConnection * option error;
  SetRemoteDescription : Description → PeerConnection → PeerConnection * option error;
  gatherComplete : PeerConnection → PeerConnection;
  LocalDescription : PeerConnection → option Description;
  GetTransceivers : PeerConnection → list (RTPCodecType * RTPSender);
  ClosePC : PeerConnection → PeerConnection * option error;
  ReplaceTrack : RTPSender → TrackLocal → option error;
}.

(** ** The endpoint *)

Fixpoint validateURLs (l : list string) : option error :=
  match l with
  | [] => None
  | rawURL :: l =>
      if (slen rawURL =? 0) || (2048 <? slen rawURL) then Some "ICE server URL is out of range"%string else validateURLs l
  end.

Fixpoint validateServers (totalURLs : Z) (l : list ICEServer) : option error :=
  match l with
  | [] => if MaxICEURLs <? totalURLs then Some "too many ICE server URLs"%string else None
  | server :: l =>
      if 256 <? slen (ice_Username server) then Some "ICE username is too long"%string
      else if (match ice_Credential server with Some password => 1024 <? slen password | None => false end)
      then Some "ICE credential is too long"%string
      else match validateURLs (ice_URLs server) with
      | Some e => Some e
      | None => validateServers (totalURLs + Z.of_nat (length (ice_URLs server))) l
      end
  end.

Definition validateICEServers (servers : list ICEServer) : option error :=
  if MaxICEServers <? Z.of_nat (length servers) then Some "too many ICE servers"%string else validateServers 0 servers.

Section Endpoints.
Context `{C : Crypto} {W : WebRTC}.

Record Config := {
  cf_Signer : option HybridSigner;
  cf_ICEServers : list ICEServer;
  cf_ICETransportPolicy : ICETransportPolicy;
  cf_SignalLifetime : Duration;
  cf_MaxCallDuration : Duration;
  cf_MaxConcurrent : Z;
}.

Record Endpoint := {
  signer : HybridSigner;
  identity : NodePublicIdentity;
  configuration : Configuration;
  api : SettingEngine;
  signalLifetime : Duration;
  callDuration : Duration;
  maxConcurrent : Z;
  active : Z;
  seen : gmap string Time;
}.

Definition set_slots (e : Endpoint) (a : Z) (m : gmap string Time) : Endpoint :=
  {| signer := signer e; identity := identity e; configuration := configuration e; api := api e;
     signalLifetime := signalLifetime e; callDuration := callDuration e; maxConcurrent := maxConcurrent e;
     active := a; seen := m |}.

Definition settings : SettingEngine :=
  {| se_DTLSCipherSuites := [TLS_ECDHE_ECDSA_WITH_AES_256_GCM_SHA384; TLS_ECDHE_ECDSA_WITH_AES_128_GCM_SHA256];
     se_SRTPProtectionProfiles := [SRTP_AEAD_AES_256_GCM; SRTP_AEAD_AES_128_GCM];
     se_DTLSExtendedMasterSecret := RequireExtendedMasterSecret;
     se_DTLSReplayProtectionWindow := 128; se_SRTPReplayProtectionWindow := 256;
     se_SRTCPReplayProtectionWindow := 256; se_LogDisabled := true |}.

Definition orDefault (z d : Z) : Z := if z =? 0 then d else z.

Definition NewEndpoint (config : Config) : Result Endpoint :=
  match cf_Signer config with
  | None => Err "call signer is required"
  | Some signer =>
  let identity := PublicIdentity signer in
  if negb (ValidPublicIdentity identity) then Err "invalid call signing identity" else
  let lifetime := orDefault (cf_SignalLifetime config) DefaultSignalLifetime in
  if (lifetime <=? 0) || (MaxSignalLifetime <? lifetime) then Err "call signal lifetime is out of range" else
  let duration := orDefault (cf_MaxCallDuration config) DefaultCallDuration in
  if (duration <=? 0) || (MaxCallDuration <? duration) then Err "maximum call duration is out of range" else
  let concurrent := orDefault (cf_MaxConcurrent config) 8 in
  if (concurrent <? 1) || (MaxConcurrentCalls <? concurrent) then Err "concurrent call limit is out of range" else
  match validateICEServers (cf_ICEServers config) with
  | Some err => Err err
  | None =>
  if negb (bool_decide (cf_ICETransportPolicy config = ICETransportPolicyAll)) &&
     negb (bool_decide (cf_ICETransportPolicy config = ICETransportPolicyRelay))
  then Err "invalid ICE transport policy"
  else Ok {| signer := signer; identity := identity;
             configuration := {| rc_ICEServers := cf_ICEServers config;
                                 rc_ICETransportPolicy := cf_ICETransportPolicy config;
                                 rc_BundlePolicy := BundlePolicyMaxBundle;
                                 rc_RTCPMuxPolicy := RTCPMuxPolicyRequire;
                                 rc_SDPSemantics := SDPSemanticsUnifiedPlan |};
             api := settings; signalLifetime := lifetime; callDuration := duration; maxConcurrent := concurrent;
             active := 0; seen := ∅ |}
  end end.

(** The call identifiers still remembered at [now]. *)
Definition remembered (e : Endpoint) (now : Time) : gmap string Time :=
  filter (λ p, After p.2 now = true) (seen e).

Definition acquire (e : Endpoint) (callID : string) (now : Time) : Endpoint * option error :=
  let live := remembered e now in
  let named := negb (bool_decide (callID = ""%string)) in
  if named && bool_decide (is_Some (live !! callID)) then (set_slots e (active e) live, Some ErrSignalReplay)
  else if named && (MaxRememberedCallIDs <=? Z.of_nat (size live)) then (set_slots e (active e) live, Some ErrCallLimit)
  else if maxConcurrent e <=? active e then (set_slots e (active e) live, Some ErrCallLimit)
  else (set_slots e (active e + 1) (if named then <[callID := TAdd now (MaxSignalLifetime + clockSkew)]> live else live), None).

Definition release (e : Endpoint) : Endpoint :=
  if 0 <? active e then set_slots e (active e - 1) (seen e) else e.

(** ** Peer connections *)

(** Peer connections are objects behind pointers: the heap of those created so far, with
    whether they have been closed. *)
Record Peer := { pr_pc : PeerConnection; pr_open : bool }.
Abbreviation Heap := (list Peer) (only parsing).

(** Code that works on the heap and may fail. *)
Definition M (A : Type) : Type := Heap → Heap * Result A.
Definition ret {A} (a : A) : M A := λ h, (h, Ok a).
Definition throw {A} (e : error) : M A := λ h, (h, Err e).
Definition bind {A B} (m : M A) (k : A → M B) : M B :=
  λ h, match m h with (h', Ok a) => k a h' | (h', Err e) => (h', Err e) end.
Definition lift {A} (r : Result A) : M A := λ h, (h, r).
Definition guard (e : option error) : M () := λ h, (h, match e with Some e => Err e | None => Ok () end).

(** A method of the object behind [p]. *)
Definition method {A} (p : nat) (f : PeerConnection → PeerConnection * Result A) : M A :=
  λ h, match h !! p with
  | Some x => let '(pc, r) := f (pr_pc x) in (<[p := {| pr_pc := pc; pr_open := pr_open x |}]> h, r)
  | None => (h, Err "invalid memory address or nil pointer dereference")
  end.
Definition errorMethod (p : nat) (f : PeerConnection → PeerConnection * option error) : M () :=
  method p (λ pc, let '(pc, e) := f pc in (pc, match e with Some e => Err e | None => Ok () end)).

(** [pc.Close()]. *)
Definition closePeer (p : nat) (h : Heap) : Heap * option error :=
  match h !! p with
  | Some x => let '(pc, e) := ClosePC (pr_pc x) in (<[p := {| pr_pc := pc; pr_open := false |}]> h, e)
  | None => (h, Some "invalid memory address or nil pointer dereference"%string)
  end.

(** Code whose error exits close the connection first ([_ = pc.Close()]). *)
Definition orClose {A} (p : nat) (m : M A) : M A :=
  λ h, match m h with (h', Err e) => ((closePeer p h').1, Err e) | r => r end.

Record mediaSenders := { sd_audio : option RTPSender; sd_video : option RTPSender }.

Local Notation "x ← m ; k" := (bind m (λ x, k)) (at level 20, m at level 100, k at level 200, only parsing).
Local Notation "m ;; k" := (bind m (λ _, k)) (at level 100, k at level 200, only parsing).

Definition add (p : nat) (kind : RTPCodecType) : M RTPSender := method p (AddTransceiverFromKind kind).

Definition newPeerConnection (e : Endpoint) (media : Media) (addTransceivers : bool) (keyCoins certCoins : bytes)
  : M (nat * mediaSenders) :=
  privateKey ← lift (ecdsa_GenerateKey keyCoins);
  certificate ← lift (GenerateCertificate privateKey certCoins);
  pc ← lift (NewPeerConnection (api e) (configuration e) certificate);
  λ h,
    let p := length h in
    let h := h ++ [{| pr_pc := pc; pr_open := true |}] in
    if negb addTransceivers then (h, Ok (p, {| sd_audio := None; sd_video := None |}))
    else orClose p (
      audio ← (if md_Audio media then bind (add p RTPCodecTypeAudio) (λ s, ret (Some s)) else ret None);
      video ← (if md_Video media then bind (add p RTPCodecTypeVideo) (λ s, ret (Some s)) else ret None);
      ret (p, {| sd_audio := audio; sd_video := video |})) h.

(** [ctxDone]: the context's error, when it is done before the gathering. *)
Definition setLocalAndGather (ctxDone : option error) (p : nat) (description : Description) : M () :=
  errorMethod p (SetLocalDescription description) ;;
  match ctxDone with
  | Some e => throw e
  | None => method p (λ pc, (gatherComplete pc, Ok ()))
  end.

(** ** Sessions *)

(** [s_release] tells whether the session still holds the slot it must give back,
    [s_timer] is the deadline while the timer is armed. *)
Record Session := {
  s_pc : nat;
  s_callID : string;
  s_localID : string;
  s_remoteIdentity : NodePublicIdentity;
  s_initiator : bool;
  s_audioSender : option RTPSender;
  s_videoSender : option RTPSender;
  s_release : bool;
  s_answerApplied : bool;
  s_closed : bool;
  s_timer : option Time;
}.

Definition session (e : Endpoint) (pc : nat) (callID : string) (remote : NodePublicIdentity) (initiator : bool)
    (senders : mediaSenders) (now : Time) : Session :=
  {| s_pc := pc; s_callID := callID; s_localID := ni_NodeID (identity e); s_remoteIdentity := remote;
     s_initiator := initiator; s_audioSender := sd_audio senders; s_videoSender := sd_video senders;
     s_release := true; s_answerApplied := false; s_closed := false; s_timer := Some (TAdd now (callDuration e)) |}.

(** What one call draws from its surroundings: coins, the outcome of the wait for the
    ICE candidates, the time at which the signal is stamped and the one at which the
    session's timer is armed. *)
Record Env := {
  en_keyCoins : bytes;
  en_certCoins : bytes;
  en_ctxDone : option error;
  en_rand : Z → Result bytes;
  en_now : Time;
  en_sessionAt : Time;
  en_signCoins : bytes;
}.

Context {MS : Marshaler Signal} {SP : SdpParser}.

(** [fmt.Errorf] with a prefix and %w. *)
Definition wrapError (prefix : string) (e : option error) : option error :=
  match e with Some e => Some (prefix +:+ e) | None => None end.

(** [Start] up to the reservation. *)
Definition startReserve (e : Endpoint) (remote : NodePublicIdentity) (media : Media) (now : Time)
  : Endpoint * option error :=
  if negb (ValidPublicIdentity remote) || bool_decide (ni_NodeID remote = ni_NodeID (identity e))
  then (e, Some "invalid remote call identity"%string)
  else match validateMedia media with
  | Some err => (e, Some err)
  | None => acquire e "" now
  end.

(** [Start] after it: everything but the release of the slot on failure. *)
Definition startBody (e : Endpoint) (remote : NodePublicIdentity) (media : Media) (v : Env) : M (Session * Signal) :=
  bind (newPeerConnection e media true (en_keyCoins v) (en_certCoins v)) (λ '(pc, senders),
  orClose pc (
    offer ← method pc CreateOffer;
    setLocalAndGather (en_ctxDone v) pc offer ;;
    local ← method pc (λ x, (x, match LocalDescription x with
                               | Some d => Ok d | None => Err "WebRTC did not produce a local offer" end));
    guard (wrapError "generated offer: " (validateSDP (ds_SDP local) media)) ;;
    callID ← lift (randomCallID (en_rand v));
    let now := Truncate (en_now v) Millisecond in
    signal ← lift (signSignal (signer e) (en_signCoins v)
      {| sg_Version := CallProtocolVersion; sg_CallID := callID; sg_Type := SignalOffer;
         sg_InitiatorID := ni_NodeID (identity e); sg_ResponderID := ni_NodeID remote; sg_CreatedAt := now;
         sg_ExpiresAt := TAdd now (signalLifetime e); sg_Media := media; sg_SDP := ds_SDP local;
         sg_Signature := zeroSignature |});
    ret (session e pc callID remote true senders (en_sessionAt v), signal))).

Definition Start (e : Endpoint) (h : Heap) (remote : NodePublicIdentity) (media : Media) (acquiredAt : Time) (v : Env)
  : Endpoint * Heap * Result (Session * Signal) :=
  match startReserve e remote media acquiredAt with
  | (e, Some err) => (e, h, Err err)
  | (e, None) =>
      match startBody e remote media v h with
      | (h, Ok r) => (e, h, Ok r)
      | (h, Err err) => (release e, h, Err err)
      end
  end.

Definition acceptReserve (e : Endpoint) (remote : NodePublicIdentity) (offer : Signal) (now acquiredAt : Time)
  : Endpoint * option error :=
  match verifySignal offer SignalOffer remote (ni_NodeID (identity e)) now with
  | Some err => (e, Some err)
  | None => acquire e (sg_CallID offer) acquiredAt
  end.

Definition pickSender (senders : mediaSenders) (t : RTPCodecType * RTPSender) : mediaSenders :=
  match t.1 with
  | RTPCodecTypeAudio => {| sd_audio := Some t.2; sd_video := sd_video senders |}
  | RTPCodecTypeVideo => {| sd_audio := sd_audio senders; sd_video := Some t.2 |}
  | RTPCodecTypeOther _ => senders
  end.

Definition acceptBody (e : Endpoint) (remote : NodePublicIdentity) (offer : Signal) (v : Env) : M (Session * Signal) :=
  bind (newPeerConnection e (sg_Media offer) false (en_keyCoins v) (en_certCoins v)) (λ '(pc, senders),
  orClose pc (
    errorMethod pc (λ x, let '(x, err) := SetRemoteDescription {| ds_Type := SDPTypeOffer; ds_SDP := sg_SDP offer |} x in
                         (x, wrapError "set authenticated remote offer: " err)) ;;
    senders ← method pc (λ x, (x, Ok (foldl pickSender senders (GetTransceivers x))));
    answer ← method pc CreateAnswer;
    setLocalAndGather (en_ctxDone v) pc answer ;;
    local ← method pc (λ x, (x, match LocalDescription x with
                               | Some d => Ok d | None => Err "WebRTC did not produce a local answer" end));
    guard (wrapError "generated answer: " (validateSDP (ds_SDP local) (sg_Media offer))) ;;
    let createdAt := Truncate (en_now v) Millisecond in
    signal ← lift (signSignal (signer e) (en_signCoins v)
      {| sg_Version := CallProtocolVersion; sg_CallID := sg_CallID offer; sg_Type := SignalAnswer;
         sg_InitiatorID := sg_InitiatorID offer; sg_ResponderID := sg_ResponderID offer; sg_CreatedAt := createdAt;
         sg_ExpiresAt := TAdd createdAt (signalLifetime e); sg_Media := sg_Media offer; sg_SDP := ds_SDP local;
         sg_Signature := zeroSignature |});
    ret (session e pc (sg_CallID offer) remote false senders (en_sessionAt v), signal))).

Definition Accept (e : Endpoint) (h : Heap) (remote : NodePublicIdentity) (offer : Signal) (now acquiredAt : Time) (v : Env)
  : Endpoint * Heap * Result (Session * Signal) :=
  match acceptReserve e remote offer now acquiredAt with
  | (e, Some err) => (e, h, Err err)
  | (e, None) =>
      match acceptBody e remote offer v h with
      | (h, Ok r) => (e, h, Ok r)
      | (h, Err err) => (release e, h, Err err)
      end
  end.

Definition set_flags (s : Session) (rel applied closed : bool) (timer : option Time) : Session :=
  {| s_pc := s_pc s; s_callID := s_callID s; s_localID := s_localID s; s_remoteIdentity := s_remoteIdentity s;
     s_initiator := s_initiator s; s_audioSender := s_audioSender s; s_videoSender := s_videoSender s;
     s_release := rel; s_answerApplied := applied; s_closed := closed; s_timer := timer |}.

Definition ApplyAnswer (h : Heap) (s : Session) (answer : Signal) (now : Time) : Heap * Session * option error :=
  if s_closed s then (h, s, Some "call session is closed"%string)
  else if negb (s_initiator s) || s_answerApplied s then (h, s, Some ErrAnswerAlreadyUsed)
  else if negb (bool_decide (sg_CallID answer = s_callID s)) || negb (bool_decide (sg_InitiatorID answer = s_localID s))
  then (h, s, Some ErrInvalidSignal)
  else match verifySignal answer SignalAnswer (s_remoteIdentity s) (s_localID s) now with
  | Some err => (h, s, Some err)
  | None =>
      match errorMethod (s_pc s) (SetRemoteDescription {| ds_Type := SDPTypeAnswer; ds_SDP := sg_SDP answer |}) h with
      | (h, Err err) => (h, s, Some ("set authenticated remote answer: " +:+ err))
      | (h, Ok _) => (h, set_flags s (s_release s) true (s_closed s) (s_timer s), None)
      end
  end.

Definition ReplaceAudioTrack (s : Session) (track : TrackLocal) : option error :=
  match s_audioSender s with
  | None => Some "audio was not negotiated for this call"%string
  | Some sender => ReplaceTrack sender track
  end.

Definition ReplaceVideoTrack (s : Session) (track : TrackLocal) : option error :=
  match s_videoSender s with
  | None => Some "video was not negotiated for this call"%string
  | Some sender => ReplaceTrack sender track
  end.

(** [Close] under the session's mutex: the session, and whether this call goes on to
    close the connection, with the [release] it took. *)
Definition closeBegin (s : Session) : Session * option bool :=
  if s_closed s then (s, None)
  else (set_flags s false (s_answerApplied s) true None, Some (s_release s)).

(** [Close] after the mutex is given back. *)
Definition closeEnd (e : Endpoint) (h : Heap) (p : nat) (rel : bool) : Endpoint * Heap * option error :=
  let '(h, err) := closePeer p h in (if rel then release e else e, h, err).

Definition Close (e : Endpoint) (h : Heap) (s : Session) : Endpoint * Heap * Session * option error :=
  match closeBegin s with
  | (s, None) => (e, h, s, None)
  | (s, Some rel) => let '(e, h, err) := closeEnd e h (s_pc s) rel in (e, h, s, err)
  end.

(** * The machine *)

(** A call between its reservation and the end of [Start] or [Accept]. *)
Inductive Pending :=
| PendingStart (remote : NodePublicIdentity) (media : Media)
| PendingAccept (remote : NodePublicIdentity) (offer : Signal).

Definition body (e : Endpoint) (p : Pending) (v : Env) : M (Session * Signal) :=
  match p with
  | PendingStart remote media => startBody e remote media v
  | PendingAccept remote offer => acceptBody e remote offer v
  end.

(** An offer that was accepted: from whom, when it was verified and when its identifier
    was reserved. *)
Record Accepted := { ac_remote : NodePublicIdentity; ac_offer : Signal; ac_verifiedAt : Time; ac_acquiredAt : Time }.

(** An endpoint with all its calls. [closing] holds the local variables of the [Close]
    calls that have given the session's mutex back but not yet closed the connection;
    [accepted] and [answers] are histories, newest first. Time is one clock that does not go back. *)
Record System := {
  ep : Endpoint;
  heap : Heap;
  pending : list Pending;
  sessions : list Session;
  closing : list (nat * bool);
  clock : Time;
  accepted : list Accepted;
  answers : list (Session * Signal);
}.

Definition initial (e : Endpoint) (now : Time) : System :=
  {| ep := e; heap := []; pending := []; sessions := []; closing := []; clock := now; accepted := []; answers := [] |}.

(** The interleavings of the calls' atomic parts. *)
Inductive step : System → System → Prop :=
| step_tick y t : clock y ≤ t →
    step y {| ep := ep y; heap := heap y; pending := pending y; sessions := sessions y; closing := closing y;
              clock := t; accepted := accepted y; answers := answers y |}
| step_start y remote media e r :
    startReserve (ep y) remote media (clock y) = (e, r) →
    step y {| ep := e; heap := heap y;
              pending := match r with None => PendingStart remote media :: pending y | Some _ => pending y end;
              sessions := sessions y; closing := closing y; clock := clock y;
              accepted := accepted y; answers := answers y |}
| step_accept y remote offer now e r :
    now ≤ clock y → acceptReserve (ep y) remote offer now (clock y) = (e, r) →
    step y {| ep := e; heap := heap y;
              pending := match r with None => PendingAccept remote offer :: pending y | Some _ => pending y end;
              sessions := sessions y; closing := closing y; clock := clock y;
              accepted := match r with
                          | None => {| ac_remote := remote; ac_offer := offer; ac_verifiedAt := now;
                                       ac_acquiredAt := clock y |} :: accepted y
                          | Some _ => accepted y end;
              answers := answers y |}
| step_body_ok y l1 p l2 v h s signal :
    pending y = l1 ++ p :: l2 → body (ep y) p v (heap y) = (h, Ok (s, signal)) →
    step y {| ep := ep y; heap := h; pending := l1 ++ l2; sessions := sessions y ++ [s]; closing := closing y;
              clock := clock y; accepted := accepted y; answers := answers y |}
| step_body_err y l1 p l2 v h err :
    pending y = l1 ++ p :: l2 → body (ep y) p v (heap y) = (h, Err err) →
    step y {| ep := release (ep y); heap := h; pending := l1 ++ l2; sessions := sessions y; closing := closing y;
              clock := clock y; accepted := accepted y; answers := answers y |}
| step_answer y l1 s l2 answer h s' r :
    sessions y = l1 ++ s :: l2 → ApplyAnswer (heap y) s answer (clock y) = (h, s', r) →
    step y {| ep := ep y; heap := h; pending := pending y; sessions := l1 ++ s' :: l2; closing := closing y;
              clock := clock y; accepted := accepted y;
              answers := match r with None => (s, answer) :: answers y | Some _ => answers y end |}
| step_close_begin y l1 s l2 s' r :
    sessions y = l1 ++ s :: l2 → closeBegin s = (s', r) →
    step y {| ep := ep y; heap := heap y; pending := pending y; sessions := l1 ++ s' :: l2;
              closing := match r with Some rel => (s_pc s, rel) :: closing y | None => closing y end;
              clock := clock y; accepted := accepted y; answers := answers y |}
| step_close_end y l1 p rel l2 e h r :
    closing y = l1 ++ (p, rel) :: l2 → closeEnd (ep y) (heap y) p rel = (e, h, r) →
    step y {| ep := e; heap := h; pending := pending y; sessions := sessions y; closing := l1 ++ l2;
              clock := clock y; accepted := accepted y; answers := answers y |}.

(** * Reservations *)

Definition endpoint_ok (e : Endpoint) : Prop :=
  identity e = PublicIdentity (signer e) ∧ ValidPublicIdentity (identity e) = true ∧
  0 < signalLifetime e ≤ MaxSignalLifetime ∧ 0 < callDuration e ≤ MaxCallDuration ∧
  1 ≤ maxConcurrent e ≤ MaxConcurrentCalls ∧ Z.of_nat (size (seen e)) ≤ MaxRememberedCallIDs.

Lemma NewEndpoint_ok (config : Config) (e : Endpoint) :
  NewEndpoint config = Ok e → endpoint_ok e ∧ active e = 0 ∧ seen e = ∅.
Proof.
  unfold NewEndpoint. destruct (cf_Signer config) as [s|]; [|done]. intros H. repeat step_if H.
  all: destruct (validateICEServers _); try discriminate H. injection H as <-. unbool.
  unfold endpoint_ok. simpl. rewrite map_size_empty. repeat split; try done; lia.
Qed.

Lemma remembered_size (e : Endpoint) (now : Time) : (size (remembered e now) ≤ size (seen e))%nat.
Proof.
  unfold remembered. rewrite <- !size_dom. apply subseteq_size, subseteq_dom, map_filter_subseteq.
Qed.

Lemma remembered_lookup (e : Endpoint) (now : Time) (id : string) (t : Time) :
  remembered e now !! id = Some t ↔ seen e !! id = Some t ∧ now < t.
Proof. unfold remembered, After. rewrite map_lookup_filter_Some, Z.ltb_lt. done. Qed.

(** What an acquisition does: it forgets what has expired, and when it succeeds takes a
    free slot and remembers a new identifier. *)
Inductive acquired (e : Endpoint) (id : string) (now : Time) : Endpoint → option error → Prop :=
| acquired_no err : acquired e id now (set_slots e (active e) (remembered e now)) (Some err)
| acquired_unnamed : id = ""%string → active e < maxConcurrent e →
    acquired e id now (set_slots e (active e + 1) (remembered e now)) None
| acquired_named : id ≠ ""%string → remembered e now !! id = None → active e < maxConcurrent e →
    Z.of_nat (size (remembered e now)) < MaxRememberedCallIDs →
    acquired e id now
      (set_slots e (active e + 1) (<[id := TAdd now (MaxSignalLifetime + clockSkew)]> (remembered e now))) None.

Lemma acquire_spec (e : Endpoint) (id : string) (now : Time) :
  acquired e id now (acquire e id now).1 (acquire e id now).2.
Proof.
  unfold acquire. destruct (decide (id = ""%string)) as [->|Hid].
  - rewrite (bool_decide_eq_true_2 (_ = _)) by done. simpl.
    destruct (_ <=? _) eqn:Hm; unbool; [apply acquired_no|by apply acquired_unnamed].
  - rewrite (bool_decide_eq_false_2 (_ = _)) by done. simpl.
    case_bool_decide as Hl; [apply acquired_no|].
    destruct (MaxRememberedCallIDs <=? _) eqn:Hs; unbool; [apply acquired_no|].
    destruct (_ <=? _) eqn:Hm; unbool; [apply acquired_no|].
    apply acquired_named; try done. by apply eq_None_not_Some.
Qed.

Lemma acquired_ok (e e' : Endpoint) (id : string) (now : Time) (r : option error) :
  acquired e id now e' r → endpoint_ok e → endpoint_ok e'.
Proof.
  intros Ha (? & ? & ? & ? & ? & Hs). pose proof (remembered_size e now).
  destruct Ha; unfold endpoint_ok; simpl; repeat split; try lia; try done.
  rewrite map_size_insert_None by done. lia.
Qed.

Lemma startReserve_acquired (e : Endpoint) (remote : NodePublicIdentity) (media : Media) (now : Time) :
  (∃ err, startReserve e remote media now = (e, Some err)) ∨
  acquired e "" now (startReserve e remote media now).1 (startReserve e remote media now).2.
Proof.
  unfold startReserve. destruct (_ || _); [by left; eexists|]. destruct (validateMedia media); [by left; eexists|].
  right. apply acquire_spec.
Qed.

Lemma acceptReserve_acquired (e : Endpoint) (remote : NodePublicIdentity) (offer : Signal) (now at_ : Time) :
  (∃ err, acceptReserve e remote offer now at_ = (e, Some err)) ∨
  verifySignal offer SignalOffer remote (ni_NodeID (identity e)) now = None ∧
  acquired e (sg_CallID offer) at_ (acceptReserve e remote offer now at_).1 (acceptReserve e remote offer now at_).2.
Proof.
  unfold acceptReserve. destruct (verifySignal _ _ _ _ _); [by left; eexists|]. right. split; [done|apply acquire_spec].
Qed.

Lemma release_ok (e : Endpoint) : endpoint_ok e → endpoint_ok (release e).
Proof. unfold release. by destruct (0 <? active e). Qed.

(** * The heap *)

Definition is_open (h : Heap) (p : nat) : Prop := ∃ x, h !! p = Some x ∧ pr_open x = true.

(** Code that works on the open connection [p] only, and leaves it open. *)
Definition keeps {A} (p : nat) (m : M A) : Prop :=
  ∀ h x, h !! p = Some x → ∃ x', (m h).1 = <[p := x']> h ∧ pr_open x' = pr_open x.

Lemma keeps_pure {A} (p : nat) (r : Result A) : keeps p (λ h, (h, r)).
Proof. intros h x Hx. exists x. by rewrite list_insert_id. Qed.

Lemma keeps_method {A} (p : nat) (f : PeerConnection → PeerConnection * Result A) : keeps p (method p f).
Proof. intros h x Hx. unfold method. rewrite Hx. destruct (f _) as [pc r]. by eexists. Qed.

Lemma keeps_bind {A B} (p : nat) (m : M A) (k : A → M B) : keeps p m → (∀ a, keeps p (k a)) → keeps p (bind m k).
Proof.
  intros Hm Hk h x Hx. destruct (Hm h x Hx) as (x1 & E1 & O1). unfold bind.
  destruct (m h) as [h1 [a|err]]; simpl in E1; subst h1; [|by exists x1].
  destruct (Hk a (<[p:=x1]> h) x1) as (x2 & E2 & O2).
  { apply list_lookup_insert_eq. by eapply lookup_lt_Some. }
  exists x2. rewrite E2, list_insert_insert_eq. split; [done|congruence].
Qed.

Create HintDb call discriminated.
Hint Resolve keeps_pure keeps_method keeps_bind : call.

Lemma bind_Ok {A B} (m : M A) (k : A → M B) (h h' : Heap) (b : B) :
  bind m k h = (h', Ok b) → ∃ h1 a, m h = (h1, Ok a) ∧ k a h1 = (h', Ok b).
Proof. unfold bind. destruct (m h) as [h1 [a|err]]; [by eauto|done]. Qed.

Lemma lift_Ok {A} (r : Result A) (h h' : Heap) (a : A) : lift r h = (h', Ok a) → r = Ok a.
Proof. by intros [= _ H]. Qed.

Lemma guard_Ok (e : option error) (h h' : Heap) (a : ()) : guard e h = (h', Ok a) → e = None.
Proof. intros [= _ H]. by destruct e. Qed.

Lemma orClose_Ok {A} (p : nat) (m : M A) (h h' : Heap) (a : A) : orClose p m h = (h', Ok a) → m h = (h', Ok a).
Proof. unfold orClose. by destruct (m h) as [h1 [b|err]]. Qed.

(** On an open connection, guarded code leaves it open or has closed it and failed. *)
Lemma orClose_spec {A} (p : nat) (m : M A) (h : Heap) (x : Peer) :
  keeps p m → h !! p = Some x → pr_open x = true →
  ∃ x', (orClose p m h).1 = <[p := x']> h ∧ pr_open x' = is_ok (orClose p m h).2.
Proof.
  intros Hm Hx Ho. destruct (Hm h x Hx) as (x1 & E1 & O1). unfold orClose.
  destruct (m h) as [h1 [a|err]]; simpl in E1; subst h1; [exists x1; by rewrite O1|].
  unfold closePeer. rewrite list_lookup_insert_eq by (by eapply lookup_lt_Some).
  destruct (ClosePC _) as [pc e]. eexists. simpl. by rewrite list_insert_insert_eq.
Qed.

(** Code that creates one connection, leaves it open when it succeeds and has closed it
    (or not created it) when it fails. *)
Definition creates {A} (m : M A) : Prop :=
  ∀ h, (is_ok (m h).2 = false ∧ (m h).1 = h) ∨ ∃ x, (m h).1 = h ++ [x] ∧ pr_open x = is_ok (m h).2.

Lemma insert_last (h : Heap) (x y : Peer) : <[length h := y]> (h ++ [x]) = h ++ [y].
Proof. rewrite insert_app_r_alt by lia. by rewrite Nat.sub_diag. Qed.

Lemma lookup_last (h : Heap) (x : Peer) : (h ++ [x]) !! length h = Some x.
Proof. by rewrite lookup_app_r, Nat.sub_diag by lia. Qed.

Lemma creates_guarded {A} (h : Heap) (x : Peer) (m : M A) :
  keeps (length h) m → pr_open x = true →
  ∃ x', (orClose (length h) m (h ++ [x])).1 = h ++ [x'] ∧ pr_open x' = is_ok (orClose (length h) m (h ++ [x])).2.
Proof.
  intros Hm Ho. destruct (orClose_spec (length h) m (h ++ [x]) x Hm) as (x' & E1 & O1); [apply lookup_last|done|].
  exists x'. by rewrite E1, insert_last.
Qed.

Lemma newPeerConnection_spec (e : Endpoint) (media : Media) (b : bool) (c1 c2 : bytes) (h : Heap) :
  match newPeerConnection e media b c1 c2 h with
  | (h', Ok (p, _)) => p = length h ∧ ∃ x, h' = h ++ [x] ∧ pr_open x = true
  | (h', Err _) => h' = h ∨ ∃ x, h' = h ++ [x] ∧ pr_open x = false
  end.
Proof.
  unfold newPeerConnection, bind at 1, lift at 1. destruct (ecdsa_GenerateKey c1) as [key|]; [|by left].
  unfold bind at 1, lift at 1. destruct (GenerateCertificate key c2) as [cert|]; [|by left].
  unfold bind at 1, lift at 1. destruct (NewPeerConnection _ _ _) as [pc|]; [|by left].
  destruct b; simpl; [|eauto].
  match goal with |- context [orClose ?p ?m ?h'] => set (k := m);
    destruct (creates_guarded h {| pr_pc := pc; pr_open := true |} k) as (x & E1 & O1); [|done|] end.
  { unfold k, add. repeat (apply keeps_bind; [|intros]); try destruct (md_Audio media); try destruct (md_Video media);
      eauto with call; try apply keeps_pure; apply keeps_bind; intros; apply keeps_method || apply keeps_pure. }
  destruct (orClose (length h) k _) as [h' [[p s]|err]] eqn:Hk; simpl in *; [|by eauto].
  split; [|by eauto]. apply orClose_Ok in Hk. unfold k in Hk.
  apply bind_Ok in Hk as (h1 & a & _ & Hk). apply bind_Ok in Hk as (h2 & v & _ & Hk). by injection Hk as _ <- _.
Qed.

Lemma creates_call {A} (e : Endpoint) (media : Media) (b : bool) (c1 c2 : bytes) (k : nat → mediaSenders → M A) :
  (∀ p s, keeps p (k p s)) →
  creates (bind (newPeerConnection e media b c1 c2) (λ '(pc, senders), orClose pc (k pc senders))).
Proof.
  intros Hk h. pose proof (newPeerConnection_spec e media b c1 c2 h) as Hn. unfold bind.
  destruct (newPeerConnection _ _ _ _ _ h) as [h' [[p s]|err]]; simpl.
  - destruct Hn as (-> & x & -> & Ho). right. by apply creates_guarded.
  - destruct Hn as [->|(x & -> & Ho)]; [by left|right; by exists x].
Qed.

Lemma body_creates (e : Endpoint) (p : Pending) (v : Env) : creates (body e p v).
Proof.
  destruct p; simpl; unfold startBody, acceptBody, setLocalAndGather, errorMethod; apply creates_call; intros q s;
    repeat (apply keeps_bind; [|intros]); try (apply keeps_method || apply keeps_pure);
    destruct (en_ctxDone v); apply keeps_method || apply keeps_pure.
Qed.

(** The session a successful call returns: it points to the connection just created and
    holds its slot. *)
Definition fresh_session (e : Endpoint) (p : nat) (s : Session) : Prop :=
  s_pc s = p ∧ s_localID s = ni_NodeID (identity e) ∧ s_release s = true ∧ s_answerApplied s = false ∧ s_closed s = false.

(** Follow a successful run of heap code. *)
Ltac run H :=
  repeat match type of H with
  | bind _ _ _ = (_, Ok _) =>
      let Hm := fresh "Hm" in apply bind_Ok in H as (?h & ?a & Hm & H);
      lazymatch type of Hm with
      | lift _ _ = _ => apply lift_Ok in Hm
      | guard _ _ = _ => apply guard_Ok in Hm
      | _ => idtac
      end
  end.

Lemma startBody_Ok (e : Endpoint) (remote : NodePublicIdentity) (media : Media) (v : Env) (h h' : Heap) (s : Session)
    (signal : Signal) :
  startBody e remote media v h = (h', Ok (s, signal)) →
  ∃ id sdp, randomCallID (en_rand v) = Ok id ∧ validateSDP sdp media = None ∧
    signSignal (signer e) (en_signCoins v)
      {| sg_Version := CallProtocolVersion; sg_CallID := id; sg_Type := SignalOffer;
         sg_InitiatorID := ni_NodeID (identity e); sg_ResponderID := ni_NodeID remote;
         sg_CreatedAt := Truncate (en_now v) Millisecond;
         sg_ExpiresAt := TAdd (Truncate (en_now v) Millisecond) (signalLifetime e); sg_Media := media; sg_SDP := sdp;
         sg_Signature := zeroSignature |} = Ok signal ∧
    fresh_session e (length h) s ∧ s_callID s = id ∧ s_remoteIdentity s = remote ∧ s_initiator s = true.
Proof.
  unfold startBody. intros H. apply bind_Ok in H as (h1 & [p senders] & Hn & H). apply orClose_Ok in H.
  pose proof (newPeerConnection_spec e media true (en_keyCoins v) (en_certCoins v) h) as Hp. rewrite Hn in Hp.
  destruct Hp as [-> _]. cbv beta zeta in H. run H.
  match goal with Hg : wrapError _ _ = None |- _ => rename Hg into Hv end.
  injection H as _ <- <-. eexists _, _. split_and!; try eassumption; try done.
  by destruct (validateSDP _ media).
Qed.

Lemma acceptBody_Ok (e : Endpoint) (remote : NodePublicIdentity) (offer : Signal) (v : Env) (h h' : Heap) (s : Session)
    (signal : Signal) :
  acceptBody e remote offer v h = (h', Ok (s, signal)) →
  ∃ sdp, validateSDP sdp (sg_Media offer) = None ∧
    signSignal (signer e) (en_signCoins v)
      {| sg_Version := CallProtocolVersion; sg_CallID := sg_CallID offer; sg_Type := SignalAnswer;
         sg_InitiatorID := sg_InitiatorID offer; sg_ResponderID := sg_ResponderID offer;
         sg_CreatedAt := Truncate (en_now v) Millisecond;
         sg_ExpiresAt := TAdd (Truncate (en_now v) Millisecond) (signalLifetime e); sg_Media := sg_Media offer;
         sg_SDP := sdp; sg_Signature := zeroSignature |} = Ok signal ∧
    fresh_session e (length h) s ∧ s_callID s = sg_CallID offer ∧ s_remoteIdentity s = remote ∧ s_initiator s = false.
Proof.
  unfold acceptBody. intros H. apply bind_Ok in H as (h1 & [p senders] & Hn & H). apply orClose_Ok in H.
  pose proof (newPeerConnection_spec e (sg_Media offer) false (en_keyCoins v) (en_certCoins v) h) as Hp. rewrite Hn in Hp.
  destruct Hp as [-> _]. cbv beta zeta in H. run H.
  match goal with Hg : wrapError _ _ = None |- _ => rename Hg into Hv end.
  injection H as _ <- <-. eexists. split_and!; try eassumption; try done.
  by destruct (validateSDP _ (sg_Media offer)).
Qed.

Lemma body_session (e : Endpoint) (p : Pending) (v : Env) (h h' : Heap) (s : Session) (signal : Signal) :
  body e p v h = (h', Ok (s, signal)) → fresh_session e (length h) s.
Proof.
  destruct p; simpl; intros H.
  - by apply startBody_Ok in H as (? & ? & _ & _ & _ & H & _).
  - by apply acceptBody_Ok in H as (? & _ & _ & H & _).
Qed.

(** * The invariant *)

(** The connections that must be open: those of sessions not closed, and of [Close]
    calls on their way. *)
Definition held (y : System) : list nat :=
  (s_pc <$> filter (λ s, s_closed s = false) (sessions y)) ++ (closing y).*1.

Record inv (y : System) : Prop := {
  inv_ep : endpoint_ok (ep y);
  inv_active : active (ep y) = Z.of_nat (length (pending y) + length (held y));
  inv_limit : active (ep y) ≤ maxConcurrent (ep y);
  inv_nodup : NoDup (held y);
  inv_open p : p ∈ held y ↔ is_open (heap y) p;
  inv_release : Forall (λ s, s_closed s = false → s_release s = true) (sessions y) ∧ Forall (λ c, c.2 = true) (closing y);
}.

Lemma initial_calls (config : Config) (e : Endpoint) (now : Time) : NewEndpoint config = Ok e → inv (initial e now).
Proof.
  intros (Hok & Ha & Hs)%NewEndpoint_ok. split; simpl; try done.
  - rewrite Ha. unfold endpoint_ok in Hok. lia.
  - constructor.
  - intros p. split; [by intros ?%elem_of_nil|]. intros (x & Hx & _). done.
Qed.

(** A reservation changes the endpoint only, and its count by the call it admits. *)
Definition reserves (e e' : Endpoint) (r : option error) : Prop :=
  (endpoint_ok e → endpoint_ok e') ∧ maxConcurrent e' = maxConcurrent e ∧
  active e' = active e + match r with None => 1 | Some _ => 0 end ∧ (r = None → active e < maxConcurrent e).

Lemma acquired_reserves (e e' : Endpoint) (id : string) (now : Time) (r : option error) :
  acquired e id now e' r → reserves e e' r.
Proof.
  intros Ha. split; [by eapply acquired_ok|]. destruct Ha; simpl; split_and!; try done; lia.
Qed.

Lemma reserves_no (e : Endpoint) (err : error) : reserves e e (Some err).
Proof. split_and!; try done; lia. Qed.

Lemma startReserve_reserves (e e' : Endpoint) (remote : NodePublicIdentity) (media : Media) (now : Time) (r : option error) :
  startReserve e remote media now = (e', r) → reserves e e' r.
Proof.
  intros H. destruct (startReserve_acquired e remote media now) as [[err Hr]|Ha].
  - rewrite Hr in H. injection H as <- <-. apply reserves_no.
  - rewrite H in Ha. by eapply acquired_reserves.
Qed.

Lemma acceptReserve_reserves (e e' : Endpoint) (remote : NodePublicIdentity) (offer : Signal) (now at_ : Time)
    (r : option error) :
  acceptReserve e remote offer now at_ = (e', r) → reserves e e' r.
Proof.
  intros H. destruct (acceptReserve_acquired e remote offer now at_) as [[err Hr]|[_ Ha]].
  - rewrite Hr in H. injection H as <- <-. apply reserves_no.
  - rewrite H in Ha. by eapply acquired_reserves.
Qed.

(** The parts of the state [inv] reads, besides the endpoint and the pending calls. *)
Lemma inv_frame (y y' : System) (r : option error) (p : Pending) :
  inv y → reserves (ep y) (ep y') r →
  pending y' = match r with None => p :: pending y | Some _ => pending y end →
  heap y' = heap y → sessions y' = sessions y → closing y' = closing y → inv y'.
Proof.
  intros [I1 I2 I3 I4 I5 I6] (R1 & R2 & R3 & R4) Hp Hh Hs Hc. unfold held in *.
  split; unfold held; rewrite ?Hh, ?Hs, ?Hc, ?Hp; auto; destruct r; simpl in *;
    try specialize (R4 eq_refl); lia.
Qed.

Lemma release_active (e : Endpoint) : 0 < active e → active (release e) = active e - 1.
Proof. intros H. unfold release. by rewrite (proj2 (Z.ltb_lt _ _) H). Qed.

Lemma release_max (e : Endpoint) : maxConcurrent (release e) = maxConcurrent e.
Proof. unfold release. by destruct (0 <? active e). Qed.

Lemma is_open_snoc (h : Heap) (x : Peer) (p : nat) :
  is_open (h ++ [x]) p ↔ is_open h p ∨ p = length h ∧ pr_open x = true.
Proof.
  unfold is_open. split.
  - intros (y & [H|[? H]]%lookup_app_Some & Ho); [by left; exists y|].
    apply list_lookup_singleton_Some in H as [? <-]. right. split; [lia|done].
  - intros [(y & H & Ho)|[-> Ho]]; [exists y; split; [by apply lookup_app_l_Some|done]|].
    exists x. split; [apply lookup_last|done].
Qed.

Lemma is_open_insert (h : Heap) (q p : nat) (x y : Peer) :
  h !! q = Some x → is_open (<[q := y]> h) p ↔ (p = q ∧ pr_open y = true) ∨ (p ≠ q ∧ is_open h p).
Proof.
  intros Hx. unfold is_open. destruct (decide (p = q)) as [->|Hn].
  - rewrite list_lookup_insert_eq by (by eapply lookup_lt_Some). naive_solver.
  - rewrite list_lookup_insert_ne by done. naive_solver.
Qed.

Lemma is_open_lt (h : Heap) (p : nat) : is_open h p → (p < length h)%nat.
Proof. intros (x & H & _). by eapply lookup_lt_Some. Qed.

Lemma held_snoc (y : System) (s : Session) :
  s_closed s = false →
  (s_pc <$> filter (λ s, s_closed s = false) (sessions y ++ [s])) ++ (closing y).*1 ≡ₚ s_pc s :: held y.
Proof.
  intros Hs. rewrite list.filter_app, filter_cons_True, filter_nil, fmap_app by done. unfold held. simpl.
  rewrite <- app_assoc. simpl. by rewrite Permutation_middle.
Qed.

Lemma inv_body_ok (y : System) (l1 l2 : list Pending) (p : Pending) (v : Env) (h : Heap) (s : Session) (signal : Signal) :
  inv y → pending y = l1 ++ p :: l2 → body (ep y) p v (heap y) = (h, Ok (s, signal)) →
  inv {| ep := ep y; heap := h; pending := l1 ++ l2; sessions := sessions y ++ [s]; closing := closing y;
         clock := clock y; accepted := accepted y; answers := answers y |}.
Proof.
  intros [I1 I2 I3 I4 I5 I6] Hp Hb. pose proof (body_session _ _ _ _ _ _ _ Hb) as (Hpc & _ & Hrel & _ & Hcl).
  pose proof (held_snoc y s Hcl) as Hperm.
  destruct (body_creates (ep y) p v (heap y)) as [[Hc _]|(x & Hh & Ho)]; rewrite Hb in *; [done|]. simpl in Hh, Ho. subst h.
  rewrite Hp, length_app in I2. simpl in I2.
  split; unfold held in *; simpl; try done.
  - rewrite (Permutation_length Hperm), length_app. simpl. lia.
  - rewrite Hperm. constructor; [|done]. intros Hin%I5%is_open_lt. lia.
  - intros q. rewrite Hperm, elem_of_cons, I5, is_open_snoc, Hpc. naive_solver.
  - split; [|apply I6]. apply Forall_app. split; [apply I6|by repeat constructor].
Qed.

Lemma inv_body_err (y : System) (l1 l2 : list Pending) (p : Pending) (v : Env) (h : Heap) (err : error) :
  inv y → pending y = l1 ++ p :: l2 → body (ep y) p v (heap y) = (h, Err err) →
  inv {| ep := release (ep y); heap := h; pending := l1 ++ l2; sessions := sessions y; closing := closing y;
         clock := clock y; accepted := accepted y; answers := answers y |}.
Proof.
  intros [I1 I2 I3 I4 I5 I6] Hp Hb. rewrite Hp, length_app in I2. simpl in I2.
  pose proof (release_active (ep y) ltac:(lia)) as Hr.
  split; unfold held in *; simpl; rewrite ?release_max, ?Hr; auto using release_ok; try lia.
  - rewrite length_app. lia.
  - intros q. rewrite I5. destruct (body_creates (ep y) p v (heap y)) as [[_ Hh]|(x & Hh & Ho)];
      rewrite Hb in *; simpl in *; subst h; [done|]. rewrite is_open_snoc, Ho. naive_solver.
Qed.

(** What applying an answer may change. *)
Lemma ApplyAnswer_spec (h h' : Heap) (s s' : Session) (answer : Signal) (now : Time) (r : option error) :
  ApplyAnswer h s answer now = (h', s', r) →
  (h' = h ∨ ∃ x x', h !! s_pc s = Some x ∧ h' = <[s_pc s := x']> h ∧ pr_open x' = pr_open x) ∧
  match r with
  | Some _ => s' = s
  | None => s' = set_flags s (s_release s) true (s_closed s) (s_timer s) ∧ s_closed s = false ∧ s_initiator s = true ∧
      s_answerApplied s = false ∧ sg_CallID answer = s_callID s ∧ sg_InitiatorID answer = s_localID s ∧
      verifySignal answer SignalAnswer (s_remoteIdentity s) (s_localID s) now = None
  end.
Proof.
  unfold ApplyAnswer. intros H.
  destruct (s_closed s) eqn:Hc; [injection H as <- <- <-; auto|].
  destruct (negb (s_initiator s) || s_answerApplied s) eqn:Hi; [injection H as <- <- <-; auto|].
  match type of H with context [if ?g then _ else _] => destruct g eqn:Hg end; [injection H as <- <- <-; auto|].
  destruct (verifySignal _ _ _ _ _) eqn:Hv; [injection H as <- <- <-; auto|]. unbool.
  unfold errorMethod, method in H. destruct (h !! s_pc s) as [x|] eqn:Hx; [|injection H as <- <- <-; auto].
  destruct (SetRemoteDescription _ _) as [pc [err|]]; injection H as <- <- <-; split; auto; try (by right; eexists _, _).
  by split_and!.
Qed.

Lemma filter_set_applied (s : Session) (l : list Session) :
  s_pc <$> filter (λ s, s_closed s = false) (set_flags s (s_release s) true (s_closed s) (s_timer s) :: l) =
  s_pc <$> filter (λ s, s_closed s = false) (s :: l).
Proof. rewrite !filter_cons. simpl. by destruct (decide (s_closed s = false)). Qed.

Lemma inv_answer (y : System) (l1 l2 : list Session) (s s' : Session) (answer : Signal) (h : Heap) (r : option error)
    (ans : list (Session * Signal)) :
  inv y → sessions y = l1 ++ s :: l2 → ApplyAnswer (heap y) s answer (clock y) = (h, s', r) →
  inv {| ep := ep y; heap := h; pending := pending y; sessions := l1 ++ s' :: l2; closing := closing y;
         clock := clock y; accepted := accepted y; answers := ans |}.
Proof.
  intros [I1 I2 I3 I4 I5 I6] Hs (Hh & Hr)%ApplyAnswer_spec.
  assert (s_pc <$> filter (λ s, s_closed s = false) (l1 ++ s' :: l2) =
          s_pc <$> filter (λ s, s_closed s = false) (sessions y)) as Hf.
  { rewrite Hs, !list.filter_app, !fmap_app. f_equal. destruct r; [by subst|destruct Hr as [-> _]; apply filter_set_applied]. }
  assert (∀ q, is_open h q ↔ is_open (heap y) q) as Ho.
  { intros q. destruct Hh as [->|(x & x' & Hx & -> & Ho)]; [done|]. rewrite (is_open_insert _ _ _ x) by done. rewrite Ho.
    destruct (decide (q = s_pc s)) as [->|]; [|naive_solver]. split; [intros [[_ ?]|[? _]]; [by exists x|done]|].
    intros (x2 & Hx2 & ?). left. split; congruence. }
  split; unfold held in *; simpl; rewrite ?Hf; try done.
  - intros q. by rewrite I5, Ho.
  - split; [|apply I6]. destruct I6 as [I6 _]. rewrite Hs in I6.
    apply Forall_app in I6 as [F1 [F2 F3]%list.Forall_cons]. apply Forall_app. split; [done|]. constructor; [|done].
    destruct r; [by subst|destruct Hr as [-> _]; done].
Qed.

(** Closing a session moves its connection from one part of [held] to the other. *)
Lemma held_close (l1 l2 : list Session) (s s' : Session) (l : list nat) :
  s_closed s = false → s_closed s' = true →
  (s_pc <$> filter (λ s, s_closed s = false) (l1 ++ s' :: l2)) ++ s_pc s :: l ≡ₚ
  (s_pc <$> filter (λ s, s_closed s = false) (l1 ++ s :: l2)) ++ l.
Proof.
  intros Hs Hs'. rewrite !list.filter_app, !fmap_app, filter_cons_False, filter_cons_True by congruence. simpl.
  rewrite <- !app_assoc. apply Permutation_app_head. symmetry. apply (Permutation_middle _ l).
Qed.

Lemma inv_close_begin (y : System) (l1 l2 : list Session) (s s' : Session) (r : option bool) :
  inv y → sessions y = l1 ++ s :: l2 → closeBegin s = (s', r) →
  inv {| ep := ep y; heap := heap y; pending := pending y; sessions := l1 ++ s' :: l2;
         closing := match r with Some rel => (s_pc s, rel) :: closing y | None => closing y end;
         clock := clock y; accepted := accepted y; answers := answers y |}.
Proof.
  intros [I1 I2 I3 I4 I5 [I6 I7]] Hs Hb. unfold held in *. rewrite Hs in *.
  unfold closeBegin in Hb. destruct (s_closed s) eqn:Hc; injection Hb as <- <-; [by split|].
  apply Forall_app in I6 as [F1 [F2 F3]%list.Forall_cons].
  pose proof (held_close l1 l2 s (set_flags s false (s_answerApplied s) true None) (closing y).*1 Hc eq_refl) as Hperm.
  split; unfold held; cbn [ep heap pending sessions closing]; rewrite ?fmap_cons; cbn [fst]; try done.
  - by rewrite (Permutation_length Hperm).
  - by rewrite Hperm.
  - intros p. by rewrite Hperm.
  - split; [apply Forall_app; split; [done|by constructor]|]. constructor; [by apply F2|done].
Qed.

Lemma inv_close_end (y : System) (l1 l2 : list (nat * bool)) (p : nat) (rel : bool) (e : Endpoint) (h : Heap)
    (r : option error) :
  inv y → closing y = l1 ++ (p, rel) :: l2 → closeEnd (ep y) (heap y) p rel = (e, h, r) →
  inv {| ep := e; heap := h; pending := pending y; sessions := sessions y; closing := l1 ++ l2;
         clock := clock y; accepted := accepted y; answers := answers y |}.
Proof.
  intros [I1 I2 I3 I4 I5 [I6 I7]] Hc He. rewrite Hc in I7. apply Forall_app in I7 as [F1 [F2 F3]%list.Forall_cons].
  simpl in F2. subst rel.
  set (k := (s_pc <$> filter (λ s, s_closed s = false) (sessions y)) ++ (l1 ++ l2).*1).
  assert (held y ≡ₚ p :: k) as Hperm.
  { unfold held, k. rewrite Hc, !fmap_app, !app_assoc. simpl. by rewrite Permutation_middle. }
  rewrite Hperm in I4. rewrite (Permutation_length Hperm) in I2. simpl in I2.
  assert (is_open (heap y) p) as (x & Hx & Ho) by (apply I5; rewrite Hperm; left).
  unfold closeEnd, closePeer in He. rewrite Hx in He. destruct (ClosePC _) as [pc err]. injection He as <- <- _.
  apply list.NoDup_cons in I4 as [Hn I4].
  split; unfold held; simpl; fold k; rewrite ?release_max, ?release_active by lia; auto using release_ok; try lia.
  - intros q. rewrite (is_open_insert _ _ _ x) by done. simpl. specialize (I5 q). rewrite Hperm, elem_of_cons in I5.
    naive_solver.
  - split; [done|]. by apply Forall_app.
Qed.

Lemma step_calls (y y' : System) : step y y' → inv y → inv y'.
Proof.
  intros [] I.
  - by destruct I.
  - eapply inv_frame; [exact I|by eapply startReserve_reserves|done..].
  - eapply inv_frame; [exact I|by eapply acceptReserve_reserves|done..].
  - by eapply inv_body_ok.
  - by eapply inv_body_err.
  - by eapply inv_answer.
  - by eapply inv_close_begin.
  - by eapply inv_close_end.
Qed.

Definition open_peers (h : Heap) : nat := length (filter (λ x, pr_open x = true) h).

Lemma open_peers_count (h : Heap) (l : list nat) : NoDup l → (∀ p, p ∈ l ↔ is_open h p) → open_peers h = length l.
Proof.
  revert l. induction h as [|x h IH] using rev_ind; intros l Hl Hp.
  - destruct l as [|p l]; [done|]. destruct (proj1 (Hp p)) as (x & Hx & _); [left|done].
  - unfold open_peers. rewrite list.filter_app, length_app. fold (open_peers h).
    destruct (pr_open x) eqn:Ho.
    + rewrite filter_cons_True by done. simpl.
      assert (length h ∈ l) as (l1 & l2 & ->)%list_elem_of_split by (apply Hp, is_open_snoc; by right).
      assert (l1 ++ length h :: l2 ≡ₚ length h :: l1 ++ l2) as Hperm by (by rewrite Permutation_middle).
      rewrite Hperm in Hl. rewrite (Permutation_length Hperm). apply list.NoDup_cons in Hl as [Hn Hl].
      rewrite (IH (l1 ++ l2)); [simpl; lia|done|]. intros p. specialize (Hp p).
      rewrite Hperm, elem_of_cons, is_open_snoc in Hp. destruct (decide (p = length h)) as [->|Hne]; [|naive_solver].
      split; [done|]. intros ?%is_open_lt. lia.
    + rewrite filter_cons_False by congruence. simpl. rewrite (IH l); [lia|done|].
      intros p. rewrite Hp, is_open_snoc, Ho. split; [by intros [?|[_ ?]]|by left].
Qed.

(** The endpoint never changes its identity. *)
Lemma step_identity (y y' : System) : step y y' → identity (ep y') = identity (ep y).
Proof.
  assert (∀ e, identity (release e) = identity e) as Hrel by (intros e; unfold release; by destruct (0 <? active e)).
  assert (∀ e id t, identity (acquire e id t).1 = identity e) as Hacq
    by (intros e id t; unfold acquire; by repeat case_match).
  destruct 1 as [| ? ? ? ? ? H | ? ? ? ? ? ? _ H | | | | |? ? ? [] ? ? ? ? _ H]; simpl; try done.
  - unfold startReserve in H. destruct (_ || _); [by injection H as <- _|].
    destruct (validateMedia _); [by injection H as <- _|]. specialize (Hacq (ep y) ""%string (clock y)). by rewrite H in Hacq.
  - unfold acceptReserve in H. destruct (verifySignal _ _ _ _ _); [by injection H as <- _|].
    specialize (Hacq (ep y) (sg_CallID offer) (clock y)). by rewrite H in Hacq.
  - unfold closeEnd in H. destruct (closePeer _ _). by injection H as <- _ _.
  - unfold closeEnd in H. destruct (closePeer _ _). by injection H as <- _ _.
Qed.

(** * What was accepted *)

Lemma verifySignal_None (signal : Signal) (ty : SignalType) (from : NodePublicIdentity) (localID : string) (now : Time) :
  verifySignal signal ty from localID now = None →
  sg_Type signal = ty ∧ validCallID (sg_CallID signal) = true ∧
  sg_CreatedAt signal ≤ now + clockSkew ∧ now < sg_ExpiresAt signal ∧
  sg_ExpiresAt signal ≤ sg_CreatedAt signal + MaxSignalLifetime ∧
  ni_NodeID from = (if decide (ty = SignalAnswer) then sg_ResponderID signal else sg_InitiatorID signal) ∧
  validateSDP (sg_SDP signal) (sg_Media signal) = None ∧
  ∃ encoded, signalBytes signal = Ok encoded ∧ Verify from signalDomain encoded (sg_Signature signal) = true.
Proof.
  unfold verifySignal. intros H. step_if H. destruct (bool_decide (ty = SignalAnswer)) eqn:Ha; unbool;
  repeat match type of H with
  | (if ?g then _ else _) = None => destruct g eqn:?; [discriminate H|]
  | match ?g with _ => _ end = None => destruct g eqn:?; try discriminate H
  end; unbool; unfold After, TAdd, TSub in *; unbool.
  - rewrite decide_True by done. split_and!; eauto; try lia. all: unfold MaxSignalLifetime, Minute, Second, Millisecond in *; lia.
  - rewrite decide_False by done. split_and!; eauto; try lia. all: unfold MaxSignalLifetime, Minute, Second, Millisecond in *; lia.
Qed.

(** How long an accepted identifier is remembered. *)
Definition memory : Duration := MaxSignalLifetime + clockSkew.

Lemma verified_window (offer : Signal) (from : NodePublicIdentity) (localID : string) (now : Time) :
  verifySignal offer SignalOffer from localID now = None → now < sg_ExpiresAt offer ≤ now + memory.
Proof. intros (_ & _ & ? & ? & ? & _)%verifySignal_None. unfold memory. lia. Qed.

Lemma valid_named (id : string) : validCallID id = true → id ≠ ""%string.
Proof. by intros H ->. Qed.

Definition apart (b a : Accepted) : Prop :=
  sg_CallID (ac_offer b) = sg_CallID (ac_offer a) → ac_acquiredAt a + memory ≤ ac_acquiredAt b.

Definition stillKnown (y : System) (a : Accepted) : Prop :=
  clock y < ac_acquiredAt a + memory →
  ∃ t, seen (ep y) !! sg_CallID (ac_offer a) = Some t ∧ ac_acquiredAt a + memory ≤ t.

Record history (y : System) : Prop := {
  hi_valid : Forall (λ a, ac_verifiedAt a ≤ ac_acquiredAt a ≤ clock y ∧
    verifySignal (ac_offer a) SignalOffer (ac_remote a) (ni_NodeID (identity (ep y))) (ac_verifiedAt a) = None) (accepted y);
  hi_known : Forall (stillKnown y) (accepted y);
  hi_apart : StronglySorted apart (accepted y);
}.

(** An acquisition forgets no identifier that must still be known. *)
Lemma acquired_known (e e' : Endpoint) (id id' : string) (now t : Time) (r : option error) :
  acquired e id now e' r → seen e !! id' = Some t → now < t → seen e' !! id' = Some t.
Proof.
  intros Ha Hs Ht. assert (remembered e now !! id' = Some t) as Hl by (by apply remembered_lookup).
  destruct Ha; simpl; try done. rewrite lookup_insert_ne; [done|]. intros ->. congruence.
Qed.

Definition keeps_known (y : System) (e : Endpoint) (now : Time) : Prop :=
  ∀ id t, seen (ep y) !! id = Some t → now < t → seen e !! id = Some t.

Lemma release_known (y : System) (now : Time) : keeps_known y (release (ep y)) now.
Proof. intros id t Hs _. unfold release. by destruct (0 <? active (ep y)). Qed.

Lemma startReserve_known (y : System) (remote : NodePublicIdentity) (media : Media) (e : Endpoint) (r : option error) :
  startReserve (ep y) remote media (clock y) = (e, r) → keeps_known y e (clock y).
Proof.
  intros H id t Hs Ht. destruct (startReserve_acquired (ep y) remote media (clock y)) as [[err Hr]|Ha].
  - rewrite Hr in H. by injection H as <- _.
  - rewrite H in Ha. by eapply acquired_known.
Qed.

Lemma acceptReserve_known (y : System) (remote : NodePublicIdentity) (offer : Signal) (now : Time) (e : Endpoint)
    (r : option error) :
  acceptReserve (ep y) remote offer now (clock y) = (e, r) → keeps_known y e (clock y).
Proof.
  intros H id t Hs Ht. destruct (acceptReserve_acquired (ep y) remote offer now (clock y)) as [[err Hr]|[_ Ha]].
  - rewrite Hr in H. by injection H as <- _.
  - rewrite H in Ha. by eapply acquired_known.
Qed.

Lemma history_frame (y y' : System) :
  history y → accepted y' = accepted y → clock y ≤ clock y' → identity (ep y') = identity (ep y) →
  keeps_known y (ep y') (clock y') → history y'.
Proof.
  intros [H1 H2 H3] Ha Hc Hi Hk. split; rewrite Ha; [| |done].
  - eapply list.Forall_impl; [exact H1|]. intros a [? ?]. rewrite Hi. split; [lia|done].
  - eapply list.Forall_impl; [exact H2|]. intros a Hs Hlt. destruct Hs as (t & Ht & Hle); [lia|].
    exists t. split; [apply Hk; [done|lia]|done].
Qed.

(** An accepted offer's identifier is new: nothing remembered has it. *)
Lemma history_accept (y : System) (remote : NodePublicIdentity) (offer : Signal) (now : Time) (e : Endpoint) :
  history y → now ≤ clock y → acceptReserve (ep y) remote offer now (clock y) = (e, None) →
  identity e = identity (ep y) →
  history {| ep := e; heap := heap y; pending := PendingAccept remote offer :: pending y; sessions := sessions y;
             closing := closing y; clock := clock y;
             accepted := {| ac_remote := remote; ac_offer := offer; ac_verifiedAt := now; ac_acquiredAt := clock y |}
                           :: accepted y;
             answers := answers y |}.
Proof.
  intros Hh Hn Hr Hi. pose proof (acceptReserve_known _ _ _ _ _ _ Hr) as Hk.
  destruct (acceptReserve_acquired (ep y) remote offer now (clock y)) as [[err He]|[Hv Ha]]; [by rewrite He in Hr|].
  rewrite Hr in Ha. simpl in Ha.
  assert (sg_CallID offer ≠ ""%string) as Hid by (apply valid_named, (verifySignal_None _ _ _ _ _ Hv)).
  inversion Ha as [|?|Hid' Hnone Hact Hsz He]; [done|]. subst e.
  destruct Hh as [H1 H2 H3]. split; simpl.
  - constructor; [simpl; split; [lia|done]|exact H1].
  - constructor.
    + intros _. exists (clock y + memory). split; [apply lookup_insert_eq|simpl; lia].
    + eapply list.Forall_impl; [exact H2|]. intros a Hs Hlt. destruct Hs as (t & Ht & Hle); [done|].
      exists t. split; [apply Hk; [done|simpl in Hlt; lia]|done].
  - constructor; [done|]. eapply list.Forall_impl; [exact H2|]. intros a Hs Heq. simpl in *.
    destruct (decide (clock y < ac_acquiredAt a + memory)) as [Hlt|]; [|lia].
    destruct (Hs Hlt) as (t & Ht & Hle). rewrite <- Heq in Ht.
    assert (remembered (ep y) (clock y) !! sg_CallID offer = Some t) by (apply remembered_lookup; split; [done|lia]).
    congruence.
Qed.

Lemma step_history (y y' : System) : step y y' → history y → history y'.
Proof.
  intros Hstep Hh. pose proof (step_identity _ _ Hstep) as Hi.
  assert (∀ now, keeps_known y (ep y) now) as Hrefl by (intros now id t; done).
  destruct Hstep as [| |? ? ? ? ? [err|] ? Hr| | | | |? ? ? [] ? ? ? ? _ Hc];
    try (apply (history_frame y); simpl; auto using release_known; lia).
  - apply (history_frame y); simpl; auto; [lia|eapply startReserve_known; eassumption].
  - apply (history_frame y); simpl; auto; [lia|eapply acceptReserve_known; eassumption].
  - by apply history_accept.
  - apply (history_frame y); simpl; auto; [lia|]. unfold closeEnd in Hc. destruct (closePeer _ _).
    injection Hc as <- _ _. apply release_known.
  - apply (history_frame y); simpl; auto; [lia|]. unfold closeEnd in Hc. destruct (closePeer _ _).
    by injection Hc as <- _ _.
Qed.

(** * Answers *)

Record answered (y : System) : Prop := {
  an_pcs : NoDup (s_pc <$> sessions y);
  an_bound : Forall (λ s, (s_pc s < length (heap y))%nat) (sessions y);
  an_once : NoDup ((λ a, s_pc a.1) <$> answers y);
  an_applied : Forall (λ a, ∃ s, s ∈ sessions y ∧ s_pc s = s_pc a.1 ∧ s_answerApplied s = true) (answers y);
  an_signed : Forall (λ a, s_initiator a.1 = true ∧ sg_CallID a.2 = s_callID a.1 ∧ sg_InitiatorID a.2 = s_localID a.1 ∧
    ∃ now, now ≤ clock y ∧ verifySignal a.2 SignalAnswer (s_remoteIdentity a.1) (s_localID a.1) now = None) (answers y);
}.

(** Sessions may only gain the mark of an applied answer. *)
Lemma answered_frame (y y' : System) (l1 l2 : list Session) (s s' : Session) :
  answered y → sessions y = l1 ++ s :: l2 → sessions y' = l1 ++ s' :: l2 → answers y' = answers y →
  clock y' = clock y → length (heap y') = length (heap y) → s_pc s' = s_pc s →
  (s_answerApplied s = true → s_answerApplied s' = true) → answered y'.
Proof.
  intros [A1 A2 A3 A4 A5] Hs Hs' Ha Hc Hh Hpc Hap. split; rewrite ?Ha, ?Hc, ?Hh; try done.
  - rewrite Hs', fmap_app, fmap_cons, Hpc. by rewrite Hs, fmap_app in A1.
  - rewrite Hs'. rewrite Hs in A2. apply Forall_app in A2 as [? [? ?]%list.Forall_cons].
    apply Forall_app. split; [done|]. constructor; [by rewrite Hpc|done].
  - eapply list.Forall_impl; [exact A4|]. intros a (x & Hx & Hp & Hx2). rewrite Hs in Hx. rewrite Hs'.
    apply elem_of_app in Hx as [Hx|[->|Hx]%elem_of_cons]; [exists x|exists s'|exists x]; rewrite elem_of_app, elem_of_cons;
      naive_solver congruence.
Qed.

Lemma answered_same (y y' : System) :
  answered y → sessions y' = sessions y → answers y' = answers y → clock y ≤ clock y' →
  (length (heap y) ≤ length (heap y'))%nat → answered y'.
Proof.
  intros [A1 A2 A3 A4 A5] Hs Ha Hc Hh. split; rewrite ?Hs, ?Ha; try done.
  - eapply list.Forall_impl; [exact A2|]. simpl. lia.
  - eapply list.Forall_impl; [exact A5|]. intros a (? & ? & ? & now & ? & ?). split_and!; try done. exists now. split; [lia|done].
Qed.

Lemma answered_session (y : System) (h : Heap) (s : Session) (l : list Pending) (x : Peer) :
  answered y → h = heap y ++ [x] → s_pc s = length (heap y) →
  answered {| ep := ep y; heap := h; pending := l; sessions := sessions y ++ [s]; closing := closing y;
              clock := clock y; accepted := accepted y; answers := answers y |}.
Proof.
  intros [A1 A2 A3 A4 A5] -> Hs. split; simpl; try done.
  - rewrite fmap_app. simpl. apply list.NoDup_app. split_and!; [done| |apply NoDup_singleton].
    intros p Hp ->%list_elem_of_singleton. apply list_elem_of_fmap in Hp as (s2 & Hp & Hs2).
    rewrite list.Forall_forall in A2. specialize (A2 s2 Hs2). simpl in A2. lia.
  - rewrite length_app. simpl. apply Forall_app. split.
    + eapply list.Forall_impl; [exact A2|]. simpl. lia.
    + repeat constructor. lia.
  - eapply list.Forall_impl; [exact A4|]. intros a (s2 & ? & ? & ?). exists s2. rewrite elem_of_app. auto.
Qed.

Lemma creates_length {A} (m : M A) (h : Heap) : creates m → (length h ≤ length (m h).1)%nat.
Proof. intros Hm. destruct (Hm h) as [[_ ->]|(x & -> & _)]; [done|]. rewrite length_app. lia. Qed.

Lemma answered_apply (y : System) (l1 l2 : list Session) (s : Session) (answer : Signal) (h : Heap) :
  answered y → sessions y = l1 ++ s :: l2 → length h = length (heap y) → s_initiator s = true → s_answerApplied s = false →
  sg_CallID answer = s_callID s → sg_InitiatorID answer = s_localID s →
  verifySignal answer SignalAnswer (s_remoteIdentity s) (s_localID s) (clock y) = None →
  answered {| ep := ep y; heap := h; pending := pending y;
              sessions := l1 ++ set_flags s (s_release s) true (s_closed s) (s_timer s) :: l2; closing := closing y;
              clock := clock y; accepted := accepted y; answers := (s, answer) :: answers y |}.
Proof.
  intros A Hs Hh Hi Hap Hid Hl Hv.
  set (s' := set_flags s (s_release s) true (s_closed s) (s_timer s)).
  assert (answered {| ep := ep y; heap := h; pending := pending y; sessions := l1 ++ s' :: l2; closing := closing y;
                      clock := clock y; accepted := accepted y; answers := answers y |}) as [B1 B2 B3 B4 B5]
    by (apply (answered_frame y _ l1 l2 s s'); done).
  destruct A as [A1 A2 A3 A4 A5]. split; simpl in *; try done.
  - constructor; [|done]. intros (a & Hp & Ha)%list_elem_of_fmap. rewrite list.Forall_forall in A4.
    destruct (A4 a Ha) as (s2 & Hs2 & Hp2 & Hap2). simpl in Hp.
    assert (s2 = s) as ->; [|congruence]. rewrite Hs in Hs2, A1.
    rewrite fmap_app, fmap_cons in A1. apply list.NoDup_app in A1 as (_ & D1 & [D2 _]%list.NoDup_cons).
    apply elem_of_app in Hs2 as [Hin|[->|Hin]%elem_of_cons]; [|done|].
    + destruct (D1 (s_pc s)); [|left]. rewrite Hp, <- Hp2. by apply list_elem_of_fmap_2.
    + destruct D2. rewrite Hp, <- Hp2. by apply list_elem_of_fmap_2.
  - constructor; [|done]. exists s'. simpl. split; [|done]. apply elem_of_app. right. left.
  - constructor; [|done]. simpl. split_and!; try done. by exists (clock y).
Qed.

Lemma step_answered (y y' : System) : step y y' → answered y → answered y'.
Proof.
  intros Hstep A. destruct Hstep as [| | |? ? p ? v ? s ? Hp Hb|? ? p ? v ? ? Hp Hb|? ? ? ? ? ? ? [err|] Hs Happ|? ? s ? s' ? Hs Hc|? ? p ? ? ? ? ? Hc He].
  - by apply (answered_same y).
  - by apply (answered_same y).
  - by apply (answered_same y).
  - destruct (body_creates (ep y) p v (heap y)) as [[Hf _]|(x & Hh & Ho)]; rewrite Hb in *; [done|].
    eapply answered_session; [done|exact Hh|]. apply (body_session _ _ _ _ _ _ _ Hb).
  - apply (answered_same y); try done. pose proof (creates_length _ (heap y) (body_creates (ep y) p v)) as Hl.
    by rewrite Hb in Hl.
  - apply ApplyAnswer_spec in Happ as [Hh ->]. apply (answered_frame y _ l1 l2 s s); try done. simpl.
    destruct Hh as [->|(x & x' & _ & -> & _)]; [done|apply length_insert].
  - apply ApplyAnswer_spec in Happ as [Hh (-> & Hc & Hi & Ha & Hid & Hl & Hv)]. apply answered_apply; try done.
    destruct Hh as [->|(x & x' & _ & -> & _)]; [done|apply length_insert].
  - apply (answered_frame y _ l1 l2 s s'); try done; unfold closeBegin in Hc; destruct (s_closed s); by injection Hc as <- _.
  - apply (answered_same y); try done. simpl. unfold closeEnd, closePeer in He.
    destruct (heap y !! p); [|by injection He as _ <- _]. destruct (ClosePC _). injection He as _ <- _. by rewrite length_insert.
Qed.

(** * Honest signals *)

Section Honest.
Context {CL : CryptoLaws C}.

Lemma NodeID_nonempty (p : NodePublicIdentity) : ValidPublicIdentity p = true → ni_NodeID p ≠ ""%string.
Proof.
  intros (_ & _ & _ & -> & _)%ValidPublicIdentity_true H. unfold NodeID in H.
  apply (f_equal Hex.DecodeString) in H. rewrite Hex_decode_encode in H. apply (inj Some), (f_equal length) in H.
  by rewrite Sha256.Sum256_length in H.
Qed.

Lemma randomCallID_valid (rand : Z → Result bytes) (id : string) :
  Padding.rand_fills rand → randomCallID rand = Ok id → validCallID id = true.
Proof.
  intros Hr. unfold randomCallID. destruct (rand 32) as [r|] eqn:Hx; [|done]. intros <-%(inj Ok).
  specialize (Hr 32 r ltac:(lia) Hx). unfold validCallID. rewrite Base64_encode_slen, Base64_decode_encode, Hr. done.
Qed.
Lemma sign_valid (s : HybridSigner) (coins : bytes) (domain : string) (message : bytes) (sig : HybridSignature) :
  blen (edPrivate s) = ed25519_PrivateKeySize → Sign s coins domain message = Ok sig →
  Verify (PublicIdentity s) domain message sig = true.
Proof. intros Hs. by apply (sign_verifies (PrivateMaterial s)), restore_signer. Qed.

Lemma validateSDP_bounds (raw : string) (media : Media) :
  validateSDP raw media = None → (slen raw =? 0) || (MaxSDPBytes <? slen raw) || hasNUL raw = false.
Proof. unfold validateSDP. by destruct (_ || _). Qed.

(** The parties and times a signal must have to be accepted. *)
Definition addressed (s : Signal) (ty : SignalType) (from : NodePublicIdentity) (localID : string) (now : Time) : Prop :=
  sg_Version s = CallProtocolVersion ∧ sg_Type s = ty ∧ validCallID (sg_CallID s) = true ∧
  sg_InitiatorID s ≠ ""%string ∧ sg_ResponderID s ≠ ""%string ∧ sg_InitiatorID s ≠ sg_ResponderID s ∧
  (ty = SignalOffer ∧ ni_NodeID from = sg_InitiatorID s ∧ localID = sg_ResponderID s ∨
   ty = SignalAnswer ∧ ni_NodeID from = sg_ResponderID s ∧ localID = sg_InitiatorID s) ∧
  sg_CreatedAt s - clockSkew ≤ now < sg_ExpiresAt s ∧
  sg_CreatedAt s < sg_ExpiresAt s ≤ sg_CreatedAt s + MaxSignalLifetime.

Lemma signed_verifies (signer : HybridSigner) (coins : bytes) (s signal : Signal) (ty : SignalType) (localID : string)
    (now : Time) :
  blen (edPrivate signer) = ed25519_PrivateKeySize → signSignal signer coins s = Ok signal →
  sg_Signature s = zeroSignature → addressed s ty (PublicIdentity signer) localID now →
  validateMedia (sg_Media s) = None → validateSDP (sg_SDP s) (sg_Media s) = None →
  verifySignal signal ty (PublicIdentity signer) localID now = None.
Proof.
  intros Hk Hs Hz (Hv & Ht & Hid & Hi & Hr & Hne & Hp & Hnow & Hlife) Hm Hsdp.
  unfold signSignal in Hs. destruct (signalBytes s) as [encoded|] eqn:He; [|done].
  destruct (Sign signer coins signalDomain encoded) as [sg|] eqn:Hsg; [|done]. injection Hs as <-.
  assert (signalBytes (set_sig s sg) = Ok encoded) as He' by exact He.
  unfold verifySignal. cbn [set_sig sg_Version sg_Type sg_CallID sg_InitiatorID sg_ResponderID sg_CreatedAt sg_ExpiresAt
    sg_Media sg_SDP sg_Signature]. rewrite He', (PublicIdentity_valid signer Hk), Hid, Hm, (validateSDP_bounds _ _ Hsdp), Hsdp.
  rewrite (sign_valid _ _ _ _ _ Hk Hsg).
  match goal with |- context [if ?g then _ else _] => destruct g eqn:Hg end; [refute Hg|]. clear Hg.
  match goal with |- (if ?g then _ else _) = _ => destruct g eqn:Hg2 end.
  { destruct Hp as [(-> & Hf & ->)|(-> & Hf & ->)].
    - change (bool_decide (SignalOffer = SignalAnswer)) with false in Hg2. cbn [andb] in Hg2. rewrite orb_false_r in Hg2.
      apply orb_true_iff in Hg2 as [Hg2|[_ Hg2]%andb_true_iff]; unbool; congruence.
    - change (bool_decide (SignalAnswer = SignalAnswer)) with true in Hg2.
      change (bool_decide (SignalAnswer = SignalOffer)) with false in Hg2. cbn [andb] in Hg2. refute Hg2. }
  unfold After, TAdd, TSub in *.
  match goal with |- (if ?g then _ else _) = _ => destruct g eqn:Hg3 end; [|done].
  unfold MaxSignalLifetime, Minute, Second, Millisecond in *. refute Hg3.
Qed.
Lemma acquire_static (e : Endpoint) (id : string) (t : Time) : ∃ n m, (acquire e id t).1 = set_slots e n m.
Proof. destruct (acquire_spec e id t); by eexists _, _. Qed.

Lemma Start_Ok (e e' : Endpoint) (h h' : Heap) (remote : NodePublicIdentity) (media : Media) (t : Time) (v : Env)
    (r : Session * Signal) :
  Start e h remote media t v = (e', h', Ok r) →
  ValidPublicIdentity remote = true ∧ ni_NodeID remote ≠ ni_NodeID (identity e) ∧ validateMedia media = None ∧
  ∃ n m, e' = set_slots e n m ∧ startBody e' remote media v h = (h', Ok r).
Proof.
  unfold Start, startReserve. destruct (_ || _) eqn:Hg; [done|]. destruct (validateMedia media) eqn:Hm; [done|]. unbool.
  destruct (acquire_static e "" t) as (n & m & Ha). destruct (acquire e "" t) as [e1 [err|]]; [done|]. simpl in Ha.
  destruct (startBody e1 remote media v h) as [h1 [x|err]] eqn:Hb; [|done]. intros Hx. injection Hx as <- <- <-.
  split_and!; try done. exists n, m. by rewrite Hb.
Qed.

Lemma Accept_Ok (e e' : Endpoint) (h h' : Heap) (remote : NodePublicIdentity) (offer : Signal) (now t : Time) (v : Env)
    (r : Session * Signal) :
  Accept e h remote offer now t v = (e', h', Ok r) →
  verifySignal offer SignalOffer remote (ni_NodeID (identity e)) now = None ∧
  ∃ n m, e' = set_slots e n m ∧ acceptBody e' remote offer v h = (h', Ok r).
Proof.
  unfold Accept, acceptReserve. destruct (verifySignal _ _ _ _ _) eqn:Hv; [done|].
  destruct (acquire_static e (sg_CallID offer) t) as (n & m & Ha).
  destruct (acquire e _ t) as [e1 [err|]]; [done|]. simpl in Ha.
  destruct (acceptBody e1 remote offer v h) as [h1 [x|err]] eqn:Hb; [|done]. intros Hx. injection Hx as <- <- <-.
  split; [done|]. exists n, m. by rewrite Hb.
Qed.

(** The offer of [Start] as the callee sees it. *)
Lemma offer_verifies (a a' : Endpoint) (remote : NodePublicIdentity) (h h' : Heap) (media : Media) (t now : Time) (v : Env)
    (s : Session) (offer : Signal) :
  endpoint_ok a → blen (edPrivate (signer a)) = ed25519_PrivateKeySize →
  Padding.rand_fills (en_rand v) →
  Start a h remote media t v = (a', h', Ok (s, offer)) →
  sg_CreatedAt offer - clockSkew ≤ now < sg_ExpiresAt offer →
  verifySignal offer SignalOffer (identity a) (ni_NodeID remote) now = None.
Proof.
  intros (Hid & Hval & Hlife & _) Hk Hr (Hv & Hne & Hm & n & m & -> & Hb)%Start_Ok Hnow.
  apply startBody_Ok in Hb as (id & sdp & Hc & Hsdp & Hs & _ & _).
  assert (sg_CreatedAt offer = Truncate (en_now v) Millisecond ∧
          sg_ExpiresAt offer = TAdd (Truncate (en_now v) Millisecond) (signalLifetime a)) as [E1 E2].
  { unfold signSignal in Hs. destruct (signalBytes _); [|done]. destruct (Sign _ _ _ _); [|done]. by injection Hs as <-. }
  rewrite E1, E2 in Hnow. rewrite Hid in *. unfold TAdd in *.
  eapply signed_verifies; [exact Hk|exact Hs|done| |done|done].
  pose proof (NodeID_nonempty _ Hval). pose proof (NodeID_nonempty _ Hv). pose proof (randomCallID_valid _ _ Hr Hc).
  unfold addressed. cbn. rewrite Hid. split_and!; try done; unfold TAdd; try lia. by left.
Qed.

(** The parties the callee checked are in the offer. *)
Lemma verified_parties (offer : Signal) (remote : NodePublicIdentity) (localID : string) (now : Time) :
  verifySignal offer SignalOffer remote localID now = None →
  validCallID (sg_CallID offer) = true ∧ sg_InitiatorID offer = ni_NodeID remote ∧ sg_ResponderID offer = localID ∧
  sg_InitiatorID offer ≠ ""%string ∧ sg_ResponderID offer ≠ ""%string ∧ sg_InitiatorID offer ≠ sg_ResponderID offer ∧
  validateMedia (sg_Media offer) = None.
Proof.
  unfold verifySignal. change (bool_decide (SignalOffer = SignalAnswer)) with false.
  change (bool_decide (SignalOffer = SignalOffer)) with true. intros H. repeat step_if H.
  all: destruct (validateMedia _) eqn:Hm; [done|]; cbn [andb] in *; unbool; by split_and!.
Qed.

Lemma answer_verifies (b b' : Endpoint) (remote : NodePublicIdentity) (h h' : Heap) (offer : Signal) (now t later : Time)
    (v : Env) (s : Session) (answer : Signal) :
  endpoint_ok b → blen (edPrivate (signer b)) = ed25519_PrivateKeySize →
  Accept b h remote offer now t v = (b', h', Ok (s, answer)) →
  sg_CreatedAt answer - clockSkew ≤ later < sg_ExpiresAt answer →
  sg_CallID answer = sg_CallID offer ∧ sg_InitiatorID answer = ni_NodeID remote ∧ s_callID s = sg_CallID offer ∧
  s_remoteIdentity s = remote ∧ verifySignal answer SignalAnswer (identity b) (ni_NodeID remote) later = None.
Proof.
  intros (Hid & Hval & Hlife & _) Hk (Hv & n & m & -> & Hb)%Accept_Ok Hl.
  apply verified_parties in Hv as (Hc & Hi & Hr & Hi0 & Hr0 & Hne & Hm).
  apply acceptBody_Ok in Hb as (sdp & Hsdp & Hs & _ & Hcall & Hrem & _).
  assert (∃ sg, answer = set_sig {| sg_Version := CallProtocolVersion; sg_CallID := sg_CallID offer; sg_Type := SignalAnswer;
         sg_InitiatorID := sg_InitiatorID offer; sg_ResponderID := sg_ResponderID offer;
         sg_CreatedAt := Truncate (en_now v) Millisecond;
         sg_ExpiresAt := TAdd (Truncate (en_now v) Millisecond) (signalLifetime b); sg_Media := sg_Media offer;
         sg_SDP := sdp; sg_Signature := zeroSignature |} sg) as [sg Ea].
  { unfold signSignal in Hs. destruct (signalBytes _); [|done]. destruct (Sign _ _ _ _) as [sg|]; [|done].
    exists sg. by injection Hs as <-. }
  split_and!; try done; try (by rewrite Ea). rewrite Ea in Hl. cbn in Hl. unfold TAdd in Hl.
  rewrite Hid. eapply signed_verifies; [exact Hk|exact Hs|done| |done|done].
  unfold addressed. cbn [sg_Version sg_Type sg_CallID sg_InitiatorID sg_ResponderID sg_CreatedAt sg_ExpiresAt
    signalLifetime set_slots].
  rewrite <- Hid. split_and!; try done; unfold TAdd; try lia. right. by rewrite Hr.
Qed.
(** C26. An honest call connects. The offer that Start makes for another
    endpoint is accepted by that endpoint's reservation for as long as the offer lives,
    given a free slot and room to remember a call identifier not yet known; and when its
    Accept returns an answer, both sessions have the same call identifier and name each
    other, and while the answer lives the caller's ApplyAnswer passes every check and
    applies it, up to the outcome of WebRTC's SetRemoteDescription. *)
Theorem call_handshake (a a' b : Endpoint) (ha ha' : Heap) (media : Media) (t : Time) (va : Env) (sa : Session)
    (offer : Signal) :
  endpoint_ok a → blen (edPrivate (signer a)) = ed25519_PrivateKeySize →
  endpoint_ok b → blen (edPrivate (signer b)) = ed25519_PrivateKeySize →
  Padding.rand_fills (en_rand va) →
  Start a ha (identity b) media t va = (a', ha', Ok (sa, offer)) →
  (∀ now at_, sg_CreatedAt offer - clockSkew ≤ now < sg_ExpiresAt offer →
     active b < maxConcurrent b → Z.of_nat (size (remembered b at_)) < MaxRememberedCallIDs →
     remembered b at_ !! sg_CallID offer = None →
     ∃ b', acceptReserve b (identity a) offer now at_ = (b', None)) ∧
  (∀ hb now at_ vb b' hb' sb answer,
     Accept b hb (identity a) offer now at_ vb = (b', hb', Ok (sb, answer)) →
     s_callID sb = s_callID sa ∧ s_remoteIdentity sb = identity a ∧ s_remoteIdentity sa = identity b ∧
     ∀ h h' later, sg_CreatedAt answer - clockSkew ≤ later < sg_ExpiresAt answer →
       errorMethod (s_pc sa) (SetRemoteDescription {| ds_Type := SDPTypeAnswer; ds_SDP := sg_SDP answer |}) h = (h', Ok ()) →
       ApplyAnswer h sa answer later = (h', set_flags sa true true false (s_timer sa), None)).
Proof.
  intros Ha Hka Hb Hkb Hr Hst.
  pose proof Hst as (_ & _ & _ & n & m & -> & Hbody)%Start_Ok.
  pose proof Hbody as (id & sdp & _ & _ & Hs & (_ & Hlid & Hrel & Hap & Hcl) & Hcall & Hrem & Hini)%startBody_Ok.
  assert (sg_CallID offer = id) as Hid.
  { unfold signSignal in Hs. destruct (signalBytes _); [|done]. destruct (Sign _ _ _ _); [|done]. by injection Hs as <-. }
  split.
  - intros now at_ Hnow Hact Hsz Hnew. unfold acceptReserve. rewrite (offer_verifies _ _ _ _ _ _ _ _ _ _ _ Ha Hka Hr Hst Hnow).
    unfold acquire. rewrite Hnew, (bool_decide_eq_false_2 (is_Some None)) by (by intros []). rewrite andb_false_r.
    rewrite (proj2 (Z.leb_gt _ _) Hsz), andb_false_r, (proj2 (Z.leb_gt _ _) Hact). by eexists.
  - intros hb now at_ vb b' hb' sb answer Hacc.
    pose proof (λ later, answer_verifies b b' (identity a) hb hb' offer now at_ later vb sb answer Hb Hkb Hacc) as Hv.
    pose proof Hacc as (_ & n2 & m2 & -> & Hbody2)%Accept_Ok.
    apply acceptBody_Ok in Hbody2 as (_ & _ & _ & _ & Hcall2 & Hrem2 & _).
    split_and!; [congruence|done|done|]. intros h h' later Hl Hpc.
    destruct (Hv later Hl) as (H1 & H2 & _ & _ & H5). unfold ApplyAnswer.
    rewrite Hcl, Hini, Hap, H1, H2, Hid, Hcall, Hlid, Hrem. rewrite !bool_decide_eq_true_2 by done. cbn [negb orb].
    change (identity (set_slots a n m)) with (identity a). rewrite H5, Hpc, Hrel. done.
Qed.
End Honest.

(** * The theorems on the machine *)

Lemma steps_calls (config : Config) (e : Endpoint) (t0 : Time) (y : System) :
  NewEndpoint config = Ok e → rtc step (initial e t0) y → inv y.
Proof.
  intros He Hy. apply (initial_calls config e t0) in He. revert He.
  induction Hy as [|y1 y2 y3 Hs _ IH]; [done|]. intros Hi. apply IH. by eapply step_calls.
Qed.

(** C13. Calls are bounded and nothing leaks, however the calls of an endpoint
    interleave: at every moment the number of slots taken is exactly the number of calls
    being set up, sessions not closed and Close calls on their way, and never more than
    the configured limit, itself at most 64; the WebRTC connections open are exactly
    those of the sessions not closed and the Close calls on their way, so a failed Start
    or Accept leaves none behind and no slot is given back twice; and the endpoint
    remembers at most 4096 call identifiers. *)
Theorem call_slots (config : Config) (e : Endpoint) (t0 : Time) (y : System) :
  NewEndpoint config = Ok e → rtc step (initial e t0) y →
  let live := length (filter (λ s, s_closed s = false) (sessions y)) in
  active (ep y) = Z.of_nat (length (pending y) + live + length (closing y)) ∧
  active (ep y) ≤ maxConcurrent (ep y) ≤ MaxConcurrentCalls ∧
  open_peers (heap y) = (live + length (closing y))%nat ∧
  Z.of_nat (size (seen (ep y))) ≤ MaxRememberedCallIDs.
Proof.
  intros He Hy live. destruct (steps_calls config e t0 y He Hy) as [(_ & _ & _ & _ & Hm & Hs) I2 I3 I4 I5 _].
  pose proof (open_peers_count _ _ I4 I5) as Ho. unfold held in *. rewrite length_app, !length_fmap in *.
  fold live in I2, Ho. split_and!; lia.
Qed.

Lemma steps_history (e : Endpoint) (t0 : Time) (y : System) : rtc step (initial e t0) y → history y.
Proof.
  assert (history (initial e t0)) as H0 by (split; constructor). revert H0. generalize (initial e t0). intros y0 H0 Hy.
  induction Hy as [|y1 y2 y3 Hs _ IH]; [done|]. by apply IH, (step_history y1).
Qed.

(** C12. An offer is accepted at most once in its lifetime. In every history of
    an endpoint, each accepted offer was verified against the caller, this endpoint and
    the clock; two acceptances of one call identifier are at least seven minutes apart;
    and when the same offer is accepted again, its identifier is reserved only after the
    offer has expired: the second Accept verified it in time but reserved late. *)
Theorem call_replay (e : Endpoint) (t0 : Time) (y : System) (l1 l2 l3 : list Accepted) (x x' : Accepted) :
  rtc step (initial e t0) y → accepted y = l1 ++ x' :: l2 ++ x :: l3 →
  sg_CallID (ac_offer x') = sg_CallID (ac_offer x) →
  verifySignal (ac_offer x') SignalOffer (ac_remote x') (ni_NodeID (identity (ep y))) (ac_verifiedAt x') = None ∧
  ac_acquiredAt x + MaxSignalLifetime + clockSkew ≤ ac_acquiredAt x' ∧
  (ac_offer x' = ac_offer x → ac_verifiedAt x' < sg_ExpiresAt (ac_offer x) ≤ ac_acquiredAt x').
Proof.
  intros [H1 _ H3]%steps_history Hl Hid. rewrite Hl in H1, H3.
  assert (apart x' x) as Hap.
  { clear H1 Hl. induction l1 as [|z l1 IH]; simpl in H3; inversion H3 as [|? ? H3' Hf]; subst; [|by apply IH].
    apply Forall_app in Hf as [_ [Hf _]%list.Forall_cons]. done. }
  specialize (Hap Hid). unfold memory in Hap.
  apply Forall_app in H1 as [_ [[Ht' Hv'] [_ [[Ht Hv] _]%list.Forall_cons]%Forall_app]%list.Forall_cons].
  split_and!; [done|lia|]. intros Heq. apply verified_window in Hv, Hv'. rewrite Heq in Hv'. unfold memory in *. lia.
Qed.

Lemma steps_answered (e : Endpoint) (t0 : Time) (y : System) : rtc step (initial e t0) y → answered y.
Proof.
  assert (answered (initial e t0)) as H0 by (split; constructor). revert H0. generalize (initial e t0). intros y0 H0 Hy.
  induction Hy as [|y1 y2 y3 Hs _ IH]; [done|]. by apply IH, (step_answered y1).
Qed.

(** A session takes one answer, from its peer. In every history of an
    endpoint the answers applied belong to different sessions, and each was applied to a
    session this endpoint initiated, carries that session's call identifier and names
    the caller, was fresh, and bears the signature of the remote identity the call was
    started with over the signal that contains the session description used. *)
Theorem answer_once (e : Endpoint) (t0 : Time) (y : System) :
  rtc step (initial e t0) y →
  NoDup ((λ a, s_pc a.1) <$> answers y) ∧
  ∀ s answer, (s, answer) ∈ answers y →
    s_initiator s = true ∧ sg_CallID answer = s_callID s ∧ sg_InitiatorID answer = s_localID s ∧
    sg_ResponderID answer = ni_NodeID (s_remoteIdentity s) ∧
    validateSDP (sg_SDP answer) (sg_Media answer) = None ∧
    (∃ now, now ≤ clock y ∧ now < sg_ExpiresAt answer) ∧
    ∃ encoded, signalBytes answer = Ok encoded ∧
      Verify (s_remoteIdentity s) signalDomain encoded (sg_Signature answer) = true.
Proof.
  intros [_ _ Ho _ Hs]%steps_answered. split; [done|]. intros s answer Hin.
  rewrite list.Forall_forall in Hs. destruct (Hs _ Hin) as (H1 & H2 & H3 & now & Hle & Hv). simpl in *.
  apply verifySignal_None in Hv as (_ & _ & _ & Hexp & _ & Hnode & Hsdp & Hsig).
  rewrite decide_True in Hnode by done. split_and!; try done. by exists now.
Qed.

End Endpoints.

(** * A sample call *)

Module Sample.
#[local] Existing Instances Toy.crypto Toy.laws.

Definition fingerprint : string :=
  "sha-256 00:01:02:03:04:05:06:07:08:09:0a:0b:0c:0d:0e:0f:10:11:12:13:14:15:16:17:18:19:1A:1B:1C:1D:1E:1F".

#[export] Instance sdp : SdpParser := λ raw,
  Ok {| sd_Attributes := [("fingerprint", fingerprint)%string]; sd_Media := [("audio"%string, [("candidate", raw)%string])] |}.

(** A WebRTC stack that records the local description. *)
#[export] Instance webrtc : WebRTC := {|
  ECDSAKey := (); Certificate := (); PeerConnection := option Description; RTPSender := RTPCodecType; TrackLocal := ();
  ecdsa_GenerateKey _ := Ok (); GenerateCertificate _ _ := Ok (); NewPeerConnection _ _ _ := Ok None;
  AddTransceiverFromKind kind pc := (pc, Ok kind);
  CreateOffer pc := (pc, Ok {| ds_Type := SDPTypeOffer; ds_SDP := "v=0" |});
  CreateAnswer pc := (pc, Ok {| ds_Type := SDPTypeAnswer; ds_SDP := "v=1" |});
  SetLocalDescription d _ := (Some d, None); SetRemoteDescription _ pc := (pc, None);
  gatherComplete pc := pc; LocalDescription pc := pc; GetTransceivers _ := [(RTPCodecTypeAudio, RTPCodecTypeAudio)];
  ClosePC pc := (pc, None); ReplaceTrack _ _ := None;
|}.

#[export] Instance marshal : Marshaler Signal := λ s, Ok (str_bytes (sg_CallID s)).

Definition media : Media := {| md_Audio := true; md_Video := false |}.
Definition now : Time := unix_epoch_seconds * Second + 5.
Definition stamp : Time := unix_epoch_seconds * Second.
Definition env : Env :=
  {| en_keyCoins := []; en_certCoins := []; en_ctxDone := None; en_rand := Padding.zero_rand;
     en_now := now; en_sessionAt := now; en_signCoins := [] |}.
Definition callID : string := Base64.EncodeToString (replicate 32 x00).

Example fingerprint_valid : validSHA256Fingerprint fingerprint = true.
Proof. vm_compute. reflexivity. Qed.

Lemma sdp_valid (raw : string) : (raw = "v=0"%string ∨ raw = "v=1"%string) → validateSDP raw media = None.
Proof. intros [->| ->]; vm_compute; reflexivity. Qed.

Section Run.
Context (sa sb : HybridSigner) (ka : blen (edPrivate sa) = ed25519_PrivateKeySize)
        (kb : blen (edPrivate sb) = ed25519_PrivateKeySize)
        (ne : ni_NodeID (PublicIdentity sa) ≠ ni_NodeID (PublicIdentity sb)).

Definition config (s : HybridSigner) : Config :=
  {| cf_Signer := Some s; cf_ICEServers := []; cf_ICETransportPolicy := ICETransportPolicyAll; cf_SignalLifetime := 0;
     cf_MaxCallDuration := 0; cf_MaxConcurrent := 0 |}.
Definition endpoint (s : HybridSigner) : Endpoint :=
  {| signer := s; identity := PublicIdentity s;
     configuration := {| rc_ICEServers := []; rc_ICETransportPolicy := ICETransportPolicyAll;
       rc_BundlePolicy := BundlePolicyMaxBundle; rc_RTCPMuxPolicy := RTCPMuxPolicyRequire;
       rc_SDPSemantics := SDPSemanticsUnifiedPlan |};
     api := settings; signalLifetime := DefaultSignalLifetime; callDuration := DefaultCallDuration; maxConcurrent := 8;
     active := 0; seen := ∅ |}.

Lemma endpoint_created (s : HybridSigner) : blen (edPrivate s) = ed25519_PrivateKeySize → NewEndpoint (config s) = Ok (endpoint s).
Proof. intros H. unfold NewEndpoint, config. cbn [cf_Signer]. by rewrite (PublicIdentity_valid s H). Qed.

Lemma endpoint_fine (s : HybridSigner) : blen (edPrivate s) = ed25519_PrivateKeySize → endpoint_ok (endpoint s).
Proof. intros H. by destruct (NewEndpoint_ok _ _ (endpoint_created s H)). Qed.

Definition signature (s : HybridSigner) : HybridSignature :=
  ok_or zeroSignature (Sign s [] signalDomain (str_bytes callID)).
Definition signal (ty : SignalType) (sdp : string) (s : HybridSigner) : Signal :=
  {| sg_Version := CallProtocolVersion; sg_CallID := callID; sg_Type := ty; sg_InitiatorID := ni_NodeID (PublicIdentity sa);
     sg_ResponderID := ni_NodeID (PublicIdentity sb); sg_CreatedAt := stamp; sg_ExpiresAt := TAdd stamp DefaultSignalLifetime;
     sg_Media := media; sg_SDP := sdp; sg_Signature := signature s |}.
Definition offer : Signal := signal SignalOffer "v=0" sa.
Definition answer : Signal := signal SignalAnswer "v=1" sb.

Definition caller : Session :=
  session (endpoint sa) 0 callID (PublicIdentity sb) true {| sd_audio := Some RTPCodecTypeAudio; sd_video := None |} now.
Definition callee : Session :=
  session (endpoint sb) 0 callID (PublicIdentity sa) false {| sd_audio := Some RTPCodecTypeAudio; sd_video := None |} now.
Definition peer (ty : SDPType) (sdp : string) : Peer :=
  {| pr_pc := Some {| ds_Type := ty; ds_SDP := sdp |}; pr_open := true |}.

(** A slot taken, with the identifiers then known. *)
Definition busy (s : HybridSigner) (n : Z) (m : gmap string Time) : Endpoint := set_slots (endpoint s) n m.

Lemma reserved : startReserve (endpoint sa) (PublicIdentity sb) media now = (busy sa 1 ∅, None).
Proof.
  unfold startReserve. rewrite (PublicIdentity_valid sb kb), bool_decide_eq_false_2 by (intros E; by destruct ne).
  unfold acquire, remembered. cbn [endpoint seen]. rewrite map_filter_empty. reflexivity.
Qed.

Lemma started_body (n : Z) (m : gmap string Time) :
  startBody (busy sa n m) (PublicIdentity sb) media env [] = ([peer SDPTypeOffer "v=0"], Ok (caller, offer)).
Proof. reflexivity. Qed.

Lemma accepted_body (n : Z) (m : gmap string Time) :
  acceptBody (busy sb n m) (PublicIdentity sa) offer env [] = ([peer SDPTypeAnswer "v=1"], Ok (callee, answer)).
Proof. reflexivity. Qed.

Lemma call_started :
  Start (endpoint sa) [] (PublicIdentity sb) media now env =
  (busy sa 1 ∅, [peer SDPTypeOffer "v=0"], Ok (caller, offer)).
Proof. unfold Start. rewrite reserved, started_body. reflexivity. Qed.

Lemma offer_fresh (t : Time) :
  stamp - clockSkew ≤ t < stamp + DefaultSignalLifetime →
  verifySignal offer SignalOffer (PublicIdentity sa) (ni_NodeID (PublicIdentity sb)) t = None.
Proof.
  intros Ht. exact (offer_verifies (endpoint sa) _ (PublicIdentity sb) _ _ media now t env caller offer (endpoint_fine sa ka) ka
    Padding.zero_rand_fills call_started Ht).
Qed.

Lemma now_fresh : stamp - clockSkew ≤ now < stamp + DefaultSignalLifetime.
Proof. vm_compute. split; [discriminate|reflexivity]. Qed.

Definition later : Time := now + memory.

Lemma accept_first : acceptReserve (endpoint sb) (PublicIdentity sa) offer now now = (busy sb 1 {[callID := later]}, None).
Proof.
  unfold acceptReserve. cbn [endpoint identity]. rewrite (offer_fresh now now_fresh).
  unfold acquire, remembered. cbn [endpoint seen]. rewrite map_filter_empty. reflexivity.
Qed.

(** The second acceptance, verified in time and reserved when the identifier is
    forgotten. *)
Lemma accept_second :
  acceptReserve (busy sb 1 {[callID := later]}) (PublicIdentity sa) offer now later =
  (busy sb 2 {[callID := later + memory]}, None).
Proof.
  unfold acceptReserve. cbn [busy set_slots endpoint identity]. rewrite (offer_fresh now now_fresh).
  unfold acquire, remembered. cbn [busy set_slots endpoint seen]. rewrite map_filter_singleton_False by done. reflexivity.
Qed.

Lemma accepted_run :
  Accept (endpoint sb) [] (PublicIdentity sa) offer now now env =
  (busy sb 1 {[callID := later]}, [peer SDPTypeAnswer "v=1"], Ok (callee, answer)).
Proof. unfold Accept. rewrite accept_first, accepted_body. reflexivity. Qed.

Lemma answer_fresh :
  verifySignal answer SignalAnswer (PublicIdentity sb) (ni_NodeID (PublicIdentity sa)) now = None.
Proof.
  exact (proj2 (proj2 (proj2 (proj2 (answer_verifies (endpoint sb) _ (PublicIdentity sa) _ _ offer now now now env callee answer
    (endpoint_fine sb kb) kb accepted_run now_fresh))))).
Qed.

Definition connected : Session := set_flags caller true true false (s_timer caller).

Lemma applied :
  ApplyAnswer [peer SDPTypeOffer "v=0"] caller answer now = ([peer SDPTypeOffer "v=0"], connected, None).
Proof.
  unfold ApplyAnswer. change (s_remoteIdentity caller) with (PublicIdentity sb).
  change (s_localID caller) with (ni_NodeID (PublicIdentity sa)). rewrite answer_fresh.
  change (sg_InitiatorID answer) with (ni_NodeID (PublicIdentity sa)). rewrite (bool_decide_eq_true_2 (_ = ni_NodeID _)) by done.
  reflexivity.
Qed.

(** The callee after it accepted the offer twice. *)
Definition record (t : Time) : Accepted :=
  {| ac_remote := PublicIdentity sa; ac_offer := offer; ac_verifiedAt := now; ac_acquiredAt := t |}.
Definition twice : System :=
  {| ep := busy sb 2 {[callID := later + memory]}; heap := [];
     pending := [PendingAccept (PublicIdentity sa) offer; PendingAccept (PublicIdentity sa) offer]; sessions := [];
     closing := []; clock := later; accepted := [record later; record now]; answers := [] |}.

Lemma run_twice : rtc step (initial (endpoint sb) now) twice.
Proof.
  eapply rtc_l; [exact (step_accept (initial (endpoint sb) now) _ _ now _ None (Z.le_refl now) accept_first)|].
  eapply rtc_l; [refine (step_tick _ later _); vm_compute; discriminate|].
  eapply rtc_once. match goal with |- step ?y _ => refine (step_accept y _ _ now _ None _ accept_second) end.
  vm_compute. discriminate.
Qed.

(** The caller after the answer. *)
Definition connectedSystem : System :=
  {| ep := busy sa 1 ∅; heap := [peer SDPTypeOffer "v=0"]; pending := []; sessions := [connected]; closing := [];
     clock := now; accepted := []; answers := [(caller, answer)] |}.

Lemma run_connected : rtc step (initial (endpoint sa) now) connectedSystem.
Proof.
  eapply rtc_l; [exact (step_start (initial (endpoint sa) now) _ _ _ None reserved)|].
  eapply rtc_l; [match goal with |- step ?y _ => exact (step_body_ok y [] _ [] env _ _ _ eq_refl (started_body 1 ∅)) end|].
  eapply rtc_once. match goal with |- step ?y _ => exact (step_answer y [] _ [] answer _ _ None eq_refl applied) end.
Qed.

End Run.

Definition preimage (b : byte) : bytes := str_bytes "enig/node-id/v1" ++ replicate 32 b ++ replicate 1952 b.

Lemma digests_differ : bytes_equal (Sha256.Sum256 (preimage x01)) (Sha256.Sum256 (preimage x02)) = false.
Proof. vm_compute. reflexivity. Qed.

Definition alice : HybridSigner := Toy.signer x01.
Definition bob : HybridSigner := Toy.signer x02.

Lemma nodes_differ : ni_NodeID (PublicIdentity alice) ≠ ni_NodeID (PublicIdentity bob).
Proof.
  intros E. apply (inj Hex.EncodeToString) in E.
  change (Sha256.Sum256 (preimage x01) = Sha256.Sum256 (preimage x02)) in E.
  apply bytes_equal_true in E. pose proof digests_differ. congruence.
Qed.
End Sample.

#[local] Existing Instances Toy.crypto Toy.laws Sample.sdp Sample.webrtc Sample.marshal.

Lemma call_handshake_witness :
  (∃ b', acceptReserve (Sample.endpoint Sample.bob) (PublicIdentity Sample.alice) (Sample.offer Sample.alice Sample.bob)
           Sample.now Sample.now = (b', None)) ∧
  ApplyAnswer [Sample.peer SDPTypeOffer "v=0"] (Sample.caller Sample.alice Sample.bob)
    (Sample.answer Sample.alice Sample.bob) Sample.now =
  ([Sample.peer SDPTypeOffer "v=0"], Sample.connected Sample.alice Sample.bob, None).
Proof.
  destruct (call_handshake (Sample.endpoint Sample.alice) _ (Sample.endpoint Sample.bob) [] _ Sample.media Sample.now Sample.env
    _ _ (Sample.endpoint_fine Sample.alice eq_refl) eq_refl (Sample.endpoint_fine Sample.bob eq_refl) eq_refl
    Padding.zero_rand_fills (Sample.call_started Sample.alice Sample.bob eq_refl Sample.nodes_differ)) as [H1 H2].
  split.
  - apply H1; [exact Sample.now_fresh|reflexivity|reflexivity|reflexivity].
  - destruct (H2 _ _ _ _ _ _ _ _ (Sample.accepted_run Sample.alice Sample.bob eq_refl eq_refl Sample.nodes_differ))
      as (_ & _ & _ & H). apply H; [exact Sample.now_fresh|reflexivity].
Defined.

Lemma call_slots_witness :
  active (ep (Sample.connectedSystem Sample.alice Sample.bob)) = 1 ∧
  open_peers (heap (Sample.connectedSystem Sample.alice Sample.bob)) = 1%nat.
Proof.
  destruct (call_slots (Sample.config Sample.alice) (Sample.endpoint Sample.alice) Sample.now _
    (Sample.endpoint_created Sample.alice eq_refl) (Sample.run_connected Sample.alice Sample.bob eq_refl eq_refl Sample.nodes_differ))
    as (H1 & _ & H2 & _).
  split; [exact H1|exact H2].
Defined.

Lemma call_replay_witness :
  Sample.now < sg_ExpiresAt (Sample.offer Sample.alice Sample.bob) ≤ Sample.later.
Proof.
  apply (call_replay (Sample.endpoint Sample.bob) Sample.now _ [] [] [] _ _
    (Sample.run_twice Sample.alice Sample.bob eq_refl eq_refl Sample.nodes_differ) eq_refl eq_refl). reflexivity.
Defined.

Lemma answer_once_witness :
  ∃ encoded, signalBytes (Sample.answer Sample.alice Sample.bob) = Ok encoded ∧
    Verify (PublicIdentity Sample.bob) signalDomain encoded (sg_Signature (Sample.answer Sample.alice Sample.bob)) = true.
Proof.
  destruct (answer_once (Sample.endpoint Sample.alice) Sample.now _
    (Sample.run_connected Sample.alice Sample.bob eq_refl eq_refl Sample.nodes_differ)) as [_ H].
  apply (H (Sample.caller Sample.alice Sample.bob)). apply list_elem_of_here.
Defined.

End Call.
